(* ===== verification/_CoqProject ===== *)
-Q . S2P
Prelude.v
Regex.v
Stemmer.v
Doctools.v
Highlight.v
HighlightPage.v
Search.v
SearchProofs.v
SearchTerms.v
SearchOrder.v
SearchSummary.v
Uri.v
JsCore.v
UsObjects.v
UsCollections.v
UsArrays.v
UsFunctions.v
UsTiming.v
UsTemplate.v
JsLogic.v
UsArrayProofs.v
UsSlices.v
UsSorting.v
UsEquality.v
UsTimingProofs.v
UsTemplateProofs.v
UsFunctionProofs.v
UsWitnesses.v
JqCore.v
JqParam.v
JqQuery.v
JqCallbacks.v
JqDeferred.v
JqSettle.v
JqFiring.v
JqData.v
JqDataProofs.v
SzTokens.v
SzTokensProofs.v
SzMatch.v
SzReference.v
SzWalks.v
SzEngine.v
SzSelect.v
SzNthLast.v
JqEvent.v
JqNamespace.v
JqBindings.v
JqRefine.v
JqDispatch.v
JqWellFormed.v
JqConvert.v
JqConvertProofs.v
JqQueue.v
JqQueueProofs.v
JqQueueEnds.v
JqPromises.v
JqTransports.v
JqAjax.v
JqAjaxProofs.v
JqAjaxEnds.v
SzOrder.v
SzOrderProofs.v
JqHeaders.v
JqHeadersProofs.v
JqTrigger.v
JqTriggerProofs.v
