(* ===== verification/Prelude.v ===== *)
(** * The JavaScript of the TFProtocol documentation site

    TFProtocol is a network server with its documentation built by Sphinx.  This
    development verifies the program of that site, the JavaScript under
    [src/docs/_static]: the search, highlighting, translation and keyboard
    scripts of Sphinx, and the two libraries the pages load, underscore.js and
    jquery.js.  Definitions are executable translations of the sources; theorems
    are about those definitions.

    ** Parts and files

    - The language.  [Prelude]: strings as lists of 16-bit code units, results
      with exceptions, [split], [join], [indexOf], [trim], the properties every
      object inherits.  [Regex]: the backtracking matcher of ECMAScript for the
      patterns the sources use.  [Uri]: [encodeURIComponent] and its inverse.
      [JsCore]: values, numbers, objects in a heap, property access along
      prototype chains, conversions, loops, in a state-and-exception monad;
      [JsLogic]: its weakest preconditions and the lemmas on arrays.
    - The Sphinx scripts.  [Stemmer]: [language_data.js].  [Doctools]:
      [doctools.js] with [documentation_options.js].  [Highlight]: the marking of
      [sphinx_highlight.js], and the older [highlightText] of the compatibility
      shim; [HighlightPage]: the same script on a page, with the link in the search
      box, the key Escape, local storage and the timers, and its theorem.  [Search]: [searchtools.js], from the query string to the ranked list
      and its display, with the state machine of index, queued query and pulse;
      [SearchProofs], [SearchTerms], [SearchOrder], [SearchSummary] hold its theorems.
    - underscore.js.  [UsObjects], [UsCollections], [UsArrays], [UsFunctions],
      [UsTiming], [UsTemplate] follow the sections of the file; [UsArrayProofs],
      [UsSlices], [UsSorting], [UsEquality], [UsTimingProofs], [UsTemplateProofs],
      [UsFunctionProofs] hold the theorems and [UsWitnesses] applies them to a
      small heap.
    - jquery.js.  [JqCore]: type tests, iteration, array utilities, [extend],
      [camelCase].  [JqParam]: [param], [serialize], and the URL helpers of
      [_sphinx_javascript_frameworks_compat.js] that read such a string, proved
      against each other in [JqQuery].  [JqCallbacks] and [JqDeferred]: callback
      lists and deferred objects with arbitrary re-entrant code of the page;
      [JqSettle] and [JqFiring] hold their theorems.  [JqData]: the data stores,
      refined to finite maps in [JqDataProofs].  [JqEvent]: the event handlers,
      with [on], [one], [off] and [dispatch]; [JqNamespace] decides their
      namespaces, [JqBindings] and [JqRefine] show that the lists refine a list of
      bindings, [JqDispatch] what an event calls, and [JqWellFormed] what no
      command and no handler breaks.  [JqTrigger]: [trigger], with default actions and
      a page that triggers events to any depth; [JqTriggerProofs] shows what a trigger
      visits and what it leaves behind.  [JqQueue]: queues and their promises with
      the done callbacks of the page, on an abstract store; [JqQueueProofs] shows in which order functions run,
      [JqQueueEnds] that they end, [JqPromises] when promises resolve and what they call.
      [JqConvert]: the choice of an ajax response and its conversion, with its
      theorem in [JqConvertProofs].  [JqTransports]: prefilters and transports.
      [JqAjax]: the life of a request, which uses both; [JqAjaxProofs] keeps the
      invariants of a store monad in which the page may do anything at every hook,
      [JqAjaxEnds] states what follows.  [JqHeaders]: the address, the data and the
      headers of a request and the headers of its response, with theorems in
      [JqHeadersProofs].
    - Sizzle, the selector engine of jquery.js.  [SzTokens]: the tokenizer with
      its prefilters, with theorems in [SzTokensProofs].  [SzMatch]: the filters,
      the matchers that combinators build, with the caches they keep on elements,
      and [compile].  [SzReference] says what selectors mean without any of that;
      [SzWalks] and [SzEngine] show that the caches are transparent, and
      [SzSelect] that compiled selections find the elements of the reference;
      [SzNthLast] shows what the cache of [:nth-last-child], which they leave out, does.
      [SzOrder]: both comparisons of nodes and [uniqueSort], with their theorems in
      [SzOrderProofs].

    A definition carries the name of the function it translates where Rocq allows
    it; the comment above it gives the expression or the lines otherwise.

    ** How the code is modelled

    Numbers of the language are NaN, the infinities, the two zeros and unbounded
    integers: the sources count, index and compare times with them.  Fractions
    are left out except where a rounding is the point, as in the score of a title
    and in [random].  Objects have data properties with their enumerability, in
    the order of creation, and a prototype.  Functions of the caller are a
    parameter [call] of the sections, which may do anything to the heap, or, for
    callbacks and deferreds, programs that may call every method of the library
    and are resumed with its answer.  The browser is a parameter or an effect: DOM
    trees are inductive trees with identities, timers are lists in the state that
    an event loop consumes, [Math.random] and the character database are fields of
    classes ([Realm], [Unicode]) with the laws used stated next to them
    ([UnicodeLaws]).

    Loops over lists are structural.  Where the recursion is not structural a
    definition takes fuel and answers [NoFuel] or [None] when it is used up.  The
    theorems say that the fuel in the statement is enough: the number of entries
    for the loops of arrays, the length of the text for the matcher, twice the
    number of objects for [isEqual], the number of callbacks for a firing, the
    height and twice the width of the document for a selection.
    For queues whose functions queue nothing it is twice the functions and callbacks given,
    for conversions twice the number of types.  [deferred_settles_once],
    [queue_runs_in_order] and [promise_resolves_once] hold at every fuel: they are
    about all that happens before the fuel is used up too, as are the theorems on
    ajax requests; [triggers_leave_no_trace] is about the runs that return, since a page
    may trigger without end.

    ** What is proved

    - Search: what a full-text search finds matches and what matches is found for
      one word; queries return, and their results are ranked and free of
      duplicates; a query waits for the index and runs once; words of a query
      are well formed and the stemmer keeps its shape; a summary shows the keyword
      that it was cut out for.
    - Highlighting marks only occurrences, and whatever happens to a page its text
      stays what it was but for the link that hides the marks, which goes with them.
    - underscore.js: searching, sorting, grouping, slicing and comparing return
      what their documentation says, for every caller's function allowed; timers of
      [throttle] and [debounce] keep their distance and lose no last call;
      escaping and templates can be read back.
    - jquery.js: a deferred settles at most once and then calls only the callbacks
      of its side, in every run; callback lists deliver once, in order, and
      survive removal while firing; data stores refine finite maps; a form is
      read back from its query string; the event handlers are those that were
      bound and not unbound, in order, an event calls them from its target
      upwards whatever they bind and unbind meanwhile, and their lists stay well
      formed also after exceptions.  A triggered event goes from its element to the
      window and leaves no trace, unless a default action throws.  Queues run their functions in order, those of
      [fx] one at a time and without stalling, and their promises resolve once, when
      each has been dequeued with nothing left in it, and call their callbacks in order.  An ajax request ends once, with its callbacks in order, and
      the counter of requests is right; its prefilters come to an end, and so does
      the conversion of its response, which yields the type asked for.  The query of
      its address holds what was given, the data and one new stamp; its headers merge
      without regard to case, those of its response are read back, and what a response
      says of its date returns with the next request.
    - Sizzle: the tokens of a selector cover its text; a selection with a compiled
      selector ends with exactly the elements that match, whatever earlier
      selections left in the caches; [uniqueSort] puts the nodes of a document in
      the order of a walk through it, once each, with and without the help of the
      browser.
    - Divergences that modelling found are theorems too: the pulse that never
      stops, matches lost for several words, names inherited from
      [Object.prototype] that break search and query strings, occurrences that
      stay unmarked, a callback that throws and jams its list, a chained wrapper
      that recurs without end, a cache of [:nth-last-child] that lies, a cleared
      queue that runs two functions at once or keeps its promises waiting, a done
      callback whose exception keeps other promises from resolving, marks of drawings
      that are never hidden, requests that stay counted, duplicates
      of detached nodes that stay in a set, a default action that throws and mutes
      the events of its type.

    ** Not modelled

    The server, its extensions, the clients and the container tool are C and
    Python programs, outside the JavaScript part.  Of Sizzle: positional
    pseudo-classes with the set matchers they need, [:has], [:lang], [:target] and
    [:focus], the caches of compiled selectors, and the entry points that choose
    between the engine and the browser's own selectors.  Of jquery.js: traversal and
    manipulation of the DOM, the event objects themselves and the handlers around native [focus], [blur] and
    clicks of check boxes, style, effects and the [stop] of their queues,
    dimensions, and of ajax the merging of settings and the transports; and [proxy], [globalEval] and [noConflict].
    Names of event namespaces are pasted into expressions as they are: for names with
    special characters [off] and [trigger] answer [OutOfModel].
    Of underscore.js: the module wrapper and [noConflict].  Of the Sphinx scripts:
    layout (the bounding boxes of SVG text), labels with markup in the link of the
    search box, [fetch] and the creation of the elements of the result page.

    ** Plan

    Next: the set matchers of Sizzle, and the merging of ajax settings. *)

From Stdlib Require Export ZArith NArith Lia Ascii.
From stdpp Require Export base strings gmap numbers.
From stdpp Require Export list.

#[global] Set Default Goal Selector "!".

Declare Scope js_scope.
Delimit Scope js_scope with js.
Open Scope js_scope.

(** * JavaScript strings

    A JavaScript string is a sequence of 16-bit code units.  The sources only
    write ASCII literals (two escapes excepted), so [js] turns a Rocq string
    literal into the sequence of its code units. *)

Abbreviation jstr := (list N).

Definition js (s : string) : jstr := N_of_ascii <$> String.list_ascii_of_string s.

Definition chr (s : string) : N :=
  match js s with c :: _ => c | [] => 0%N end.

(** ** Results of code that may throw *)

Inductive exn : Type :=
| TypeError
| RangeError
| URIError
| EvalError (what : jstr)      (** [throw new Error(what)] *)
| UserError (code : N)         (** an exception raised by a caller's callback *)
| OutOfModel (what : jstr).    (** a corner of the language the model leaves out *)

Inductive res (A : Type) : Type :=
| Ok (a : A)
| Throw (e : exn).
Arguments Ok {A} a.
Arguments Throw {A} e.

#[global] Instance exn_eq_dec : EqDecision exn.
Proof. solve_decision. Defined.
#[global] Instance res_eq_dec {A} `{EqDecision A} : EqDecision (res A).
Proof. solve_decision. Defined.

Definition rbind {A B} (m : res A) (f : A -> res B) : res B :=
  match m with Ok a => f a | Throw e => Throw e end.

Definition rmap {A B} (f : A -> B) (m : res A) : res B := rbind m (fun a => Ok (f a)).

Notation "'do' x <- m ; k" := (rbind m (fun x => k))
  (at level 10, x pattern, m at level 100, k at level 200) : js_scope.

Definition is_ok {A} (m : res A) : bool := match m with Ok _ => true | Throw _ => false end.

Fixpoint rmapM {A B} (f : A -> res B) (l : list A) : res (list B) :=
  match l with
  | [] => Ok []
  | x :: l' => do y <- f x; do ys <- rmapM f l'; Ok (y :: ys)
  end.

Lemma rbind_Ok {A B} (m : res A) (f : A -> res B) b :
  rbind m f = Ok b <-> exists a, m = Ok a /\ f a = Ok b.
Proof. destruct m; simpl; naive_solver. Qed.

(** ** [String.prototype] as the sources use it *)

Fixpoint is_prefix (p s : jstr) : bool :=
  match p, s with
  | [], _ => true
  | x :: p', y :: s' => N.eqb x y && is_prefix p' s'
  | _ :: _, [] => false
  end.

(** Position of the first occurrence of [p] in [s], counted from [i]. *)
Fixpoint find_sub (p s : jstr) (i : nat) : option nat :=
  if is_prefix p s then Some i
  else match s with [] => None | _ :: s' => find_sub p s' (S i) end.

(** [s.indexOf(p)]: the first position, or -1. *)
Definition indexOf (s p : jstr) : Z :=
  match find_sub p s 0 with Some i => Z.of_nat i | None => -1 end.

Definition includes (s p : jstr) : bool :=
  match find_sub p s 0 with Some _ => true | None => false end.

(** [s.substr(start, len)] for a non-negative [start]. *)
Definition substr (s : jstr) (start len : nat) : jstr := take len (drop start s).
(** [s.substr(start)] for a non-negative [start]. *)
Definition substr_from (s : jstr) (start : nat) : jstr := drop start s.
(** [s.substr(-n)]: the last [n] code units. *)
Definition substr_last (s : jstr) (n : nat) : jstr := drop (length s - n) s.

(** [s.startsWith(p)], [s.endsWith(p)] *)
Definition startsWith (s p : jstr) : bool := is_prefix p s.
Definition endsWith (s p : jstr) : bool := is_prefix (rev p) (rev s).

(** [parts.join(sep)] *)
Fixpoint join (sep : jstr) (parts : list jstr) : jstr :=
  match parts with
  | [] => []
  | [p] => p
  | p :: ps => p ++ sep ++ join sep ps
  end.

(** [s.split(c)] for a one-character separator. *)
Fixpoint split_char (c : N) (s : jstr) : list jstr :=
  match s with
  | [] => [[]]
  | x :: s' =>
      if N.eqb x c then [] :: split_char c s'
      else match split_char c s' with
           | w :: ws => (x :: w) :: ws
           | [] => [[x]]
           end
  end.

(** Line terminators and white space of the ECMAScript grammar. *)
Definition is_line_terminator (c : N) : bool :=
  N.eqb c 10 || N.eqb c 13 || N.eqb c 0x2028 || N.eqb c 0x2029.

Definition is_space (c : N) : bool :=
  is_line_terminator c || N.eqb c 9 || N.eqb c 11 || N.eqb c 12 || N.eqb c 32
  || N.eqb c 0xA0 || N.eqb c 0xFEFF || N.eqb c 0x1680
  || (N.leb 0x2000 c && N.leb c 0x200A)
  || N.eqb c 0x202F || N.eqb c 0x205F || N.eqb c 0x3000.

Fixpoint drop_while (p : N -> bool) (s : jstr) : jstr :=
  match s with
  | x :: s' => if p x then drop_while p s' else s
  | [] => []
  end.

(** [s.trim()] *)
Definition trim (s : jstr) : jstr := rev (drop_while is_space (rev (drop_while is_space s))).

Definition in_range (lo hi c : N) : bool := N.leb lo c && N.leb c hi.
Definition is_digit (c : N) : bool := in_range 48 57 c.
Definition is_upper (c : N) : bool := in_range 65 90 c.
Definition is_lower (c : N) : bool := in_range 97 122 c.
(** [\w] *)
Definition is_word_char (c : N) : bool := is_digit c || is_upper c || is_lower c || N.eqb c 95.
Definition is_ascii (c : N) : bool := N.ltb c 128.

(** [String(n)] for a non-negative integer [n]. *)
Fixpoint digits (fuel : nat) (n : N) (acc : jstr) : jstr :=
  match fuel with
  | O => acc
  | S f =>
      let acc' := (48 + n mod 10)%N :: acc in
      if N.ltb n 10 then acc' else digits f (n / 10)%N acc'
  end.
Definition N_to_jstr (n : N) : jstr := digits (S (N.to_nat (N.size n))) n [].
Definition Z_to_jstr (z : Z) : jstr :=
  match z with
  | Zneg p => js "-" ++ N_to_jstr (Npos p)
  | _ => N_to_jstr (Z.to_N z)
  end.

(** ** Unicode

    Case mapping and the general categories of non-ASCII characters come from
    the Unicode Character Database of the engine, which is not part of the
    repository; they are the fields of this class.  ASCII is fixed by the
    definitions below. *)

Class Unicode : Type := {
  unicode_lower : jstr -> jstr;       (** [toLowerCase] of a string with a non-ASCII unit *)
  unicode_upper : jstr -> jstr;       (** [toUpperCase], same *)
  unicode_word : N -> bool;           (** [\p{Letter}], [\p{Number}] or [\p{Emoji_Presentation}]
                                          for a code point above 127 *)
}.

Definition ascii_lower (c : N) : N := if is_upper c then (c + 32)%N else c.
Definition ascii_upper (c : N) : N := if is_lower c then (c - 32)%N else c.

Section case_mapping.
Context `{Unicode}.
Definition toLowerCase (s : jstr) : jstr :=
  if forallb is_ascii s then ascii_lower <$> s else unicode_lower s.
Definition toUpperCase (s : jstr) : jstr :=
  if forallb is_ascii s then ascii_upper <$> s else unicode_upper s.
End case_mapping.

(** A character database that knows no letter outside ASCII; the witnesses run
    with it. *)
#[export] Instance ascii_only : Unicode | 100 := {|
  unicode_lower := fun s => ascii_lower <$> s;
  unicode_upper := fun s => ascii_upper <$> s;
  unicode_word := fun _ => false;
|}.

(** * Lemmas on strings *)

(** A decidable fact about concrete data *)
Ltac by_deciding := apply (bool_decide_unpack _); vm_compute; exact I.

Lemma is_prefix_spec p s : is_prefix p s = true <-> exists t, s = p ++ t.
Proof.
  revert s; induction p as [|x p IH]; intros s; simpl; [naive_solver|].
  destruct s as [|y s]; [naive_solver|].
  rewrite andb_true_iff, N.eqb_eq, IH. naive_solver.
Qed.

Lemma is_prefix_app p t : is_prefix p (p ++ t) = true.
Proof. apply is_prefix_spec; eauto. Qed.

Lemma find_sub_shift p s i j :
  find_sub p s i = Some j -> (i <= j)%nat /\ find_sub p s 0 = Some (j - i)%nat.
Proof.
  revert i j; induction s as [|y s IH]; intros i j; simpl;
    destruct (is_prefix p _) eqn:E; intros H; simplify_eq.
  - split; [lia|]. by rewrite Nat.sub_diag.
  - split; [lia|]. by rewrite Nat.sub_diag.
  - destruct (IH _ _ H) as [Hle H0]. split; [lia|].
    destruct (find_sub p s 1) as [k|] eqn:E1.
    + destruct (IH _ _ E1) as [? H1]. rewrite H0 in H1. injection H1 as H1. f_equal; lia.
    + exfalso. clear IH. revert E1 H0. generalize (j - S i)%nat. generalize 0%nat, 1%nat.
      clear. induction s as [|y s IH]; intros a b k; simpl; destruct (is_prefix p _); eauto; congruence.
Qed.

(** An occurrence found is an occurrence, and there is none before it. *)
Lemma find_sub_Some p s j :
  find_sub p s 0 = Some j ->
  s = take j s ++ p ++ drop (j + length p) s /\ (j + length p <= length s)%nat.
Proof.
  revert j; induction s as [|y s IH]; intros j; simpl.
  - destruct p as [|x p]; simpl; [|done]. intros [= <-]. done.
  - destruct (is_prefix p (y :: s)) eqn:E; intros H.
    + simplify_eq. apply is_prefix_spec in E as [t Ht].
      assert (length (y :: s) = length p + length t)%nat as Hl by (by rewrite Ht, length_app).
      simpl in Hl. rewrite Ht, take_0, drop_app_length' by lia. split; [done|lia].
    + apply find_sub_shift in H as [Hle H]. destruct j as [|j]; [lia|].
      simpl in H. rewrite Nat.sub_0_r in H. destruct (IH _ H) as [Heq Hl].
      simpl. split; [by f_equal|lia].
Qed.

Lemma find_sub_None_shift p s i : find_sub p s i = None <-> find_sub p s 0 = None.
Proof.
  revert i. induction s as [|y s IH]; intros i; simpl; destruct (is_prefix p _); try done.
  rewrite (IH (S i)), (IH 1%nat). done.
Qed.

Lemma find_sub_None p s :
  find_sub p s 0 = None <-> forall a b, s <> a ++ p ++ b.
Proof.
  induction s as [|y s IH]; simpl.
  - destruct p as [|x p]; simpl.
    + split; [done|]. intros H. by destruct (H [] []).
    + split; [|done]. intros _ a b H. by destruct a.
  - destruct (is_prefix p (y :: s)) eqn:E.
    + split; [done|]. intros H. apply is_prefix_spec in E as [t Ht]. by destruct (H [] t).
    + rewrite find_sub_None_shift, IH. split.
      * intros H [|z a] b Hab; simplify_eq/=; [|by eapply H].
        assert (is_prefix p (y :: s) = true) as E' by (rewrite Hab; apply is_prefix_app).
        congruence.
      * intros H a b ->. by apply (H (y :: a) b).
Qed.

Lemma find_sub_minimal p s j i :
  find_sub p s 0 = Some j -> (i < j)%nat -> is_prefix p (drop i s) = false.
Proof.
  revert j i; induction s as [|y s IH]; intros j i; simpl.
  { destruct (is_prefix p []); intros; simplify_eq; lia. }
  destruct (is_prefix p _) eqn:E; [intros; simplify_eq; lia|].
  intros H Hij. apply find_sub_shift in H as [Hle H].
  destruct i as [|i]; simpl; [done|]. eapply IH; [done|lia].
Qed.

Lemma includes_spec s p : includes s p = true <-> exists a b, s = a ++ p ++ b.
Proof.
  unfold includes. destruct (find_sub p s 0) as [j|] eqn:E.
  - apply find_sub_Some in E as [H _]. split; [eauto|done].
  - rewrite find_sub_None in E. split; [done|]. intros (a & b & H). by destruct (E a b).
Qed.

Lemma indexOf_nonneg s p : (0 <= indexOf s p)%Z <-> includes s p = true.
Proof. unfold indexOf, includes. destruct (find_sub p s 0); split; intros; lia || done. Qed.

Lemma indexOf_neg s p : (indexOf s p < 0)%Z <-> includes s p = false.
Proof. unfold indexOf, includes. destruct (find_sub p s 0); split; intros; lia || done. Qed.

Lemma indexOf_ge_m1 s p : (-1 <= indexOf s p)%Z.
Proof. unfold indexOf. destruct (find_sub p s 0); lia. Qed.

Lemma js_length s : length (js s) = String.length s.
Proof. unfold js. rewrite length_fmap. induction s; simpl; congruence. Qed.

Lemma drop_while_length p s : (length (drop_while p s) <= length s)%nat.
Proof. induction s; simpl; [done|]. destruct (p _); simpl; lia. Qed.

Lemma trim_length s : (length (trim s) <= length s)%nat.
Proof.
  unfold trim. rewrite length_rev. etrans; [apply drop_while_length|].
  rewrite length_rev. apply drop_while_length.
Qed.

Lemma join_app sep a b :
  a <> [] -> b <> [] -> join sep (a ++ b) = join sep a ++ sep ++ join sep b.
Proof.
  intros Ha Hb. induction a as [|x [|y a] IH]; [done| |].
  - simpl. by destruct b.
  - simpl in *. rewrite IH by done. by rewrite <- !app_assoc.
Qed.

(** Splitting on a character and joining with it is the identity. *)
Lemma join_split_char c s : join [c] (split_char c s) = s.
Proof.
  assert (forall s, split_char c s <> []) as Hne.
  { intros [|x s']; simpl; [done|]. destruct (N.eqb x c); [done|]. by destruct (split_char c s'). }
  induction s as [|x s IH]; simpl; [done|].
  destruct (N.eqb_spec x c) as [->|Hx].
  - destruct (split_char c s) as [|w ws] eqn:E; [by destruct (Hne s)|]. simpl in *. by rewrite IH.
  - destruct (split_char c s) as [|w ws] eqn:E; [by destruct (Hne s)|].
    rewrite <- IH. by destruct ws.
Qed.

Lemma split_char_none c s : c ∉ s -> split_char c s = [s].
Proof.
  induction s as [|x s IH]; [done|]. intros [Hx Hs]%not_elem_of_cons. simpl.
  destruct (N.eqb_spec x c); [congruence|]. by rewrite IH.
Qed.

Lemma split_char_app c p s : c ∉ p -> split_char c (p ++ c :: s) = p :: split_char c s.
Proof.
  induction p as [|x p IH]; simpl; [by rewrite N.eqb_refl|]. intros [Hx Hp]%not_elem_of_cons.
  destruct (N.eqb_spec x c); [congruence|]. by rewrite IH.
Qed.

Lemma split_char_cut c a b : split_char c (a ++ c :: b) = split_char c a ++ split_char c b.
Proof.
  induction a as [|x a IH]; simpl; [by rewrite N.eqb_refl|]. rewrite IH. destruct (N.eqb x c); [done|].
  destruct (split_char c a) as [|w ws] eqn:E; [|done]. by destruct a; simpl in E; repeat case_match.
Qed.

Lemma split_char_join c parts :
  parts <> [] -> Forall (fun p => c ∉ p) parts -> split_char c (join [c] parts) = parts.
Proof.
  intros Hne F. induction F as [|p parts Hp F IH]; [done|]. destruct parts as [|q parts].
  - by apply split_char_none.
  - change (join [c] (p :: q :: parts)) with (p ++ c :: join [c] (q :: parts)).
    by rewrite split_char_app, IH.
Qed.

Lemma split_char_no_sep c s w : w ∈ split_char c s -> c ∉ w.
Proof.
  revert w; induction s as [|x s IH]; intros w; simpl.
  - rewrite list_elem_of_singleton. intros ->. apply not_elem_of_nil.
  - destruct (N.eqb_spec x c) as [->|Hx].
    + rewrite elem_of_cons. intros [->|?]; [apply not_elem_of_nil|eauto].
    + destruct (split_char c s) as [|v vs].
      * rewrite list_elem_of_singleton. intros ->. rewrite list_elem_of_singleton. congruence.
      * rewrite elem_of_cons. intros [->|?].
        -- rewrite not_elem_of_cons. split; [congruence|]. apply IH. left.
        -- apply IH. by right.
Qed.

(** * Properties every object inherits

    [obj[key]] on an object literal also finds the members of Object.prototype. *)
Definition object_proto_methods : list jstr := js <$>
  ["constructor"; "__defineGetter__"; "__defineSetter__"; "hasOwnProperty"; "__lookupGetter__";
   "__lookupSetter__"; "isPrototypeOf"; "propertyIsEnumerable"; "toString"; "valueOf";
   "toLocaleString"]%string.

(** What [obj[key]] is, for an object literal with own properties of type [A]. *)
Inductive prop_val (A : Type) : Type :=
| POwn (a : A)          (** an own property *)
| PMethod               (** a function of Object.prototype *)
| PProto                (** Object.prototype itself, under the key [__proto__] *)
| PUndefined.
Arguments POwn {A} a.
Arguments PMethod {A}.
Arguments PProto {A}.
Arguments PUndefined {A}.

Fixpoint assoc {A} (key : jstr) (l : list (jstr * A)) : option A :=
  match l with
  | [] => None
  | (k, v) :: l' => if decide (k = key) then Some v else assoc key l'
  end.

Definition obj_get {A} (l : list (jstr * A)) (key : jstr) : prop_val A :=
  match assoc key l with
  | Some a => POwn a
  | None =>
      if decide (key ∈ object_proto_methods) then PMethod
      else if decide (key = js "__proto__") then PProto
      else PUndefined
  end.

(** [obj[key] = v]: an existing property keeps its place, a new one goes last. *)
Fixpoint assoc_set {A} (key : jstr) (v : A) (l : list (jstr * A)) : list (jstr * A) :=
  match l with
  | [] => [(key, v)]
  | (k, x) :: l' => if decide (k = key) then (k, v) :: l' else (k, x) :: assoc_set key v l'
  end.

Lemma assoc_set_eq {A} key (v : A) l : assoc key (assoc_set key v l) = Some v.
Proof. induction l as [|[k x] l IH]; simpl; repeat case_decide; simpl; repeat case_decide; done. Qed.

Lemma assoc_set_ne {A} key key' (v : A) l :
  key <> key' -> assoc key' (assoc_set key v l) = assoc key' l.
Proof.
  intros Hne. induction l as [|[k x] l IH]; simpl; repeat case_decide; simpl; repeat case_decide;
    subst; try done.
Qed.

Lemma assoc_elem {A} key (l : list (jstr * A)) v : assoc key l = Some v -> (key, v) ∈ l.
Proof.
  induction l as [|[k x] l IH]; simpl; [done|]. case_decide; intros; simplify_eq; [left|right; auto].
Qed.

Lemma existsb_rev {A} (p : A -> bool) l : existsb p (rev l) = existsb p l.
Proof. apply eq_true_iff_eq. rewrite !existsb_exists. by setoid_rewrite <- in_rev. Qed.

(** * Sums over maps *)

Definition msum `{Countable K} {A} (f : A -> nat) (m : gmap K A) : nat := map_fold (fun _ x n => f x + n) 0 m.

Lemma msum_new `{Countable K} {A} (f : A -> nat) (m : gmap K A) k x :
  m !! k = None -> msum f (<[k:=x]> m) = f x + msum f m.
Proof. intros Hk. unfold msum. rewrite map_fold_insert_L; [done| |done]. intros. lia. Qed.

Lemma msum_delete `{Countable K} {A} (f : A -> nat) (m : gmap K A) k :
  msum f m = from_option f 0 (m !! k) + msum f (delete k m).
Proof.
  destruct (m !! k) as [x|] eqn:E; [|by rewrite delete_id]. simpl.
  rewrite <- (insert_delete_id m k x) at 1 by done. apply msum_new, lookup_delete_eq.
Qed.

Lemma msum_insert `{Countable K} {A} (f : A -> nat) (m : gmap K A) k x :
  msum f (<[k:=x]> m) = f x + msum f (delete k m).
Proof. rewrite (msum_delete f _ k), lookup_insert_eq, delete_insert_eq. done. Qed.

(** ** The order of strings *)

(** [a > b] on strings compares code units. *)
Fixpoint str_compare (a b : jstr) : comparison :=
  match a, b with
  | [], [] => Eq
  | [], _ :: _ => Lt
  | _ :: _, [] => Gt
  | x :: a', y :: b' =>
      match N.compare x y with Eq => str_compare a' b' | c => c end
  end.

Lemma str_compare_refl a : str_compare a a = Eq.
Proof. induction a as [|x a IH]; simpl; [done|]. by rewrite N.compare_refl. Qed.

Lemma str_compare_antisym a b : str_compare b a = CompOpp (str_compare a b).
Proof.
  revert b; induction a as [|x a IH]; intros [|y b]; simpl; try done.
  rewrite (N.compare_antisym x y), IH. by destruct (N.compare x y).
Qed.

Lemma str_compare_trans a b c :
  str_compare a b <> Gt -> str_compare b c <> Gt -> str_compare a c <> Gt.
Proof.
  revert b c; induction a as [|x a IH]; intros [|y b] [|z c]; simpl; try done.
  destruct (N.compare_spec x y), (N.compare_spec y z); try done; subst; intros H1 H2.
  - rewrite N.compare_refl. eauto.
  - by rewrite (proj2 (N.compare_lt_iff y z)).
  - by rewrite (proj2 (N.compare_lt_iff x z)).
  - rewrite (proj2 (N.compare_lt_iff x z)); [done|]. by etrans.
Qed.

(** [${x}] or ['' + x] of a value that may be undefined. *)
Definition str_or_undefined (o : option jstr) : jstr := default (js "undefined") o.

(** ** What the search relies on in the character database *)

Class UnicodeLaws `{Unicode} : Prop := {
  unicode_lower_nonempty s : s <> [] -> unicode_lower s <> [];
  unicode_lower_hyphen s : head s <> Some 45%N -> head (unicode_lower s) <> Some 45%N;
}.

Lemma ascii_lower_hyphen c : c <> 45%N -> ascii_lower c <> 45%N.
Proof.
  unfold ascii_lower, is_upper, in_range. intros Hc.
  destruct (N.leb_spec 65 c), (N.leb_spec c 90); simpl; lia.
Qed.

#[export] Instance ascii_only_laws : @UnicodeLaws ascii_only.
Proof.
  constructor; simpl.
  - by intros [|c s].
  - intros [|c s]; simpl; [done|]. intros H. injection. apply ascii_lower_hyphen. congruence.
Qed.

Lemma toLowerCase_nonempty `{UnicodeLaws} s : s <> [] -> toLowerCase s <> [].
Proof. unfold toLowerCase. case_match; [by destruct s|]. apply unicode_lower_nonempty. Qed.

Lemma toLowerCase_hyphen `{UnicodeLaws} s :
  head s <> Some 45%N -> head (toLowerCase s) <> Some 45%N.
Proof.
  unfold toLowerCase. case_match; [|apply unicode_lower_hyphen].
  destruct s as [|c s]; simpl; [done|]. intros Hc. injection. apply ascii_lower_hyphen. congruence.
Qed.
