(* ===== verification/Regex.v ===== *)
(** Regular expressions with the backtracking semantics of ECMAScript.

    The scripts under docs/_static decide by regular expressions (the Porter
    stemmer is nothing else), so the development carries its own matcher: the
    continuation-passing matcher of ECMA-262 22.2.2 for the constructs the
    sources write (classes, sequences, alternatives, greedy and lazy
    quantifiers, capturing groups, back references, anchors), together with a
    declarative relation [rmatch] and the proof that the matcher only ever
    follows a derivation of that relation ([matcher_sound]). *)

From S2P Require Import Prelude.

(** * Syntax *)

Inductive regex : Type :=
| REps                                   (** the empty pattern *)
| RClass (p : N -> bool)                 (** a character or a character class *)
| RSeq (a b : regex)
| RAlt (a b : regex)
| RStar (greedy : bool) (a : regex)      (** a*, a*? *)
| ROpt (greedy : bool) (a : regex)       (** a?, a?? *)
| RGroup (n : nat) (a : regex)           (** the n-th capturing group *)
| RBack (n : nat)                        (** \n *)
| RBol                                   (** ^ without the m flag *)
| REol                                   (** $ without the m flag *)
| RBolM                                  (** ^ with the m flag *)
| REolM.                                 (** $ with the m flag *)

(** a+, a+? : one iteration, then a*.  *)
Definition RPlus (greedy : bool) (a : regex) : regex := RSeq a (RStar greedy a).

Definition RChar (c : N) : regex := RClass (N.eqb c).

Fixpoint RLit (s : jstr) : regex :=
  match s with
  | [] => REps
  | [c] => RChar c
  | c :: s' => RSeq (RChar c) (RLit s')
  end.

(** (?:s1|s2|...) *)
Fixpoint RAlts (ss : list jstr) : regex :=
  match ss with
  | [] => RClass (fun _ => false)
  | [s] => RLit s
  | s :: ss' => RAlt (RLit s) (RAlts ss')
  end.

(** [.] without the s flag *)
Definition RDot : regex := RClass (fun c => negb (is_line_terminator c)).

(** [[s]] and [[^s]] *)
Definition ROneOf (s : jstr) : regex := RClass (fun c => existsb (N.eqb c) s).
Definition RNoneOf (s : jstr) : regex := RClass (fun c => negb (existsb (N.eqb c) s)).

(** * The matcher *)

(** Capture [n] is the entry [n] of the list: where the group starts and ends. *)
Abbreviation caps := (list (option (nat * nat))).

Definition slice (s : jstr) (i j : nat) : jstr := take (j - i) (drop i s).

Definition cap_str (s : jstr) (c : caps) (n : nat) : option jstr :=
  match c !! n with
  | Some (Some (i, j)) => Some (slice s i j)
  | _ => None
  end.

(** Does a line start, or end, at position [i]? *)
Definition line_start (s : jstr) (i : nat) : bool :=
  match i with O => true | S j => match s !! j with Some c => is_line_terminator c | None => false end end.
Definition line_end (s : jstr) (i : nat) : bool :=
  match s !! i with Some c => is_line_terminator c | None => true end.

(** The groups inside a quantified pattern, reset at each iteration. *)
Fixpoint groups_of (r : regex) : list nat :=
  match r with
  | RSeq a b | RAlt a b => groups_of a ++ groups_of b
  | RStar _ a | ROpt _ a => groups_of a
  | RGroup n a => n :: groups_of a
  | _ => []
  end.

Definition reset_caps (r : regex) (c : caps) : caps :=
  foldr (fun n c => <[n := None]> c) c (groups_of r).

(** The iterations of [a*]: [body] matches [a].  A round that consumes nothing is
    not an iteration. *)
Fixpoint star_loop {A} (body : nat -> caps -> (nat -> caps -> option A) -> option A)
    (reset : caps -> caps) (greedy : bool) (k : nat -> caps -> option A)
    (fuel i : nat) (c : caps) {struct fuel} : option A :=
  match fuel with
  | O => None
  | S f =>
      let iterate :=
        body i (reset c)
          (fun j c' => if Nat.eqb j i then None
                       else star_loop body reset greedy k f j c') in
      if greedy
      then match iterate with Some z => Some z | None => k i c end
      else match k i c with Some z => Some z | None => iterate end
  end.

Fixpoint matcher {A} (s : jstr) (r : regex) (i : nat) (c : caps)
    (k : nat -> caps -> option A) {struct r} : option A :=
  match r with
  | REps => k i c
  | RClass p => match s !! i with
                | Some x => if p x then k (S i) c else None
                | None => None
                end
  | RSeq a b => matcher s a i c (fun j c' => matcher s b j c' k)
  | RAlt a b => match matcher s a i c k with
                | Some z => Some z
                | None => matcher s b i c k
                end
  | RStar greedy a =>
      (** Every iteration consumes input, so [S (length s - i)] rounds are enough. *)
      star_loop (fun i c k => matcher s a i c k) (reset_caps a) greedy k
        (S (length s - i)) i c
  | ROpt greedy a =>
      let once := matcher s a i (reset_caps a c)
                    (fun j c' => if Nat.eqb j i then None else k j c') in
      if greedy
      then match once with Some z => Some z | None => k i c end
      else match k i c with Some z => Some z | None => once end
  | RGroup n a => matcher s a i c (fun j c' => k j (<[n := Some (i, j)]> c'))
  | RBack n => match cap_str s c n with
               | None => k i c
               | Some t => if is_prefix t (drop i s) then k (i + length t)%nat c else None
               end
  | RBol => if Nat.eqb i 0 then k i c else None
  | REol => if Nat.eqb i (length s) then k i c else None
  | RBolM => if line_start s i then k i c else None
  | REolM => if line_end s i then k i c else None
  end.

(** A match of the whole pattern: where it starts and ends, and its captures. *)
Record rresult := { m_start : nat; m_end : nat; m_caps : caps }.

(** A pattern as the source writes it, with its number of groups. *)
Record pattern := { p_groups : nat; p_re : regex }.

Definition match_at (P : pattern) (s : jstr) (i : nat) : option rresult :=
  matcher s (p_re P) i (replicate (S (p_groups P)) None)
    (fun j c => Some {| m_start := i; m_end := j; m_caps := c |}).

Fixpoint search_from (P : pattern) (s : jstr) (fuel i : nat) : option rresult :=
  match match_at P s i with
  | Some r => Some r
  | None => match fuel with O => None | S f => search_from P s f (S i) end
  end.

(** [re.exec(s)] for a pattern without the g and y flags. *)
Definition exec (P : pattern) (s : jstr) : option rresult := search_from P s (length s) 0.

(** [re.test(s)] *)
Definition test (P : pattern) (s : jstr) : bool :=
  match exec P s with Some _ => true | None => false end.

(** [re.exec(s)[n]]: [None] is undefined. *)
Definition group (s : jstr) (r : rresult) (n : nat) : option jstr :=
  match n with
  | O => Some (slice s (m_start r) (m_end r))
  | _ => cap_str s (m_caps r) n
  end.

Definition group_or_empty (s : jstr) (r : rresult) (n : nat) : jstr :=
  default [] (group s r n).

(** [s.replace(re, f)] without the g flag; [f] receives the match. *)
Definition replace_first (P : pattern) (s : jstr) (f : rresult -> jstr) : jstr :=
  match exec P s with
  | None => s
  | Some r => take (m_start r) s ++ f r ++ drop (m_end r) s
  end.

(** [s.replace(re, f)] with the g flag. An empty match moves one unit forward. *)
Fixpoint replace_all_from (P : pattern) (s : jstr) (f : rresult -> jstr)
    (fuel last pos : nat) : jstr :=
  match fuel with
  | O => drop last s
  | S fuel' =>
      if Nat.ltb (length s) pos then drop last s else
      match search_from P s (length s - pos) pos with
      | None => drop last s
      | Some r =>
          slice s last (m_start r) ++ f r ++
          replace_all_from P s f fuel' (m_end r)
            (if Nat.eqb (m_end r) (m_start r) then S (m_end r) else m_end r)
      end
  end.
Definition replace_all (P : pattern) (s : jstr) (f : rresult -> jstr) : jstr :=
  replace_all_from P s f (S (length s)) 0 0.

(** [s.split(re)] for a pattern without groups (ECMA-262 22.2.6.14): [p] is where
    the current piece starts, [q] where the next separator is tried. *)
Fixpoint split_from (P : pattern) (s : jstr) (fuel p q : nat) : list jstr :=
  match fuel with
  | O => [drop p s]
  | S f =>
      if Nat.leb (length s) q then [drop p s]
      else match match_at P s q with
           | None => split_from P s f p (S q)
           | Some r =>
               if Nat.eqb (m_end r) p then split_from P s f p (S q)
               else slice s p q :: split_from P s f (m_end r) (m_end r)
           end
  end.
Definition split (P : pattern) (s : jstr) : list jstr :=
  match s with
  | [] => match match_at P s 0 with Some _ => [] | None => [[]] end
  | _ => split_from P s (S (length s)) 0 0
  end.

(** * Declarative semantics *)

(** [rmatch s r i c j c']: [r] can match [s] from position [i] to [j], turning the
    captures [c] into [c']. *)
Inductive rmatch (s : jstr) : regex -> nat -> caps -> nat -> caps -> Prop :=
| rm_eps i c : rmatch s REps i c i c
| rm_class p i c x : s !! i = Some x -> p x = true -> rmatch s (RClass p) i c (S i) c
| rm_seq a b i c j c' l c'' :
    rmatch s a i c j c' -> rmatch s b j c' l c'' -> rmatch s (RSeq a b) i c l c''
| rm_alt_l a b i c j c' : rmatch s a i c j c' -> rmatch s (RAlt a b) i c j c'
| rm_alt_r a b i c j c' : rmatch s b i c j c' -> rmatch s (RAlt a b) i c j c'
| rm_star_done g a i c : rmatch s (RStar g a) i c i c
| rm_star_more g a i c j c' l c'' :
    rmatch s a i (reset_caps a c) j c' -> j <> i ->
    rmatch s (RStar g a) j c' l c'' -> rmatch s (RStar g a) i c l c''
| rm_opt_skip g a i c : rmatch s (ROpt g a) i c i c
| rm_opt_once g a i c j c' :
    rmatch s a i (reset_caps a c) j c' -> j <> i -> rmatch s (ROpt g a) i c j c'
| rm_group n a i c j c' :
    rmatch s a i c j c' -> rmatch s (RGroup n a) i c j (<[n := Some (i, j)]> c')
| rm_back_none n i c : cap_str s c n = None -> rmatch s (RBack n) i c i c
| rm_back_some n i c t :
    cap_str s c n = Some t -> is_prefix t (drop i s) = true ->
    rmatch s (RBack n) i c (i + length t) c
| rm_bol c : rmatch s RBol 0 c 0 c
| rm_eol c : rmatch s REol (length s) c (length s) c
| rm_bol_m i c : line_start s i = true -> rmatch s RBolM i c i c
| rm_eol_m i c : line_end s i = true -> rmatch s REolM i c i c.

(** The matcher succeeds only along a derivation, with the continuation's answer. *)
Lemma matcher_sound {A} s r i c (k : nat -> caps -> option A) z :
  matcher s r i c k = Some z ->
  exists j c', rmatch s r i c j c' /\ k j c' = Some z.
Proof.
  revert i c k z; induction r as
    [|p|a IHa b IHb|a IHa b IHb|g a IH|g a IH|n a IH|n| | | |]; intros i c k z; cbn [matcher].
  - eauto using rmatch.
  - destruct (s !! i) eqn:E; [|done]. destruct (p n) eqn:Ep; [|done]. eauto using rmatch.
  - intros (j & c' & Ha & H)%IHa. apply IHb in H as (l & c'' & Hb & H). eauto using rmatch.
  - destruct (matcher s a i c k) eqn:E.
    + intros [= ->]. apply IHa in E as (j & c' & Ha & H). eauto using rmatch.
    + intros (j & c' & Hb & H)%IHb. eauto using rmatch.
  - generalize (S (length s - i)) as fuel. intros fuel; revert i c.
    induction fuel as [|f IHf]; intros i c; [done|]. cbn [star_loop].
    match goal with |- context [matcher s a i _ ?kk] => set (K := kk) end.
    assert (matcher s a i (reset_caps a c) K = Some z ->
            exists j c', rmatch s (RStar g a) i c j c' /\ k j c' = Some z) as Hit.
    { intros (j & c' & Ha & H)%IH. unfold K in H.
      destruct (Nat.eqb_spec j i); [done|].
      apply IHf in H as (l & c'' & Hl & H). eauto using rmatch. }
    destruct g.
    + destruct (matcher s a i _ K); [intros [= ->]; eauto|eauto using rmatch].
    + destruct (k i c) eqn:Ek; [intros [= ->]; eauto using rmatch|eauto].
  - match goal with |- context [matcher s a i _ ?kk] => set (K := kk) end.
    assert (matcher s a i (reset_caps a c) K = Some z ->
            exists j c', rmatch s (ROpt g a) i c j c' /\ k j c' = Some z) as Hit.
    { intros (j & c' & Ha & H)%IH. unfold K in H.
      destruct (Nat.eqb_spec j i); [done|]. eauto using rmatch. }
    destruct g.
    + destruct (matcher s a i _ K); [intros [= ->]; eauto|eauto using rmatch].
    + destruct (k i c) eqn:Ek; [intros [= ->]; eauto using rmatch|eauto].
  - intros (j & c' & Ha & H)%IH. eauto using rmatch.
  - destruct (cap_str s c n) eqn:E; [|eauto using rmatch].
    destruct (is_prefix l (drop i s)) eqn:E'; [|done]. eauto using rmatch.
  - destruct (Nat.eqb_spec i 0) as [->|]; [|done]. eauto using rmatch.
  - destruct (Nat.eqb_spec i (length s)) as [->|]; [|done]. eauto using rmatch.
  - destruct (line_start s i) eqn:E; [|done]. eauto using rmatch.
  - destruct (line_end s i) eqn:E; [|done]. eauto using rmatch.
Qed.

(** A derivation never moves backwards and never runs past the end. *)
Lemma rmatch_bounds s r i c j c' :
  rmatch s r i c j c' -> (i <= length s)%nat -> (i <= j <= length s)%nat.
Proof.
  induction 1; intros Hi; try lia.
  - apply lookup_lt_Some in H. lia.
  - apply is_prefix_spec in H0 as [u Hu].
    apply (f_equal length) in Hu. rewrite length_drop, length_app in Hu. lia.
Qed.

Lemma match_at_sound P s i r :
  match_at P s i = Some r ->
  m_start r = i /\
  rmatch s (p_re P) i (replicate (S (p_groups P)) None) (m_end r) (m_caps r).
Proof.
  unfold match_at. intros (j & c' & Hm & H)%matcher_sound. by simplify_eq/=.
Qed.

Lemma search_from_sound P s fuel i r :
  search_from P s fuel i = Some r ->
  (i <= m_start r <= i + fuel)%nat /\
  rmatch s (p_re P) (m_start r) (replicate (S (p_groups P)) None) (m_end r) (m_caps r).
Proof.
  revert i; induction fuel as [|f IH]; intros i; simpl; destruct (match_at P s i) eqn:E; intros H;
    simplify_eq.
  - apply match_at_sound in E as [-> ?]. split; [lia|done].
  - apply match_at_sound in E as [-> ?]. split; [lia|done].
  - apply IH in H as [? ?]. split; [lia|done].
Qed.

(** What [exec] returns is a match: its bounds are bounds of the input. *)
Lemma exec_sound P s r :
  exec P s = Some r ->
  (m_start r <= m_end r <= length s)%nat /\
  rmatch s (p_re P) (m_start r) (replicate (S (p_groups P)) None) (m_end r) (m_caps r).
Proof.
  intros [Hb Hm]%search_from_sound.
  split; [eapply rmatch_bounds; [done|lia]|done].
Qed.

(** ** Completeness: a derivation whose continuation succeeds is not missed *)

Lemma star_loop_complete {A} s a g (k : nat -> caps -> option A)
    (body : nat -> caps -> (nat -> caps -> option A) -> option A) i c j c' :
  (forall i c j c', rmatch s a i c j c' ->
     forall k, (i <= length s)%nat -> k j c' <> None -> body i c k <> None) ->
  rmatch s (RStar g a) i c j c' -> (i <= length s)%nat -> k j c' <> None ->
  forall fuel, (length s - i < fuel)%nat ->
  star_loop body (reset_caps a) g k fuel i c <> None.
Proof.
  intros Hbody Hm. remember (RStar g a) as r eqn:Er.
  induction Hm as [| | | | |g' a' i c|g' a' i c j c1 l c2 Ha _ Hne Hrest IH| | | | | | | | |];
    simplify_eq; intros Hi Hk fuel Hf.
  - destruct fuel as [|f]; [lia|]. cbn [star_loop].
    destruct g; [by case_match|]. by destruct (k i c).
  - destruct fuel as [|f]; [lia|]. cbn [star_loop].
    pose proof (rmatch_bounds _ _ _ _ _ _ Ha Hi) as Hb.
    assert (body i (reset_caps a c) (fun j c' => if Nat.eqb j i then None
              else star_loop body (reset_caps a) g k f j c') <> None) as H.
    { apply (Hbody _ _ _ _ Ha); [done|]. rewrite (proj2 (Nat.eqb_neq j i)) by done.
      apply IH; [done|lia|done|lia]. }
    destruct g; [by case_match|]. by destruct (k i c).
Qed.

Lemma matcher_complete {A} s r i c j c' :
  rmatch s r i c j c' -> forall k : nat -> caps -> option A,
  (i <= length s)%nat -> k j c' <> None -> matcher s r i c k <> None.
Proof.
  revert i c j c'; induction r as
    [|p|a IHa b IHb|a IHa b IHb|g a IH|g a IH|n a IH|n| | | |]; intros i c j c' Hm k Hi Hk; cbn [matcher].
  all: try (inversion Hm; simplify_eq; done).
  - inversion Hm; simplify_eq. by case_match; simplify_eq; case_match.
  - inversion Hm; simplify_eq. eapply IHa; [done|done|]. eapply IHb; [done| |done].
    by eapply rmatch_bounds.
  - inversion Hm; simplify_eq.
    + match goal with H : rmatch _ a _ _ _ _ |- _ => pose proof (IHa _ _ _ _ H k Hi Hk) end.
      by case_match.
    + case_match; [done|]. by eapply IHb.
  - eapply star_loop_complete; [|done|done|done|lia]. intros; by eapply IH.
  - inversion Hm; simplify_eq.
    + destruct g; [by case_match|]. by destruct (k j c').
    + assert (matcher s a i (reset_caps a c)
        (fun j c' => if Nat.eqb j i then None else k j c') <> None) as H.
      { eapply IH; [done|done|]. by rewrite (proj2 (Nat.eqb_neq j i)). }
      destruct g; [by case_match|]. by destruct (k i c).
  - inversion Hm; simplify_eq. by eapply IH.
  - inversion Hm; simplify_eq; case_match; simplify_eq; try done.
    by match goal with H : is_prefix _ _ = true |- _ => rewrite H end.
  - inversion Hm; simplify_eq. by rewrite Nat.eqb_refl.
  - inversion Hm; simplify_eq. match goal with E : line_start _ _ = true |- _ => by rewrite E end.
  - inversion Hm; simplify_eq. match goal with E : line_end _ _ = true |- _ => by rewrite E end.
Qed.

Lemma search_from_complete P s fuel i j :
  (i <= j <= i + fuel)%nat -> match_at P s j <> None -> search_from P s fuel i <> None.
Proof.
  revert i; induction fuel as [|f IH]; intros i Hij Hm; simpl; case_match eqn:E; try done.
  - replace j with i in Hm by lia. done.
  - apply IH; [|done]. destruct (decide (i = j)); [by subst|lia].
Qed.

(** [re.test(s)] decides whether some part of [s] matches [re]. *)
Lemma test_spec P s :
  test P s = true <->
  exists i j c, (i <= length s)%nat /\
    rmatch s (p_re P) i (replicate (S (p_groups P)) None) j c.
Proof.
  unfold test. split.
  - case_match eqn:E; [|done]. intros _. apply exec_sound in E as [Hb Hm].
    eexists _, _, _; split; [|done]. lia.
  - intros (i & j & c & Hi & Hm).
    assert (exec P s <> None) as H.
    { apply (search_from_complete _ _ _ _ i); [lia|].
      unfold match_at. by eapply matcher_complete. }
    by case_match.
Qed.

(** ** Inversion of derivations for the shapes the sources use *)

Lemma slice_app s i j l :
  (i <= j <= l)%nat -> slice s i l = slice s i j ++ slice s j l.
Proof.
  intros H. unfold slice. rewrite <- (take_drop (j - i) (take (l - i) (drop i s))).
  rewrite take_take, Nat.min_l by lia. f_equal.
  replace (l - i)%nat with ((j - i) + (l - j))%nat by lia.
  rewrite <- take_drop_commute, drop_drop. by replace (i + (j - i))%nat with j by lia.
Qed.

Lemma slice_full s : slice s 0 (length s) = s.
Proof. unfold slice. rewrite drop_0, Nat.sub_0_r. by apply take_ge. Qed.

Lemma slice_length s i j : (i <= j <= length s)%nat -> length (slice s i j) = (j - i)%nat.
Proof. intros H. unfold slice. rewrite length_take, length_drop. lia. Qed.

Lemma slice_nil s i : slice s i i = [].
Proof. unfold slice. by rewrite Nat.sub_diag. Qed.

Lemma slice_one s i x : s !! i = Some x -> slice s i (S i) = [x].
Proof.
  intros H. unfold slice. rewrite (drop_S s x i H).
  by replace (S i - i)%nat with 1%nat by lia.
Qed.

Lemma rmatch_lit s t i c j c' :
  rmatch s (RLit t) i c j c' -> (i <= length s)%nat ->
  c' = c /\ slice s i j = t /\ j = (i + length t)%nat.
Proof.
  revert i c; induction t as [|x [|y t] IH]; intros i c Hm Hi.
  - inversion Hm; subst. rewrite slice_nil. split_and!; simpl; try done; lia.
  - inversion Hm; subst. match goal with H : N.eqb _ _ = true |- _ => apply N.eqb_eq in H as -> end.
    erewrite slice_one by done. split_and!; simpl; try done; lia.
  - cbn [RLit] in Hm. inversion Hm as [| |? ? ? ? j0 ? ? ? Hx Ht| | | | | | | | | | | | |]; subst.
    pose proof (rmatch_bounds _ _ _ _ _ _ Hx Hi) as Hb.
    inversion Hx; subst. match goal with H : N.eqb _ _ = true |- _ => apply N.eqb_eq in H as -> end.
    pose proof (rmatch_bounds _ _ _ _ _ _ Ht) as Hb2.
    destruct (IH _ _ Ht) as (-> & Hs & ->); [lia|].
    rewrite (slice_app _ _ (S i)) by lia. erewrite slice_one by done. rewrite Hs.
    split_and!; simpl; try done; lia.
Qed.

Lemma rmatch_alts s ts i c j c' :
  rmatch s (RAlts ts) i c j c' -> (i <= length s)%nat ->
  c' = c /\ slice s i j ∈ ts.
Proof.
  revert i c; induction ts as [|t [|t' ts] IH]; intros i c Hm Hi.
  - inversion Hm; subst. done.
  - apply rmatch_lit in Hm as (-> & -> & _); [|done]. split; [done|]. left.
  - cbn [RAlts] in Hm. inversion Hm; subst.
    + match goal with H : rmatch _ (RLit _) _ _ _ _ |- _ =>
        apply rmatch_lit in H as (-> & -> & _); [|done] end. split; [done|]. left.
    + edestruct IH as [-> ?]; [done|done|]. split; [done|]. by right.
Qed.

Lemma rmatch_star_class s g p i c j c' :
  rmatch s (RStar g (RClass p)) i c j c' -> (i <= length s)%nat ->
  c' = c /\ Forall (fun x => p x = true) (slice s i j).
Proof.
  intros Hm. remember (RStar g (RClass p)) as r eqn:Er.
  induction Hm as [| | | | |g' a' i c|g' a' i c j c1 l c2 Ha _ Hne Hrest IH| | | | | | | | |];
    simplify_eq; intros Hi.
  - rewrite slice_nil. eauto.
  - inversion Ha; subst.
    pose proof (rmatch_bounds _ _ _ _ _ _ Ha Hi) as Hb.
    pose proof (rmatch_bounds _ _ _ _ _ _ Hrest ltac:(lia)) as Hb2.
    destruct (IH eq_refl) as [-> HF]; [lia|]. split; [done|].
    rewrite (slice_app _ _ (S i)) by lia. erewrite slice_one by done.
    by constructor.
Qed.

Lemma rmatch_plus_class s g p i c j c' :
  rmatch s (RPlus g (RClass p)) i c j c' -> (i <= length s)%nat ->
  c' = c /\ (i < j)%nat /\ Forall (fun x => p x = true) (slice s i j).
Proof.
  intros Hm Hi. inversion Hm as [| |? ? ? ? j0 ? ? ? Hx Ht| | | | | | | | | | | | |]; subst.
  inversion Hx; subst.
  pose proof (rmatch_bounds _ _ _ _ _ _ Hx Hi) as Hb.
  pose proof (rmatch_bounds _ _ _ _ _ _ Ht ltac:(lia)) as Hb2.
  apply rmatch_star_class in Ht as [-> HF]; [|lia].
  split_and!; [done|lia|]. rewrite (slice_app _ _ (S i)) by lia. erewrite slice_one by done.
  by constructor.
Qed.

(** ** Derivations for these shapes *)

Lemma drop_lookup (s : jstr) i x u : drop i s = x :: u -> s !! i = Some x /\ drop (S i) s = u.
Proof.
  intros H. assert (Hx : s !! i = Some x) by (rewrite <- (Nat.add_0_r i), <- lookup_drop, H; done).
  split; [done|]. by rewrite (drop_S s x i Hx) in H; simplify_eq.
Qed.

Lemma rmatch_lit_intro s t u i c : drop i s = t ++ u -> rmatch s (RLit t) i c (i + length t) c.
Proof.
  revert i; induction t as [|x [|y t] IH]; intros i Hd.
  - rewrite Nat.add_0_r. constructor.
  - apply drop_lookup in Hd as [Hx _]. simpl. rewrite Nat.add_1_r. eapply rm_class; [done|apply N.eqb_refl].
  - apply drop_lookup in Hd as [Hx Hd]. cbn [RLit]. econstructor.
    + eapply rm_class; [done|apply N.eqb_refl].
    + replace (i + length (x :: y :: t)) with (S i + length (y :: t)) by (simpl; lia). by apply IH.
Qed.

Lemma rmatch_star_intro s g p x u i c : drop i s = x ++ u -> Forall (fun y => p y = true) x ->
  rmatch s (RStar g (RClass p)) i c (i + length x) c.
Proof.
  revert i; induction x as [|y x IH]; intros i Hd Hx.
  - rewrite Nat.add_0_r. constructor.
  - apply drop_lookup in Hd as [Hy Hd]. apply Forall_cons in Hx as [Hp Hx].
    eapply rm_star_more; [by eapply rm_class|lia|]. replace (i + length (y :: x)) with (S i + length x) by (simpl; lia).
    by apply IH.
Qed.

(** A greedy star over a class takes all it can when the rest then succeeds. *)
Lemma matcher_star_greedy {A} s p x u i c (k : nat -> caps -> option A) :
  drop i s = x ++ u -> Forall (fun y => p y = true) x -> match u with y :: _ => p y = false | [] => True end ->
  k (i + length x) c <> None -> matcher s (RStar true (RClass p)) i c k = k (i + length x) c.
Proof.
  intros Hd Hx Hu Hk. cbn [matcher].
  match goal with |- star_loop ?b ?r ?g k ?f i c = _ => set (body := b); set (reset := r); generalize (Nat.le_refl f) end.
  generalize (S (length s - i)) at 2 3 as fuel. intros fuel. revert i fuel Hd Hk.
  induction x as [|y x IH]; intros i fuel Hd Hk Hf; (destruct fuel as [|fuel]; [lia|]); cbn [star_loop]; unfold body at 1.
  - simpl in Hk. rewrite Nat.add_0_r in *. destruct (s !! i) as [y|] eqn:E; [|done].
    rewrite (drop_S s y i E) in Hd. simpl in Hd. subst u. by rewrite Hu.
  - apply drop_lookup in Hd as [Hy Hd]. apply Forall_cons in Hx as [Hp Hx]. rewrite Hy, Hp.
    rewrite (proj2 (Nat.eqb_neq (S i) i)) by lia. change (reset c) with c.
    assert (Hl : i < length s) by by eapply lookup_lt_Some.
    specialize (IH Hx (S i) fuel Hd). replace (i + length (y :: x)) with (S i + length x) in * by (simpl; lia).
    rewrite IH by (done || lia). by destruct (k (S i + length x) c).
Qed.

(** ** Searching past positions that do not match *)

Lemma search_skip P s m : forall fuel i, i <= m <= i + fuel -> (forall j, i <= j < m -> match_at P s j = None) ->
  search_from P s fuel i = search_from P s (fuel - (m - i)) m.
Proof.
  induction fuel as [|fuel IH]; intros i Hm Hn.
  - by replace m with i by lia.
  - destruct (decide (i = m)) as [->|Hne]; [by rewrite Nat.sub_diag, Nat.sub_0_r|].
    cbn [search_from]. rewrite Hn by lia. rewrite (IH (S i)); [|lia|intros j Hj; apply Hn; lia]. f_equal. lia.
Qed.

Lemma search_nowhere P s : forall fuel i, (forall j, i <= j <= i + fuel -> match_at P s j = None) -> search_from P s fuel i = None.
Proof.
  induction fuel as [|fuel IH]; intros i Hn; cbn [search_from]; rewrite Hn by lia; [done|]. apply IH. intros j Hj. apply Hn. lia.
Qed.

Lemma search_here P s fuel i r : match_at P s i = Some r -> search_from P s fuel i = Some r.
Proof. intros H. destruct fuel; simpl; by rewrite H. Qed.

(** A lazy star over a class goes on until the rest succeeds. *)
Lemma matcher_star_lazy {A} s p x u i c (k : nat -> caps -> option A) :
  drop i s = x ++ u -> Forall (fun y => p y = true) x -> (forall j, j < length x -> k (i + j) c = None) ->
  match u with y :: _ => p y = false | [] => True end \/ k (i + length x) c <> None ->
  matcher s (RStar false (RClass p)) i c k = k (i + length x) c.
Proof.
  intros Hd Hx Hk Hu. cbn [matcher].
  match goal with |- star_loop ?b ?r ?g k ?f i c = _ => set (body := b); set (reset := r); generalize (Nat.le_refl f) end.
  generalize (S (length s - i)) at 2 3 as fuel. intros fuel. revert i fuel Hd Hk Hu.
  induction x as [|y x IH]; intros i fuel Hd Hk Hu Hf; (destruct fuel as [|fuel]; [lia|]); cbn [star_loop]; unfold body at 1.
  - simpl in *. rewrite Nat.add_0_r in *. destruct (k i c) eqn:Ek; [done|]. destruct Hu as [Hu|Hu]; [|done].
    destruct (s !! i) as [y|] eqn:E; [|done]. rewrite (drop_S s y i E) in Hd. subst u. by rewrite Hu.
  - pose proof (Hk 0 ltac:(simpl; lia)) as H0. rewrite Nat.add_0_r in H0. rewrite H0.
    apply drop_lookup in Hd as [Hy Hd]. apply Forall_cons in Hx as [Hp Hx]. rewrite Hy, Hp.
    rewrite (proj2 (Nat.eqb_neq (S i) i)) by lia. change (reset c) with c.
    assert (Hl : i < length s) by by eapply lookup_lt_Some.
    replace (i + length (y :: x)) with (S i + length x) in * by (simpl; lia).
    apply (IH Hx (S i) fuel Hd); [|done|lia]. intros j Hj. replace (S i + j) with (i + S j) by lia. apply Hk. simpl. lia.
Qed.

(** The matcher, a construct at a time *)
Section run.
Context {A : Type}.
Implicit Types (s : jstr) (k : nat -> caps -> option A).
Lemma run_seq s a b i c k : matcher s (RSeq a b) i c k = matcher s a i c (fun j c' => matcher s b j c' k).
Proof. done. Qed.
Lemma run_group s n a i c k : matcher s (RGroup n a) i c k = matcher s a i c (fun j c' => k j (<[n := Some (i, j)]> c')).
Proof. done. Qed.
Lemma run_bol_m s i c k : matcher s RBolM i c k = if line_start s i then k i c else None.
Proof. done. Qed.
Lemma run_eol_m s i c k : matcher s REolM i c k = if line_end s i then k i c else None.
Proof. done. Qed.
Lemma run_class s p i c k : matcher s (RClass p) i c k = match s !! i with Some x => if p x then k (S i) c else None | None => None end.
Proof. done. Qed.
End run.

Create Rewrite HintDb matching.
#[export] Hint Rewrite @run_seq @run_group @run_class @run_bol_m @run_eol_m : matching.

(** ** Searching for one character *)

Lemma match_at_class n p s i :
  match_at {| p_groups := n; p_re := RClass p |} s i =
    match s !! i with
    | Some x => if p x then Some {| m_start := i; m_end := S i; m_caps := replicate (S n) None |} else None
    | None => None
    end.
Proof. done. Qed.

Lemma search_class n p s fuel pos :
  (pos + fuel = length s)%nat ->
  match search_from {| p_groups := n; p_re := RClass p |} s fuel pos with
  | None => Forall (fun x => p x = false) (drop pos s)
  | Some r => exists x, s !! m_start r = Some x /\ p x = true /\ m_end r = S (m_start r) /\
      (pos <= m_start r)%nat /\ Forall (fun x => p x = false) (slice s pos (m_start r))
  end.
Proof.
  revert pos; induction fuel as [|f IH]; intros pos Hl; cbn [search_from]; rewrite match_at_class.
  - rewrite lookup_ge_None_2 by lia. by rewrite drop_ge by lia.
  - destruct (s !! pos) as [x|] eqn:E; [|apply lookup_ge_None_1 in E; lia].
    destruct (p x) eqn:Ep.
    + exists x. simpl. rewrite slice_nil. auto.
    + specialize (IH (S pos) ltac:(lia)). case_match.
      * destruct IH as (y & Hy & Hp & He & Hle & HF). exists y. split_and!; [done..|lia|].
        rewrite (slice_app _ _ (S pos)) by lia. erewrite slice_one by done. by constructor.
      * rewrite (drop_S s x pos) by done. by constructor.
Qed.

(** Replacing every character of a class is a map over the characters. *)
Lemma replace_all_class n p s (g : N -> jstr) :
  replace_all {| p_groups := n; p_re := RClass p |} s
    (fun m => match s !! m_start m with Some x => g x | None => [] end) =
  flat_map (fun x => if p x then g x else [x]) s.
Proof.
  set (P := {| p_groups := n; p_re := RClass p |}).
  set (f := fun m => match s !! m_start m with Some x => g x | None => [] end).
  set (h := fun x => if p x then g x else [x]).
  assert (forall t, Forall (fun x => p x = false) t -> flat_map h t = t) as Hid.
  { intros t. induction 1 as [|x t Hx _ IH]; simpl; [done|]. unfold h at 1. by rewrite Hx, IH. }
  assert (forall fuel pos, (pos <= length s)%nat -> (length s - pos < fuel)%nat ->
    replace_all_from P s f fuel pos pos = flat_map h (drop pos s)) as Hmain.
  { induction fuel as [|fuel IH]; intros pos Hpos Hf; [lia|]. cbn [replace_all_from].
    rewrite (proj2 (Nat.ltb_ge _ _)) by lia.
    pose proof (search_class n p s (length s - pos) pos ltac:(lia)) as Hs. fold P in Hs.
    destruct (search_from P s (length s - pos) pos) as [r|]; [|by rewrite Hid].
    destruct Hs as (x & Hx & Hp & He & Hle & HF). rewrite He, (proj2 (Nat.eqb_neq _ _)) by lia.
    pose proof (lookup_lt_Some _ _ _ Hx). rewrite IH by lia.
    rewrite <- (take_drop (m_start r - pos) (drop pos s)), flat_map_app.
    change (take (m_start r - pos) (drop pos s)) with (slice s pos (m_start r)). rewrite (Hid _ HF).
    rewrite drop_drop. replace (pos + (m_start r - pos))%nat with (m_start r) by lia.
    rewrite (drop_S s x (m_start r)) by done. cbn [flat_map]. unfold h at 2, f at 1. rewrite Hx, Hp. done. }
  unfold replace_all. rewrite Hmain by lia. by rewrite drop_0.
Qed.
