(* ===== verification/Stemmer.v ===== *)
(** docs/_static/language_data.js: the stop words and the Porter stemmer.

    [Stemmer.stemWord] is a sequence of tests on regular expressions; each step of
    the source is one definition here, and each regular expression is the syntax
    tree of the pattern the source writes, run by the matcher of Regex.v.  The
    theorems show that a word is never emptied or lengthened, that it keeps its
    first character, and that the measure tests on stems decide Porter's measure. *)

From S2P Require Import Prelude Regex.

Module Stemmer.

(** * Data *)

Definition stopwords : list jstr := js <$>
  ["a"; "and"; "are"; "as"; "at"; "be"; "but"; "by"; "for"; "if"; "in"; "into"; "is"; "it";
   "near"; "no"; "not"; "of"; "on"; "or"; "such"; "that"; "the"; "their"; "then"; "there";
   "these"; "they"; "this"; "to"; "was"; "will"; "with"]%string.

Definition step2list : list (jstr * jstr) := (fun p => (js p.1, js p.2)) <$>
  [("ational", "ate"); ("tional", "tion"); ("enci", "ence"); ("anci", "ance");
   ("izer", "ize"); ("bli", "ble"); ("alli", "al"); ("entli", "ent"); ("eli", "e");
   ("ousli", "ous"); ("ization", "ize"); ("ation", "ate"); ("ator", "ate");
   ("alism", "al"); ("iveness", "ive"); ("fulness", "ful"); ("ousness", "ous");
   ("aliti", "al"); ("iviti", "ive"); ("biliti", "ble"); ("logi", "log")]%string.

Definition step3list : list (jstr * jstr) := (fun p => (js p.1, js p.2)) <$>
  [("icate", "ic"); ("ative", ""); ("alize", "al"); ("iciti", "ic"); ("ical", "ic");
   ("ful", ""); ("ness", "")]%string.

(** [table[key]] on an object literal, [undefined] appended as a string if absent. *)
Fixpoint table_get (t : list (jstr * jstr)) (key : jstr) : jstr :=
  match t with
  | [] => js "undefined"
  | (k, v) :: t' => if bool_decide (k = key) then v else table_get t' key
  end.

(** * Patterns *)

Definition re_c : regex := RNoneOf (js "aeiou").
Definition re_v : regex := ROneOf (js "aeiouy").
Definition re_C : regex := RSeq re_c (RStar true (RNoneOf (js "aeiouy"))).
Definition re_V : regex := RSeq re_v (RStar true (ROneOf (js "aeiou"))).
Definition re_C_opt : regex := ROpt true (RGroup 1 re_C).

(** ^(C)?VC *)
Definition mgr0 : pattern :=
  {| p_groups := 1; p_re := RSeq RBol (RSeq re_C_opt (RSeq re_V re_C)) |}.
(** ^(C)?VC(V)?$ *)
Definition meq1 : pattern :=
  {| p_groups := 2;
     p_re := RSeq RBol (RSeq re_C_opt (RSeq re_V (RSeq re_C
               (RSeq (ROpt true (RGroup 2 re_V)) REol)))) |}.
(** ^(C)?VCVC *)
Definition mgr1 : pattern :=
  {| p_groups := 1;
     p_re := RSeq RBol (RSeq re_C_opt (RSeq re_V (RSeq re_C (RSeq re_V re_C)))) |}.
(** ^(C)?v *)
Definition s_v : pattern :=
  {| p_groups := 1; p_re := RSeq RBol (RSeq re_C_opt re_v) |}.

(** ^(.+?) followed by [r] and $ *)
Definition stem_then (groups : nat) (r : regex) : pattern :=
  {| p_groups := groups;
     p_re := RSeq RBol (RSeq (RGroup 1 (RPlus false RDot)) (RSeq r REol)) |}.

(** ^(.+?)(s1|s2|...)$ *)
Definition stem_suffix (ss : list jstr) : pattern := stem_then 2 (RGroup 2 (RAlts ss)).

(** /.$/ *)
Definition last_char : pattern := {| p_groups := 0; p_re := RSeq RDot REol |}.

(** new RegExp("^" + C + v + "[^aeiouwxy]$") *)
Definition cvc : pattern :=
  {| p_groups := 0;
     p_re := RSeq RBol (RSeq re_C (RSeq re_v (RSeq (RNoneOf (js "aeiouwxy")) REol))) |}.

(** * The steps of stemWord *)

(** w.replace(re, "$1$2") *)
Definition replace_12 (P : pattern) (w : jstr) : jstr :=
  replace_first P w (fun m => group_or_empty w m 1 ++ group_or_empty w m 2).

(** w.replace(/.$/, "") *)
Definition chop (w : jstr) : jstr := replace_first last_char w (fun _ => []).

Definition re_1a : pattern :=
  stem_then 2 (RSeq (RGroup 2 (RAlts [js "ss"; js "i"])) (RLit (js "es"))).
Definition re2_1a : pattern :=
  stem_then 2 (RSeq (RGroup 2 (RNoneOf (js "s"))) (RLit (js "s"))).

Definition step1a (w : jstr) : jstr :=
  if test re_1a w then replace_12 re_1a w
  else if test re2_1a w then replace_12 re2_1a w
  else w.

Definition re_1b : pattern := stem_then 1 (RLit (js "eed")).
Definition re2_1b : pattern := stem_suffix [js "ed"; js "ing"].
(** /(at|bl|iz)$/ *)
Definition re2_1b' : pattern :=
  {| p_groups := 1; p_re := RSeq (RGroup 1 (RAlts [js "at"; js "bl"; js "iz"])) REol |}.
(** new RegExp("([^aeiouylsz])\\1$") *)
Definition re3_1b : pattern :=
  {| p_groups := 1;
     p_re := RSeq (RGroup 1 (RNoneOf (js "aeiouylsz"))) (RSeq (RBack 1) REol) |}.

Definition step1b (w : jstr) : jstr :=
  match exec re_1b w with
  | Some fp => if test mgr0 (group_or_empty w fp 1) then chop w else w
  | None =>
      match exec re2_1b w with
      | Some fp =>
          let stem := group_or_empty w fp 1 in
          if test s_v stem then
            let w := stem in
            if test re2_1b' w then w ++ js "e"
            else if test re3_1b w then chop w
            else if test cvc w then w ++ js "e"
            else w
          else w
      | None => w
      end
  end.

Definition re_1c : pattern := stem_then 1 (RLit (js "y")).

Definition step1c (w : jstr) : jstr :=
  match exec re_1c w with
  | Some fp =>
      let stem := group_or_empty w fp 1 in
      if test s_v stem then stem ++ js "i" else w
  | None => w
  end.

Definition suffixes2 : list jstr := js <$>
  ["ational"; "tional"; "enci"; "anci"; "izer"; "bli"; "alli"; "entli"; "eli"; "ousli";
   "ization"; "ation"; "ator"; "alism"; "iveness"; "fulness"; "ousness"; "aliti"; "iviti";
   "biliti"; "logi"]%string.
Definition suffixes3 : list jstr := js <$>
  ["icate"; "ative"; "alize"; "iciti"; "ical"; "ful"; "ness"]%string.
Definition suffixes4 : list jstr := js <$>
  ["al"; "ance"; "ence"; "er"; "ic"; "able"; "ible"; "ant"; "ement"; "ment"; "ent"; "ou";
   "ism"; "ate"; "iti"; "ous"; "ive"; "ize"]%string.

(** Steps 2 and 3: replace a suffix of the table when the stem has measure > 0. *)
Definition step_table (suffixes : list jstr) (table : list (jstr * jstr)) (w : jstr) : jstr :=
  match exec (stem_suffix suffixes) w with
  | Some fp =>
      let stem := group_or_empty w fp 1 in
      let suffix := group_or_empty w fp 2 in
      if test mgr0 stem then stem ++ table_get table suffix else w
  | None => w
  end.

Definition step2 : jstr -> jstr := step_table suffixes2 step2list.
Definition step3 : jstr -> jstr := step_table suffixes3 step3list.

(** /^(.+?)(s|t)(ion)$/ *)
Definition re2_4 : pattern :=
  stem_then 3 (RSeq (RGroup 2 (RAlts [js "s"; js "t"])) (RGroup 3 (RLit (js "ion")))).

Definition step4 (w : jstr) : jstr :=
  match exec (stem_suffix suffixes4) w with
  | Some fp =>
      let stem := group_or_empty w fp 1 in
      if test mgr1 stem then stem else w
  | None =>
      match exec re2_4 w with
      | Some fp =>
          let stem := group_or_empty w fp 1 ++ group_or_empty w fp 2 in
          if test mgr1 stem then stem else w
      | None => w
      end
  end.

Definition re_5 : pattern := stem_then 1 (RLit (js "e")).
(** /ll$/ *)
Definition re_ll : pattern := {| p_groups := 0; p_re := RSeq (RLit (js "ll")) REol |}.

Definition step5a (w : jstr) : jstr :=
  match exec re_5 w with
  | Some fp =>
      let stem := group_or_empty w fp 1 in
      if test mgr1 stem || (test meq1 stem && negb (test cvc stem)) then stem else w
  | None => w
  end.

Definition step5b (w : jstr) : jstr :=
  if test re_ll w && test mgr1 w then chop w else w.

Definition stem_steps (w : jstr) : jstr :=
  step5b (step5a (step4 (step3 (step2 (step1c (step1b (step1a w))))))).

Section with_unicode.
Context `{Unicode}.

Definition stemWord (w : jstr) : jstr :=
  if Nat.ltb (length w) 3 then w
  else
    let firstch := substr w 0 1 in
    let is_y := bool_decide (firstch = js "y") in
    let w := if is_y then toUpperCase firstch ++ substr_from w 1 else w in
    let w := stem_steps w in
    if is_y then toLowerCase firstch ++ substr_from w 1 else w.
End with_unicode.

(** * What the patterns with a stem match *)

(** Replace the captures of a match by what its derivation says they are. *)
Ltac caps_known :=
  match goal with H : _ = m_caps ?fp |- context [m_caps ?fp] => rewrite <- H end.

Lemma stem_then_exec n r w fp :
  exec (stem_then n r) w = Some fp ->
  exists i, (0 < i <= length w)%nat /\
    rmatch w r i (<[1%nat := Some (0%nat, i)]> (replicate (S n) None)) (length w) (m_caps fp).
Proof.
  intros [Hb Hm]%exec_sound. unfold stem_then in Hm; cbn [p_re p_groups] in Hm.
  inversion Hm as [| |? ? ? ? ? ? ? ? Hbol Hrest| | | | | | | | | | | | |]; subst.
  inversion Hbol; subst. clear Hbol Hm.
  inversion Hrest as [| |? ? ? ? ? ? ? ? Hg Hre| | | | | | | | | | | | |]; subst. clear Hrest.
  inversion Hg as [| | | | | | | | |? ? ? ? ? ? Hplus| | | | | |]; subst.
  apply rmatch_plus_class in Hplus as (-> & Hlt & _); [|lia].
  inversion Hre as [| |? ? ? ? ? ? ? ? Hr Heol| | | | | | | | | | | | |]; subst.
  inversion Heol; subst.
  pose proof (rmatch_bounds _ _ _ _ _ _ Hg ltac:(lia)). eauto with lia.
Qed.

(** ^(.+?)lit$ : the word is a non-empty stem, group 1, followed by the literal. *)
Lemma stem_lit_exec t w fp :
  exec (stem_then 1 (RLit t)) w = Some fp ->
  w = group_or_empty w fp 1 ++ t /\ group_or_empty w fp 1 <> [].
Proof.
  intros (i & Hi & Hm)%stem_then_exec.
  apply rmatch_lit in Hm as (Hc & Hs & _); [|lia].
  unfold group_or_empty, group, cap_str. rewrite Hc. simpl.
  rewrite <- Hs. split.
  - rewrite <- slice_app by lia. by rewrite slice_full.
  - intros He. apply (f_equal length) in He. rewrite slice_length in He by lia. simpl in He; lia.
Qed.

(** ^(.+?)(s1|s2|...)$ : the word is a non-empty stem followed by one of the suffixes. *)
Lemma stem_suffix_exec ss w fp :
  exec (stem_suffix ss) w = Some fp ->
  w = group_or_empty w fp 1 ++ group_or_empty w fp 2 /\
  group_or_empty w fp 1 <> [] /\ group_or_empty w fp 2 ∈ ss.
Proof.
  intros (i & Hi & Hm)%stem_then_exec.
  inversion Hm as [| | | | | | | | |? ? ? ? ? ? Ha Hx| | | | | |]; subst.
  apply rmatch_alts in Ha as [-> Hin]; [|lia].
  unfold group_or_empty, group, cap_str. caps_known. simpl. split_and!.
  - rewrite <- slice_app by lia. by rewrite slice_full.
  - intros He. apply (f_equal length) in He. rewrite slice_length in He by lia. simpl in He; lia.
  - done.
Qed.

(** ^(.+?)(r)(t)$ where only the first two groups are kept. *)
Lemma stem_two_exec n r t w fp (Q : jstr -> Prop) :
  (2 <= n)%nat ->
  (forall i c j c', rmatch w r i c j c' -> (i <= length w)%nat -> c' = c /\ Q (slice w i j)) ->
  (forall i c j c', rmatch w t i c j c' -> (i <= length w)%nat ->
     c' !! 1%nat = c !! 1%nat /\ c' !! 2%nat = c !! 2%nat) ->
  exec (stem_then n (RSeq (RGroup 2 r) t)) w = Some fp ->
  exists u, w = group_or_empty w fp 1 ++ group_or_empty w fp 2 ++ u /\
    group_or_empty w fp 1 <> [] /\ Q (group_or_empty w fp 2).
Proof.
  intros Hn Hr Ht (i & Hi & Hm)%stem_then_exec.
  inversion Hm as [| |? ? ? ? j ? ? ? Hg Hl| | | | | | | | | | | | |]; subst.
  pose proof (rmatch_bounds _ _ _ _ _ _ Hg ltac:(lia)) as Hb.
  inversion Hg as [| | | | | | | | |? ? ? ? ? ? Ha| | | | | |]; subst.
  apply Hr in Ha as [-> HQ]; [|lia].
  apply Ht in Hl as [H1 H2]; [|lia]. exists (slice w j (length w)).
  rewrite list_lookup_insert_ne, list_lookup_insert_eq in H1
    by (rewrite ?length_insert, ?length_replicate; lia).
  rewrite list_lookup_insert_eq in H2 by (rewrite length_insert, length_replicate; lia).
  unfold group_or_empty, group, cap_str. rewrite H1, H2. simpl. split_and!.
  - rewrite <- !slice_app by lia. by rewrite slice_full.
  - intros He. apply (f_equal length) in He. rewrite slice_length in He by lia. simpl in He; lia.
  - done.
Qed.

(** * Every step keeps the word non-empty, its first character, and its length bound *)

Definition keeps (w w' : jstr) : Prop :=
  w' <> [] /\ (length w' <= length w)%nat /\ head w' = head w.

Lemma keeps_refl w : w <> [] -> keeps w w.
Proof. by intros. Qed.

Lemma keeps_trans w1 w2 w3 : keeps w1 w2 -> keeps w2 w3 -> keeps w1 w3.
Proof. intros (? & ? & ?) (? & ? & ?). split_and!; [done|lia|congruence]. Qed.

Lemma keeps_suffix g x y : g <> [] -> (length y <= length x)%nat -> keeps (g ++ x) (g ++ y).
Proof. intros Hg Hl. destruct g; [done|]. split_and!; simpl; [done| |done]. rewrite !length_app. lia. Qed.

Lemma keeps_stem g x : g <> [] -> keeps (g ++ x) g.
Proof. intros Hg. rewrite <- (app_nil_r g) at 2. apply keeps_suffix; [done|simpl; lia]. Qed.

Create HintDb stemdb.
#[local] Hint Resolve keeps_refl keeps_suffix keeps_stem : stemdb.

Lemma chop_keeps w : (2 <= length w)%nat -> keeps w (chop w).
Proof.
  intros Hl. assert (w <> []) by (intros ->; simpl in Hl; lia).
  unfold chop, replace_first. destruct (exec last_char w) as [m|] eqn:E; [|auto with stemdb].
  apply exec_sound in E as [Hb Hm]. simpl in Hm.
  inversion Hm as [| |? ? ? ? j ? ? ? Hdot Heol| | | | | | | | | | | | |]; subst.
  inversion Heol; subst. inversion Hdot; subst.
  replace (m_start m) with (length w - 1)%nat by lia.
  rewrite <- (take_drop (length w - 1) w) at 1. rewrite app_nil_l.
  apply keeps_suffix.
  - intros E. apply (f_equal length) in E. rewrite length_take in E. simpl in E. lia.
  - rewrite !length_drop. lia.
Qed.

Lemma test_lit_eol_length t P w :
  p_re P = RSeq t REol ->
  (forall i c j c', rmatch w t i c j c' -> (i <= length w)%nat -> (i + 2 <= j)%nat) ->
  test P w = true -> (2 <= length w)%nat.
Proof.
  intros Hre Ht (i & j & c & Hi & Hm)%test_spec. rewrite Hre in Hm.
  pose proof (rmatch_bounds _ _ _ _ _ _ Hm Hi).
  inversion Hm as [| |? ? ? ? j0 ? ? ? Hl Heol| | | | | | | | | | | | |]; subst.
  inversion Heol; subst. apply Ht in Hl; lia.
Qed.

Lemma test_double_length w : test re3_1b w = true -> (2 <= length w)%nat.
Proof.
  intros (i & j & c & Hi & Hm)%test_spec. simpl in Hm.
  pose proof (rmatch_bounds _ _ _ _ _ _ Hm Hi).
  inversion Hm as [| |? ? ? ? j0 c0 ? ? Hg Hb| | | | | | | | | | | | |]; subst.
  inversion Hg as [| | | | | | | | |? ? ? ? ? ? Ha| | | | | |]; subst. inversion Ha; subst.
  inversion Hb as [| |? ? ? ? j1 ? ? ? Hback Heol| | | | | | | | | | | | |]; subst.
  inversion Heol; subst. inversion Hback; subst; [discriminate|].
  match goal with H : cap_str _ _ _ = Some _ |- _ => unfold cap_str in H; simpl in H; simplify_eq end.
  rewrite slice_length in * by lia. lia.
Qed.

Lemma test_ll_length w : test re_ll w = true -> (2 <= length w)%nat.
Proof.
  apply (test_lit_eol_length (RLit (js "ll"))); [done|].
  intros i c j c' Hm Hi. apply rmatch_lit in Hm as (_ & _ & ->); [|done]. rewrite js_length. simpl. lia.
Qed.

Lemma replace_12_keeps P w :
  (forall fp, exec P w = Some fp -> m_start fp = 0%nat /\ m_end fp = length w /\
     keeps w (group_or_empty w fp 1 ++ group_or_empty w fp 2)) ->
  w <> [] -> keeps w (replace_12 P w).
Proof.
  intros HP Hw. unfold replace_12, replace_first. destruct (exec P w) as [fp|]; [|auto with stemdb].
  destruct (HP fp) as (-> & -> & Hk); [done|]. by rewrite take_0, drop_all, app_nil_r.
Qed.

Lemma stem_then_span n r w fp :
  exec (stem_then n r) w = Some fp -> m_start fp = 0%nat /\ m_end fp = length w.
Proof.
  intros [Hb Hm]%exec_sound. unfold stem_then in Hm; cbn [p_re p_groups] in Hm.
  inversion Hm as [| |? ? ? ? ? ? ? ? Hbol Hrest| | | | | | | | | | | | |]; subst.
  inversion Hbol; subst. split; [done|].
  inversion Hrest as [| |? ? ? ? ? ? ? ? Hg Hre| | | | | | | | | | | | |]; subst.
  inversion Hre as [| |? ? ? ? ? ? ? ? Hr Heol| | | | | | | | | | | | |]; subst.
  by inversion Heol; subst.
Qed.

Lemma rmatch_lit_caps w t i c j c' :
  rmatch w (RLit t) i c j c' -> (i <= length w)%nat ->
  c' !! 1%nat = c !! 1%nat /\ c' !! 2%nat = c !! 2%nat.
Proof. intros Hm Hi. by apply rmatch_lit in Hm as (-> & _ & _). Qed.

Lemma rmatch_group3_caps w t i c j c' :
  rmatch w (RGroup 3 (RLit t)) i c j c' -> (i <= length w)%nat ->
  c' !! 1%nat = c !! 1%nat /\ c' !! 2%nat = c !! 2%nat.
Proof.
  intros Hm Hi. inversion Hm as [| | | | | | | | |? ? ? ? ? ? Ha| | | | | |]; subst.
  apply rmatch_lit in Ha as (-> & _ & _); [|done]. by rewrite !list_lookup_insert_ne.
Qed.

Lemma two_groups_keeps w g1 g2 u : w = g1 ++ g2 ++ u -> g1 <> [] -> keeps w (g1 ++ g2).
Proof. intros -> Hg. rewrite app_assoc. apply keeps_stem. by destruct g1. Qed.

Lemma step1a_keeps w : w <> [] -> keeps w (step1a w).
Proof.
  intros Hw. unfold step1a. repeat case_match; auto with stemdb.
  - apply replace_12_keeps; [|done]. intros fp E. destruct (stem_then_span _ _ _ _ E) as [-> ->].
    split_and!; [done..|].
    edestruct (stem_two_exec 2 (RAlts [js "ss"; js "i"]) (RLit (js "es")) w fp (fun _ => True))
      as (u & Hu & Hne & _); [lia| |apply rmatch_lit_caps|done|by eapply two_groups_keeps].
    intros ? ? ? ? Hm ?. by apply rmatch_alts in Hm as [-> _].
  - apply replace_12_keeps; [|done]. intros fp E. destruct (stem_then_span _ _ _ _ E) as [-> ->].
    split_and!; [done..|].
    edestruct (stem_two_exec 2 (RNoneOf (js "s")) (RLit (js "s")) w fp (fun _ => True))
      as (u & Hu & Hne & _); [lia| |apply rmatch_lit_caps|done|by eapply two_groups_keeps].
    intros ? ? ? ? Hm ?. by inversion Hm; subst.
Qed.

Lemma step1b_keeps w : w <> [] -> keeps w (step1b w).
Proof.
  intros Hw. unfold step1b. destruct (exec re_1b w) as [fp|] eqn:E1.
  { apply stem_lit_exec in E1 as [Heq Hne]. case_match; [|auto with stemdb].
    apply chop_keeps. rewrite Heq, length_app, js_length. simpl. lia. }
  destruct (exec re2_1b w) as [fp|] eqn:E2; [|auto with stemdb].
  apply stem_suffix_exec in E2 as (Heq & Hne & Hin).
  generalize dependent (group_or_empty w fp 1). intros g Heq Hne.
  assert (2 <= length (group_or_empty w fp 2))%nat as Hl.
  { apply elem_of_cons in Hin as [->|Hin]; [rewrite js_length; simpl; lia|].
    apply list_elem_of_singleton in Hin as ->. rewrite js_length; simpl; lia. }
  generalize dependent (group_or_empty w fp 2). intros x Heq Hin Hl.
  repeat case_match; subst w; auto with stemdb.
  - apply keeps_suffix; [done|]. rewrite js_length; simpl; lia.
  - eapply keeps_trans; [by apply keeps_stem|]. by apply chop_keeps, test_double_length.
  - apply keeps_suffix; [done|]. rewrite js_length; simpl; lia.
Qed.

Lemma step1c_keeps w : w <> [] -> keeps w (step1c w).
Proof.
  intros Hw. unfold step1c. destruct (exec re_1c w) as [fp|] eqn:E; [|auto with stemdb].
  apply stem_lit_exec in E as [Heq Hne]. case_match; [|auto with stemdb].
  rewrite Heq at 1. by apply keeps_suffix.
Qed.

(** The tables know every suffix their pattern can match, with a replacement that is
    not longer. *)
Definition table_ok (suffixes : list jstr) (table : list (jstr * jstr)) : bool :=
  forallb (fun s => bool_decide (s ∈ table.*1) && Nat.leb (length (table_get table s)) (length s))
    suffixes.

Lemma step2_table_ok : table_ok suffixes2 step2list = true.
Proof. vm_compute. reflexivity. Qed.
Lemma step3_table_ok : table_ok suffixes3 step3list = true.
Proof. vm_compute. reflexivity. Qed.

Lemma step_table_keeps suffixes table w :
  table_ok suffixes table = true -> w <> [] -> keeps w (step_table suffixes table w).
Proof.
  intros Hok Hw. unfold step_table. destruct (exec _ w) as [fp|] eqn:E; [|auto with stemdb].
  apply stem_suffix_exec in E as (Heq & Hne & Hin). case_match; [|auto with stemdb].
  rewrite Heq at 1. apply keeps_suffix; [done|].
  unfold table_ok in Hok. rewrite forallb_forall in Hok.
  apply list_elem_of_In in Hin. specialize (Hok _ Hin).
  apply andb_true_iff in Hok as [_ Hle%Nat.leb_le]. done.
Qed.

Lemma step4_keeps w : w <> [] -> keeps w (step4 w).
Proof.
  intros Hw. unfold step4. destruct (exec (stem_suffix suffixes4) w) as [fp|] eqn:E.
  { apply stem_suffix_exec in E as (Heq & Hne & _). case_match; [|auto with stemdb].
    rewrite Heq at 1. auto with stemdb. }
  destruct (exec re2_4 w) as [fp|] eqn:E2; [|auto with stemdb].
  case_match; [|auto with stemdb].
  edestruct (stem_two_exec 3 (RAlts [js "s"; js "t"]) (RGroup 3 (RLit (js "ion"))) w fp (fun _ => True))
      as (u & Hu & Hne & _); [lia| | |done|by eapply two_groups_keeps].
  - intros ? ? ? ? Hm ?. by apply rmatch_alts in Hm as [-> _].
  - apply rmatch_group3_caps.
Qed.

Lemma step5a_keeps w : w <> [] -> keeps w (step5a w).
Proof.
  intros Hw. unfold step5a. destruct (exec re_5 w) as [fp|] eqn:E; [|auto with stemdb].
  apply stem_lit_exec in E as [Heq Hne]. case_match; [|auto with stemdb].
  rewrite Heq at 1. auto with stemdb.
Qed.

Lemma step5b_keeps w : w <> [] -> keeps w (step5b w).
Proof.
  intros Hw. unfold step5b. destruct (test re_ll w) eqn:E; simpl; [|auto with stemdb].
  case_match; [|auto with stemdb]. by apply chop_keeps, test_ll_length.
Qed.

Lemma stem_steps_keeps w : w <> [] -> keeps w (stem_steps w).
Proof.
  intros Hw. unfold stem_steps.
  assert (forall f, (forall v, v <> [] -> keeps v (f v)) -> forall v, keeps w v -> keeps w (f v)) as Hstep.
  { intros f Hf v Hv. eapply keeps_trans; [done|]. apply Hf, Hv. }
  repeat (apply Hstep; [eauto using step1a_keeps, step1b_keeps, step1c_keeps, step4_keeps,
    step5a_keeps, step5b_keeps, step_table_keeps, step2_table_ok, step3_table_ok|]).
  auto with stemdb.
Qed.

(** * The measure of a stem *)

Definition is_aeiou (x : N) : bool := existsb (N.eqb x) (js "aeiou").
Definition is_aeiouy (x : N) : bool := existsb (N.eqb x) (js "aeiouy").

(** Porter's measure: the number of vowel-to-consonant turns of [C](VC)^m[V].  A [y]
    is a vowel after a consonant and a consonant elsewhere. *)
Fixpoint turns (in_vowels : bool) (t : jstr) : nat :=
  match t with
  | [] => 0
  | x :: t' =>
      if in_vowels
      then if is_aeiou x then turns true t' else S (turns false t')
      else turns (is_aeiouy x) t'
  end.
Definition measure (t : jstr) : nat :=
  match t with
  | [] => 0
  | x :: t' => turns (is_aeiou x) t'
  end.

Lemma is_aeiou_spec x : is_aeiou x = true <-> x ∈ [97; 101; 105; 111; 117]%N.
Proof.
  unfold is_aeiou. rewrite existsb_exists, list_elem_of_In.
  change (js "aeiou") with [97; 101; 105; 111; 117]%N. split.
  - intros (y & Hy & ->%N.eqb_eq). done.
  - intros Hx. exists x. split; [done|]. apply N.eqb_refl.
Qed.

Lemma is_aeiouy_spec x : is_aeiouy x = true <-> x ∈ [97; 101; 105; 111; 117]%N \/ x = chr "y".
Proof.
  unfold is_aeiouy. rewrite existsb_exists.
  change (js "aeiouy") with ([97; 101; 105; 111; 117]%N ++ [121%N]). change (chr "y") with 121%N. split.
  - intros (y & Hy & ->%N.eqb_eq). apply list_elem_of_In in Hy. set_solver.
  - intros Hx. exists x. rewrite <- list_elem_of_In. split; [set_solver|]. apply N.eqb_refl.
Qed.

Lemma is_aeiou_aeiouy x : is_aeiou x = true -> is_aeiouy x = true.
Proof. rewrite is_aeiou_spec, is_aeiouy_spec. tauto. Qed.

Lemma is_aeiouy_y x : is_aeiouy x = true -> is_aeiou x = false -> x = chr "y".
Proof. rewrite is_aeiouy_spec, <- not_true_iff_false, is_aeiou_spec. tauto. Qed.

Lemma turns_vowel_run run t :
  Forall (fun x => is_aeiou x = true) run -> turns true (run ++ t) = turns true t.
Proof. induction 1 as [|x run Hx _ IH]; simpl; [done|]. by rewrite Hx. Qed.

Lemma turns_consonant_run run t :
  Forall (fun x => negb (is_aeiouy x) = true) run -> turns false (run ++ t) = turns false t.
Proof. induction 1 as [|x run Hx%negb_true_iff _ IH]; simpl; [done|]. by rewrite Hx. Qed.

(** The two runs the patterns are made of, as derivations... *)
Lemma rmatch_run w p q i c j c' :
  rmatch w (RSeq (RClass p) (RStar true (RClass q))) i c j c' -> (i <= length w)%nat ->
  c' = c /\ exists x run, p x = true /\ Forall (fun x => q x = true) run /\
    drop i w = x :: run ++ drop j w.
Proof.
  intros Hm Hi.
  inversion Hm as [| |? ? ? ? ? ? ? ? Hx Hrun| | | | | | | | | | | | |]; subst.
  inversion Hx as [|? ? ? x Hl Hp| | | | | | | | | | | | | |]; subst.
  pose proof (rmatch_bounds _ _ _ _ _ _ Hx Hi).
  pose proof (rmatch_bounds _ _ _ _ _ _ Hrun ltac:(lia)).
  apply rmatch_star_class in Hrun as [-> HF]; [|lia]. split; [done|].
  exists x, (slice w (S i) j). split_and!; [done..|].
  rewrite (drop_S w x i) by done. f_equal. unfold slice.
  rewrite <- (take_drop (j - S i) (drop (S i) w)) at 1. by rewrite drop_drop, Nat.add_comm, Nat.sub_add by lia.
Qed.

(** ... and back. *)
Lemma rmatch_run_intro w p q i c x run t :
  drop i w = x :: run ++ t -> p x = true -> Forall (fun x => q x = true) run ->
  let j := (i + S (length run))%nat in
  rmatch w (RSeq (RClass p) (RStar true (RClass q))) i c j c /\ drop j w = t /\ i <> j.
Proof.
  intros Hd Hp HF j. assert (w !! i = Some x) as Hl.
  { rewrite <- (Nat.add_0_r i), <- lookup_drop, Hd. done. }
  assert (drop (S i) w = run ++ t) as Hd'.
  { by rewrite <- Nat.add_1_r, <- drop_drop, Hd. }
  split_and!; [|subst j|lia].
  - eapply rm_seq; [by econstructor|]. unfold j. rewrite <- Nat.add_succ_comm.
    by eapply rmatch_star_intro.
  - by rewrite <- Nat.add_succ_comm, <- drop_drop, Hd', drop_app_length.
Qed.

Lemma turns_V w i c j c' :
  rmatch w re_V i c j c' -> (i <= length w)%nat -> c' = c /\
  turns false (drop i w) = turns true (drop j w).
Proof.
  intros Hm Hi. apply rmatch_run in Hm as (-> & x & run & Hx & HF & Hd); [|done]. split; [done|].
  rewrite Hd. cbn [turns]. change (existsb _ _) with (is_aeiouy x) in Hx. rewrite Hx. by apply turns_vowel_run.
Qed.

Lemma turns_C w i c j c' :
  rmatch w re_C i c j c' -> (i <= length w)%nat -> c' = c /\
  turns true (drop i w) = S (turns false (drop j w)).
Proof.
  intros Hm Hi. apply rmatch_run in Hm as (-> & x & run & Hx & HF & Hd); [|done]. split; [done|].
  rewrite Hd. cbn [turns]. change (existsb _ _) with (is_aeiou x) in Hx.
  apply negb_true_iff in Hx as ->. f_equal. by apply turns_consonant_run.
Qed.

Definition starts_with (q : N -> bool) (t : jstr) : Prop :=
  match t with [] => False | x :: _ => q x = true end.

Lemma span_exists (q : N -> bool) t :
  exists run t', t = run ++ t' /\ Forall (fun x => q x = true) run /\
    (t' = [] \/ starts_with (fun x => negb (q x)) t').
Proof.
  induction t as [|x t (run & t' & -> & HF & Ht)]; [by exists [], []; auto|].
  destruct (q x) eqn:E.
  - exists (x :: run), t'. auto.
  - exists [], (x :: run ++ t'). simpl. rewrite E. auto.
Qed.

Lemma re_V_exists w i c :
  starts_with is_aeiouy (drop i w) ->
  exists j, rmatch w re_V i c j c /\ turns false (drop i w) = turns true (drop j w) /\
    i <> j /\ (drop j w = [] \/ starts_with (fun x => negb (is_aeiou x)) (drop j w)).
Proof.
  intros Hs. destruct (drop i w) as [|v t] eqn:Hd; [done|]. simpl in Hs.
  destruct (span_exists is_aeiou t) as (run & t' & -> & HF & Ht).
  destruct (rmatch_run_intro w is_aeiouy is_aeiou i c v run t' Hd Hs HF) as (Hm & Hj & Hne).
  eexists; split_and!; [exact Hm| |exact Hne|by rewrite Hj].
  rewrite Hj. cbn [turns]. rewrite Hs. by apply turns_vowel_run.
Qed.

Lemma re_C_exists w i c :
  starts_with (fun x => negb (is_aeiou x)) (drop i w) ->
  exists j, rmatch w re_C i c j c /\ turns true (drop i w) = S (turns false (drop j w)) /\
    i <> j /\ (drop j w = [] \/ starts_with is_aeiouy (drop j w)).
Proof.
  intros Hs. destruct (drop i w) as [|v t] eqn:Hd; [done|]. simpl in Hs.
  destruct (span_exists (fun x => negb (is_aeiouy x)) t) as (run & t' & -> & HF & Ht).
  destruct (rmatch_run_intro w (fun x => negb (is_aeiou x)) (fun x => negb (is_aeiouy x))
    i c v run t' Hd Hs HF) as (Hm & Hj & Hne).
  eexists; split_and!; [exact Hm| |exact Hne|rewrite Hj].
  - rewrite Hj. cbn [turns]. apply negb_true_iff in Hs as ->. f_equal. by apply turns_consonant_run.
  - destruct Ht as [->|Ht]; [by left|right]. destruct t'; [done|]. simpl in *. by rewrite negb_involutive in Ht.
Qed.

Lemma re_VC_exists w i c :
  starts_with is_aeiouy (drop i w) -> turns false (drop i w) <> 0%nat ->
  exists k, rmatch w (RSeq re_V re_C) i c k c /\
    turns false (drop i w) = S (turns false (drop k w)) /\
    (drop k w = [] \/ starts_with is_aeiouy (drop k w)).
Proof.
  intros Hs Hn. destruct (re_V_exists w i c Hs) as (j & HV & Ht & _ & [Hj|Hj]).
  - rewrite Ht, Hj in Hn. done.
  - destruct (re_C_exists w j c Hj) as (k & HC & Ht' & _ & Hk).
    exists k. rewrite Ht. eauto using rmatch.
Qed.

Section measure_tests.
Variable w : jstr.
Hypothesis Hy : head w <> Some (chr "y").

Lemma start_sound c0 j c' r :
  rmatch w (RSeq re_C_opt (RSeq re_V r)) 0 c0 j c' ->
  exists i c, (i <= length w)%nat /\ measure w = turns false (drop i w) /\ rmatch w (RSeq re_V r) i c j c'.
Proof.
  intros Hm. inversion Hm as [| |? ? ? ? k c1 ? ? Ho HV| | | | | | | | | | | | |]; subst.
  pose proof (rmatch_bounds _ _ _ _ _ _ Ho ltac:(lia)) as Hb.
  exists k, c1. split_and!; [lia| |done].
  inversion Ho as [| | | | | | |? ? ? ?|? ? ? ? ? ? Hg Hne| | | | | | |]; subst.
  - inversion HV as [| |? ? ? ? ? ? ? ? Hv ?| | | | | | | | | | | | |]; subst.
    apply rmatch_run in Hv as (_ & x & run & Hx & HF & Hd); [|lia].
    rewrite drop_0 in *. rewrite Hd in Hy |- *. simpl in Hy. cbn [measure turns].
    change (existsb _ _) with (is_aeiouy x) in Hx. rewrite Hx.
    destruct (is_aeiou x) eqn:Ex; [done|]. destruct Hy. f_equal. by apply is_aeiouy_y.
  - inversion Hg as [| | | | | | | | |? ? ? ? ? ? HC| | | | | |]; subst.
    apply rmatch_run in HC as (_ & x & run & Hx & HF & Hd); [|lia].
    rewrite drop_0 in Hd. rewrite Hd at 1. cbn [measure].
    change (existsb _ _) with (is_aeiou x) in Hx. apply negb_true_iff in Hx as ->.
    by apply turns_consonant_run.
Qed.

Lemma start_exists c0 : measure w <> 0%nat ->
  exists i c, rmatch w re_C_opt 0 c0 i c /\ measure w = turns false (drop i w) /\
    starts_with is_aeiouy (drop i w).
Proof.
  intros Hm. destruct w as [|x t] eqn:Ew; [done|]. rewrite <- Ew in *. cbn [measure] in Hm.
  destruct (is_aeiou x) eqn:Ex.
  - exists 0%nat, c0. rewrite drop_0, Ew. cbn [measure turns starts_with].
    rewrite (is_aeiou_aeiouy x Ex), Ex. split; [constructor|done].
  - destruct (re_C_exists w 0 (reset_caps (RGroup 1 re_C) c0)) as (j & HC & Ht & Hne & Hj).
    { rewrite drop_0, Ew. simpl. by rewrite Ex. }
    assert (measure w = turns false (drop j w)) as Hmj.
    { rewrite drop_0, Ew in Ht. cbn [turns] in Ht. rewrite Ex in Ht. injection Ht as Ht.
      rewrite Ew at 1. cbn [measure]. by rewrite Ex, Ht, Ew. }
    exists j, (<[1%nat := Some (0%nat, j)]> (reset_caps (RGroup 1 re_C) c0)). split_and!; [|done|].
    + apply rm_opt_once; [by constructor|done].
    + destruct Hj as [Hj|?]; [|done]. by rewrite Hj in Hmj.
Qed.

Lemma anchored_test P r :
  p_re P = RSeq RBol r ->
  test P w = true <-> exists j c, rmatch w r 0 (replicate (S (p_groups P)) None) j c.
Proof.
  intros Hre. rewrite test_spec, Hre. split.
  - intros (i & j & c & Hi & Hm).
    inversion Hm as [| |? ? ? ? ? ? ? ? Hbol Hr| | | | | | | | | | | | |]; subst.
    inversion Hbol; subst. eauto.
  - intros (j & c & Hm). exists 0%nat, j, c. split; [lia|]. eauto using rmatch.
Qed.

Lemma vc_sound i c j c' :
  rmatch w (RSeq re_V re_C) i c j c' -> (i <= length w)%nat ->
  c' = c /\ turns false (drop i w) = S (turns false (drop j w)).
Proof.
  intros Hm Hi. inversion Hm as [| |? ? ? ? k ? ? ? HV HC| | | | | | | | | | | | |]; subst.
  pose proof (rmatch_bounds _ _ _ _ _ _ HV Hi).
  apply turns_V in HV as [-> ->]; [|done]. by apply turns_C in HC as [-> ->]; [|lia].
Qed.

Lemma vcr_sound r i c j c' :
  rmatch w (RSeq re_V (RSeq re_C r)) i c j c' -> (i <= length w)%nat ->
  exists k, turns false (drop i w) = S (turns false (drop k w)) /\ rmatch w r k c j c' /\
    (k <= length w)%nat.
Proof.
  intros Hm Hi. inversion Hm as [| |? ? ? ? k ? ? ? HV HCr| | | | | | | | | | | | |]; subst.
  inversion HCr as [| |? ? ? ? l ? ? ? HC Hr| | | | | | | | | | | | |]; subst.
  pose proof (rmatch_bounds _ _ _ _ _ _ HV Hi).
  pose proof (rmatch_bounds _ _ _ _ _ _ HC ltac:(lia)).
  apply turns_V in HV as [-> ->]; [|done]. apply turns_C in HC as [-> ->]; [|lia]. eauto with lia.
Qed.

Lemma mgr0_measure : test mgr0 w = true <-> (1 <= measure w)%nat.
Proof.
  rewrite (anchored_test mgr0 _ eq_refl). split.
  - intros (j & c & (i & c1 & Hi & -> & Hm)%start_sound). apply vc_sound in Hm as [_ ->]; lia.
  - intros H. destruct (start_exists (replicate 2 None)) as (i & c & Ho & Hm & Hs); [lia|].
    destruct (re_VC_exists w i c Hs) as (k & Hk & _); [lia|]. eauto using rmatch.
Qed.

Lemma mgr1_measure : test mgr1 w = true <-> (2 <= measure w)%nat.
Proof.
  rewrite (anchored_test mgr1 _ eq_refl). split.
  - intros (j & c & (i & c1 & Hi & -> & Hm)%start_sound).
    apply vcr_sound in Hm as (k & -> & Hm & Hk); [|done]. apply vc_sound in Hm as [_ ->]; lia.
  - intros H. destruct (start_exists (replicate 2 None)) as (i & c & Ho & Hm & Hs); [lia|].
    destruct (re_VC_exists w i c Hs) as (k & Hk & Hk' & [Hd|Hd]); [lia|rewrite Hd in Hk'; simpl in Hk'; lia|].
    destruct (re_VC_exists w k c Hd) as (l & Hl & _); [lia|].
    inversion Hk as [| |? ? ? ? ? ? ? ? HV HC| | | | | | | | | | | | |]; subst. eauto 8 using rmatch.
Qed.

(** ^(C)?VC(V)?$ holds exactly for measure one. *)
Lemma meq1_measure : test meq1 w = true <-> measure w = 1%nat.
Proof.
  rewrite (anchored_test meq1 _ eq_refl). split.
  - intros (j & c & (i & c1 & Hi & -> & Hm)%start_sound).
    apply vcr_sound in Hm as (k & -> & Hm & Hk); [|done]. f_equal.
    inversion Hm as [| |? ? ? ? ? ? ? ? Ho Heol| | | | | | | | | | | | |]; subst.
    inversion Heol; subst.
    inversion Ho as [| | | | | | |? ? ? ?|? ? ? ? ? ? Hg Hne| | | | | | |]; subst.
    { by rewrite drop_all. }
    inversion Hg as [| | | | | | | | |? ? ? ? ? ? HV| | | | | |]; subst.
    apply turns_V in HV as [_ ->]; [|lia]. by rewrite drop_all.
  - intros H. destruct (start_exists (replicate 3 None)) as (i & c & Ho & Hm & Hs); [lia|].
    destruct (re_VC_exists w i c Hs) as (k & Hk & Hk' & Hd); [lia|].
    inversion Hk as [| |? ? ? ? ? ? ? ? HV HC| | | | | | | | | | | | |]; subst.
    assert (exists c2, rmatch w (RSeq (ROpt true (RGroup 2 re_V)) REol) k c (length w) c2) as [c2 Hr].
    { pose proof (rmatch_bounds _ _ _ _ _ _ Ho ltac:(lia)).
      pose proof (rmatch_bounds _ _ _ _ _ _ Hk ltac:(lia)).
      destruct Hd as [Hd|Hd].
      - apply (f_equal length) in Hd. rewrite length_drop in Hd. simpl in Hd.
        replace k with (length w) by lia. eexists. eapply rm_seq; constructor.
      - destruct (re_V_exists w k (reset_caps (RGroup 2 re_V) c) Hd) as (l & Hl & Ht & Hne & Hdl).
        pose proof (rmatch_bounds _ _ _ _ _ _ Hl ltac:(lia)).
        assert (drop l w = []) as Hnil.
        { destruct Hdl as [?|Hdl]; [done|]. destruct (drop l w) as [|x t]; [done|].
          simpl in Hdl. apply negb_true_iff in Hdl. rewrite Ht in Hk'. cbn [turns] in Hk'.
          rewrite Hdl in Hk'. lia. }
        apply (f_equal length) in Hnil. rewrite length_drop in Hnil. simpl in Hnil.
        replace l with (length w) in * by lia.
        eexists. eapply rm_seq; [|constructor]. apply rm_opt_once; [by constructor|done]. }
    eauto 10 using rmatch.
Qed.
End measure_tests.

(** * Properties *)

Lemma stemWord_keeps `{Unicode} w : w <> [] -> keeps w (stemWord w).
Proof.
  intros Hw. unfold keeps, stemWord. case_match; [done|]. case_bool_decide as Hy.
  - destruct w as [|x w]; [done|]. unfold substr in Hy. rewrite drop_0 in Hy. simpl in Hy.
    injection Hy as ->. set (w1 := toUpperCase _ ++ _).
    destruct (stem_steps_keeps w1) as (Hne & Hl & _); [done|].
    assert (length w1 = S (length w)) as Hl1 by done.
    destruct (stem_steps w1) as [|z t]; [done|].
    simpl in *. split_and!; [done| |done]. lia.
  - by apply stem_steps_keeps.
Qed.


(** Stemming a word never empties it, never makes it longer and never changes its
    first character (the detour of an initial [y] through [Y] included). *)
Theorem stemWord_shape `{Unicode} w :
  w <> [] -> stemWord w <> [] /\ (length (stemWord w) <= length w)%nat /\ head (stemWord w) = head w.
Proof. apply stemWord_keeps. Qed.

Lemma stemWord_shape_witness :
  stemWord (js "yielding") <> [] /\ (length (stemWord (js "yielding")) <= 8)%nat /\
  head (stemWord (js "yielding")) = Some (chr "y").
Proof. apply (stemWord_shape (js "yielding")). discriminate. Defined.

(** C37. On a stem that does not start with a lower-case [y] (the stemmer has replaced
    it), the three regular expressions on consonant and vowel runs decide Porter's
    measure: [mgr0] is m > 0, [mgr1] is m > 1, [meq1] is m = 1. *)
Theorem measure_tests_decide w :
  head w <> Some (chr "y") ->
  test mgr0 w = Nat.ltb 0 (measure w) /\
  test mgr1 w = Nat.ltb 1 (measure w) /\
  test meq1 w = Nat.eqb (measure w) 1.
Proof.
  intros Hy. split_and!; apply eq_true_iff_eq.
  - by rewrite mgr0_measure, Nat.ltb_lt.
  - by rewrite mgr1_measure, Nat.ltb_lt.
  - by rewrite meq1_measure, Nat.eqb_eq.
Qed.

Lemma measure_tests_decide_witness :
  test mgr0 (js "troubl") = true /\ test mgr1 (js "troubl") = false /\ test meq1 (js "troubl") = true.
Proof. apply (measure_tests_decide (js "troubl")). vm_compute. discriminate. Defined.

End Stemmer.
