(* ===== verification/Doctools.v ===== *)
(** docs/_static/doctools.js and documentation_options.js: translations, the index
    toggles and the keyboard shortcuts of the documentation pages. *)

From S2P Require Import Prelude.

Module Doctools.

(** * DOCUMENTATION_OPTIONS *)

Record options := {
  URL_ROOT : jstr;
  BUILDER : jstr;
  FILE_SUFFIX : jstr;
  LINK_SUFFIX : jstr;
  COLLAPSE_INDEX : bool;
  NAVIGATION_WITH_KEYS : bool;
  SHOW_SEARCH_SUMMARY : bool;
  ENABLE_SEARCH_SHORTCUTS : bool;
}.

(** The values written in the file; the root is an attribute of the page. *)
Definition DOCUMENTATION_OPTIONS (url_root : jstr) : options := {|
  URL_ROOT := url_root;
  BUILDER := js "html";
  FILE_SUFFIX := js ".html";
  LINK_SUFFIX := js ".html";
  COLLAPSE_INDEX := false;
  NAVIGATION_WITH_KEYS := false;
  SHOW_SEARCH_SUMMARY := true;
  ENABLE_SEARCH_SHORTCUTS := true;
|}.

(** * Translations *)

(** An entry of TRANSLATIONS: a string, or a tuple of forms. *)
Inductive translation := TStr (s : jstr) | TForms (forms : list jstr).

Record i18n := {
  TRANSLATIONS : list (jstr * translation);
  PLURAL_EXPR : Z -> Z;
  LOCALE : jstr;
}.

Definition i18n_initial : i18n := {|
  TRANSLATIONS := [];
  PLURAL_EXPR := fun n => if Z.eqb n 1 then 0%Z else 1%Z;
  LOCALE := js "unknown";
|}.

(** [None] is undefined: an empty tuple, or a member of Object.prototype (which has no
    property 0). *)
Definition gettext (d : i18n) (string : jstr) : option jstr :=
  match obj_get (TRANSLATIONS d) string with
  | PUndefined => Some string
  | POwn (TStr s) => Some s
  | POwn (TForms forms) => forms !! 0%nat
  | PMethod | PProto => None
  end.

(** [translated[i]]: a form of the tuple, or a one-character string. *)
Definition form_at (t : translation) (i : Z) : option jstr :=
  if Z.ltb i 0 then None else
  match t with
  | TStr s => (fun c => [c]) <$> (s !! Z.to_nat i)
  | TForms forms => forms !! Z.to_nat i
  end.

Definition ngettext (d : i18n) (singular plural : jstr) (n : Z) : option jstr :=
  match obj_get (TRANSLATIONS d) singular with
  | POwn t => form_at t (PLURAL_EXPR d n)
  | PMethod | PProto => None
  | PUndefined => Some (if Z.eqb n 1 then singular else plural)
  end.

Record catalog := {
  messages : list (jstr * translation);
  plural_expr : Z -> Z;       (** the function [new Function] makes of the expression *)
  locale : jstr;
}.

Definition addTranslations (d : i18n) (c : catalog) : i18n := {|
  TRANSLATIONS := foldl (fun t kv => assoc_set kv.1 kv.2 t) (TRANSLATIONS d) (messages c);
  PLURAL_EXPR := plural_expr c;
  LOCALE := locale c;
|}.

(** * The toggles of the domain index *)

(** An image [img.toggler] and the rows [tr.cg-N] of its group. *)
Record toggle_img := { img_id : jstr; img_src : jstr }.
Record row := { row_class : jstr; row_hidden : bool }.

Definition set_rows (cls : jstr) (hidden : bool) (rows : list row) : list row :=
  (fun r => if decide (row_class r = cls) then {| row_class := row_class r; row_hidden := hidden |}
            else r) <$> rows.

Definition toggler (el : toggle_img) (rows : list row) : toggle_img * list row :=
  let idNumber := substr_from (img_id el) 7 in
  let cls := js "cg-" ++ idNumber in
  let src := img_src el in
  if decide (substr_last src 9 = js "minus.png") then
    ({| img_id := img_id el;
        img_src := substr src 0 (length src - 9) ++ js "plus.png" |},
     set_rows cls true rows)
  else
    ({| img_id := img_id el;
        img_src := substr src 0 (length src - 8) ++ js "minus.png" |},
     set_rows cls false rows).

(** [initDomainIndexTable]: with COLLAPSE_INDEX every group is toggled once. *)
Fixpoint toggle_all (els : list toggle_img) (rows : list row) : list toggle_img * list row :=
  match els with
  | [] => ([], rows)
  | el :: els' =>
      let (el', rows') := toggler el rows in
      let (els'', rows'') := toggle_all els' rows' in
      (el' :: els'', rows'')
  end.
Definition initDomainIndexTable (o : options) (els : list toggle_img) (rows : list row) :=
  if COLLAPSE_INDEX o then toggle_all els rows else (els, rows).

(** * Keyboard shortcuts *)

Definition BLACKLISTED_KEY_CONTROL_ELEMENTS : list jstr := js <$>
  ["TEXTAREA"; "INPUT"; "SELECT"; "BUTTON"]%string.

Record key_event := {
  ev_key : jstr; ev_alt : bool; ev_ctrl : bool; ev_meta : bool; ev_shift : bool;
}.

(** The page as the handler sees it: the focused element and the prev/next links. *)
Record page := { active_tag : jstr; prev_href : option jstr; next_href : option jstr }.

Inductive effect :=
| Navigate (href : jstr)     (** window.location.href = href *)
| FocusSearchBar
| PreventDefault.

(** A link element with an empty href is ignored. *)
Definition follow (href : option jstr) : list effect :=
  match href with
  | Some (c :: h) => [Navigate (c :: h); PreventDefault]
  | _ => []
  end.

(** The handler [initOnKeyListeners] installs; [None] when it installs none. *)
Definition initOnKeyListeners (o : options) : option (key_event -> page -> list effect) :=
  if negb (NAVIGATION_WITH_KEYS o) && negb (ENABLE_SEARCH_SHORTCUTS o) then None
  else Some (fun event p =>
    if decide (active_tag p ∈ BLACKLISTED_KEY_CONTROL_ELEMENTS) then []
    else if ev_alt event || ev_ctrl event || ev_meta event then []
    else
      (if ev_shift event then []
       else if decide (ev_key event = js "ArrowLeft") then
         if NAVIGATION_WITH_KEYS o then follow (prev_href p) else []
       else if decide (ev_key event = js "ArrowRight") then
         if NAVIGATION_WITH_KEYS o then follow (next_href p) else []
       else [])
      ++
      (if decide (ev_key event = js "/") then
         if ENABLE_SEARCH_SHORTCUTS o then [FocusSearchBar; PreventDefault] else []
       else [])).

(** * Properties *)

Lemma foldl_assoc_set_other {A} (ms : list (jstr * A)) l k :
  k ∉ ms.*1 -> assoc k (foldl (fun t kv => assoc_set kv.1 kv.2 t) l ms) = assoc k l.
Proof.
  revert l; induction ms as [|[k' v] ms IH]; intros l; csimpl; [done|].
  rewrite not_elem_of_cons. intros [Hne Hin]. rewrite IH by done. by apply assoc_set_ne.
Qed.

Lemma foldl_assoc_set_last {A} (ms : list (jstr * A)) l k v :
  NoDup ms.*1 -> (k, v) ∈ ms ->
  assoc k (foldl (fun t kv => assoc_set kv.1 kv.2 t) l ms) = Some v.
Proof.
  revert l; induction ms as [|[k' v'] ms IH]; intros l; csimpl.
  - by rewrite elem_of_nil.
  - rewrite NoDup_cons, elem_of_cons. intros [Hn Hnd] [[= -> ->]|Hin]; [|auto].
    rewrite foldl_assoc_set_other by done. apply assoc_set_eq.
Qed.

(** After a catalog is added, [gettext] answers with the catalog's translation for each
    of its messages and as before for every other string. *)
Theorem addTranslations_gettext d c :
  NoDup (messages c).*1 ->
  (forall s t, (s, TStr t) ∈ messages c -> gettext (addTranslations d c) s = Some t) /\
  (forall s, s ∉ (messages c).*1 -> gettext (addTranslations d c) s = gettext d s).
Proof.
  intros Hnd. split.
  - intros s t Hin. unfold gettext, addTranslations, obj_get; cbn [TRANSLATIONS].
    by rewrite (foldl_assoc_set_last _ _ _ _ Hnd Hin).
  - intros s Hn. unfold gettext, addTranslations, obj_get; cbn [TRANSLATIONS].
    by rewrite (foldl_assoc_set_other _ _ _ Hn).
Qed.

Definition demo_catalog : catalog := {|
  messages := [(js "Searching", TStr (js "Suche")); (js "page", TForms [js "Seite"; js "Seiten"])];
  plural_expr := fun n => if Z.eqb n 1 then 0%Z else 1%Z; locale := js "de" |}.

Lemma addTranslations_gettext_witness :
  gettext (addTranslations i18n_initial demo_catalog) (js "Searching") = Some (js "Suche") /\
  gettext (addTranslations i18n_initial demo_catalog) (js "Hide") = gettext i18n_initial (js "Hide").
Proof.
  split.
  - apply (addTranslations_gettext i18n_initial demo_catalog); [|left].
    apply (bool_decide_unpack _). vm_compute. exact I.
  - apply (addTranslations_gettext i18n_initial demo_catalog).
    + apply (bool_decide_unpack _). vm_compute. exact I.
    + apply (bool_decide_unpack _). vm_compute. exact I.
Defined.

Lemma substr_last_app a b n : length b = n -> substr_last (a ++ b) n = b.
Proof.
  intros <-. unfold substr_last. rewrite length_app.
  replace (length a + length b - length b)%nat with (length a) by lia. by rewrite drop_app_length.
Qed.

Lemma substr_prefix_app a b n : n = length a -> substr (a ++ b) 0 n = a.
Proof. intros ->. unfold substr. by rewrite drop_0, take_app_length. Qed.

Lemma set_rows_set_rows cls b1 b2 rows : set_rows cls b1 (set_rows cls b2 rows) = set_rows cls b1 rows.
Proof.
  unfold set_rows. rewrite <- list_fmap_compose. apply list_fmap_ext. intros _ r _. simpl.
  by repeat (case_decide; simpl in * ).
Qed.

Lemma set_rows_same cls b rows :
  Forall (fun r => row_class r = cls -> row_hidden r = b) rows -> set_rows cls b rows = rows.
Proof.
  unfold set_rows. induction 1 as [|r rows Hr _ IH]; csimpl; [done|]. rewrite IH.
  case_decide; [|done]. destruct r; simpl in *. by rewrite Hr.
Qed.

Lemma toggler_minus el rows base :
  img_src el = base ++ js "minus.png" ->
  toggler el rows =
    ({| img_id := img_id el; img_src := base ++ js "plus.png" |},
     set_rows (js "cg-" ++ substr_from (img_id el) 7) true rows).
Proof.
  intros H. unfold toggler. rewrite H. rewrite decide_True by by apply substr_last_app.
  f_equal. f_equal. f_equal. apply substr_prefix_app. rewrite length_app, js_length. simpl. lia.
Qed.

Lemma toggler_plus el rows base :
  img_src el = base ++ js "plus.png" ->
  toggler el rows =
    ({| img_id := img_id el; img_src := base ++ js "minus.png" |},
     set_rows (js "cg-" ++ substr_from (img_id el) 7) false rows).
Proof.
  intros H. unfold toggler. rewrite H. rewrite decide_False.
  - f_equal. f_equal. f_equal. apply substr_prefix_app. rewrite length_app, js_length. simpl. lia.
  - unfold substr_last. intros E.
    pose proof (take_drop (length (base ++ js "plus.png") - 9) (base ++ js "plus.png")) as Hs.
    rewrite E in Hs. change (js "minus.png") with (js "m" ++ js "inus.png") in Hs.
    rewrite app_assoc in Hs. by apply app_inj_2 in Hs as [_ Hs].
Qed.

(** Clicking a toggle twice restores it: an image whose source ends in minus.png with
    its rows shown comes back to the same source and the same rows, and in between the
    source ends in plus.png and exactly the rows of its group are hidden. *)
Theorem toggler_involutive el rows base :
  img_src el = base ++ js "minus.png" ->
  Forall (fun r => row_hidden r = false) rows ->
  let '(el1, rows1) := toggler el rows in
  let '(el2, rows2) := toggler el1 rows1 in
  img_src el1 = base ++ js "plus.png" /\
  Forall (fun r => row_hidden r = true <-> row_class r = js "cg-" ++ substr_from (img_id el) 7) rows1 /\
  el2 = el /\ rows2 = rows.
Proof.
  intros Hsrc Hshown. rewrite (toggler_minus _ _ _ Hsrc).
  erewrite toggler_plus by done. simpl. split_and!.
  - done.
  - unfold set_rows. apply Forall_fmap. eapply Forall_impl; [exact Hshown|].
    intros r Hr. simpl. case_decide; simpl; [done|]. rewrite Hr. naive_solver.
  - destruct el; simpl in *. by rewrite Hsrc.
  - rewrite set_rows_set_rows. apply set_rows_same. eapply Forall_impl; [exact Hshown|]. by intros.
Qed.

Lemma toggler_involutive_witness :
  let el := {| img_id := js "toggle-3"; img_src := js "_static/minus.png" |} in
  let rows := [{| row_class := js "cg-3"; row_hidden := false |};
               {| row_class := js "cg-4"; row_hidden := false |}] in
  let '(el1, rows1) := toggler el rows in
  let '(el2, rows2) := toggler el1 rows1 in
  img_src el1 = js "_static/" ++ js "plus.png" /\
  Forall (fun r => row_hidden r = true <-> row_class r = js "cg-" ++ substr_from (img_id el) 7) rows1 /\
  el2 = el /\ rows2 = rows.
Proof.
  intros el rows. apply (toggler_involutive el rows (js "_static/")); [reflexivity|].
  repeat constructor.
Defined.

(** The keyboard handler leaves typing alone: it does nothing while an input element
    has the focus or with Alt, Ctrl or Meta held; it focuses the search bar only for [/]
    with the shortcut enabled, and navigates only to the page's own prev or next link. *)
Theorem key_listener_safe o handler event p :
  initOnKeyListeners o = Some handler ->
  ((active_tag p ∈ BLACKLISTED_KEY_CONTROL_ELEMENTS \/
    ev_alt event || ev_ctrl event || ev_meta event = true) -> handler event p = []) /\
  (FocusSearchBar ∈ handler event p <->
    active_tag p ∉ BLACKLISTED_KEY_CONTROL_ELEMENTS /\
    ev_alt event || ev_ctrl event || ev_meta event = false /\
    ev_key event = js "/" /\ ENABLE_SEARCH_SHORTCUTS o = true) /\
  (forall href, Navigate href ∈ handler event p ->
    NAVIGATION_WITH_KEYS o = true /\ ev_shift event = false /\
    ((ev_key event = js "ArrowLeft" /\ prev_href p = Some href) \/
     (ev_key event = js "ArrowRight" /\ next_href p = Some href))).
Proof.
  unfold initOnKeyListeners. case_match; [done|]. intros [= <-].
  assert (forall h, FocusSearchBar ∉ follow h) as Hf.
  { intros [[|c h]|]; simpl; set_solver. }
  assert (forall h href, Navigate href ∈ follow h -> h = Some href) as Hn.
  { intros [[|c h]|] href; simpl; set_solver. }
  split_and!.
  - intros [Ht|Hm]; [by rewrite decide_True|]. case_decide; [done|]. by rewrite Hm.
  - case_decide; [set_solver|]. destruct (ev_alt event || ev_ctrl event || ev_meta event); [set_solver|].
    rewrite elem_of_app. repeat case_decide; repeat case_match; set_solver.
  - intros href. case_decide; [set_solver|].
    destruct (ev_alt event || ev_ctrl event || ev_meta event); [set_solver|].
    rewrite elem_of_app. repeat case_decide; repeat case_match; set_solver.
Qed.

Lemma key_listener_safe_witness :
  let o := DOCUMENTATION_OPTIONS (js "./") in
  let ev := {| ev_key := js "/"; ev_alt := false; ev_ctrl := false; ev_meta := false; ev_shift := true |} in
  let p := {| active_tag := js "BODY"; prev_href := None; next_href := None |} in
  exists handler, initOnKeyListeners o = Some handler /\ FocusSearchBar ∈ handler ev p.
Proof.
  intros o ev p. eexists. split; [reflexivity|].
  eapply (key_listener_safe o _ ev p); [reflexivity|].
  split; [|split; [reflexivity|split; reflexivity]].
  apply (bool_decide_unpack _). vm_compute. exact I.
Defined.

End Doctools.
