(* ===== verification/Highlight.v ===== *)
(** docs/_static/sphinx_highlight.js, and the same algorithm in
    _sphinx_javascript_frameworks_compat.js: marking the search words in a page.

    The document is a tree.  An element has an identity, because marks inside SVG
    drawings are placed later, next to the element they belong to, and an attribute
    id.  [childNodes.forEach] and [jQuery.each] read the number of children once and the children themselves live:
    splitting a text shifts the following children, and the loop below does the same. *)

From S2P Require Import Prelude Doctools.
Import Doctools.

Module Highlight.

(** * The document *)

(** What [getBBox] answers: x, y, width, height. *)
Abbreviation bbox := (Z * Z * Z * Z)%type.

Inductive node : Type :=
| Text (s : jstr)
| Elem (id : nat) (attr_id : jstr) (tag : jstr) (classes : list jstr) (geom : option bbox) (children : list node).

Fixpoint node_ind' (P : node -> Prop) (HT : forall s, P (Text s))
    (HE : forall id a tag cls g ch, Forall P ch -> P (Elem id a tag cls g ch)) (n : node) : P n :=
  match n with
  | Text s => HT s
  | Elem id a tag cls g ch =>
      HE id a tag cls g ch
        ((fix go (l : list node) : Forall P l :=
            match l with
            | [] => List.Forall_nil _
            | x :: l' => List.Forall_cons _ _ _ (node_ind' P HT HE x) (go l')
            end) ch)
  end.

Fixpoint textContent (n : node) : jstr :=
  match n with
  | Text s => s
  | Elem _ _ _ _ _ ch => flat_map textContent ch
  end.

(** Nesting of elements. *)
Fixpoint depth (n : node) : nat :=
  match n with
  | Text _ => 0
  | Elem _ _ _ _ _ ch => S (list_max (depth <$> ch))
  end.

(** * _highlight *)

Record hl_state := {
  next_id : nat;                        (** identities of created elements *)
  addItems : list (nat * node);         (** rectangles to place before an element *)
}.

Section with_env.
Context `{Unicode}.
(** The layout of an element of a drawing. *)
Variable getBBox : nat -> bbox.
Variables (text className : jstr).

(** [parent.closest("body, svg, foreignObject")] is an svg element. *)
Definition svg_below (tag : jstr) (in_svg : bool) : bool :=
  if decide (tag = js "svg") then true
  else if decide (tag ∈ js <$> ["body"; "foreignObject"]%string) then false
  else in_svg.

(** The text-node case: what replaces the node among the children of its parent. *)
Definition highlight_text_node (parent : nat) (pclasses : list jstr) (in_svg : bool)
    (val : jstr) (st : hl_state) : list node * hl_state :=
  let pos := indexOf (toLowerCase val) text in
  if Z.leb 0 pos && bool_decide (className ∉ pclasses) && bool_decide (js "nohighlight" ∉ pclasses)
  then
    let p := Z.to_nat pos in
    let id := next_id st in
    let span := Elem id [] (if in_svg then js "tspan" else js "span")
                  (if in_svg then [] else [className]) None
                  [Text (substr val p (length text))] in
    let st' :=
      if in_svg then
        {| next_id := S (S id);
           addItems := addItems st ++
             [(parent, Elem (S id) [] (js "rect") [className] (Some (getBBox parent)) [])] |}
      else {| next_id := S id; addItems := addItems st |} in
    ([Text (substr val 0 p); span; Text (substr_from val (p + length text))], st')
  else ([Text val], st).

Definition skipped_tags : list jstr := js <$> ["button"; "select"; "textarea"]%string.

(** The loop over the children: [n] rounds from index [i], on the live list. *)
Fixpoint children_loop (rec : node -> hl_state -> option (node * hl_state))
    (parent : nat) (pclasses : list jstr) (in_svg : bool)
    (n i : nat) (ch : list node) (st : hl_state) : option (list node * hl_state) :=
  match n with
  | O => Some (ch, st)
  | S n' =>
      match ch !! i with
      | None => Some (ch, st)
      | Some (Text s) =>
          let '(repl, st') := highlight_text_node parent pclasses in_svg s st in
          children_loop rec parent pclasses in_svg n' (S i) (take i ch ++ repl ++ drop (S i) ch) st'
      | Some e =>
          match rec e st with
          | None => None
          | Some (e', st') =>
              children_loop rec parent pclasses in_svg n' (S i) (<[i := e']> ch) st'
          end
      end
  end.

(** The element case.  [None] only when [fuel] is below the nesting of the tree. *)
Fixpoint _highlight (fuel : nat) (in_svg : bool) (n : node) (st : hl_state)
    : option (node * hl_state) :=
  match fuel with
  | O => None
  | S f =>
      match n with
      | Text s => Some (n, st)
      | Elem id a tag cls g ch =>
          if decide (tag ∈ skipped_tags) then Some (n, st)
          else
            let svg := svg_below tag in_svg in
            match children_loop (_highlight f svg) id cls svg (length ch) 0 ch st with
            | None => None
            | Some (ch', st') => Some (Elem id a tag cls g ch', st')
            end
      end
  end.
End with_env.

(** [parent.insertAdjacentElement("beforebegin", target)] *)
Fixpoint insert_before (id : nat) (target : node) (n : node) : node :=
  match n with
  | Text s => n
  | Elem i a tag cls g ch =>
      Elem i a tag cls g
        (flat_map (fun c =>
           let c' := insert_before id target c in
           match c with
           | Elem j _ _ _ _ _ => if Nat.eqb j id then [target; c'] else [c']
           | Text _ => [c']
           end) ch)
  end.

Section with_env2.
Context `{Unicode}.
Variable getBBox : nat -> bbox.

(** [_highlightText(thisNode, text, className)] for a node outside of drawings. *)
Definition _highlightText (thisNode : node) (text className : jstr) (fresh : nat) : option (node * nat) :=
  match _highlight getBBox text className (S (depth thisNode)) false thisNode
          {| next_id := fresh; addItems := [] |} with
  | None => None
  | Some (n, st) =>
      Some (foldl (fun n it => insert_before it.1 it.2 n) n (addItems st), next_id st)
  end.

(** [jQuery.fn.highlightText]: the same on every element of a set. *)
Fixpoint highlightText (set : list node) (text className : jstr) (fresh : nat)
    : option (list node * nat) :=
  match set with
  | [] => Some ([], fresh)
  | n :: set' =>
      match _highlightText n text className fresh with
      | None => None
      | Some (n', fresh') =>
          match highlightText set' text className fresh' with
          | None => None
          | Some (ns, fresh'') => Some (n' :: ns, fresh'')
          end
      end
  end.

(** * SphinxHighlight *)

(** [s.split(/\s+/).filter(x => x)] *)
Fixpoint split_spaces (s cur : jstr) : list jstr :=
  match s with
  | [] => match cur with [] => [] | _ => [rev cur] end
  | c :: s' =>
      if is_space c then
        match cur with [] => split_spaces s' [] | _ => rev cur :: split_spaces s' [] end
      else split_spaces s' (c :: cur)
  end.

(** A string that is null or empty is falsy. *)
Definition or_else (a b : option jstr) : option jstr :=
  match a with Some (_ :: _) => a | _ => b end.

(** The words to mark: from local storage, else from the URL. *)
Definition highlight_terms (stored url_param : option jstr) : list jstr :=
  split_spaces (toLowerCase (default [] (or_else (or_else stored url_param) (Some [])))) [].

Fixpoint highlight_all (terms : list jstr) (body : node) (fresh : nat) : option (node * nat) :=
  match terms with
  | [] => Some (body, fresh)
  | t :: ts =>
      match _highlightText body t (js "highlighted") fresh with
      | None => None
      | Some (body', fresh') => highlight_all ts body' fresh'
      end
  end.
End with_env2.

(** * Termination *)

Section proofs.
Context `{Unicode} (getBBox : nat -> bbox).

(** A created mark: an element that holds one text. *)
Definition is_mark (n : node) : Prop :=
  match n with Elem _ _ _ _ _ [Text _] => True | _ => False end.

Definition is_elem (n : node) : Prop :=
  match n with Elem _ _ _ _ _ _ => True | Text _ => False end.

(** A mark, as it is made *)
Definition is_made (className : jstr) (n : node) : Prop :=
  match n with Elem _ [] _ cls _ [Text _] => cls = [] \/ cls = [className] | _ => False end.

(** A rectangle for a mark in a drawing *)
Definition is_rect (className : jstr) (n : node) : Prop :=
  match n with Elem _ [] _ cls _ [] => cls = [className] | _ => False end.

Lemma made_mark className n : is_made className n -> is_mark n.
Proof. by destruct n as [|? [|] ? ? ? [|[|] [|]]]. Qed.

Lemma text_node_cases text className parent pcls svg val st repl st' :
  highlight_text_node getBBox text className parent pcls svg val st = (repl, st') ->
  repl = [Text val] \/
  exists a m b, repl = [Text a; m; Text b] /\ is_made className m /\ val = a ++ textContent m ++ b.
Proof.
  unfold highlight_text_node. case_match; intros; simplify_eq; [right|by left].
  eexists _, _, _. split; [done|]. split; [destruct svg; by constructor|].
  cbn [textContent flat_map]. rewrite app_nil_r. unfold substr, substr_from.
  by rewrite drop_0, <- drop_drop, take_drop, take_drop.
Qed.

Lemma children_loop_total rec text className parent pcls svg n i ch st :
  (forall j e st, (i <= j)%nat -> ch !! j = Some e -> is_elem e -> rec e st <> None) ->
  (forall e st, is_mark e -> rec e st <> None) ->
  children_loop getBBox text className rec parent pcls svg n i ch st <> None.
Proof.
  intros Hrec Hmark. revert i ch st Hrec.
  induction n as [|n IH]; intros i ch st Hrec; cbn [children_loop]; [done|].
  destruct (ch !! i) as [e|] eqn:Hi; [|done].
  assert (i < length ch)%nat as Hlt by (by eapply lookup_lt_Some).
  destruct e as [s|id a tag cls g ch'].
  - destruct (highlight_text_node _ _ _ _ _ _ _ _) as [repl st'] eqn:Et.
    apply IH. intros j e st0 Hj.
    assert (forall k, (take i ch ++ repl ++ drop (S i) ch) !! (i + k)%nat = (repl ++ drop (S i) ch) !! k) as Hk.
    { intros k. rewrite lookup_app_r; rewrite length_take; [|lia]. f_equal. lia. }
    replace j with (i + (j - i))%nat by lia. rewrite Hk.
    apply text_node_cases in Et as [->|(a & m & b & -> & Hm & _)].
    + destruct (j - i)%nat as [|k] eqn:Ek; [lia|]. simpl. rewrite lookup_drop. intros He.
      eapply Hrec; [|exact He]. lia.
    + destruct (j - i)%nat as [|[|[|k]]] eqn:Ek; simpl; intros He; [lia| | |].
      * simplify_eq. intros _. by eapply Hmark, made_mark.
      * by simplify_eq.
      * rewrite lookup_drop in He. eapply Hrec; [|exact He]. lia.
  - destruct (rec _ st) as [[e' st']|] eqn:Er; [|by eapply (Hrec i) in Er].
    apply IH. intros j e0 st0 Hj He. rewrite list_lookup_insert_ne in He by lia.
    eapply Hrec; [|exact He]. lia.
Qed.

Lemma mark_total text className f svg e st :
  is_mark e -> _highlight getBBox text className (S f) svg e st <> None.
Proof.
  destruct e as [s|id a tag cls g [|[t|] [|? ?]]]; try done. intros _. cbn [_highlight].
  case_decide; [done|]. cbn [children_loop length lookup list_lookup].
  destruct (highlight_text_node _ _ _ _ _ _ _ _) as [repl st']. done.
Qed.

Lemma depth_child id a tag cls g ch e : e ∈ ch -> (depth e < depth (Elem id a tag cls g ch))%nat.
Proof.
  intros Hin. cbn [depth]. apply Nat.lt_succ_r.
  induction ch as [|x ch IH]; [by apply not_elem_of_nil in Hin|]. csimpl.
  apply elem_of_cons in Hin as [->|Hin]; [lia|]. apply IH in Hin. lia.
Qed.

(** One level of nesting per unit of fuel is enough. *)
Lemma _highlight_total text className f svg n st :
  (depth n < f)%nat -> _highlight getBBox text className f svg n st <> None.
Proof.
  revert svg n st; induction f as [|f IH]; intros svg n st Hd; [lia|].
  destruct n as [s|id a tag cls g ch]; [done|]. cbn [_highlight]. case_decide; [done|].
  assert (children_loop getBBox text className (_highlight getBBox text className f (svg_below tag svg))
    id cls (svg_below tag svg) (length ch) 0 ch st <> None) as Hl.
  { destruct f as [|f]; [simpl in Hd; lia|].
    apply children_loop_total; [|intros; by apply mark_total].
    intros j e st0 _ He _. apply IH.
    apply list_elem_of_lookup_2, (depth_child id a tag cls g) in He. lia. }
  by destruct (children_loop _ _ _ _ _ _ _ _ _ _ _) as [[]|].
Qed.

(** * What marking preserves *)

Section preserved.
Context {I : Type} (T : I -> node -> jstr) (className : jstr).
Hypothesis T_text : forall i s, T i (Text s) = s.
Hypothesis T_made : forall i m, is_made className m -> T i m = textContent m.
Hypothesis T_rect : forall i m, is_rect className m -> T i m = [].
Hypothesis T_children : forall id a tag cls g ch ch',
  (forall i, flat_map (T i) ch = flat_map (T i) ch') ->
  forall i, T i (Elem id a tag cls g ch) = T i (Elem id a tag cls g ch').

Definition rects_only (st : hl_state) : Prop := Forall (fun it => is_rect className it.2) (addItems st).

Lemma text_node_preserves text parent pcls svg val st repl st' :
  highlight_text_node getBBox text className parent pcls svg val st = (repl, st') ->
  (forall i, flat_map (T i) repl = val) /\ (rects_only st -> rects_only st').
Proof using T_text T_made.
  intros Et. split.
  - intros i. apply text_node_cases in Et as [->|(a & m & b & -> & Hm & ->)]; cbn [flat_map].
    + by rewrite T_text, app_nil_r.
    + by rewrite !T_text, (T_made i m Hm), app_nil_r.
  - revert Et. unfold highlight_text_node, rects_only. case_match; intros; simplify_eq; [|done].
    destruct svg; [|done]. apply Forall_app. split; [done|]. by repeat constructor.
Qed.

Lemma children_loop_preserves rec text parent pcls svg n i0 ch st ch' st' :
  (forall e st e' st', rec e st = Some (e', st') -> (forall i, T i e' = T i e) /\ (rects_only st -> rects_only st')) ->
  children_loop getBBox text className rec parent pcls svg n i0 ch st = Some (ch', st') ->
  (forall i, flat_map (T i) ch' = flat_map (T i) ch) /\ (rects_only st -> rects_only st').
Proof using T_text T_made.
  intros Hrec. revert i0 ch st. induction n as [|n IH]; intros i0 ch st; cbn [children_loop].
  { by intros [= <- <-]. }
  destruct (ch !! i0) as [e|] eqn:Hi; [|by intros [= <- <-]].
  assert (forall i xs, flat_map (T i) xs = T i e ->
    flat_map (T i) (take i0 ch ++ xs ++ drop (S i0) ch) = flat_map (T i) ch) as Hx.
  { intros i xs Hx. rewrite <- (take_drop_middle ch i0 e) at 3 by done.
    rewrite !flat_map_app. cbn [flat_map]. by rewrite Hx. }
  destruct e as [s|id a tag cls g ch0].
  - destruct (highlight_text_node _ _ _ _ _ _ _ _) as [repl st1] eqn:Et.
    apply text_node_preserves in Et as [Ht Hr]. intros [H1 H2]%IH. split; [|auto].
    intros i. rewrite H1. apply Hx. by rewrite Ht, T_text.
  - destruct (rec _ st) as [[e' st1]|] eqn:Er; [|done]. apply Hrec in Er as [Ht Hr].
    intros [H1 H2]%IH. split; [|auto]. intros i. rewrite H1.
    rewrite insert_take_drop by (by eapply lookup_lt_Some). apply (Hx i [e']). cbn [flat_map]. by rewrite Ht, app_nil_r.
Qed.

Lemma _highlight_preserves text f svg n st n' st' :
  _highlight getBBox text className f svg n st = Some (n', st') ->
  (forall i, T i n' = T i n) /\ (rects_only st -> rects_only st').
Proof using T_text T_made T_children.
  revert svg n st n' st'; induction f as [|f IH]; intros svg n st n' st'; [done|].
  destruct n as [s|id a tag cls g ch]; cbn [_highlight]; [by intros [= <- <-]|].
  case_decide; [by intros [= <- <-]|].
  destruct (children_loop _ _ _ _ _ _ _ _ _ _ _) as [[ch' st1]|] eqn:El; [|done].
  intros [= <- <-]. apply children_loop_preserves in El as [H1 H2]; [|intros; by eapply IH].
  split; [|done]. by apply T_children.
Qed.

Lemma insert_before_preserves id target n i : is_rect className target -> T i (insert_before id target n) = T i n.
Proof using T_rect T_children.
  intros Ht. revert i. induction n as [s|j a tag cls g ch IH] using node_ind'; intros i; cbn [insert_before]; [done|].
  apply T_children. clear i. intros i. induction IH as [|c ch Hc _ IHch]; [done|]. cbn [flat_map].
  rewrite flat_map_app, IHch. f_equal.
  destruct c as [s|j' a' tag' cls' g' ch']; [cbn; by rewrite app_nil_r|].
  destruct (Nat.eqb j' id); cbn [flat_map]; by rewrite ?(T_rect i target Ht), Hc, app_nil_r.
Qed.

Lemma _highlightText_preserves n text fresh n' fresh' :
  _highlightText getBBox n text className fresh = Some (n', fresh') -> forall i, T i n' = T i n.
Proof using T_text T_made T_rect T_children.
  unfold _highlightText. destruct (_highlight _ _ _ _ _ _ _) as [[n1 st1]|] eqn:Eh; [|done].
  intros [= <- <-] i. apply _highlight_preserves in Eh as [Ht Hr]. rewrite <- Ht.
  specialize (Hr (List.Forall_nil _)). unfold rects_only in Hr. clear Ht. revert n1.
  induction Hr as [|it l Hit _ IH]; intros n1; simpl; [done|]. rewrite IH. by apply insert_before_preserves.
Qed.
End preserved.

Lemma _highlightText_ends n text className fresh :
  exists n' fresh', _highlightText getBBox n text className fresh = Some (n', fresh').
Proof.
  unfold _highlightText. destruct (_highlight _ _ _ _ _ _ _) as [[n1 st1]|] eqn:Eh; [eauto|].
  exfalso. eapply _highlight_total; [|exact Eh]. lia.
Qed.

(** Marking a list of words ends and preserves what marking a word preserves. *)
Lemma highlight_all_preserves {I} (T : I -> node -> jstr) terms n fresh :
  (forall n text fresh n' fresh', _highlightText getBBox n text (js "highlighted") fresh = Some (n', fresh') ->
     forall i, T i n' = T i n) ->
  exists n' fresh', highlight_all getBBox terms n fresh = Some (n', fresh') /\ forall i, T i n' = T i n.
Proof.
  intros HT. revert n fresh; induction terms as [|t ts IH]; intros n fresh; simpl; [eauto|].
  destruct (_highlightText_ends n t (js "highlighted") fresh) as (n1 & fresh1 & E). rewrite E.
  destruct (IH n1 fresh1) as (n' & f' & E' & H'). exists n', f'. split; [done|]. intros i. rewrite H'. by eapply HT.
Qed.

End proofs.

(** * What is marked *)

Section marks.
Context `{Unicode} (getBBox : nat -> bbox) (text className : jstr).

(** A page of ASCII text without drawings in which every element of class [className] holds
    exactly one text, equal to the searched word up to case. *)
Fixpoint marked_ok (n : node) : Prop :=
  match n with
  | Text s => forallb is_ascii s = true
  | Elem _ _ tag cls _ ch =>
      tag <> js "svg" /\
      (className ∈ cls -> exists t, ch = [Text t] /\ toLowerCase t = text) /\
      foldr (fun c P => marked_ok c /\ P) True ch
  end.

Lemma marked_ok_Forall (ch : list node) :
  foldr (fun c P => marked_ok c /\ P) True ch <-> Forall marked_ok ch.
Proof.
  induction ch as [|c ch IH]; simpl; [split; [constructor|done]|]. by rewrite IH, Forall_cons.
Qed.

Lemma forallb_take p (s : jstr) n : forallb p s = true -> forallb p (take n s) = true.
Proof. intros Hs. rewrite <- (take_drop n s), forallb_app in Hs. by apply andb_true_iff in Hs as [? ?]. Qed.

Lemma forallb_drop p (s : jstr) n : forallb p s = true -> forallb p (drop n s) = true.
Proof. intros Hs. rewrite <- (take_drop n s), forallb_app in Hs. by apply andb_true_iff in Hs as [? ?]. Qed.

Lemma occurrence_lower val p :
  forallb is_ascii val = true -> find_sub text (toLowerCase val) 0 = Some p ->
  toLowerCase (substr val p (length text)) = text.
Proof.
  intros Ha. unfold toLowerCase at 1, substr. rewrite Ha. intros [Heq Hl]%find_sub_Some.
  unfold toLowerCase. rewrite forallb_take, fmap_take, fmap_drop by by apply forallb_drop.
  assert (p = length (take p (ascii_lower <$> val))) as Hp by (rewrite length_take; lia).
  rewrite Heq at 1. rewrite Hp at 1. by rewrite drop_app_length, take_app_length.
Qed.

Lemma text_node_ok parent pcls val st repl st' :
  marked_ok (Text val) ->
  highlight_text_node getBBox text className parent pcls false val st = (repl, st') ->
  Forall marked_ok repl /\ (className ∈ pcls -> repl = [Text val]).
Proof.
  intros Hv. unfold highlight_text_node. case_match eqn:E; intros; simplify_eq; [|by repeat constructor].
  apply andb_true_iff in E as [[E1%Z.leb_le E2%bool_decide_eq_true]%andb_true_iff _].
  split; [|done]. simpl in Hv. unfold indexOf in *.
  destruct (find_sub text (toLowerCase val) 0) as [p|] eqn:Ef; [|lia].
  rewrite Nat2Z.id. unfold substr, substr_from. repeat constructor; simpl.
  - by apply forallb_take, forallb_drop.
  - by apply (bool_decide_unpack _).
  - intros _. eexists. split; [done|]. by apply occurrence_lower.
  - by apply forallb_take, forallb_drop.
  - by apply forallb_drop.
Qed.

Lemma children_loop_ok rec parent pcls n i ch st ch' st' :
  (forall e st e' st', is_elem e -> marked_ok e -> rec e st = Some (e', st') -> marked_ok e') ->
  Forall marked_ok ch ->
  (className ∈ pcls -> exists t, ch = [Text t] /\ toLowerCase t = text) ->
  children_loop getBBox text className rec parent pcls false n i ch st = Some (ch', st') ->
  Forall marked_ok ch' /\ (className ∈ pcls -> exists t, ch' = [Text t] /\ toLowerCase t = text).
Proof.
  intros Hrec. revert i ch st. induction n as [|n IH]; intros i ch st Hch Hcls; cbn [children_loop].
  { by intros [= <- <-]. }
  destruct (ch !! i) as [e|] eqn:Hi; [|by intros [= <- <-]].
  assert (marked_ok e) as He by (rewrite Forall_forall in Hch; by eapply Hch, list_elem_of_lookup_2).
  destruct e as [s|id a tag cls g ch0].
  - destruct (highlight_text_node _ _ _ _ _ _ _ _) as [repl st1] eqn:Et.
    apply text_node_ok in Et as [Hr Hsame]; [|done]. apply IH.
    + rewrite !Forall_app. split_and!; [by apply Forall_take|done|by apply Forall_drop].
    + intros Hc. destruct (Hcls Hc) as (t & -> & Ht). rewrite (Hsame Hc).
      apply list_lookup_singleton_Some in Hi as [-> ?]. simplify_eq. eauto.
  - destruct (rec _ st) as [[e' st1]|] eqn:Er; [|done].
    apply IH.
    + apply Forall_insert; [done|]. eapply (Hrec (Elem id a tag cls g ch0)); done.
    + intros Hc. destruct (Hcls Hc) as (t & -> & Ht).
      by apply list_lookup_singleton_Some in Hi as [_ ?].
Qed.

Lemma _highlight_ok f n st n' st' :
  marked_ok n ->
  _highlight getBBox text className f false n st = Some (n', st') -> marked_ok n'.
Proof.
  revert n st n' st'; induction f as [|f IH]; intros n st n' st' Hn; [done|].
  destruct n as [s|id a tag cls g ch]; cbn [_highlight]; [by intros [= <- <-]|].
  case_decide; [by intros [= <- <-]|].
  destruct Hn as (Htag & Hcls & Hch). apply marked_ok_Forall in Hch.
  assert (svg_below tag false = false) as ->.
  { unfold svg_below. rewrite decide_False by done. by case_decide. }
  destruct (children_loop _ _ _ _ _ _ _ _ _ _ _) as [[ch' st1]|] eqn:El; [|done].
  intros [= <- <-]. apply children_loop_ok in El as [H1 H2]; [|intros; by eapply IH|done|done].
  split_and!; [done..|]. by apply marked_ok_Forall.
Qed.

Lemma text_node_no_items parent pcls val st repl st' :
  highlight_text_node getBBox text className parent pcls false val st = (repl, st') ->
  addItems st' = addItems st.
Proof. unfold highlight_text_node. case_match; intros; by simplify_eq. Qed.

Lemma children_loop_no_items rec parent pcls n i ch st ch' st' :
  (forall e st e' st', is_elem e -> marked_ok e -> rec e st = Some (e', st') ->
     marked_ok e' /\ addItems st' = addItems st) ->
  Forall marked_ok ch ->
  children_loop getBBox text className rec parent pcls false n i ch st = Some (ch', st') ->
  addItems st' = addItems st.
Proof.
  intros Hrec. revert i ch st. induction n as [|n IH]; intros i ch st Hch; cbn [children_loop].
  { by intros [= <- <-]. }
  destruct (ch !! i) as [e|] eqn:Hi; [|by intros [= <- <-]].
  assert (marked_ok e) as He by (rewrite Forall_forall in Hch; by eapply Hch, list_elem_of_lookup_2).
  destruct e as [s|id a tag cls g ch0].
  - destruct (highlight_text_node _ _ _ _ _ _ _ _) as [repl st1] eqn:Et.
    intros ->%IH; [by apply text_node_no_items in Et|].
    apply text_node_ok in Et as [Hr _]; [|done].
    rewrite !Forall_app. split_and!; [by apply Forall_take|done|by apply Forall_drop].
  - destruct (rec _ st) as [[e' st1]|] eqn:Er; [|done].
    apply Hrec in Er as [? <-]; [|done..]. intros ?%IH; [done|]. by apply Forall_insert.
Qed.

Lemma _highlight_no_items f n st n' st' :
  marked_ok n -> _highlight getBBox text className f false n st = Some (n', st') ->
  addItems st' = addItems st.
Proof.
  revert n st n' st'; induction f as [|f IH]; intros n st n' st' Hn; [done|].
  destruct n as [s|id a tag cls g ch]; cbn [_highlight]; [by intros [= <- <-]|].
  case_decide; [by intros [= <- <-]|].
  destruct Hn as (Htag & Hcls & Hch). apply marked_ok_Forall in Hch.
  assert (svg_below tag false = false) as ->.
  { unfold svg_below. rewrite decide_False by done. by case_decide. }
  destruct (children_loop _ _ _ _ _ _ _ _ _ _ _) as [[ch' st1]|] eqn:El; [|done].
  intros [= <- <-]. eapply children_loop_no_items; [|done|exact El].
  intros e st0 e' st0' _ He Hr. split; [|by eapply IH]. by eapply _highlight_ok.
Qed.
End marks.

(** C31. On a page of ASCII text without drawings whose elements of the mark's class are all
    marks of the word (in particular on a page without such elements), every element of that
    class afterwards holds exactly one text, which is the word up to case. *)
Theorem marks_are_occurrences `{Unicode} getBBox n text className fresh n' fresh' :
  marked_ok text className n ->
  _highlightText getBBox n text className fresh = Some (n', fresh') ->
  marked_ok text className n'.
Proof.
  intros Hn. unfold _highlightText.
  destruct (_highlight _ _ _ _ _ _ _) as [[n1 st1]|] eqn:Eh; [|done].
  pose proof (_highlight_no_items _ _ _ _ _ _ _ _ Hn Eh) as Hi. simpl in Hi. rewrite Hi. simpl.
  intros [= <- <-]. eapply _highlight_ok; [exact Hn|exact Eh].
Qed.

Definition no_layout (_ : nat) : bbox := (0, 0, 0, 0)%Z.

Definition demo_page : node :=
  Elem 0 [] (js "body") [] None
    [Elem 1 [] (js "p") [] None
      [Text (js "The Port is open, the port is closed."); Elem 2 [] (js "em") [] None [Text (js "Ports")];
       Text (js " One port.")]].

Lemma marks_are_occurrences_witness :
  exists n' fresh', _highlightText no_layout demo_page (js "port") (js "highlighted") 10 = Some (n', fresh') /\
    marked_ok (js "port") (js "highlighted") n'.
Proof.
  eexists _, _. split; [vm_compute; reflexivity|].
  eapply (marks_are_occurrences no_layout demo_page (js "port") (js "highlighted") 10);
    [|vm_compute; reflexivity].
  assert (forall t : jstr, js "highlighted" ∈ ([] : list jstr) -> exists u : jstr, [Text t] = [Text u] /\ toLowerCase u = js "port") as Hno.
  { intros t Hin. exfalso. by apply not_elem_of_nil in Hin. }
  split; [discriminate|]. split; [by intros ?%not_elem_of_nil|]. split; [|exact I].
  split; [discriminate|]. split; [by intros ?%not_elem_of_nil|].
  split; [vm_compute; reflexivity|]. split.
  { split; [discriminate|]. split; [by intros ?%not_elem_of_nil|]. split; [vm_compute; reflexivity|exact I]. }
  split; [vm_compute; reflexivity|exact I].
Defined.

(** The marks of a page, in document order. *)
Fixpoint marks (className : jstr) (n : node) : list jstr :=
  match n with
  | Text _ => []
  | Elem _ _ _ cls _ ch =>
      (if decide (className ∈ cls) then [flat_map textContent ch] else []) ++ flat_map (marks className) ch
  end.

(** Not every occurrence is marked: the loop reads the number of children before it splits
    the first text, so the children pushed behind that number are never visited.  In a
    paragraph with four occurrences of the word in three children only two are marked. *)
Theorem later_occurrences_unmarked :
  exists n' fresh', _highlightText no_layout demo_page (js "port") (js "highlighted") 10 = Some (n', fresh') /\
    marks (js "highlighted") n' = [js "Port"; js "port"].
Proof. eexists _, _. split; vm_compute; reflexivity. Qed.

End Highlight.
