(* ===== verification/HighlightPage.v ===== *)
(** docs/_static/sphinx_highlight.js on a page: the search words are marked when it is
    ready, a link in the search box hides the marks, and so does the key Escape.

    The state is the document with what the script keeps outside of it: the words in
    local storage and in the address, and the timers that are to mark a part of the
    document.  What happens to the page is a list of events. *)

From S2P Require Import Prelude Doctools Highlight.
Import Doctools Highlight.

Module HighlightPage.

(** * The page *)

Record page := {
  document : node;
  fresh : nat;                              (** the identity of the next element *)
  stored : option jstr;                     (** sphinx_highlight_terms in local storage *)
  url_highlight : option jstr;              (** the parameter of the address *)
  timers : list (option nat * list jstr);   (** where to mark what, in the order of the timers *)
}.

(** The elements of a document, in its order *)
Fixpoint elements (n : node) : list node :=
  match n with
  | Text _ => []
  | Elem _ _ _ _ _ ch => n :: flat_map elements ch
  end.

Definition has_tag (t : jstr) (n : node) : bool :=
  match n with Elem _ _ tag _ _ _ => bool_decide (tag = t) | Text _ => false end.
Definition has_class (c : jstr) (n : node) : bool :=
  match n with Elem _ _ _ cls _ _ => bool_decide (c ∈ cls) | Text _ => false end.
Definition identity (n : node) : option nat :=
  match n with Elem id _ _ _ _ _ => Some id | Text _ => None end.

(** The first [div.body], or else the body of the document *)
Definition body_of (doc : node) : option nat :=
  match filter (fun n => has_tag (js "div") n && has_class (js "body") n) (elements doc) with
  | n :: _ => identity n
  | [] => head (filter (fun n => has_tag (js "body") n) (elements doc)) ≫= identity
  end.

(** The element with this identity is changed. *)
Fixpoint change_element (id : nat) (f : node -> node) (n : node) : node :=
  match n with
  | Text _ => n
  | Elem i a tag cls g ch => if Nat.eqb i id then f n else Elem i a tag cls g (change_element id f <$> ch)
  end.

(** ** The link in the search box *)

Definition searchbox : jstr := js "searchbox".
Definition highlight_link : jstr := js "highlight-link".
Definition highlighted : jstr := js "highlighted".

(** The first of the nodes that [f] applies to is changed. *)
Definition change_first (f : node -> option node) : list node -> option (list node) :=
  fix go l :=
    match l with
    | [] => None
    | n :: l' => match f n with Some n' => Some (n' :: l') | None => (fun r => n :: r) <$> go l' end
    end.

(** [document.getElementById("searchbox").appendChild(link)], if there is such an element *)
Fixpoint append_to_searchbox (link n : node) : option node :=
  match n with
  | Text _ => None
  | Elem i a tag cls g ch =>
      if decide (a = searchbox) then Some (Elem i a tag cls g (ch ++ [link]))
      else Elem i a tag cls g <$> change_first (append_to_searchbox link) ch
  end.

(** [_("Hide Search Matches")]; an undefined translation is put into the string as
    such. *)
Definition link_label (tr : i18n) : jstr := default (js "undefined") (gettext tr (js "Hide Search Matches")).

(** A label is parsed as HTML; one without these characters stands for itself. *)
Definition plain_label (label : jstr) : bool :=
  forallb (fun c => negb (bool_decide (c ∈ [chr "<"; chr "&"; 0%N; 13%N]))) label.

(** The elements that the fragment with the label is parsed into *)
Definition link_element (label : jstr) (id : nat) : node :=
  Elem id [] (js "p") [highlight_link] None
    [Elem (S id) [] (js "a") [] None (match label with [] => [] | _ => [Text label] end)].

(** * The operations *)

Section operations.
Context `{Unicode}.
Variable getBBox : nat -> bbox.
Variable tr : i18n.
Variable opts : options.

(** [highlightSearchWords()], with [SPHINX_HIGHLIGHT_ENABLED], which is true: [None] for a label with markup, which is outside of the
    model. *)
Definition highlightSearchWords (pg : page) : option page :=
  let terms := highlight_terms (stored pg) (url_highlight pg) in
  let pg1 := {| document := document pg; fresh := fresh pg; stored := None; url_highlight := None; timers := timers pg |} in
  match terms with
  | [] => Some pg1
  | _ =>
      let timers' := timers pg ++ [(body_of (document pg), terms)] in
      let link := link_element (link_label tr) (fresh pg) in
      match append_to_searchbox link (document pg) with
      | None => Some {| document := document pg; fresh := fresh pg; stored := None; url_highlight := None; timers := timers' |}
      | Some doc =>
          if plain_label (link_label tr)
          then Some {| document := doc; fresh := S (S (fresh pg)); stored := None; url_highlight := None; timers := timers' |}
          else None
      end
  end.

(** The first timer: [terms.forEach((term) => _highlightText(body, term, "highlighted"))];
    without a body the first term throws, which changes nothing. *)
Definition run_timer (pg : page) : page :=
  match timers pg with
  | [] => pg
  | (body, terms) :: timers' =>
      let marked n := match highlight_all getBBox terms n (fresh pg) with Some r => r | None => (n, fresh pg) end in
      let target := match body with
                    | Some id => head (filter (fun n => bool_decide (identity n = Some id)) (elements (document pg)))
                    | None => None
                    end in
      {| document := match body with
                     | Some id => change_element id (fun n => (marked n).1) (document pg)
                     | None => document pg
                     end;
         fresh := match target with Some n => (marked n).2 | None => fresh pg end;
         stored := stored pg; url_highlight := url_highlight pg; timers := timers' |}
  end.

(** Is [n] an element [#searchbox .highlight-link], below a search box or not? *)
Definition is_link (in_box : bool) (n : node) : bool := in_box && has_class highlight_link n.

Definition in_searchbox (in_box : bool) (attr_id : jstr) : bool := in_box || bool_decide (attr_id = searchbox).

(** [document.querySelectorAll("#searchbox .highlight-link").forEach((el) => el.remove())] *)
Fixpoint remove_links (in_box : bool) (n : node) : node :=
  match n with
  | Text _ => n
  | Elem i a tag cls g ch =>
      let b := in_searchbox in_box a in
      Elem i a tag cls g (flat_map (fun c => if is_link b c then [] else [remove_links b c]) ch)
  end.

(** [document.querySelectorAll("span.highlighted").forEach((el) =>
    el.classList.remove("highlighted"))] *)
Fixpoint remove_marks (n : node) : node :=
  match n with
  | Text _ => n
  | Elem i a tag cls g ch =>
      Elem i a tag (if decide (tag = js "span") then filter (fun c => c <> highlighted) cls else cls) g
        (remove_marks <$> ch)
  end.

(** [hideSearchWords()] *)
Definition hideSearchWords (pg : page) : page :=
  {| document := remove_marks (remove_links false (document pg)); fresh := fresh pg; stored := None;
     url_highlight := url_highlight pg; timers := timers pg |}.

(** The listener of [initEscapeListener]: does the key hide the marks? *)
Definition escape_hides (active : jstr) (ev : key_event) : bool :=
  ENABLE_SEARCH_SHORTCUTS opts && negb (bool_decide (active ∈ BLACKLISTED_KEY_CONTROL_ELEMENTS)) &&
  negb (ev_shift ev || ev_alt ev || ev_ctrl ev || ev_meta ev) && bool_decide (ev_key ev = js "Escape").

(** What happens: the page gets ready, a timer runs out, a key is pressed while an
    element has the focus, the link is followed. *)
Inductive event := Ready | Timer | Keydown (active : jstr) (ev : key_event) | FollowLink.

Definition hides (e : event) : bool :=
  match e with Keydown active ev => escape_hides active ev | FollowLink => true | _ => false end.

Definition step (e : event) (pg : page) : option page :=
  match e with
  | Ready => highlightSearchWords pg
  | Timer => Some (run_timer pg)
  | Keydown _ _ | FollowLink => Some (if hides e then hideSearchWords pg else pg)
  end.

Fixpoint run_events (es : list event) (pg : page) : option page :=
  match es with
  | [] => Some pg
  | e :: es' => match step e pg with Some pg' => run_events es' pg' | None => None end
  end.

End operations.

(** * The text of the page *)

(** The text of a node, below a search box or not, without what elements of the class
    highlight-link in a search box hold *)
Fixpoint shown (in_box : bool) (n : node) : jstr :=
  match n with
  | Text s => s
  | Elem _ a _ cls _ ch =>
      if in_box && bool_decide (highlight_link ∈ cls) then []
      else flat_map (shown (in_box || bool_decide (a = searchbox))) ch
  end.

(** The text of a document without the links *)
Definition text_without_links (doc : node) : jstr := shown false doc.

(** [querySelectorAll] with such a class *)
Definition no_links (doc : node) : Prop := Forall (fun e => has_class highlight_link e = false) (elements doc).

Lemma no_links_shown n b : no_links n -> shown b n = textContent n.
Proof.
  unfold no_links. revert b. induction n as [s|i a tag cls g ch IH] using node_ind'; intros b; [done|].
  cbn [elements shown textContent]. intros [Hc Hch]%Forall_cons. cbn [has_class] in Hc. rewrite Hc, andb_false_r. clear Hc. generalize (b || bool_decide (a = searchbox)). clear b. intros b.
  induction IH as [|c ch Hc _ IHch]; [done|]. cbn [flat_map] in *.
  apply Forall_app in Hch as [H1 H2]. by rewrite Hc, IHch.
Qed.

Lemma shown_elem b i a tag cls g ch :
  shown b (Elem i a tag cls g ch) = if is_link b (Elem i a tag cls g []) then [] else flat_map (shown (in_searchbox b a)) ch.
Proof. done. Qed.

Lemma shown_link b n : is_link b n = true -> shown b n = [].
Proof. destruct n as [s|i a tag cls g ch]; intros E; [by destruct b|]. rewrite shown_elem. change (is_link b (Elem i a tag cls g [])) with (is_link b (Elem i a tag cls g ch)). by rewrite E. Qed.

(** What is left when the links are removed *)
Lemma remove_links_text n b : is_link b n = false -> textContent (remove_links b n) = shown b n.
Proof.
  revert b. induction n as [s|i a tag cls g ch IH] using node_ind'; intros b E; [done|].
  rewrite shown_elem. change (is_link b (Elem i a tag cls g [])) with (is_link b (Elem i a tag cls g ch)). rewrite E.
  cbn [remove_links textContent]. generalize (in_searchbox b a). clear b E. intros b.
  induction IH as [|c ch Hc _ IHch]; [done|]. cbn [flat_map]. rewrite flat_map_app, IHch. f_equal.
  destruct (is_link b c) eqn:E; [by rewrite shown_link|]. cbn. by rewrite app_nil_r, Hc.
Qed.

Lemma shown_children b i a tag cls g ch ch' : (forall b, flat_map (shown b) ch = flat_map (shown b) ch') ->
  shown b (Elem i a tag cls g ch) = shown b (Elem i a tag cls g ch').
Proof. intros Hc. by rewrite !shown_elem, Hc. Qed.

Section proofs.
Context `{Unicode} (getBBox : nat -> bbox) (tr : i18n) (opts : options).

Lemma marking_keeps_text n text fresh0 n' fresh' :
  _highlightText getBBox n text highlighted fresh0 = Some (n', fresh') -> textContent n' = textContent n.
Proof.
  intros E. refine (_highlightText_preserves getBBox (fun _ : unit => textContent) highlighted _ _ _ _ n text fresh0 n' fresh' E tt).
  - done.
  - done.
  - by intros _ [|? [|] ? ? ? []].
  - intros id a tag cls g ch ch' Hc _. apply (Hc tt).
Qed.

Lemma made_no_link b m : is_made highlighted m \/ is_rect highlighted m -> is_link b m = false.
Proof.
  assert (has_class highlight_link m = false -> is_link b m = false) as Hl by (intros E; unfold is_link; by rewrite E, andb_false_r).
  destruct m as [s|? [|] ? cls ? [|[|] [|]]]; intros [Hm|Hm]; try done; apply Hl; simpl in *;
    repeat destruct Hm as [Hm|Hm]; subst; done.
Qed.

Lemma marking_keeps_shown n text fresh0 n' fresh' :
  _highlightText getBBox n text highlighted fresh0 = Some (n', fresh') -> forall b, shown b n' = shown b n.
Proof.
  apply (_highlightText_preserves getBBox shown highlighted).
  - done.
  - intros b m Hm. pose proof (made_no_link b m (or_introl Hm)) as Hl. rewrite <- remove_links_text by done.
    clear Hl. destruct m as [|? [|] ? ? ? [|[|] [|]]]; try done. cbn [remove_links flat_map textContent is_made] in *.
    unfold is_link. cbn [has_class]. by rewrite andb_false_r.
  - intros b m Hm. pose proof (made_no_link b m (or_intror Hm)) as Hl. rewrite <- remove_links_text by done.
    by destruct m as [|? [|] ? ? ? []].
  - intros. by apply shown_children.
Qed.

Lemma change_element_text id f n : (forall n, textContent (f n) = textContent n) ->
  textContent (change_element id f n) = textContent n.
Proof.
  intros Hf. induction n as [s|i a tag cls g ch IH] using node_ind'; [done|]. cbn [change_element].
  destruct (Nat.eqb i id); [apply Hf|]. cbn [textContent].
  induction IH as [|c ch Hc _ IHch]; [done|]. csimpl. by rewrite Hc, IHch.
Qed.

Lemma change_element_shown id f n : (forall b n, shown b (f n) = shown b n) ->
  forall b, shown b (change_element id f n) = shown b n.
Proof.
  intros Hf. induction n as [s|i a tag cls g ch IH] using node_ind'; [done|]. cbn [change_element]. intros b.
  destruct (Nat.eqb i id); [apply Hf|]. apply shown_children. clear b. intros b.
  induction IH as [|c ch Hc _ IHch]; [done|]. csimpl. by rewrite Hc, IHch.
Qed.

(** A timer changes neither the text nor the text without links. *)
Lemma run_timer_text pg : textContent (document (run_timer getBBox pg)) = textContent (document pg) /\
  text_without_links (document (run_timer getBBox pg)) = text_without_links (document pg).
Proof.
  unfold run_timer. destruct (timers pg) as [|[[id|] terms] ts]; [done| |done]. cbn [document].
  split; [apply change_element_text|apply change_element_shown].
  - intros n. destruct (highlight_all_preserves getBBox (fun _ : unit => textContent) terms n (fresh pg)) as (n' & f' & E & Ht).
    { intros ? ? ? ? ? Hm _. by eapply marking_keeps_text. }
    rewrite E. apply (Ht tt).
  - intros b n. destruct (highlight_all_preserves getBBox shown terms n (fresh pg)) as (n' & f' & E & Ht).
    { intros ? ? ? ? ? Hm. by eapply marking_keeps_shown. }
    by rewrite E.
Qed.

(** The link is the only text that is added, and it does not count. *)
Lemma append_shown link n n' : has_class highlight_link link = true -> append_to_searchbox link n = Some n' ->
  forall b, shown b n' = shown b n.
Proof.
  intros Hl. revert n'. induction n as [s|i a tag cls g ch IH] using node_ind'; intros n'; cbn [append_to_searchbox]; [done|].
  destruct (decide (a = searchbox)) as [->|Hne].
  - intros [= <-] b. rewrite !shown_elem. unfold in_searchbox. rewrite bool_decide_true, orb_true_r by done.
    rewrite flat_map_app. cbn [flat_map]. rewrite (shown_link _ link) by done. by rewrite !app_nil_r.
  - intros (ch' & E & ->)%fmap_Some b. apply shown_children. clear b.
    revert ch' E. induction IH as [|c ch Hc _ IHch]; intros ch' E b; [done|]. cbn in E.
    destruct (append_to_searchbox link c) as [c'|] eqn:Ec.
    + injection E as <-. cbn. by rewrite (Hc c').
    + apply fmap_Some in E as (r & Er & ->). cbn. by rewrite (IHch r Er).
Qed.

(** Hiding leaves the text without links, and no links or marks. *)
Lemma remove_marks_text n : textContent (remove_marks n) = textContent n.
Proof.
  induction n as [s|i a tag cls g ch IH] using node_ind'; [done|]. cbn [remove_marks textContent].
  induction IH as [|c ch Hc _ IHch]; [done|]. csimpl. by rewrite Hc, IHch.
Qed.

Lemma remove_marks_link b n : is_link b (remove_marks n) = is_link b n.
Proof.
  unfold is_link. f_equal. destruct n as [s|i a tag cls g ch]; [done|]. cbn. destruct (decide _); [|done].
  apply bool_decide_ext. rewrite list_elem_of_filter. split; [by intros [_ ?]|]. intros Hc. by split.
Qed.

Lemma remove_marks_shown n b : shown b (remove_marks n) = shown b n.
Proof.
  revert b. induction n as [s|i a tag cls g ch IH] using node_ind'; intros b; [done|].
  pose proof (remove_marks_link b (Elem i a tag cls g [])) as Hl. cbn [remove_marks fmap list_fmap] in *.
  rewrite !shown_elem, Hl. destruct (is_link b (Elem i a tag cls g [])); [done|].
  induction IH as [|c ch Hc _ IHch]; [done|]. csimpl. by rewrite Hc, IHch.
Qed.

Lemma remove_links_shown n b : is_link b n = false -> shown b (remove_links b n) = shown b n.
Proof.
  revert b. induction n as [s|i a tag cls g ch IH] using node_ind'; intros b Hb; [done|]. cbn [remove_links].
  rewrite !shown_elem. destruct (is_link _ _); [done|]. generalize (in_searchbox b a). clear b Hb. intros b.
  induction IH as [|c ch Hc _ IHch]; [done|]. cbn [flat_map]. rewrite flat_map_app, IHch. f_equal.
  destruct (is_link b c) eqn:E; [by rewrite shown_link|]. cbn [flat_map]. by rewrite app_nil_r, Hc.
Qed.

Lemma hidden_text pg : textContent (document (hideSearchWords pg)) = text_without_links (document pg) /\
  text_without_links (document (hideSearchWords pg)) = text_without_links (document pg).
Proof.
  unfold hideSearchWords, text_without_links. cbn [document].
  by rewrite remove_marks_text, remove_links_text, remove_marks_shown, remove_links_shown.
Qed.

Lemma remove_marks_none n : Forall (fun e => has_tag (js "span") e && has_class highlighted e = false) (elements (remove_marks n)).
Proof.
  induction n as [s|i a tag cls g ch IH] using node_ind'; [constructor|]. cbn [remove_marks elements]. constructor.
  - cbn. destruct (decide (tag = js "span")) as [->|Hn]; [|by rewrite (bool_decide_false (tag = _))].
    rewrite andb_false_iff. right. apply bool_decide_false. by intros [? _]%list_elem_of_filter.
  - induction IH as [|c ch Hc _ IHch]; [constructor|]. csimpl. by apply Forall_app.
Qed.

Lemma step_text e pg : plain_label (link_label tr) = true ->
  exists pg', step getBBox tr opts e pg = Some pg' /\ text_without_links (document pg') = text_without_links (document pg).
Proof.
  intros Hp. destruct e as [| |active ev|]; cbn [step].
  - unfold highlightSearchWords. destruct (highlight_terms _ _); [eauto|].
    destruct (append_to_searchbox _ _) as [doc|] eqn:E; [|eauto]. rewrite Hp. eexists. split; [done|].
    cbn [document]. eapply append_shown; [|exact E]; reflexivity.
  - eexists. split; [done|]. apply run_timer_text.
  - eexists. split; [done|]. destruct (hides _ _); [apply hidden_text|done].
  - eexists. split; [done|]. apply hidden_text.
Qed.

(** C29. Searching on a page leaves its text alone.  Whatever happens to a page, in
    any order (it gets ready, timers mark the words in the document, keys are
    pressed, the link in the search box is followed), all of it ends, and the text of
    the document, up to the links that hide the marks, stays what it was.  Marking
    itself changes no text at all; and the moment the marks are hidden, by the
    key Escape or by the link, the links are gone from the search box, the text of
    the document is the one it had (without links that it may have had itself), no
    span is marked and local storage is cleared.  (The label of the link has no markup, in whatever language.) *)
Theorem highlight_preserves_text es pg : plain_label (link_label tr) = true ->
  exists pg', run_events getBBox tr opts es pg = Some pg' /\
    text_without_links (document pg') = text_without_links (document pg) /\
    textContent (document (run_timer getBBox pg')) = textContent (document pg') /\
    (forall es0 e, es = es0 ++ [e] -> hides opts e = true ->
       textContent (document pg') = text_without_links (document pg) /\
       (no_links (document pg) -> textContent (document pg') = textContent (document pg)) /\ stored pg' = None /\
       Forall (fun e => has_tag (js "span") e && has_class highlighted e = false) (elements (document pg'))).
Proof.
  intros Hp. assert (forall es pg, exists pg', run_events getBBox tr opts es pg = Some pg' /\
    text_without_links (document pg') = text_without_links (document pg)) as Hrun.
  { clear es pg. induction es as [|e es IH]; intros pg; cbn [run_events]; [eauto|].
    destruct (step_text e pg Hp) as (pg1 & -> & <-). apply IH. }
  assert (forall es0 e pg, run_events getBBox tr opts (es0 ++ [e]) pg = run_events getBBox tr opts es0 pg ≫= step getBBox tr opts e) as Hlast.
  { clear. induction es0 as [|e0 es0 IH]; intros e pg; cbn; [by destruct (step _ _ _ e pg)|]. by destruct (step _ _ _ e0 pg). }
  destruct (Hrun es pg) as (pg' & E & Ht). exists pg'. split; [done|]. split; [done|]. split; [apply run_timer_text|].
  intros es0 e -> He. rewrite Hlast in E. destruct (Hrun es0 pg) as (pg0 & E0 & Ht0). rewrite E0 in E. cbn in E.
  assert (pg' = hideSearchWords pg0) as ->.
  { destruct e; cbn [step] in E; [done|done| |by injection E as <-]. rewrite He in E. by injection E as <-. }
  assert (textContent (document (hideSearchWords pg0)) = text_without_links (document pg)) as Hd by (rewrite <- Ht0; apply hidden_text).
  split; [done|]. split; [by intros Hn; rewrite Hd; apply no_links_shown|]. split; [done|]. apply remove_marks_none.
Qed.

End proofs.

(** * Examples *)

(** A page with a search box, found by a search for "port" *)
Definition found_page : page :=
  {| document := Elem 0 [] (js "html") [] None
       [Elem 1 [] (js "body") [] None
         [Elem 2 (js "searchbox") (js "div") [] None [Elem 3 [] (js "h3") [] None [Text (js "Quick search ")]];
          Elem 4 [] (js "div") [js "body"] None
            [Elem 5 [] (js "p") [] None [Text (js "The Port is open.")];
             Elem 6 [] (js "svg") [] None [Elem 7 [] (js "text") [] None [Text (js "port 80")]]]]];
     fresh := 10; stored := Some (js "PORT"); url_highlight := None; timers := [] |}.

Definition escape : key_event :=
  {| ev_key := js "Escape"; ev_alt := false; ev_ctrl := false; ev_meta := false; ev_shift := false |}.

Lemma highlight_preserves_text_witness :
  exists pg', run_events no_layout i18n_initial (DOCUMENTATION_OPTIONS []) [Ready; Timer; Keydown (js "BODY") escape] found_page = Some pg' /\
    textContent (document pg') = js "Quick search The Port is open.port 80".
Proof.
  destruct (highlight_preserves_text no_layout i18n_initial (DOCUMENTATION_OPTIONS [])
    [Ready; Timer; Keydown (js "BODY") escape] found_page) as (pg' & E & _ & _ & Hh); [reflexivity|].
  exists pg'. split; [exact E|]. destruct (Hh [Ready; Timer] (Keydown (js "BODY") escape) eq_refl eq_refl) as (_ & Ht & _). rewrite Ht; [by vm_compute|]. by repeat constructor.
Defined.

(** Before the marks are hidden, the words are marked and the link is there. *)
Example found_page_marked :
  match run_events no_layout i18n_initial (DOCUMENTATION_OPTIONS []) [Ready; Timer] found_page with
  | Some pg' => textContent (document pg') = js "Quick search Hide Search MatchesThe Port is open.port 80" /\
      marks highlighted (document pg') = [js "Port"; []]
  | None => False
  end.
Proof. by vm_compute. Qed.

(** The mark of a drawing stays: it is a rectangle of the class highlighted, and only
    spans lose that class. *)
Lemma drawings_stay_marked :
  match run_events no_layout i18n_initial (DOCUMENTATION_OPTIONS []) [Ready; Timer; FollowLink] found_page with
  | Some pg' => length (filter (fun e => has_tag (js "rect") e && has_class highlighted e = true) (elements (document pg'))) = 1
  | None => False
  end.
Proof. by vm_compute. Qed.

End HighlightPage.
