(* ===== verification/Search.v ===== *)
(** docs/_static/searchtools.js: the full-text search of the documentation.

    The search index (searchindex.js) is generated data; it is the record [Index],
    every object of it an association list in enumeration order.  [query] runs the
    four searches of the source, sorts and removes duplicates; [display] is the loop of
    timers that shows the results; the pulse of dots and the deferred query are small
    state machines.  Numbers (document indices and scores) are integers. *)

From S2P Require Import Prelude Regex Stemmer Doctools.
Import Stemmer Doctools.

Module Search.

(** * Scorer *)

Definition objNameMatch : Z := 11.
Definition objPartialMatch : Z := 6.
Definition objPrio (prio : Z) : option Z :=
  match prio with 0%Z => Some 15%Z | 1%Z => Some 5%Z | 2%Z => Some (-5)%Z | _ => None end.
Definition objPrioDefault : Z := 0.
Definition score_title : Z := 15.
Definition score_partialTitle : Z := 7.
Definition score_term : Z := 5.
Definition score_partialTerm : Z := 2.

(** * The search index *)

(** [terms[word]]: one document index, or an array of them. *)
Inductive files := FOne (n : nat) | FMany (ns : list nat).

(** [objects[prefix]] in its two encodings: an object from names to
    [[doc, type, prio, anchor]], or an array of [[doc, type, prio, anchor, name]]. *)
Record obj_match := { o_doc : nat; o_type : nat; o_prio : Z; o_anchor : jstr }.
Inductive obj_table :=
| OObject (entries : list (jstr * obj_match))
| OArray (entries : list (obj_match * jstr)).

Record Index := {
  docnames : list jstr;
  filenames : list jstr;
  titles : list jstr;
  alltitles : list (jstr * list (nat * option jstr));
  indexentries : list (jstr * list (nat * option jstr));
  objects : list (jstr * obj_table);
  objnames : list (nat * (jstr * jstr * jstr));    (** domain, type, label *)
  terms : list (jstr * files);
  titleterms : list (jstr * files);
}.

(** A result: [[docname, title, anchor, descr, score, filename]]; [None] stands for
    undefined, and for null in [r_descr]. *)
Record result := {
  r_docname : option jstr;
  r_title : option jstr;
  r_anchor : jstr;
  r_descr : option jstr;
  r_score : Z;
  r_filename : option jstr;
}.

(** * Sets of strings in insertion order *)

Definition set_add (x : jstr) (s : list jstr) : list jstr :=
  if decide (x ∈ s) then s else s ++ [x].
Definition set_of (l : list jstr) : list jstr := foldl (fun s x => set_add x s) [] l.

(** * Escaping a search word *)

Definition regexp_special (c : N) : bool := existsb (N.eqb c) (js ".*+-?^${}()|[]\").

(** [string.replace(/[.*+\-?^${}()|[\]\\]/g, "\\$&")] *)
Definition _escapeRegExp (string : jstr) : jstr :=
  replace_all {| p_groups := 0; p_re := RClass regexp_special |} string
    (fun m => js "\" ++ group_or_empty string m 0).

(** [new RegExp(source)] for a source made of ordinary characters and of escaped
    special characters, the only ones [_escapeRegExp] leaves. *)
Fixpoint parse_literal (source : jstr) : option jstr :=
  match source with
  | [] => Some []
  | c :: rest =>
      if N.eqb c (chr "\") then
        match rest with
        | d :: rest' => if regexp_special d then (fun t => d :: t) <$> parse_literal rest' else None
        | [] => None
        end
      else if regexp_special c && negb (N.eqb c (chr "-")) && negb (N.eqb c (chr "]"))
              && negb (N.eqb c (chr "}"))
      then None
      else (fun t => c :: t) <$> parse_literal rest
  end.

(** [term.match(source)] is not null; a source outside the fragment matches nothing. *)
Definition matches (term source : jstr) : bool :=
  match parse_literal source with
  | Some t => test {| p_groups := 0; p_re := RLit t |} term
  | None => false
  end.

(** [scoreMap], and [fileMap] in insertion order. *)
Abbreviation score_map := (gmap nat (gmap jstr Z)).
Abbreviation file_map := (list (nat * list jstr)).

Section with_env.
  Context `{Unicode}.
  (** The translation function [_] of doctools.js. *)
  Variable tr : jstr -> option jstr.

(** * splitQuery *)

(** Code points of a string, each with the code units that encode it. *)
Fixpoint code_points (s : jstr) : list (N * jstr) :=
  match s with
  | [] => []
  | hi :: rest =>
      match rest with
      | lo :: rest' =>
          if in_range 0xD800 0xDBFF hi && in_range 0xDC00 0xDFFF lo
          then ((0x10000 + (hi - 0xD800) * 0x400 + (lo - 0xDC00))%N, [hi; lo]) :: code_points rest'
          else (hi, [hi]) :: code_points rest
      | [] => [(hi, [hi])]
      end
  end.

(** [[\p{Letter}\p{Number}_\p{Emoji_Presentation}]] *)
Definition is_query_char (cp : N) : bool :=
  if N.ltb cp 128 then is_word_char cp else unicode_word cp.

(** [query.split(/[^...]+/gu)]: the pieces between maximal runs of separators. *)
Fixpoint split_query_pieces (cps : list (N * jstr)) (in_sep : bool) : list jstr :=
  match cps with
  | [] => [[]]
  | (cp, units) :: rest =>
      if is_query_char cp then
        match split_query_pieces rest false with
        | w :: ws => (units ++ w) :: ws
        | [] => [units]
        end
      else if in_sep then split_query_pieces rest true
      else [] :: split_query_pieces rest true
  end.

Definition splitQuery (query : jstr) : list jstr :=
  filter (fun t => t <> []) (split_query_pieces (code_points query) false).

(** * performTermsSearch *)

Definition files_list (f : files) : list nat :=
  match f with FOne n => [n] | FMany ns => ns end.

(** [!terms[word]]: absent, or the document index 0. *)
Definition falsy (v : prop_val files) : bool :=
  match v with POwn (FOne O) | PUndefined => true | _ => false end.

Definition record_t : Type := prop_val files * Z.

(** The candidate records of one word. *)
Definition word_records (idx : Index) (word : jstr) : list record_t :=
  let exact := [(obj_get (terms idx) word, score_term); (obj_get (titleterms idx) word, score_title)] in
  if Nat.ltb 2 (length word) then
    let escapedWord := _escapeRegExp word in
    exact
    ++ ((fun kv => (POwn kv.2, score_partialTerm)) <$>
          filter (fun kv => matches kv.1 escapedWord && falsy (obj_get (terms idx) word) = true)
            (terms idx))
    ++ ((fun _ => (obj_get (titleterms idx) word, score_partialTitle)) <$>
          filter (fun kv => matches kv.1 escapedWord && falsy (obj_get (titleterms idx) word) = true)
            (titleterms idx))
  else exact.

(** The files of a record; a member of Object.prototype cannot be spread. *)
Definition record_files (r : record_t) : res (list nat) :=
  match r.1 with
  | PUndefined => Ok []
  | POwn f => Ok (files_list f)
  | PMethod => Throw TypeError
  | PProto => Throw (OutOfModel (js "__proto__"))
  end.


(** [scoreMap.get(file)[word] = score] for each file of a record. *)
Definition add_scores (word : jstr) (score : Z) (fs : list nat) (m : score_map) : score_map :=
  foldl (fun m f => <[f := <[word := score]> (default ∅ (m !! f))]> m) m fs.


Fixpoint map_get (f : nat) (m : file_map) : option (list jstr) :=
  match m with
  | [] => None
  | (g, ws) :: m' => if Nat.eqb g f then Some ws else map_get f m'
  end.
Fixpoint map_set (f : nat) (ws : list jstr) (m : file_map) : file_map :=
  match m with
  | [] => [(f, ws)]
  | (g, vs) :: m' => if Nat.eqb g f then (g, ws) :: m' else (g, vs) :: map_set f ws m'
  end.

(** [if (fileMap.has(file) && fileMap.get(file).indexOf(word) === -1) push else set]. *)
Definition add_file (word : jstr) (m : file_map) (f : nat) : file_map :=
  match map_get f m with
  | Some ws => if decide (word ∈ ws) then map_set f [word] m else map_set f (ws ++ [word]) m
  | None => map_set f [word] m
  end.

Fixpoint add_records (word : jstr) (rs : list record_t) (sm : score_map) (fs : list nat)
    : res (score_map * list nat) :=
  match rs with
  | [] => Ok (sm, fs)
  | r :: rs' =>
      do ns <- record_files r;
      add_records word rs' (add_scores word r.2 ns sm) (fs ++ ns)
  end.

Definition search_word (idx : Index) (st : score_map * file_map) (word : jstr)
    : res (score_map * file_map) :=
  let arr := word_records idx word in
  if forallb (fun r => match r.1 with PUndefined => true | _ => false end) arr then Ok st
  else
    do (sm, fs) <- add_records word arr st.1 [];
    Ok (sm, foldl (add_file word) st.2 fs).

Fixpoint search_words (idx : Index) (ws : list jstr) (st : score_map * file_map)
    : res (score_map * file_map) :=
  match ws with
  | [] => Ok st
  | w :: ws' => do st' <- search_word idx st w; search_words idx ws' st'
  end.

(** [(terms[term] || []).includes(file)] *)
Definition files_include (v : prop_val files) (f : nat) : res bool :=
  match v with
  | PUndefined | POwn (FOne O) => Ok false
  | POwn (FMany ns) => Ok (bool_decide (f ∈ ns))
  | POwn (FOne (S _)) | PMethod | PProto => Throw TypeError      (** no such method *)
  end.

Definition is_file (v : prop_val files) (f : nat) : bool :=
  match v with POwn (FOne n) => Nat.eqb n f | _ => false end.

(** [[...excludedTerms].some(...)] *)
Fixpoint excluded (idx : Index) (excludedTerms : list jstr) (f : nat) : res bool :=
  match excludedTerms with
  | [] => Ok false
  | t :: ts =>
      let a := obj_get (terms idx) t in
      let b := obj_get (titleterms idx) t in
      if is_file a f || is_file b f then Ok true
      else
        do i <- files_include a f;
        if i then Ok true
        else
          do j <- files_include b f;
          if j then Ok true else excluded idx ts f
  end.

Definition max_score (m : score_map) (f : nat) (ws : list jstr) : Z :=
  match (fun w => default 0%Z (default ∅ (m !! f) !! w)) <$> ws with
  | [] => 0
  | x :: xs => foldl Z.max x xs
  end.

(** The loop over [fileMap]: [continue] skips a file, [break] ends the loop. *)
Fixpoint collect (idx : Index) (searchTerms excludedTerms : list jstr) (sm : score_map)
    (fm : file_map) : res (list result) :=
  match fm with
  | [] => Ok []
  | (file, wordList) :: fm' =>
      let filteredTermCount := length (filter (fun t : jstr => (2 < length t)%nat) searchTerms) in
      if negb (Nat.eqb (length wordList) (length searchTerms))
         && negb (Nat.eqb (length wordList) filteredTermCount)
      then collect idx searchTerms excludedTerms sm fm'
      else
        do ex <- excluded idx excludedTerms file;
        if ex then Ok []
        else
          do rest <- collect idx searchTerms excludedTerms sm fm';
          Ok ({| r_docname := docnames idx !! file; r_title := titles idx !! file;
                 r_anchor := []; r_descr := None; r_score := max_score sm file wordList;
                 r_filename := filenames idx !! file |} :: rest)
  end.

Definition performTermsSearch (idx : Index) (searchTerms excludedTerms : list jstr)
    : res (list result) :=
  do (sm, fm) <- search_words idx searchTerms (∅, []);
  collect idx searchTerms excludedTerms sm fm.

(** * performObjectSearch *)

Fixpoint nat_assoc {A} (key : nat) (l : list (nat * A)) : option A :=
  match l with
  | [] => None
  | (k, v) :: l' => if Nat.eqb k key then Some v else nat_assoc key l'
  end.

Definition last_part (s : jstr) : jstr := default [] (last (split_char (chr ".") s)).

(** The score of a name match. *)
Definition name_score (fullnameLower object : jstr) : Z :=
  if decide (fullnameLower = object) then objNameMatch
  else if decide (last_part fullnameLower = object) then objNameMatch
  else if includes (last_part fullnameLower) object then objPartialMatch
  else 0.

Definition objectSearchCallback (idx : Index) (object : jstr) (objectTerms : list jstr)
    (prefix : jstr) (match_ : obj_match * jstr) : res (list result) :=
  let '(m, name) := match_ in
  let fullname := match prefix with [] => name | _ => prefix ++ js "." ++ name end in
  let fullnameLower := toLowerCase fullname in
  if Z.ltb (indexOf fullnameLower object) 0 then Ok []
  else
    let score := name_score fullnameLower object in
    match nat_assoc (o_type m) (objnames idx) with
    | None => Throw TypeError                 (** objNames[type] is undefined *)
    | Some (_, typ, objName) =>
        let title := str_or_undefined (titles idx !! o_doc m) in
        let otherTerms := filter (fun t => t <> object) objectTerms in
        let haystack := toLowerCase (prefix ++ js " " ++ name ++ js " " ++ objName ++ js " " ++ title) in
        if negb (Nat.eqb (length otherTerms) 0)
           && existsb (fun t => Z.ltb (indexOf haystack t) 0) otherTerms
        then Ok []
        else
          let anchor :=
            if decide (o_anchor m = []) then fullname
            else if decide (o_anchor m = js "-") then typ ++ js "-" ++ fullname
            else o_anchor m in
          let descr := objName ++ str_or_undefined (tr (js ", in ")) ++ title in
          Ok [{| r_docname := docnames idx !! o_doc m; r_title := Some fullname;
                 r_anchor := js "#" ++ anchor; r_descr := Some descr;
                 r_score := score + default objPrioDefault (objPrio (o_prio m));
                 r_filename := filenames idx !! o_doc m |}]
    end.

(** The array form of [objects[prefix]], computed once and stored back. *)
Definition normalize (t : obj_table) : list (obj_match * jstr) :=
  match t with
  | OArray l => l
  | OObject l => (fun kv => (kv.2, kv.1)) <$> l
  end.

Definition set_objects (idx : Index) (objs : list (jstr * obj_table)) : Index := {|
  docnames := docnames idx; filenames := filenames idx; titles := titles idx;
  alltitles := alltitles idx; indexentries := indexentries idx; objects := objs;
  objnames := objnames idx; terms := terms idx; titleterms := titleterms idx |}.

Definition normalize_index (idx : Index) : Index :=
  set_objects idx ((fun kv => (kv.1, OArray (normalize kv.2))) <$> objects idx).

(** The results, and the index with its tables in array form. *)
Definition performObjectSearch (idx : Index) (object : jstr) (objectTerms : list jstr)
    : res (list result * Index) :=
  do rss <- rmapM (fun kv => rmapM (objectSearchCallback idx object objectTerms kv.1) (normalize kv.2))
              (objects idx);
  Ok (concat (concat rss), normalize_index idx).

Fixpoint object_searches (idx : Index) (todo objectTerms : list jstr) : res (list result * Index) :=
  match todo with
  | [] => Ok ([], idx)
  | t :: ts =>
      do (rs, idx1) <- performObjectSearch idx t objectTerms;
      do (rs', idx2) <- object_searches idx1 ts objectTerms;
      Ok (rs ++ rs', idx2)
  end.

(** * query *)

Record query_terms := {
  searchTerms : list jstr;
  excludedTerms : list jstr;
  highlightTerms : list jstr;
}.

Definition is_number (t : jstr) : bool :=
  match t with [] => false | _ => forallb is_digit t end.

Definition classify (q : query_terms) (queryTerm : jstr) : query_terms :=
  let queryTermLower := toLowerCase queryTerm in
  if decide (queryTermLower ∈ stopwords) then q
  else if is_number queryTerm then q
  else
    let word := stemWord queryTermLower in
    match word with
    | c :: w' =>
        if N.eqb c (chr "-")
        then {| searchTerms := searchTerms q; excludedTerms := set_add w' (excludedTerms q);
                highlightTerms := highlightTerms q |}
        else {| searchTerms := set_add word (searchTerms q); excludedTerms := excludedTerms q;
                highlightTerms := set_add queryTermLower (highlightTerms q) |}
    | [] => {| searchTerms := set_add word (searchTerms q); excludedTerms := excludedTerms q;
               highlightTerms := set_add queryTermLower (highlightTerms q) |}
    end.

Definition parse_query (query : jstr) : query_terms :=
  foldl classify {| searchTerms := []; excludedTerms := []; highlightTerms := [] |}
    (splitQuery (trim query)).

(** [Math.round(100 * n / d)] for d > 0. *)
Definition percent_round (n d : nat) : Z := (200 * Z.of_nat n + Z.of_nat d) / (2 * Z.of_nat d).

Definition title_results (idx : Index) (queryLower : jstr) : list result :=
  flat_map (fun '(title, foundTitles) =>
    if includes (toLowerCase title) queryLower && Nat.leb (length title) (2 * length queryLower)
    then (fun '(file, id) =>
            {| r_docname := docnames idx !! file;
               r_title := Some (if decide (titles idx !! file = Some title) then title
                                else str_or_undefined (titles idx !! file) ++ js " > " ++ title);
               r_anchor := match id with Some i => js "#" ++ i | None => [] end;
               r_descr := None;
               r_score := percent_round (length queryLower) (length title);
               r_filename := filenames idx !! file |}) <$> foundTitles
    else []) (alltitles idx).

Definition entry_results (idx : Index) (queryLower : jstr) : list result :=
  flat_map (fun '(entry, foundEntries) =>
    if includes entry queryLower && Nat.leb (length entry) (2 * length queryLower)
    then (fun '(file, id) =>
            {| r_docname := docnames idx !! file;
               r_title := titles idx !! file;
               r_anchor := match id with Some (c :: i) => js "#" ++ c :: i | _ => [] end;
               r_descr := None;
               r_score := percent_round (length queryLower) (length entry);
               r_filename := filenames idx !! file |}) <$> foundEntries
    else []) (indexentries idx).

(** ** The order of the results *)

(** The comparison function given to [sort]; it needs the titles only on equal scores. *)
Definition compare_results (a b : result) : res comparison :=
  if Z.eqb (r_score a) (r_score b) then
    match r_title a, r_title b with
    | Some ta, Some tb =>
        Ok (match str_compare (toLowerCase ta) (toLowerCase tb) with
            | Eq => Eq | Gt => Lt | Lt => Gt
            end)
    | _, _ => Throw TypeError
    end
  else Ok (if Z.gtb (r_score a) (r_score b) then Gt else Lt).

(** [results.sort(...)], a stable sort: insertion from the right end. *)
Fixpoint insert_result (x : result) (l : list result) : res (list result) :=
  match l with
  | [] => Ok [x]
  | y :: l' =>
      do c <- compare_results x y;
      match c with
      | Gt => do l'' <- insert_result x l'; Ok (y :: l'')
      | _ => Ok (x :: y :: l')
      end
  end.
Fixpoint sort_results (l : list result) : res (list result) :=
  match l with
  | [] => Ok []
  | x :: l' => do s <- sort_results l'; insert_result x s
  end.

(** [result.slice(0, 4).concat([result[5]]).map(v => String(v)).join(',')] *)
Definition result_key (r : result) : jstr :=
  join (js ",") [str_or_undefined (r_docname r); str_or_undefined (r_title r); r_anchor r;
                 default (js "null") (r_descr r); str_or_undefined (r_filename r)].

(** The reduce that keeps the first result of each key. *)
Fixpoint dedup (seen : gset jstr) (l : list result) : list result :=
  match l with
  | [] => []
  | r :: l' =>
      if decide (result_key r ∈ seen) then dedup seen l'
      else r :: dedup ({[result_key r]} ∪ seen) l'
  end.

Record query_outcome := {
  q_results : list result;          (** the array handed to _displayNextItem *)
  q_terms : query_terms;
  q_index : Index;
  q_stored_highlight : jstr;        (** localStorage sphinx_highlight_terms *)
}.

(** All results before sorting. *)
Definition raw_results (idx : Index) (query : jstr) : res (list result * Index) :=
  let objectTerms := set_of (splitQuery (trim (toLowerCase query))) in
  let queryLower := toLowerCase query in
  let q := parse_query query in
  let r0 := title_results idx queryLower ++ entry_results idx queryLower in
  do (r1, idx1) <- object_searches idx objectTerms objectTerms;
  do r2 <- performTermsSearch idx1 (searchTerms q) (excludedTerms q);
  Ok (r0 ++ r1 ++ r2, idx1).

Definition query (idx : Index) (query : jstr) : res query_outcome :=
  let q := parse_query query in
  do (rs, idx1) <- raw_results idx query;
  do sorted <- sort_results rs;
  Ok {| q_results := rev (dedup ∅ (rev sorted));
        q_terms := q;
        q_index := idx1;
        q_stored_highlight := join (js " ") (highlightTerms q) |}.

(** * Display *)

(** The request and link URLs of a result. *)
Definition item_urls (o : options) (docName : jstr) : jstr * jstr :=
  if decide (BUILDER o = js "dirhtml") then
    let dirname := docName ++ js "/" in
    let dirname :=
      if endsWith dirname (js "/index/") then substr dirname 0 (length dirname - 6)
      else if decide (dirname = js "index/") then []
      else dirname in
    (URL_ROOT o ++ dirname, URL_ROOT o ++ dirname)
  else (URL_ROOT o ++ docName ++ FILE_SUFFIX o, docName ++ LINK_SUFFIX o).

(** The list item built for a result; [li_fetch] is the page fetched for a summary. *)
Record list_item := {
  li_href : jstr;
  li_score : Z;
  li_title : jstr;
  li_descr : option jstr;
  li_fetch : option jstr;
}.

Definition _displayItem (o : options) (item : result) : list_item :=
  let docName := str_or_undefined (r_docname item) in
  let '(requestUrl, linkUrl) := item_urls o docName in
  {| li_href := linkUrl ++ r_anchor item;
     li_score := r_score item;
     li_title := str_or_undefined (r_title item);
     li_descr := match r_descr item with
                 | Some (c :: d) => Some (js " (" ++ (c :: d) ++ js ")")
                 | _ => None
                 end;
     li_fetch := match r_descr item with
                 | Some (_ :: _) => None
                 | _ => if SHOW_SEARCH_SUMMARY o then Some requestUrl else None
                 end |}.

Definition finish_message (resultCount : nat) : option jstr :=
  if Nat.eqb resultCount 0 then
    tr (js "Your search did not match any documents. Please make sure that all words are spelled correctly and that you've selected enough categories.")
  else
    tr (js "Search finished, found " ++ N_to_jstr (N.of_nat resultCount)
        ++ js " page(s) matching the search query.").

(** What the page shows: the items so far, and the final message. *)
Record display_state := {
  d_results : list result;        (** still to show; the next one is the last *)
  d_output : list list_item;
  d_finished : option (option jstr);
}.

(** One activation of [_displayNextItem]; [true] when it schedules another. *)
Definition _displayNextItem (o : options) (resultCount : nat) (d : display_state)
    : display_state * bool :=
  match last (d_results d) with
  | Some r =>
      ({| d_results := take (length (d_results d) - 1) (d_results d);
          d_output := d_output d ++ [_displayItem o r];
          d_finished := d_finished d |}, true)
  | None =>
      ({| d_results := []; d_output := d_output d;
          d_finished := Some (finish_message resultCount) |}, false)
  end.

(** The chain of timers, up to [fuel] activations; [None] if it is not over by then. *)
Fixpoint display_run (o : options) (resultCount fuel : nat) (d : display_state) : option display_state :=
  match fuel with
  | O => None
  | S f =>
      let '(d', more) := _displayNextItem o resultCount d in
      if more then display_run o resultCount f d' else Some d'
  end.

Definition display (o : options) (results : list result) : option display_state :=
  display_run o (length results) (S (length results))
    {| d_results := results; d_output := []; d_finished := None |}.

(** * makeSearchSummary *)

(** A parsed page, as far as [htmlToText] looks at it: the text of the first element
    with role main once the header links are removed, if there is such an element. *)
Record html_doc := { main_text : option jstr }.

(** [querySelector] answers null, not undefined, when nothing matches: the test on
    undefined succeeds and [textContent] is read from null. *)
Definition htmlToText (d : html_doc) : res jstr :=
  match main_text d with
  | Some t => Ok t
  | None => Throw TypeError
  end.

(** The last keyword found gives the start; with no keyword found it is NaN. *)
Definition actualStartPosition (text : jstr) (keywords : list jstr) : option Z :=
  last (filter (fun i : Z => (-1 < i)%Z)
          ((fun k => indexOf (toLowerCase text) (toLowerCase k)) <$> keywords)).

Definition makeSearchSummary (d : html_doc) (keywords : list jstr) : res (option jstr) :=
  do text <- htmlToText d;
  if decide (text = []) then Ok None
  else
    match actualStartPosition text keywords with
    | Some p =>
        let startWithContext := Z.to_nat (Z.max (p - 120) 0) in
        let top := if Nat.eqb startWithContext 0 then [] else js "..." in
        let tail := if Nat.ltb (startWithContext + 240) (length text) then js "..." else [] in
        Ok (Some (top ++ trim (substr text startWithContext 240) ++ tail))
    | None =>
        (** startWithContext is NaN: not 0, its sum is not below the length, and [substr]
            takes it for 0. *)
        Ok (Some (js "..." ++ trim (substr text 0 240) ++ []))
    end.

(** * The Search object: index, deferred query, pulse *)

Record search_state := {
  s_index : option Index;
  s_queued : option jstr;
  s_pulse : Z;                    (** _pulse_status *)
  s_dots : jstr;
  s_timers : nat;                 (** pending activations of [pulse] *)
  s_runs : list (jstr * res query_outcome);    (** the queries executed, last first *)
}.

Definition search_initial : search_state := {|
  s_index := None; s_queued := None; s_pulse := -1; s_dots := []; s_timers := 0; s_runs := [] |}.

(** [Search.query] on the loaded index; reading the fields of a null index throws. *)
Definition run_query (st : search_state) (q : jstr) : search_state :=
  let r := match s_index st with Some idx => query idx q | None => Throw TypeError end in
  {| s_index := match r with Ok out => Some (q_index out) | Throw _ => s_index st end;
     s_queued := s_queued st; s_pulse := s_pulse st; s_dots := s_dots st;
     s_timers := s_timers st; s_runs := (q, r) :: s_runs st |}.

Definition setIndex (st : search_state) (idx : Index) : search_state :=
  let st1 := {| s_index := Some idx; s_queued := s_queued st; s_pulse := s_pulse st;
                s_dots := s_dots st; s_timers := s_timers st; s_runs := s_runs st |} in
  match s_queued st with
  | Some q =>
      run_query {| s_index := Some idx; s_queued := None; s_pulse := s_pulse st;
                   s_dots := s_dots st; s_timers := s_timers st; s_runs := s_runs st |} q
  | None => st1
  end.

Definition hasIndex (st : search_state) : bool := bool_decide (is_Some (s_index st)).

Definition deferQuery (st : search_state) (q : jstr) : search_state := {|
  s_index := s_index st; s_queued := Some q; s_pulse := s_pulse st; s_dots := s_dots st;
  s_timers := s_timers st; s_runs := s_runs st |}.

Definition set_pulse (st : search_state) (p : Z) (dots : jstr) (timers : nat) : search_state := {|
  s_index := s_index st; s_queued := s_queued st; s_pulse := p; s_dots := dots;
  s_timers := timers; s_runs := s_runs st |}.

Definition stopPulse (st : search_state) : search_state :=
  set_pulse st (-1) (s_dots st) (s_timers st).

(** One activation of [pulse], given the number of timers still pending. *)
Definition pulse (st : search_state) (pending : nat) : search_state :=
  let p := Z.rem (s_pulse st + 1) 4 in
  set_pulse st p (mjoin (replicate (Z.to_nat p) (js ".")))
    (if Z.leb 0 p then S pending else pending).

Definition startPulse (st : search_state) : search_state :=
  if Z.leb 0 (s_pulse st) then st else pulse st (s_timers st).

Definition performSearch (st : search_state) (q : jstr) : search_state :=
  let st1 := startPulse st in
  if hasIndex st1 then run_query st1 q else deferQuery st1 q.

(** [Search.init]: the query of the page's URL, if any. *)
Definition init (st : search_state) (q : option jstr) : search_state :=
  match q with
  | Some (c :: q') => performSearch st (c :: q')
  | _ => st
  end.

(** What happens on the page, in order. *)
Inductive event :=
| Ev_setIndex (idx : Index)      (** the index script is loaded *)
| Ev_init (q : option jstr)      (** the document is ready *)
| Ev_finish                      (** [_finishSearch] stops the pulse *)
| Ev_timer.                      (** a pending activation of [pulse] runs *)

Definition step (st : search_state) (e : event) : search_state :=
  match e with
  | Ev_setIndex idx => setIndex st idx
  | Ev_init q => init st q
  | Ev_finish => stopPulse st
  | Ev_timer => match s_timers st with O => st | S n => pulse st n end
  end.

Definition run_events : search_state -> list event -> search_state := foldl step.
End with_env.
End Search.
