(* ===== verification/SearchProofs.v ===== *)
(** Theorems about the search of docs/_static/searchtools.js (definitions in Search.v). *)

From S2P Require Import Prelude Regex Stemmer Doctools Search.
Import Stemmer Doctools Search.

Module SearchProofs.

(** * Escaping *)

Definition escape_spec (s : jstr) : jstr :=
  flat_map (fun c => if regexp_special c then [chr "\"; c] else [c]) s.

Lemma escapeRegExp_flat s : _escapeRegExp s = escape_spec s.
Proof.
  unfold _escapeRegExp, escape_spec.
  rewrite <- (replace_all_class 0 regexp_special s (fun c => [chr "\"; c])).
  unfold replace_all.
  assert (forall fuel pos last, (length s - pos < fuel)%nat ->
    replace_all_from {| p_groups := 0; p_re := RClass regexp_special |} s
      (fun m => js "\" ++ group_or_empty s m 0) fuel last pos =
    replace_all_from {| p_groups := 0; p_re := RClass regexp_special |} s
      (fun m => match s !! m_start m with Some x => [chr "\"; x] | None => [] end) fuel last pos) as Hm.
  { induction fuel as [|fuel IH]; intros pos last Hf; [lia|]. cbn [replace_all_from].
    case_match eqn:El; [done|]. apply Nat.ltb_ge in El.
    pose proof (search_class 0 regexp_special s (length s - pos) pos ltac:(lia)) as Hs.
    destruct (search_from _ s (length s - pos) pos) as [r|]; [|done].
    destruct Hs as (x & Hx & Hp & He & Hle & HF). pose proof (lookup_lt_Some _ _ _ Hx).
    rewrite He, (proj2 (Nat.eqb_neq _ _)) by lia. rewrite IH by lia. rewrite Hx.
    unfold group_or_empty, group. rewrite He. simpl. by erewrite slice_one by done. }
  apply Hm. lia.
Qed.

Lemma parse_escape s : parse_literal (_escapeRegExp s) = Some s.
Proof.
  rewrite escapeRegExp_flat. unfold escape_spec.
  induction s as [|c s IH]; cbn [flat_map]; [done|].
  destruct (regexp_special c) eqn:E; cbn [app parse_literal].
  - rewrite N.eqb_refl, E, IH. done.
  - assert (N.eqb c (chr "\") = false) as ->.
    { apply N.eqb_neq. intros ->. vm_compute in E. done. }
    rewrite E. simpl. by rewrite IH.
Qed.

Lemma test_lit t s : test {| p_groups := 0; p_re := RLit t |} s = includes s t.
Proof.
  apply eq_true_iff_eq. rewrite test_spec, includes_spec. split.
  - intros (i & j & c & Hi & Hm). pose proof (rmatch_bounds _ _ _ _ _ _ Hm Hi).
    apply rmatch_lit in Hm as (_ & Hs & ->); [|done].
    exists (take i s), (drop (i + length t) s).
    rewrite <- (take_drop i s) at 1. f_equal.
    rewrite <- (take_drop (length t) (drop i s)) at 1. rewrite drop_drop. f_equal.
    unfold slice in Hs. by replace (i + length t - i)%nat with (length t) in Hs by lia.
  - intros (a & b & ->). exists (length a). eexists _, _. split; [rewrite length_app; lia|].
    apply (rmatch_lit_intro _ _ b). by rewrite drop_app_length.
Qed.

(** A word, escaped, compiled and matched against a term, is searched literally. *)
Lemma matches_escape term word : matches term (_escapeRegExp word) = includes term word.
Proof. unfold matches. by rewrite parse_escape, test_lit. Qed.

(** [_escapeRegExp] makes a search word literal: compiling the escaped word and matching
    a term is exactly the test whether the term contains the word. *)
Theorem escapeRegExp_literal term word :
  parse_literal (_escapeRegExp word) = Some word /\
  matches term (_escapeRegExp word) = includes term word.
Proof. split; [apply parse_escape|apply matches_escape]. Qed.

(** * The terms of a query *)

Section terms_of_query.
Context `{UnicodeLaws}.

Definition good_head (u : jstr) : Prop := u <> [] /\ head u <> Some 45%N.

Lemma code_points_head s :
  Forall (fun p => is_query_char p.1 = true -> good_head p.2) (code_points s).
Proof.
  induction s as [s IH] using (induction_ltof1 _ length). unfold ltof in IH.
  destruct s as [|hi [|lo rest]]; cbn [code_points]; [constructor| |].
  - constructor; [|constructor]. simpl. intros Hq. split; [done|]. intros [= ->]. by compute in Hq.
  - case_match eqn:E.
    + constructor; [|apply IH; simpl; lia]. simpl. intros _. split; [done|].
      apply andb_true_iff in E as [[E%N.leb_le _]%andb_true_iff _]. intros [= ->]. lia.
    + constructor; [|apply (IH (lo :: rest)); simpl; lia]. simpl. intros Hq.
      split; [done|]. intros [= ->]. by compute in Hq.
Qed.

Lemma split_query_pieces_head cps b w :
  Forall (fun p => is_query_char p.1 = true -> good_head p.2) cps ->
  w ∈ split_query_pieces cps b -> w <> [] -> head w <> Some 45%N.
Proof.
  intros HF. revert b w. induction HF as [|[cp u] cps Hp _ IH]; intros b w; cbn [split_query_pieces].
  - by rewrite list_elem_of_singleton.
  - simpl in Hp. destruct (is_query_char cp).
    + destruct (Hp eq_refl) as [Hu Hh].
      destruct (split_query_pieces cps false) as [|v vs] eqn:E.
      * by rewrite list_elem_of_singleton; intros ->.
      * rewrite elem_of_cons. intros [->|Hin] Hne; [by destruct u|].
        apply (IH false); [rewrite E; by right|done].
    + destruct b; [apply IH|]. rewrite elem_of_cons. intros [->|Hin]; [done|by eapply IH].
Qed.

Lemma splitQuery_head q t : t ∈ splitQuery q -> good_head t.
Proof.
  unfold splitQuery. rewrite list_elem_of_filter. intros [Hne Hin]. split; [done|].
  eapply split_query_pieces_head; [apply code_points_head|done|done].
Qed.

Lemma classify_excluded q t :
  good_head t -> excludedTerms (classify q t) = excludedTerms q.
Proof.
  intros [Hne Hh]. unfold classify. do 2 (case_match; [done|]).
  pose proof (stemWord_keeps (toLowerCase t) (toLowerCase_nonempty t Hne)) as (Hs & _ & Hhd).
  apply toLowerCase_hyphen in Hh. destruct (stemWord (toLowerCase t)) as [|c w]; [done|].
  simpl in Hhd. case_match eqn:E; [|done]. apply N.eqb_eq in E as ->.
  by rewrite <- Hhd in Hh.
Qed.

Lemma parse_query_excluded query : excludedTerms (parse_query query) = [].
Proof.
  unfold parse_query.
  assert (forall l q, (forall t, t ∈ l -> good_head t) ->
    excludedTerms (foldl classify q l) = excludedTerms q) as Hf.
  { induction l as [|t l IH]; intros q Hl; simpl; [done|].
    rewrite IH by set_solver. apply classify_excluded, Hl. left. }
  rewrite Hf; [done|]. intros t. apply splitQuery_head.
Qed.

Lemma set_add_NoDup x s : NoDup s -> NoDup (set_add x s).
Proof.
  unfold set_add. case_decide; [done|]. intros Hs. apply NoDup_app. split_and!; [done| |apply NoDup_singleton].
  intros y Hy. rewrite list_elem_of_singleton. by intros ->.
Qed.

Lemma parse_query_terms query :
  NoDup (searchTerms (parse_query query)) /\
  forall w, w ∈ searchTerms (parse_query query) ->
    exists t, t ∈ splitQuery (trim query) /\ w = stemWord (toLowerCase t) /\
      toLowerCase t ∉ stopwords /\ is_number t = false.
Proof.
  unfold parse_query.
  assert (forall l q,
    NoDup (searchTerms q) ->
    NoDup (searchTerms (foldl classify q l)) /\
    forall w, w ∈ searchTerms (foldl classify q l) -> w ∈ searchTerms q \/
      exists t, t ∈ l /\ w = stemWord (toLowerCase t) /\ toLowerCase t ∉ stopwords /\ is_number t = false)
    as Hf.
  { induction l as [|t l IH]; intros q Hq; simpl; [by auto|].
    assert (NoDup (searchTerms (classify q t)) /\
      forall w, w ∈ searchTerms (classify q t) -> w ∈ searchTerms q \/
        (w = stemWord (toLowerCase t) /\ toLowerCase t ∉ stopwords /\ is_number t = false)) as [Hn Hc].
    { unfold classify. case_decide; [by auto|]. case_match eqn:En; [by auto|].
      assert (forall u, NoDup (set_add u (searchTerms q)) /\
        (forall w, w ∈ set_add u (searchTerms q) -> w ∈ searchTerms q \/ w = u)) as Ha.
      { intros u. split; [by apply set_add_NoDup|]. unfold set_add. case_decide; set_solver. }
      repeat case_match; simpl; try (by split; [auto|]; auto).
      all: split; [apply Ha|]; intros w [?| ->]%Ha; auto. }
    destruct (IH _ Hn) as [Hn' Hl]. split; [done|]. intros w [[?|?]%Hc|(t' & ? & ?)]%Hl.
    - by left.
    - right. exists t. split; [left|done].
    - right. exists t'. split; [by right|done]. }
  destruct (Hf (splitQuery (trim query)) {| searchTerms := []; excludedTerms := []; highlightTerms := [] |})
    as [Hn Hl]; [constructor|]. split; [done|]. intros w [Hw|?]%Hl; [by apply not_elem_of_nil in Hw|done].
Qed.
End terms_of_query.

(** C38. No query ever excludes a term: [splitQuery] drops every hyphen, so the branch of
    [query] that reads a leading [-] is never taken, and the terms searched for are distinct
    stems of words that are neither stop words nor numbers. *)
Theorem query_terms_wf `{UnicodeLaws} query :
  excludedTerms (parse_query query) = [] /\
  NoDup (searchTerms (parse_query query)) /\
  Forall (fun w => exists t, t ∈ splitQuery (trim query) /\ w = stemWord (toLowerCase t) /\
    toLowerCase t ∉ stopwords /\ is_number t = false) (searchTerms (parse_query query)).
Proof.
  split; [apply parse_query_excluded|]. destruct (parse_query_terms query) as [Hn Hw].
  split; [done|]. apply Forall_forall. done.
Qed.

Lemma query_terms_wf_witness :
  searchTerms (parse_query (js "Running -server the 42")) = [js "run"; js "server"] /\
  excludedTerms (parse_query (js "Running -server the 42")) = [].
Proof.
  split; [vm_compute; reflexivity|].
  apply (@query_terms_wf ascii_only ascii_only_laws (js "Running -server the 42")).
Defined.

End SearchProofs.
