(* ===== verification/SearchTerms.v ===== *)
(** The full-text search on terms ([Search.performTermsSearch] of
    docs/_static/searchtools.js): what it finds, and the queries it loses. *)

From S2P Require Import Prelude Regex Stemmer Doctools Search SearchProofs.
Import Stemmer Doctools Search SearchProofs.

Module SearchTerms.

(** * Specification *)

(** Document [f] matches the required word [w]: the word is a term or a title term of the
    document, or it has more than two characters, is no term of its own, and is part of a
    term of the document. *)
Definition word_hit (idx : Index) (w : jstr) (f : nat) : Prop :=
  (exists fs, assoc w (terms idx) = Some fs /\ f ∈ files_list fs) \/
  (exists fs, assoc w (titleterms idx) = Some fs /\ f ∈ files_list fs) \/
  ((2 < length w)%nat /\ falsy (obj_get (terms idx) w) = true /\
   exists t fs, (t, fs) ∈ terms idx /\ includes t w = true /\ f ∈ files_list fs).

(** The result shown for document [f]. *)
Definition file_result (idx : Index) (f : nat) (score : Z) : result :=
  {| r_docname := docnames idx !! f; r_title := titles idx !! f; r_anchor := []; r_descr := None;
     r_score := score; r_filename := filenames idx !! f |}.

(** A word that is not the name of a member of Object.prototype. *)
Definition plain_word (w : jstr) : Prop := w ∉ object_proto_methods /\ w <> js "__proto__".

(** * Records of a word *)

Definition record_hit (r : record_t) (f : nat) : Prop :=
  exists ns, record_files r = Ok ns /\ f ∈ ns.

Lemma record_hit_own fs sc f : record_hit (POwn fs, sc) f <-> f ∈ files_list fs.
Proof. split; [by intros (ns & [= <-] & Hin)|]. intros Hin. by exists (files_list fs). Qed.

Lemma record_hit_get (l : list (jstr * files)) w sc f :
  record_hit (obj_get l w, sc) f <-> exists fs, assoc w l = Some fs /\ f ∈ files_list fs.
Proof.
  unfold obj_get. destruct (assoc w l) as [fs|].
  - rewrite record_hit_own. split; [by eauto|]. by intros (fs' & [= ->] & Hin).
  - split; [|by intros (fs & ? & _)]. intros (ns & Hns & Hin). exfalso. revert Hns.
    repeat case_decide; simpl; [done..|]. intros [= <-]. by apply not_elem_of_nil in Hin.
Qed.

Lemma word_records_elem idx w r :
  r ∈ word_records idx w ->
  r = (obj_get (terms idx) w, score_term) \/ r = (obj_get (titleterms idx) w, score_title) \/
  ((2 < length w)%nat /\ falsy (obj_get (terms idx) w) = true /\
    exists t fs, (t, fs) ∈ terms idx /\ includes t w = true /\ r = (POwn fs, score_partialTerm)) \/
  r = (obj_get (titleterms idx) w, score_partialTitle).
Proof.
  unfold word_records. case_match eqn:El; [|set_solver]. apply Nat.ltb_lt in El.
  rewrite !elem_of_app, !list_elem_of_fmap.
  intros [Hin|[([t fs] & -> & [Hm Hin]%list_elem_of_filter)|(? & -> & _)]]; [set_solver| |by auto].
  apply andb_true_iff in Hm as [Hm Hf]. rewrite matches_escape in Hm. right; right; left. eauto 10.
Qed.

Lemma word_records_hit idx w f :
  (exists r, r ∈ word_records idx w /\ record_hit r f) <-> word_hit idx w f.
Proof.
  unfold word_hit. split.
  - intros (r & Hr & Hh).
    apply word_records_elem in Hr as [->|[->|[(Hl & Hf & t & fs & Hin & Hi & ->)| ->]]].
    + left. by apply record_hit_get in Hh.
    + right; left. by apply record_hit_get in Hh.
    + right; right. apply record_hit_own in Hh. eauto 10.
    + right; left. by apply record_hit_get in Hh.
  - intros [Ht|[Ht|(Hl & Hf & t & fs & Hin & Hi & Hfs)]].
    + exists (obj_get (terms idx) w, score_term). rewrite record_hit_get. split; [|done].
      unfold word_records. case_match; left.
    + exists (obj_get (titleterms idx) w, score_title). rewrite record_hit_get. split; [|done].
      unfold word_records. case_match; right; left.
    + exists (POwn fs, score_partialTerm). rewrite record_hit_own. split; [|done].
      unfold word_records. rewrite (proj2 (Nat.ltb_lt _ _)) by done.
      rewrite !elem_of_app, !list_elem_of_fmap. right; left. exists (t, fs). split; [done|].
      rewrite list_elem_of_filter. split; [|done]. cbn [fst]. by rewrite matches_escape, Hi, Hf.
Qed.

Lemma word_records_score idx w r : r ∈ word_records idx w -> (2 <= r.2 <= 15)%Z.
Proof.
  intros [->|[->|[(_ & _ & t & fs & _ & _ & ->)| ->]]]%word_records_elem; simpl;
    unfold score_term, score_title, score_partialTerm, score_partialTitle; lia.
Qed.

(** * The maps of scores and of words *)

Definition sget (sm : score_map) (f : nat) (w : jstr) : option Z := default ∅ (sm !! f) !! w.

Lemma sget_add_scores w sc fs sm f w' :
  sget (add_scores w sc fs sm) f w' =
    if decide (w' = w /\ f ∈ fs) then Some sc else sget sm f w'.
Proof.
  unfold add_scores. revert sm; induction fs as [|g fs IH]; intros sm; simpl.
  - rewrite decide_False; [done|]. intros [_ ?%not_elem_of_nil]. done.
  - rewrite IH. unfold sget. destruct (decide (w' = w /\ f ∈ fs)) as [[-> Hin]|Hn].
    { rewrite decide_True; [done|]. split; [done|by right]. }
    destruct (decide (f = g)) as [->|Hne].
    + rewrite lookup_insert_eq. simpl. destruct (decide (w' = w)) as [->|Hw].
      * rewrite lookup_insert_eq, decide_True; [done|]. split; [done|left].
      * rewrite lookup_insert_ne by done. rewrite decide_False by naive_solver. done.
    + rewrite lookup_insert_ne by done. rewrite decide_False; [done|].
      intros [-> [->|?]%elem_of_cons]; [done|]. by destruct Hn.
Qed.

Lemma add_records_spec w rs sm fs sm' fs' :
  add_records w rs sm fs = Ok (sm', fs') ->
  (forall f, f ∈ fs' <-> f ∈ fs \/ exists r, r ∈ rs /\ record_hit r f) /\
  (forall f w', w' <> w -> sget sm' f w' = sget sm f w') /\
  (forall f, sget sm' f w = sget sm f w \/ exists r, r ∈ rs /\ sget sm' f w = Some r.2) /\
  (forall f r, r ∈ rs -> record_hit r f -> exists r', r' ∈ rs /\ sget sm' f w = Some r'.2).
Proof.
  revert sm fs; induction rs as [|r rs IH]; intros sm fs; simpl.
  { intros [= -> ->]. split_and!; set_solver. }
  destruct (record_files r) as [ns|] eqn:Er; simpl; [|done]. intros (H1 & H2 & H3 & H4)%IH.
  split_and!.
  - intros f. rewrite H1, elem_of_app. split.
    + intros [[?|?]|(r' & ? & ?)]; [by left| |].
      * right. exists r. split; [left|]. exists ns. done.
      * right. exists r'. split; [by right|done].
    + intros [?|(r' & [->|?]%elem_of_cons & Hh)]; [auto| |eauto].
      left; right. destruct Hh as (ns' & Hns & ?). congruence.
  - intros f w' Hne. rewrite H2, sget_add_scores by done. by rewrite decide_False by naive_solver.
  - intros f. destruct (H3 f) as [Hs|(r' & ? & ?)]; [|right; exists r'; split; [by right|done]].
    rewrite sget_add_scores in Hs. case_decide; [right; exists r; split; [left|done]|by left].
  - intros f r' [->|Hin]%elem_of_cons Hh.
    + destruct (H3 f) as [Hs|(r' & ? & ?)]; [|exists r'; split; [by right|done]].
      destruct Hh as (ns' & Hns & Hf). assert (ns' = ns) as -> by congruence.
      rewrite sget_add_scores, decide_True in Hs by done. exists r. split; [left|done].
    + destruct (H4 f r' Hin Hh) as (r'' & ? & ?). exists r''. split; [by right|done].
Qed.

Lemma map_get_set f ws m g :
  map_get g (map_set f ws m) = if decide (g = f) then Some ws else map_get g m.
Proof.
  induction m as [|[h vs] m IH]; simpl.
  - case_decide as Hd; subst; [by rewrite Nat.eqb_refl|]. by rewrite (proj2 (Nat.eqb_neq f g)).
  - destruct (Nat.eqb_spec h f) as [->|Hhf]; simpl.
    + destruct (Nat.eqb_spec f g) as [->|]; [by rewrite decide_True|]. by rewrite decide_False.
    + rewrite IH. destruct (Nat.eqb_spec h g) as [->|]; [|done]. by rewrite decide_False.
Qed.

Lemma map_set_keys f ws m : NoDup m.*1 -> NoDup (map_set f ws m).*1 /\
  (forall g, g ∈ (map_set f ws m).*1 -> g = f \/ g ∈ m.*1).
Proof.
  induction m as [|[h vs] m IH]; csimpl.
  - intros _. split; [apply NoDup_singleton|set_solver].
  - rewrite NoDup_cons. intros [Hh Hm]. destruct (Nat.eqb_spec h f) as [->|Hne]; csimpl.
    + rewrite NoDup_cons. split; [done|set_solver].
    + destruct (IH Hm) as [Hn Hk]. rewrite NoDup_cons. split; [|set_solver].
      split; [|done]. intros [?|?]%Hk; done.
Qed.

Lemma map_get_elem m f ws : NoDup m.*1 -> (f, ws) ∈ m <-> map_get f m = Some ws.
Proof.
  induction m as [|[h vs] m IH]; csimpl.
  - intros _. split; [|done]. intros ?%not_elem_of_nil. done.
  - rewrite NoDup_cons. intros [Hh Hm]. rewrite elem_of_cons.
    destruct (Nat.eqb_spec h f) as [->|Hne].
    + split; [|intros [= ->]; by left]. intros [[= ->]|Hin]; [done|].
      destruct Hh. apply list_elem_of_fmap. exists (f, ws). done.
    + rewrite <- IH by done. split; [|by auto]. intros [[= -> _]|?]; done.
Qed.

(** * The invariant of the search *)

(** Every file of the map carries distinct words already searched for, each of which the
    file matches and has a score for. *)
Definition inv (idx : Index) (ws : list jstr) (sm : score_map) (fm : file_map) : Prop :=
  NoDup fm.*1 /\
  forall f vs, map_get f fm = Some vs ->
    NoDup vs /\ vs <> [] /\
    forall v, v ∈ vs -> v ∈ ws /\ word_hit idx v f /\ exists sc, sget sm f v = Some sc /\ (2 <= sc <= 15)%Z.

Lemma add_file_inv idx ws sm fm w f :
  inv idx ws sm fm -> w ∈ ws -> word_hit idx w f ->
  (exists sc, sget sm f w = Some sc /\ (2 <= sc <= 15)%Z) ->
  inv idx ws sm (add_file w fm f).
Proof.
  intros [Hk Hm] Hw Hh Hs.
  assert (forall vs, NoDup vs -> vs <> [] -> (forall v, v ∈ vs -> v = w \/ (exists us, map_get f fm = Some us /\ v ∈ us)) ->
    inv idx ws sm (map_set f vs fm)) as Hset.
  { intros vs Hnd Hne Hvs. split; [by apply map_set_keys|]. intros g us. rewrite map_get_set.
    case_decide as Hg; [|apply Hm]. subst. intros [= ->]. split_and!; [done..|].
    intros v Hv. destruct (Hvs v Hv) as [->|(us' & Hus & Hin)]; [done|].
    destruct (Hm _ _ Hus) as (_ & _ & HF). by apply HF. }
  unfold add_file. destruct (map_get f fm) as [us|] eqn:E.
  - destruct (Hm _ _ E) as (Hnd & Hne & _). case_decide as Hin.
    + apply Hset; [apply NoDup_singleton|done|]. set_solver.
    + apply Hset; [|by destruct us|].
      * apply NoDup_app. split_and!; [done| |apply NoDup_singleton]. set_solver.
      * intros v [Hv|Hv]%elem_of_app; [right; eauto|left; set_solver].
  - apply Hset; [apply NoDup_singleton|done|]. set_solver.
Qed.

Lemma add_files_inv idx ws sm fm w fs :
  inv idx ws sm fm -> w ∈ ws ->
  (forall f, f ∈ fs -> word_hit idx w f /\ exists sc, sget sm f w = Some sc /\ (2 <= sc <= 15)%Z) ->
  inv idx ws sm (foldl (add_file w) fm fs).
Proof.
  revert fm; induction fs as [|f fs IH]; intros fm Hi Hw Hfs; simpl; [done|].
  apply IH; [|done|set_solver]. destruct (Hfs f) as [? ?]; [left|]. by apply add_file_inv.
Qed.

Lemma search_word_inv idx ws sm fm w sm' fm' :
  inv idx ws sm fm -> w ∉ ws -> search_word idx (sm, fm) w = Ok (sm', fm') ->
  inv idx (ws ++ [w]) sm' fm'.
Proof.
  intros Hi Hw. unfold search_word.
  assert (inv idx (ws ++ [w]) sm fm) as Hi'.
  { destruct Hi as [Hk Hm]. split; [done|]. intros f vs Hg. destruct (Hm f vs Hg) as (? & ? & HF).
    split_and!; [done..|]. intros v Hv. destruct (HF v Hv) as (? & ? & ?). set_solver. }
  case_match eqn:Hall; [by intros [= <- <-]|]. simpl.
  destruct (add_records w (word_records idx w) sm []) as [[sm1 fs1]|] eqn:Ea; [|done].
  intros [= <- <-]. apply add_records_spec in Ea as (H1 & H2 & H3 & H4).
  apply add_files_inv; [|set_solver|].
  - destruct Hi as [Hk Hm]. split; [done|]. intros f vs Hg. destruct (Hm f vs Hg) as (? & ? & HF).
    split_and!; [done..|]. intros v Hv. destruct (HF v Hv) as (? & ? & ?).
    rewrite H2 by (intros ->; done). set_solver.
  - intros f Hf. apply H1 in Hf as [?%not_elem_of_nil|(r & Hr & Hh)]; [done|]. split.
    + apply word_records_hit. eauto.
    + destruct (H4 f r Hr Hh) as (r' & Hr' & Hs). exists r'.2. split; [done|].
      by eapply word_records_score.
Qed.

Lemma search_words_inv idx todo ws sm fm sm' fm' :
  inv idx ws sm fm -> NoDup (ws ++ todo) -> search_words idx todo (sm, fm) = Ok (sm', fm') ->
  inv idx (ws ++ todo) sm' fm'.
Proof.
  revert ws sm fm; induction todo as [|w todo IH]; intros ws sm fm Hi Hnd; simpl.
  - intros [= -> ->]. by rewrite app_nil_r.
  - destruct (search_word idx (sm, fm) w) as [[sm1 fm1]|] eqn:E; [|done]. simpl. intros Hs.
    rewrite cons_middle, app_assoc in *. apply (IH _ sm1 fm1); [|done|done].
    eapply search_word_inv; [done| |done].
    apply NoDup_app in Hnd as (Hnd & _ & _). apply NoDup_app in Hnd as (_ & Hd & _).
    intros Hin. apply (Hd w Hin). left.
Qed.

Lemma inv_start idx : inv idx [] ∅ [].
Proof. split; [constructor|done]. Qed.

(** * The loop that collects the results *)

Lemma foldl_max_bounds lo hi xs x :
  (lo <= x <= hi)%Z -> Forall (fun y => lo <= y <= hi)%Z xs -> (lo <= foldl Z.max x xs <= hi)%Z.
Proof. intros Hx HF. revert x Hx. induction HF; intros z Hz; simpl; [done|]. apply IHHF. lia. Qed.

Lemma max_score_bounds sm f vs :
  vs <> [] -> (forall v, v ∈ vs -> exists sc, sget sm f v = Some sc /\ (2 <= sc <= 15)%Z) ->
  (2 <= max_score sm f vs <= 15)%Z.
Proof.
  intros Hne Hs. unfold max_score.
  assert (Forall (fun y => 2 <= y <= 15)%Z ((fun w => default 0%Z (default ∅ (sm !! f) !! w)) <$> vs)) as HF.
  { apply Forall_fmap, Forall_forall. intros v Hv. destruct (Hs v Hv) as (sc & Hg & ?).
    unfold sget in Hg. simpl. by rewrite Hg. }
  destruct vs as [|v vs]; [done|]. csimpl in *. apply Forall_cons in HF as [? ?].
  by apply foldl_max_bounds.
Qed.

Definition accepted (sts vs : list jstr) : Prop :=
  length vs = length sts \/ length vs = length (filter (fun t : jstr => (2 < length t)%nat) sts).

Lemma collect_sound idx sts exs sm fm rs r :
  collect idx sts exs sm fm = Ok rs -> r ∈ rs ->
  exists f vs, (f, vs) ∈ fm /\ accepted sts vs /\ r = file_result idx f (max_score sm f vs).
Proof.
  revert rs; induction fm as [|[f vs] fm IH]; intros rs; cbn [collect].
  { intros [= <-] ?%not_elem_of_nil. done. }
  case_match eqn:Hc.
  { intros Hr Hin. destruct (IH _ Hr Hin) as (g & us & ? & ?). exists g, us. split; [by right|done]. }
  destruct (excluded idx exs f) as [[]|]; simpl; [| |done].
  { intros [= <-] ?%not_elem_of_nil. done. }
  destruct (collect idx sts exs sm fm) as [rest|]; simpl; [|done]. intros [= <-].
  rewrite elem_of_cons. intros [->|Hin].
  - exists f, vs. split_and!; [left| |done].
    unfold accepted. apply andb_false_iff in Hc as [Hc|Hc]; apply negb_false_iff, Nat.eqb_eq in Hc; auto.
  - destruct (IH _ eq_refl Hin) as (g & us & ? & ?). exists g, us. split; [by right|done].
Qed.

Lemma collect_complete idx sts sm fm :
  exists rs, collect idx sts [] sm fm = Ok rs /\
    forall f vs, (f, vs) ∈ fm -> accepted sts vs -> file_result idx f (max_score sm f vs) ∈ rs.
Proof.
  induction fm as [|[f vs] fm (rs & Hrs & Hin)]; cbn [collect].
  { exists []. split; [done|]. intros f vs ?%not_elem_of_nil. done. }
  case_match eqn:Hc.
  - exists rs. split; [done|]. intros g us [[= -> ->]|?]%elem_of_cons Ha; [|eauto].
    apply andb_true_iff in Hc as [H1 H2]. apply negb_true_iff, Nat.eqb_neq in H1, H2.
    destruct Ha; done.
  - simpl. rewrite Hrs. simpl. eexists. split; [done|].
    intros g us [[= -> ->]|?]%elem_of_cons Ha; [left|right; eauto].
Qed.

(** * Totality *)

Lemma record_files_plain (l : list (jstr * files)) w sc :
  plain_word w -> exists ns, record_files (obj_get l w, sc) = Ok ns.
Proof.
  intros [H1 H2]. unfold obj_get. destruct (assoc w l); [by eexists|].
  rewrite !decide_False by done. by eexists.
Qed.

Lemma add_records_total w rs sm fs :
  (forall r, r ∈ rs -> exists ns, record_files r = Ok ns) ->
  exists out, add_records w rs sm fs = Ok out.
Proof.
  revert sm fs; induction rs as [|r rs IH]; intros sm fs Hrs; simpl; [eauto|].
  destruct (Hrs r) as [ns Hns]; [left|]. rewrite Hns. simpl. apply IH. set_solver.
Qed.

Lemma word_records_total idx w r :
  plain_word w -> r ∈ word_records idx w -> exists ns, record_files r = Ok ns.
Proof.
  intros Hp [->|[->|[(_ & _ & t & fs & _ & _ & ->)| ->]]]%word_records_elem;
    eauto using record_files_plain.
Qed.

Lemma all_undefined_no_hit idx w f :
  forallb (fun r : record_t => match r.1 with PUndefined => true | _ => false end) (word_records idx w) = true ->
  ~ word_hit idx w f.
Proof.
  rewrite forallb_forall. intros Hall (r & Hr & ns & Hns & Hin)%word_records_hit.
  apply list_elem_of_In, Hall in Hr. unfold record_files in Hns.
  destruct (r.1); try discriminate. injection Hns as <-.
  by apply not_elem_of_nil in Hin.
Qed.

(** After one word from the empty maps, the files are those of the word, each with it. *)
Lemma add_file_single w fm fs f :
  (forall g vs, map_get g fm = Some vs -> vs = [w]) ->
  (forall g vs, map_get g (foldl (add_file w) fm fs) = Some vs -> vs = [w]) /\
  (f ∈ fs \/ map_get f fm = Some [w] -> map_get f (foldl (add_file w) fm fs) = Some [w]).
Proof.
  revert fm; induction fs as [|g fs IH]; intros fm Hfm; simpl.
  - split; [done|]. intros [?%not_elem_of_nil|?]; done.
  - assert (add_file w fm g = map_set g [w] fm) as ->.
    { unfold add_file. destruct (map_get g fm) eqn:E; [|done]. apply Hfm in E as ->.
      rewrite decide_True; [done|]. left. }
    destruct (IH (map_set g [w] fm)) as [H1 H2].
    { intros h vs. rewrite map_get_set. case_decide; [by intros [= <-]|apply Hfm]. }
    split; [done|]. intros Hf. apply H2. rewrite map_get_set. case_decide as Hd; [by right|].
    rewrite elem_of_cons in Hf. destruct Hf as [[->|?]|?]; [done|by left|by right].
Qed.

(** * Properties *)

(** C9. Full-text search is sound: when the required words are distinct and longer than two
    characters (the words for which the count of required terms is exact), every result is a
    document that matches every word, with a score between a partial and a title match. *)
Theorem terms_search_sound idx sts exs rs :
  NoDup sts -> Forall (fun w : jstr => (2 < length w)%nat) sts ->
  performTermsSearch idx sts exs = Ok rs ->
  Forall (fun r => exists f score, r = file_result idx f score /\ (2 <= score <= 15)%Z /\
    forall w, w ∈ sts -> word_hit idx w f) rs.
Proof.
  intros Hnd Hlen. unfold performTermsSearch.
  destruct (search_words idx sts (∅, [])) as [[sm fm]|] eqn:Es; simpl; [|done].
  intros Hc. apply Forall_forall. intros r Hr.
  destruct (collect_sound _ _ _ _ _ _ _ Hc Hr) as (f & vs & Hin & Ha & ->).
  destruct (search_words_inv idx sts [] ∅ [] sm fm (inv_start idx) Hnd Es) as [Hk Hm].
  simpl in *. apply map_get_elem in Hin; [|done]. destruct (Hm f vs Hin) as (Hvs & Hne & HF).
  exists f, (max_score sm f vs). split_and!; [done| | |].
  - apply max_score_bounds; [done|]. intros v Hv. by apply HF.
  - apply max_score_bounds; [done|]. intros v Hv. by apply HF.
  - intros w Hw. assert (length vs = length sts) as Hl.
    { destruct Ha as [?|Ha]; [done|]. rewrite Ha. f_equal.
      clear -Hlen. induction Hlen as [|x l Hx _ IH]; [done|]. rewrite filter_cons_True by done. by f_equal. }
    assert (vs ≡ₚ sts) as Hp.
    { apply submseteq_length_Permutation; [|lia]. apply NoDup_submseteq; [done|]. intros v Hv. by apply HF. }
    assert (w ∈ vs) as Hwv by (by rewrite Hp). by apply HF.
Qed.

(** C28. A search for one word that is no member of Object.prototype returns normally, and it
    returns exactly the documents that match the word. *)
Theorem single_word_search_complete idx w :
  plain_word w -> (2 < length w)%nat ->
  exists rs, performTermsSearch idx [w] [] = Ok rs /\
    (forall f, word_hit idx w f -> exists score, file_result idx f score ∈ rs) /\
    (forall r, r ∈ rs -> exists f score, word_hit idx w f /\ r = file_result idx f score).
Proof.
  intros Hp Hl.
  assert (exists sm fm, search_word idx (∅, []) w = Ok (sm, fm) /\
    forall f, word_hit idx w f -> map_get f fm = Some [w]) as (sm & fm & Es & Hhit).
  { unfold search_word. case_match eqn:Hall.
    - exists ∅, []. split; [done|]. intros f Hf. by destruct (all_undefined_no_hit idx w f).
    - destruct (add_records_total w (word_records idx w) ∅ []) as [[sm fs] Ea];
        [intros r Hr; by eapply word_records_total|]. simpl. rewrite Ea. simpl.
      eexists _, _. split; [done|]. intros f Hf. apply add_records_spec in Ea as (H1 & _).
      destruct (add_file_single w [] fs f) as [_ Hs]; [done|]. apply Hs. left. apply H1. right.
      by apply word_records_hit. }
  unfold performTermsSearch. cbn [search_words]. rewrite Es. cbn [rbind].
  pose proof (search_word_inv idx [] ∅ [] w sm fm (inv_start idx) (not_elem_of_nil w) Es) as [Hk Hm].
  destruct (collect_complete idx [w] sm fm) as (rs & Hrs & Hin). exists rs. split_and!; [done| |].
  - intros f Hf. eexists. apply (Hin f [w]); [|by left]. apply map_get_elem; [done|]. by apply Hhit.
  - intros r Hr. destruct (collect_sound _ _ _ _ _ _ _ Hrs Hr) as (f & vs & Hfm & _ & ->).
    apply map_get_elem in Hfm; [|done]. destruct (Hm f vs Hfm) as (_ & Hne & HF).
    destruct vs as [|v vs]; [done|]. destruct (HF v) as (Hv & Hh & _); [left|].
    apply list_elem_of_singleton in Hv as ->. eauto.
Qed.

(** ** The documentation's own index, in small *)

Definition demo_index : Index := {|
  docnames := [js "CHANGELOG"; js "README"; js "clients/c/README"];
  filenames := [js "CHANGELOG.md"; js "README.rst"; js "clients/c/README.rst"];
  titles := [js "CHANGELOG"; js "TFProtocol"; js "TFProtocol client"];
  alltitles := [(js "TFProtocol", [(1%nat, None)]); (js "Installing", [(1%nat, Some (js "installing"))])];
  indexentries := [];
  objects := []; objnames := [];
  terms := [(js "server", FMany [1%nat; 2%nat]); (js "port", FMany [1%nat; 2%nat]);
            (js "hash", FOne 1); (js "docker", FMany [1%nat])];
  titleterms := [(js "port", FOne 1)];
|}.

Lemma terms_search_sound_witness :
  Forall (fun r => exists f score, r = file_result demo_index f score /\ (2 <= score <= 15)%Z /\
    forall w, w ∈ [js "server"; js "docker"] -> word_hit demo_index w f)
    [file_result demo_index 1 5].
Proof.
  apply (terms_search_sound demo_index [js "server"; js "docker"] []).
  - apply (bool_decide_unpack _). vm_compute. exact I.
  - repeat constructor.
  - vm_compute. reflexivity.
Defined.

Lemma single_word_search_complete_witness :
  exists rs, performTermsSearch demo_index [js "dock"] [] = Ok rs /\
    exists score, file_result demo_index 1 score ∈ rs.
Proof.
  destruct (single_word_search_complete demo_index (js "dock")) as (rs & Hrs & Hc & _).
  - split; by_deciding.
  - vm_compute. lia.
  - exists rs. split; [exact Hrs|]. apply Hc. right. right. split; [vm_compute; lia|].
    split; [vm_compute; reflexivity|]. exists (js "docker"), (FMany [1%nat]).
    split; [|split; [vm_compute; reflexivity|left]].
    do 3 right. left.
Defined.

(** Full-text search on several words is not complete: a word that a document has both
    as a term and in its title makes [fileMap.set] discard the words found before, so a
    document matching both words is found or lost depending on the order of the words. *)
Theorem several_words_lose_matches :
  word_hit demo_index (js "server") 1 /\ word_hit demo_index (js "port") 1 /\
  performTermsSearch demo_index [js "port"; js "server"] [] =
    Ok [file_result demo_index 1 15; file_result demo_index 2 5] /\
  performTermsSearch demo_index [js "server"; js "port"] [] = Ok [file_result demo_index 2 5].
Proof.
  split_and!.
  - left. exists (FMany [1%nat; 2%nat]). split; [vm_compute; reflexivity|left].
  - left. exists (FMany [1%nat; 2%nat]). split; [vm_compute; reflexivity|left].
  - vm_compute. reflexivity.
  - vm_compute. reflexivity.
Qed.

(** A word that names a method every object inherits ([constructor] is one a reader can
    type) makes the search throw a TypeError as soon as the index has no such term. *)
Theorem inherited_word_throws idx w exs sts :
  w ∈ object_proto_methods -> assoc w (terms idx) = None ->
  performTermsSearch idx (w :: sts) exs = Throw TypeError.
Proof.
  intros Hw Ht. unfold performTermsSearch. cbn [search_words].
  assert (obj_get (terms idx) w = PMethod) as Hg.
  { unfold obj_get. by rewrite Ht, decide_True. }
  assert (search_word idx (∅, []) w = Throw TypeError) as ->; [|done].
  unfold search_word, word_records. rewrite Hg.
  case_match eqn:Hall; [exfalso; destruct (Nat.ltb 2 (length w)); done|].
  by destruct (Nat.ltb 2 (length w)).
Qed.

Lemma inherited_word_throws_witness :
  stemWord (js "constructor") = js "constructor" /\
  performTermsSearch demo_index [js "constructor"] [] = Throw TypeError.
Proof.
  split; [vm_compute; reflexivity|].
  apply (inherited_word_throws demo_index (js "constructor") [] []).
  - apply (bool_decide_unpack _). vm_compute. exact I.
  - vm_compute. reflexivity.
Defined.

End SearchTerms.
