(* ===== verification/SearchOrder.v ===== *)
(** Ranking, removal of duplicates and display of the search results, and
    the state machine around the index (docs/_static/searchtools.js; definitions in
    Search.v). *)

From stdpp Require Import sorting.
From S2P Require Import Prelude Regex Stemmer Doctools Search SearchProofs SearchTerms.
Import Stemmer Doctools Search SearchProofs SearchTerms.

Module SearchOrder.

(** * The order of the results *)

Section ranking.
Context `{Unicode}.

Definition has_title (r : result) : Prop := is_Some (r_title r).

Definition title_lower (r : result) : jstr := toLowerCase (default [] (r_title r)).

(** [rank a b]: [a] is shown before [b] or they tie: a higher score, or the same score
    and a title that does not come later in the alphabet. *)
Definition rank (a b : result) : Prop :=
  (r_score b < r_score a)%Z \/
  (r_score a = r_score b /\ str_compare (title_lower a) (title_lower b) <> Gt).

Lemma rank_trans a b c : rank a b -> rank b c -> rank a c.
Proof.
  intros [?|[? ?]] [?|[? ?]]; [left; lia..|]. right. split; [lia|].
  by eapply str_compare_trans.
Qed.

Lemma rank_total a b : rank a b \/ rank b a.
Proof.
  unfold rank. destruct (Z.lt_trichotomy (r_score a) (r_score b)) as [?|[Heq|?]]; [auto| |auto].
  rewrite Heq, (str_compare_antisym (title_lower a) (title_lower b)).
  destruct (str_compare (title_lower a) (title_lower b)); naive_solver.
Qed.

Lemma compare_results_rank a b :
  has_title a -> has_title b ->
  exists c, compare_results a b = Ok c /\ (c <> Gt -> rank b a) /\ (c = Gt -> rank a b).
Proof.
  intros [ta Ha] [tb Hb]. unfold compare_results, rank, title_lower. rewrite Ha, Hb. simpl.
  destruct (Z.eqb_spec (r_score a) (r_score b)) as [Heq|Hne].
  - eexists. split; [done|].
    rewrite (str_compare_antisym (toLowerCase ta) (toLowerCase tb)).
    destruct (str_compare (toLowerCase ta) (toLowerCase tb)); simpl; split; intros; try done;
      right; split; done.
  - eexists. split; [done|]. destruct (Z.gtb_spec (r_score a) (r_score b)); split; intros; try done;
      left; lia.
Qed.

Definition rank_up (a b : result) : Prop := rank b a.

Lemma insert_result_spec x l :
  has_title x -> Forall has_title l -> StronglySorted rank_up l ->
  exists s, insert_result x l = Ok s /\ s ≡ₚ x :: l /\ StronglySorted rank_up s.
Proof.
  intros Hx Hl Hs. induction l as [|y l IH]; simpl.
  - exists [x]. split_and!; [done..|]. repeat constructor.
  - apply Forall_cons in Hl as [Hy Hl]. apply StronglySorted_inv in Hs as [Hs Hyl].
    destruct (compare_results_rank x y Hx Hy) as (c & Hc & H1 & H2). rewrite Hc. simpl.
    destruct c.
    1,2: exists (x :: y :: l); split_and!; [done..|]; constructor; [by constructor|];
      assert (rank_up x y) as Hxy by (by apply H1); constructor; [done|];
      eapply Forall_impl; [exact Hyl|]; intros z Hz; by eapply rank_trans.
    destruct (IH Hl Hs) as (s & Hs' & Hp & Hss). rewrite Hs'. simpl. exists (y :: s). split_and!.
    + done.
    + rewrite Hp. constructor.
    + constructor; [done|]. rewrite Hp. constructor; [|done]. by apply H2.
Qed.

Lemma sort_results_spec l :
  Forall has_title l ->
  exists s, sort_results l = Ok s /\ s ≡ₚ l /\ StronglySorted rank_up s.
Proof.
  induction 1 as [|x l Hx Hl (s & Hs & Hp & Hss)]; simpl.
  - exists []. split_and!; [done..|constructor].
  - rewrite Hs. simpl. destruct (insert_result_spec x s) as (s' & Hs' & Hp' & Hss'); [done| |done|].
    + by rewrite Hp.
    + exists s'. split_and!; [done| |done]. by rewrite Hp', Hp.
Qed.

Lemma StronglySorted_rev (R : relation result) l :
  StronglySorted (flip R) l -> StronglySorted R (rev l).
Proof.
  induction 1 as [|x l _ IH HF]; simpl; [constructor|].
  apply StronglySorted_app_2; [|done|repeat constructor].
  intros y z Hy ->%list_elem_of_singleton. apply list_elem_of_In, in_rev, list_elem_of_In in Hy.
  rewrite Forall_forall in HF. by apply HF.
Qed.

(** ** Removal of duplicates *)

Lemma dedup_spec seen l :
  StronglySorted rank l ->
  StronglySorted rank (dedup seen l) /\
  NoDup (result_key <$> dedup seen l) /\
  (forall r, r ∈ dedup seen l -> r ∈ l /\ result_key r ∉ seen) /\
  (forall r, r ∈ l -> result_key r ∉ seen ->
     exists r', r' ∈ dedup seen l /\ result_key r' = result_key r /\ (r_score r <= r_score r')%Z).
Proof.
  intros Hs. revert seen. induction Hs as [|x l Hs IH HF]; intros seen; cbn [dedup].
  { split_and!; [constructor..| |]; intros r ?%not_elem_of_nil; done. }
  case_decide as Hin.
  { destruct (IH seen) as (H1 & H2 & H3 & H4). split_and!; [done..| |].
    - intros r Hr. destruct (H3 r Hr). split; [by right|done].
    - intros r [->|Hr]%elem_of_cons Hn; [done|auto]. }
  destruct (IH ({[result_key x]} ∪ seen)) as (H1 & H2 & H3 & H4).
  rewrite Forall_forall in HF. split_and!.
  - constructor; [done|]. apply Forall_forall. intros r Hr. apply HF. by apply H3.
  - csimpl. constructor; [|done]. intros (r & Hk & Hr)%list_elem_of_fmap.
    apply H3 in Hr as [_ Hr]. set_solver.
  - intros r [->|Hr]%elem_of_cons; [split; [left|done]|]. apply H3 in Hr as [? ?].
    split; [by right|set_solver].
  - intros r [->|Hr]%elem_of_cons Hn.
    + exists x. split_and!; [left|done|lia].
    + destruct (decide (result_key r = result_key x)) as [He|He].
      * exists x. split_and!; [left|done|]. destruct (HF r Hr) as [?|[? _]]; lia.
      * destruct (H4 r Hr) as (r' & ? & ? & ?); [set_solver|].
        exists r'. split_and!; [by right|done..].
Qed.
End ranking.

(** * Indices whose document numbers are in range *)

Definition index_wf (idx : Index) : Prop :=
  let n := length (titles idx) in
  Forall (fun kv : jstr * list (nat * option jstr) => Forall (fun e => (e.1 < n)%nat) kv.2) (indexentries idx) /\
  Forall (fun kv : jstr * files => Forall (fun f => (f < n)%nat) (files_list kv.2)) (terms idx) /\
  Forall (fun kv : jstr * files => Forall (fun f => (f < n)%nat) (files_list kv.2)) (titleterms idx).

Lemma word_hit_lt idx w f : index_wf idx -> word_hit idx w f -> (f < length (titles idx))%nat.
Proof.
  intros (_ & Ht & Htt). rewrite !Forall_forall in *.
  intros [(fs & Ha%assoc_elem & Hin)|[(fs & Ha%assoc_elem & Hin)|(_ & _ & t & fs & Ha & _ & Hin)]].
  - specialize (Ht _ Ha). rewrite Forall_forall in Ht. by apply Ht.
  - specialize (Htt _ Ha). rewrite Forall_forall in Htt. by apply Htt.
  - specialize (Ht _ Ha). rewrite Forall_forall in Ht. by apply Ht.
Qed.

Section titles.
Context `{Unicode} (tr : jstr -> option jstr).

Lemma terms_results_titles idx sts exs rs :
  index_wf idx -> NoDup sts -> performTermsSearch idx sts exs = Ok rs -> Forall has_title rs.
Proof.
  intros Hwf Hnd. unfold performTermsSearch.
  destruct (search_words idx sts (∅, [])) as [[sm fm]|] eqn:Es; simpl; [|done].
  intros Hc. apply Forall_forall. intros r Hr.
  destruct (collect_sound _ _ _ _ _ _ _ Hc Hr) as (f & vs & Hin & _ & ->).
  destruct (search_words_inv idx sts [] ∅ [] sm fm (inv_start idx) Hnd Es) as [Hk Hm].
  apply map_get_elem in Hin; [|done]. destruct (Hm f vs Hin) as (_ & Hne & HF).
  destruct vs as [|v vs]; [done|]. destruct (HF v) as (_ & Hh & _); [left|].
  unfold has_title. simpl. apply lookup_lt_is_Some_2. by eapply word_hit_lt.
Qed.

Lemma rmapM_Forall {A B} (f : A -> res B) (P : B -> Prop) l ys :
  (forall x y, f x = Ok y -> P y) -> rmapM f l = Ok ys -> Forall P ys.
Proof.
  intros Hf. revert ys; induction l as [|x l IH]; intros ys; simpl; [by intros [= <-]|].
  destruct (f x) eqn:E; simpl; [|done]. destruct (rmapM f l) eqn:E'; simpl; [|done].
  intros [= <-]. constructor; eauto.
Qed.

Lemma Forall_concat_2 {A} (P : A -> Prop) ls : Forall (Forall P) ls -> Forall P (concat ls).
Proof. induction 1; simpl; [done|]. by apply Forall_app. Qed.

Lemma object_results_titles idx t ots rs idx' :
  performObjectSearch tr idx t ots = Ok (rs, idx') ->
  Forall has_title rs /\ idx' = normalize_index idx.
Proof.
  unfold performObjectSearch. destruct (rmapM _ _) as [rss|] eqn:E; simpl; [|done].
  intros [= <- <-]. split; [|done]. apply Forall_concat_2, Forall_concat_2.
  eapply rmapM_Forall; [|exact E]. intros x y Hy.
  eapply rmapM_Forall; [|exact Hy]. clear. intros [m name] rs. unfold objectSearchCallback.
  repeat case_match; intros; simplify_eq; repeat constructor. all: by eexists.
Qed.

Lemma object_searches_titles todo idx ots rs idx' :
  object_searches tr idx todo ots = Ok (rs, idx') ->
  Forall has_title rs /\ terms idx' = terms idx /\ titleterms idx' = titleterms idx /\
  titles idx' = titles idx /\ indexentries idx' = indexentries idx.
Proof.
  revert idx rs; induction todo as [|t todo IH]; intros idx rs; simpl; [by intros [= <- <-]|].
  destruct (performObjectSearch tr idx t ots) as [[rs1 idx1]|] eqn:E; simpl; [|done].
  apply object_results_titles in E as [Ht ->].
  destruct (object_searches tr _ todo ots) as [[rs2 idx2]|] eqn:E2; simpl; [|done].
  intros [= <- <-]. apply IH in E2 as (? & ? & ? & ? & ?). split; [by apply Forall_app|done].
Qed.
End titles.

Section properties.
Context `{UnicodeLaws} (tr : jstr -> option jstr).

Lemma raw_results_titles idx q raw idx1 :
  index_wf idx -> raw_results tr idx q = Ok (raw, idx1) -> Forall has_title raw.
Proof.
  intros Hwf. unfold raw_results.
  destruct (object_searches tr idx _ _) as [[r1 idx']|] eqn:Eo; cbn [rbind]; [|done].
  destruct (performTermsSearch idx' _ _) as [r2|] eqn:Et; cbn [rbind]; [|done].
  intros [= <- <-]. apply object_searches_titles in Eo as (Ho & Ht1 & Ht2 & Ht3 & Ht4).
  assert (index_wf idx') as Hwf'. { unfold index_wf. by rewrite Ht1, Ht2, Ht3, Ht4. }
  rewrite !Forall_app. split_and!.
  - unfold title_results. apply Forall_forall. intros r (kv & _ & Hr)%list_elem_of_In%in_flat_map.
    destruct kv as [t l]. apply list_elem_of_In in Hr.
    case_match; [|by apply not_elem_of_nil in Hr].
    apply list_elem_of_fmap in Hr as ([f id] & -> & _). by eexists.
  - unfold entry_results. apply Forall_forall. intros r (kv & Hkv & Hr)%list_elem_of_In%in_flat_map.
    destruct kv as [t l]. apply list_elem_of_In in Hr, Hkv.
    case_match; [|by apply not_elem_of_nil in Hr].
    apply list_elem_of_fmap in Hr as ([f id] & -> & Hin).
    destruct Hwf as (Hie & _ & _). rewrite Forall_forall in Hie. specialize (Hie _ Hkv).
    rewrite Forall_forall in Hie. specialize (Hie _ Hin).
    unfold has_title. cbn [r_title]. by apply lookup_lt_is_Some_2.
  - done.
  - eapply terms_results_titles; [done| |done]. apply parse_query_terms.
Qed.

(** C10. Ranking: whenever the searches of a query return, the query returns, and the results
    in display order are by decreasing score and then by title, contain no two results with
    the same key, are all results of the searches, and represent each of them by one of at
    least its score. *)
Theorem query_ranked idx q raw idx1 :
  index_wf idx -> raw_results tr idx q = Ok (raw, idx1) ->
  exists out, query tr idx q = Ok out /\
    let shown := rev (q_results out) in
    StronglySorted rank shown /\
    NoDup (result_key <$> shown) /\
    Forall (fun r => r ∈ raw) shown /\
    Forall (fun r => exists r', r' ∈ shown /\ result_key r' = result_key r /\ (r_score r <= r_score r')%Z) raw.
Proof.
  intros Hwf Hraw. destruct (sort_results_spec raw) as (s & Hs & Hp & Hss).
  { by eapply raw_results_titles. }
  unfold query. rewrite Hraw. cbn [rbind]. rewrite Hs. cbn [rbind].
  eexists. split; [reflexivity|]. cbn [q_results]. rewrite rev_involutive.
  destruct (dedup_spec ∅ (rev s)) as (H1 & H2 & H3 & H4); [by apply StronglySorted_rev|].
  split_and!; [done..| |]; apply Forall_forall.
  - intros r Hr. apply H3 in Hr as [Hr _]. rewrite <- Hp.
    by apply list_elem_of_In, in_rev, list_elem_of_In in Hr.
  - intros r Hr. apply H4; [|set_solver]. rewrite <- Hp in Hr.
    by apply list_elem_of_In, in_rev; rewrite rev_involutive; apply list_elem_of_In.
Qed.

(** * Display *)

Lemma display_run_S o n m d :
  display_run tr o n (S m) d =
    let '(d', more) := _displayNextItem tr o n d in
    if more then display_run tr o n m d' else Some d'.
Proof. done. Qed.

Lemma display_run_spec o n results out :
  display_run tr o n (S (length results)) {| d_results := results; d_output := out; d_finished := None |} =
  Some {| d_results := []; d_output := out ++ (_displayItem o <$> rev results);
          d_finished := Some (finish_message tr n) |}.
Proof.
  revert out; induction results as [|r results IH] using rev_ind; intros out.
  - simpl. by rewrite app_nil_r.
  - rewrite display_run_S. unfold _displayNextItem. cbn [d_results d_output d_finished].
    rewrite last_snoc, length_app. simpl (length [r]). rewrite Nat.add_sub, take_app_length.
    rewrite Nat.add_1_r, IH, rev_unit. f_equal. f_equal. csimpl. by rewrite <- app_assoc.
Qed.

(** The chain of display timers ends after one activation per result and one more; it
    shows every result exactly once, the last of the array first, and then the message for
    the number of results. *)
Theorem display_shows_all o results :
  display tr o results =
  Some {| d_results := []; d_output := _displayItem o <$> rev results;
          d_finished := Some (finish_message tr (length results)) |}.
Proof. unfold display. by rewrite display_run_spec. Qed.

(** * Index and deferred query *)

Definition core (st : search_state) := (s_index st, s_queued st, s_runs st).

Definition is_timer (e : event) : bool :=
  match e with Ev_finish | Ev_timer => true | _ => false end.

Lemma startPulse_core st : core (startPulse st) = core st.
Proof. unfold startPulse. by case_match. Qed.

Lemma run_query_core st st' q : core st = core st' -> core (run_query tr st q) = core (run_query tr st' q).
Proof. unfold core, run_query. intros [= -> -> ->]. done. Qed.

Lemma step_core st st' e : core st = core st' -> core (step tr st e) = core (step tr st' e).
Proof.
  intros Hc. destruct e as [idx|q| |]; simpl.
  - unfold setIndex. assert (s_queued st = s_queued st') as -> by (unfold core in Hc; congruence).
    case_match; [apply run_query_core|]; unfold core in *; simpl; congruence.
  - unfold init. destruct q as [[|c q]|]; [done| |done].
    unfold performSearch, hasIndex. rewrite <- (startPulse_core st), <- (startPulse_core st') in Hc.
    assert (s_index (startPulse st) = s_index (startPulse st')) as -> by (unfold core in Hc; congruence).
    case_match; [by apply run_query_core|]. unfold core in *; simpl; congruence.
  - done.
  - by destruct (s_timers st), (s_timers st').
Qed.

Lemma timer_core st e : is_timer e = true -> core (step tr st e) = core st.
Proof. destruct e; simpl; [done..|]. intros _. by destruct (s_timers st). Qed.

Lemma run_events_core evs st st' :
  core st = core st' ->
  core (run_events tr st evs) = core (run_events tr st' (filter (fun e => is_timer e = false) evs)).
Proof.
  revert st st'; induction evs as [|e evs IH]; intros st st' Hc; [done|].
  destruct (is_timer e) eqn:E.
  - rewrite filter_cons_False by congruence. simpl. apply IH. by rewrite timer_core.
  - rewrite filter_cons_True by done. simpl. apply IH. by apply step_core.
Qed.

(** C11. The query of the page runs exactly once, on the loaded index, whichever of the
    index script and the document-ready event comes first and however the timers of the
    pulse and the end of a search are interleaved with them. *)
Theorem query_runs_once evs idx c q :
  filter (fun e => is_timer e = false) evs = [Ev_init (Some (c :: q)); Ev_setIndex idx] \/
  filter (fun e => is_timer e = false) evs = [Ev_setIndex idx; Ev_init (Some (c :: q))] ->
  s_runs (run_events tr search_initial evs) = [(c :: q, query tr idx (c :: q))] /\
  s_queued (run_events tr search_initial evs) = None.
Proof.
  intros Hevs. pose proof (run_events_core evs search_initial search_initial eq_refl) as Hc.
  destruct Hevs as [He|He]; rewrite He in Hc; unfold core in Hc; simpl in Hc;
    injection Hc as _ -> ->; done.
Qed.

(** * The pulse *)

Definition pulse_inv (st : search_state) : Prop :=
  (-1 <= s_pulse st <= 3)%Z /\ ((0 <= s_pulse st)%Z -> (1 <= s_timers st)%nat).

Lemma pulse_spec st n : (-1 <= s_pulse st <= 3)%Z ->
  pulse_inv (pulse st n) /\ s_timers (pulse st n) = S n.
Proof.
  intros Hp. unfold pulse_inv, pulse. cbn [set_pulse s_pulse s_timers].
  pose proof (Z.rem_bound_pos (s_pulse st + 1) 4 ltac:(lia) ltac:(lia)).
  rewrite (proj2 (Z.leb_le _ _)) by lia. split; [split; [lia|intros; lia]|done].
Qed.

Lemma startPulse_inv st : pulse_inv st ->
  pulse_inv (startPulse st) /\ (s_timers st <= s_timers (startPulse st))%nat /\
  (1 <= s_timers (startPulse st))%nat.
Proof.
  intros Hi. unfold startPulse. case_match eqn:E.
  - apply Z.leb_le in E. split_and!; [done..|]. by apply Hi.
  - destruct (pulse_spec st (s_timers st)) as [? ->]; [apply Hi|]. split_and!; [done|lia..].
Qed.

Lemma run_query_pulse st q :
  s_pulse (run_query tr st q) = s_pulse st /\ s_timers (run_query tr st q) = s_timers st.
Proof. done. Qed.

Lemma step_pulse st e : pulse_inv st ->
  pulse_inv (step tr st e) /\ (s_timers st <= s_timers (step tr st e))%nat.
Proof.
  intros Hi. destruct e as [idx|q| |]; simpl.
  - unfold setIndex. by destruct (s_queued st).
  - unfold init. destruct q as [[|c q]|]; [done| |done].
    destruct (startPulse_inv st Hi) as (? & ? & _). unfold performSearch. by case_match.
  - split; [|done]. unfold pulse_inv, stopPulse. simpl. split; lia.
  - destruct (s_timers st) as [|n] eqn:En; [by rewrite En|].
    destruct (pulse_spec st n) as [? ->]; [apply Hi|]. done.
Qed.

Lemma run_events_pulse evs st : pulse_inv st ->
  pulse_inv (run_events tr st evs) /\ (s_timers st <= s_timers (run_events tr st evs))%nat.
Proof.
  revert st; induction evs as [|e evs IH]; intros st Hi; simpl; [done|].
  destruct (step_pulse st e Hi) as [Hi' Hle]. destruct (IH _ Hi') as [? ?]. split; [done|lia].
Qed.

(** C40. The pulse of dots never stops: after a search has started, an activation of [pulse]
    is pending at every later moment, however often [stopPulse] is called, because the
    pending activation turns the status -1 into 0 and schedules the next one. *)
Theorem pulse_never_stops before after c q :
  (1 <= s_timers (run_events tr search_initial (before ++ Ev_init (Some (c :: q)) :: after)))%nat.
Proof.
  unfold run_events. rewrite foldl_app. cbn [foldl].
  destruct (run_events_pulse before search_initial) as [Hb _]; [by split; simpl; lia|].
  fold (run_events tr search_initial before) in *.
  set (st := run_events tr search_initial before) in *.
  destruct (startPulse_inv st Hb) as (Hi & _ & H1).
  assert (pulse_inv (step tr st (Ev_init (Some (c :: q)))) /\
    (1 <= s_timers (step tr st (Ev_init (Some (c :: q)))))%nat) as [Hi' H1'].
  { simpl. unfold performSearch. by case_match. }
  destruct (run_events_pulse after _ Hi') as [_ ?]. unfold run_events in *. lia.
Qed.
End properties.

(** * Witnesses *)

Definition tr_id (s : jstr) : option jstr := Some s.

Lemma demo_index_wf : index_wf demo_index.
Proof. repeat split; repeat constructor; vm_compute; lia. Qed.

Lemma query_ranked_witness :
  exists out, query tr_id demo_index (js "server") = Ok out /\
    StronglySorted rank (rev (q_results out)) /\ NoDup (result_key <$> rev (q_results out)).
Proof.
  edestruct (@query_ranked ascii_only ascii_only_laws tr_id demo_index (js "server")) as (out & H1 & H2 & H3 & _).
  - exact demo_index_wf.
  - vm_compute. reflexivity.
  - exists out. auto.
Defined.

Lemma query_runs_once_witness :
  s_runs (run_events tr_id search_initial
    [Ev_timer; Ev_setIndex demo_index; Ev_finish; Ev_init (Some (js "port")); Ev_timer]) =
  [(js "port", query tr_id demo_index (js "port"))].
Proof.
  apply (query_runs_once tr_id
    [Ev_timer; Ev_setIndex demo_index; Ev_finish; Ev_init (Some (js "port")); Ev_timer]
    demo_index (chr "p") (js "ort")).
  right. reflexivity.
Defined.

End SearchOrder.
