(* ===== verification/SearchSummary.v ===== *)
(** The summary of a search result ([makeSearchSummary] of
    docs/_static/searchtools.js; definitions in Search.v): which part of the page it
    shows, and that the keyword it was cut out for can be read in it. *)

From S2P Require Import Prelude Search.
Import Search.

Module SearchSummary.

Section summary.
Context `{Unicode}.

(** * Occurrences of a keyword *)

(** [w], between [a] and [b], is the keyword up to case. *)
Definition occurrence (text k a w b : jstr) : Prop := text = a ++ w ++ b /\ toLowerCase w = toLowerCase k.

Definition occurs_in (text k : jstr) : Prop := exists a w b, occurrence text k a w b.

Definition first_occurrence (text k a w b : jstr) : Prop :=
  occurrence text k a w b /\ forall a' w' b', occurrence text k a' w' b' -> length a <= length a'.

Lemma lower_ascii (s : jstr) : forallb is_ascii s = true -> toLowerCase s = ascii_lower <$> s.
Proof. unfold toLowerCase. by intros ->. Qed.

(** An occurrence in the text is one in the text in lower case. *)
Lemma occurrence_lowered text k a w b : forallb is_ascii text = true -> occurrence text k a w b ->
  toLowerCase text = (ascii_lower <$> a) ++ toLowerCase k ++ (ascii_lower <$> b).
Proof.
  intros Ha [-> <-]. rewrite lower_ascii by done. rewrite !forallb_app, !andb_true_iff in Ha.
  rewrite (lower_ascii w) by apply Ha. by rewrite !fmap_app.
Qed.

(** What [indexOf] finds in lower case is the first occurrence. *)
Lemma find_first_occurrence text k : forallb is_ascii text = true ->
  match find_sub (toLowerCase k) (toLowerCase text) 0 with
  | Some p => exists a w b, first_occurrence text k a w b /\ length a = p
  | None => ~ occurs_in text k
  end.
Proof.
  intros Ha. pose proof (lower_ascii text Ha) as Hlow. destruct (find_sub _ _ _) as [p|] eqn:E.
  - pose proof E as [Hs Hl]%find_sub_Some. rewrite Hlow, length_fmap in Hl.
    set (n := length (toLowerCase k)) in *.
    exists (take p text), (take n (drop p text)), (drop n (drop p text)).
    rewrite length_take_le by lia. split; [|done]. split.
    + split; [by rewrite take_drop, take_drop|].
      rewrite lower_ascii, fmap_take, fmap_drop, <- Hlow.
      * rewrite Hs at 1. rewrite drop_app_length'; [by apply take_app_length|].
        rewrite length_take_le; [done|]. rewrite Hlow, length_fmap. lia.
      * rewrite <- (take_drop p text), forallb_app, andb_true_iff in Ha. destruct Ha as [_ Ha].
        rewrite <- (take_drop n (drop p text)), forallb_app, andb_true_iff in Ha. apply Ha.
    + intros a' w' b' Ho. rewrite length_take_le by lia. destruct (decide (p <= length a')) as [|Hlt]; [done|].
      apply occurrence_lowered in Ho; [|done]. apply (find_sub_minimal _ _ _ (length a')) in E; [|lia].
      rewrite Ho, drop_app_length' in E by by rewrite length_fmap.
      assert (is_prefix (toLowerCase k) (toLowerCase k ++ (ascii_lower <$> b')) = true) as Hp
        by (apply is_prefix_spec; by eexists).
      congruence.
  - intros (a & w & b & Ho). apply occurrence_lowered in Ho; [|done]. by eapply find_sub_None in E.
Qed.

Lemma position_first text k a w b : forallb is_ascii text = true -> first_occurrence text k a w b ->
  indexOf (toLowerCase text) (toLowerCase k) = Z.of_nat (length a).
Proof.
  intros Ha [Ho Hmin]. unfold indexOf. pose proof (find_first_occurrence text k Ha) as Hf. destruct (find_sub _ _ _) as [p|].
  - destruct Hf as (a' & w' & b' & [Ho' Hmin'] & <-). f_equal. apply Nat.le_antisymm; [by eapply Hmin'|by eapply Hmin].
  - destruct Hf. by exists a, w, b.
Qed.

Lemma position_absent text k : forallb is_ascii text = true -> ~ occurs_in text k ->
  indexOf (toLowerCase text) (toLowerCase k) = (-1)%Z.
Proof.
  intros Ha Hn. unfold indexOf. pose proof (find_first_occurrence text k Ha) as Hf. destruct (find_sub _ _ _) as [p|]; [|done].
  destruct Hf as (a & w & b & [Ho _] & _). destruct Hn. by exists a, w, b.
Qed.

Lemma positions_absent text ks : forallb is_ascii text = true -> (forall k, k ∈ ks -> ~ occurs_in text k) ->
  filter (fun i : Z => (-1 < i)%Z) ((fun k => indexOf (toLowerCase text) (toLowerCase k)) <$> ks) = [].
Proof.
  intros Ha. induction ks as [|k ks IH]; intros Hn; [done|].
  rewrite fmap_cons, position_absent by (done || apply Hn; left). rewrite filter_cons_False; [|done].
  apply IH. intros k' Hk'. apply Hn. by right.
Qed.

(** The summary starts from the first occurrence of the last keyword that occurs. *)
Lemma actualStartPosition_last text before k after a w b :
  forallb is_ascii text = true -> first_occurrence text k a w b ->
  (forall k', k' ∈ after -> ~ occurs_in text k') ->
  actualStartPosition text (before ++ k :: after) = Some (Z.of_nat (length a)).
Proof.
  intros Ha Hf Hn. unfold actualStartPosition. rewrite fmap_app, fmap_cons, filter_app.
  rewrite (position_first text k a w b), filter_cons_True, (positions_absent text after), last_snoc; done || (cbv beta; lia).
Qed.

(** * Trimming *)

Definition spaceless (w : jstr) : Prop := Forall (fun c => is_space c = false) w.

Lemma drop_while_keeps x w y : spaceless w -> exists x' y', drop_while is_space (x ++ w ++ y) = x' ++ w ++ y'.
Proof.
  intros Hw. induction x as [|c x IH]; simpl.
  - destruct Hw as [|c w Hc Hw]; [by exists [], (drop_while is_space y)|].
    exists [], y. simpl. by rewrite Hc.
  - destruct (is_space c); [done|]. by exists (c :: x), y.
Qed.

Lemma trim_keeps x w y : spaceless w -> exists x' y', trim (x ++ w ++ y) = x' ++ w ++ y'.
Proof.
  intros Hw. unfold trim. destruct (drop_while_keeps x w y Hw) as (x1 & y1 & ->).
  rewrite !rev_app_distr, <- app_assoc. destruct (drop_while_keeps (rev y1) (rev w) (rev x1)) as (x2 & y2 & ->).
  { apply Forall_rev. exact Hw. }
  exists (rev y2), (rev x2). by rewrite !rev_app_distr, rev_involutive, <- app_assoc.
Qed.

(** A window that holds a word *)
Lemma window_keeps (a w b : jstr) start n : start <= length a -> length a + length w <= start + n ->
  exists y, substr (a ++ w ++ b) start n = drop start a ++ w ++ y.
Proof.
  intros Hs Hn. unfold substr. rewrite drop_app_le by lia. exists (take (n - (length a - start) - length w) b).
  rewrite take_app_ge by (rewrite length_drop; lia). rewrite length_drop.
  by rewrite take_app_ge by lia.
Qed.

(** * The summary *)

(** The text that the summary shows when its window starts at [start] *)
Definition shown (text : jstr) (start : nat) : jstr :=
  (if decide (start = 0) then [] else js "...") ++ trim (substr text start 240) ++
  (if decide (start + 240 < length text) then js "..." else []).

Lemma shown_length text start : length (shown text start) <= 246.
Proof.
  unfold shown. rewrite !length_app. pose proof (trim_length (substr text start 240)) as Ht.
  assert (length (substr text start 240) <= 240) by (unfold substr; rewrite length_take; lia).
  repeat case_decide; simpl; lia.
Qed.

Lemma shown_keeps text k a w b : occurrence text k a w b -> spaceless w -> length w <= 120 ->
  exists x y, shown text (length a - 120) = x ++ w ++ y.
Proof.
  intros [-> _] Hw Hl. unfold shown.
  generalize (if decide (length a - 120 = 0) then [] else js "...") (if decide (length a - 120 + 240 < length (a ++ w ++ b)) then js "..." else []).
  intros top tail. destruct (window_keeps a w b (length a - 120) 240) as [y ->]; [lia..|].
  destruct (trim_keeps (drop (length a - 120) a) w y Hw) as (x' & y' & ->).
  exists (top ++ x'), (y' ++ tail). by rewrite <- !app_assoc.
Qed.

(** C39. The summary shows what was searched for.  For every ASCII text of a main
    element and every list of keywords there is a summary of at most 246 characters.
    It is cut out around the first occurrence, in whatever case, of the last of the
    keywords that occur in the text: the window of 240 characters starts 120 before
    it, or at the beginning of the text, and ellipses stand for the text left out on
    either side.  An occurrence without white space of up to 120 characters can be
    read in the summary.  If no keyword occurs, the summary is the beginning of
    the text, behind an ellipsis. *)
Theorem search_summary_window text keywords : text <> [] -> forallb is_ascii text = true ->
  exists summary, makeSearchSummary {| main_text := Some text |} keywords = Ok (Some summary) /\
    length summary <= 246 /\
    (forall before k after a w b, keywords = before ++ k :: after -> first_occurrence text k a w b ->
       (forall k', k' ∈ after -> ~ occurs_in text k') ->
       summary = shown text (length a - 120) /\
       (spaceless w -> length w <= 120 -> exists x y, summary = x ++ w ++ y)) /\
    ((forall k, k ∈ keywords -> ~ occurs_in text k) -> summary = js "..." ++ trim (take 240 text)).
Proof.
  intros Hne Ha. unfold makeSearchSummary. cbn [htmlToText main_text rbind]. rewrite decide_False by done.
  set (summary := match actualStartPosition text keywords with
    | Some p => shown text (Z.to_nat (Z.max (p - 120) 0)) | None => js "..." ++ trim (take 240 text) end).
  exists summary. split_and!.
  - unfold summary, shown. destruct (actualStartPosition text keywords) as [p|].
    + do 4 f_equal; [by destruct (Nat.eqb_spec (Z.to_nat (Z.max (p - 120) 0)) 0); case_decide|f_equal].
      destruct (Nat.ltb_spec (Z.to_nat (Z.max (p - 120) 0) + 240) (length text)); case_decide; done || lia.
    + by rewrite app_nil_r.
  - unfold summary. destruct (actualStartPosition text keywords) as [p|]; [apply shown_length|].
    rewrite length_app. pose proof (trim_length (take 240 text)) as Ht. rewrite length_take in Ht. change (length (js "...")) with 3. lia.
  - intros before k after a w b -> Hf Hn. unfold summary. rewrite (actualStartPosition_last text before k after a w b) by done.
    replace (Z.to_nat (Z.max (Z.of_nat (length a) - 120) 0)) with (length a - 120) by lia.
    split; [done|]. apply (shown_keeps text k a w b), Hf.
  - intros Hn. unfold summary, actualStartPosition. by rewrite positions_absent.
Qed.

(** A page without a main element makes the summary throw: [querySelector] answers null,
    which the test against undefined does not catch. *)
Theorem no_main_element_throws keywords :
  makeSearchSummary {| main_text := None |} keywords = Throw TypeError.
Proof. done. Qed.

End summary.

Definition demo_text : jstr := js "The Protocol Server listens; the server answers.".

Lemma search_summary_window_witness :
  exists summary, makeSearchSummary {| main_text := Some demo_text |} [js "answers"; js "SERVER"; js "queue"] = Ok (Some summary) /\
    exists x y, summary = x ++ js "Server" ++ y.
Proof.
  destruct (search_summary_window demo_text [js "answers"; js "SERVER"; js "queue"]) as (s & E & _ & Hk & _);
    [discriminate|reflexivity|].
  exists s. split; [exact E|].
  assert (forall a w b, occurrence demo_text (js "SERVER") a w b -> 13 <= length a) as Hmin.
  { intros a w b Ho. apply occurrence_lowered in Ho; [|reflexivity].
    destruct (decide (13 <= length a)) as [|Hlt]; [done|].
    assert (find_sub (toLowerCase (js "SERVER")) (toLowerCase demo_text) 0 = Some 13) as E13 by by vm_compute.
    apply (find_sub_minimal _ _ _ (length a)) in E13; [|lia].
    rewrite Ho, drop_app_length' in E13 by by rewrite length_fmap. exfalso.
    assert (is_prefix (toLowerCase (js "SERVER")) (toLowerCase (js "SERVER") ++ (ascii_lower <$> b)) = true) as Hp
      by (apply is_prefix_spec; by eexists).
    congruence. }
  destruct (Hk [js "answers"] (js "SERVER") [js "queue"] (js "The Protocol ") (js "Server") (js " listens; the server answers."))
    as [_ Hw]; [reflexivity|split; [by split; vm_compute|exact Hmin]| |].
  - intros k ->%list_elem_of_singleton (a & w & b & Ho). apply occurrence_lowered in Ho; [|reflexivity].
    assert (find_sub (toLowerCase (js "queue")) (toLowerCase demo_text) 0 = None) as En by by vm_compute.
    by eapply find_sub_None in En.
  - apply Hw; [by_deciding|vm_compute; lia].
Defined.

End SearchSummary.
