(* ===== verification/Uri.v ===== *)
(** [encodeURIComponent] and [decodeURIComponent] of the language, which the
    serialization of [jquery.js] and the query parameters of the compatibility
    shim rely on: UTF-16 to UTF-8 with percent escapes, and back. *)

From S2P Require Import Prelude.

Module Uri.

Definition is_high_surrogate (c : N) : bool := in_range 0xD800 0xDBFF c.
Definition is_low_surrogate (c : N) : bool := in_range 0xDC00 0xDFFF c.

(** The characters that are not escaped: letters, digits and [-_.!~*'()]. *)
Definition unreserved (c : N) : bool :=
  is_digit c || is_upper c || is_lower c || bool_decide (c ∈ js "-_.!~*'()").

(** The octets of a code point. *)
Definition utf8 (v : N) : list N :=
  (if v <? 0x80 then [v]
   else if v <? 0x800 then [0xC0 + v / 64; 0x80 + v mod 64]
   else if v <? 0x10000 then [0xE0 + v / 4096; 0x80 + v / 64 mod 64; 0x80 + v mod 64]
   else [0xF0 + v / 262144; 0x80 + v / 4096 mod 64; 0x80 + v / 64 mod 64; 0x80 + v mod 64])%N.

Definition hex_digit (d : N) : N := (if d <? 10 then 48 + d else 55 + d)%N.

(** One octet as [%XX]. *)
Definition escape_octet (b : N) : jstr := [chr "%"; hex_digit (b / 16); hex_digit (b mod 16)]%N.

Definition escape_point (v : N) : jstr := concat (escape_octet <$> utf8 v).

Definition surrogate_pair (h l : N) : N := ((h - 0xD800) * 1024 + (l - 0xDC00) + 0x10000)%N.

Fixpoint encodeURIComponent (s : jstr) : res jstr :=
  match s with
  | [] => Ok []
  | c :: s' =>
      if unreserved c then do r <- encodeURIComponent s'; Ok (c :: r)
      else if is_low_surrogate c then Throw URIError
      else if is_high_surrogate c then
        match s' with
        | d :: s'' => if is_low_surrogate d
                      then do r <- encodeURIComponent s''; Ok (escape_point (surrogate_pair c d) ++ r)
                      else Throw URIError
        | [] => Throw URIError
        end
      else do r <- encodeURIComponent s'; Ok (escape_point c ++ r)
  end.

Definition hex_value (c : N) : option N :=
  if is_digit c then Some (c - 48)%N
  else if in_range 65 70 c then Some (c - 55)%N
  else if in_range 97 102 c then Some (c - 87)%N
  else None.

(** A code unit of the text or an escaped octet. *)
Definition uri_token : Type := N + N.

Fixpoint uri_tokens (s : jstr) : res (list uri_token) :=
  match s with
  | [] => Ok []
  | c :: s' =>
      if N.eqb c (chr "%") then
        match s' with
        | a :: b :: s'' =>
            match hex_value a, hex_value b with
            | Some x, Some y => do ts <- uri_tokens s''; Ok (inr (16 * x + y)%N :: ts)
            | _, _ => Throw URIError
            end
        | _ => Throw URIError
        end
      else do ts <- uri_tokens s'; Ok (inl c :: ts)
  end.

(** The code units of a code point. *)
Definition utf16 (v : N) : jstr :=
  (if v <? 0x10000 then [v]
   else [0xD800 + (v - 0x10000) / 1024; 0xDC00 + (v - 0x10000) mod 1024])%N.

(** The number of continuation octets a leading octet announces. *)
Definition octets_after (b : N) : option nat :=
  if in_range 0xC0 0xDF b then Some 1
  else if in_range 0xE0 0xEF b then Some 2
  else if in_range 0xF0 0xF7 b then Some 3
  else None.

(** The code point of a leading octet and its continuations; overlong forms,
    surrogates and points above 0x10FFFF are refused. *)
Definition code_point (bs : list N) : option N :=
  let ok (lo hi v : N) := if in_range lo hi v && negb (in_range 0xD800 0xDFFF v) then Some v else None in
  let cont c := in_range 0x80 0xBF c in
  match bs with
  | [a; b] => if cont b then ok 0x80%N 0x7FF%N ((a - 0xC0) * 64 + (b - 0x80))%N else None
  | [a; b; c] =>
      if cont b && cont c
      then ok 0x800%N 0xFFFF%N ((a - 0xE0) * 4096 + (b - 0x80) * 64 + (c - 0x80))%N else None
  | [a; b; c; d] =>
      if cont b && cont c && cont d
      then ok 0x10000%N 0x10FFFF%N ((a - 0xF0) * 262144 + (b - 0x80) * 4096 + (c - 0x80) * 64 + (d - 0x80))%N
      else None
  | _ => None
  end.

(** The text of the tokens; [acc] holds the octets of an unfinished code point in
    reverse, [left] how many are missing. *)
Fixpoint decode_tokens (acc : list N) (left : nat) (ts : list uri_token) : res jstr :=
  match left, ts with
  | O, [] => Ok []
  | O, inl c :: ts' => do r <- decode_tokens [] 0 ts'; Ok (c :: r)
  | O, inr b :: ts' =>
      if N.ltb b 0x80 then do r <- decode_tokens [] 0 ts'; Ok (b :: r)
      else match octets_after b with
           | Some k => decode_tokens [b] k ts'
           | None => Throw URIError
           end
  | S k, inr b :: ts' =>
      match k with
      | O => match code_point (rev (b :: acc)) with
             | Some v => do r <- decode_tokens [] 0 ts'; Ok (utf16 v ++ r)
             | None => Throw URIError
             end
      | S _ => decode_tokens (b :: acc) k ts'
      end
  | S _, _ => Throw URIError
  end.

Definition decodeURIComponent (s : jstr) : res jstr :=
  do ts <- uri_tokens s; decode_tokens [] 0 ts.

(** * Decoding undoes encoding *)

#[local] Ltac Zify.zify_post_hook ::= Z.to_euclidean_division_equations.

(** The comparisons of a goal as arithmetic. *)
Ltac n_cases :=
  repeat match goal with
  | |- context [N.ltb ?a ?b] => destruct (N.ltb_spec a b)
  | |- context [N.leb ?a ?b] => destruct (N.leb_spec a b)
  | |- context [N.eqb ?a ?b] => destruct (N.eqb_spec a b)
  end.

Lemma hex_value_digit d : (d < 16)%N -> hex_value (hex_digit d) = Some d.
Proof.
  intros H. unfold hex_value, hex_digit, is_digit, in_range.
  n_cases; cbn; try lia; f_equal; lia.
Qed.

Lemma tokens_octet b s : (b < 256)%N ->
  uri_tokens (escape_octet b ++ s) = do ts <- uri_tokens s; Ok (inr b :: ts).
Proof.
  intros H. unfold escape_octet. cbn [app uri_tokens].
  rewrite N.eqb_refl, (hex_value_digit (b / 16)), (hex_value_digit (b mod 16)) by lia.
  destruct (uri_tokens s); cbn [rbind]; [|done]. do 3 f_equal. lia.
Qed.

Lemma tokens_octets bs s : Forall (fun b => b < 256)%N bs ->
  uri_tokens (concat (escape_octet <$> bs) ++ s) = do ts <- uri_tokens s; Ok ((inr <$> bs) ++ ts).
Proof.
  induction 1 as [|b bs Hb _ IH]; [by cbn; destruct (uri_tokens s)|].
  cbn [fmap list_fmap concat]. rewrite <- app_assoc, tokens_octet by done. rewrite IH.
  by destruct (uri_tokens s).
Qed.

(** Code points that text may contain. *)
Definition scalar (v : N) : Prop := (v < 0x110000)%N /\ in_range 0xD800 0xDFFF v = false.

Lemma utf8_octets v : scalar v -> Forall (fun b => b < 256)%N (utf8 v).
Proof.
  intros [H _]. unfold utf8. n_cases; repeat constructor; lia.
Qed.

Lemma in_range_true lo hi c : (lo <= c)%N -> (c <= hi)%N -> in_range lo hi c = true.
Proof. intros A B. unfold in_range. by rewrite (proj2 (N.leb_le _ _) A), (proj2 (N.leb_le _ _) B). Qed.

Lemma in_range_above lo hi c : (hi < c)%N -> in_range lo hi c = false.
Proof. intros H. unfold in_range. rewrite (proj2 (N.leb_gt c hi) H). apply andb_false_r. Qed.

Lemma cont_octet x : in_range 0x80 0xBF (0x80 + x mod 64) = true.
Proof. assert (H := N.mod_lt x 64 ltac:(done)). apply in_range_true; lia. Qed.

Lemma lead_octet a :
  ((0xC0 <= a)%N -> (a <= 0xDF)%N -> octets_after a = Some 1) /\
  ((0xE0 <= a)%N -> (a <= 0xEF)%N -> octets_after a = Some 2) /\
  ((0xF0 <= a)%N -> (a <= 0xF7)%N -> octets_after a = Some 3).
Proof.
  unfold octets_after. split; [|split]; intros A B.
  - by rewrite in_range_true.
  - by rewrite in_range_above, in_range_true by lia.
  - by rewrite !in_range_above, in_range_true by lia.
Qed.

(** The digits of a point to the base 64. *)
Lemma base64 v : (v = v / 64 * 64 + v mod 64)%N.
Proof. rewrite (N.mul_comm (v / 64)). by apply N.div_mod. Qed.

(** The octets of a point above 0x7F: a leading one and its continuations. *)
Lemma utf8_multi v : scalar v -> (0x80 <= v)%N ->
  exists a bs, utf8 v = a :: bs /\ (0x80 <= a)%N /\ octets_after a = Some (length bs) /\
    bs <> [] /\ code_point (a :: bs) = Some v.
Proof.
  intros [Hv Hs] Hl. unfold utf8. rewrite (proj2 (N.ltb_ge v 0x80) Hl).
  change 4096%N with (64 * 64)%N. change 262144%N with (64 * (64 * 64))%N. rewrite <- !N.Div0.div_div.
  assert (D0 := base64 v). assert (D1 := base64 (v / 64)). assert (D2 := base64 (v / 64 / 64)).
  unfold code_point. cbv zeta.
  destruct (N.ltb_spec v 0x800); [|destruct (N.ltb_spec v 0x10000)].
  all: eexists _, _; split; [reflexivity|]; split; [lia|]; split; [apply lead_octet; lia|]; split; [done|].
  all: rewrite !cont_octet; cbn [andb].
  all: match goal with |- (if in_range _ _ ?x && _ then _ else _) = _ => replace x with v by lia end.
  all: rewrite Hs, in_range_true by lia; done.
Qed.

Lemma decode_rest ts v : forall bs acc k, length bs = S k -> code_point (rev acc ++ bs) = Some v ->
  decode_tokens acc (S k) ((inr <$> bs) ++ ts) = do r <- decode_tokens [] 0 ts; Ok (utf16 v ++ r).
Proof.
  induction bs as [|b bs IH]; intros acc k Hl Hc; [done|]. destruct k as [|k].
  - destruct bs; [|done]. cbn [fmap list_fmap app decode_tokens rev]. by rewrite Hc.
  - change (decode_tokens acc (S (S k)) ((inr <$> b :: bs) ++ ts))
      with (decode_tokens (b :: acc) (S k) ((inr <$> bs) ++ ts)).
    apply IH; [by injection Hl|]. cbn [rev]. by rewrite <- app_assoc.
Qed.

Lemma decode_utf8 v ts : scalar v ->
  decode_tokens [] 0 ((inr <$> utf8 v) ++ ts) = do r <- decode_tokens [] 0 ts; Ok (utf16 v ++ r).
Proof.
  intros S. destruct (N.ltb_spec v 0x80) as [L|L].
  - unfold utf8, utf16. rewrite (proj2 (N.ltb_lt v 0x80) L), (proj2 (N.ltb_lt v 0x10000)) by lia.
    cbn -[N.ltb]. by rewrite (proj2 (N.ltb_lt v 0x80) L).
  - destruct (utf8_multi v S L) as (a & bs & -> & Ha & Ho & Hb & Hc).
    cbn [fmap list_fmap app decode_tokens]. rewrite (proj2 (N.ltb_ge a 0x80) Ha), Ho.
    destruct bs as [|b bs]; [done|]. by apply decode_rest.
Qed.

Lemma decode_point v s : scalar v ->
  decodeURIComponent (escape_point v ++ s) = do r <- decodeURIComponent s; Ok (utf16 v ++ r).
Proof.
  intros S. unfold decodeURIComponent, escape_point. rewrite tokens_octets by by apply utf8_octets.
  destruct (uri_tokens s) as [ts|e]; [|done]. cbn [rbind]. by rewrite decode_utf8.
Qed.

Lemma utf16_pair h l : is_high_surrogate h = true -> is_low_surrogate l = true ->
  scalar (surrogate_pair h l) /\ utf16 (surrogate_pair h l) = [h; l].
Proof.
  unfold is_high_surrogate, is_low_surrogate, scalar, surrogate_pair, utf16, in_range.
  rewrite !andb_true_iff, !N.leb_le. intros [H1 H2] [L1 L2]. split.
  - split; [lia|]. n_cases; first [lia|done].
  - rewrite (proj2 (N.ltb_ge _ _)) by lia. repeat f_equal; lia.
Qed.

Lemma unreserved_not_percent c : unreserved c = true -> N.eqb c (chr "%") = false.
Proof. intros U. apply N.eqb_neq. by intros ->. Qed.

Lemma decode_plain c s : unreserved c = true ->
  decodeURIComponent (c :: s) = do r <- decodeURIComponent s; Ok (c :: r).
Proof.
  intros U. unfold decodeURIComponent. cbn [uri_tokens]. rewrite (unreserved_not_percent c U).
  by destruct (uri_tokens s).
Qed.

(** Code units are below 2^16. *)
Definition units (s : jstr) : Prop := Forall (fun c => c < 0x10000)%N s.

Lemma decode_encode s r : units s -> encodeURIComponent s = Ok r -> decodeURIComponent r = Ok s.
Proof.
  intros U. remember (length s) as k eqn:Hk. assert (Hl : length s <= k) by lia. clear Hk.
  revert s r U Hl. induction k as [|k IH]; intros s r U Hl E; destruct s as [|c s]; cbn in Hl;
    try lia; try (injection E as <-; done).
  apply Forall_cons in U as [Uc U]. cbn [encodeURIComponent] in E.
  destruct (unreserved c) eqn:Hu.
  { apply rbind_Ok in E as (r' & E & [= <-]). rewrite decode_plain, (IH s r') by (done || lia). done. }
  destruct (is_low_surrogate c) eqn:Lo; [done|]. destruct (is_high_surrogate c) eqn:Hi.
  - destruct s as [|d s]; [done|]. destruct (is_low_surrogate d) eqn:Ld; [|done].
    apply rbind_Ok in E as (r' & E & [= <-]). apply Forall_cons in U as [_ U].
    destruct (utf16_pair c d Hi Ld) as [S P]. rewrite decode_point by done.
    cbn in Hl. rewrite (IH s r') by (done || lia). cbn. by rewrite P.
  - apply rbind_Ok in E as (r' & E & [= <-]). assert (S : scalar c).
    { split; [lia|]. unfold is_low_surrogate, is_high_surrogate, in_range in *.
      revert Lo Hi. n_cases; first [lia|done]. }
    rewrite decode_point, (IH s r') by (done || lia). cbn. unfold utf16.
    by rewrite (proj2 (N.ltb_lt c 0x10000)).
Qed.

(** The characters of an encoded text. *)
Definition uri_safe (c : N) : Prop := unreserved c = true \/ c = chr "%".

Lemma hex_digit_safe d : (d < 16)%N -> uri_safe (hex_digit d).
Proof.
  intros H. left. unfold unreserved, is_digit, is_upper, hex_digit.
  destruct (N.ltb_spec d 10); [by rewrite in_range_true by lia|].
  rewrite (in_range_true 65 90), orb_true_r by lia. done.
Qed.

Lemma escape_point_safe v : scalar v -> Forall uri_safe (escape_point v).
Proof.
  intros S. unfold escape_point. induction (utf8_octets v S) as [|b bs Hb _ IH]; [constructor|].
  cbn. constructor; [by right|]. constructor; [|constructor; [|exact IH]]; apply hex_digit_safe; lia.
Qed.

(** Text without lone surrogates can be encoded, and the result is safe. *)
Fixpoint well_formed (s : jstr) : bool :=
  match s with
  | [] => true
  | c :: s' =>
      if is_low_surrogate c then false
      else if is_high_surrogate c then
        match s' with d :: s'' => is_low_surrogate d && well_formed s'' | [] => false end
      else N.ltb c 0x10000 && well_formed s'
  end.

Lemma unreserved_ascii c : unreserved c = true -> (c < 0x80)%N.
Proof.
  unfold unreserved, is_digit, is_upper, is_lower, in_range. rewrite !orb_true_iff, !andb_true_iff, !N.leb_le.
  rewrite bool_decide_eq_true. intros [[[[_ H]|[_ H]]|[_ H]]|H]; [lia..|].
  revert c H. apply Forall_forall. repeat constructor.
Qed.

Lemma surrogate_not_unreserved c :
  is_low_surrogate c = true \/ is_high_surrogate c = true -> unreserved c = false.
Proof.
  intros H. apply not_true_is_false. intros U%unreserved_ascii.
  unfold is_low_surrogate, is_high_surrogate, in_range in H.
  rewrite !andb_true_iff, !N.leb_le in H. lia.
Qed.

Lemma encode_total s : well_formed s = true ->
  exists r, encodeURIComponent s = Ok r /\ Forall uri_safe r /\ units s.
Proof.
  remember (length s) as k eqn:Hk. assert (Hl : length s <= k) by lia. clear Hk.
  revert s Hl. induction k as [|k IH]; intros s Hl W; destruct s as [|c s]; cbn in Hl; try lia;
    try (by exists []; repeat constructor).
  cbn [well_formed encodeURIComponent] in *.
  destruct (is_low_surrogate c) eqn:Lo; [done|]. destruct (is_high_surrogate c) eqn:Hi.
  - destruct s as [|d s]; [done|]. apply andb_true_iff in W as [Ld W]. cbn in Hl.
    destruct (IH s ltac:(lia) W) as (r & -> & F & U). destruct (utf16_pair c d Hi Ld) as [S _].
    rewrite surrogate_not_unreserved by auto. rewrite Ld. cbn [rbind]. eexists. split; [done|].
    split; [apply Forall_app; split; [by apply escape_point_safe|done]|].
    unfold is_high_surrogate, is_low_surrogate, in_range in Hi, Ld.
    rewrite andb_true_iff, !N.leb_le in Hi, Ld. constructor; [lia|]. constructor; [lia|done].
  - apply andb_true_iff in W as [Hc%N.ltb_lt W]. destruct (IH s ltac:(lia) W) as (r & -> & F & U).
    assert (S : scalar c).
    { split; [lia|]. unfold is_low_surrogate, is_high_surrogate, in_range in *.
      revert Lo Hi. n_cases; first [lia|done]. }
    destruct (unreserved c) eqn:Hu; cbn [rbind]; eexists; (split; [done|]); (split; [|by constructor]).
    + constructor; [by left|done].
    + apply Forall_app. split; [by apply escape_point_safe|done].
Qed.

(** A text survives encoding and decoding. *)
Lemma decode_encode_wf s : well_formed s = true ->
  exists r, encodeURIComponent s = Ok r /\ Forall uri_safe r /\ decodeURIComponent r = Ok s.
Proof.
  intros W. destruct (encode_total s W) as (r & E & F & U). exists r. split; [done|]. split; [done|].
  by apply (decode_encode s).
Qed.

End Uri.
