(* ===== verification/JsCore.v ===== *)
(** The part of the JavaScript language that [underscore.js] and the parts of
    [jquery.js] modelled here are written in: values, numbers, property keys,
    objects in a heap, and a state-and-exception monad with property access,
    conversions and the loops of the sources.

    Numbers are NaN, the infinities, the two zeros and the integers: indices,
    lengths, counters and times.  Fractions and the rounding of integers above
    2^53 are left out.  Objects have data properties only (no accessors, no
    proxies), with their enumerability; assigning to the name [__proto__] is an
    ordinary assignment here, and lengths stay below 2^32. *)

From Stdlib Require Import QArith_base Qround.
From S2P Require Import Prelude.

(** * Numbers *)

Inductive num : Type := NaN | PInf | NInf | NZero | Int (z : Z).

#[global] Instance num_eq_dec : EqDecision num.
Proof. solve_decision. Defined.

(** The mathematical value of a finite number. *)
Definition num_fin (n : num) : option Z :=
  match n with NZero => Some 0%Z | Int z => Some z | _ => None end.

(** [a === b] on numbers *)
Definition num_eqb (a b : num) : bool :=
  match a, b with
  | NaN, _ | _, NaN => false
  | PInf, PInf | NInf, NInf => true
  | _, _ => match num_fin a, num_fin b with Some x, Some y => Z.eqb x y | _, _ => false end
  end.

(** [a < b] on numbers *)
Definition num_ltb (a b : num) : bool :=
  match a, b with
  | NaN, _ | _, NaN => false
  | NInf, NInf | PInf, _ | _, NInf => false
  | NInf, _ | _, PInf => true
  | _, _ => match num_fin a, num_fin b with Some x, Some y => Z.ltb x y | _, _ => false end
  end.

(** [a <= b] on numbers *)
Definition num_leb (a b : num) : bool := num_ltb a b || num_eqb a b.

Definition num_neg (a : num) : num :=
  match a with
  | NaN => NaN | PInf => NInf | NInf => PInf
  | NZero => Int 0
  | Int z => if Z.eqb z 0 then NZero else Int (- z)
  end.

Definition num_add (a b : num) : num :=
  match a, b with
  | NaN, _ | _, NaN => NaN
  | PInf, NInf | NInf, PInf => NaN
  | PInf, _ | _, PInf => PInf
  | NInf, _ | _, NInf => NInf
  | NZero, NZero => NZero
  | NZero, Int z | Int z, NZero => Int z
  | Int x, Int y => Int (x + y)
  end.

Definition num_sub (a b : num) : num := num_add a (num_neg b).

(** [Math.max(a, b)] and [Math.min(a, b)] *)
Definition num_max (a b : num) : num :=
  match a, b with
  | NaN, _ | _, NaN => NaN
  | NZero, NZero => NZero
  | _, _ => if num_ltb a b then b else if num_eqb a b then (match a with NZero => b | _ => a end) else a
  end.

Definition num_min (a b : num) : num :=
  match a, b with
  | NaN, _ | _, NaN => NaN
  | _, _ => if num_ltb b a then b else if num_eqb a b then (match b with NZero => b | _ => a end) else a
  end.

(** [Math.ceil(a / b)]; the quotient itself may be a fraction. *)
Definition num_ceil_div (a b : num) : num :=
  match a, b with
  | NaN, _ | _, NaN => NaN
  | PInf, PInf | PInf, NInf | NInf, PInf | NInf, NInf => NaN
  | PInf, NZero => NInf
  | NInf, NZero => PInf
  | PInf, Int y => if Z.ltb y 0 then NInf else PInf
  | NInf, Int y => if Z.ltb y 0 then PInf else NInf
  | Int x, PInf => if Z.ltb 0 x then Int 1 else if Z.eqb x 0 then Int 0 else NZero
  | Int x, NInf => if Z.ltb x 0 then Int 1 else NZero
  | NZero, PInf => NZero
  | NZero, NInf => Int 0
  | NZero, NZero => NaN
  | NZero, Int y => if Z.eqb y 0 then NaN else if Z.ltb y 0 then Int 0 else NZero
  | Int x, NZero => if Z.eqb x 0 then NaN else if Z.ltb x 0 then PInf else NInf
  | Int x, Int y =>
      if Z.eqb y 0 then (if Z.eqb x 0 then NaN else if Z.ltb x 0 then NInf else PInf)
      else let c := (- ((- x) / y))%Z in
           if Z.eqb c 0
           then (if Z.eqb x 0 then (if Z.ltb y 0 then NZero else Int 0) else NZero)
           else Int c
  end.

(** [1 / a === 1 / b]: zeros of different signs differ, the infinities agree. *)
Definition inv_eqb (a b : num) : bool :=
  match a, b with
  | NaN, _ | _, NaN => false
  | (PInf | NInf), (PInf | NInf) => true
  | _, _ => bool_decide (a = b)
  end.

Definition num_to_str (n : num) : jstr :=
  match n with
  | NaN => js "NaN" | PInf => js "Infinity" | NInf => js "-Infinity"
  | NZero => js "0" | Int z => Z_to_jstr z
  end.

(** The value of a string of decimal digits. *)
Fixpoint digits_val (s : jstr) (acc : N) : option N :=
  match s with
  | [] => Some acc
  | c :: s' => if is_digit c then digits_val s' (10 * acc + (c - 48))%N else None
  end.

Definition nat_of_str (s : jstr) : option nat :=
  match s with [] => None | _ => N.to_nat <$> digits_val s 0 end.

(** [Number(s)]: the integers, the empty string and the infinities; the
    numerals with a fraction, an exponent or a radix prefix are left out. *)
Definition str_to_num (s : jstr) : num :=
  match trim s with
  | [] => Int 0
  | (c :: s') as t =>
      if bool_decide (t = js "Infinity" \/ t = js "+Infinity") then PInf
      else if bool_decide (t = js "-Infinity") then NInf
      else if N.eqb c (chr "-") then
        match nat_of_str s' with
        | Some 0 => NZero | Some n => Int (- Z.of_nat n) | None => NaN
        end
      else if N.eqb c (chr "+") then
        match nat_of_str s' with Some n => Int (Z.of_nat n) | None => NaN end
      else match nat_of_str t with Some n => Int (Z.of_nat n) | None => NaN end
  end.

(** * Values and property keys *)

Abbreviation loc := positive.

Inductive value : Type :=
| VUndef
| VNull
| VBool (b : bool)
| VNum (n : num)
| VStr (s : jstr)
| VSym (y : positive)
| VRef (l : loc).

#[global] Instance value_eq_dec : EqDecision value.
Proof. solve_decision. Defined.

(** A property key; a canonical array index is kept as a number. *)
Inductive key : Type :=
| KIdx (n : nat)
| KStr (s : jstr)
| KSym (y : positive).

#[global] Instance key_eq_dec : EqDecision key.
Proof. solve_decision. Defined.

Definition key_of_str (s : jstr) : key :=
  match nat_of_str s with
  | Some n => if bool_decide (N_to_jstr (N.of_nat n) = s) then KIdx n else KStr s
  | None => KStr s
  end.

Definition key_to_value (k : key) : value :=
  match k with
  | KIdx n => VStr (N_to_jstr (N.of_nat n))
  | KStr s => VStr s
  | KSym y => VSym y
  end.

(** The number of an index or a length. *)
Definition VNat (n : nat) : value := VNum (Int (Z.of_nat n)).

(** [v == null] *)
Definition is_nullish (v : value) : bool :=
  match v with VUndef | VNull => true | _ => false end.

(** The value of [!!v]. *)
Definition truthy (v : value) : bool :=
  match v with
  | VUndef | VNull => false
  | VBool b => b
  | VNum n => negb (bool_decide (n = NaN \/ n = NZero \/ n = Int 0))
  | VStr s => negb (bool_decide (s = []))
  | VSym _ | VRef _ => true
  end.

(** [v === w] *)
Definition strict_eq (v w : value) : bool :=
  match v, w with
  | VNum a, VNum b => num_eqb a b
  | _, _ => bool_decide (v = w)
  end.

(** Code unit order of strings, [s < t]. *)
Fixpoint str_ltb (s t : jstr) : bool :=
  match s, t with
  | [], [] => false
  | [], _ :: _ => true
  | _ :: _, [] => false
  | x :: s', y :: t' => N.ltb x y || (N.eqb x y && str_ltb s' t')
  end.

(** * Objects *)

Inductive class : Type :=
| CObject | CArray | CFunction | CArguments | CString | CNumber | CBoolean | CSymbol
| CDate | CRegExp | CError | CMap | CWeakMap | CSet | CWeakSet | CArrayBuffer | CDataView
| CTyped (name : jstr).        (** a typed array, such as [Uint8Array] *)

#[global] Instance class_eq_dec : EqDecision class.
Proof. solve_decision. Defined.

Definition class_name (c : class) : jstr :=
  match c with
  | CObject => js "Object" | CArray => js "Array" | CFunction => js "Function"
  | CArguments => js "Arguments" | CString => js "String" | CNumber => js "Number"
  | CBoolean => js "Boolean" | CSymbol => js "Symbol" | CDate => js "Date"
  | CRegExp => js "RegExp" | CError => js "Error" | CMap => js "Map"
  | CWeakMap => js "WeakMap" | CSet => js "Set" | CWeakSet => js "WeakSet"
  | CArrayBuffer => js "ArrayBuffer" | CDataView => js "DataView"
  | CTyped name => name
  end.

Record prop := { p_val : value; p_enum : bool }.

(** An object: its class, its prototype, the indexed elements of an array,
    arguments object, typed array or buffer ([None] is a hole), its other own
    properties in creation order, and its internal data: the wrapped primitive,
    the time of a date, the text of a regular expression. *)
Record obj := {
  o_class : class;
  o_proto : option loc;
  o_elems : list (option value);
  o_props : list (key * prop);
  o_data : value;
}.

Definition with_elems (o : obj) (es : list (option value)) : obj :=
  {| o_class := o_class o; o_proto := o_proto o; o_elems := es;
     o_props := o_props o; o_data := o_data o |}.

Definition with_props (o : obj) (ps : list (key * prop)) : obj :=
  {| o_class := o_class o; o_proto := o_proto o; o_elems := o_elems o;
     o_props := ps; o_data := o_data o |}.

(** Classes whose indexed properties are [o_elems] and that have a [length]. *)
Definition indexed (c : class) : bool :=
  match c with CArray | CArguments | CTyped _ => true | _ => false end.

Fixpoint assoc_get (ps : list (key * prop)) (k : key) : option prop :=
  match ps with
  | [] => None
  | (k', p) :: ps' => if bool_decide (k = k') then Some p else assoc_get ps' k
  end.

Fixpoint assoc_put (ps : list (key * prop)) (k : key) (v : value) : list (key * prop) :=
  match ps with
  | [] => [(k, {| p_val := v; p_enum := true |})]
  | (k', p) :: ps' =>
      if bool_decide (k = k') then (k', {| p_val := v; p_enum := p_enum p |}) :: ps'
      else (k', p) :: assoc_put ps' k v
  end.

Definition assoc_del (ps : list (key * prop)) (k : key) : list (key * prop) :=
  base.filter (fun kp => kp.1 <> k) ps.

Definition length_key : key := KStr (js "length").

(** The characters of a string primitive or wrapper. *)
Definition str_own (s : jstr) (k : key) : option value :=
  match k with
  | KIdx n => (fun c => VStr [c]) <$> (s !! n)
  | _ => if bool_decide (k = length_key) then Some (VNat (length s)) else None
  end.

(** The own property [k] of an object. *)
Definition own_get (o : obj) (k : key) : option value :=
  if indexed (o_class o) then
    match k with
    | KIdx n => mjoin (o_elems o !! n)
    | _ => if bool_decide (k = length_key) then Some (VNat (length (o_elems o)))
           else p_val <$> assoc_get (o_props o) k
    end
  else
    match (match o_data o with
           | VStr s => if bool_decide (o_class o = CString) then str_own s k else None
           | _ => None
           end) with
    | Some v => Some v
    | None => p_val <$> assoc_get (o_props o) k
    end.

(** The indices of the elements that are present. *)
Fixpoint present (es : list (option value)) (i : nat) : list key :=
  match es with
  | [] => []
  | Some _ :: es' => KIdx i :: present es' (S i)
  | None :: es' => present es' (S i)
  end.

Fixpoint insert_index (n : nat) (l : list nat) : list nat :=
  match l with
  | [] => [n]
  | m :: l' => if Nat.leb n m then n :: l else m :: insert_index n l'
  end.

Definition index_keys (ps : list (key * prop)) : list nat :=
  foldr insert_index [] (omap (fun kp => match kp.1 with
                                      | KIdx n => if p_enum kp.2 then Some n else None
                                      | _ => None end) ps).

Definition string_keys (ps : list (key * prop)) : list key :=
  omap (fun kp => match kp.1 with
                  | KStr s => if p_enum kp.2 then Some (KStr s) else None
                  | _ => None end) ps.

(** The enumerable own keys in the order of the language: indices first. *)
Definition own_keys (o : obj) : list key :=
  present (o_elems o) 0
  ++ match o_data o with
     | VStr s => if bool_decide (o_class o = CString) then KIdx <$> seq 0 (length s) else []
     | _ => []
     end
  ++ (KIdx <$> index_keys (o_props o)) ++ string_keys (o_props o).

(** The elements after a write at index [n]; an array grows, with holes. *)
Definition elems_put (es : list (option value)) (n : nat) (v : value) : list (option value) :=
  if Nat.ltb n (length es) then <[n := Some v]> es
  else es ++ replicate (n - length es) None ++ [Some v].

(** [o[k] = v] on an object without a setter for [k].  Writing [length] cuts or
    extends an array. *)
Definition own_put (o : obj) (k : key) (v : value) : obj :=
  match o_class o, k with
  | (CArray | CArguments), KIdx n => with_elems o (elems_put (o_elems o) n v)
  | CTyped _, KIdx n => with_elems o (<[n := Some v]> (o_elems o))
  | CTyped _, _ =>
      if bool_decide (k = length_key) then o else with_props o (assoc_put (o_props o) k v)
  | CString, _ =>
      match o_data o with
      | VStr s => match str_own s k with
                  | Some _ => o
                  | None => with_props o (assoc_put (o_props o) k v)
                  end
      | _ => with_props o (assoc_put (o_props o) k v)
      end
  | CArray, _ =>
      if bool_decide (k = length_key) then
        match v with
        | VNum n => match num_fin n with
                    | Some z => with_elems o (resize (Z.to_nat z) None (o_elems o))
                    | None => o
                    end
        | _ => o
        end
      else with_props o (assoc_put (o_props o) k v)
  | _, _ => with_props o (assoc_put (o_props o) k v)
  end.

Definition own_del (o : obj) (k : key) : obj :=
  match k with
  | KIdx n => if indexed (o_class o) then with_elems o (<[n := None]> (o_elems o))
              else with_props o (assoc_del (o_props o) k)
  | _ => with_props o (assoc_del (o_props o) k)
  end.

(** * State and effects *)

Inductive throwable : Type :=
| ThrowError (e : exn)          (** an error of the language or of the sources *)
| ThrowValue (v : value).       (** a value thrown by a caller's function *)

Inductive outcome (A : Type) : Type :=
| Done (a : A)
| Exc (e : throwable)
| NoFuel.                       (** the computation was not followed to its end *)
Arguments Done {A} a.
Arguments Exc {A} e.
Arguments NoFuel {A}.

(** The heap, the number of random numbers drawn so far, and [idCounter]. *)
Record state := { heap : gmap loc obj; rnd : nat; ids : nat }.

Definition M (A : Type) : Type := state -> outcome A * state.

#[global] Instance M_ret : MRet M := fun A a s => (Done a, s).
#[global] Instance M_bind : MBind M := fun A B f m s =>
  match m s with
  | (Done a, s') => f a s'
  | (Exc e, s') => (Exc e, s')
  | (NoFuel, s') => (NoFuel, s')
  end.

Definition throw {A} (e : exn) : M A := fun s => (Exc (ThrowError e), s).
Definition diverge {A} : M A := fun s => (NoFuel, s).
Definition get_heap : M (gmap loc obj) := fun s => (Done (heap s), s).
Definition set_heap (h : gmap loc obj) : M unit := fun s =>
  (Done tt, {| heap := h; rnd := rnd s; ids := ids s |}).

(** Lifting of the result type without state. *)
Definition of_res {A} (r : res A) : M A :=
  match r with Ok a => mret a | Throw e => throw e end.

(** What the engine provides: the prototypes of the built-in classes and the
    sequence of random numbers [Math.random()] answers. *)
Class Realm : Type := {
  ObjProto : loc;
  ArrayProto : loc;
  FunctionProto : loc;
  StringProto : loc;
  NumberProto : loc;
  BooleanProto : loc;
  SymbolProto : loc;
  Math_random : nat -> Q;
}.

(** A new object at an unused location. *)
Definition alloc (o : obj) : M value := fun s =>
  let l := fresh (dom (heap s)) in
  (Done (VRef l), {| heap := <[l := o]> (heap s); rnd := rnd s; ids := ids s |}).

(** ** Loops *)

(** The body of a loop goes on with new local variables or returns. *)
Inductive loop (A R : Type) : Type := Continue (a : A) | Return (r : R).
Arguments Continue {A R} a.
Arguments Return {A R} r.

(** [for (; i < i + n; i++) body], with a fixed number [n] of rounds. *)
Fixpoint for_up {A R} (n i : nat) (body : nat -> A -> M (loop A R)) (a : A) : M (loop A R) :=
  match n with
  | O => mret (Continue a)
  | S n' => r ← body i a;
            match r with
            | Continue a' => for_up n' (S i) body a'
            | Return v => mret (Return v)
            end
  end.

(** [while (n--) body(n)] *)
Fixpoint for_down {A R} (n : nat) (body : nat -> A -> M (loop A R)) (a : A) : M (loop A R) :=
  match n with
  | O => mret (Continue a)
  | S n' => r ← body n' a;
            match r with
            | Continue a' => for_down n' body a'
            | Return v => mret (Return v)
            end
  end.

(** A loop that never returns early. *)
Fixpoint iter_up {A} (n i : nat) (body : nat -> A -> M A) (a : A) : M A :=
  match n with
  | O => mret a
  | S n' => a' ← body i a; iter_up n' (S i) body a'
  end.

Fixpoint foldM {A B} (f : A -> B -> M A) (a : A) (l : list B) : M A :=
  match l with
  | [] => mret a
  | x :: l' => a' ← f a x; foldM f a' l'
  end.

Section language.
Context `{Realm}.

(** The behaviour of the functions in the heap: function, [this], arguments. *)
Variable call : loc -> value -> list value -> M value.

(** ** Property access *)

(** The property [k] along a prototype chain of at most [fuel] objects; the
    chains of the language are free of cycles, so the number of objects is enough. *)
Fixpoint chain_get (h : gmap loc obj) (fuel : nat) (l : loc) (k : key) : option value :=
  match fuel with
  | O => None
  | S fuel' =>
      match h !! l with
      | None => None
      | Some o => match own_get o k with
                  | Some v => Some v
                  | None => match o_proto o with Some p => chain_get h fuel' p k | None => None end
                  end
      end
  end.

Definition obj_lookup (h : gmap loc obj) (l : loc) (k : key) : option value :=
  chain_get h (S (size h)) l k.

Definition or_undef (o : option value) : value := match o with Some v => v | None => VUndef end.

(** [v[k]] *)
Definition get_prop (v : value) (k : key) : M value :=
  h ← get_heap;
  match v with
  | VUndef | VNull => throw TypeError
  | VRef l => mret (or_undef (obj_lookup h l k))
  | VStr s => mret (match str_own s k with
                    | Some c => c
                    | None => or_undef (obj_lookup h StringProto k)
                    end)
  | VNum _ => mret (or_undef (obj_lookup h NumberProto k))
  | VBool _ => mret (or_undef (obj_lookup h BooleanProto k))
  | VSym _ => mret (or_undef (obj_lookup h SymbolProto k))
  end.

Definition get_str (v : value) (name : string) : M value := get_prop v (KStr (js name)).
Definition get_idx (v : value) (i : nat) : M value := get_prop v (KIdx i).

(** [v[k] = w] in sloppy mode: nothing happens on a primitive. *)
Definition put_prop (v : value) (k : key) (w : value) : M unit :=
  match v with
  | VUndef | VNull => throw TypeError
  | VRef l => h ← get_heap;
              match h !! l with
              | Some o => set_heap (<[l := own_put o k w]> h)
              | None => mret tt
              end
  | _ => mret tt
  end.

(** [delete v[k]] *)
Definition del_prop (v : value) (k : key) : M unit :=
  match v with
  | VUndef | VNull => throw TypeError
  | VRef l => h ← get_heap;
              match h !! l with
              | Some o => set_heap (<[l := own_del o k]> h)
              | None => mret tt
              end
  | _ => mret tt
  end.

(** [hasOwnProperty.call(v, k)] *)
Definition has_own (v : value) (k : key) : M bool :=
  h ← get_heap;
  match v with
  | VUndef | VNull => throw TypeError
  | VRef l => mret (match h !! l with
                    | Some o => bool_decide (is_Some (own_get o k))
                    | None => false
                    end)
  | VStr s => mret (bool_decide (is_Some (str_own s k)))
  | _ => mret false
  end.

(** [k in v] *)
Definition in_obj (k : key) (v : value) : M bool :=
  match v with
  | VRef l => h ← get_heap; mret (bool_decide (is_Some (obj_lookup h l k)))
  | _ => throw TypeError
  end.

(** [Object.keys(v)] for an object, as keys *)
Definition own_keys_of (h : gmap loc obj) (v : value) : list key :=
  match v with
  | VRef l => match h !! l with Some o => own_keys o | None => [] end
  | _ => []
  end.

(** The keys of [for (key in v)]: own ones, then the inherited ones that are not
    shadowed by a property seen before. *)
Fixpoint chain_keys (h : gmap loc obj) (fuel : nat) (l : loc) (shadow : list key) : list key :=
  match fuel with
  | O => []
  | S fuel' =>
      match h !! l with
      | None => []
      | Some o =>
          let mine := base.filter (fun k => k ∉ shadow) (own_keys o) in
          mine ++ match o_proto o with
                  | Some p => chain_keys h fuel' p (shadow ++ own_keys o ++ (o_props o).*1)
                  | None => []
                  end
      end
  end.

Definition for_in_keys (h : gmap loc obj) (v : value) : list key :=
  match v with
  | VRef l => chain_keys h (S (size h)) l []
  | VStr s => KIdx <$> seq 0 (length s)
  | _ => []
  end.

(** ** Types *)

Definition class_of (h : gmap loc obj) (l : loc) : class :=
  match h !! l with Some o => o_class o | None => CObject end.

Definition is_callable (h : gmap loc obj) (v : value) : bool :=
  match v with VRef l => bool_decide (class_of h l = CFunction) | _ => false end.

Definition typeof (h : gmap loc obj) (v : value) : jstr :=
  match v with
  | VUndef => js "undefined" | VNull => js "object" | VBool _ => js "boolean"
  | VNum _ => js "number" | VStr _ => js "string" | VSym _ => js "symbol"
  | VRef _ => if is_callable h v then js "function" else js "object"
  end.

(** The class of a value after [Object(v)]. *)
Definition value_class (h : gmap loc obj) (v : value) : jstr :=
  match v with
  | VUndef => js "Undefined" | VNull => js "Null" | VBool _ => js "Boolean"
  | VNum _ => js "Number" | VStr _ => js "String" | VSym _ => js "Symbol"
  | VRef l => class_name (class_of h l)
  end.

(** [Object.prototype.toString.call(v)] *)
Definition toString_tag (h : gmap loc obj) (v : value) : jstr :=
  js "[object " ++ value_class h v ++ js "]".

(** [f.call(this, args...)], a TypeError when [f] is no function *)
Definition call_value (f this : value) (args : list value) : M value :=
  h ← get_heap;
  match f with
  | VRef l => if is_callable h f then call l this args else throw TypeError
  | _ => throw TypeError
  end.

(** Does the prototype chain of [l] contain [p]? *)
Fixpoint in_chain (h : gmap loc obj) (fuel : nat) (l : loc) (p : loc) : bool :=
  match fuel with
  | O => false
  | S fuel' => match h !! l with
               | Some o => match o_proto o with
                           | Some q => bool_decide (q = p) || in_chain h fuel' q p
                           | None => false
                           end
               | None => false
               end
  end.

(** [v instanceof f] *)
Definition instanceof (v f : value) : M bool :=
  h ← get_heap;
  if is_callable h f then
    match v with
    | VRef l => p ← get_str f "prototype";
                match p with
                | VRef pl => mret (in_chain h (S (size h)) l pl)
                | _ => throw TypeError
                end
    | _ => mret false
    end
  else throw TypeError.

(** ** Conversions *)

Inductive hint := HintDefault | HintNumber | HintString.

Definition is_object (v : value) : bool := match v with VRef _ => true | _ => false end.

Definition try_method (l : loc) (name : string) : M (option value) :=
  m ← get_str (VRef l) name;
  h ← get_heap;
  if is_callable h m then
    v ← call_value m (VRef l) [];
    mret (if is_object v then None else Some v)
  else mret None.

(** OrdinaryToPrimitive: [valueOf] and [toString] in the order of the hint. *)
Definition to_prim (hn : hint) (v : value) : M value :=
  match v with
  | VRef l =>
      h ← get_heap;
      let str_first := match hn with
                       | HintString => true
                       | HintNumber => false
                       | HintDefault => bool_decide (class_of h l = CDate)
                       end in
      let '(m1, m2) := if str_first then ("toString", "valueOf") else ("valueOf", "toString") in
      r1 ← try_method l m1;
      match r1 with
      | Some p => mret p
      | None => r2 ← try_method l m2;
                match r2 with Some p => mret p | None => throw TypeError end
      end
  | _ => mret v
  end.

Definition prim_to_num (v : value) : res num :=
  match v with
  | VUndef => Ok NaN
  | VNull => Ok (Int 0)
  | VBool b => Ok (Int (if b then 1 else 0))
  | VNum n => Ok n
  | VStr s => Ok (str_to_num s)
  | VSym _ | VRef _ => Throw TypeError
  end.

Definition prim_to_str (v : value) : res jstr :=
  match v with
  | VUndef => Ok (js "undefined")
  | VNull => Ok (js "null")
  | VBool b => Ok (if b then js "true" else js "false")
  | VNum n => Ok (num_to_str n)
  | VStr s => Ok s
  | VSym _ | VRef _ => Throw TypeError
  end.

(** [+v], [String(v)] and [v] as a property key *)
Definition to_num (v : value) : M num := p ← to_prim HintNumber v; of_res (prim_to_num p).
Definition to_str (v : value) : M jstr := p ← to_prim HintString v; of_res (prim_to_str p).

(** [a + b] when one side is a string: the other is converted by its default hint. *)
Definition concat_str (v : value) : M jstr := p ← to_prim HintDefault v; of_res (prim_to_str p).

Definition prim_to_key (v : value) : res key :=
  match v with
  | VNum (Int z) => Ok (if Z.leb 0 z then KIdx (Z.to_nat z) else KStr (Z_to_jstr z))
  | VNum NZero => Ok (KIdx 0)
  | VSym y => Ok (KSym y)
  | _ => rmap key_of_str (prim_to_str v)
  end.

Definition to_key (v : value) : M key := p ← to_prim HintString v; of_res (prim_to_key p).

(** [v[w]] and [v[w] = u] with a computed key *)
Definition get_val (v w : value) : M value :=
  if is_nullish v then throw TypeError else k ← to_key w; get_prop v k.
Definition put_val (v w u : value) : M unit :=
  if is_nullish v then throw TypeError else k ← to_key w; put_prop v k u.

(** [a < b] on primitives *)
Definition prim_lt (a b : value) : res bool :=
  match a, b with
  | VStr s, VStr t => Ok (str_ltb s t)
  | _, _ => do x <- prim_to_num a; do y <- prim_to_num b; Ok (num_ltb x y)
  end.

(** [a < b] and [a > b]; both convert the left operand first. *)
Definition js_lt (a b : value) : M bool :=
  p ← to_prim HintNumber a; q ← to_prim HintNumber b; of_res (prim_lt p q).
Definition js_gt (a b : value) : M bool :=
  p ← to_prim HintNumber a; q ← to_prim HintNumber b; of_res (prim_lt q p).

(** The number of rounds of [for (i = 0; i < v; i++)]; the bound is converted
    once, an infinite bound never ends. *)
Definition rounds (v : value) : M nat :=
  n ← to_num v;
  match n with
  | PInf => diverge
  | _ => mret (match num_fin n with Some z => Z.to_nat z | None => 0 end)
  end.

(** ** Built-in objects *)

Definition new_array (es : list (option value)) : M value :=
  alloc {| o_class := CArray; o_proto := Some ArrayProto; o_elems := es; o_props := [];
           o_data := VUndef |}.

Definition array_of (vs : list value) : M value := new_array (Some <$> vs).

Definition new_object (ps : list (key * prop)) : M value :=
  alloc {| o_class := CObject; o_proto := Some ObjProto; o_elems := []; o_props := ps;
           o_data := VUndef |}.

Definition new_wrapper (c : class) (p : loc) (v : value) : M value :=
  alloc {| o_class := c; o_proto := Some p; o_elems := []; o_props := []; o_data := v |}.

(** [Object(v)] *)
Definition to_object (v : value) : M value :=
  match v with
  | VUndef | VNull => new_object []
  | VBool _ => new_wrapper CBoolean BooleanProto v
  | VNum _ => new_wrapper CNumber NumberProto v
  | VStr _ => new_wrapper CString StringProto v
  | VSym _ => new_wrapper CSymbol SymbolProto v
  | VRef _ => mret v
  end.

(** The length of an array-like value, ToLength([v.length]). *)
Definition length_of (v : value) : M nat :=
  lv ← get_prop v length_key;
  n ← to_num lv;
  match n with
  | PInf => diverge
  | _ => mret (match num_fin n with Some z => Z.to_nat z | None => 0 end)
  end.

(** A relative index of [slice]: negative ones count from the end. *)
Definition rel_index (n : num) (len : nat) : nat :=
  match n with
  | NaN | NInf | NZero => 0
  | PInf => len
  | Int z => if Z.ltb z 0 then Z.to_nat (Z.of_nat len + z) else Nat.min (Z.to_nat z) len
  end.

(** The present elements [i], [i+1], ... of an array-like value, holes kept. *)
Fixpoint read_elems (v : value) (i n : nat) : M (list (option value)) :=
  match n with
  | O => mret []
  | S n' =>
      b ← in_obj (KIdx i) v;
      x ← (if b : bool then get_idx v i else mret VUndef);
      rest ← read_elems v (S i) n';
      mret ((if b : bool then Some x else None) :: rest)
  end.

(** [slice.call(v, start, end)] *)
Definition array_slice (v : value) (start : num) (end_ : option num) : M value :=
  if is_nullish v then throw TypeError else
  o ← to_object v;
  len ← length_of o;
  let i := rel_index start len in
  let j := match end_ with Some e => rel_index e len | None => len end in
  es ← read_elems o i (j - i);
  new_array es.

(** The elements of an array-like value as arguments, holes read as undefined. *)
Fixpoint read_args (v : value) (i n : nat) : M (list value) :=
  match n with
  | O => mret []
  | S n' => x ← get_idx v i; rest ← read_args v (S i) n'; mret (x :: rest)
  end.

(** The list of the arguments in an array built by the library itself. *)
Definition list_of (v : value) : M (list value) :=
  n ← length_of v; read_args v 0 n.

(** [a.push(v)] on an array *)
Definition array_push (a v : value) : M unit :=
  n ← length_of a; put_prop a (KIdx n) v.

End language.
