(* ===== verification/UsObjects.v ===== *)
(** Types, objects, properties and callbacks of [underscore.js] (lines 36 to 980).

    The code runs on the values and the heap of [JsCore].  A local array that the
    source fills and that no other code can see is a list until it is returned;
    a function value made and used inside the library is a Rocq function from the
    list of its arguments.  [Engine] holds the outcomes of the feature detection
    at load time and the two hooks a caller may replace. *)

From Stdlib Require Import QArith_base Qround.
From S2P Require Import Prelude Regex JsCore.

Class Engine : Type := {
  nativeIsArray : bool;          (** [Array.isArray] exists *)
  nativeKeys : bool;             (** [Object.keys] exists *)
  nativeCreate : bool;           (** [Object.create] exists *)
  nativeIsView : bool;           (** [ArrayBuffer.isView] exists *)
  supportsArrayBuffer : bool;
  hasEnumBug : bool;
  hasStringTagBug : bool;
  isIE11 : bool;
  argumentsTag : bool;           (** arguments objects have their own tag *)
  typeofFunctions : bool;        (** [typeof] is reliable for functions *)
  us : loc;                      (** the function [_] *)
  customIteratee : option loc;   (** [_.iteratee] when a caller replaced it *)
  customToPath : option loc;     (** [_.toPath] when a caller replaced it *)
}.

Module UsObjects.

(** The largest integer that can be represented exactly. *)
Definition MAX_ARRAY_INDEX : Z := 2 ^ 53 - 1.

Definition nonEnumerableProps : list jstr :=
  [js "valueOf"; js "isPrototypeOf"; js "toString"; js "propertyIsEnumerable";
   js "hasOwnProperty"; js "toLocaleString"].

(** A callback made inside the library. *)
Abbreviation cbk := (list value -> M value).
(** A function of the library with [this] and its arguments. *)
Abbreviation fn := (value -> list value -> M value).

Definition arg (args : list value) (i : nat) : value := or_undef (args !! i).

Section underscore.
Context `{Realm} `{Engine}.
Variable call : loc -> value -> list value -> M value.

(** The [rest] array of [restArguments] collects the arguments from [startIndex]. *)
Definition restArguments (func : fn) (startIndex : nat) : fn := fun this args =>
  let len := Nat.max (length args - startIndex) 0 in
  rest ← array_of ((fun index => arg args (index + startIndex)) <$> seq 0 len);
  func this (((fun index => arg args index) <$> seq 0 startIndex) ++ [rest]).

(** ** Types *)

Definition isObject (h : gmap loc obj) (v : value) : bool :=
  let type := typeof h v in
  bool_decide (type = js "function") || (bool_decide (type = js "object") && truthy v).

Definition isNull (v : value) : bool := strict_eq v VNull.

Definition isUndefined (v : value) : bool := strict_eq v VUndef.

(** [toString]-based type test *)
Definition tagTester (name : jstr) (h : gmap loc obj) (v : value) : bool :=
  bool_decide (toString_tag h v = js "[object " ++ name ++ js "]").

Definition isBoolean (h : gmap loc obj) (v : value) : bool :=
  strict_eq v (VBool true) || strict_eq v (VBool false) || tagTester (js "Boolean") h v.

Definition isElement (v : value) : M bool :=
  if truthy v then n ← get_str v "nodeType"; mret (strict_eq n (VNum (Int 1))) else mret false.

Definition isString := tagTester (js "String").
Definition isNumber := tagTester (js "Number").
Definition isDate := tagTester (js "Date").
Definition isRegExp := tagTester (js "RegExp").
Definition isError := tagTester (js "Error").
Definition isSymbol := tagTester (js "Symbol").
Definition isArrayBuffer := tagTester (js "ArrayBuffer").

Definition isFunction (h : gmap loc obj) (v : value) : bool :=
  if typeofFunctions then bool_decide (typeof h v = js "function")
  else tagTester (js "Function") h v.

Definition ie10IsDataView (v : value) : M bool :=
  if is_nullish v then mret false else
  g ← get_str v "getInt8";
  h ← get_heap;
  if isFunction h g then b ← get_str v "buffer"; h' ← get_heap; mret (isArrayBuffer h' b)
  else mret false.

Definition isDataView (v : value) : M bool :=
  if hasStringTagBug then ie10IsDataView v
  else h ← get_heap; mret (tagTester (js "DataView") h v).

Definition isArray (h : gmap loc obj) (v : value) : bool :=
  if nativeIsArray then match v with VRef l => bool_decide (class_of h l = CArray) | _ => false end
  else tagTester (js "Array") h v.

(** [has$1]: own property of a value other than null and undefined *)
Definition has1 (v : value) (k : key) : M bool :=
  if is_nullish v then mret false else has_own v k.

Definition isArguments (v : value) : M bool :=
  if argumentsTag then h ← get_heap; mret (tagTester (js "Arguments") h v)
  else has1 v (KStr (js "callee")).

(** Is [parseFloat(s)] NaN?  A number has a digit after its sign, or is infinite. *)
Definition parseFloat_isNaN (s : jstr) : bool :=
  let t := match drop_while is_space s with
           | c :: r => if N.eqb c (chr "-") || N.eqb c (chr "+") then r else c :: r
           | [] => []
           end in
  match t with
  | c :: r => negb (is_digit c || startsWith t (js "Infinity")
                    || (N.eqb c (chr ".") && match r with d :: _ => is_digit d | [] => false end))
  | [] => true
  end.

Definition isFinite (v : value) : M bool :=
  h ← get_heap;
  if isSymbol h v then mret false else
  n ← to_num call v;
  if bool_decide (is_Some (num_fin n)) then
    s ← to_str call v; mret (negb (parseFloat_isNaN s))
  else mret false.

Definition isNaN (v : value) : M bool :=
  h ← get_heap;
  if isNumber h v then n ← to_num call v; mret (bool_decide (n = NaN)) else mret false.

Definition constant (v : value) : cbk := fun _ => mret v.

(** [shallowProperty(key)] *)
Definition shallowProperty (k : key) (v : value) : M value :=
  if is_nullish v then mret VUndef else get_prop v k.

Definition createSizePropertyCheck (getSizeProperty : value -> M value) (collection : value)
  : M bool :=
  sizeProperty ← getSizeProperty collection;
  mret (match sizeProperty with
        | VNum n => num_leb (Int 0) n && num_leb n (Int MAX_ARRAY_INDEX)
        | _ => false
        end).

Definition getByteLength := shallowProperty (KStr (js "byteLength")).
Definition isBufferLike := createSizePropertyCheck getByteLength.
Definition getLength := shallowProperty length_key.
Definition isArrayLike := createSizePropertyCheck getLength.

Definition typedArrayPattern : pattern := {| p_groups := 5; p_re :=
  RSeq (RLit (js "[object "))
    (RSeq (RGroup 1
       (RAlt (RSeq (RGroup 2 (RAlts [js "I"; js "Ui"]))
                   (RSeq (RLit (js "nt")) (RGroup 3 (RAlts [js "8"; js "16"; js "32"]))))
       (RAlt (RSeq (RLit (js "Float")) (RGroup 4 (RAlts [js "32"; js "64"])))
       (RAlt (RLit (js "Uint8Clamped"))
             (RSeq (RLit (js "Big")) (RSeq (RGroup 5 (RAlts [js "I"; js "Ui"])) (RLit (js "nt64"))))))))
       (RLit (js "Array]"))) |}.

Definition is_view (h : gmap loc obj) (v : value) : bool :=
  match v with
  | VRef l => match class_of h l with CTyped _ | CDataView => true | _ => false end
  | _ => false
  end.

Definition isTypedArray (v : value) : M bool :=
  if supportsArrayBuffer then
    h ← get_heap;
    if nativeIsView then
      if is_view h v then d ← isDataView v; mret (negb d) else mret false
    else
      b ← isBufferLike v; mret (b && test typedArrayPattern (toString_tag h v))
  else mret false.

(** ** Keys *)

(** The keys of [emulatedSet] that [contains] answers: those in the list. *)
Definition emulated_contains (ks : list value) (k : jstr) : bool := bool_decide (VStr k ∈ ks).

(** [collectNonEnumProps]: extends the list of keys. *)
Definition collectNonEnumProps (v : value) (ks : list value) : M (list value) :=
  constructor ← get_str v "constructor";
  h ← get_heap;
  proto ← (if isFunction h constructor then
             p ← get_str constructor "prototype";
             mret (if truthy p then p else VRef ObjProto)
           else mret (VRef ObjProto));
  own ← has1 v (KStr (js "constructor"));
  let ks1 := if own && negb (emulated_contains ks (js "constructor"))
             then ks ++ [VStr (js "constructor")] else ks in
  foldM (fun ks prop =>
    b ← in_obj (KStr prop) v;
    if b : bool then
      x ← get_prop v (KStr prop);
      y ← get_prop proto (KStr prop);
      mret (if negb (strict_eq x y) && negb (emulated_contains ks prop)
            then ks ++ [VStr prop] else ks)
    else mret ks) ks1 (rev nonEnumerableProps).

(** [keys(obj)]; the array of names is a list of strings. *)
Definition keys (v : value) : M (list value) :=
  h ← get_heap;
  if isObject h v then
    if nativeKeys then mret (key_to_value <$> own_keys_of h v)
    else
      ks ← foldM (fun ks k => b ← has1 v k; mret (if b : bool then ks ++ [key_to_value k] else ks))
             [] (for_in_keys h v);
      if hasEnumBug then collectNonEnumProps v ks else mret ks
  else mret [].

Definition allKeys (v : value) : M (list value) :=
  h ← get_heap;
  if isObject h v then
    let ks := key_to_value <$> for_in_keys h v in
    if hasEnumBug then collectNonEnumProps v ks else mret ks
  else mret [].

Definition isEmpty (v : value) : M bool :=
  if is_nullish v then mret true else
  len ← getLength v;
  h ← get_heap;
  indexed ← (match len with
             | VNum _ => if isArray h v || isString h v then mret true else isArguments v
             | _ => mret false
             end);
  if indexed : bool then mret (strict_eq len (VNum (Int 0)))
  else ks ← keys v; mret (Nat.eqb (length ks) 0).

Definition isMatch (object attrs : value) : M bool :=
  _keys ← keys attrs;
  if is_nullish object then mret (Nat.eqb (length _keys) 0) else
  obj ← to_object object;
  r ← for_up (R := bool) (length _keys) 0 (fun i _ =>
        let key := arg _keys i in
        x ← get_val call attrs key;
        y ← get_val call obj key;
        if strict_eq x y then
          k ← to_key call key;
          b ← in_obj k obj;
          mret (if b : bool then Continue tt else Return false)
        else mret (Return false)) tt;
  mret (match r with Return b => b | Continue _ => true end).

(** ** Wrapped objects *)

(** [_$1(obj)] called without [new] *)
Definition wrap_us (v : value) : M value :=
  b ← instanceof v (VRef us);
  if b : bool then mret v else
  p ← get_str (VRef us) "prototype";
  h ← get_heap;
  alloc {| o_class := CObject;
           o_proto := match p with VRef l => Some l | _ => Some ObjProto end;
           o_elems := []; o_props := [(KStr (js "_wrapped"), {| p_val := v; p_enum := true |})];
           o_data := VUndef |}.

(** [_$1.prototype.value], also [valueOf] and [toJSON] *)
Definition us_value : fn := fun this _ => get_str this "_wrapped".

Definition us_toString : fn := fun this _ =>
  w ← get_str this "_wrapped"; s ← to_str call w; mret (VStr s).

(** Start chaining a wrapped object. *)
Definition chain (v : value) : M value :=
  instance ← wrap_us v;
  put_prop instance (KStr (js "_chain")) (VBool true);;
  mret instance.

(** ** Deep equality *)

(** The number a truthy [w] converts to, or 0: the offset of a view. *)
Definition or_zero (w : value) : M num :=
  if truthy w then to_num call w else mret (Int 0).

(** [toBufferView]: the bytes of a buffer seen through a [Uint8Array]. *)
Definition toBufferView (src : value) : M value :=
  b ← get_str src "buffer";
  let buffer := if truthy b then b else src in
  off ← get_str src "byteOffset";
  offset ← or_zero off;
  len ← getByteLength src;
  h ← get_heap;
  let bytes := match buffer with
               | VRef l => match h !! l with Some o => o_elems o | None => [] end
               | _ => []
               end in
  let i := rel_index offset (length bytes) in
  let es := match len with
            | VNum n => take (match num_fin n with Some z => Z.to_nat z | None => 0 end) (drop i bytes)
            | _ => drop i bytes
            end in
  let entry name v := (KStr (js name), {| p_val := v; p_enum := false |}) in
  alloc {| o_class := CTyped (js "Uint8Array"); o_proto := Some ObjProto; o_elems := es;
           o_props := [entry "buffer" buffer; entry "byteOffset" (VNum offset);
                       entry "byteLength" (VNat (length es))];
           o_data := VUndef |}.

(** [a instanceof _$1] unwrapped *)
Definition unwrap (v : value) : M value :=
  b ← instanceof v (VRef us);
  if b : bool then get_str v "_wrapped" else mret v.

(** [Symbol.prototype.valueOf.call(v)] *)
Definition symbol_value (h : gmap loc obj) (v : value) : M value :=
  match v with
  | VSym _ => mret v
  | VRef l => match h !! l with
              | Some o => if bool_decide (o_class o = CSymbol) then mret (o_data o) else throw TypeError
              | None => throw TypeError
              end
  | _ => throw TypeError
  end.

(** Objects with different constructors differ, unless both constructors are the
    [Object] of some frame or one of them has no constructor. *)
Definition ctors_differ (a b : value) : M bool :=
  aCtor ← get_str a "constructor";
  bCtor ← get_str b "constructor";
  if strict_eq aCtor bCtor then mret false else
  h ← get_heap;
  let self c := if isFunction h c then instanceof c c else mret false in
  sa ← self aCtor;
  sb ← (if sa : bool then self bCtor else mret false);
  if sa && sb then mret false else
  ia ← in_obj (KStr (js "constructor")) a;
  ib ← (if ia : bool then in_obj (KStr (js "constructor")) b else mret false);
  mret (ia && ib).

(** The most recent occurrence of [a] on the stack, with its partner. *)
Fixpoint stack_find (a : value) (stack : list (value * value)) : option value :=
  match stack with
  | [] => None
  | (x, y) :: stack' => if strict_eq x a then Some y else stack_find a stack'
  end.

(** The two stacks [aStack] and [bStack] grow and shrink together: one list of
    pairs, the last pushed first. *)
Fixpoint eq (fuel : nat) (a b : value) (stack : list (value * value)) : M bool :=
  match fuel with
  | O => diverge
  | S fuel' =>
      if strict_eq a b then
        mret (negb (strict_eq a (VNum (Int 0)))
              || match a, b with VNum x, VNum y => inv_eqb x y | _, _ => true end)
      else if is_nullish a || is_nullish b then mret false
      else if negb (strict_eq a a) then mret (negb (strict_eq b b))
      else
        h ← get_heap;
        let type := typeof h a in
        if negb (bool_decide (type = js "function")) && negb (bool_decide (type = js "object"))
           && negb (bool_decide (typeof h b = js "object"))
        then mret false
        else deepEq fuel' a b stack
  end

with deepEq (fuel : nat) (a0 b0 : value) (stack : list (value * value)) : M bool :=
  match fuel with
  | O => diverge
  | S fuel' =>
      a ← unwrap a0;
      b ← unwrap b0;
      h ← get_heap;
      let className := toString_tag h a in
      if negb (bool_decide (className = toString_tag h b)) then mret false else
      bugView ← (if hasStringTagBug && bool_decide (className = js "[object Object]")
                 then isDataView a else mret false);
      bugViewB ← (if bugView : bool then isDataView b else mret true);
      if negb bugViewB then mret false else
      let className := if bugView : bool then js "[object DataView]" else className in
      let isc name := bool_decide (className = js "[object " ++ js name ++ js "]") in
      if isc "RegExp" || isc "String" then
        s ← concat_str call a; t ← concat_str call b; mret (bool_decide (s = t))
      else if isc "Number" then
        x ← to_num call a;
        if bool_decide (x = NaN) then y ← to_num call b; mret (bool_decide (y = NaN))
        else y ← to_num call b;
             mret (if num_eqb x (Int 0) then inv_eqb x y else num_eqb x y)
      else if isc "Date" || isc "Boolean" then
        x ← to_num call a; y ← to_num call b; mret (num_eqb x y)
      else if isc "Symbol" then
        x ← symbol_value h a; y ← symbol_value h b; mret (strict_eq x y)
      else if isc "ArrayBuffer" || isc "DataView" then
        va ← toBufferView a; vb ← toBufferView b; deepEq fuel' va vb stack
      else
        let areArrays0 := isc "Array" in
        typed ← (if areArrays0 then mret false else isTypedArray a);
        sameView ← (if typed : bool then
                      la ← getByteLength a; lb ← getByteLength b;
                      if negb (strict_eq la lb) then mret (Some false) else
                      ba ← get_str a "buffer"; bb ← get_str b "buffer";
                      oa ← get_str a "byteOffset"; ob ← get_str b "byteOffset";
                      mret (if strict_eq ba bb && strict_eq oa ob then Some true else None)
                    else mret None);
        match sameView with
        | Some r => mret r
        | None =>
            let areArrays := areArrays0 || typed in
            let objects := bool_decide (typeof h a = js "object")
                           && bool_decide (typeof h b = js "object") in
            if negb areArrays && negb objects then mret false else
            differ ← (if areArrays then mret false else ctors_differ a b);
            if differ : bool then mret false else
            match stack_find a stack with
            | Some y => mret (strict_eq y b)
            | None =>
                let stack' := (a, b) :: stack in
                r ← (if areArrays then
                       la ← get_prop a length_key; lb ← get_prop b length_key;
                       if negb (strict_eq la lb) then mret (Return false) else
                       n ← rounds call la;
                       for_down n (fun i _ =>
                         x ← get_idx a i; y ← get_idx b i;
                         e ← eq fuel' x y stack';
                         mret (if e : bool then Continue tt else Return false)) tt
                     else
                       _keys ← keys a;
                       kb ← keys b;
                       if negb (Nat.eqb (length kb) (length _keys)) then mret (Return false) else
                       for_down (length _keys) (fun i _ =>
                         k ← to_key call (arg _keys i);
                         own ← has1 b k;
                         if own : bool then
                           x ← get_prop a k; y ← get_prop b k;
                           e ← eq fuel' x y stack';
                           mret (if e : bool then Continue tt else Return false)
                         else mret (Return false)) tt);
                mret (match r with Return e => e | Continue _ => true end)
            end
        end
  end.

(** [isEqual(a, b)], followed for [fuel] nested comparisons *)
Definition isEqual (fuel : nat) (a b : value) : M bool := eq fuel a b [].

(** ** Maps and sets *)

Definition forEachName := js "forEach".
Definition hasName := js "has".
Definition commonInit := [js "clear"; js "delete"].
Definition mapTail := [js "get"; hasName; js "set"].
Definition mapMethods := commonInit ++ forEachName :: mapTail.
Definition weakMapMethods := commonInit ++ mapTail.
Definition setMethods := js "add" :: commonInit ++ [forEachName; hasName].

Definition is_method (v : value) (name : jstr) : M bool :=
  m ← get_prop v (KStr name); h ← get_heap; mret (isFunction h m).

Definition ie11fingerprint (methods : list jstr) (v : value) : M bool :=
  if is_nullish v then mret false else
  ks ← allKeys v;
  if negb (Nat.eqb (length ks) 0) then mret false else
  r ← foldM (fun ok m => if ok : bool then is_method v m else mret false) true methods;
  if r : bool then
    if bool_decide (methods = weakMapMethods)
    then b ← is_method v forEachName; mret (negb b) else mret true
  else mret false.

Definition tag_or_fingerprint (methods : list jstr) (name : jstr) (v : value) : M bool :=
  if isIE11 then ie11fingerprint methods v else h ← get_heap; mret (tagTester name h v).

Definition isMap := tag_or_fingerprint mapMethods (js "Map").
Definition isWeakMap := tag_or_fingerprint weakMapMethods (js "WeakMap").
Definition isSet := tag_or_fingerprint setMethods (js "Set").
Definition isWeakSet := tagTester (js "WeakSet").

(** ** Objects *)

(** The values of the properties named by a list of keys. *)
Fixpoint read_keys (v : value) (ks : list value) : M (list value) :=
  match ks with
  | [] => mret []
  | k :: ks' => x ← get_val call v k; xs ← read_keys v ks'; mret (x :: xs)
  end.

Definition values (v : value) : M value :=
  _keys ← keys v;
  vs ← read_keys v _keys;
  array_of vs.

Fixpoint pair_keys (v : value) (ks : list value) : M (list value) :=
  match ks with
  | [] => mret []
  | k :: ks' =>
      x ← get_val call v k;
      p ← array_of [k; x];
      ps ← pair_keys v ks';
      mret (p :: ps)
  end.

Definition pairs (v : value) : M value :=
  _keys ← keys v;
  ps ← pair_keys v _keys;
  array_of ps.

Definition invert (v : value) : M value :=
  result ← new_object [];
  _keys ← keys v;
  foldM (fun _ k => x ← get_val call v k; put_val call result x k) tt _keys;;
  mret result.

Fixpoint insert_str (s : jstr) (l : list jstr) : list jstr :=
  match l with
  | [] => [s]
  | t :: l' => if str_ltb t s then t :: insert_str s l' else s :: l
  end.

(** [names.sort()] on strings *)
Definition sort_strs : list jstr -> list jstr := foldr insert_str [].

Definition key_str (v : value) : jstr := match v with VStr s => s | _ => [] end.

Definition functions (v : value) : M value :=
  h ← get_heap;
  names ← foldM (fun names k =>
            x ← get_prop v k;
            h' ← get_heap;
            mret (if isFunction h' x then names ++ [key_str (key_to_value k)] else names))
            [] (for_in_keys h v);
  array_of (VStr <$> sort_strs names).

(** The assignments of one source. *)
Definition assign_source (keysFunc : value -> M (list value)) (defaults : bool) (obj source : value)
  : M unit :=
  keys ← keysFunc source;
  foldM (fun _ key =>
    old ← (if defaults then get_val call obj key else mret VUndef);
    if negb defaults || strict_eq old VUndef then
      x ← get_val call source key; put_val call obj key x
    else mret tt) tt keys.

(** [createAssigner]; the sources are the arguments after the first. *)
Definition createAssigner (keysFunc : value -> M (list value)) (defaults : bool)
    (obj : value) (sources : list value) : M value :=
  obj ← (if defaults then to_object obj else mret obj);
  if bool_decide (sources = []) || is_nullish obj then mret obj else
  foldM (fun _ source => assign_source keysFunc defaults obj source) tt sources;;
  mret obj.

Definition extend := createAssigner allKeys false.
Definition extendOwn := createAssigner keys false.
Definition defaults := createAssigner allKeys true.

(** Both branches of [baseCreate] answer a new object with this prototype. *)
Definition baseCreate (prototype : value) : M value :=
  h ← get_heap;
  match prototype with
  | VRef l => if isObject h prototype
              then alloc {| o_class := CObject; o_proto := Some l; o_elems := []; o_props := [];
                            o_data := VUndef |}
              else new_object []
  | _ => new_object []
  end.

Definition create (prototype props : value) : M value :=
  result ← baseCreate prototype;
  (if truthy props then extendOwn result [props] else mret result);;
  mret result.

Definition clone (v : value) : M value :=
  h ← get_heap;
  if negb (isObject h v) then mret v
  else if isArray h v then array_slice call v (Int 0) None
  else o ← new_object []; extend o [v].

Definition tap (v interceptor : value) : M value :=
  call_value call interceptor VUndef [v];; mret v.

(** ** Paths *)

Definition toPath1 (path : value) : M value :=
  h ← get_heap; if isArray h path then mret path else array_of [path].

Definition toPath (path : value) : M value :=
  match customToPath with
  | Some f => call f (VRef us) [path]
  | None => toPath1 path
  end.

Definition deepGet (v path : value) : M value :=
  length ← get_prop path length_key;
  n ← rounds call length;
  r ← for_up n 0 (fun i v =>
        if is_nullish v then mret (Return VUndef) else
        k ← get_idx path i; x ← get_val call v k; mret (Continue x)) v;
  mret (match r with
        | Return x => x
        | Continue x => if truthy length then x else VUndef
        end).

Definition get (object path defaultValue : value) : M value :=
  p ← toPath path;
  v ← deepGet object p;
  mret (if isUndefined v then defaultValue else v).

Definition has (v path : value) : M bool :=
  p ← toPath path;
  length ← get_prop p length_key;
  n ← rounds call length;
  r ← for_up n 0 (fun i v =>
        k ← get_idx p i;
        if is_nullish v then mret (Return false) else
        kk ← to_key call k;
        b ← has1 v kk;
        if b : bool then x ← get_val call v k; mret (Continue x) else mret (Return false)) v;
  mret (match r with Return b => b | Continue _ => truthy length end).

(** ** Callbacks *)

Definition identity : cbk := fun args => mret (arg args 0).

Definition matcher (attrs : value) : M cbk :=
  o ← new_object [];
  attrs ← extendOwn o [attrs];
  mret (fun args => b ← isMatch (arg args 0) attrs; mret (VBool b)).

Definition property (path : value) : M cbk :=
  p ← toPath path;
  mret (fun args => deepGet (arg args 0) p).

Definition optimizeCb (func context argCount : value) : cbk :=
  if strict_eq context VUndef then call_value call func VUndef else
  let fixed n args := call_value call func context (arg args <$> seq 0 n) in
  match (if is_nullish argCount then VNum (Int 3) else argCount) with
  | VNum (Int 1) => fixed 1
  | VNum (Int 3) => fixed 3
  | VNum (Int 4) => fixed 4
  | _ => call_value call func context
  end.

Definition baseIteratee (v context argCount : value) : M cbk :=
  if is_nullish v then mret identity else
  h ← get_heap;
  if isFunction h v then mret (optimizeCb v context argCount)
  else if isObject h v && negb (isArray h v) then matcher v
  else property v.

Definition iteratee (v context : value) : M cbk := baseIteratee v context (VNum PInf).

Definition cb (v context argCount : value) : M cbk :=
  match customIteratee with
  | Some f => r ← call f (VRef us) [v; context]; mret (call_value call r VUndef)
  | None => baseIteratee v context argCount
  end.

Definition mapObject (v it context : value) : M value :=
  it ← cb it context VUndef;
  _keys ← keys v;
  results ← new_object [];
  foldM (fun _ currentKey =>
    x ← get_val call v currentKey;
    y ← it [x; currentKey; v];
    put_val call results currentKey y) tt _keys;;
  mret results.

Definition noop : cbk := fun _ => mret VUndef.

Definition propertyOf (v : value) : cbk :=
  if is_nullish v then noop else fun args => get v (arg args 0) VUndef.

(** ** Utilities *)

(** [Array(n)] refuses lengths that are no array lengths. *)
Definition array_length (n : num) : M nat :=
  match num_fin n with
  | Some z => if Z.leb 0 z && Z.ltb z (2 ^ 32) then mret (Z.to_nat z) else throw RangeError
  | None => throw RangeError
  end.

Definition times (n it context : value) : M value :=
  m ← to_num call n;
  len ← array_length (num_max (Int 0) m);
  let it := optimizeCb it context (VNum (Int 1)) in
  accum ← iter_up len 0 (fun i accum => x ← it [VNat i]; mret (accum ++ [x])) [];
  array_of accum.

Definition next_random : M Q := fun s =>
  (Done (Math_random (rnd s)), {| heap := heap s; rnd := S (rnd s); ids := ids s |}).

(** [Math.floor(r * n)] *)
Definition scale_floor (r : Q) (n : num) : num :=
  match n with
  | Int z => Int (Qfloor (r * inject_Z z))
  | NZero => NZero
  | PInf => if Qeq_bool r 0 then NaN else PInf
  | NInf => if Qeq_bool r 0 then NaN else NInf
  | NaN => NaN
  end.

Definition random (min : num) (max : option num) : M num :=
  let '(min, max) := match max with None => (Int 0, min) | Some m => (min, m) end in
  r ← next_random;
  mret (num_add min (scale_floor r (num_add (num_sub max min) (Int 1)))).

Definition result (v path fallback : value) : M value :=
  p ← toPath path;
  length ← get_prop p length_key;
  let force obj prop :=
    h ← get_heap; if isFunction h prop then call_value call prop obj [] else mret prop in
  if negb (truthy length) then force v fallback else
  n ← rounds call length;
  r ← for_up n 0 (fun i obj =>
        prop ← (if is_nullish obj then mret VUndef
                else k ← get_idx p i; get_val call obj k);
        if strict_eq prop VUndef then x ← force obj fallback; mret (Return x)
        else x ← force obj prop; mret (Continue x)) v;
  mret (match r with Return x | Continue x => x end).

Definition next_id : M nat := fun s =>
  (Done (S (ids s)), {| heap := heap s; rnd := rnd s; ids := S (ids s) |}).

Definition uniqueId (prefix : value) : M jstr :=
  n ← next_id;
  let id := N_to_jstr (N.of_nat n) in
  if truthy prefix then p ← concat_str call prefix; mret (p ++ id) else mret id.

End underscore.
End UsObjects.
