(* ===== verification/UsCollections.v ===== *)
(** Collections of [underscore.js] (lines 1231 to 1619): searching, iterating,
    reducing, sorting, sampling and grouping, for arrays, array-likes and plain
    objects alike. *)

From Stdlib Require Import QArith_base Qround.
From S2P Require Import Prelude Regex JsCore UsObjects.
Import UsObjects.

Module UsCollections.

Section collections.
Context `{Realm} `{Engine}.
Variable call : loc -> value -> list value -> M value.

(** ** Searching *)

Definition findKeyWith (v : value) (predicate : cbk) : M value :=
  _keys ← keys v;
  r ← for_up (length _keys) 0 (fun i _ =>
        let key := arg _keys i in
        x ← get_val call v key;
        b ← predicate [x; key; v];
        mret (if truthy b then Return key else Continue tt)) tt;
  mret (match r with Return k => k | Continue _ => VUndef end).

Definition findKey (v predicate context : value) : M value :=
  predicate ← cb call predicate context VUndef;
  findKeyWith v predicate.

(** The loop [for (; index >= 0 && index < length; index += dir)] from [index],
    upwards or downwards, on the number of elements left. *)
Fixpoint scan {R} (up : bool) (n i : nat) (body : nat -> M (option R)) : M (option R) :=
  match n with
  | O => mret None
  | S n' =>
      r ← body i;
      match r with
      | Some x => mret (Some x)
      | None => scan up n' (if up then S i else Nat.pred i) body
      end
  end.

(** [createPredicateIndexFinder(dir)] *)
Definition findIndexWith (up : bool) (array : value) (predicate : cbk) : M Z :=
  len ← getLength array;
  n ← rounds call len;
  r ← scan up n (if up then 0 else Nat.pred n) (fun index =>
        x ← get_idx array index;
        b ← predicate [x; VNat index; array];
        mret (if truthy b then Some index else None));
  mret (match r with Some i => Z.of_nat i | None => -1 end)%Z.

Definition createPredicateIndexFinder (up : bool) (array predicate context : value) : M Z :=
  predicate ← cb call predicate context VUndef;
  findIndexWith up array predicate.

Definition findIndex := createPredicateIndexFinder true.
Definition findLastIndex := createPredicateIndexFinder false.

(** The binary search; [fuel] bounds the number of halvings. *)
Fixpoint sortedIndex_loop (fuel : nat) (iteratee : cbk) (array v : value) (low high : nat) : M nat :=
  match fuel with
  | O => if Nat.ltb low high then diverge else mret low
  | S fuel' =>
      if Nat.ltb low high then
        let mid := (low + high) / 2 in
        x ← get_idx array mid;
        c ← iteratee [x];
        b ← js_lt call c v;
        if b : bool then sortedIndex_loop fuel' iteratee array v (mid + 1) high
        else sortedIndex_loop fuel' iteratee array v low mid
      else mret low
  end.

Definition sortedIndex (array obj iteratee context : value) : M nat :=
  iteratee ← cb call iteratee context (VNum (Int 1));
  v ← iteratee [obj];
  len ← getLength array;
  high ← rounds call len;
  sortedIndex_loop high iteratee array v 0 high.

(** The bounds of [createIndexFinder] after an explicit start index. *)
Definition finder_bounds (up : bool) (idx len : num) : num * num :=
  if up then (if num_leb (Int 0) idx then idx else num_max (num_add idx len) (Int 0), len)
  else (Int 0, if num_leb (Int 0) idx then num_min (num_add idx (Int 1)) len
               else num_add (num_add idx len) (Int 1)).

(** The first index and the number of rounds of
    [for (idx = dir > 0 ? i : length - 1; idx >= 0 && idx < length; idx += dir)]. *)
Definition scan_range (up : bool) (i len : num) : nat * nat :=
  match num_fin i, num_fin len with
  | Some zi, Some zl => if up then (Z.to_nat zi, Z.to_nat (zl - zi))
                        else (Z.to_nat (zl - 1), Z.to_nat zl)
  | _, _ => (0, 0)
  end.

(** [createIndexFinder(dir, predicateFind, sortedIndex)]; [sorted] says whether
    the third argument is given.  Returns a number. *)
Definition createIndexFinder (up sorted : bool) (array item idx : value) : M num :=
  lenv ← getLength array;
  len ← to_num call lenv;
  let sorted_search := match idx with VNum _ => false | _ => sorted && truthy idx && truthy lenv end in
  if sorted_search then
    i ← sortedIndex array item VUndef VUndef;
    x ← get_idx array i;
    mret (if strict_eq x item then Int (Z.of_nat i) else Int (-1))
  else
    let '(i, len) := match idx with VNum n => finder_bounds up n len | _ => (Int 0, len) end in
    if negb (strict_eq item item) then
      s ← array_slice call array i (Some len);
      j ← findIndexWith up s (fun args => b ← isNaN call (arg args 0); mret (VBool b));
      mret (if Z.leb 0 j then num_add (Int j) i else Int (-1))
    else
      let '(start, n) := scan_range up i len in
      r ← scan up n start (fun index =>
            x ← get_idx array index;
            mret (if strict_eq x item then Some index else None));
      mret (match r with Some k => Int (Z.of_nat k) | None => Int (-1) end).

Definition indexOf := createIndexFinder true true.
Definition lastIndexOf := createIndexFinder false false.

(** [find] after its callback is made. *)
Definition find_with (v : value) (predicate : cbk) : M value :=
  al ← isArrayLike v;
  if al : bool then
    i ← findIndexWith true v predicate;
    if Z.eqb i (-1)%Z then mret VUndef else get_idx v (Z.to_nat i)
  else
    k ← findKeyWith v predicate;
    if strict_eq k VUndef then mret VUndef else get_val call v k.

Definition find (v predicate context : value) : M value :=
  predicate ← cb call predicate context VUndef;
  find_with v predicate.

Definition findWhere (v attrs : value) : M value :=
  m ← matcher call attrs;
  find_with v m.

(** ** Iterating *)

(** [_keys = !isArrayLike(obj) && keys(obj)] with [(_keys || obj).length] *)
Definition loop_keys (v : value) : M (option (list value) * nat) :=
  al ← isArrayLike v;
  if al : bool then
    len ← get_prop v length_key; n ← rounds call len; mret (None, n)
  else ks ← keys v; mret (Some ks, length ks).

(** [_keys ? _keys[index] : index] *)
Definition currentKey (_keys : option (list value)) (index : Z) : value :=
  match _keys with
  | Some ks => if Z.leb 0 index then arg ks (Z.to_nat index) else VUndef
  | None => VNum (Int index)
  end.

(** [each] with a callback of the library that updates local variables [a]. *)
Definition each_acc {A} (v : value) (body : A -> value -> value -> M A) (a : A) : M A :=
  '(_keys, n) ← loop_keys v;
  iter_up n 0 (fun i a =>
    let k := currentKey _keys (Z.of_nat i) in
    x ← get_val call v k;
    body a x k) a.

Definition each (v iteratee context : value) : M value :=
  let it := optimizeCb call iteratee context VUndef in
  each_acc v (fun _ x k => it [x; k; v];; mret tt) tt;;
  mret v.

Definition map_with (v : value) (it : cbk) : M (list value) :=
  each_acc v (fun results x k => y ← it [x; k; v]; mret (results ++ [y])) [].

Definition map (v iteratee context : value) : M value :=
  it ← cb call iteratee context VUndef;
  results ← map_with v it;
  array_of results.

(** The rounds of a reduction from [index] in the direction [up]. *)
Fixpoint reduce_loop (up : bool) (n : nat) (index : Z) (it : cbk) (_keys : option (list value))
    (v memo : value) : M value :=
  match n with
  | O => mret memo
  | S n' =>
      let k := currentKey _keys index in
      x ← get_val call v k;
      memo' ← it [memo; x; k; v];
      reduce_loop up n' (if up then index + 1 else index - 1)%Z it _keys v memo'
  end.

(** [createReduce(dir)]; [memo] is [None] when it is not passed. *)
Definition createReduce (up : bool) (v iteratee : value) (memo : option value) (context : value)
  : M value :=
  let it := optimizeCb call iteratee context (VNum (Int 4)) in
  '(_keys, n) ← loop_keys v;
  let index := (if up then 0 else Z.of_nat n - 1)%Z in
  match memo with
  | Some m => reduce_loop up n index it _keys v m
  | None =>
      m ← get_val call v (currentKey _keys index);
      reduce_loop up (Nat.pred n) (if up then index + 1 else index - 1)%Z it _keys v m
  end.

Definition reduce := createReduce true.
Definition reduceRight := createReduce false.

Definition filter_with (v : value) (predicate : cbk) : M (list value) :=
  each_acc v (fun results x k =>
    b ← predicate [x; k; v]; mret (if truthy b then results ++ [x] else results)) [].

Definition filter (v predicate context : value) : M value :=
  p ← cb call predicate context VUndef;
  results ← filter_with v p;
  array_of results.

(** [negate(predicate)] for a callback of the library *)
Definition negate_cb (p : cbk) : cbk := fun args => b ← p args; mret (VBool (negb (truthy b))).

(** [cb(predicate)] as a function of its own [this]. *)
Definition cb_fn (predicate : value) : M fn :=
  h ← get_heap;
  match customIteratee with
  | Some f => r ← call f (VRef us) [predicate; VUndef]; mret (call_value call r)
  | None => if isFunction h predicate then mret (call_value call predicate)
            else p ← baseIteratee call predicate VUndef VUndef; mret (fun _ => p)
  end.

(** The context is given to [filter], whose callback hands it on as [this]. *)
Definition reject (v predicate context : value) : M value :=
  p ← cb_fn predicate;
  results ← filter_with v (negate_cb (p context));
  array_of results.

(** [every] and [some]: the loop stops at the first value that decides. *)
Definition quantify (stop : bool) (v predicate context : value) : M bool :=
  p ← cb call predicate context VUndef;
  '(_keys, n) ← loop_keys v;
  r ← for_up n 0 (fun i _ =>
        let k := currentKey _keys (Z.of_nat i) in
        x ← get_val call v k;
        b ← p [x; k; v];
        mret (if Bool.eqb (truthy b) stop then Return stop else Continue tt)) tt;
  mret (match r with Return b => b | Continue _ => negb stop end).

Definition every := quantify false.
Definition some := quantify true.

Definition contains (v item fromIndex guard : value) : M bool :=
  al ← isArrayLike v;
  v ← (if al : bool then mret v else values call v);
  let from := match fromIndex with
              | VNum _ => if truthy guard then VNum (Int 0) else fromIndex
              | _ => VNum (Int 0)
              end in
  i ← indexOf v item from;
  mret (num_leb (Int 0) i).

(** ** Mapping *)

Definition invoke : fn := restArguments (fun _ all =>
  let v := arg all 0 in
  let path := arg all 1 in
  args ← list_of call (arg all 2);
  h ← get_heap;
  '(func, contextPath, path) ←
    (if isFunction h path then mret (Some path, VUndef, VUndef)
     else p ← toPath call path;
          cp ← array_slice call p (Int 0) (Some (Int (-1)));
          n ← length_of call p;
          last ← (if Nat.eqb n 0 then get_prop p (KStr (js "-1")) else get_idx p (Nat.pred n));
          mret (None, cp, last));
  results ← map_with v (fun margs =>
    let context := arg margs 0 in
    '(context, method) ←
      (match func with
       | Some f => mret (context, f)
       | None =>
           n ← length_of call contextPath;
           c ← (if Nat.eqb n 0 then mret context else deepGet call context contextPath);
           if is_nullish c then mret (c, VUndef)
           else m ← get_val call c path; mret (c, m)
       end);
    if is_nullish method then mret method else call_value call method context args);
  array_of results) 2.

Definition pluck (v key : value) : M value :=
  p ← property call key;
  results ← map_with v p;
  array_of results.

Definition where_ (v attrs : value) : M value :=
  m ← matcher call attrs;
  results ← filter_with v m;
  array_of results.

(** ** Extremes *)

Definition beyond (is_max : bool) (a b : value) : M bool :=
  if is_max then js_gt call a b else js_lt call a b.

Definition worst (is_max : bool) : value := VNum (if is_max then NInf else PInf).

(** [max] and [min] differ in the comparison and in the start value only.
    The branch with a callback: *)
Definition extreme_by (is_max : bool) (v : value) (it : cbk) : M value :=
  '(result, _) ← each_acc v (fun '(result, lastComputed) x k =>
    computed ← it [x; k; v];
    b ← beyond is_max computed lastComputed;
    mret (if b || (strict_eq computed (worst is_max) && strict_eq result (worst is_max))
          then (x, computed) else (result, lastComputed))) (worst is_max, worst is_max);
  mret result.

Definition extreme (is_max : bool) (v iteratee context : value) : M value :=
  direct ← (if is_nullish iteratee then mret true else
            match iteratee with
            | VNum _ => x ← get_idx v 0; h ← get_heap;
                        mret (negb (bool_decide (typeof h x = js "object")) && negb (is_nullish v))
            | _ => mret false
            end);
  if direct : bool then
    al ← isArrayLike v;
    v ← (if al : bool then mret v else values call v);
    len ← get_prop v length_key;
    n ← rounds call len;
    iter_up n 0 (fun i result =>
      x ← get_idx v i;
      if is_nullish x then mret result else
      b ← beyond is_max x result;
      mret (if b : bool then x else result)) (worst is_max)
  else
    it ← cb call iteratee context VUndef;
    extreme_by is_max v it.

Definition max := extreme true.
Definition min := extreme false.
(** ** Arrays of anything *)

Definition is_high (c : N) : bool := in_range 0xD800 0xDBFF c.
Definition is_low (c : N) : bool := in_range 0xDC00 0xDFFF c.

(** [s.match(reStrSymbol)]: surrogate pairs stay together. *)
Fixpoint str_symbols (s : jstr) : list jstr :=
  match s with
  | [] => []
  | c :: s' =>
      match s' with
      | d :: s'' => if is_high c && is_low d then [c; d] :: str_symbols s''
                    else [c] :: str_symbols s'
      | [] => [[c]]
      end
  end.

Definition toArray (v : value) : M value :=
  if negb (truthy v) then array_of [] else
  h ← get_heap;
  if isArray h v then array_slice call v (Int 0) None
  else if isString h v then
    s ← to_str call v;
    if bool_decide (s = []) then mret VNull else array_of (VStr <$> str_symbols s)
  else
    al ← isArrayLike v;
    if al : bool then rs ← map_with v identity; array_of rs
    else values call v.

(** One round of the shuffle: the entries [index] and [rand] change places. *)
Definition swap (l : list value) (index rand : nat) : list value :=
  let temp := arg l index in
  <[rand := temp]> (<[index := arg l rand]> l).

Definition sample_loop (n last : nat) (l : list value) : M (list value) :=
  iter_up n 0 (fun index l =>
    rand ← random (Int (Z.of_nat index)) (Some (Int (Z.of_nat last)));
    mret (match rand with Int z => swap l index (Z.to_nat z) | _ => l end)) l.

Definition sample (v n guard : value) : M value :=
  if is_nullish n || truthy guard then
    al ← isArrayLike v;
    v ← (if al : bool then mret v else values call v);
    len ← length_of call v;
    i ← random (Int (Z.of_nat len - 1)) None;
    get_val call v (VNum i)
  else
    s ← toArray v;
    if is_nullish s then throw TypeError else
    l ← list_of call s;
    m ← to_num call n;
    let m := num_max (num_min m (Int (Z.of_nat (length l)))) (Int 0) in
    let cnt := match num_fin m with Some z => Z.to_nat z | None => 0 end in
    l' ← sample_loop cnt (Nat.pred (length l)) l;
    array_of (take cnt l').

Definition shuffle (v : value) : M value := sample v (VNum PInf) VUndef.

(** ** Sorting *)

Record sort_entry := { se_value : value; se_index : nat; se_criteria : value }.

(** The comparison of [sortBy] is below zero. *)
Definition sort_before (left right : sort_entry) : M bool :=
  let a := se_criteria left in
  let b := se_criteria right in
  let by_index := mret (Nat.ltb (se_index left) (se_index right)) in
  if strict_eq a b then by_index else
  gt ← js_gt call a b;
  if gt || strict_eq a VUndef then mret false else
  lt ← js_lt call a b;
  if lt || strict_eq b VUndef then mret true else by_index.

Fixpoint sort_insert (x : sort_entry) (l : list sort_entry) : M (list sort_entry) :=
  match l with
  | [] => mret [x]
  | y :: l' =>
      b ← sort_before y x;
      if b : bool then r ← sort_insert x l'; mret (y :: r) else mret (x :: l)
  end.

(** The order of [Array.prototype.sort]: an insertion sort, entry by entry. *)
Definition sort_entries (l : list sort_entry) : M (list sort_entry) :=
  foldM (fun acc x => sort_insert x acc) [] l.

Definition sortBy (v iteratee context : value) : M value :=
  it ← cb call iteratee context VUndef;
  entries ← each_acc v (fun es x k =>
    c ← it [x; k; v];
    mret (es ++ [{| se_value := x; se_index := length es; se_criteria := c |}])) [];
  sorted ← sort_entries entries;
  array_of (se_value <$> sorted).

(** ** Grouping *)

(** [group(behavior, partition)] up to the result object. *)
Definition group {A} (behavior : A -> value -> value -> M A) (init : A)
    (v iteratee context : value) : M A :=
  it ← cb call iteratee context VUndef;
  each_acc v (fun result x k => key ← it [x; k; v]; behavior result x key) init.

(** The groups of a local result object, in creation order. *)
Fixpoint bucket_get {A} (bs : list (key * A)) (k : key) : option A :=
  match bs with
  | [] => None
  | (k', b) :: bs' => if bool_decide (k = k') then Some b else bucket_get bs' k
  end.

Fixpoint bucket_put {A} (bs : list (key * A)) (k : key) (b : A) : list (key * A) :=
  match bs with
  | [] => [(k, b)]
  | (k', b') :: bs' => if bool_decide (k = k') then (k', b) :: bs' else (k', b') :: bucket_put bs' k b
  end.

Fixpoint alloc_buckets (bs : list (key * list value)) : M (list (key * prop)) :=
  match bs with
  | [] => mret []
  | (k, vs) :: bs' =>
      a ← array_of vs;
      r ← alloc_buckets bs';
      mret ((k, {| p_val := a; p_enum := true |}) :: r)
  end.

Definition groupBy_behavior (result : list (key * list value)) (x key : value)
  : M (list (JsCore.key * list value)) :=
  k ← to_key call key;
  mret (match bucket_get result k with
        | Some vs => bucket_put result k (vs ++ [x])
        | None => bucket_put result k [x]
        end).

Definition groupBy (v iteratee context : value) : M value :=
  bs ← group groupBy_behavior [] v iteratee context;
  ps ← alloc_buckets bs;
  new_object ps.

Definition indexBy_behavior (result : list (key * value)) (x key : value) : M (list (JsCore.key * value)) :=
  k ← to_key call key; mret (bucket_put result k x).

Definition indexBy (v iteratee context : value) : M value :=
  bs ← group indexBy_behavior [] v iteratee context;
  new_object ((fun kv => (kv.1, {| p_val := kv.2; p_enum := true |})) <$> bs).

Definition countBy_behavior (result : list (key * nat)) (x key : value) : M (list (JsCore.key * nat)) :=
  k ← to_key call key;
  mret (bucket_put result k (match bucket_get result k with Some n => S n | None => 1 end)).

Definition countBy (v iteratee context : value) : M value :=
  bs ← group countBy_behavior [] v iteratee context;
  new_object ((fun kv => (kv.1, {| p_val := VNat kv.2; p_enum := true |})) <$> bs).

Definition partition_behavior (result : list value * list value) (x pass : value)
  : M (list value * list value) :=
  mret (if truthy pass then (result.1 ++ [x], result.2) else (result.1, result.2 ++ [x])).

Definition partition (v iteratee context : value) : M value :=
  '(yes, no) ← group partition_behavior ([], []) v iteratee context;
  a ← array_of yes;
  b ← array_of no;
  array_of [a; b].

Definition size (v : value) : M value :=
  if is_nullish v then mret (VNum (Int 0)) else
  al ← isArrayLike v;
  if al : bool then get_prop v length_key else ks ← keys v; mret (VNat (length ks)).

End collections.
End UsCollections.
