(* ===== verification/UsArrays.v ===== *)
(** Arrays of [underscore.js] (lines 1029 to 1054 and 1621 to 1835): flattening,
    picking, slicing, set operations, zipping, ranges and chunks. *)

From S2P Require Import Prelude Regex JsCore UsObjects UsCollections.
Import UsObjects UsCollections.

Module UsArrays.

Section arrays.
Context `{Realm} `{Engine}.
Variable call : loc -> value -> list value -> M value.

(** ** Flattening *)

Definition is_nested (v : value) : M bool :=
  al ← isArrayLike v;
  if al : bool then h ← get_heap; if isArray h v then mret true else isArguments v
  else mret false.

(** [output.concat(input)] *)
Definition concat_one (output : list (option value)) (input : value) : M (list (option value)) :=
  h ← get_heap;
  if isArray h input then
    n ← length_of call input; es ← read_elems input 0 n; mret (output ++ es)
  else mret (output ++ [Some input]).

(** [flatten$1]; [fuel] bounds the nesting, [output] is the array under
    construction, [idx] its length. *)
Fixpoint flatten1 (fuel : nat) (input depth : value) (strict : bool) (output : list (option value))
  : M (list (option value)) :=
  match fuel with
  | O => diverge
  | S fuel' =>
      d ← (if negb (truthy depth) && negb (strict_eq depth (VNum (Int 0))) then mret PInf
           else to_num call depth);
      if num_leb d (Int 0) then concat_one output input else
      len ← getLength input;
      n ← rounds call len;
      iter_up n 0 (fun i output =>
        x ← get_idx input i;
        nested ← is_nested x;
        if nested : bool then
          if num_ltb (Int 1) d then
            flatten1 fuel' x (VNum (num_sub d (Int 1))) strict output
          else
            len ← length_of call x;
            vs ← read_args x 0 len;
            mret (output ++ (Some <$> vs))
        else mret (if strict then output else output ++ [Some x])) output
  end.

Definition flatten (fuel : nat) (array depth : value) : M value :=
  es ← flatten1 fuel array depth false []; new_array es.

(** ** Picking *)

(** The loop of [pick] over its keys. *)
Definition pick_loop (v : value) (it : cbk) (ks : list value) : M value :=
  result ← new_object [];
  foldM (fun _ key =>
    x ← get_val call v key;
    b ← it [x; key; v];
    if truthy b then put_val call result key x else mret tt) tt ks;;
  mret result.

Definition keyInObj : cbk := fun args =>
  k ← to_key call (arg args 1); b ← in_obj k (arg args 2); mret (VBool b).

(** [pick(obj, iteratee, context)] with a callback *)
Definition pick_by (v : value) (it : cbk) : M value :=
  if is_nullish v then new_object [] else ks ← allKeys v; pick_loop v it ks.

Definition pick (fuel : nat) : fn := restArguments (fun _ args =>
  let v := arg args 0 in
  let keys := arg args 1 in
  if is_nullish v then new_object [] else
  it ← get_idx keys 0;
  h ← get_heap;
  if isFunction h it then
    n ← length_of call keys;
    context ← (if Nat.ltb 1 n then get_idx keys 1 else mret VUndef);
    pick_by v (optimizeCb call it context VUndef)
  else
    es ← flatten1 fuel keys (VBool false) false [];
    o ← to_object v;
    pick_loop o keyInObj (or_undef <$> es)) 1.

Definition omit (fuel : nat) : fn := restArguments (fun _ args =>
  let v := arg args 0 in
  let keys := arg args 1 in
  it ← get_idx keys 0;
  h ← get_heap;
  if isFunction h it then
    n ← length_of call keys;
    context ← (if Nat.ltb 1 n then get_idx keys 1 else mret VUndef);
    pick_by v (negate_cb (optimizeCb call it context VUndef))
  else
    es ← flatten1 fuel keys (VBool false) false [];
    names ← foldM (fun ns x => s ← to_str call x; mret (ns ++ [VStr s])) [] (or_undef <$> es);
    ks ← array_of names;
    pick_by v (fun args => b ← contains call ks (arg args 1) VUndef VUndef; mret (VBool (negb b)))) 1.

(** ** Slicing *)

Definition one_or (n guard : value) : M num :=
  if is_nullish n || truthy guard then mret (Int 1) else to_num call n.

Definition initial (array n guard : value) : M value :=
  len ← get_prop array length_key;
  l ← to_num call len;
  m ← one_or n guard;
  array_slice call array (Int 0) (Some (num_max (Int 0) (num_sub l m))).

Definition rest (array n guard : value) : M value :=
  m ← one_or n guard;
  array_slice call array m None.

(** [array == null || array.length < 1] *)
Definition no_elements (array : value) : M bool :=
  if is_nullish array then mret true
  else len ← get_prop array length_key; js_lt call len (VNum (Int 1)).

Definition first (array n guard : value) : M value :=
  empty ← no_elements array;
  if empty : bool then (if is_nullish n || truthy guard then mret VUndef else array_of [])
  else if is_nullish n || truthy guard then get_idx array 0
  else
    len ← get_prop array length_key;
    l ← to_num call len;
    m ← to_num call n;
    initial array (VNum (num_sub l m)) VUndef.

Definition last (array n guard : value) : M value :=
  empty ← no_elements array;
  if empty : bool then (if is_nullish n || truthy guard then mret VUndef else array_of [])
  else
    len ← get_prop array length_key;
    l ← to_num call len;
    if is_nullish n || truthy guard then get_val call array (VNum (num_sub l (Int 1)))
    else
      m ← to_num call n;
      rest array (VNum (num_max (Int 0) (num_sub l m))) VUndef.

(** ** Sets *)

Definition compact (array : value) : M value :=
  rs ← filter_with call array (fun args => mret (VBool (truthy (arg args 0))));
  array_of rs.

Definition difference (fuel : nat) : fn := restArguments (fun _ args =>
  let array := arg args 0 in
  es ← flatten1 fuel (arg args 1) (VBool true) true [];
  rest ← new_array es;
  rs ← filter_with call array (fun a =>
         b ← contains call rest (arg a 0) VUndef VUndef; mret (VBool (negb b)));
  array_of rs) 1.

Definition without (fuel : nat) : fn := restArguments (fun this args =>
  difference fuel this [arg args 0; arg args 1]) 1.

(** The loop of [uniq].  [it] is the callback, if any; the second array is
    [seen], whose place the last computed value takes in the sorted case. *)
Definition uniq_loop (array : value) (isSorted : bool) (it : option cbk) (result seen : value)
    (n : nat) : M value :=
  iter_up n 0 (fun i seen =>
    x ← get_idx array i;
    computed ← (match it with Some f => f [x; VNat i; array] | None => mret x end);
    match it with
    | None =>
        if isSorted then
          (if Nat.eqb i 0 || negb (strict_eq seen computed)
           then array_push call result x else mret tt);;
          mret computed
        else
          b ← contains call result x VUndef VUndef;
          (if b : bool then mret tt else array_push call result x);;
          mret seen
    | Some _ =>
        b ← contains call seen computed VUndef VUndef;
        (if b : bool then mret tt
         else array_push call seen computed;; array_push call result x);;
        mret seen
    end) seen;;
  mret result.

Definition uniq (array isSorted iteratee context : value) : M value :=
  h ← get_heap;
  let '(sorted, iteratee, context) :=
    if isBoolean h isSorted then (truthy isSorted, iteratee, context)
    else (false, isSorted, iteratee) in
  it ← (if is_nullish iteratee then mret None
        else f ← cb call iteratee context VUndef; mret (Some f));
  result ← array_of [];
  seen ← array_of [];
  len ← getLength array;
  n ← rounds call len;
  uniq_loop array sorted it result seen n.

Definition union (fuel : nat) : fn := restArguments (fun _ args =>
  es ← flatten1 fuel (arg args 0) (VBool true) true [];
  a ← new_array es;
  uniq a VUndef VUndef VUndef) 0.

(** Is [item] in every one of the other arrays? *)
Fixpoint in_all (others : list value) (item : value) : M bool :=
  match others with
  | [] => mret true
  | a :: others' =>
      b ← contains call a item VUndef VUndef;
      if b : bool then in_all others' item else mret false
  end.

Definition intersection : fn := fun _ args =>
  let array := arg args 0 in
  result ← array_of [];
  len ← getLength array;
  n ← rounds call len;
  iter_up n 0 (fun i _ =>
    item ← get_idx array i;
    b ← contains call result item VUndef VUndef;
    if b : bool then mret tt else
    ok ← in_all (drop 1 args) item;
    if ok : bool then array_push call result item else mret tt) tt;;
  mret result.

(** ** Zipping *)

Definition unzip (array : value) : M value :=
  len ← (if truthy array then
           m ← extreme_by call true array (fun args => getLength (arg args 0));
           l ← get_prop m length_key;
           mret (if truthy l then l else VNum (Int 0))
         else mret (VNum (Int 0)));
  d ← to_num call len;
  n ← array_length d;
  rs ← iter_up n 0 (fun index rs => p ← pluck call array (VNat index); mret (rs ++ [p])) [];
  array_of rs.

Definition zip : fn := restArguments (fun _ args => unzip (arg args 0)) 0.

Definition object (list values : value) : M value :=
  result ← new_object [];
  len ← getLength list;
  n ← rounds call len;
  iter_up n 0 (fun i _ =>
    if truthy values then
      k ← get_idx list i; x ← get_idx values i; put_val call result k x
    else
      e ← get_idx list i; k ← get_idx e 0;
      e' ← get_idx list i; x ← get_idx e' 1;
      put_val call result k x) tt;;
  mret result.

(** ** Ranges and chunks *)

Definition range_loop (n : nat) (start step : num) : list num :=
  (fix go n start := match n with O => [] | S n' => start :: go n' (num_add start step) end) n start.

(** [range] on numbers; [None] is an argument that is not passed. *)
Definition range (start : num) (stop step : option num) : M value :=
  let '(start, stop) := match stop with
                        | None => (Int 0, if truthy (VNum start) then start else Int 0)
                        | Some p => (start, p)
                        end in
  let dflt := if num_ltb stop start then Int (-1) else Int 1 in
  let step := match step with
              | Some p => if truthy (VNum p) then p else dflt
              | None => dflt
              end in
  n ← array_length (num_max (num_ceil_div (num_sub stop start) step) (Int 0));
  array_of (VNum <$> range_loop n start step).

(** The slices of [chunk] from [i] on. *)
Fixpoint chunk_loop (fuel : nat) (array : value) (i count len : num) : M (list value) :=
  if num_ltb i len then
    match fuel with
    | O => diverge
    | S fuel' =>
        let j := num_add i count in
        s ← array_slice call array i (Some j);
        r ← chunk_loop fuel' array j count len;
        mret (s :: r)
    end
  else mret [].

(** Every chunk takes at least one element: the length is fuel enough. *)
Definition chunk (array : value) (count : option num) : M value :=
  match count with
  | None => array_of []
  | Some c =>
      if num_ltb c (Int 1) then array_of [] else
      lenv ← get_prop array length_key;
      len ← to_num call lenv;
      n ← rounds call lenv;
      rs ← chunk_loop n array (Int 0) c len;
      array_of rs
  end.

End arrays.
End UsArrays.
