(* ===== verification/UsFunctions.v ===== *)
(** Functions of [underscore.js] (lines 982 to 1080, 1178 to 1229 and
    1837 to 1878): partial application, binding, memoization, composition,
    counting wrappers, and the methods of the wrapper object.

    A function the library returns is a pair: the function object, where the
    code can see one, and its behaviour as a Rocq function.  The variables a
    closure captures and changes live in a scope object of the heap that no
    other code refers to. *)

From S2P Require Import Prelude Regex JsCore UsObjects UsCollections UsArrays.
Import UsObjects UsCollections UsArrays.

Module UsFunctions.

Section functions.
Context `{Realm} `{Engine}.
Variable call : loc -> value -> list value -> M value.

(** A new function object with its [prototype]. *)
Definition new_function (ps : list (key * prop)) : M value :=
  p ← new_object [];
  alloc {| o_class := CFunction; o_proto := Some FunctionProto; o_elems := [];
           o_props := (KStr (js "prototype"), {| p_val := p; p_enum := false |}) :: ps;
           o_data := VUndef |}.

(** The scope object of a closure. *)
Definition new_scope (vars : list (string * value)) : M value :=
  alloc {| o_class := CObject; o_proto := None; o_elems := [];
           o_props := (fun xv => (KStr (js xv.1), {| p_val := xv.2; p_enum := true |})) <$> vars;
           o_data := VUndef |}.

Definition get_var (scope : value) (x : string) : M value := get_str scope x.
Definition set_var (scope : value) (x : string) (v : value) : M unit :=
  put_prop scope (KStr (js x)) v.

Definition executeBound (sourceFunc boundFunc context callingContext : value) (args : list value)
  : M value :=
  b ← instanceof callingContext boundFunc;
  if negb b then call_value call sourceFunc context args else
  proto ← get_str sourceFunc "prototype";
  self ← baseCreate proto;
  result ← call_value call sourceFunc self args;
  h ← get_heap;
  mret (if isObject h result then result else self).

(** The arguments of a partial application: placeholders take the arguments of
    the call in order, the remaining ones follow. *)
Fixpoint fill (placeholder : value) (boundArgs args : list value) : list value :=
  match boundArgs with
  | [] => args
  | b :: bs =>
      if strict_eq b placeholder then arg args 0 :: fill placeholder bs (drop 1 args)
      else b :: fill placeholder bs args
  end.

(** [partial(func, ...boundArgs)] with the placeholder of the time of the call *)
Definition partial (placeholder func : value) (boundArgs : list value) : M (value * fn) :=
  bound ← new_function [];
  mret (bound, fun this args =>
    executeBound func bound this this (fill placeholder boundArgs args)).

Definition bind (func context : value) (args : list value) : M (value * fn) :=
  h ← get_heap;
  if negb (isFunction h func) then throw TypeError else
  bound ← new_function [];
  mret (bound, restArguments (fun this callArgs =>
    cs ← list_of call (arg callArgs 0);
    executeBound func bound context this (args ++ cs)) 0).

(** [bindAll(obj, ...keys)]: the bound functions that are stored, with their
    behaviour, the last key first. *)
Definition bindAll (fuel : nat) (v : value) (keys : list value) : M (value * list (value * fn)) :=
  ks0 ← array_of keys;
  es ← flatten1 call fuel ks0 (VBool false) false [];
  let ks := or_undef <$> es in
  if Nat.ltb (length ks) 1 then throw (EvalError (js "bindAll must be passed function names")) else
  fs ← foldM (fun fs key =>
    f ← get_val call v key;
    b ← bind f v [];
    put_val call v key b.1;;
    mret (fs ++ [b])) [] (rev ks);
  mret (v, fs).

(** [memoize(func, hasher)]: the cache is a property of the function object. *)
Definition memoize (func hasher : value) : M (value * fn) :=
  cache0 ← new_object [];
  self ← new_function [(KStr (js "cache"), {| p_val := cache0; p_enum := true |})];
  mret (self, fun this args =>
    cache ← get_str self "cache";
    a ← (if truthy hasher then call_value call hasher this args else mret (arg args 0));
    s ← concat_str call a;
    let address := key_of_str s in
    hit ← has1 cache address;
    (if hit : bool then mret tt
     else r ← call_value call func this args; put_prop cache address r);;
    get_prop cache address).

Definition negate (predicate : value) : fn := fun this args =>
  r ← call_value call predicate this args; mret (VBool (negb (truthy r))).

(** The functions before the last one, from the right. *)
Fixpoint compose_rest (fs : list value) (this result : value) : M value :=
  match fs with
  | [] => mret result
  | f :: fs' => r ← call_value call f this [result]; compose_rest fs' this r
  end.

(** [compose(...args)]: the last function gets the arguments. *)
Definition compose (fs : list value) : fn := fun this args =>
  match rev fs with
  | [] => throw TypeError
  | f :: rest => r ← call_value call f this args; compose_rest rest this r
  end.

(** [--times] *)
Definition decrement (scope : value) : M num :=
  t ← get_var scope "times";
  n ← to_num call t;
  let n' := num_sub n (Int 1) in
  set_var scope "times" (VNum n');;
  mret n'.

Definition after (times func : value) : M fn :=
  scope ← new_scope [("times", times)];
  mret (fun this args =>
    t ← decrement scope;
    if num_ltb t (Int 1) then call_value call func this args else mret VUndef).

Definition before (times func : value) : M fn :=
  scope ← new_scope [("times", times); ("func", func); ("memo", VUndef)];
  mret (fun this args =>
    t ← decrement scope;
    (if num_ltb (Int 0) t then
       f ← get_var scope "func";
       r ← call_value call f this args;
       set_var scope "memo" r
     else mret tt);;
    t' ← get_var scope "times";
    (if (match t' with VNum n => num_leb n (Int 1) | _ => false end)
     then set_var scope "func" VNull else mret tt);;
    get_var scope "memo").

(** [once = partial(before, 2)] *)
Definition once (func : value) : M fn := before (VNum (Int 2)) func.

(** [wrap(func, wrapper) = partial(wrapper, func)] *)
Definition wrap (placeholder func wrapper : value) : M (value * fn) := partial placeholder wrapper [func].

(** ** Methods of the wrapper object *)

(** [_$1.prototype.chain] as [mixin] installs it, with [chainResult]; [fuel]
    bounds the nested calls. *)
Fixpoint chain_method (fuel : nat) (this : value) : M value :=
  match fuel with
  | O => diverge
  | S fuel' =>
      wrapped ← get_str this "_wrapped";
      v ← chain wrapped;
      c ← get_str this "_chain";
      if truthy c then w ← wrap_us v; chain_method fuel' w else mret v
  end.

Definition chainResult (fuel : nat) (instance v : value) : M value :=
  c ← get_str instance "_chain";
  if truthy c then w ← wrap_us v; chain_method fuel w else mret v.

(** A method that [mixin] makes of a function of the library. *)
Definition mixin_method (fuel : nat) (func : fn) : fn := fun this args =>
  w ← get_str this "_wrapped";
  r ← func (VRef us) (w :: args);
  chainResult fuel this r.

(** [mixin(obj)]: the named functions are copied to [_] itself, and their
    methods, new function objects, to its prototype. *)
Definition mixin (fuel : nat) (v : value) : M (list (value * fn)) :=
  names ← functions v;
  n ← length_of call names;
  proto ← get_str (VRef us) "prototype";
  iter_up n 0 (fun i ms =>
    name ← get_idx names i;
    func ← get_val call v name;
    put_val call (VRef us) name func;;
    m ← new_function [];
    put_val call proto name m;;
    mret (ms ++ [(m, mixin_method fuel (call_value call func))])) [].

(** The mutator methods of arrays on the wrapper; [method] is the function of
    [Array.prototype], [cleanup] holds for [shift] and [splice]. *)
Definition mutator_method (fuel : nat) (method : value) (cleanup : bool) : fn := fun this args =>
  v ← get_str this "_wrapped";
  (if is_nullish v then mret tt else
   call_value call method v args;;
   len ← (if cleanup then get_prop v length_key else mret VUndef);
   if strict_eq len (VNum (Int 0)) then del_prop v (KIdx 0) else mret tt);;
  chainResult fuel this v.

(** The accessor methods [concat], [join] and [slice] on the wrapper. *)
Definition accessor_method (fuel : nat) (method : value) : fn := fun this args =>
  v ← get_str this "_wrapped";
  v ← (if is_nullish v then mret v else call_value call method v args);
  chainResult fuel this v.

End functions.
End UsFunctions.
