(* ===== verification/UsTiming.v ===== *)
(** The timed wrappers of [underscore.js] (lines 1082 to 1176): [delay], [throttle]
    and [debounce] as state machines.

    The world has a clock in milliseconds and the pending timers.  A run is a
    sequence of events: calls of the wrapper, calls of its [cancel] method, and
    timers that fire, never before their deadline.  The wrapped function [func] is
    a parameter that may change the whole state, so that it may call the wrapper
    again.  [A] stands for the context and the arguments of a call, [R] for its
    result; [None] is [null] or [undefined], also for the arguments of an execution. *)

From S2P Require Import Prelude.

Module UsTiming.

(** * Timers *)

Record timer (T : Type) := { tm_id : nat; tm_deadline : Z; tm_task : T }.
Arguments tm_id {T} _.
Arguments tm_deadline {T} _.
Arguments tm_task {T} _.

(** [clearTimeout(id)] *)
Definition clear_timer {T} (id : option nat) (ts : list (timer T)) : list (timer T) :=
  match id with
  | Some i => base.filter (fun t => tm_id t <> i) ts
  | None => ts
  end.

(** The timer [id], if it is pending and due at [now]. *)
Definition due {T} (now : Z) (id : nat) (ts : list (timer T)) : option (timer T) :=
  match base.filter (fun t => tm_id t = id) ts with
  | t :: _ => if Z.leb (tm_deadline t) now then Some t else None
  | [] => None
  end.

(** ** delay and defer *)

Record schedule (F A : Type) := {
  sc_clock : Z;
  sc_timers : list (timer (F * list A));
  sc_next : nat;
}.
Arguments sc_clock {F A} _.
Arguments sc_timers {F A} _.
Arguments sc_next {F A} _.

(** [delay(func, wait, ...args)] answers the identifier of its timer. *)
Definition delay {F A} (func : F) (wait : Z) (args : list A) (w : schedule F A)
  : nat * schedule F A :=
  (sc_next w,
   {| sc_clock := sc_clock w;
      sc_timers := sc_timers w
        ++ [{| tm_id := sc_next w; tm_deadline := (sc_clock w + Z.max wait 0)%Z; tm_task := (func, args) |}];
      sc_next := S (sc_next w) |}).

(** [defer = partial(delay, _, 1)] *)
Definition defer {F A} (func : F) (args : list A) (w : schedule F A) := delay func 1 args w.

(** * throttle *)

Record options := { opt_leading : bool; opt_trailing : bool }.   (** [=== false] or not *)

Record throttle_state (A R : Type) := {
  th_timeout : option nat;
  th_args : option A;
  th_result : option R;
  th_previous : Z;
  th_clock : Z;
  th_timers : list (timer unit);
  th_next : nat;
  th_log : list (Z * option A);               (** executions of [func], the last first *)
}.
Arguments th_timeout {A R} _.
Arguments th_args {A R} _.
Arguments th_result {A R} _.
Arguments th_previous {A R} _.
Arguments th_clock {A R} _.
Arguments th_timers {A R} _.
Arguments th_next {A R} _.
Arguments th_log {A R} _.

Section throttle.
Context {A R : Type}.
Variable func : option A -> throttle_state A R -> R * throttle_state A R.
Variable wait : Z.
Variable opts : options.

Abbreviation state := (throttle_state A R).

Definition throttle_start (clock : Z) : state :=
  {| th_timeout := None; th_args := None; th_result := None; th_previous := 0;
     th_clock := clock; th_timers := []; th_next := 1; th_log := [] |}.

(** Setters of the variables of the closure. *)
Definition th_set_timeout (i : option nat) (s : state) : state :=
  {| th_timeout := i; th_args := th_args s; th_result := th_result s; th_previous := th_previous s;
     th_clock := th_clock s; th_timers := th_timers s; th_next := th_next s; th_log := th_log s |}.
Definition th_set_args (a : option A) (s : state) : state :=
  {| th_timeout := th_timeout s; th_args := a; th_result := th_result s; th_previous := th_previous s;
     th_clock := th_clock s; th_timers := th_timers s; th_next := th_next s; th_log := th_log s |}.
Definition th_set_result (r : option R) (s : state) : state :=
  {| th_timeout := th_timeout s; th_args := th_args s; th_result := r; th_previous := th_previous s;
     th_clock := th_clock s; th_timers := th_timers s; th_next := th_next s; th_log := th_log s |}.
Definition th_set_previous (p : Z) (s : state) : state :=
  {| th_timeout := th_timeout s; th_args := th_args s; th_result := th_result s; th_previous := p;
     th_clock := th_clock s; th_timers := th_timers s; th_next := th_next s; th_log := th_log s |}.
Definition th_set_timers (ts : list (timer unit)) (s : state) : state :=
  {| th_timeout := th_timeout s; th_args := th_args s; th_result := th_result s;
     th_previous := th_previous s; th_clock := th_clock s; th_timers := ts; th_next := th_next s;
     th_log := th_log s |}.
Definition th_set_clock (t : Z) (s : state) : state :=
  {| th_timeout := th_timeout s; th_args := th_args s; th_result := th_result s;
     th_previous := th_previous s; th_clock := t; th_timers := th_timers s; th_next := th_next s;
     th_log := th_log s |}.

(** [timeout = setTimeout(later, d)] *)
Definition th_arm (d : Z) (s : state) : state :=
  {| th_timeout := Some (th_next s); th_args := th_args s; th_result := th_result s;
     th_previous := th_previous s; th_clock := th_clock s;
     th_timers := th_timers s ++ [{| tm_id := th_next s; tm_deadline := (th_clock s + d)%Z; tm_task := tt |}];
     th_next := S (th_next s); th_log := th_log s |}.

(** [result = func.apply(context, args); if (!timeout) context = args = null;] *)
Definition th_execute (s : state) : state :=
  let logged :=
    {| th_timeout := th_timeout s; th_args := th_args s; th_result := th_result s; th_previous := th_previous s;
       th_clock := th_clock s; th_timers := th_timers s; th_next := th_next s;
       th_log := (th_clock s, th_args s) :: th_log s |} in
  let '(r, s1) := func (th_args s) logged in
  let s2 := th_set_result (Some r) s1 in
  match th_timeout s2 with Some _ => s2 | None => th_set_args None s2 end.

Definition th_later (s : state) : state :=
  let s1 := th_set_previous (if opt_leading opts then th_clock s else 0%Z) s in
  th_execute (th_set_timeout None s1).

Definition throttled (a : A) (s : state) : state :=
  let _now := th_clock s in
  let s1 := if Z.eqb (th_previous s) 0 && negb (opt_leading opts)
            then th_set_previous _now s else s in
  let remaining := (wait - (_now - th_previous s1))%Z in
  let s2 := th_set_args (Some a) s1 in
  if Z.leb remaining 0 || Z.ltb wait remaining then
    let s3 := match th_timeout s2 with
              | Some _ => th_set_timeout None (th_set_timers (clear_timer (th_timeout s2) (th_timers s2)) s2)
              | None => s2
              end in
    th_execute (th_set_previous _now s3)
  else if bool_decide (th_timeout s2 = None) && opt_trailing opts then th_arm remaining s2
  else s2.

Definition th_cancel (s : state) : state :=
  th_set_args None (th_set_timeout None (th_set_previous 0
    (th_set_timers (clear_timer (th_timeout s) (th_timers s)) s))).

(** ** Runs *)

Inductive th_event :=
| ThCall (t : Z) (a : A)
| ThFire (t : Z) (id : nat)
| ThCancel (t : Z).

(** The clock never goes back; a timer that is not due does not fire. *)
Inductive th_step : state -> th_event -> state -> Prop :=
| th_step_call s t a : (th_clock s <= t)%Z ->
    th_step s (ThCall t a) (throttled a (th_set_clock t s))
| th_step_fire s t id tm : (th_clock s <= t)%Z -> due t id (th_timers s) = Some tm ->
    th_step s (ThFire t id)
      (th_later (th_set_timers (clear_timer (Some id) (th_timers s)) (th_set_clock t s)))
| th_step_cancel s t : (th_clock s <= t)%Z ->
    th_step s (ThCancel t) (th_cancel (th_set_clock t s)).

Inductive th_run : state -> list th_event -> state -> Prop :=
| th_run_nil s : th_run s [] s
| th_run_snoc s es s' e s'' : th_run s es s' -> th_step s' e s'' -> th_run s (es ++ [e]) s''.

End throttle.

(** * debounce *)

Record debounce_state (A R : Type) := {
  db_timeout : option nat;
  db_previous : Z;
  db_args : option A;
  db_result : option R;
  db_clock : Z;
  db_timers : list (timer unit);
  db_next : nat;
  db_log : list (Z * option A);
}.
Arguments db_timeout {A R} _.
Arguments db_previous {A R} _.
Arguments db_args {A R} _.
Arguments db_result {A R} _.
Arguments db_clock {A R} _.
Arguments db_timers {A R} _.
Arguments db_next {A R} _.
Arguments db_log {A R} _.

Section debounce.
Context {A R : Type}.
Variable func : option A -> debounce_state A R -> R * debounce_state A R.
Variable wait : Z.
Variable immediate : bool.

Abbreviation state := (debounce_state A R).

Definition debounce_start (clock : Z) : state :=
  {| db_timeout := None; db_previous := 0; db_args := None; db_result := None;
     db_clock := clock; db_timers := []; db_next := 1; db_log := [] |}.

Definition db_set_timeout (i : option nat) (s : state) : state :=
  {| db_timeout := i; db_previous := db_previous s; db_args := db_args s; db_result := db_result s;
     db_clock := db_clock s; db_timers := db_timers s; db_next := db_next s; db_log := db_log s |}.
Definition db_set_args (a : option A) (s : state) : state :=
  {| db_timeout := db_timeout s; db_previous := db_previous s; db_args := a; db_result := db_result s;
     db_clock := db_clock s; db_timers := db_timers s; db_next := db_next s; db_log := db_log s |}.
Definition db_set_previous (p : Z) (s : state) : state :=
  {| db_timeout := db_timeout s; db_previous := p; db_args := db_args s; db_result := db_result s;
     db_clock := db_clock s; db_timers := db_timers s; db_next := db_next s; db_log := db_log s |}.
Definition db_set_result (r : option R) (s : state) : state :=
  {| db_timeout := db_timeout s; db_previous := db_previous s; db_args := db_args s; db_result := r;
     db_clock := db_clock s; db_timers := db_timers s; db_next := db_next s; db_log := db_log s |}.
Definition db_set_clock (t : Z) (s : state) : state :=
  {| db_timeout := db_timeout s; db_previous := db_previous s; db_args := db_args s;
     db_result := db_result s; db_clock := t; db_timers := db_timers s; db_next := db_next s;
     db_log := db_log s |}.
Definition db_set_timers (ts : list (timer unit)) (s : state) : state :=
  {| db_timeout := db_timeout s; db_previous := db_previous s; db_args := db_args s;
     db_result := db_result s; db_clock := db_clock s; db_timers := ts; db_next := db_next s;
     db_log := db_log s |}.

Definition db_arm (d : Z) (s : state) : state :=
  {| db_timeout := Some (db_next s); db_previous := db_previous s; db_args := db_args s;
     db_result := db_result s; db_clock := db_clock s;
     db_timers := db_timers s ++ [{| tm_id := db_next s; tm_deadline := (db_clock s + d)%Z; tm_task := tt |}];
     db_next := S (db_next s); db_log := db_log s |}.

(** [result = func.apply(context, args)] *)
Definition db_execute (s : state) : state :=
  let logged :=
    {| db_timeout := db_timeout s; db_previous := db_previous s; db_args := db_args s; db_result := db_result s;
       db_clock := db_clock s; db_timers := db_timers s; db_next := db_next s;
       db_log := (db_clock s, db_args s) :: db_log s |} in
  let '(r, s1) := func (db_args s) logged in
  db_set_result (Some r) s1.

Definition db_later (s : state) : state :=
  let passed := (db_clock s - db_previous s)%Z in
  if Z.ltb passed wait then db_arm (wait - passed)%Z s
  else
    let s1 := db_set_timeout None s in
    let s2 := if immediate then s1 else db_execute s1 in
    match db_timeout s2 with Some _ => s2 | None => db_set_args None s2 end.

Definition debounced (a : A) (s : state) : state :=
  let s1 := db_set_previous (db_clock s) (db_set_args (Some a) s) in
  match db_timeout s1 with
  | Some _ => s1
  | None => let s2 := db_arm wait s1 in if immediate then db_execute s2 else s2
  end.

Definition db_cancel (s : state) : state :=
  db_set_args None (db_set_timeout None
    (db_set_timers (clear_timer (db_timeout s) (db_timers s)) s)).

Inductive db_event :=
| DbCall (t : Z) (a : A)
| DbFire (t : Z) (id : nat)
| DbCancel (t : Z).

Inductive db_step : state -> db_event -> state -> Prop :=
| db_step_call s t a : (db_clock s <= t)%Z ->
    db_step s (DbCall t a) (debounced a (db_set_clock t s))
| db_step_fire s t id tm : (db_clock s <= t)%Z -> due t id (db_timers s) = Some tm ->
    db_step s (DbFire t id)
      (db_later (db_set_timers (clear_timer (Some id) (db_timers s)) (db_set_clock t s)))
| db_step_cancel s t : (db_clock s <= t)%Z ->
    db_step s (DbCancel t) (db_cancel (db_set_clock t s)).

Inductive db_run : state -> list db_event -> state -> Prop :=
| db_run_nil s : db_run s [] s
| db_run_snoc s es s' e s'' : db_run s es s' -> db_step s' e s'' -> db_run s (es ++ [e]) s''.

End debounce.

End UsTiming.
