(* ===== verification/UsTemplate.v ===== *)
(** HTML escaping and templates of [underscore.js] (lines 801 to 945). *)

From S2P Require Import Prelude Regex JsCore.

Module UsTemplate.

(** * Escaping *)

(** A map from strings to strings, in the order of its keys. *)
Abbreviation str_map := (list (jstr * jstr)).

Definition escapeMap : str_map :=
  [(js "&", js "&amp;"); (js "<", js "&lt;"); (js ">", js "&gt;");
   ([34%N], js "&quot;"); (js "'", js "&#x27;"); (js "`", js "&#x60;")].

(** [invert(escapeMap)] *)
Definition unescapeMap : str_map := (fun kv => (kv.2, kv.1)) <$> escapeMap.

Definition map_get (m : str_map) (s : jstr) : jstr := str_or_undefined (assoc s m).

(** [RegExp('(?:' + keys(map).join('|') + ')')]; no key has a character with a
    meaning in regular expressions. *)
Definition escape_source (m : str_map) : pattern := {| p_groups := 0; p_re := RAlts m.*1 |}.

(** The function [createEscaper(map)] returns, on strings. *)
Definition createEscaper (m : str_map) (s : jstr) : jstr :=
  if test (escape_source m) s
  then replace_all (escape_source m) s (fun r => map_get m (slice s (m_start r) (m_end r)))
  else s.

Definition escape : jstr -> jstr := createEscaper escapeMap.
Definition unescape : jstr -> jstr := createEscaper unescapeMap.

(** The argument of an escaper: null and undefined are the empty string. *)
Definition escaper_of (f : jstr -> jstr) (call : loc -> value -> list value -> M value) `{Realm}
    (v : value) : M jstr :=
  if is_nullish v then mret (f []) else s ← concat_str call v; mret (f s).

(** * Templates *)

(** A delimiter with one group, which holds the code between the marks; the
    argument is the number of the group. *)
Abbreviation delimiter := (nat -> regex).

Definition any_char : regex := RClass (fun _ => true).

Definition between (open close : jstr) : delimiter := fun n =>
  RSeq (RLit open) (RSeq (RGroup n (RPlus false any_char)) (RLit close)).

(** [/(.)^/] never matches. *)
Definition noMatch : delimiter := fun n => RSeq (RGroup n RDot) RBol.

(** A setting a caller leaves out is [None]; one set to a falsy value is [Some None]. *)
Record settings := {
  set_evaluate : option (option delimiter);
  set_interpolate : option (option delimiter);
  set_escape : option (option delimiter);
  set_variable : option jstr;
}.

Definition templateSettings : settings :=
  {| set_evaluate := Some (Some (between (js "<%") (js "%>")));
     set_interpolate := Some (Some (between (js "<%=") (js "%>")));
     set_escape := Some (Some (between (js "<%-") (js "%>")));
     set_variable := None |}.

(** [defaults({}, settings, _.templateSettings)] *)
Definition with_defaults (s : settings) : settings :=
  let pick {A} (a b : option A) := match a with Some x => Some x | None => b end in
  {| set_evaluate := pick (set_evaluate s) (set_evaluate templateSettings);
     set_interpolate := pick (set_interpolate s) (set_interpolate templateSettings);
     set_escape := pick (set_escape s) (set_escape templateSettings);
     set_variable := pick (set_variable s) (set_variable templateSettings) |}.

Definition or_noMatch (d : option (option delimiter)) : delimiter :=
  match d with Some (Some d') => d' | _ => noMatch end.

(** The delimiters as one pattern, with the end of the text as last alternative. *)
Definition template_matcher (s : settings) : pattern :=
  {| p_groups := 3;
     p_re := RAlt (or_noMatch (set_escape s) 1)
               (RAlt (or_noMatch (set_interpolate s) 2) (RAlt (or_noMatch (set_evaluate s) 3) REol)) |}.

(** The escapes of characters in a string literal. *)
Definition escapes : str_map :=
  [(js "'", js "'"); (js "\", js "\"); ([13%N], js "r"); ([10%N], js "n");
   ([0x2028%N], js "u2028"); ([0x2029%N], js "u2029")].

(** [/\\|'|\r|\n|\u2028|\u2029/g] *)
Definition escapeRegExp : pattern :=
  {| p_groups := 0; p_re := RAlts [js "\"; js "'"; [13%N]; [10%N]; [0x2028%N]; [0x2029%N]] |}.

Definition escapeChar (m : jstr) : jstr := js "\" ++ map_get escapes m.

Definition escape_literal (s : jstr) : jstr :=
  replace_all escapeRegExp s (fun r => escapeChar (slice s (m_start r) (m_end r))).

Definition bareIdentifier : pattern :=
  let spaces := RStar true (RClass is_space) in
  {| p_groups := 1;
     p_re := RSeq RBol (RSeq spaces
               (RSeq (RPlus true (RGroup 1 (RAlt (RClass is_word_char) (RLit (js "$")))))
                     (RSeq spaces REol))) |}.

(** The matches [text.replace(matcher, ...)] calls its function on. *)
Fixpoint all_matches (P : pattern) (s : jstr) (fuel pos : nat) : list rresult :=
  match fuel with
  | O => []
  | S fuel' =>
      if Nat.ltb (length s) pos then [] else
      match search_from P s (length s - pos) pos with
      | None => []
      | Some r => r :: all_matches P s fuel'
                         (if Nat.eqb (m_end r) (m_start r) then S (m_end r) else m_end r)
      end
  end.

(** A capture that is there and not empty. *)
Definition code_of (text : jstr) (r : rresult) (n : nat) : option jstr :=
  match Regex.group text r n with Some (c :: s) => Some (c :: s) | _ => None end.

Definition nl : jstr := [10%N].

(** One call of the replacing function: the literal text before the match, then
    the code of the match. *)
Definition template_step (text : jstr) (acc : jstr * nat) (r : rresult) : jstr * nat :=
  let '(source, index) := acc in
  let source := source ++ escape_literal (slice text index (m_start r)) in
  let source :=
    match code_of text r 1 with
    | Some e => source ++ js "'+" ++ nl ++ js "((__t=(" ++ e ++ js "))==null?'':_.escape(__t))+" ++ nl ++ js "'"
    | None =>
        match code_of text r 2 with
        | Some i => source ++ js "'+" ++ nl ++ js "((__t=(" ++ i ++ js "))==null?'':__t)+" ++ nl ++ js "'"
        | None =>
            match code_of text r 3 with
            | Some e => source ++ js "';" ++ nl ++ e ++ nl ++ js "__p+='"
            | None => source
            end
        end
    end in
  (source, m_end r).

(** The compiled body before the prologue. *)
Definition template_body (text : jstr) (s : settings) : jstr :=
  (foldl (template_step text) (js "__p+='", 0)
     (all_matches (template_matcher s) text (2 + length text) 0)).1 ++ js "';" ++ nl.

(** [template(text, settings)] up to [new Function(argument, '_', source)]: the
    name of the argument and the source of the function body. *)
Definition template (text : jstr) (s0 : settings) : res (jstr * jstr) :=
  let s := with_defaults s0 in
  let source := template_body text s in
  let finish source := js "var __t,__p='',__j=Array.prototype.join," ++
        js "print=function(){__p+=__j.call(arguments,'');};" ++ nl ++ source ++ js "return __p;" ++ nl in
  match set_variable s with
  | Some ((_ :: _) as argument) =>
      if test bareIdentifier argument then Ok (argument, finish source)
      else Throw (EvalError (js "variable is not a bare identifier: " ++ argument))
  | _ => Ok (js "obj", finish (js "with(obj||{}){" ++ nl ++ source ++ js "}" ++ nl))
  end.

(** [template.source] *)
Definition template_source (compiled : jstr * jstr) : jstr :=
  js "function(" ++ compiled.1 ++ js "){" ++ nl ++ compiled.2 ++ js "}".

End UsTemplate.
