(* ===== verification/JsLogic.v ===== *)
(** Reasoning about the computations of [JsCore]: a weakest precondition for
    runs that end normally, the rules of the loops, and the behaviour of property
    access on arrays. *)

From Stdlib Require Import QArith_base Qround.
From S2P Require Import Prelude Regex JsCore UsObjects UsCollections.
Import UsObjects UsCollections.

(** [m] ends normally from [s], in a result and a state that satisfy [Q]. *)
Definition wp {A} (m : M A) (s : state) (Q : A -> state -> Prop) : Prop :=
  match m s with (Done a, s') => Q a s' | _ => False end.

Section wp.
Context {A B : Type}.
Implicit Types (m : M A) (s : state).

Lemma wp_ret (a : A) s (Q : A -> state -> Prop) : Q a s -> wp (mret a) s Q.
Proof. done. Qed.

Lemma wp_bind m (f : A -> M B) s (Q : B -> state -> Prop) :
  wp m s (fun a s' => wp (f a) s' Q) -> wp (m ≫= f) s Q.
Proof. unfold wp, mbind, M_bind. by destruct (m s) as [[a|e|] s']. Qed.

Lemma wp_mono m s (P Q : A -> state -> Prop) :
  wp m s P -> (forall a s', P a s' -> Q a s') -> wp m s Q.
Proof. unfold wp. destruct (m s) as [[a|e|] s']; naive_solver. Qed.

Lemma wp_eq m s a s' (Q : A -> state -> Prop) : m s = (Done a, s') -> Q a s' -> wp m s Q.
Proof. unfold wp. by intros ->. Qed.

Lemma wp_elim m s (Q : A -> state -> Prop) :
  wp m s Q -> exists a s', m s = (Done a, s') /\ Q a s'.
Proof. unfold wp. destruct (m s) as [[a|e|] s']; naive_solver. Qed.

Lemma wp_heap s (Q : gmap loc obj -> state -> Prop) : Q (heap s) s -> wp get_heap s Q.
Proof. done. Qed.
End wp.

(** An equation for [m] decides the bind. *)
Lemma bind_eq {A B} (m : M A) (f : A -> M B) s a s' :
  m s = (Done a, s') -> (m ≫= f) s = f a s'.
Proof. unfold mbind, M_bind. by intros ->. Qed.

Lemma bind_heap {B} (f : gmap loc obj -> M B) s : (get_heap ≫= f) s = f (heap s) s.
Proof. done. Qed.

(** ** Loops *)

Lemma wp_iter_up {A} (I : nat -> A -> state -> Prop) (body : nat -> A -> M A) n i a s
    (Q : A -> state -> Prop) :
  I i a s ->
  (forall j a s, i <= j < i + n -> I j a s -> wp (body j a) s (I (S j))) ->
  (forall a s, I (i + n) a s -> Q a s) ->
  wp (iter_up n i body a) s Q.
Proof.
  revert i a s. induction n as [|n IH]; intros i a s HI Hstep HQ; simpl.
  - apply wp_ret, HQ. by rewrite Nat.add_0_r.
  - apply wp_bind. eapply wp_mono; [apply Hstep; [lia|done]|]. intros a' s' HI'.
    apply IH; [done| |].
    + intros j a'' s'' Hj. apply Hstep. lia.
    + intros a'' s''. replace (S i + n) with (i + S n) by lia. apply HQ.
Qed.

(** A loop over a list whose body is a function of the entry. *)
Lemma iter_up_list {A} (f : A -> nat -> value -> A) (vs : list value) (body : nat -> A -> M A) s a :
  (forall i x a, vs !! i = Some x -> body i a s = (Done (f a i x), s)) ->
  iter_up (length vs) 0 body a s = (Done (foldl (fun a ix => f a ix.1 ix.2) a (imap pair vs)), s).
Proof.
  intros Hbody.
  assert (forall vs' i a, vs' = drop i vs ->
    iter_up (length vs') i body a s =
    (Done (foldl (fun a ix => f a ix.1 ix.2) a (imap (fun j => pair (i + j)) vs')), s)) as Hgen.
  { induction vs' as [|x vs' IH]; intros i a' E; simpl; [done|].
    assert (vs !! i = Some x) as Hx.
    { rewrite <- (Nat.add_0_r i), <- lookup_drop, <- E. done. }
    rewrite (bind_eq _ _ _ _ _ (Hbody i x a' Hx)), IH.
    - do 2 f_equal. simpl. rewrite Nat.add_0_r. f_equal.
      apply imap_ext. intros j y _. simpl. f_equal. lia.
    - rewrite (drop_S vs x i Hx) in E. by injection E. }
  rewrite (Hgen vs 0); [done|by rewrite drop_0].
Qed.

Lemma wp_foldM {A B} (I : nat -> A -> state -> Prop) (f : A -> B -> M A) (l : list B) a s
    (Q : A -> state -> Prop) :
  I 0 a s ->
  (forall j x a s, l !! j = Some x -> I j a s -> wp (f a x) s (I (S j))) ->
  (forall a s, I (length l) a s -> Q a s) ->
  wp (foldM f a l) s Q.
Proof.
  revert I a s. induction l as [|x l IH]; intros I a s HI Hstep HQ; simpl.
  - by apply wp_ret, HQ.
  - apply wp_bind. eapply wp_mono; [by apply (Hstep 0 x)|]. intros a' s' HI'.
    apply (IH (fun j => I (S j))); [done| |done].
    intros j y a'' s'' Hy. by apply Hstep.
Qed.

(** ** Lists *)

Lemma find_ext {A} (p q : A -> bool) l : (forall x, p x = q x) -> List.find p l = List.find q l.
Proof. intros E. induction l as [|x l IH]; simpl; [done|]. by rewrite E, IH. Qed.

Lemma find_first {A} (p : A -> bool) l x :
  List.find p l = Some x ->
  p x = true /\ exists j, l !! j = Some x /\ forall j' y, j' < j -> l !! j' = Some y -> p y = false.
Proof.
  induction l as [|z l IH]; simpl; [done|]. destruct (p z) eqn:E.
  - intros [= ->]. split; [done|]. exists 0. split; [done|]. lia.
  - intros Hf. destruct (IH Hf) as (Hp & j & Hj & Hmin). split; [done|]. exists (S j).
    split; [done|]. intros [|j'] y Hlt Hy; simpl in Hy; [congruence|]. apply (Hmin j'); [lia|done].
Qed.

(** ** Numbers and keys *)

Lemma num_leb_Int a b : num_leb (Int a) (Int b) = Z.leb a b.
Proof.
  unfold num_leb. simpl.
  by destruct (Z.ltb_spec a b), (Z.eqb_spec a b), (Z.leb_spec a b); try lia.
Qed.

Lemma num_min_Int a b : num_min (Int a) (Int b) = Int (Z.min a b).
Proof.
  unfold num_min. cbn [num_ltb num_eqb num_fin].
  destruct (Z.ltb_spec b a); [f_equal; lia|]. destruct (Z.eqb_spec a b); f_equal; lia.
Qed.

Lemma num_max_Int a b : num_max (Int a) (Int b) = Int (Z.max a b).
Proof.
  unfold num_max. cbn [num_ltb num_eqb num_fin].
  destruct (Z.ltb_spec a b); [f_equal; lia|]. destruct (Z.eqb_spec a b); f_equal; lia.
Qed.

Lemma to_key_nat `{Realm} call n s : to_key call (VNat n) s = (Done (KIdx n), s).
Proof.
  unfold to_key, VNat, prim_to_key. simpl. unfold mbind, M_bind, mret, M_ret, of_res.
  rewrite (proj2 (Z.leb_le _ _)) by lia. by rewrite Nat2Z.id.
Qed.

(** ** Arrays *)

(** In the heap [h], [v] is an array without holes that holds [vs]. *)
Definition is_arr (h : gmap loc obj) (v : value) (vs : list value) : Prop :=
  exists l o, v = VRef l /\ h !! l = Some o /\ o_class o = CArray /\ o_elems o = Some <$> vs.

Section arrays.
Context `{Realm}.
Implicit Types (s : state) (vs : list value).

Lemma own_get_arr o vs i x :
  o_class o = CArray -> o_elems o = Some <$> vs -> vs !! i = Some x ->
  own_get o (KIdx i) = Some x.
Proof.
  intros Hc He Hx. unfold own_get. rewrite Hc. simpl. by rewrite He, list_lookup_fmap, Hx.
Qed.

Lemma own_get_len o vs :
  o_class o = CArray -> o_elems o = Some <$> vs -> own_get o length_key = Some (VNat (length vs)).
Proof.
  intros Hc He. unfold own_get, length_key. rewrite Hc. simpl.
  by rewrite He, length_fmap.
Qed.

Lemma lookup_own h l o k v :
  h !! l = Some o -> own_get o k = Some v -> obj_lookup h l k = Some v.
Proof. intros Hl Hv. unfold obj_lookup. simpl. by rewrite Hl, Hv. Qed.

Lemma get_idx_arr s v vs i x :
  is_arr (heap s) v vs -> vs !! i = Some x -> get_idx v i s = (Done x, s).
Proof.
  intros (l & o & -> & Hl & Hc & He) Hx. unfold get_idx, get_prop. rewrite bind_heap.
  rewrite (lookup_own _ _ _ _ _ Hl (own_get_arr _ _ _ _ Hc He Hx)). done.
Qed.

Lemma get_len_arr s v vs :
  is_arr (heap s) v vs -> get_prop v length_key s = (Done (VNat (length vs)), s).
Proof.
  intros (l & o & -> & Hl & Hc & He). unfold get_prop. rewrite bind_heap.
  by rewrite (lookup_own _ _ _ _ _ Hl (own_get_len _ _ Hc He)).
Qed.

Lemma is_arr_ref h v vs : is_arr h v vs -> exists l, v = VRef l.
Proof. intros (l & o & -> & _). by exists l. Qed.

Lemma getLength_arr s v vs :
  is_arr (heap s) v vs -> getLength v s = (Done (VNat (length vs)), s).
Proof.
  intros Ha. unfold getLength, shallowProperty. destruct (is_arr_ref _ _ _ Ha) as [l ->].
  by apply get_len_arr.
Qed.

Lemma to_num_nat call n s : to_num call (VNat n) s = (Done (Int (Z.of_nat n)), s).
Proof. done. Qed.

Lemma rounds_nat call n s : rounds call (VNat n) s = (Done n, s).
Proof. unfold rounds. rewrite (bind_eq _ _ _ _ _ (to_num_nat call n s)). simpl. by rewrite Nat2Z.id. Qed.

Lemma length_of_arr call s v vs :
  is_arr (heap s) v vs -> length_of call v s = (Done (length vs), s).
Proof.
  intros Ha. unfold length_of. rewrite (bind_eq _ _ _ _ _ (get_len_arr _ _ _ Ha)).
  rewrite (bind_eq _ _ _ _ _ (to_num_nat call _ s)). simpl. by rewrite Nat2Z.id.
Qed.

(** A length that an array-like value may have. *)
Definition short (vs : list value) : Prop := (Z.of_nat (length vs) <= MAX_ARRAY_INDEX)%Z.

Lemma isArrayLike_arr s v vs :
  is_arr (heap s) v vs -> short vs -> isArrayLike v s = (Done true, s).
Proof.
  intros Ha Hs. unfold isArrayLike, createSizePropertyCheck.
  rewrite (bind_eq _ _ _ _ _ (getLength_arr _ _ _ Ha)). unfold mret, M_ret. do 2 f_equal.
  unfold VNat. rewrite !num_leb_Int, !(proj2 (Z.leb_le _ _)); [done|exact Hs|lia].
Qed.

Lemma loop_keys_arr `{Engine} call s v vs :
  is_arr (heap s) v vs -> short vs -> loop_keys call v s = (Done (None, length vs), s).
Proof.
  intros Ha Hs. unfold loop_keys. rewrite (bind_eq _ _ _ _ _ (isArrayLike_arr _ _ _ Ha Hs)).
  rewrite (bind_eq _ _ _ _ _ (get_len_arr _ _ _ Ha)).
  by rewrite (bind_eq _ _ _ _ _ (rounds_nat call _ s)).
Qed.

Lemma get_val_arr call s v vs i x :
  is_arr (heap s) v vs -> vs !! i = Some x -> get_val call v (VNat i) s = (Done x, s).
Proof.
  intros Ha Hx. unfold get_val. destruct (is_arr_ref _ _ _ Ha) as [l ->].
  cbn [is_nullish]. rewrite (bind_eq _ _ _ _ _ (to_key_nat call i s)).
  by apply (get_idx_arr _ _ vs).
Qed.

(** [each] over an array whose body is a function of the entry. *)
Lemma each_acc_arr `{Engine} {A} call s v vs (f : A -> nat -> value -> A)
    (body : A -> value -> value -> M A) a :
  is_arr (heap s) v vs -> short vs ->
  (forall i x a, vs !! i = Some x -> body a x (VNat i) s = (Done (f a i x), s)) ->
  each_acc call v body a s = (Done (foldl (fun a ix => f a ix.1 ix.2) a (imap pair vs)), s).
Proof.
  intros Ha Hs Hb. unfold each_acc.
  rewrite (bind_eq _ _ _ _ _ (loop_keys_arr call _ _ _ Ha Hs)).
  apply iter_up_list. intros i x a' Hx. unfold currentKey. fold (VNat i).
  rewrite (bind_eq _ _ _ _ _ (get_val_arr call _ _ _ _ _ Ha Hx)). by apply Hb.
Qed.

(** ** New objects *)

(** [s'] has every object of [s], unchanged. *)
Definition ext (s s' : state) : Prop := heap s ⊆ heap s'.

Lemma ext_refl s : ext s s.
Proof. unfold ext. done. Qed.

Lemma ext_trans s1 s2 s3 : ext s1 s2 -> ext s2 s3 -> ext s1 s3.
Proof. unfold ext. intros. by etrans. Qed.

Lemma is_arr_ext s s' v vs : ext s s' -> is_arr (heap s) v vs -> is_arr (heap s') v vs.
Proof.
  intros He (l & o & -> & Hl & Hc & Hel). exists l, o. repeat split; try done.
  by apply (lookup_weaken _ _ _ _ Hl).
Qed.

Lemma wp_alloc o s (Q : value -> state -> Prop) :
  (forall l s', heap s !! l = None -> heap s' = <[l := o]> (heap s) -> rnd s' = rnd s ->
    ids s' = ids s -> Q (VRef l) s') ->
  wp (alloc o) s Q.
Proof.
  intros HQ. unfold wp, alloc. apply HQ; [|done..].
  apply not_elem_of_dom, is_fresh.
Qed.

Lemma wp_array_of vs s (Q : value -> state -> Prop) :
  (forall v s', ext s s' -> is_arr (heap s') v vs -> rnd s' = rnd s -> ids s' = ids s ->
     (exists l, v = VRef l /\ heap s !! l = None) -> Q v s') ->
  wp (array_of vs) s Q.
Proof.
  intros HQ. unfold array_of, new_array. apply wp_alloc. intros l s' Hl Hh Hr Hi.
  apply HQ; [|  |done|done|by exists l].
  - unfold ext. rewrite Hh. by apply insert_subseteq.
  - exists l. eexists. split; [done|]. by rewrite Hh, lookup_insert_eq.
Qed.

(** ** Slices *)

Lemma read_elems_arr s v vs i n :
  is_arr (heap s) v vs -> i + n <= length vs ->
  read_elems v i n s = (Done (Some <$> take n (drop i vs)), s).
Proof.
  intros Ha. revert i. induction n as [|n IH]; intros i Hn; [done|]. cbn [read_elems].
  destruct (lookup_lt_is_Some_2 vs i ltac:(lia)) as [x Hx].
  assert (in_obj (KIdx i) v s = (Done true, s)) as Hin.
  { destruct Ha as (l & o & -> & Hl & Hc & He). unfold in_obj. rewrite bind_heap.
    by rewrite (lookup_own _ _ _ _ _ Hl (own_get_arr _ _ _ _ Hc He Hx)). }
  rewrite (bind_eq _ _ _ _ _ Hin), (bind_eq _ _ _ _ _ (get_idx_arr _ _ _ _ _ Ha Hx)).
  rewrite (bind_eq _ _ _ _ _ (IH (S i) ltac:(lia))). by rewrite (drop_S vs x i Hx).
Qed.

Lemma rel_index_le n len : rel_index n len <= len.
Proof. destruct n as [| | | |z]; simpl; try lia. destruct (Z.ltb_spec z 0); lia. Qed.

(** [slice] copies the entries from one relative index to another. *)
Lemma wp_array_slice call s v vs a b (Q : value -> state -> Prop) :
  is_arr (heap s) v vs ->
  (let i := rel_index a (length vs) in
   let j := match b with Some e => rel_index e (length vs) | None => length vs end in
   forall r s', ext s s' -> is_arr (heap s') r (take (j - i) (drop i vs)) ->
     rnd s' = rnd s -> ids s' = ids s -> (exists l, r = VRef l /\ heap s !! l = None) -> Q r s') ->
  wp (array_slice call v a b) s Q.
Proof.
  intros Ha HQ. unfold array_slice. destruct (is_arr_ref _ _ _ Ha) as [l ->]. cbn [is_nullish to_object].
  apply wp_bind, wp_ret, wp_bind. eapply wp_eq; [by apply length_of_arr|].
  pose proof (rel_index_le a (length vs)) as H1.
  assert (match b with Some e => rel_index e (length vs) | None => length vs end <= length vs) as H2.
  { destruct b; [apply rel_index_le|done]. }
  apply wp_bind. eapply wp_eq; [apply read_elems_arr; [done|lia]|].
  apply wp_array_of. intros r s'. apply HQ.
Qed.

(** ** Scans *)

(** The indices a scan visits, in order. *)
Fixpoint visit (up : bool) (n i : nat) : list nat :=
  match n with O => [] | S n' => i :: visit up n' (if up then S i else Nat.pred i) end.

Lemma scan_spec (up : bool) n i (p : nat -> bool) (body : nat -> M (option nat)) s :
  (forall j, j ∈ visit up n i -> body j s = (Done (if p j then Some j else None), s)) ->
  scan up n i body s = (Done (List.find p (visit up n i)), s).
Proof.
  revert i. induction n as [|n IH]; intros i Hb; [done|]. cbn [scan visit List.find].
  rewrite (bind_eq _ _ _ _ _ (Hb i ltac:(simpl; set_solver))).
  destruct (p i); [done|]. apply IH. intros j Hj. apply Hb. simpl. set_solver.
Qed.

Lemma visit_up n i : visit true n i = seq i n.
Proof. revert i. induction n as [|n IH]; intros i; simpl; [done|]. by rewrite IH. Qed.

Lemma visit_down n : visit false n (Nat.pred n) = rev (seq 0 n).
Proof. induction n as [|n IH]; [done|]. rewrite seq_S, rev_app_distr. simpl. by rewrite IH. Qed.

Lemma visit_lookup (up : bool) n i j :
  j < n -> visit up n i !! j = Some (if up then i + j else i - j).
Proof.
  revert i j. induction n as [|n IH]; intros i j Hj; [lia|]. destruct j as [|j]; simpl.
  - f_equal. destruct up; lia.
  - rewrite IH by lia. f_equal. destruct up; lia.
Qed.

Lemma visit_length (up : bool) n i : length (visit up n i) = n.
Proof. revert i. induction n as [|n IH]; intros i; simpl; [done|]. by rewrite IH. Qed.

Lemma visit_lt (up : bool) n j : j ∈ visit up n (if up then 0 else Nat.pred n) -> j < n.
Proof.
  destruct up; [rewrite visit_up|rewrite visit_down, list_elem_of_In, <- in_rev, <- list_elem_of_In];
    rewrite elem_of_seq; lia.
Qed.

(** ** Writing *)

Lemma wp_array_push call s l vs v (Q : unit -> state -> Prop) :
  is_arr (heap s) (VRef l) vs ->
  (forall s', is_arr (heap s') (VRef l) (vs ++ [v]) -> (forall l', l' <> l -> heap s' !! l' = heap s !! l') ->
    Q tt s') ->
  wp (array_push call (VRef l) v) s Q.
Proof.
  intros Ha HQ. unfold array_push. apply wp_bind. eapply wp_eq; [by apply length_of_arr|].
  destruct Ha as (l' & o & [= <-] & Hl & Hc & He). unfold put_prop. apply wp_bind, wp_heap.
  rewrite Hl. unfold set_heap, wp. apply HQ.
  - exists l. eexists. split; [done|]. simpl. rewrite lookup_insert_eq. split; [done|].
    unfold own_put. rewrite Hc. split; [done|]. simpl. unfold elems_put.
    rewrite He, length_fmap, Nat.ltb_irrefl, Nat.sub_diag, fmap_app. done.
  - intros l' Hne. simpl. by rewrite lookup_insert_ne.
Qed.

(** A location that is new with respect to [s0] may be written freely. *)
Lemma ext_write s0 s s' l :
  ext s0 s -> heap s0 !! l = None -> (forall l', l' <> l -> heap s' !! l' = heap s !! l') -> ext s0 s'.
Proof.
  unfold ext. intros He Hn Hw. apply map_subseteq_spec. intros l' o Hl'.
  rewrite Hw by congruence. by apply (lookup_weaken _ _ _ _ Hl').
Qed.

(** ** Arrays as lists *)

Lemma isArray_arr `{Engine} h v vs : is_arr h v vs -> isArray h v = true.
Proof.
  intros (l & o & -> & Hl & Hc & _). unfold isArray. destruct nativeIsArray.
  - apply bool_decide_true. unfold class_of. by rewrite Hl.
  - unfold tagTester. apply bool_decide_true. unfold toString_tag, value_class, class_of. by rewrite Hl, Hc.
Qed.

Lemma read_args_arr s v vs i n :
  is_arr (heap s) v vs -> i + n <= length vs -> read_args v i n s = (Done (take n (drop i vs)), s).
Proof.
  intros Ha. revert i. induction n as [|n IH]; intros i Hn; [done|]. cbn [read_args].
  destruct (lookup_lt_is_Some_2 vs i ltac:(lia)) as [x Hx].
  rewrite (bind_eq _ _ _ _ _ (get_idx_arr _ _ _ _ _ Ha Hx)).
  rewrite (bind_eq _ _ _ _ _ (IH (S i) ltac:(lia))). by rewrite (drop_S vs x i Hx).
Qed.

Lemma list_of_arr call s v vs : is_arr (heap s) v vs -> list_of call v s = (Done vs, s).
Proof.
  intros Ha. unfold list_of. rewrite (bind_eq _ _ _ _ _ (length_of_arr call _ _ _ Ha)).
  rewrite (read_args_arr _ _ vs) by (done || lia). by rewrite drop_0, firstn_all.
Qed.
End arrays.
