(* ===== verification/UsArrayProofs.v ===== *)
(** What the searches, the set operations and the slicing of [underscore.js]
    compute on arrays. *)

From Stdlib Require Import QArith_base Qround.
From S2P Require Import Prelude Regex JsCore UsObjects UsCollections UsArrays JsLogic.
Import UsObjects UsCollections UsArrays.

Module UsArrayProofs.

Section proofs.
Context `{Realm} `{Engine}.
Variable call : loc -> value -> list value -> M value.
Implicit Types (s : state) (vs : list value).

(** ** Binary search *)

Lemma js_lt_ints a b s : js_lt call (VNum (Int a)) (VNum (Int b)) s = (Done (Z.ltb a b), s).
Proof. done. Qed.

(** The computed criteria of the entries are integers, in ascending order. *)
Definition sorted_by (g : value -> Z) (vs : list value) : Prop :=
  forall i j x y, i <= j -> vs !! i = Some x -> vs !! j = Some y -> (g x <= g y)%Z.

Lemma sortedIndex_loop_spec s array vs f g v :
  is_arr (heap s) array vs -> sorted_by g vs ->
  (forall x, x ∈ vs -> f [x] s = (Done (VNum (Int (g x))), s)) ->
  forall fuel low high, low <= high <= length vs -> high - low <= fuel ->
  (forall i x, vs !! i = Some x -> i < low -> (g x < v)%Z) ->
  (forall i x, vs !! i = Some x -> high <= i -> (v <= g x)%Z) ->
  exists k, sortedIndex_loop call fuel f array (VNum (Int v)) low high s = (Done k, s) /\
    k <= length vs /\ (forall i x, vs !! i = Some x -> i < k <-> (g x < v)%Z).
Proof.
  intros Ha Hsort Hf. induction fuel as [|fuel IH]; intros low high Hb Hfuel Hlow Hhigh;
    cbn [sortedIndex_loop].
  - assert (low = high) as -> by lia. rewrite Nat.ltb_irrefl. exists high. split; [done|].
    split; [lia|]. intros i x Hx. split; [by apply Hlow|].
    intros Hlt. destruct (decide (i < high)); [done|]. specialize (Hhigh i x Hx). lia.
  - destruct (Nat.ltb_spec low high) as [Hlt|Hge].
    + set (mid := (low + high) / 2).
      assert (low <= mid < high) as Hmid.
      { unfold mid. split; [apply Nat.div_le_lower_bound; lia|apply Nat.div_lt_upper_bound; lia]. }
      destruct (lookup_lt_is_Some_2 vs mid ltac:(lia)) as [x Hx].
      rewrite (bind_eq _ _ _ _ _ (get_idx_arr _ _ _ _ _ Ha Hx)).
      rewrite (bind_eq _ _ _ _ _ (Hf x (list_elem_of_lookup_2 _ _ _ Hx))).
      rewrite (bind_eq _ _ _ _ _ (js_lt_ints _ _ s)).
      destruct (Z.ltb_spec (g x) v) as [Hxv|Hxv].
      * apply IH; [lia|lia| |done]. intros i y Hy Hi.
        pose proof (Hsort i mid y x ltac:(lia) Hy Hx). lia.
      * apply IH; [lia|lia|done|]. intros i y Hy Hi.
        pose proof (Hsort mid i x y ltac:(lia) Hx Hy). lia.
    + assert (low = high) as -> by lia. exists high. split; [done|]. split; [lia|].
      intros i x Hx. split; [by apply Hlow|].
      intros Hlt. destruct (decide (i < high)); [done|]. specialize (Hhigh i x Hx). lia.
Qed.

(** [_.sortedIndex] ends on every array whose computed criteria are ascending
    integers, leaves the state as it is, and answers the position that separates
    the entries below the criterion of the object from the others, so that
    inserting the object there keeps the order. *)
Theorem sortedIndex_correct s array vs obj it ctx f g :
  is_arr (heap s) array vs -> sorted_by g vs ->
  cb call it ctx (VNum (Int 1)) s = (Done f, s) ->
  (forall x, x ∈ obj :: vs -> f [x] s = (Done (VNum (Int (g x))), s)) ->
  exists k, sortedIndex call array obj it ctx s = (Done k, s) /\
    k <= length vs /\
    (forall i x, vs !! i = Some x -> i < k <-> (g x < g obj)%Z) /\
    sorted_by g (take k vs ++ obj :: drop k vs).
Proof.
  intros Ha Hsort Hcb Hf. unfold sortedIndex. rewrite (bind_eq _ _ _ _ _ Hcb).
  rewrite (bind_eq _ _ _ _ _ (Hf obj ltac:(set_solver))).
  rewrite (bind_eq _ _ _ _ _ (getLength_arr _ _ _ Ha)).
  rewrite (bind_eq _ _ _ _ _ (rounds_nat call _ s)).
  destruct (sortedIndex_loop_spec s array vs f g (g obj) Ha Hsort ltac:(set_solver)
              (length vs) 0 (length vs)) as (k & Hk & Hle & Hspec); [lia|lia|lia| |].
  { intros i x Hx. pose proof (lookup_lt_Some _ _ _ Hx). lia. }
  exists k. split; [done|]. split; [done|]. split; [done|].
  intros i j x y Hij Hx Hy.
  assert (forall p z, (take k vs ++ obj :: drop k vs) !! p = Some z ->
    (p < k /\ vs !! p = Some z) \/ (p = k /\ z = obj) \/ (k < p /\ vs !! (p - 1) = Some z)) as Hcases.
  { intros p z Hz. destruct (decide (p < k)).
    - left. rewrite lookup_app_l in Hz by (rewrite length_take; lia).
      by rewrite lookup_take_lt in Hz by done.
    - right. rewrite lookup_app_r in Hz by (rewrite length_take; lia).
      rewrite length_take, (Nat.min_l k) in Hz by lia.
      destruct (p - k) as [|m] eqn:E; simpl in Hz; [left; split; [lia|congruence]|].
      right. split; [lia|]. rewrite lookup_drop in Hz. by replace (p - 1) with (k + m) by lia. }
  apply Hcases in Hx as [[Hi Hx]|[[-> ->]|[Hi Hx]]]; apply Hcases in Hy as [[Hj Hy]|[[-> ->]|[Hj Hy]]];
    try lia.
  - by apply (Hsort i j).
  - apply Z.lt_le_incl, (Hspec i x Hx). lia.
  - apply (Hsort i (j - 1) x y); [lia|done|done].
  - apply Z.nlt_ge. intros Hlt. apply (Hspec (j - 1) y Hy) in Hlt. lia.
  - by apply (Hsort (i - 1) (j - 1) x y); [lia| |].
Qed.

(** ** Membership *)

(** Equality as the searches use it: strict, but NaN is found. *)
Definition same_value (x y : value) : bool :=
  strict_eq x y || (bool_decide (x = VNum NaN) && bool_decide (y = VNum NaN)).

(** The entries that count as numbers are number primitives. *)
Definition no_wrappers (h : gmap loc obj) (vs : list value) : Prop :=
  forall x, x ∈ vs -> isNumber h x = true -> exists n, x = VNum n.

Lemma strict_eq_refl v : strict_eq v v = negb (bool_decide (v = VNum NaN)).
Proof.
  destruct v as [| | | [| | | |z]| | |]; simpl; try done; try by rewrite !bool_decide_true.
  - by rewrite Z.eqb_refl.
Qed.

Lemma isNaN_plain h x s :
  (isNumber (heap s) x = true -> exists n, x = VNum n) -> h = heap s ->
  isNaN call x s = (Done (bool_decide (x = VNum NaN)), s).
Proof.
  intros Hx ->. unfold isNaN. rewrite bind_heap. destruct (isNumber (heap s) x) eqn:E.
  - destruct (Hx eq_refl) as [n ->]. unfold mbind, M_bind, to_num, to_prim. simpl.
    unfold mret, M_ret. do 2 f_equal. apply bool_decide_ext. split; congruence.
  - rewrite bool_decide_false; [done|]. intros ->. done.
Qed.

Lemma no_wrappers_sub h vs ws : (forall x, x ∈ ws -> x ∈ vs) -> no_wrappers h vs -> no_wrappers h ws.
Proof. intros Hsub Hn x Hx. apply Hn. by apply Hsub. Qed.

(** Extending the heap does not turn an object of the heap into a number. *)
Definition known (h : gmap loc obj) (vs : list value) : Prop :=
  forall l, VRef l ∈ vs -> is_Some (h !! l).

Lemma no_wrappers_ext s s' vs :
  ext s s' -> known (heap s) vs -> no_wrappers (heap s) vs -> no_wrappers (heap s') vs.
Proof.
  intros He Hk Hn x Hx E. apply (Hn x Hx).
  destruct x as [| | | | | |l]; try done. destruct (Hk l Hx) as [o Ho].
  unfold isNumber, tagTester, toString_tag, value_class, class_of in *.
  rewrite Ho. by rewrite (lookup_weaken _ _ _ _ Ho He) in E.
Qed.

Lemma findIndexWith_arr (up : bool) s array vs (pred : cbk) (p : value -> bool) :
  is_arr (heap s) array vs ->
  (forall i x, vs !! i = Some x -> exists b, pred [x; VNat i; array] s = (Done b, s) /\ truthy b = p x) ->
  findIndexWith call up array pred s =
  (Done (match List.find (fun i => match vs !! i with Some x => p x | None => false end)
                 (visit up (length vs) (if up then 0 else Nat.pred (length vs))) with
         | Some i => Z.of_nat i | None => -1 end)%Z, s).
Proof.
  intros Ha Hp. unfold findIndexWith. rewrite (bind_eq _ _ _ _ _ (getLength_arr _ _ _ Ha)).
  rewrite (bind_eq _ _ _ _ _ (rounds_nat call _ s)).
  erewrite bind_eq; [|apply (scan_spec up _ _
    (fun i => match vs !! i with Some x => p x | None => false end))]; [done|].
  intros j Hj. apply visit_lt in Hj.
  destruct (lookup_lt_is_Some_2 vs j ltac:(lia)) as [x Hx].
  rewrite (bind_eq _ _ _ _ _ (get_idx_arr _ _ _ _ _ Ha Hx)).
  rewrite Hx. destruct (Hp j x Hx) as (b & Hb & <-). by rewrite (bind_eq _ _ _ _ _ Hb).
Qed.

(** The position a search for [item] answers: the first one in its direction. *)
Definition position (up : bool) (vs : list value) (item : value) : num :=
  match List.find (fun i => match vs !! i with Some x => same_value x item | None => false end)
          (visit up (length vs) (if up then 0 else Nat.pred (length vs))) with
  | Some i => Int (Z.of_nat i)
  | None => Int (-1)
  end.

Lemma wp_createIndexFinder (up sorted : bool) s array vs item idx :
  is_arr (heap s) array vs -> no_wrappers (heap s) vs -> known (heap s) vs ->
  idx = VUndef \/ (up = true /\ idx = VNum (Int 0)) ->
  wp (createIndexFinder call up sorted array item idx) s
    (fun r s' => r = position up vs item /\ ext s s').
Proof.
  intros Ha Hn Hk Hidx. unfold createIndexFinder.
  apply wp_bind. eapply wp_eq; [by apply getLength_arr|].
  apply wp_bind. eapply wp_eq; [by apply to_num_nat|].
  assert ((let '(i, len) := match idx with
      VNum n => finder_bounds up n (Int (Z.of_nat (length vs))) | _ => (Int 0, Int (Z.of_nat (length vs))) end
      in (i, len)) = (Int 0, Int (Z.of_nat (length vs)))) as Hb.
  { destruct Hidx as [->|[-> ->]]; done. }
  assert ((match idx with VNum _ => false
           | _ => sorted && truthy idx && truthy (VNat (length vs)) end) = false) as Hs.
  { destruct Hidx as [->|[_ ->]]; [simpl; by rewrite andb_false_r|done]. }
  rewrite Hs. clear Hs.
  destruct (match idx with
    VNum n => finder_bounds up n (Int (Z.of_nat (length vs))) | _ => _ end) as [i len].
  injection Hb as -> ->.
  rewrite strict_eq_refl. destruct (decide (item = VNum NaN)) as [->|Hitem].
  - rewrite bool_decide_true by done. cbn [negb]. apply wp_bind. eapply wp_array_slice; [done|].
    cbn zeta. intros r s' Hext Hr _ _ _. replace (rel_index (Int 0) (length vs)) with 0 in Hr by (simpl; lia).
    replace (rel_index (Int (Z.of_nat (length vs))) (length vs)) with (length vs) in Hr by
      (simpl; destruct (Z.ltb_spec (Z.of_nat (length vs)) 0); lia).
    rewrite Nat.sub_0_r, drop_0, firstn_all in Hr.
    apply wp_bind. eapply wp_eq.
    { apply (findIndexWith_arr up s' r vs _ (fun x => bool_decide (x = VNum NaN))); [done|].
      intros i x Hx. eexists. split.
      - rewrite (bind_eq _ _ _ _ _ (isNaN_plain (heap s') _ _
          (no_wrappers_ext s s' vs Hext Hk Hn x (list_elem_of_lookup_2 _ _ _ Hx)) eq_refl)). done.
      - done. }
    apply wp_ret. split; [|done]. unfold position.
    rewrite (find_ext _ (fun i => match vs !! i with Some x => same_value x (VNum NaN) | None => false end)).
    + destruct (List.find _ _) as [k|]; [|done]. rewrite (proj2 (Z.leb_le _ _)) by lia. simpl.
      by rewrite Z.add_0_r.
    + intros i. destruct (vs !! i) as [x|]; [|done]. unfold same_value.
      rewrite (bool_decide_true (VNum NaN = VNum NaN)), andb_true_r by done.
      destruct (decide (x = VNum NaN)) as [->|Hx]; [done|]. rewrite (bool_decide_false _ Hx), orb_false_r.
      by destruct x as [| | | [| | | |z]| | |].
  - rewrite bool_decide_false by done. cbn [negb].
    assert (scan_range up (Int 0) (Int (Z.of_nat (length vs))) =
      (if up then 0 else Nat.pred (length vs), length vs)) as ->.
    { unfold scan_range. simpl. destruct up; f_equal; lia. }
    apply wp_bind. eapply wp_eq.
    { apply (scan_spec up _ _ (fun i => match vs !! i with Some x => same_value x item | None => false end)).
      intros j Hj. apply visit_lt in Hj. destruct (lookup_lt_is_Some_2 vs j ltac:(lia)) as [x Hx].
      rewrite (bind_eq _ _ _ _ _ (get_idx_arr _ _ _ _ _ Ha Hx)), Hx. unfold same_value.
      by rewrite (bool_decide_false _ Hitem), andb_false_r, orb_false_r. }
    apply wp_ret. split; [done|apply ext_refl].
Qed.


Lemma position_spec (up : bool) vs item :
  (position up vs item = Int (-1) /\ forall x, x ∈ vs -> same_value x item = false) \/
  (exists k x, position up vs item = Int (Z.of_nat k) /\ vs !! k = Some x /\ same_value x item = true /\
    forall j y, (if up then j < k else k < j) -> vs !! j = Some y -> same_value y item = false).
Proof.
  unfold position. set (p := fun i => match vs !! i with Some x => same_value x item | None => false end).
  set (l := visit up (length vs) _).
  assert (forall j y, vs !! j = Some y -> l !! (if up then j else length vs - S j) = Some j) as Hl.
  { intros j y Hy. pose proof (lookup_lt_Some _ _ _ Hy). unfold l.
    rewrite visit_lookup by (destruct up; lia). f_equal. destruct up; lia. }
  destruct (List.find p l) as [k|] eqn:E.
  - right. destruct (find_first p l k E) as (Hp & j & Hj & Hmin). unfold p in Hp.
    destruct (vs !! k) as [x|] eqn:Hk; [|done]. exists k, x. repeat split; try done.
    intros j' y Hlt Hy. assert (p j' = false) as Hp'; [|unfold p in Hp'; by rewrite Hy in Hp'].
    pose proof (lookup_lt_Some _ _ _ Hy). pose proof (lookup_lt_Some _ _ _ Hk).
    pose proof (lookup_lt_Some _ _ _ Hj) as Hjl. unfold l in Hjl. rewrite visit_length in Hjl.
    apply (Hmin (if up then j' else length vs - S j')); [|by eapply Hl].
    unfold l in Hj. rewrite visit_lookup in Hj by done. injection Hj as Hj. destruct up; lia.
  - left. split; [done|]. intros x Hx. apply list_elem_of_lookup in Hx as [j Hj].
    pose proof (List.find_none p l E j) as Hn. unfold p in Hn. rewrite Hj in Hn. apply Hn.
    apply list_elem_of_In, list_elem_of_lookup. eexists. by eapply Hl.
Qed.

(** [_.indexOf] and [_.lastIndexOf] end on every array: they answer the first,
    respectively the last position that holds the item, or -1 when no entry does,
    where NaN counts as equal to itself; no object of the heap changes. *)
Theorem index_finders_correct (up sorted : bool) s array vs item :
  is_arr (heap s) array vs -> no_wrappers (heap s) vs -> known (heap s) vs ->
  exists r s', createIndexFinder call up sorted array item VUndef s = (Done r, s') /\ ext s s' /\
    ((r = Int (-1) /\ forall x, x ∈ vs -> same_value x item = false) \/
     (exists k x, r = Int (Z.of_nat k) /\ vs !! k = Some x /\ same_value x item = true /\
       forall j y, (if up then j < k else k < j) -> vs !! j = Some y -> same_value y item = false)).
Proof.
  intros Ha Hn Hk.
  destruct (wp_elim _ _ _ (wp_createIndexFinder up sorted s array vs item VUndef Ha Hn Hk
    (or_introl eq_refl))) as (r & s' & E & -> & Hext).
  exists (position up vs item), s'. split; [done|]. split; [done|]. apply position_spec.
Qed.

(** Membership of an item in a list, as [contains] decides it. *)
Definition mem (item : value) (vs : list value) : bool := existsb (fun x => same_value x item) vs.

Lemma mem_position vs item : num_leb (Int 0) (position true vs item) = mem item vs.
Proof.
  destruct (position_spec true vs item) as [[-> Hno]|(k & x & -> & Hk & Hx & _)].
  - symmetry. apply not_true_iff_false. intros Hm. apply existsb_exists in Hm as (x & Hin & Hx).
    apply list_elem_of_In in Hin. by rewrite Hno in Hx.
  - rewrite num_leb_Int, (proj2 (Z.leb_le _ _)) by lia. symmetry. apply existsb_exists. exists x.
    split; [|done]. by apply list_elem_of_In, (list_elem_of_lookup_2 _ k).
Qed.

Lemma wp_contains s array vs item :
  is_arr (heap s) array vs -> short vs -> no_wrappers (heap s) vs -> known (heap s) vs ->
  wp (contains call array item VUndef VUndef) s (fun b s' => b = mem item vs /\ ext s s').
Proof.
  intros Ha Hs Hn Hk. unfold contains. apply wp_bind.
  eapply wp_eq; [by apply isArrayLike_arr with vs|]. cbn iota.
  apply wp_bind, wp_ret, wp_bind.
  eapply wp_mono; [apply (wp_createIndexFinder true true s array vs); try done; by right|].
  intros r s' [-> He]. apply wp_ret. split; [apply mem_position|done].
Qed.


(** ** Removing duplicates *)

(** The first occurrences of the entries, in order. *)
Definition uniq_list (vs : list value) : list value :=
  foldl (fun acc x => if mem x acc then acc else acc ++ [x]) [] vs.

Lemma uniq_list_snoc vs x :
  uniq_list (vs ++ [x]) = if mem x (uniq_list vs) then uniq_list vs else uniq_list vs ++ [x].
Proof. unfold uniq_list. by rewrite foldl_app. Qed.

Lemma uniq_list_sub vs x : x ∈ uniq_list vs -> x ∈ vs.
Proof.
  induction vs as [|y vs IH] using rev_ind; [done|]. rewrite uniq_list_snoc.
  destruct (mem y (uniq_list vs)); set_solver.
Qed.

Lemma uniq_list_length vs : length (uniq_list vs) <= length vs.
Proof.
  induction vs as [|y vs IH] using rev_ind; [done|]. rewrite uniq_list_snoc.
  destruct (mem y (uniq_list vs)); rewrite ?length_app; simpl; lia.
Qed.

Lemma same_value_refl x : same_value x x = true.
Proof.
  unfold same_value. rewrite strict_eq_refl. destruct (decide (x = VNum NaN)) as [->|Hx]; [done|].
  by rewrite (bool_decide_false _ Hx).
Qed.

Lemma mem_app x l1 l2 : mem x (l1 ++ l2) = mem x l1 || mem x l2.
Proof. apply existsb_app. Qed.

Lemma mem_elem x l : x ∈ l -> mem x l = true.
Proof.
  intros Hx. apply existsb_exists. exists x. split; [by apply list_elem_of_In|apply same_value_refl].
Qed.

Lemma uniq_list_mem vs x : x ∈ vs -> mem x (uniq_list vs) = true.
Proof.
  induction vs as [|y vs IH] using rev_ind; [set_solver|]. rewrite uniq_list_snoc.
  intros [Hx|Hx]%elem_of_app.
  - destruct (mem y (uniq_list vs)); [by apply IH|]. rewrite mem_app, IH by done. done.
  - apply list_elem_of_singleton in Hx as ->. destruct (mem y (uniq_list vs)) eqn:E; [done|].
    rewrite mem_app, (mem_elem y [y]); [apply orb_true_r|set_solver].
Qed.

(** No two entries are equal. *)
Definition distinct (vs : list value) : Prop :=
  forall i j x y, i < j -> vs !! i = Some x -> vs !! j = Some y -> same_value x y = false.

Lemma uniq_list_distinct vs : distinct (uniq_list vs).
Proof.
  induction vs as [|z vs IH] using rev_ind; [intros i j x y _ Hx; done|]. rewrite uniq_list_snoc.
  destruct (mem z (uniq_list vs)) eqn:E; [done|]. intros i j x y Hij Hx Hy.
  pose proof (lookup_lt_Some _ _ _ Hy) as Hj. rewrite length_app in Hj. simpl in Hj.
  rewrite lookup_app_l in Hx by lia. apply lookup_app_Some in Hy as [Hy|[Hge Hy]]; [by apply (IH i j)|].
  apply list_lookup_singleton_Some in Hy as [_ <-].
  apply not_true_iff_false. intros Hs. apply not_true_iff_false in E. apply E.
  apply existsb_exists. exists x. split; [by apply list_elem_of_In, (list_elem_of_lookup_2 _ i)|done].
Qed.

Lemma take_snoc vs i x : vs !! i = Some x -> take (S i) vs = take i vs ++ [x].
Proof. apply take_S_r. Qed.

(** The reading of the array and of the result under construction at one round. *)
Definition uniq_inv (s0 : state) (result : value) (vs : list value) (i : nat) (s : state) : Prop :=
  ext s0 s /\ exists l, result = VRef l /\ heap s0 !! l = None /\
    is_arr (heap s) result (uniq_list (take i vs)).

Lemma uniq_push s0 s l vs i x :
  ext s0 s -> heap s0 !! l = None -> vs !! i = Some x ->
  is_arr (heap s) (VRef l) (uniq_list (take i vs)) -> mem x (uniq_list (take i vs)) = false ->
  wp (array_push call (VRef l) x) s (fun _ s' => uniq_inv s0 (VRef l) vs (S i) s').
Proof.
  intros He Hl Hx Hr Hm. eapply wp_array_push; [done|]. intros s' Hr' Hw. split.
  - by eapply ext_write.
  - exists l. split; [done|]. split; [done|]. rewrite (take_snoc _ _ _ Hx), uniq_list_snoc, Hm. done.
Qed.

Lemma uniq_inv_skip s0 result vs i x s :
  vs !! i = Some x -> mem x (uniq_list (take i vs)) = true ->
  uniq_inv s0 result vs i s -> uniq_inv s0 result vs (S i) s.
Proof.
  intros Hx Hm (He & l & -> & Hl & Hr). split; [done|]. exists l.
  by rewrite (take_snoc _ _ _ Hx), uniq_list_snoc, Hm.
Qed.

Lemma elem_of_take i x vs : x ∈ take i vs -> x ∈ vs.
Proof. intros Hx. rewrite <- (take_drop i vs). set_solver. Qed.

Lemma uniq_round s0 s result vs i x (seen : value) :
  short vs -> no_wrappers (heap s0) vs -> known (heap s0) vs ->
  vs !! i = Some x -> uniq_inv s0 result vs i s ->
  wp (b ← contains call result x VUndef VUndef;
      (if b : bool then mret tt else array_push call result x);; mret seen) s
    (fun _ s' => uniq_inv s0 result vs (S i) s').
Proof.
  intros Hs Hn Hk Hx (He & l & -> & Hl & Hr).
  assert (forall y, y ∈ uniq_list (take i vs) -> y ∈ vs) as Hsub.
  { intros y Hy. eapply elem_of_take, uniq_list_sub, Hy. }
  assert (known (heap s) (uniq_list (take i vs))) as Hk'.
  { intros l' Hl'. destruct (Hk l' (Hsub _ Hl')) as [o Ho]. exists o. by apply (lookup_weaken _ _ _ _ Ho). }
  apply wp_bind. eapply wp_mono; [apply (wp_contains s _ (uniq_list (take i vs))); try done|].
  - unfold short in *. pose proof (uniq_list_length (take i vs)). rewrite length_take in *. lia.
  - eapply no_wrappers_sub; [exact Hsub|]. by eapply no_wrappers_ext.
  - intros b s' [-> He']. destruct (mem x (uniq_list (take i vs))) eqn:Hm.
    + apply wp_bind, wp_ret, wp_ret. apply (uniq_inv_skip _ _ _ _ x); [done|done|].
      split; [by eapply ext_trans|]. exists l. split; [done|]. split; [done|]. by eapply is_arr_ext.
    + apply wp_bind. eapply wp_mono; [eapply (uniq_push s0 s' l vs i x); try done|].
      * by eapply ext_trans.
      * by eapply is_arr_ext.
      * intros ? s'' HI. by apply wp_ret.
Qed.


(** Equal entries stand next to each other, as in a sorted array. *)
Definition contiguous (vs : list value) : Prop :=
  forall i j k x y z, i <= j <= k -> vs !! i = Some x -> vs !! j = Some y -> vs !! k = Some z ->
    same_value x z = true -> strict_eq y z = true.

Lemma num_eqb_fin a b x : num_fin a = Some x -> num_eqb a b = true -> num_fin b = Some x.
Proof.
  destruct a, b; cbv beta iota delta [num_eqb num_fin]; intros [= <-] E; try done;
    apply Z.eqb_eq in E; congruence.
Qed.

Lemma num_eqb_trans a b c : num_eqb a b = true -> num_eqb b c = true -> num_eqb a c = true.
Proof.
  intros E1 E2. destruct (num_fin a) as [x|] eqn:Ea; [|by destruct a, b, c].
  pose proof (num_eqb_fin a b x Ea E1) as Eb. pose proof (num_eqb_fin b c x Eb E2) as Ec.
  destruct a, c; cbv beta iota delta [num_eqb num_fin] in *; try done; apply Z.eqb_eq; congruence.
Qed.

Lemma strict_eq_trans x y z : strict_eq x y = true -> strict_eq y z = true -> strict_eq x z = true.
Proof.
  destruct x, y; simpl; intros E1; try done; try (apply bool_decide_eq_true in E1; injection E1 as <-);
    destruct z; simpl; intros E2; try done.
  by eapply num_eqb_trans.
Qed.

Lemma same_value_trans x y z : same_value x y = true -> strict_eq y z = true -> same_value x z = true.
Proof.
  unfold same_value. intros [E1|[E1 E2]%andb_true_iff]%orb_true_iff E; apply orb_true_iff.
  - left. by eapply strict_eq_trans.
  - apply bool_decide_eq_true in E2 as ->. by destruct z as [| | |[]| | |].
Qed.

Lemma uniq_round_sorted s0 s result vs i x seen :
  contiguous vs -> vs !! i = Some x -> (i = 0 \/ vs !! (i - 1) = Some seen) ->
  uniq_inv s0 result vs i s ->
  wp ((if Nat.eqb i 0 || negb (strict_eq seen x) then array_push call result x else mret tt);; mret x) s
    (fun seen' s' => seen' = x /\ uniq_inv s0 result vs (S i) s').
Proof.
  intros Hc Hx Hseen (He & l & -> & Hl & Hr).
  assert (mem x (uniq_list (take i vs)) = negb (Nat.eqb i 0 || negb (strict_eq seen x))) as Hm.
  { destruct (Nat.eqb_spec i 0) as [->|Hi]; [done|]. destruct Hseen as [|Hp]; [done|]. simpl.
    rewrite negb_involutive. apply eq_true_iff_eq. split.
    - intros (y & Hy & Hyx)%existsb_exists. apply list_elem_of_In, uniq_list_sub in Hy.
      apply list_elem_of_lookup in Hy as [j Hj]. apply lookup_take_Some in Hj as [Hj Hji].
      by apply (Hc j (i - 1) i y seen x ltac:(lia)).
    - intros Heq. assert (seen ∈ take i vs) as Hin.
      { apply (list_elem_of_lookup_2 _ (i - 1)). rewrite lookup_take_lt; [done|lia]. }
      apply uniq_list_mem, existsb_exists in Hin as (y & Hy & Hys). apply existsb_exists. exists y.
      split; [done|]. by eapply same_value_trans. }
  destruct (Nat.eqb i 0 || negb (strict_eq seen x)); apply wp_bind.
  - eapply wp_mono; [by eapply (uniq_push s0 s l vs i x)|]. intros ? s' HI. by apply wp_ret.
  - apply wp_ret, wp_ret. split; [done|]. apply (uniq_inv_skip _ _ _ _ x); [done|done|].
    split; [done|]. by exists l.
Qed.

Lemma wp_uniq_loop s0 s array result vs (sorted : bool) seen :
  is_arr (heap s0) array vs -> short vs -> no_wrappers (heap s0) vs -> known (heap s0) vs ->
  (sorted = true -> contiguous vs) -> uniq_inv s0 result vs 0 s ->
  wp (uniq_loop call array sorted None result seen (length vs)) s
    (fun r s' => r = result /\ uniq_inv s0 result vs (length vs) s').
Proof.
  intros Ha Hs Hn Hk Hc HI. unfold uniq_loop. apply wp_bind.
  apply (wp_iter_up (fun i seen s => (i = 0 \/ sorted = false \/ vs !! (i - 1) = Some seen)
                                     /\ uniq_inv s0 result vs i s)).
  - split; [by left|done].
  - intros i seen' s' [_ Hi] [Hp HI']. destruct (lookup_lt_is_Some_2 vs i Hi) as [x Hx].
    apply wp_bind. eapply wp_eq; [eapply (get_idx_arr _ _ vs); [|done]|].
    { eapply is_arr_ext; [apply HI'|done]. }
    apply wp_bind, wp_ret. destruct sorted.
    + eapply wp_mono; [eapply (uniq_round_sorted s0 s' result vs i x seen'); try done; [by apply Hc|]|].
      { destruct Hp as [|[|]]; [by left|done|by right]. }
      intros seen'' s'' [-> HI'']. split; [|done]. right. right. simpl. by rewrite Nat.sub_0_r.
    + eapply wp_mono; [by eapply (uniq_round s0 s' result vs i x)|]. intros seen'' s'' HI''.
      split; [by right; left|done].
  - intros seen' s' [_ HI']. apply wp_ret. split; [done|]. by rewrite Nat.add_0_l in HI'.
Qed.

(** [_.uniq] ends on every array and answers a new array with the first
    occurrences of its entries in order: the entries are pairwise different, each
    is an entry of the argument, and each entry of the argument equals one of
    them.  With the sorted flag the fast path gives the same array whenever equal
    entries are adjacent.  The objects of the heap do not change. *)
Theorem uniq_correct s array vs (sorted : bool) :
  is_arr (heap s) array vs -> short vs -> no_wrappers (heap s) vs -> known (heap s) vs ->
  (sorted = true -> contiguous vs) ->
  exists r s', uniq call array (VBool sorted) VUndef VUndef s = (Done r, s') /\ ext s s' /\
    is_arr (heap s') r (uniq_list vs) /\ distinct (uniq_list vs) /\
    (forall x, x ∈ uniq_list vs -> x ∈ vs) /\ (forall x, x ∈ vs -> mem x (uniq_list vs) = true).
Proof.
  intros Ha Hs Hn Hk Hc.
  assert (wp (uniq call array (VBool sorted) VUndef VUndef) s
    (fun r s' => ext s s' /\ is_arr (heap s') r (uniq_list vs))) as Hwp.
  { unfold uniq. apply wp_bind, wp_heap.
    assert (isBoolean (heap s) (VBool sorted) = true) as -> by by destruct sorted.
    replace (truthy (VBool sorted)) with sorted by done. cbn [is_nullish].
    apply wp_bind, wp_ret, wp_bind, wp_array_of. intros result s1 He1 Hr1 _ _ (l & -> & Hl).
    apply wp_bind, wp_array_of. intros seen s2 He2 _ _ _ _.
    assert (ext s s2) as He by by eapply ext_trans.
    apply wp_bind. eapply wp_eq; [apply (getLength_arr _ _ vs); by eapply is_arr_ext|].
    apply wp_bind. eapply wp_eq; [apply rounds_nat|].
    eapply wp_mono; [apply (wp_uniq_loop s s2 array (VRef l) vs sorted); try done|].
    - split; [done|]. exists l. split; [done|]. split; [done|]. by apply (is_arr_ext s1 s2 (VRef l) []).
    - intros r s3 [-> (He3 & l' & _ & _ & Hr)]. rewrite firstn_all in Hr. done. }
  destruct (wp_elim _ _ _ Hwp) as (r & s' & E & He & Hr). exists r, s'.
  split_and!; [done|done|done|by apply uniq_list_distinct|intros x; by apply uniq_list_sub|
    intros x; by apply uniq_list_mem].
Qed.

End proofs.
End UsArrayProofs.
