(* ===== verification/UsSlices.v ===== *)
(** What [_.chunk], [_.range], [_.shuffle] and [_.sample] compute. *)

From Stdlib Require Import QArith_base Qround.
From S2P Require Import Prelude Regex JsCore UsObjects UsCollections UsArrays JsLogic.
Import UsObjects UsCollections UsArrays.

Module UsSlices.

Section proofs.
Context `{Realm} `{Engine}.
Variable call : loc -> value -> list value -> M value.
Implicit Types (s : state) (vs : list value).

(** ** Chunks *)

(** The pieces of [c] entries of a list; [fuel] bounds their number. *)
Fixpoint pieces (fuel c : nat) (l : list value) : list (list value) :=
  match l, fuel with
  | [], _ => []
  | _, O => []
  | _, S fuel' => take c l :: pieces fuel' c (drop c l)
  end.

Lemma pieces_concat fuel c l : 0 < c -> length l <= fuel -> concat (pieces fuel c l) = l.
Proof.
  intros Hc. revert l. induction fuel as [|fuel IH]; intros [|x l] Hl; simpl in *; try done; [lia|].
  destruct c as [|c]; [lia|]. simpl. rewrite IH by (rewrite length_drop; lia).
  by rewrite take_drop.
Qed.

Lemma pieces_lengths fuel c l i p : 0 < c ->
  pieces fuel c l !! i = Some p -> p <> [] /\ length p = Nat.min c (length l - i * c).
Proof.
  intros Hc. revert l i. induction fuel as [|fuel IH]; intros [|x l] i; simpl; try done.
  destruct i as [|i]; simpl.
  - intros [= <-]. destruct c as [|c]; [lia|]. simpl. rewrite length_take. split; [done|lia].
  - intros Hp. destruct (IH _ _ Hp) as [Hne Hlen]. split; [done|].
    rewrite Hlen, length_drop. simpl. lia.
Qed.

Lemma num_sub_Int a b : num_sub (Int a) (Int b) = Int (a - b).
Proof.
  unfold num_sub, num_neg. destruct (Z.eqb_spec b 0) as [->|Hb]; simpl; f_equal; lia.
Qed.

Lemma wp_chunk_loop s array vs c fuel i :
  is_arr (heap s) array vs -> 0 < c -> length vs - i <= fuel ->
  wp (chunk_loop call fuel array (Int (Z.of_nat i)) (Int (Z.of_nat c)) (Int (Z.of_nat (length vs)))) s
    (fun rs s' => ext s s' /\ Forall2 (is_arr (heap s')) rs (pieces fuel c (drop i vs))).
Proof.
  intros Ha Hc. revert s i Ha. induction fuel as [|fuel IH]; intros s i Ha Hf; cbn [chunk_loop].
  - assert (num_ltb (Int (Z.of_nat i)) (Int (Z.of_nat (length vs))) = false) as ->.
    { simpl. apply Z.ltb_ge. lia. }
    rewrite drop_ge by lia. apply wp_ret. split; [apply ext_refl|]. done.
  - change (num_ltb (Int (Z.of_nat i)) (Int (Z.of_nat (length vs))))
      with (Z.ltb (Z.of_nat i) (Z.of_nat (length vs))).
    destruct (Z.ltb_spec (Z.of_nat i) (Z.of_nat (length vs))) as [Hlt|Hge].
    + replace (num_add (Int (Z.of_nat i)) (Int (Z.of_nat c))) with (Int (Z.of_nat (i + c)))
        by (simpl; f_equal; lia).
      apply wp_bind. eapply wp_array_slice; [done|]. cbn zeta. intros p s1 He1 Hp _ _ _.
      apply wp_bind. eapply wp_mono; [apply (IH s1 (i + c)); [by eapply is_arr_ext|lia]|].
      intros rs s2 [He2 Hrs]. apply wp_ret. split; [by eapply ext_trans|].
      destruct (drop i vs) as [|x l] eqn:Hd.
      { apply (f_equal length) in Hd. rewrite length_drop in Hd. simpl in Hd. lia. }
      cbn [pieces]. constructor.
      * eapply is_arr_ext; [done|]. rewrite <- Hd. clear Hd.
        replace (rel_index (Int (Z.of_nat i)) (length vs)) with i in Hp
          by (simpl; destruct (Z.ltb_spec (Z.of_nat i) 0); lia).
        replace (rel_index (Int (Z.of_nat (i + c))) (length vs)) with (Nat.min (i + c) (length vs)) in Hp
          by (cbn [rel_index]; destruct (Z.ltb_spec (Z.of_nat (i + c)) 0); lia).
        replace (take c (drop i vs)) with (take (Nat.min (i + c) (length vs) - i) (drop i vs)); [done|].
        destruct (decide (i + c <= length vs)); [f_equal; lia|].
        rewrite !take_ge; [done|rewrite length_drop; lia..].
      * rewrite <- Hd, drop_drop. done.
    + rewrite drop_ge by lia. apply wp_ret. split; [apply ext_refl|]. done.
Qed.

(** [_.chunk] ends on every array and positive count: it answers an array of
    new arrays whose concatenation is the argument, none of them empty and all of
    the given size but the last, which holds the rest. *)
Theorem chunk_correct s array vs c :
  is_arr (heap s) array vs -> 0 < c ->
  exists r s' rs css, chunk call array (Some (Int (Z.of_nat c))) s = (Done r, s') /\ ext s s' /\
    is_arr (heap s') r rs /\ Forall2 (is_arr (heap s')) rs css /\ concat css = vs /\
    (forall i p, css !! i = Some p -> p <> [] /\ length p = Nat.min c (length vs - i * c)).
Proof.
  intros Ha Hc.
  assert (wp (chunk call array (Some (Int (Z.of_nat c)))) s (fun r s' => ext s s' /\ exists rs,
    is_arr (heap s') r rs /\ Forall2 (is_arr (heap s')) rs (pieces (length vs) c vs))) as Hwp.
  { unfold chunk. replace (num_ltb (Int (Z.of_nat c)) (Int 1)) with false
      by (simpl; symmetry; apply Z.ltb_ge; lia).
    apply wp_bind. eapply wp_eq; [by apply get_len_arr|].
    apply wp_bind. eapply wp_eq; [apply to_num_nat|].
    apply wp_bind. eapply wp_eq; [apply rounds_nat|].
    apply wp_bind. eapply wp_mono; [apply (wp_chunk_loop s array vs c (length vs) 0); [done..|lia]|].
    intros rs s1 [He1 Hrs]. apply wp_array_of. intros r s2 He2 Hr _ _ _.
    split; [by eapply ext_trans|]. exists rs. split; [done|]. rewrite drop_0 in Hrs.
    eapply Forall2_impl; [done|]. intros x y. by apply is_arr_ext. }
  destruct (wp_elim _ _ _ Hwp) as (r & s' & E & He & rs & Hr & Hrs).
  exists r, s', rs, (pieces (length vs) c vs). split_and!; try done.
  - by apply pieces_concat.
  - intros i p. by apply pieces_lengths.
Qed.

(** ** Ranges *)

Lemma range_loop_lookup n start step k :
  k < n -> range_loop n (Int start) (Int step) !! k = Some (Int (start + Z.of_nat k * step)).
Proof.
  unfold range_loop. revert start k. induction n as [|n IH]; intros start k Hk; [lia|].
  destruct k as [|k]; simpl; [do 2 f_equal; lia|]. rewrite IH by lia. do 2 f_equal. lia.
Qed.

Lemma range_loop_length n start step : length (range_loop n start step) = n.
Proof. unfold range_loop. revert start. induction n as [|n IH]; intros start; simpl; [done|]. by rewrite IH. Qed.

(** The number of steps below (or above) the bound. *)
Definition range_count (d step : Z) : nat := Z.to_nat (- ((- d) / step)).

Lemma range_length d step : step <> 0%Z -> (Z.abs d < 2 ^ 32)%Z ->
  exists n, num_fin (num_max (num_ceil_div (Int d) (Int step)) (Int 0)) = Some n /\
    (0 <= n < 2 ^ 32)%Z /\ Z.to_nat n = range_count d step.
Proof.
  intros Hs Hd. unfold range_count. cbn [num_ceil_div]. rewrite (proj2 (Z.eqb_neq _ _) Hs).
  set (c := (- ((- d) / step))%Z).
  assert (c < 2 ^ 32)%Z as Hc.
  { unfold c. pose proof (Z.div_mod (- d) step Hs) as E.
    destruct (Z.lt_ge_cases 0 step) as [Hp|Hn].
    - pose proof (Z.mod_pos_bound (- d) step Hp). nia.
    - pose proof (Z.mod_neg_bound (- d) step ltac:(lia)). nia. }
  destruct (Z.eqb_spec c 0) as [E0|E0].
  - exists 0%Z. rewrite E0. split; [|split; [lia|done]].
    destruct (Z.eqb d 0), (Z.ltb step 0); done.
  - destruct (Z.lt_ge_cases c 0) as [Hneg|Hpos].
    + exists 0%Z. split; [|split; [lia|lia]].
      unfold num_max. cbn [num_ltb num_eqb num_fin]. by rewrite (proj2 (Z.ltb_lt c 0)).
    + exists c. split; [|split; [lia|done]].
      unfold num_max. cbn [num_ltb num_eqb num_fin].
      rewrite (proj2 (Z.ltb_ge c 0)) by lia. by rewrite (proj2 (Z.eqb_neq c 0)).
Qed.

Lemma range_count_spec d step k : step <> 0%Z ->
  k < range_count d step <-> (if Z.ltb 0 step then (Z.of_nat k * step < d)%Z else (d < Z.of_nat k * step)%Z).
Proof.
  intros Hs. unfold range_count. pose proof (Z.div_mod (- d) step Hs) as E.
  destruct (Z.ltb_spec 0 step) as [Hp|Hn].
  - pose proof (Z.mod_pos_bound (- d) step Hp). split; intros; nia.
  - pose proof (Z.mod_neg_bound (- d) step ltac:(lia)). split; intros; nia.
Qed.

(** [_.range] of integers whose distance is below the largest array length
    ends with a new array: its entries are start, start + step, ... in order, and
    exactly those multiples that have not reached the stop bound; a missing or
    zero step counts towards the bound. *)
Theorem range_correct s start stop step :
  (Z.abs (stop - start) < 2 ^ 32)%Z ->
  let d := if Z.eqb step 0 then (if Z.ltb stop start then (-1)%Z else 1%Z) else step in
  exists r s' ns, range (Int start) (Some (Int stop)) (Some (Int step)) s = (Done r, s') /\ ext s s' /\
    is_arr (heap s') r ((fun z => VNum (Int z)) <$> ns) /\
    (forall k z, ns !! k = Some z -> z = (start + Z.of_nat k * d)%Z) /\
    (forall k, k < length ns <->
       (if Z.ltb 0 d then (start + Z.of_nat k * d < stop)%Z else (stop < start + Z.of_nat k * d)%Z)).
Proof.
  intros Hb d.
  assert (d <> 0%Z) as Hd.
  { unfold d. destruct (Z.eqb_spec step 0); [|done]. destruct (Z.ltb stop start); done. }
  set (n := range_count (stop - start) d).
  set (ns := (fun k => (start + Z.of_nat k * d)%Z) <$> seq 0 n).
  assert (wp (range (Int start) (Some (Int stop)) (Some (Int step))) s (fun r s' => ext s s' /\
    is_arr (heap s') r ((fun z => VNum (Int z)) <$> ns))) as Hwp.
  { unfold range.
    assert ((if truthy (VNum (Int step)) then Int step
             else if num_ltb (Int stop) (Int start) then Int (-1) else Int 1) = Int d) as ->.
    { unfold d, truthy. cbn [num_ltb num_fin]. destruct (Z.eqb_spec step 0) as [->|Hs].
      - simpl. by destruct (Z.ltb stop start).
      - rewrite bool_decide_false; [done|]. intros [|[|]]; congruence. }
    rewrite num_sub_Int. destruct (range_length (stop - start) d Hd Hb) as (m & Hm & Hbm & Hn).
    apply wp_bind. unfold array_length. rewrite Hm.
    rewrite (proj2 (Z.leb_le 0 m)), (proj2 (Z.ltb_lt m _)) by lia. apply wp_ret. rewrite Hn.
    apply wp_array_of. intros r s' He Hr _ _ _. split; [done|].
    replace ((fun z => VNum (Int z)) <$> ns) with (VNum <$> range_loop n (Int start) (Int d)); [done|].
    apply list_eq. intros k. unfold ns. rewrite !list_lookup_fmap. destruct (decide (k < n)) as [Hk|Hk].
    - rewrite range_loop_lookup, lookup_seq_lt by done. done.
    - rewrite !lookup_ge_None_2; [done|rewrite length_seq; lia|rewrite range_loop_length; lia]. }
  destruct (wp_elim _ _ _ Hwp) as (r & s' & E & He & Hr). exists r, s', ns. split_and!; try done.
  - intros k z. unfold ns. rewrite list_lookup_fmap, fmap_Some. intros (j & Hj & ->).
    apply lookup_seq in Hj as [-> _]. done.
  - intros k. unfold ns. rewrite length_fmap, length_seq. unfold n. rewrite range_count_spec by done.
    destruct (Z.ltb 0 d); lia.
Qed.

(** ** Shuffling *)

(** Exchanging two numbers. *)
Definition transpose (i j k : nat) : nat :=
  if decide (k = i) then j else if decide (k = j) then i else k.

#[local] Instance transpose_inj i j : Inj (=) (=) (transpose i j).
Proof. intros a b. unfold transpose. repeat case_decide; lia. Qed.

Lemma swap_permutation l i j : i < length l -> j < length l -> swap l i j ≡ₚ l.
Proof.
  intros Hi Hj. unfold swap, arg.
  destruct (lookup_lt_is_Some_2 l i Hi) as [x Hx], (lookup_lt_is_Some_2 l j Hj) as [y Hy].
  rewrite Hx, Hy. simpl. apply Permutation_inj. split; [by rewrite !length_insert|].
  exists (transpose i j). split; [apply _|]. intros k. unfold transpose.
  destruct (decide (k = j)) as [->|Hkj].
  - rewrite list_lookup_insert_eq by (rewrite length_insert; lia). case_decide as E; [congruence|done].
  - rewrite list_lookup_insert_ne by done. destruct (decide (k = i)) as [->|Hki].
    + by rewrite list_lookup_insert_eq.
    + by rewrite list_lookup_insert_ne.
Qed.

Lemma Qfloor_scale r k : (0 <= r)%Q -> (r < 1)%Q -> (0 < k)%Z -> (0 <= Qfloor (r * inject_Z k) < k)%Z.
Proof.
  intros Hr0 Hr1 Hk. destruct r as [p q]. unfold Qle, Qlt in *. simpl in *. unfold Qfloor. simpl.
  rewrite Z.mul_1_r in *. split; [apply Z.div_pos; nia|]. apply Z.div_lt_upper_bound; [lia|nia].
Qed.

(** [Math.random()] answers numbers from 0 up to, but not including, 1. *)
Definition random_law : Prop := forall n, (0 <= Math_random n)%Q /\ (Math_random n < 1)%Q.

Lemma wp_random s lo hi :
  random_law -> (lo <= hi)%Z ->
  wp (random (Int lo) (Some (Int hi))) s
    (fun r s' => heap s' = heap s /\ exists z, r = Int z /\ (lo <= z <= hi)%Z).
Proof.
  intros Hr Hle. unfold random. cbn zeta iota. apply wp_bind.
  eapply wp_eq; [done|]. apply wp_ret. split; [done|]. rewrite num_sub_Int. cbn [num_add scale_floor].
  destruct (Hr (rnd s)) as [H0' H1]. eexists. split; [done|].
  pose proof (Qfloor_scale (Math_random (rnd s)) (hi - lo + 1) H0' H1 ltac:(lia)). lia.
Qed.

Lemma wp_sample_loop s n l :
  random_law -> n <= length l ->
  wp (sample_loop n (Nat.pred (length l)) l) s (fun l' s' => heap s' = heap s /\ l' ≡ₚ l).
Proof.
  intros Hr Hn. unfold sample_loop.
  apply (wp_iter_up (fun _ l' s' => heap s' = heap s /\ l' ≡ₚ l)); [done| |done].
  intros i l' s' Hi [Hh Hp]. apply wp_bind.
  eapply wp_mono; [apply wp_random; [done|lia]|].
  intros r s'' [Hh' (z & -> & Hz)]. apply wp_ret. split; [congruence|].
  pose proof (Permutation_length Hp). rewrite swap_permutation; [done|lia|lia].
Qed.

(** [_.sample] with a number and [_.shuffle] end on every array, whatever
    numbers between 0 and 1 are drawn: the answer is a new array with the first n
    entries of a permutation of the argument, which itself does not change; with
    a number at least as large as the array, a permutation of it. *)
Theorem sample_correct s array vs n :
  random_law -> is_arr (heap s) array vs ->
  exists r s' ws, sample call array (VNat n) VUndef s = (Done r, s') /\ ext s s' /\
    is_arr (heap s') r (take n ws) /\ ws ≡ₚ vs.
Proof.
  intros Hr Ha.
  assert (wp (sample call array (VNat n) VUndef) s (fun r s' => ext s s' /\ exists ws,
    is_arr (heap s') r (take n ws) /\ ws ≡ₚ vs)) as Hwp.
  { unfold sample. cbn [is_nullish VNat truthy orb]. apply wp_bind.
    unfold toArray. destruct (is_arr_ref _ _ _ Ha) as [l ->]. cbn [truthy negb].
    apply wp_bind, wp_heap. rewrite (isArray_arr _ _ _ Ha). cbn iota.
    eapply wp_array_slice; [done|]. cbn zeta. intros c s1 He1 Hc _ _ (l' & -> & _).
    rewrite Nat.sub_0_r in Hc. cbn [rel_index] in Hc. change (Z.ltb 0 0) with false in Hc. cbn iota in Hc.
    rewrite Nat.min_0_l, drop_0, firstn_all in Hc. cbn [is_nullish].
    apply wp_bind. eapply wp_eq; [by apply list_of_arr|].
    apply wp_bind. eapply wp_eq; [apply to_num_nat|].
    set (cnt := match num_fin _ with Some z => Z.to_nat z | None => 0 end).
    assert (cnt = Nat.min n (length vs)) as Hcnt.
    { unfold cnt. rewrite num_min_Int, num_max_Int. cbn [num_fin]. lia. }
    rewrite Hcnt. apply wp_bind. eapply wp_mono; [apply wp_sample_loop; [done|lia]|].
    intros ws s2 [Hh2 Hp]. apply wp_array_of. intros r s3 He3 Hr3 _ _ _. split.
    - eapply ext_trans; [done|]. unfold ext in *. by rewrite <- Hh2.
    - exists ws. split; [|done]. replace (take n ws) with (take (Nat.min n (length vs)) ws); [done|].
      rewrite <- (Permutation_length Hp). destruct (decide (n <= length ws)).
      + by rewrite Nat.min_l.
      + by rewrite Nat.min_r, !take_ge by lia. }
  destruct (wp_elim _ _ _ Hwp) as (r & s' & E & He & ws & Hws & Hp). by exists r, s', ws.
Qed.

End proofs.
End UsSlices.
