(* ===== verification/UsSorting.v ===== *)
(** What [_.sortBy] and [_.groupBy] compute on arrays; the order of the criteria of
    [_.sortBy], which compares strings, numbers and undefined. *)

From Stdlib Require Import QArith_base Qround Sorted.
From S2P Require Import Prelude Regex JsCore UsObjects UsCollections UsArrays JsLogic.
Import UsObjects UsCollections UsArrays.

Module UsSorting.

Section proofs.
Context `{Realm} `{Engine}.
Variable call : loc -> value -> list value -> M value.
Implicit Types (s : state) (vs : list value).

(** ** Sorting *)

Lemma sorted_lookup {A} (R : relation A) (l : list A) i j x y :
  StronglySorted R l -> i < j -> l !! i = Some x -> l !! j = Some y -> R x y.
Proof.
  intros Hs. revert i j. induction Hs as [|z l Hs IH Hz]; intros i j Hij Hi Hj; [done|].
  destruct j as [|j]; [lia|]. destruct i as [|i]; simpl in *.
  - simplify_eq. rewrite Forall_forall in Hz. by apply Hz, (list_elem_of_lookup_2 _ j).
  - apply (IH i j); [lia|done|done].
Qed.

(** What [<] answers on values that are no objects or symbols *)
Definition prim_ltb (a b : value) : bool := match prim_lt a b with Ok r => r | Throw _ => false end.

Definition is_prim (c : value) : Prop := match c with VSym _ | VRef _ => False | _ => True end.

Lemma js_lt_prim a b s : is_prim a -> is_prim b -> js_lt call a b s = (Done (prim_ltb a b), s).
Proof. by destruct a, b. Qed.
Lemma js_gt_prim a b s : is_prim a -> is_prim b -> js_gt call a b s = (Done (prim_ltb b a), s).
Proof. by destruct a, b. Qed.

(** The comparison of [sortBy] on such criteria *)
Definition sorts_before (l r : sort_entry) : bool :=
  let a := se_criteria l in
  let b := se_criteria r in
  if strict_eq a b then Nat.ltb (se_index l) (se_index r) else
  if prim_ltb b a || strict_eq a VUndef then false else
  if prim_ltb a b || strict_eq b VUndef then true else Nat.ltb (se_index l) (se_index r).

Definition prim_entry (e : sort_entry) : Prop := is_prim (se_criteria e).

Lemma sort_before_spec a b s : prim_entry a -> prim_entry b -> sort_before call a b s = (Done (sorts_before a b), s).
Proof.
  unfold prim_entry, sort_before, sorts_before. intros Ha Hb. destruct (strict_eq _ _); [done|].
  rewrite (bind_eq _ _ _ _ _ (js_gt_prim _ _ s Ha Hb)). destruct (_ || _); [done|].
  rewrite (bind_eq _ _ _ _ _ (js_lt_prim _ _ s Ha Hb)). by destruct (_ || _).
Qed.

Fixpoint ins (x : sort_entry) (l : list sort_entry) : list sort_entry :=
  match l with
  | [] => [x]
  | y :: l' => if sorts_before y x then y :: ins x l' else x :: l
  end.

Lemma sort_insert_spec x l s :
  prim_entry x -> Forall prim_entry l -> sort_insert call x l s = (Done (ins x l), s).
Proof.
  intros Hx. induction 1 as [|y l Hy Hl IH]; [done|]. cbn [sort_insert ins].
  rewrite (bind_eq _ _ _ _ _ (sort_before_spec _ _ s Hy Hx)).
  destruct (sorts_before y x); [|done]. by rewrite (bind_eq _ _ _ _ _ IH).
Qed.

Lemma ins_permutation x l : ins x l ≡ₚ x :: l.
Proof.
  induction l as [|y l IH]; simpl; [done|]. destruct (sorts_before y x); [|done].
  rewrite IH. apply Permutation_swap.
Qed.

Lemma sort_entries_spec l s : Forall prim_entry l ->
  sort_entries call l s = (Done (foldl (fun acc x => ins x acc) [] l), s) /\
  foldl (fun acc x => ins x acc) [] l ≡ₚ l.
Proof.
  unfold sort_entries. enough (forall acc, Forall prim_entry (acc ++ l) ->
    foldM (fun acc x => sort_insert call x acc) acc l s = (Done (foldl (fun acc x => ins x acc) acc l), s) /\
    foldl (fun acc x => ins x acc) acc l ≡ₚ acc ++ l) as Hgen by apply (Hgen []).
  induction l as [|x l IH]; intros acc Hp; simpl; [by rewrite app_nil_r|].
  assert (ins x acc ++ l ≡ₚ acc ++ x :: l) as Hperm.
  { rewrite ins_permutation. simpl. by rewrite <- Permutation_middle. }
  destruct (IH (ins x acc)) as [E P]; [by rewrite Hperm|].
  rewrite Forall_app, Forall_cons in Hp. destruct Hp as (Hacc & Hx & _).
  rewrite (bind_eq _ _ _ _ _ (sort_insert_spec x acc s Hx Hacc)). split; [done|]. by rewrite P.
Qed.

(** *** Criteria in order *)

(** Strings, or what is a number other than NaN: such criteria, and undefined, have
    an order.  A criterion NaN is neither below nor above any other. *)
Definition ordered (strings : bool) (c : value) : Prop :=
  match c with
  | VUndef => True
  | VStr _ => strings = true
  | VNum n => strings = false /\ n <> NaN
  | VNull | VBool _ => strings = false
  | VSym _ | VRef _ => False
  end.

Definition num_of (c : value) : num := match prim_to_num c with Ok n => n | Throw _ => NaN end.

(** Undefined comes last. *)
Definition crit_le (a b : value) : bool :=
  match a, b with
  | _, VUndef => true
  | VUndef, _ => false
  | VStr x, VStr y => negb (str_ltb y x)
  | _, _ => num_leb (num_of a) (num_of b)
  end.

Lemma str_ltb_irrefl x : str_ltb x x = false.
Proof. induction x as [|c x IH]; simpl; [done|]. by rewrite N.ltb_irrefl, IH, andb_false_r. Qed.

Lemma str_ltb_cases x y : str_ltb x y = true \/ x = y \/ str_ltb y x = true.
Proof.
  revert y. induction x as [|c x IH]; intros [|d y]; simpl; auto.
  destruct (N.ltb_spec c d), (N.ltb_spec d c); auto. assert (c = d) as -> by lia. rewrite N.eqb_refl. simpl.
  destruct (IH y) as [?|[->|?]]; auto.
Qed.

Lemma str_ltb_trans x y z : str_ltb x y = true -> str_ltb y z = true -> str_ltb x z = true.
Proof.
  revert y z. induction x as [|c x IH]; intros [|d y] [|e z]; simpl; try done.
  rewrite !orb_true_iff, !andb_true_iff, !N.ltb_lt, !N.eqb_eq.
  intros [?|[-> H1]] [?|[-> H2]]; [left; lia|by left|by left|]. right. split; [done|]. by eapply IH.
Qed.

Lemma str_ltb_asym x y : str_ltb x y = true -> str_ltb y x = false.
Proof.
  intros Hxy. destruct (str_ltb y x) eqn:Hyx; [|done].
  pose proof (str_ltb_trans _ _ _ Hxy Hyx) as Hxx. by rewrite str_ltb_irrefl in Hxx.
Qed.

(** Below, equal or above *)
Variant num_case (a b : num) : Prop :=
| num_below : num_ltb a b = true -> num_eqb a b = false -> num_ltb b a = false -> num_case a b
| num_equal : num_ltb a b = false -> num_eqb a b = true -> num_ltb b a = false -> num_case a b
| num_above : num_ltb a b = false -> num_eqb a b = false -> num_ltb b a = true -> num_case a b.

Lemma num_cases a b : a <> NaN -> b <> NaN -> num_case a b.
Proof.
  destruct a as [| | | |x], b as [| | | |y]; intros Ha Hb; try done; try by constructor.
  - destruct (Z.lt_total 0 y) as [?|[?|?]]; [constructor 1|constructor 2|constructor 3]; cbn [num_ltb num_eqb num_fin]; lia.
  - destruct (Z.lt_total x 0) as [?|[?|?]]; [constructor 1|constructor 2|constructor 3]; cbn [num_ltb num_eqb num_fin]; lia.
  - destruct (Z.lt_total x y) as [?|[?|?]]; [constructor 1|constructor 2|constructor 3]; cbn [num_ltb num_eqb num_fin]; lia.
Qed.

Lemma num_eqb_sym a b : num_eqb a b = num_eqb b a.
Proof. destruct a, b; try done; simpl; apply Z.eqb_sym. Qed.

Lemma num_leb_trans a b c : num_leb a b = true -> num_leb b c = true -> num_leb a c = true.
Proof.
  unfold num_leb. destruct a as [| | | |x], b as [| | | |y], c as [| | | |z]; cbn [num_ltb num_eqb num_fin orb]; try done;
    rewrite ?orb_true_iff, ?Z.ltb_lt, ?Z.eqb_eq; lia.
Qed.

Definition numeric (c : value) : Prop := match c with VNum n => n <> NaN | VNull | VBool _ => True | _ => False end.

Lemma ordered_view strings c : ordered strings c ->
  c = VUndef \/ (strings = true /\ exists x, c = VStr x) \/ (strings = false /\ numeric c).
Proof. destruct c; simpl; intuition eauto. Qed.

(** Criteria that are both numbers or both strings *)
Variant comparable : value -> value -> Prop :=
| both_strings x y : comparable (VStr x) (VStr y)
| both_numbers a b : numeric a -> numeric b -> comparable a b.

Lemma crit_le_num a b : numeric a -> numeric b -> crit_le a b = num_leb (num_of a) (num_of b).
Proof. by destruct a, b. Qed.
Lemma crit_le_undef a : crit_le a VUndef = true.
Proof. by destruct a. Qed.
Lemma numeric_not_nan a : numeric a -> num_of a <> NaN.
Proof. by destruct a as [| |[]| | | |]. Qed.

Lemma ordered_pair strings a b : ordered strings a -> ordered strings b ->
  a = VUndef \/ b = VUndef \/ comparable a b.
Proof.
  intros [->|[[-> [x ->]]|[-> Ha]]]%ordered_view [->|[[? [y ->]]|[? Hb]]]%ordered_view; auto; try done.
  - right. right. constructor.
  - right. right. by constructor 2.
Qed.

Lemma crit_le_trans strings a b c : ordered strings a -> ordered strings b -> ordered strings c ->
  crit_le a b = true -> crit_le b c = true -> crit_le a c = true.
Proof.
  intros Ha Hb Hc. destruct (ordered_view strings c Hc) as [->|Hcv]; [by intros; rewrite crit_le_undef|].
  destruct (ordered_view strings b Hb) as [->|Hbv].
  { intros _ Hle. destruct Hcv as [[_ [z ->]]|[_ Hz]]; [done|by destruct c]. }
  destruct (ordered_view strings a Ha) as [->|Hav].
  { intros Hle _. destruct Hbv as [[_ [z ->]]|[_ Hz]]; [done|by destruct b]. }
  destruct Hav as [[-> [x ->]]|[-> Hx]], Hbv as [[? [y ->]]|[? Hy]], Hcv as [[? [z ->]]|[? Hz]]; try done.
  - simpl. rewrite !negb_true_iff. intros Hle1 Hle2. destruct (str_ltb z x) eqn:E; [|done].
    destruct (str_ltb_cases x y) as [Hxy|[->|Hxy]]; [|congruence..].
    pose proof (str_ltb_trans _ _ _ E Hxy). congruence.
  - rewrite !crit_le_num by done. apply num_leb_trans.
Qed.

Definition precedes (a b : sort_entry) : Prop :=
  crit_le (se_criteria a) (se_criteria b) = true /\
  (crit_le (se_criteria b) (se_criteria a) = true -> se_index a < se_index b).

Lemma ltb_undef c : prim_ltb c VUndef = false /\ prim_ltb VUndef c = false.
Proof.
  assert (forall n, num_ltb n NaN = false) as Hn by by intros [].
  split; unfold prim_ltb; destruct c; simpl; by rewrite ?Hn.
Qed.

(** The comparison is this order. *)
Lemma before_precedes strings a b : ordered strings (se_criteria a) -> ordered strings (se_criteria b) ->
  sorts_before a b = true <-> precedes a b.
Proof.
  unfold sorts_before, precedes. destruct a as [va i ca], b as [vb j cb]. cbn [se_criteria se_index]. intros Ha Hb.
  assert ((if strict_eq ca cb then Nat.ltb i j else if prim_ltb cb ca || strict_eq ca VUndef then false else
    if prim_ltb ca cb || strict_eq cb VUndef then true else Nat.ltb i j) =
    if crit_le ca cb then if crit_le cb ca then Nat.ltb i j else true else false) as ->.
  { destruct (ordered_pair strings ca cb Ha Hb) as [->|[->|[x y|a b Na Nb]]].
    - destruct (ltb_undef cb) as [-> ->]. by destruct cb.
    - destruct (ltb_undef ca) as [-> ->]. by destruct ca.
    - simpl. unfold prim_ltb. simpl. case_bool_decide as E; [simplify_eq; by rewrite !str_ltb_irrefl|].
      destruct (str_ltb_cases x y) as [Hxy|[->|Hxy]]; [|done|]; rewrite Hxy, (str_ltb_asym _ _ Hxy); done.
    - rewrite !crit_le_num by done. unfold num_leb. rewrite (num_eqb_sym (num_of b)).
      assert (strict_eq a VUndef = false /\ strict_eq b VUndef = false) as [-> ->] by (by destruct a, b).
      assert (prim_ltb a b = num_ltb (num_of a) (num_of b) /\ prim_ltb b a = num_ltb (num_of b) (num_of a)) as [-> ->] by (by destruct a, b).
      assert (strict_eq a b = true -> num_eqb (num_of a) (num_of b) = true) as He.
      { destruct a as [| |[]|n| | |], b as [| |[]|m| | |]; try done; intros E; by apply bool_decide_eq_true_1 in E. }
      destruct (num_cases _ _ (numeric_not_nan a Na) (numeric_not_nan b Nb)) as [H1 H2 H3|H1 H2 H3|H1 H2 H3]; rewrite H1, H2, H3 in *; simpl;
        revert He; destruct (strict_eq a b); intros He; try done; by specialize (He eq_refl). }
  destruct (crit_le ca cb), (crit_le cb ca); rewrite ?Nat.ltb_lt; naive_solver.
Qed.

Lemma crit_le_total strings a b : ordered strings a -> ordered strings b -> crit_le a b = false -> crit_le b a = true.
Proof.
  intros Ha Hb. destruct (ordered_pair strings a b Ha Hb) as [->|[->|[x y|c d Nc Nd]]]; rewrite ?crit_le_undef; try done.
  - simpl. rewrite negb_false_iff. intros E. by rewrite (str_ltb_asym _ _ E).
  - rewrite !crit_le_num by done. unfold num_leb. rewrite (num_eqb_sym (num_of d)).
    destruct (num_cases _ _ (numeric_not_nan c Nc) (numeric_not_nan d Nd)) as [H1 H2 H3|H1 H2 H3|H1 H2 H3]; by rewrite H1, H2, H3.
Qed.

Definition ordered_entry (strings : bool) (e : sort_entry) : Prop := ordered strings (se_criteria e).

Lemma precedes_trans strings a b c : ordered_entry strings a -> ordered_entry strings b -> ordered_entry strings c ->
  precedes a b -> precedes b c -> precedes a c.
Proof.
  intros Ha Hb Hc [H1 H2] [H3 H4]. split; [by apply (crit_le_trans strings _ (se_criteria b) _)|]. intros H5.
  assert (crit_le (se_criteria b) (se_criteria a) = true) as H6 by (by apply (crit_le_trans strings _ (se_criteria c) _)).
  assert (crit_le (se_criteria c) (se_criteria b) = true) as H7 by (by apply (crit_le_trans strings _ (se_criteria a) _)).
  specialize (H2 H6). specialize (H4 H7). lia.
Qed.

Lemma ins_sorted strings x l : ordered_entry strings x -> Forall (ordered_entry strings) l ->
  Forall (fun y => se_index y <> se_index x) l -> StronglySorted precedes l -> StronglySorted precedes (ins x l).
Proof.
  intros Hx Hl Hi Hs. induction Hs as [|y l Hs IH Hy]; simpl; [by repeat constructor|].
  apply Forall_cons in Hi as [Hyx Hi], Hl as [Hoy Hl]. destruct (sorts_before y x) eqn:E.
  - apply (before_precedes strings) in E; [|done..]. constructor; [by apply IH|]. rewrite ins_permutation. by constructor.
  - assert (precedes x y) as Hxy.
    { assert (~ precedes y x) as Hn by (rewrite <- (before_precedes strings) by done; by rewrite E).
      unfold precedes in *. destruct (crit_le (se_criteria x) (se_criteria y)) eqn:Exy.
      - split; [done|]. intros Eyx. destruct (decide (se_index y < se_index x)); [|lia]. destruct Hn. by split.
      - destruct Hn. split; [by eapply crit_le_total|]. done. }
    constructor; [by constructor|]. constructor; [done|].
    rewrite Forall_forall in Hl, Hy |- *. intros z Hz. eapply (precedes_trans strings x y z); auto.
Qed.

Lemma inserted_sorted strings l : Forall (ordered_entry strings) l -> NoDup (se_index <$> l) ->
  StronglySorted precedes (foldl (fun acc x => ins x acc) [] l).
Proof.
  enough (forall acc, Forall (ordered_entry strings) (acc ++ l) -> NoDup (se_index <$> (acc ++ l)) ->
    StronglySorted precedes acc -> StronglySorted precedes (foldl (fun acc x => ins x acc) acc l)) as Hgen.
  { intros Ho Hn. apply (Hgen []); [done|done|constructor]. }
  induction l as [|x l IH]; intros acc Ho Hn Hs; simpl; [done|].
  assert (ins x acc ++ l ≡ₚ acc ++ x :: l) as Hperm.
  { rewrite ins_permutation. simpl. by rewrite <- Permutation_middle. }
  apply IH; [by rewrite Hperm..|]. rewrite Forall_app, Forall_cons in Ho. destruct Ho as (Hacc & Hx & _).
  apply (ins_sorted strings); [done..| |done]. apply Forall_forall. intros y Hy E.
  rewrite fmap_app, NoDup_app in Hn. destruct Hn as (_ & Hdis & _).
  apply (Hdis (se_index y)); [by apply list_elem_of_fmap_2|]. rewrite E. simpl. set_solver.
Qed.

Definition entry (g : value -> value) (i : nat) (x : value) : sort_entry :=
  {| se_value := x; se_index := i; se_criteria := g x |}.

Lemma entries_imap g vs :
  foldl (fun (es : list sort_entry) (ix : nat * value) => es ++ [entry g (length es) ix.2]) [] (imap pair vs)
  = imap (entry g) vs.
Proof.
  induction vs as [|x vs IH] using rev_ind; [done|].
  rewrite !imap_app, foldl_app, IH. simpl. by rewrite length_imap, !Nat.add_0_r.
Qed.

Lemma imap_index g vs : se_index <$> imap (entry g) vs = seq 0 (length vs).
Proof.
  apply list_eq. intros i. rewrite list_lookup_fmap, list_lookup_imap.
  destruct (vs !! i) as [x|] eqn:E; simpl.
  - rewrite lookup_seq_lt by (by eapply lookup_lt_Some). done.
  - symmetry. apply lookup_ge_None_2. rewrite length_seq. by apply lookup_ge_None_1.
Qed.

(** C36. [_.sortBy] ends on every array and answers a new array, when the iteratee
    changes nothing and its criteria are no objects or symbols: a permutation of the
    argument.  When the criteria are strings, or numbers other than NaN (and what
    compares as one: booleans and null), in either case with undefined among them,
    the result is in order: criteria ascend, undefined is last, and entries whose
    criteria are equal keep their original order, so that the sort is stable.  The
    objects of the heap do not change. *)
Theorem sortBy_correct s array vs it ctx f g :
  is_arr (heap s) array vs -> short vs ->
  cb call it ctx VUndef s = (Done f, s) ->
  (forall i x, vs !! i = Some x -> f [x; VNat i; array] s = (Done (g x), s)) ->
  (forall x, x ∈ vs -> is_prim (g x)) ->
  exists r s' ws ps, sortBy call array it ctx s = (Done r, s') /\ ext s s' /\ is_arr (heap s') r ws /\
    ps ≡ₚ seq 0 (length vs) /\ Forall2 (fun p w => vs !! p = Some w) ps ws /\
    (forall strings, (forall x, x ∈ vs -> ordered strings (g x)) ->
     forall i j p q x y, i < j -> ps !! i = Some p -> ps !! j = Some q -> ws !! i = Some x -> ws !! j = Some y ->
       crit_le (g x) (g y) = true /\ (crit_le (g y) (g x) = true -> p < q)).
Proof.
  intros Ha Hs Hcb Hf Hg. set (l := foldl (fun acc x => ins x acc) [] (imap (entry g) vs)).
  assert (forall P : value -> Prop, (forall x, x ∈ vs -> P (g x)) -> Forall (fun e => P (se_criteria e)) (imap (entry g) vs)) as Hall.
  { intros P HP. apply Forall_forall. intros e (i & x & -> & Hi)%elem_of_lookup_imap_1.
    by apply HP, (list_elem_of_lookup_2 _ i). }
  destruct (sort_entries_spec (imap (entry g) vs) s (Hall is_prim Hg)) as [El Pl]. fold l in El, Pl.
  assert (wp (sortBy call array it ctx) s (fun r s' => ext s s' /\ is_arr (heap s') r (se_value <$> l))) as Hwp.
  { unfold sortBy. apply wp_bind. eapply wp_eq; [done|]. apply wp_bind. eapply wp_eq.
    { apply (each_acc_arr call s array vs (fun es i x => es ++ [entry g (length es) x])); [done|done|].
      intros i x es Hx. by rewrite (bind_eq _ _ _ _ _ (Hf i x Hx)). }
    rewrite entries_imap. apply wp_bind. eapply wp_eq; [done|].
    apply wp_array_of. intros r s' He Hr _ _ _. done. }
  destruct (wp_elim _ _ _ Hwp) as (r & s' & E & He & Hr).
  assert (forall i e, l !! i = Some e -> se_criteria e = g (se_value e) /\ vs !! se_index e = Some (se_value e)) as Hl.
  { intros i e Hi. apply list_elem_of_lookup_2 in Hi. rewrite Pl in Hi.
    by apply elem_of_lookup_imap_1 in Hi as (j & x & -> & Hx). }
  exists r, s', (se_value <$> l), (se_index <$> l). split_and!; try done.
  - rewrite <- (imap_index g vs). by apply fmap_Permutation.
  - apply Forall2_same_length_lookup. split; [by rewrite !length_fmap|].
    intros i p w. rewrite !list_lookup_fmap. intros (e & He1 & ->)%fmap_Some (e' & He2 & ->)%fmap_Some.
    simplify_eq. by apply (Hl i).
  - intros strings Ho i j p q x y Hij. rewrite !list_lookup_fmap.
    intros (a & Ha1 & ->)%fmap_Some (b & Hb1 & ->)%fmap_Some (a' & Ha2 & ->)%fmap_Some (b' & Hb2 & ->)%fmap_Some.
    simplify_eq. destruct (Hl i a Ha1) as [<- _], (Hl j b Hb1) as [<- _].
    assert (StronglySorted precedes l) as Sl.
    { apply (inserted_sorted strings); [exact (Hall (ordered strings) Ho)|]. rewrite imap_index. apply NoDup_seq. }
    apply (sorted_lookup _ _ i j a b Sl Hij Ha1 Hb1).
Qed.

(** ** Grouping *)

Lemma bucket_get_put {A} (bs : list (key * A)) k k' b :
  bucket_get (bucket_put bs k b) k' = if decide (k' = k) then Some b else bucket_get bs k'.
Proof.
  induction bs as [|[k1 b1] bs IH]; simpl.
  - by destruct (decide (k' = k)) as [E|E]; [rewrite bool_decide_true|rewrite bool_decide_false].
  - case_bool_decide as E1; simpl.
    + subst k1. case_decide as E2; [by rewrite bool_decide_true|by rewrite !bool_decide_false].
    + rewrite IH. case_bool_decide as E2; [|done]. subst k1. by rewrite decide_False by congruence.
Qed.

(** The entries with the key [k], in order. *)
Definition with_key (K : value -> key) (vs : list value) (k : key) : list value :=
  base.filter (fun x => K x = k) vs.

Definition add_bucket (K : value -> key) (bs : list (key * list value)) (x : value) :=
  match bucket_get bs (K x) with
  | Some ws => bucket_put bs (K x) (ws ++ [x])
  | None => bucket_put bs (K x) [x]
  end.

Lemma buckets_spec K vs k :
  bucket_get (foldl (add_bucket K) [] vs) k =
  match with_key K vs k with [] => None | ws => Some ws end.
Proof.
  unfold with_key. induction vs as [|x vs IH] using rev_ind; [done|].
  rewrite foldl_app, filter_app. cbn [foldl]. unfold add_bucket at 1.
  destruct (decide (K x = k)) as [<-|Hk].
  - rewrite IH, (filter_cons_True (fun x0 => K x0 = K x)), filter_nil by done.
    destruct (base.filter (fun x0 => K x0 = K x) vs) as [|y ws]; by rewrite bucket_get_put, decide_True.
  - rewrite (filter_cons_False (fun x0 => K x0 = k)), filter_nil, app_nil_r by done.
    destruct (bucket_get _ (K x)); rewrite bucket_get_put, decide_False by congruence; done.
Qed.

Lemma wp_alloc_buckets bs s :
  wp (alloc_buckets bs) s (fun ps s' => ext s s' /\
    Forall2 (fun b p => p.1 = b.1 /\ is_arr (heap s') (p_val p.2) b.2) bs ps).
Proof.
  revert s. induction bs as [|[k ws] bs IH]; intros s; simpl.
  - apply wp_ret. split; [apply ext_refl|constructor].
  - apply wp_bind, wp_array_of. intros v s1 He1 Hv _ _ _. apply wp_bind.
    eapply wp_mono; [apply IH|]. intros ps s2 [He2 Hps]. apply wp_ret.
    split; [by eapply ext_trans|]. constructor; [|done]. split; [done|]. by eapply is_arr_ext.
Qed.

Lemma assoc_buckets h bs ps k :
  Forall2 (fun b p => p.1 = b.1 /\ is_arr h (p_val p.2) b.2) bs ps ->
  match bucket_get bs k with
  | Some ws => exists v, p_val <$> assoc_get ps k = Some v /\ is_arr h v ws
  | None => assoc_get ps k = None
  end.
Proof.
  induction 1 as [|[k1 ws] [k2 p] bs ps [Hk Hp] _ IH]; simpl in *; [done|]. subst k2.
  case_bool_decide; [|done]. by exists (p_val p).
Qed.

(** [_.groupBy] ends on every array when the callback and the conversion of
    its keys are pure: it answers a new object whose own properties are exactly
    the keys of the entries, each with a new array of the entries of that key in
    their order.  The objects of the heap do not change. *)
Theorem groupBy_correct s array vs it ctx f (kv : value -> value) (K : value -> key) :
  is_arr (heap s) array vs -> short vs ->
  cb call it ctx VUndef s = (Done f, s) ->
  (forall i x, vs !! i = Some x -> f [x; VNat i; array] s = (Done (kv x), s)) ->
  (forall x, x ∈ vs -> to_key call (kv x) s = (Done (K x), s)) ->
  exists l s' o, groupBy call array it ctx s = (Done (VRef l), s') /\ ext s s' /\ heap s' !! l = Some o /\
    (forall k, is_Some (own_get o k) <-> exists x, x ∈ vs /\ K x = k) /\
    (forall k v, own_get o k = Some v -> is_arr (heap s') v (with_key K vs k)).
Proof.
  intros Ha Hs Hcb Hf HK. set (bs := foldl (add_bucket K) [] vs).
  assert (wp (groupBy call array it ctx) s (fun r s' => exists l ps, r = VRef l /\ ext s s' /\
    heap s' !! l = Some {| o_class := CObject; o_proto := Some ObjProto; o_elems := []; o_props := ps;
                           o_data := VUndef |} /\
    Forall2 (fun b p => p.1 = b.1 /\ is_arr (heap s') (p_val p.2) b.2) bs ps)) as Hwp.
  { unfold groupBy, group. apply wp_bind, wp_bind. eapply wp_eq; [done|]. eapply wp_eq.
    { apply (each_acc_arr call s array vs (fun bs _ x => add_bucket K bs x)); [done|done|].
      intros i x a Hx. rewrite (bind_eq _ _ _ _ _ (Hf i x Hx)). unfold groupBy_behavior.
      by rewrite (bind_eq _ _ _ _ _ (HK x (list_elem_of_lookup_2 _ _ _ Hx))). }
    assert (foldl (fun a ix => add_bucket K a ix.2) [] (imap pair vs) = bs) as ->.
    { unfold bs. clear. generalize ([] : list (key * list value)) as b, 0 as n.
      intros b _. rewrite <- (list_fmap_id vs) at 2. revert b.
      assert (forall n b, foldl (fun a ix => add_bucket K a ix.2) b (imap (fun i => pair (n + i)) vs) =
        foldl (add_bucket K) b (id <$> vs)) as Hg; [|apply (Hg 0)].
      induction vs as [|x vs IH]; intros n b; simpl; [done|].
      rewrite <- (IH (S n)). f_equal. apply imap_ext. intros i y _. simpl. f_equal. lia. }
    apply wp_bind. eapply wp_mono; [apply wp_alloc_buckets|]. intros ps s1 [He1 Hps].
    unfold new_object. apply wp_alloc. intros l s2 Hl Hh _ _. exists l, ps. split; [done|].
    assert (ext s1 s2) as He2.
    { unfold ext. rewrite Hh. by apply insert_subseteq. }
    split; [by eapply ext_trans|]. split; [by rewrite Hh, lookup_insert_eq|].
    eapply Forall2_impl; [done|]. intros b p [Hb Hp]. split; [done|]. by eapply is_arr_ext. }
  destruct (wp_elim _ _ _ Hwp) as (r & s' & E & l & ps & -> & He & Hl & Hps).
  exists l, s'. eexists. split; [done|]. split; [done|]. split; [done|].
  assert (forall k, own_get {| o_class := CObject; o_proto := Some ObjProto; o_elems := []; o_props := ps;
                           o_data := VUndef |} k = p_val <$> assoc_get ps k) as Hown by done.
  split.
  - intros k. rewrite Hown. pose proof (assoc_buckets _ _ _ k Hps) as Hb. unfold bs in Hb.
    rewrite buckets_spec in Hb. unfold with_key in Hb. destruct (base.filter _ vs) as [|y ws] eqn:Ef.
    + rewrite Hb. split; [by intros [? ?]|]. intros (x & Hx & Hk).
      assert (x ∈ base.filter (fun x => K x = k) vs) as Hin by by apply list_elem_of_filter.
      rewrite Ef in Hin. by apply not_elem_of_nil in Hin.
    + destruct Hb as (v & -> & _). split; [|done]. intros _. exists y.
      assert (y ∈ base.filter (fun x => K x = k) vs) as Hin by (rewrite Ef; set_solver).
      by apply list_elem_of_filter in Hin as [? ?].
  - intros k v. rewrite Hown. pose proof (assoc_buckets _ _ _ k Hps) as Hb. unfold bs in Hb.
    rewrite buckets_spec in Hb. destruct (with_key K vs k) as [|y ws]; [by rewrite Hb|].
    destruct Hb as (v' & -> & Hv). by intros [= <-].
Qed.

End proofs.
End UsSorting.
