(* ===== verification/UsEquality.v ===== *)
(** [_.isEqual] ends, cyclic structures included. *)

From S2P Require Import Prelude Regex JsCore UsObjects UsCollections JsLogic.
Import UsObjects.

Module UsEquality.

(** [m] ends, normally with a result in [Q] or with an exception, and leaves the
    state as it is. *)
Definition ends {A} (m : M A) (s : state) (Q : A -> Prop) : Prop :=
  match m s with
  | (Done a, s') => s' = s /\ Q a
  | (Exc _, s') => s' = s
  | (NoFuel, _) => False
  end.

Section rules.
Context {A B : Type}.
Implicit Types (m : M A) (s : state).

Lemma ends_ret (a : A) s (Q : A -> Prop) : Q a -> ends (mret a) s Q.
Proof. done. Qed.

Lemma ends_bind m (f : A -> M B) s (P : A -> Prop) (Q : B -> Prop) :
  ends m s P -> (forall a, P a -> ends (f a) s Q) -> ends (m ≫= f) s Q.
Proof.
  unfold ends, mbind, M_bind. destruct (m s) as [[a|e|] s']; [|done|done]. intros [-> HP] Hf. by apply Hf.
Qed.

Lemma ends_mono m s (P Q : A -> Prop) : ends m s P -> (forall a, P a -> Q a) -> ends m s Q.
Proof. unfold ends. destruct (m s) as [[a|e|] s']; naive_solver. Qed.

Lemma ends_throw e s (Q : A -> Prop) : ends (throw e) s Q.
Proof. done. Qed.

Lemma ends_heap (f : gmap loc obj -> M B) s (Q : B -> Prop) :
  ends (f (heap s)) s Q -> ends (get_heap ≫= f) s Q.
Proof. done. Qed.

Lemma ends_eq m s a (Q : A -> Prop) : m s = (Done a, s) -> Q a -> ends m s Q.
Proof. unfold ends. by intros ->. Qed.
End rules.

Lemma ends_for_down {A R} n (body : nat -> A -> M (loop A R)) a s :
  (forall i a, i < n -> ends (body i a) s (fun _ => True)) -> ends (for_down n body a) s (fun _ => True).
Proof.
  revert a. induction n as [|n IH]; intros a Hb; simpl; [by apply ends_ret|].
  eapply ends_bind; [apply Hb; lia|]. intros [a'|r] _; [|by apply ends_ret].
  apply IH. intros i a'' Hi. apply Hb. lia.
Qed.

Section equality.
Context `{Realm} `{Engine}.
Variable call : loc -> value -> list value -> M value.
Implicit Types (s : state).

Lemma ends_get_prop v k s : ends (get_prop v k) s (fun _ => True).
Proof. unfold get_prop. apply ends_heap. by destruct v. Qed.

Lemma ends_has1 v k s : ends (has1 v k) s (fun _ => True).
Proof. unfold has1, has_own. destruct (is_nullish v); [done|]. apply ends_heap. by destruct v. Qed.

Lemma ends_in_obj k v s : ends (in_obj k v) s (fun _ => True).
Proof. by destruct v. Qed.

Lemma ends_instanceof v f s : ends (instanceof v f) s (fun _ => True).
Proof.
  unfold instanceof. apply ends_heap. destruct (is_callable (heap s) f); [|done].
  destruct v; try done. eapply ends_bind; [apply ends_get_prop|]. intros p _. by destruct p.
Qed.

Lemma ends_keys v s : nativeKeys = true -> ends (keys v) s (fun ks =>
  match v with
  | VRef l => is_Some (heap s !! l) \/ ks = []
  | _ => ks = []
  end /\ forall x, x ∈ ks -> exists k, x = key_to_value k).
Proof.
  intros Hn. unfold keys. apply ends_heap. destruct (isObject (heap s) v) eqn:Hobj.
  - rewrite Hn. apply ends_ret. split.
    + destruct v; try done. simpl. destruct (heap s !! l); [by left|by right].
    + intros x (k & -> & _)%list_elem_of_fmap. by exists k.
  - apply ends_ret. split; [destruct v; try done; by right|]. intros x Hx. by apply not_elem_of_nil in Hx.
Qed.

Lemma ends_prim_num v s : is_object v = false -> ends (to_num call v) s (fun _ => True).
Proof. by destruct v. Qed.

Lemma ends_prim_str v s : is_object v = false -> ends (concat_str call v) s (fun _ => True).
Proof. by destruct v. Qed.

Lemma ends_ctors_differ a b s : ends (ctors_differ a b) s (fun _ => True).
Proof.
  unfold ctors_differ.
  eapply ends_bind; [apply ends_get_prop|]. intros ca _.
  eapply ends_bind; [apply ends_get_prop|]. intros cb _.
  destruct (strict_eq ca cb); [by apply ends_ret|]. apply ends_heap.
  assert (forall c, ends (if isFunction (heap s) c then instanceof c c else mret false) s (fun _ => True)) as Hself.
  { intros c. destruct (isFunction (heap s) c); [apply ends_instanceof|by apply ends_ret]. }
  eapply ends_bind; [apply Hself|]. intros sa _.
  eapply ends_bind with (P := fun _ => True); [destruct sa; [apply Hself|by apply ends_ret]|]. intros sb _.
  destruct (sa && sb); [by apply ends_ret|].
  eapply ends_bind; [apply ends_in_obj|]. intros ia _.
  eapply ends_bind with (P := fun _ => True); [destruct ia; [apply ends_in_obj|by apply ends_ret]|].
  intros ib _. by apply ends_ret.
Qed.

(** The classes of objects that are compared by their entries or properties. *)
Definition structural (c : class) : bool :=
  match c with
  | CArray | CObject | CFunction | CArguments | CError | CMap | CWeakMap | CSet | CWeakSet => true
  | _ => false
  end.

Definition plain_heap (h : gmap loc obj) : Prop := forall l o, h !! l = Some o -> structural (o_class o) = true.

Lemma plain_class h l : plain_heap h -> structural (class_of h l) = true.
Proof. intros Hp. unfold class_of. destruct (h !! l) as [o|] eqn:E; [by eapply Hp|done]. Qed.

(** A value whose tag is one of the tags compared by value is a primitive. *)
Lemma by_value_prim h v name :
  plain_heap h -> toString_tag h v = js "[object " ++ js name ++ js "]" ->
  name ∈ ["RegExp"; "String"; "Number"; "Date"; "Boolean"; "Symbol"; "ArrayBuffer"; "DataView"]%string ->
  is_object v = false.
Proof.
  intros Hp Ht Hn. destruct v as [| | | | | |l]; try done. exfalso.
  unfold toString_tag, value_class in Ht. pose proof (plain_class h l Hp) as Hc.
  destruct (class_of h l); try done;
    repeat (apply elem_of_cons in Hn as [->|Hn]; [vm_compute in Ht; congruence|]);
    by apply not_elem_of_nil in Hn.
Qed.


(** An engine with [Object.keys], [ArrayBuffer.isView] and proper tags. *)
Definition modern : Prop := hasStringTagBug = false /\ nativeKeys = true /\ nativeIsView = true.

Lemma isTypedArray_plain v s : modern -> plain_heap (heap s) -> isTypedArray v s = (Done false, s).
Proof.
  intros (_ & _ & Hv) Hp. unfold isTypedArray. destruct supportsArrayBuffer; [|done]. rewrite bind_heap, Hv.
  assert (is_view (heap s) v = false) as ->; [|done].
  destruct v as [| | | | | |l]; try done. simpl. pose proof (plain_class _ l Hp). by destruct (class_of (heap s) l).
Qed.

Lemma ends_unwrap v s : ends (unwrap v) s (fun _ => True).
Proof.
  unfold unwrap. eapply ends_bind; [apply ends_instanceof|]. intros [] _; [apply ends_get_prop|by apply ends_ret].
Qed.

(** The objects under comparison: different objects of the heap. *)
Definition stack_ok (h : gmap loc obj) (stack : list (value * value)) : Prop :=
  exists ls, stack.*1 = VRef <$> ls /\ NoDup ls /\ forall l, l ∈ ls -> is_Some (h !! l).

Lemma stack_ok_size h stack : stack_ok h stack -> length stack <= size h.
Proof.
  intros (ls & E & Hnd & Hdom). replace (length stack) with (length ls).
  - rewrite <- (size_list_to_set (C := gset loc)), <- size_dom by done. apply subseteq_size.
    intros l Hl. apply elem_of_dom, Hdom. by apply elem_of_list_to_set in Hl.
  - apply (f_equal length) in E. by rewrite !length_fmap in E.
Qed.

Lemma stack_find_None a stack : stack_find a stack = None -> forall p, p ∈ stack -> strict_eq p.1 a = false.
Proof.
  induction stack as [|[x y] stack IH]; simpl; [set_solver|]. destruct (strict_eq x a) eqn:E; [done|].
  intros Hn p [->|Hp]%elem_of_cons; [done|by apply IH].
Qed.

Lemma stack_ok_push h l b stack :
  is_Some (h !! l) -> stack_ok h stack -> stack_find (VRef l) stack = None -> stack_ok h ((VRef l, b) :: stack).
Proof.
  intros Hl (ls & E & Hnd & Hdom) Hf. exists (l :: ls). split; [by rewrite !fmap_cons, E|].
  split; [|set_solver]. constructor; [|done]. intros Hin.
  assert (VRef l ∈ stack.*1) as Hin' by (rewrite E; by apply list_elem_of_fmap_2).
  apply list_elem_of_fmap in Hin' as (p & Ep & Hp). apply (stack_find_None _ _ Hf) in Hp.
  rewrite <- Ep in Hp. simpl in Hp. by rewrite bool_decide_true in Hp.
Qed.

(** The comparison of the members, given that comparing two members ends. *)
Lemma ends_entries (rec : value -> value -> M bool) a b s :
  (forall x y, ends (rec x y) s (fun _ => True)) ->
  ends (la ← get_prop a length_key; lb ← get_prop b length_key;
        if negb (strict_eq la lb) then mret (Return false) else
        n ← rounds call la;
        for_down n (fun i _ => x ← get_idx a i; y ← get_idx b i; e ← rec x y;
                               mret (if e : bool then Continue tt else Return false)) tt) s (fun _ => True)
  \/ class_of (heap s) (match a with VRef l => l | _ => 1%positive end) <> CArray \/ is_object a = false.
Proof.
  intros Hrec. destruct a as [| | | | | |l]; try by right; right.
  destruct (decide (class_of (heap s) l = CArray)) as [Hc|]; [|by right; left]. left.
  assert (exists o, heap s !! l = Some o /\ o_class o = CArray) as (o & Ho & Hco).
  { unfold class_of in Hc. destruct (heap s !! l) as [o|]; [by exists o|done]. }
  eapply (ends_bind _ _ _ (fun v => v = VNat (length (o_elems o)))).
  { eapply ends_eq; [|done]. unfold get_prop. rewrite bind_heap.
    rewrite (lookup_own (heap s) l o length_key (VNat (length (o_elems o)))); [done|done|].
    unfold own_get. by rewrite Hco. }
  intros la ->. eapply ends_bind; [apply ends_get_prop|]. intros lb _.
  destruct (negb (strict_eq (VNat (length (o_elems o))) lb)); [by apply ends_ret|].
  eapply (ends_bind _ _ _ (fun _ => True)); [eapply ends_eq; [apply rounds_nat|done]|]. intros n _.
  apply ends_for_down. intros i [] _.
  eapply ends_bind; [apply ends_get_prop|]. intros x _.
  eapply ends_bind; [apply ends_get_prop|]. intros y _.
  eapply ends_bind; [apply Hrec|]. intros [] _; by apply ends_ret.
Qed.

Lemma ends_members (rec : value -> value -> M bool) a b s :
  modern -> (is_Some (heap s !! match a with VRef l => l | _ => 1%positive end) -> is_object a = true ->
             forall x y, ends (rec x y) s (fun _ => True)) ->
  ends (_keys ← keys a; kb ← keys b;
        if negb (Nat.eqb (length kb) (length _keys)) then mret (Return false) else
        for_down (length _keys) (fun i _ =>
          k ← to_key call (arg _keys i);
          own ← has1 b k;
          if own : bool then
            x ← get_prop a k; y ← get_prop b k; e ← rec x y;
            mret (if e : bool then Continue tt else Return false)
          else mret (Return false)) tt) s (fun _ => True).
Proof.
  intros (_ & Hk & _) Hrec. eapply ends_bind; [by apply ends_keys|]. intros ks [Hks Hvals].
  eapply ends_bind; [by apply ends_keys|]. intros kb _.
  destruct (negb (length kb =? length ks)); [by apply ends_ret|].
  destruct (decide (ks = [])) as [->|Hne]; [by apply ends_ret|].
  apply ends_for_down. intros i [] Hi.
  destruct (lookup_lt_is_Some_2 ks i Hi) as [x Hx].
  destruct (Hvals x (list_elem_of_lookup_2 _ _ _ Hx)) as [k ->].
  unfold arg. rewrite Hx. cbn [or_undef].
  eapply (ends_bind _ _ _ (fun _ => True)); [by destruct k|]. intros k' _.
  eapply ends_bind; [apply ends_has1|]. intros [] _; [|by apply ends_ret].
  eapply ends_bind; [apply ends_get_prop|]. intros u _.
  eapply ends_bind; [apply ends_get_prop|]. intros w _.
  eapply ends_bind; [apply Hrec|].
  - destruct a; try done. by destruct Hks.
  - by destruct a.
  - intros [] _; by apply ends_ret.
Qed.


Lemma tag_array h v : toString_tag h v = js "[object " ++ js "Array" ++ js "]" -> plain_heap h ->
  exists l, v = VRef l /\ class_of h l = CArray.
Proof.
  intros Ht Hp. destruct v as [| | | | | |l]; try (vm_compute in Ht; congruence).
  exists l. split; [done|]. unfold toString_tag, value_class in Ht. pose proof (plain_class h l Hp) as Hc.
  destruct (class_of h l); try done; vm_compute in Ht; congruence.
Qed.

(** The part of [deepEq] after the comparisons by value. *)
Lemma ends_structures fuel a b stack s :
  modern -> plain_heap (heap s) -> stack_ok (heap s) stack ->
  (toString_tag (heap s) a = js "[object " ++ js "Array" ++ js "]" -> exists l, a = VRef l /\ class_of (heap s) l = CArray) ->
  (forall l, a = VRef l -> is_Some (heap s !! l) -> stack_find a stack = None ->
     forall x y, ends (eq call fuel x y ((a, b) :: stack)) s (fun _ => True)) ->
  let areArrays := bool_decide (toString_tag (heap s) a = js "[object " ++ js "Array" ++ js "]") in
  ends (match stack_find a stack with
        | Some y => mret (strict_eq y b)
        | None =>
            r ← (if areArrays then
                   la ← get_prop a length_key; lb ← get_prop b length_key;
                   if negb (strict_eq la lb) then mret (Return false) else
                   n ← rounds call la;
                   for_down n (fun i _ =>
                     x ← get_idx a i; y ← get_idx b i;
                     e ← eq call fuel x y ((a, b) :: stack);
                     mret (if e : bool then Continue tt else Return false)) tt
                 else
                   _keys ← keys a;
                   kb ← keys b;
                   if negb (Nat.eqb (length kb) (length _keys)) then mret (Return false) else
                   for_down (length _keys) (fun i _ =>
                     k ← to_key call (arg _keys i);
                     own ← has1 b k;
                     if own : bool then
                       x ← get_prop a k; y ← get_prop b k;
                       e ← eq call fuel x y ((a, b) :: stack);
                       mret (if e : bool then Continue tt else Return false)
                     else mret (Return false)) tt);
            mret (match r with Return e => e | Continue _ => true end)
        end) s (fun _ => True).
Proof.
  intros Hm Hp Hst Htag Hrec areArrays. destruct (stack_find a stack) as [y|] eqn:Hf; [by apply ends_ret|].
  eapply (ends_bind _ _ _ (fun _ => True)); [|intros [] _; by apply ends_ret].
  unfold areArrays. case_bool_decide as Ht.
  - destruct (Htag Ht) as (l & -> & Hc).
    assert (is_Some (heap s !! l)) as Hl.
    { unfold class_of in Hc. by destruct (heap s !! l). }
    destruct (ends_entries (fun x y => eq call fuel x y ((VRef l, b) :: stack)) (VRef l) b s) as [He|[Hn|Hn]];
      [by eapply Hrec|exact He|done|done].
  - apply (ends_members (fun x y => eq call fuel x y ((a, b) :: stack)) a b s Hm).
    intros Hl Ho. destruct a as [| | | | | |l]; try done. by eapply Hrec.
Qed.

Lemma eq_ends fuel :
  (forall a b stack s, modern -> plain_heap (heap s) -> stack_ok (heap s) stack ->
     2 * (size (heap s) - length stack) + 2 <= fuel ->
     ends (eq call fuel a b stack) s (fun _ => True)) /\
  (forall a b stack s, modern -> plain_heap (heap s) -> stack_ok (heap s) stack ->
     2 * (size (heap s) - length stack) + 1 <= fuel ->
     ends (deepEq call fuel a b stack) s (fun _ => True)).
Proof.
  induction fuel as [|fuel [IHeq IHdeep]]; [split; intros; lia|].
  split; intros a b stack s Hm Hp Hst Hf; cbn [eq deepEq]; fold (eq call) (deepEq call).
  - destruct (strict_eq a b); [by apply ends_ret|].
    destruct (is_nullish a || is_nullish b); [by apply ends_ret|].
    destruct (negb (strict_eq a a)); [by apply ends_ret|]. apply ends_heap.
    destruct (_ && _); [by apply ends_ret|]. apply IHdeep; [done..|lia].
  - eapply ends_bind; [apply ends_unwrap|]. intros a' _. clear a. rename a' into a.
    eapply ends_bind; [apply ends_unwrap|]. intros b' _. clear b. rename b' into b.
    apply ends_heap. destruct Hm as (Hbug & Hk & Hv) eqn:Em. clear Em. rewrite Hbug. cbn [andb].
    case_bool_decide as Htags; cbn [negb]; [|by apply ends_ret].
    eapply (ends_bind _ _ _ (fun v => v = false)); [by apply ends_ret|]. intros ? ->.
    eapply (ends_bind _ _ _ (fun v => v = true)); [by apply ends_ret|]. intros ? ->. cbn [negb].
    pose proof (fun name => by_value_prim (heap s) a name Hp) as Ha.
    pose proof (fun name => by_value_prim (heap s) b name Hp) as Hb. rewrite <- Htags in Hb.
    destruct (_ || _) eqn:E1.
    { assert (is_object a = false /\ is_object b = false) as [Oa Ob].
      { apply orb_true_iff in E1 as [E|E]; apply bool_decide_eq_true in E;
          (split; [eapply Ha|eapply Hb]); first [exact E|by_deciding]. }
      eapply ends_bind; [by apply ends_prim_str|]. intros x _.
      eapply ends_bind; [by apply ends_prim_str|]. intros y _. by apply ends_ret. }
    clear E1. case_bool_decide as E2.
    { assert (is_object a = false /\ is_object b = false) as [Oa Ob].
      { split; [eapply Ha|eapply Hb]; first [exact E2|by_deciding]. }
      eapply ends_bind; [by apply ends_prim_num|]. intros x _.
      destruct (bool_decide (x = NaN)); (eapply ends_bind; [by apply ends_prim_num|]); intros y _; by apply ends_ret. }
    destruct (_ || _) eqn:E3.
    { assert (is_object a = false /\ is_object b = false) as [Oa Ob].
      { apply orb_true_iff in E3 as [E|E]; apply bool_decide_eq_true in E;
          (split; [eapply Ha|eapply Hb]); first [exact E|by_deciding]. }
      eapply ends_bind; [by apply ends_prim_num|]. intros x _.
      eapply ends_bind; [by apply ends_prim_num|]. intros y _. by apply ends_ret. }
    clear E3. case_bool_decide as E4.
    { assert (is_object a = false /\ is_object b = false) as [Oa Ob].
      { split; [eapply Ha|eapply Hb]; first [exact E4|by_deciding]. }
      eapply (ends_bind _ _ _ (fun _ => True)); [by destruct a|]. intros x _.
      eapply (ends_bind _ _ _ (fun _ => True)); [by destruct b|]. intros y _. by apply ends_ret. }
    destruct (_ || _) eqn:E5.
    { exfalso. apply orb_true_iff in E5 as [E|E]; apply bool_decide_eq_true in E;
        (assert (is_object a = false) as Oa by (eapply Ha; first [exact E|by_deciding]));
        destruct a; try done; vm_compute in E; congruence. }
    clear E5. eapply (ends_bind _ _ _ (fun v => v = false)).
    { destruct (bool_decide _); [by apply ends_ret|]. eapply ends_eq; [by apply isTypedArray_plain|done]. }
    intros ? ->. eapply (ends_bind _ _ _ (fun v => v = None)); [by apply ends_ret|]. intros ? ->. rewrite orb_false_r.
    destruct (negb _ && _); [by apply ends_ret|].
    eapply (ends_bind _ _ _ (fun _ => True)).
    { destruct (bool_decide _); [by apply ends_ret|apply ends_ctors_differ]. }
    intros [] _; [by apply ends_ret|].
    apply (ends_structures fuel a b stack s); [done|done|done| |].
    + intros Ht. by apply tag_array.
    + intros l -> Hl Hfind x y. pose proof (stack_ok_push _ _ b _ Hl Hst Hfind) as Hst'.
      apply IHeq; [done|done|done|]. pose proof (stack_ok_size _ _ Hst'). simpl in *. lia.
Qed.

(** C30. [_.isEqual] ends on every two values, cyclic structures included, when the
    heap holds arrays, plain objects, functions and the like: with fuel for twice
    the number of objects it answers or throws, it never runs out, and the heap
    does not change. *)
Theorem isEqual_ends fuel a b s :
  modern -> plain_heap (heap s) -> 2 * size (heap s) + 2 <= fuel ->
  (exists r, isEqual call fuel a b s = (Done r, s)) \/ (exists e, isEqual call fuel a b s = (Exc e, s)).
Proof.
  intros Hm Hp Hf. pose proof (proj1 (eq_ends fuel) a b [] s Hm Hp) as He. unfold isEqual.
  assert (stack_ok (heap s) []) as H0' by (exists []; split; [done|split; [constructor|set_solver]]).
  specialize (He H0' ltac:(simpl; lia)). unfold ends in He.
  destruct (eq call fuel a b [] s) as [[r|e|] s']; [|subst s'; by right; exists e|done].
  destruct He as [-> _]. left. by exists r.
Qed.

End equality.
End UsEquality.
