(* ===== verification/UsTimingProofs.v ===== *)
(** [_.throttle] and [_.debounce] keep their promises for every sequence of calls
    and timers, when the wrapped function does not call the wrapper itself. *)

From S2P Require Import Prelude UsTiming.
Import UsTiming.

Module UsTimingProofs.

Lemma clear_single {T} id d (x : T) :
  clear_timer (Some id) [{| tm_id := id; tm_deadline := d; tm_task := x |}] = [].
Proof. simpl. unfold base.filter. simpl. by rewrite decide_False by (intros E; by apply E). Qed.

Lemma due_single {T} now id id' d (x : T) tm :
  due now id' [{| tm_id := id; tm_deadline := d; tm_task := x |}] = Some tm -> id' = id /\ (d <= now)%Z.
Proof.
  unfold due, base.filter. simpl. case_decide as E; simpl; [|done].
  destruct (Z.leb_spec d now); [|done]. by subst.
Qed.

(** The times of consecutive executions, the last first, are [wait] apart. *)
Fixpoint spaced {A} (wait : Z) (log : list (Z * A)) : Prop :=
  match log with
  | (t2, _) :: (((t1, _) :: _) as log') => (t1 + wait <= t2)%Z /\ spaced wait log'
  | _ => True
  end.

(** The time of the last execution is at most [t]. *)
Definition last_before {A} (log : list (Z * A)) (t : Z) : Prop :=
  match log with (t1, _) :: _ => (t1 <= t)%Z | [] => True end.

Lemma spaced_cons {A} wait (log : list (Z * A)) t a :
  spaced wait log -> last_before log (t - wait) -> spaced wait ((t, a) :: log).
Proof. destruct log as [|[t1 a1] log]; simpl; [done|]. intros Hs Hl. split; [lia|done]. Qed.

Lemma last_before_mono {A} (log : list (Z * A)) t t' : (t <= t')%Z -> last_before log t -> last_before log t'.
Proof. destruct log as [|[t1 a1] log]; simpl; [done|lia]. Qed.

Section throttle.
Context {A R : Type}.
Variable func : option A -> throttle_state A R -> R * throttle_state A R.
Variable wait : Z.
Variable opts : options.
Implicit Types (s : throttle_state A R).

(** The last call among some events, with its time. *)
Definition th_last (es : list (th_event (A := A))) : option A :=
  foldl (fun acc e => match e with ThCall _ a => Some a | _ => acc end) None es.

Definition th_no_cancel (es : list (th_event (A := A))) : Prop :=
  Forall (fun e => match e with ThCancel _ => False | _ => True end) es.

(** What holds between two events: at most one timer, with deadline [previous +
    wait], no execution after [previous], and the last call executed or pending. *)
Record th_inv (last : option A) (s : throttle_state A R) : Prop := {
  ti_clock : (0 < th_clock s)%Z;
  ti_spaced : spaced wait (th_log s);
  ti_log : last_before (th_log s) (th_clock s);
  ti_prev : (th_previous s <= th_clock s)%Z;
  ti_prev_log : th_previous s = 0%Z /\ opt_leading opts = false \/ last_before (th_log s) (th_previous s);
  ti_timer :
    (th_timeout s = None /\ th_timers s = []) \/
    (exists id, th_timeout s = Some id /\ last_before (th_log s) (th_previous s) /\
      (th_previous s <> 0%Z \/ opt_leading opts = true) /\
      th_timers s = [{| tm_id := id; tm_deadline := (th_previous s + wait)%Z; tm_task := tt |}]);
  ti_last : forall a, opt_trailing opts = true -> last = Some a ->
    (th_args s = Some a /\ th_timeout s <> None) \/
    (th_timeout s = None /\ exists t log, th_log s = (t, Some a) :: log);
}.

(** The function does not use the wrapper. *)
Definition th_calm : Prop := forall a s, (func a s).2 = s.

Lemma th_execute_eq s : th_calm ->
  exists r, th_execute func s =
    {| th_timeout := th_timeout s;
       th_args := match th_timeout s with Some _ => th_args s | None => None end;
       th_result := Some r; th_previous := th_previous s; th_clock := th_clock s;
       th_timers := th_timers s; th_next := th_next s;
       th_log := (th_clock s, th_args s) :: th_log s |}.
Proof.
  intros Hc. unfold th_execute. set (logged := {| th_timeout := th_timeout s |}).
  pose proof (Hc (th_args s) logged) as E. destruct (func (th_args s) logged) as [r s1]. simpl in E. subst s1.
  exists r. unfold th_set_result. simpl. by destruct (th_timeout s).
Qed.

Lemma th_inv_call last s t a :
  th_calm -> th_inv last s -> (th_clock s <= t)%Z ->
  th_inv (Some a) (throttled func wait opts a (th_set_clock t s)).
Proof.
  intros Hc [Hclk Hsp Hlog Hprev Hpl Htm Hlast] Ht. unfold throttled. cbn [th_set_clock th_clock th_previous].
  set (s1 := if Z.eqb (th_previous s) 0 && negb (opt_leading opts) then _ else _).
  assert (th_timeout s1 = th_timeout s /\ th_timers s1 = th_timers s /\ th_log s1 = th_log s /\
    th_clock s1 = t /\ (th_previous s1 <= t)%Z /\ last_before (th_log s) (th_previous s1) /\
    (th_timeout s <> None -> th_previous s1 = th_previous s) /\
    (th_previous s1 <> 0%Z \/ opt_leading opts = true)) as (E1 & E2 & E3 & E4 & Hp1 & Hl1 & Hsame & Hnz).
  { unfold s1. destruct (Z.eqb_spec (th_previous s) 0) as [E0|E0]; cbn [andb].
    - destruct (opt_leading opts) eqn:Hlead;
        cbn [negb th_set_previous th_set_clock th_timeout th_timers th_log th_clock th_previous].
      + split_and!; try done; try lia; try by right. by destruct Hpl as [[_ ?]|].
      + split_and!; try done; try lia; [by eapply last_before_mono|].
        intros Hto. destruct Htm as [[? _]|(id & _ & _ & [?|?] & _)]; done.
    - cbn [th_set_clock th_timeout th_timers th_log th_clock th_previous].
      split_and!; try done; try lia; try by left. by destruct Hpl as [[? _]|]. }
  set (s2 := th_set_args (Some a) s1).
  assert (th_timeout s2 = th_timeout s /\ th_timers s2 = th_timers s /\ th_log s2 = th_log s /\
    th_clock s2 = t /\ th_previous s2 = th_previous s1 /\ th_args s2 = Some a) as (F1 & F2 & F3 & F4 & F5 & F6)
    by (unfold s2; by simpl).
  clearbody s1 s2.
  replace (Z.ltb wait (wait - (t - th_previous s1))) with false by (symmetry; apply Z.ltb_ge; lia).
  rewrite orb_false_r. destruct (Z.leb_spec (wait - (t - th_previous s1)) 0) as [Hrem|Hrem].
  - set (s3 := match th_timeout s2 with Some _ => _ | None => s2 end).
    assert (th_timeout s3 = None /\ th_timers s3 = [] /\ th_log s3 = th_log s /\ th_clock s3 = t /\
      th_args s3 = Some a) as (G1 & G2 & G3 & G4 & G5).
    { unfold s3. rewrite F1, F2. destruct Htm as [[Eto Ets]|(id & Eto & _ & _ & Ets)]; rewrite Eto.
      - split_and!; congruence.
      - rewrite Ets, clear_single. simpl. done. }
    clearbody s3. destruct (th_execute_eq (th_set_previous t s3) Hc) as [r ->].
    cbn [th_set_previous th_timeout th_args th_result th_previous th_clock th_timers th_next th_log].
    rewrite G1, G2, G3, G4, G5.
    constructor; cbn [th_timeout th_args th_result th_previous th_clock th_timers th_next th_log].
    + lia.
    + apply spaced_cons; [done|]. eapply last_before_mono; [|exact Hl1]. lia.
    + simpl. lia.
    + lia.
    + right. simpl. lia.
    + by left.
    + intros a' _ [= ->]. right. split; [done|]. by eexists _, _.
  - rewrite F1. destruct (decide (th_timeout s = None)) as [Hn|Hn].
    + rewrite bool_decide_true by done. destruct Htm as [[_ Ets]|(id & ? & _)]; [|congruence].
      destruct (opt_trailing opts) eqn:Htr; cbn [andb]; constructor; unfold th_arm;
        cbn [th_timeout th_args th_result th_previous th_clock th_timers th_next th_log];
        rewrite ?F1, ?F2, ?F3, ?F4, ?F5, ?F6; try done; try lia; try (by eapply last_before_mono); try by right.
      * right. exists (th_next s2). split_and!; try done. rewrite Ets. simpl. do 2 f_equal. lia.
      * intros a' _ [= ->]. left. by split.
      * by left.
      * congruence.
    + rewrite bool_decide_false by done. cbn [andb].
      destruct Htm as [[? _]|(id & Eto & Hb & Hz & Ets)]; [congruence|].
      specialize (Hsame Hn). constructor; rewrite ?F1, ?F2, ?F3, ?F4, ?F5, ?F6; try done; try lia;
        try (by eapply last_before_mono); try by right.
      * right. exists id. by rewrite Hsame.
      * intros a' _ [= ->]. left. by split.
Qed.

Lemma th_inv_fire last s t id tm :
  th_calm -> th_inv last s -> (th_clock s <= t)%Z -> due t id (th_timers s) = Some tm ->
  th_inv last (th_later func opts (th_set_timers (clear_timer (Some id) (th_timers s)) (th_set_clock t s))).
Proof.
  intros Hc [Hclk Hsp Hlog Hprev Hpl Htm Hlast] Ht Hdue.
  destruct Htm as [[_ Ets]|(id' & Eto & Hb & Hz & Ets)]; [by rewrite Ets in Hdue|].
  rewrite Ets in Hdue |- *. apply due_single in Hdue as [-> Hd]. rewrite clear_single.
  unfold th_later. destruct (th_execute_eq (th_set_timeout None (th_set_previous
    (if opt_leading opts then t else 0%Z) (th_set_timers [] (th_set_clock t s)))) Hc) as [r E].
  cbn [th_set_timers th_set_clock th_clock] in *. rewrite E.
  constructor; cbn [th_set_timers th_set_clock th_set_previous th_set_timeout
    th_timeout th_args th_result th_previous th_clock th_timers th_next th_log].
  - lia.
  - apply spaced_cons; [done|]. eapply last_before_mono; [|exact Hb]. lia.
  - simpl. lia.
  - destruct (opt_leading opts); lia.
  - destruct (opt_leading opts); [right; simpl; lia|by left].
  - by left.
  - intros a Htr Ha. right. split; [done|]. destruct (Hlast a Htr Ha) as [[-> _]|[? _]]; [|congruence].
    by eexists _, _.
Qed.

Lemma th_run_inv c0 es s :
  th_calm -> (0 < c0)%Z -> th_run func wait opts (throttle_start c0) es s -> th_no_cancel es ->
  th_inv (th_last es) s.
Proof.
  intros Hc H0 Hrun. remember (throttle_start c0) as s0. induction Hrun as [s|s es s1 e s2 Hrun IH Hstep]; intros Hn.
  - subst s. constructor; simpl; try done; try lia; first [by right|by left].
  - apply Forall_app in Hn as [Hn He]. specialize (IH Heqs0 Hn). unfold th_last. rewrite foldl_app. fold (th_last es).
    destruct Hstep as [s1 t a Ht|s1 t id tm Ht Hd|s1 t Ht]; simpl.
    + by eapply th_inv_call.
    + by eapply th_inv_fire.
    + by apply Forall_inv in He.
Qed.

(** C24. A throttled function whose body does not call the wrapper again keeps its
    two promises for every run without cancellation: consecutive executions are at
    least [wait] milliseconds apart, and with the trailing edge enabled the last
    call is never lost: it was the last one executed, or its arguments are stored
    and a timer, due no later than [wait] after the recorded time, is pending. *)
Theorem throttle_correct c0 es s :
  th_calm -> (0 < c0)%Z -> th_run func wait opts (throttle_start c0) es s -> th_no_cancel es ->
  spaced wait (th_log s) /\
  (forall a, opt_trailing opts = true -> th_last es = Some a ->
     (exists t log, th_log s = (t, Some a) :: log) \/
     (th_args s = Some a /\ exists tm, th_timers s = [tm] /\ th_timeout s = Some (tm_id tm) /\
        (tm_deadline tm <= th_clock s + wait)%Z)).
Proof.
  intros Hc H0 Hrun Hn. destruct (th_run_inv c0 es s Hc H0 Hrun Hn) as [_ Hsp _ Hprev _ Htm Hlast].
  split; [done|]. intros a Htr Ha. destruct (Hlast a Htr Ha) as [[Harg Hto]|[_ Hlog]]; [right|by left].
  split; [done|]. destruct Htm as [[? _]|(id & Eto & _ & _ & Ets)]; [done|].
  eexists. split; [done|]. split; [done|]. simpl. lia.
Qed.

End throttle.

Section debounce.
Context {A R : Type}.
Variable func : option A -> debounce_state A R -> R * debounce_state A R.
Variable wait : Z.
Variable immediate : bool.
Implicit Types (s : debounce_state A R).

Definition db_last (es : list (db_event (A := A))) : option (Z * A) :=
  foldl (fun acc e => match e with DbCall t a => Some (t, a) | _ => acc end) None es.

Definition db_no_cancel (es : list (db_event (A := A))) : Prop :=
  Forall (fun e => match e with DbCancel _ => False | _ => True end) es.

Definition db_calm : Prop := forall a s, (func a s).2 = s.

(** Between two events: at most one timer, due at the latest [wait] after the
    last call; without a timer a quiet period of [wait] has passed. *)
Record db_inv (last : option (Z * A)) (s : debounce_state A R) : Prop := {
  di_spaced : spaced wait (db_log s);
  di_log : last_before (db_log s) (db_clock s);
  di_last_time : match last with Some (tc, _) => (tc <= db_clock s)%Z | None => db_log s = [] end;
  di_timer :
    (db_timeout s = None /\ db_timers s = [] /\
     match last with
     | None => True
     | Some (tc, a) => (tc + wait <= db_clock s)%Z /\
         (if immediate then last_before (db_log s) (db_clock s - wait)
          else exists t log, db_log s = (t, Some a) :: log /\ (tc + wait <= t)%Z)
     end) \/
    (exists id d tc a, db_timeout s = Some id /\ last = Some (tc, a) /\ db_args s = Some a /\
      db_previous s = tc /\ last_before (db_log s) tc /\ (d <= tc + wait)%Z /\
      db_timers s = [{| tm_id := id; tm_deadline := d; tm_task := tt |}]);
}.

Lemma db_execute_eq s : db_calm ->
  exists r, db_execute func s =
    {| db_timeout := db_timeout s; db_previous := db_previous s; db_args := db_args s;
       db_result := Some r; db_clock := db_clock s; db_timers := db_timers s; db_next := db_next s;
       db_log := (db_clock s, db_args s) :: db_log s |}.
Proof.
  intros Hc. unfold db_execute. set (logged := {| db_timeout := db_timeout s |}).
  pose proof (Hc (db_args s) logged) as E. destruct (func (db_args s) logged) as [r s1]. simpl in E. subst s1.
  by exists r.
Qed.

Lemma db_inv_call last s t a :
  db_calm -> db_inv last s -> (db_clock s <= t)%Z ->
  db_inv (Some (t, a)) (debounced func wait immediate a (db_set_clock t s)).
Proof.
  intros Hc [Hsp Hlog Hlt Htm] Ht. unfold debounced. cbn [db_set_clock db_set_args db_set_previous db_timeout db_clock].
  destruct Htm as [(Eto & Ets & Hq)|(id & d & tc & a' & Eto & -> & Harg & Hprev & Hb & Hd & Ets)]; rewrite Eto.
  - set (s2 := db_arm wait _).
    assert (db_timeout s2 = Some (db_next s) /\ db_args s2 = Some a /\ db_previous s2 = t /\ db_log s2 = db_log s /\
      db_clock s2 = t /\ db_timers s2 = [{| tm_id := db_next s; tm_deadline := (t + wait)%Z; tm_task := tt |}])
      as (E1 & E2 & E3 & E4 & E5 & E6).
    { unfold s2, db_arm. cbn. by rewrite Ets. }
    clearbody s2. destruct immediate.
    + destruct (db_execute_eq s2 Hc) as [r ->].
      constructor; cbn [db_timeout db_args db_previous db_log db_clock db_timers]; rewrite ?E1, ?E2, ?E3, ?E4, ?E5, ?E6.
      * apply spaced_cons; [done|]. destruct last as [[tc ac]|]; [|by rewrite Hlt].
        eapply last_before_mono; [|apply Hq]. lia.
      * simpl. lia.
      * lia.
      * right. exists (db_next s), (t + wait)%Z, t, a. simpl. split_and!; try done; lia.
    + constructor; rewrite ?E1, ?E2, ?E3, ?E4, ?E5, ?E6.
      * done.
      * eapply last_before_mono; [exact Ht|exact Hlog].
      * lia.
      * right. exists (db_next s), (t + wait)%Z, t, a. split_and!; try done; try lia. eapply last_before_mono; [exact Ht|exact Hlog].
  - constructor; cbn [db_timeout db_args db_previous db_log db_clock db_timers].
    + done.
    + eapply last_before_mono; [exact Ht|exact Hlog].
    + simpl. lia.
    + right. exists id, d, t, a. simpl in Hlt. split_and!; try done; try lia.
      eapply last_before_mono; [|exact Hb]. lia.
Qed.

Lemma db_inv_fire last s t id tm :
  db_calm -> db_inv last s -> (db_clock s <= t)%Z -> due t id (db_timers s) = Some tm ->
  db_inv last (db_later func wait immediate
    (db_set_timers (clear_timer (Some id) (db_timers s)) (db_set_clock t s))).
Proof.
  intros Hc [Hsp Hlog Hlt Htm] Ht Hdue.
  destruct Htm as [(_ & Ets & _)|(id' & d & tc & a & Eto & -> & Harg & Hprev & Hb & Hd & Ets)];
    [by rewrite Ets in Hdue|].
  rewrite Ets in Hdue |- *. apply due_single in Hdue as [-> Hd']. rewrite clear_single.
  unfold db_later. cbn [db_set_timers db_set_clock db_clock db_previous]. rewrite Hprev.
  destruct (Z.ltb_spec (t - tc) wait) as [Hq|Hq].
  - constructor; unfold db_arm; cbn [db_set_timers db_set_clock db_timeout db_args db_previous db_log db_clock db_timers db_next].
    + done.
    + eapply last_before_mono; [exact Ht|exact Hlog].
    + lia.
    + right. exists (db_next s), (t + (wait - (t - tc)))%Z, tc, a. split_and!; try done. lia.
  - destruct immediate eqn:Him.
    + constructor; cbn [db_set_timers db_set_clock db_set_timeout db_set_args db_timeout db_args db_previous db_log db_clock db_timers].
      * done.
      * eapply last_before_mono; [exact Ht|exact Hlog].
      * lia.
      * left. rewrite Him. split_and!; try done; [lia|]. eapply last_before_mono; [|exact Hb]. lia.
    + destruct (db_execute_eq (db_set_timeout None (db_set_timers [] (db_set_clock t s))) Hc) as [r ->].
      constructor; cbn [db_set_timers db_set_clock db_set_timeout db_set_args db_timeout db_args db_previous db_log db_clock db_timers].
      * apply spaced_cons; [done|]. eapply last_before_mono; [|exact Hb]. lia.
      * simpl. lia.
      * lia.
      * left. rewrite Him. split_and!; try done; [lia|]. rewrite Harg. eexists _, _. split; [done|lia].
Qed.

Lemma db_run_inv c0 es s :
  db_calm -> db_run func wait immediate (debounce_start c0) es s -> db_no_cancel es -> db_inv (db_last es) s.
Proof.
  intros Hc Hrun. remember (debounce_start c0) as s0. induction Hrun as [s|s es s1 e s2 Hrun IH Hstep]; intros Hn.
  - subst s. constructor; simpl; try done. by left.
  - apply Forall_app in Hn as [Hn He]. specialize (IH Heqs0 Hn). unfold db_last. rewrite foldl_app. fold (db_last es).
    destruct Hstep as [s1 t a Ht|s1 t id tm Ht Hd|s1 t Ht]; simpl.
    + by eapply db_inv_call.
    + by eapply db_inv_fire.
    + by apply Forall_inv in He.
Qed.

(** C27. A debounced function whose body does not call the wrapper again keeps its
    promises for every run without cancellation: consecutive executions are at
    least [wait] milliseconds apart, and at the trailing edge the last call is
    never lost: its arguments are stored and a timer is pending that is due at
    the latest [wait] after it, or it was the last one executed, after a quiet
    period of at least [wait]. *)
Theorem debounce_correct c0 es s :
  db_calm -> db_run func wait immediate (debounce_start c0) es s -> db_no_cancel es ->
  spaced wait (db_log s) /\
  (forall tc a, immediate = false -> db_last es = Some (tc, a) ->
     (db_args s = Some a /\ exists tm, db_timers s = [tm] /\ db_timeout s = Some (tm_id tm) /\
        (tm_deadline tm <= tc + wait)%Z) \/
     (db_timers s = [] /\ exists t log, db_log s = (t, Some a) :: log /\ (tc + wait <= t)%Z)).
Proof.
  intros Hc Hrun Hn. destruct (db_run_inv c0 es s Hc Hrun Hn) as [Hsp _ _ Htm].
  split; [done|]. intros tc a Him Ha. rewrite Ha, Him in Htm.
  destruct Htm as [(_ & Ets & _ & Hl)|(id & d & tc' & a' & Eto & [= <- <-] & Harg & _ & _ & Hd & Ets)]; [by right|].
  left. split; [done|]. by eexists.
Qed.
End debounce.

End UsTimingProofs.
