(* ===== verification/UsTemplateProofs.v ===== *)
(** HTML escaping is reversible and leaves no markup; literal text of a template
    cannot leave the string literal it is compiled to. *)

From S2P Require Import Prelude Regex JsCore UsTemplate.
Import UsTemplate.

Module UsTemplateProofs.

(** * Replacing keywords *)

Lemma matcher_lit {A} s t i c (k : nat -> caps -> option A) :
  matcher s (RLit t) i c k = if is_prefix t (drop i s) then k (i + length t) c else None.
Proof.
  revert i. induction t as [|x t IH]; intros i; [by rewrite Nat.add_0_r|].
  assert (matcher s (RLit (x :: t)) i c k =
    match s !! i with
    | Some y => if N.eqb x y then matcher s (RLit t) (S i) c k else None
    | None => None
    end) as ->.
  { destruct t as [|x' t]; [|done]. simpl. destruct (s !! i); [|done]. by destruct (N.eqb x n). }
  destruct (s !! i) as [y|] eqn:Hy.
  - rewrite (drop_S s y i Hy). cbn [is_prefix]. destruct (N.eqb x y); [|done]. rewrite IH. simpl.
    by rewrite <- Nat.add_succ_comm.
  - rewrite drop_ge by (by apply lookup_ge_None_1). done.
Qed.

(** The first keyword that starts at the beginning of [t]. *)
Definition first_key (ks : list jstr) (t : jstr) : option jstr := List.find (fun k => is_prefix k t) ks.

Definition alts (ks : list jstr) : pattern := {| p_groups := 0; p_re := RAlts ks |}.

Lemma match_at_alts ks s i :
  match_at (alts ks) s i =
  (fun k => {| m_start := i; m_end := i + length k; m_caps := [None] |}) <$> first_key ks (drop i s).
Proof.
  unfold match_at, alts, first_key. cbn [p_re p_groups replicate].
  induction ks as [|t ks IH]; [simpl; by destruct (s !! i)|].
  assert (forall k : nat -> caps -> option rresult, matcher s (RAlts (t :: ks)) i [None] k =
    match matcher s (RLit t) i [None] k with Some z => Some z | None => matcher s (RAlts ks) i [None] k end) as ->.
  { intros k. destruct ks as [|t' ks]; [|done]. simpl. destruct (matcher s (RLit t) i [None] k); [done|].
    by destruct (s !! i). }
  rewrite matcher_lit. cbn [List.find]. destruct (is_prefix t (drop i s)); [done|]. exact IH.
Qed.

(** Replacing the keywords from left to right. *)
Fixpoint subst (ks : list jstr) (g : jstr -> jstr) (fuel : nat) (t : jstr) : jstr :=
  match fuel with
  | O => t
  | S fuel' =>
      match first_key ks t with
      | Some k => g k ++ subst ks g fuel' (drop (length k) t)
      | None => match t with [] => [] | c :: t' => c :: subst ks g fuel' t' end
      end
  end.

Section replace.
Variables (ks : list jstr) (g : jstr -> jstr) (s : jstr).
Hypothesis nonempty : Forall (fun k => k <> []) ks.

Lemma first_key_spec t k : first_key ks t = Some k -> k <> [] /\ exists r, t = k ++ r.
Proof.
  intros Hf. apply List.find_some in Hf as [Hin Hp]. rewrite Forall_forall in nonempty.
  split; [apply nonempty; by apply list_elem_of_In|]. by apply is_prefix_spec.
Qed.

Lemma first_key_nil : first_key ks [] = None.
Proof.
  destruct (first_key ks []) as [k|] eqn:E; [|done]. apply first_key_spec in E as [Hne [r Hr]]. by destruct k.
Qed.

Lemma subst_fuel fuel fuel' t : length t <= fuel -> length t <= fuel' ->
  subst ks g fuel t = subst ks g fuel' t.
Proof.
  revert fuel' t. induction fuel as [|fuel IH]; intros fuel' t H1 H2.
  - destruct t; [|simpl in H1; lia]. destruct fuel'; simpl; [done|]. by rewrite first_key_nil.
  - destruct fuel' as [|fuel']; [destruct t; [simpl; by rewrite first_key_nil|simpl in H2; lia]|].
    simpl. destruct (first_key ks t) as [k|] eqn:E.
    + apply first_key_spec in E as [Hne [r ->]]. f_equal. rewrite drop_app_length.
      rewrite length_app in *. destruct k; [done|]. simpl in *. apply IH; lia.
    + destruct t as [|c t]; [done|]. f_equal. simpl in *. apply IH; lia.
Qed.

(** Where the next keyword starts. *)
Lemma search_alts fuel pos :
  match search_from (alts ks) s fuel pos with
  | Some r => exists k, first_key ks (drop (m_start r) s) = Some k /\ m_end r = m_start r + length k /\
      pos <= m_start r /\ (forall q, pos <= q < m_start r -> first_key ks (drop q s) = None)
  | None => forall q, pos <= q <= pos + fuel -> first_key ks (drop q s) = None
  end.
Proof.
  revert pos. induction fuel as [|fuel IH]; intros pos; simpl; rewrite match_at_alts;
    destruct (first_key ks (drop pos s)) as [k|] eqn:E; simpl.
  - exists k. split_and!; try done. lia.
  - intros q Hq. by replace q with pos by lia.
  - exists k. split_and!; try done. lia.
  - specialize (IH (S pos)). destruct (search_from (alts ks) s fuel (S pos)) as [r|].
    + destruct IH as (k & Hk & He & Hle & Hno). exists k. split_and!; [done|done|lia|].
      intros q Hq. destruct (decide (q = pos)) as [->|]; [done|]. apply Hno. lia.
    + intros q Hq. destruct (decide (q = pos)) as [->|]; [done|]. apply IH. lia.
Qed.

Lemma subst_skip pos p fuel : pos <= p <= length s -> length s - pos <= fuel ->
  (forall q, pos <= q < p -> first_key ks (drop q s) = None) ->
  subst ks g fuel (drop pos s) = slice s pos p ++ subst ks g fuel (drop p s).
Proof.
  intros Hp Hf Hno. remember (p - pos) as n eqn:En. revert pos fuel Hp Hf Hno En.
  induction n as [|n IH]; intros pos fuel Hp Hf Hno En.
  - assert (p = pos) as -> by lia. unfold slice. by rewrite Nat.sub_diag.
  - destruct (lookup_lt_is_Some_2 s pos ltac:(lia)) as [x Hx].
    destruct fuel as [|fuel]; [lia|]. rewrite (subst_fuel (S fuel) fuel (drop p s)) by (rewrite length_drop; lia).
    cbn [subst]. rewrite (Hno pos) by lia.
    rewrite (drop_S s x pos Hx), (IH (S pos)); [|lia|lia|intros q Hq; apply Hno; lia|lia].
    assert (slice s pos p = x :: slice s (S pos) p) as ->.
    { unfold slice. rewrite (drop_S s x pos Hx). replace (p - pos) with (S (p - S pos)) by lia. done. }
    done.
Qed.

Lemma subst_none t fuel : (forall q, first_key ks (drop q t) = None) -> subst ks g fuel t = t.
Proof.
  revert fuel. induction t as [|c t IH]; intros fuel Hno; destruct fuel; simpl; try done.
  - by rewrite (Hno 0 : first_key ks [] = None).
  - rewrite (Hno 0 : first_key ks (c :: t) = None). f_equal. apply IH. intros q. apply (Hno (S q)).
Qed.

Lemma replace_all_alts :
  replace_all (alts ks) s (fun r => g (slice s (m_start r) (m_end r))) = subst ks g (length s) s.
Proof.
  assert (forall fuel pos, pos <= length s -> length s - pos < fuel ->
    replace_all_from (alts ks) s (fun r => g (slice s (m_start r) (m_end r))) fuel pos pos =
    subst ks g (length s) (drop pos s)) as Hmain; [|unfold replace_all; by rewrite Hmain, drop_0 by lia].
  induction fuel as [|fuel IH]; intros pos Hpos Hf; [lia|]. cbn [replace_all_from].
  rewrite (proj2 (Nat.ltb_ge _ _)) by lia. pose proof (search_alts (length s - pos) pos) as Hs.
  destruct (search_from (alts ks) s (length s - pos) pos) as [r|].
  - destruct Hs as (k & Hk & He & Hle & Hno). pose proof (first_key_spec _ _ Hk) as [Hne [rest Hr]].
    assert (m_end r <= length s) as Hend.
    { apply (f_equal length) in Hr. rewrite length_drop, length_app in Hr. destruct k; [done|]. simpl in *. lia. }
    rewrite (proj2 (Nat.eqb_neq _ _)) by (destruct k; [done|simpl in *; lia]).
    rewrite IH by (destruct k; [done|simpl in *; lia]).
    rewrite (subst_skip pos (m_start r)) by (done || lia). f_equal.
    assert (slice s (m_start r) (m_end r) = k) as ->.
    { unfold slice. rewrite Hr, He. replace (m_start r + length k - m_start r) with (length k) by lia.
      apply take_app_length. }
    rewrite (subst_fuel (length s) (Nat.pred (length s)) (drop (m_end r) s))
      by (rewrite length_drop; destruct k; simpl in *; (done || lia)).
    destruct (length s) as [|n] eqn:En; [destruct k; [done|simpl in *; lia]|].
    cbn [subst Nat.pred]. by rewrite Hk, drop_drop, <- He.
  - symmetry. apply subst_none. intros q. rewrite drop_drop. destruct (decide (pos + q <= length s)).
    + apply Hs. lia.
    + rewrite drop_ge by lia. apply first_key_nil.
Qed.
End replace.

(** * HTML escaping *)

Lemma createEscaper_subst m s : Forall (fun k => k <> []) m.*1 ->
  createEscaper m s = subst m.*1 (map_get m) (length s) s.
Proof.
  intros Hne. unfold createEscaper, escape_source. fold (alts m.*1).
  destruct (test (alts m.*1) s) eqn:Ht; [by apply replace_all_alts|]. symmetry. apply subst_none.
  pose proof (search_alts m.*1 s (length s) 0) as Hs. unfold test, exec in Ht.
  destruct (search_from (alts m.*1) s (length s) 0); [done|]. intros q.
  destruct (decide (q <= length s)); [apply Hs; lia|]. rewrite drop_ge by lia. by apply first_key_nil.
Qed.

(** No keyword starts with [c]. *)
Lemma first_key_heads ks hs c t : head <$> ks = Some <$> hs -> c ∉ hs -> first_key ks (c :: t) = None.
Proof.
  unfold first_key. revert hs. induction ks as [|k ks IH]; intros [|h hs]; simpl; try done.
  intros [= Hk E] Hc. destruct k as [|x k]; [done|]. simpl in Hk. injection Hk as ->. simpl.
  rewrite (proj2 (N.eqb_neq h c)) by set_solver. simpl. apply (IH hs); [done|set_solver].
Qed.

(** The replacement of one character. *)
Definition esc1 (m : str_map) (c : N) : jstr :=
  match first_key m.*1 [c] with Some k => map_get m k | None => [c] end.

(** A map whose keys are single characters is applied character by character. *)
Lemma subst_chars m s fuel : Forall (fun k => length k = 1) m.*1 -> length s <= fuel ->
  subst m.*1 (map_get m) fuel s = flat_map (esc1 m) s.
Proof.
  intros Hk. revert fuel. induction s as [|c s IH]; intros fuel Hf.
  - destruct fuel; [done|]. simpl. rewrite first_key_nil; [done|].
    eapply Forall_impl; [exact Hk|]. intros k Hlen ->. done.
  - destruct fuel as [|fuel]; [simpl in Hf; lia|]. cbn [subst flat_map]. unfold esc1 at 1.
    assert (first_key m.*1 (c :: s) = first_key m.*1 [c]) as ->.
    { clear -Hk. unfold first_key. induction Hk as [|k ks Hk1 _ IHk]; simpl; [done|].
      destruct k as [|x [|]]; try done. simpl. rewrite IHk. done. }
    simpl in Hf. destruct (first_key m.*1 [c]) as [k|] eqn:E.
    + apply List.find_some in E as [Hin _]. rewrite Forall_forall in Hk.
      rewrite (Hk k) by (by apply list_elem_of_In). simpl. rewrite drop_0, IH by lia. done.
    + rewrite IH by lia. done.
Qed.

Definition markup : list N := [60; 62; 34; 39; 96]%N.

Lemma escape_flat s : escape s = flat_map (esc1 escapeMap) s.
Proof.
  unfold escape. rewrite createEscaper_subst; [|by repeat constructor].
  apply subst_chars; [by repeat constructor|done].
Qed.

Lemma esc1_cases c :
  (c = 38%N \/ c ∈ markup) \/ (c <> 38%N /\ c ∉ markup /\ esc1 escapeMap c = [c]).
Proof.
  unfold markup. destruct (decide (c ∈ 38%N :: markup)) as [Hc|Hc]; [left; set_solver|].
  right. split; [set_solver|]. split; [set_solver|]. unfold esc1.
  by rewrite (first_key_heads _ (38%N :: [60; 62; 34; 39; 96]%N)) by (done || set_solver).
Qed.

Lemma unescape_step c rest fuel :
  subst unescapeMap.*1 (map_get unescapeMap) (S fuel) (esc1 escapeMap c ++ rest) =
  c :: subst unescapeMap.*1 (map_get unescapeMap) fuel rest.
Proof.
  destruct (esc1_cases c) as [Hc|(H38 & Hm & ->)].
  - assert (c ∈ [38; 60; 62; 34; 39; 96]%N) as Hin by (unfold markup in Hc; set_solver). clear Hc.
    repeat (apply elem_of_cons in Hin as [->|Hin]; [reflexivity|]). by apply not_elem_of_nil in Hin.
  - cbn [subst app]. by rewrite (first_key_heads _ [38; 38; 38; 38; 38; 38]%N) by (done || set_solver).
Qed.

(** [_.unescape] undoes [_.escape] on every string, and an escaped string
    contains none of the characters less-than, greater-than, quotation mark,
    apostrophe and grave accent. *)
Theorem escape_roundtrip s :
  unescape (escape s) = s /\ Forall (fun c => c ∉ markup) (escape s).
Proof.
  split.
  - rewrite escape_flat. unfold unescape. rewrite createEscaper_subst by by repeat constructor.
    assert (forall fuel, length (flat_map (esc1 escapeMap) s) <= fuel ->
      subst unescapeMap.*1 (map_get unescapeMap) fuel (flat_map (esc1 escapeMap) s) = s) as Hg; [|by apply Hg].
    induction s as [|c s IH]; intros fuel Hf.
    + destruct fuel; [done|]. simpl. done.
    + assert (0 < length (esc1 escapeMap c)) as Hpos.
      { destruct (esc1_cases c) as [Hc|(_ & _ & ->)]; [|simpl; lia].
        assert (c ∈ [38; 60; 62; 34; 39; 96]%N) as Hin by (unfold markup in Hc; set_solver). clear -Hin.
        repeat (apply elem_of_cons in Hin as [->|Hin]; [vm_compute; lia|]). by apply not_elem_of_nil in Hin. }
      cbn [flat_map] in *. rewrite length_app in Hf. destruct fuel as [|fuel]; [lia|].
      rewrite unescape_step. f_equal. apply IH. lia.
  - rewrite escape_flat. apply Forall_forall. intros x Hx Hbad.
    apply list_elem_of_In, in_flat_map in Hx as (c & _ & Hx). apply list_elem_of_In in Hx.
    destruct (esc1_cases c) as [Hc|(_ & Hm & E)]; [|rewrite E in Hx; set_solver].
    assert (c ∈ [38; 60; 62; 34; 39; 96]%N) as Hin by (unfold markup in Hc; set_solver). clear Hc.
    assert (Forall (fun c => Forall (fun x => x ∉ markup) (esc1 escapeMap c)) [38; 60; 62; 34; 39; 96]%N) as HF.
    { apply (bool_decide_unpack _). vm_compute. exact I. }
    rewrite Forall_forall in HF. specialize (HF c Hin). rewrite Forall_forall in HF. by apply (HF x).
Qed.

(** * Template literals *)

Definition hex_val (c : N) : option N :=
  if is_digit c then Some (c - 48)%N
  else if in_range 97 102 c then Some (c - 87)%N
  else if in_range 65 70 c then Some (c - 55)%N else None.

(** The characters a single-quoted string literal with this body denotes; a bare
    quote or line terminator ends the literal. *)
Fixpoint read_literal (t : jstr) : option jstr :=
  match t with
  | [] => Some []
  | c :: t' =>
      if N.eqb c 92 then
        match t' with
        | d :: r =>
            if N.eqb d 39 || N.eqb d 92 then cons d <$> read_literal r
            else if N.eqb d 114 then cons 13%N <$> read_literal r
            else if N.eqb d 110 then cons 10%N <$> read_literal r
            else if N.eqb d 117 then
              match r with
              | h1 :: h2 :: h3 :: h4 :: r' =>
                  match hex_val h1, hex_val h2, hex_val h3, hex_val h4 with
                  | Some a, Some b, Some e, Some f =>
                      cons (((a * 16 + b) * 16 + e) * 16 + f)%N <$> read_literal r'
                  | _, _, _, _ => None
                  end
              | _ => None
              end
            else None
        | [] => None
        end
      else if N.eqb c 39 || is_line_terminator c then None
      else cons c <$> read_literal t'
  end.

Definition lit_map : str_map :=
  (fun k => (k, escapeChar k)) <$> [js "\"; js "'"; [13%N]; [10%N]; [0x2028%N]; [0x2029%N]].

Lemma subst_ext ks g g' fuel t :
  (forall k, k ∈ ks -> g k = g' k) -> subst ks g fuel t = subst ks g' fuel t.
Proof.
  intros Hg. revert t. induction fuel as [|fuel IH]; intros t; simpl; [done|].
  destruct (first_key ks t) as [k|] eqn:E.
  - apply List.find_some in E as [Hin _]. rewrite Hg by by apply list_elem_of_In. by rewrite IH.
  - destruct t; [done|]. by rewrite IH.
Qed.

Lemma escape_literal_flat s : escape_literal s = flat_map (esc1 lit_map) s.
Proof.
  unfold escape_literal. change escapeRegExp with (alts lit_map.*1).
  rewrite (replace_all_alts lit_map.*1 escapeChar) by by repeat constructor.
  rewrite <- (subst_chars lit_map s (length s)); [|by repeat constructor|done].
  apply subst_ext. intros k Hk. simpl in Hk.
  repeat (apply elem_of_cons in Hk as [->|Hk]; [reflexivity|]). by apply not_elem_of_nil in Hk.
Qed.

Lemma read_literal_escape s : read_literal (escape_literal s) = Some s.
Proof.
  rewrite escape_literal_flat. induction s as [|c s IH]; [done|]. cbn [flat_map].
  destruct (decide (c ∈ [92; 39; 13; 10; 0x2028; 0x2029]%N)) as [Hc|Hc].
  - repeat (apply elem_of_cons in Hc as [->|Hc]; [
      match goal with |- context [esc1 lit_map ?x ++ _] =>
        let v := eval vm_compute in (esc1 lit_map x) in change (esc1 lit_map x) with v end;
      simpl; by rewrite IH|]).
    by apply not_elem_of_nil in Hc.
  - assert (forall x, x ∈ [92; 39; 13; 10; 0x2028; 0x2029]%N -> N.eqb x c = false /\ N.eqb c x = false) as Hne.
    { intros x Hx. rewrite !N.eqb_neq. split; intros ->; done. }
    assert (esc1 lit_map c = [c]) as ->.
    { unfold esc1. by rewrite (first_key_heads _ [92; 39; 13; 10; 0x2028; 0x2029]%N) by done. }
    cbn [app read_literal]. unfold is_line_terminator.
    rewrite !(fun x Hx => proj2 (Hne x Hx)) by (by_deciding).
    cbn [orb]. by rewrite IH.
Qed.


(** A text without an opening mark. *)
Definition no_marks (text : jstr) : Prop := forall i, is_prefix (js "<%") (drop i text) = false.

Lemma is_prefix_trans p q t : is_prefix p q = true -> is_prefix q t = true -> is_prefix p t = true.
Proof.
  rewrite !is_prefix_spec. intros [r ->] [r' ->]. exists (r ++ r'). by rewrite app_assoc.
Qed.

Lemma between_fails open close n text i c (k : nat -> caps -> option rresult) :
  no_marks text -> is_prefix (js "<%") open = true -> matcher text (between open close n) i c k = None.
Proof.
  intros Hno Ho. unfold between. cbn [matcher]. rewrite matcher_lit.
  destruct (is_prefix open (drop i text)) eqn:E; [|done].
  pose proof (is_prefix_trans _ _ _ Ho E) as E'. by rewrite Hno in E'.
Qed.

Lemma template_match_at text i : no_marks text ->
  match_at (template_matcher templateSettings) text i =
  if Nat.eqb i (length text) then Some {| m_start := i; m_end := i; m_caps := replicate 4 None |} else None.
Proof.
  intros Hno. unfold match_at, template_matcher. cbn [p_re p_groups matcher or_noMatch set_escape set_interpolate
    set_evaluate templateSettings]. by rewrite !between_fails.
Qed.

Lemma template_search text fuel pos : no_marks text -> pos <= length text -> length text - pos <= fuel ->
  search_from (template_matcher templateSettings) text fuel pos =
  Some {| m_start := length text; m_end := length text; m_caps := replicate 4 None |}.
Proof.
  intros Hno. revert pos. induction fuel as [|fuel IH]; intros pos Hp Hf; simpl;
    rewrite template_match_at by done; destruct (Nat.eqb_spec pos (length text)) as [->|Hne]; try done; [lia|].
  apply IH; lia.
Qed.

Lemma template_step_end text src :
  template_step text (src, 0) {| m_start := length text; m_end := length text; m_caps := replicate 4 None |} =
  (src ++ escape_literal text, length text).
Proof. unfold template_step. cbn [m_start m_end]. rewrite slice_full. reflexivity. Qed.

(** A template text without opening marks compiles to the single assignment of
    a string literal, and that literal denotes exactly the text: no quote,
    backslash or line terminator of the text can end the literal early. *)
Theorem template_literal_text text :
  no_marks text ->
  exists lit, template_body text templateSettings = js "__p+='" ++ lit ++ js "';" ++ nl /\
    read_literal lit = Some text.
Proof.
  intros Hno. exists (escape_literal text). split; [|apply read_literal_escape].
  unfold template_body. cbn [Nat.add all_matches].
  rewrite (template_search text (length text - 0) 0) by (done || lia). cbn [m_start m_end].
  rewrite Nat.eqb_refl. cbn [all_matches]. rewrite (proj2 (Nat.ltb_lt (length text) (S (length text)))) by lia.
  rewrite (proj2 (Nat.ltb_ge (length text) 0)) by lia. cbn [foldl]. rewrite template_step_end. cbn [fst]. by rewrite <- app_assoc.
Qed.

Definition demo_text : jstr := js "it's <b>\".

Lemma template_literal_text_witness :
  no_marks demo_text /\
  exists lit, template_body demo_text templateSettings = js "__p+='" ++ lit ++ js "';" ++ nl /\
    read_literal lit = Some demo_text.
Proof.
  assert (no_marks demo_text) as Hno.
  { intros i. do 10 (destruct i as [|i]; [reflexivity|]). reflexivity. }
  split; [exact Hno|]. exact (template_literal_text demo_text Hno).
Defined.

End UsTemplateProofs.
