(* ===== verification/UsFunctionProofs.v ===== *)
(** Counting wrappers, memoization and chaining of [underscore.js]. *)

From S2P Require Import Prelude Regex JsCore UsObjects UsCollections UsArrays UsFunctions JsLogic.
Import UsObjects UsCollections UsArrays UsFunctions.

Module UsFunctionProofs.

Section proofs.
Context `{Realm} `{Engine}.
Variable call : loc -> value -> list value -> M value.
Implicit Types (s : state).

(** The results of a sequence of calls of a function, one after the other. *)
Fixpoint calls (f : fn) (this : value) (argss : list (list value)) : M (list value) :=
  match argss with
  | [] => mret []
  | args :: rest => r ← f this args; rs ← calls f this rest; mret (r :: rs)
  end.

(** [f] is a function of the heap that answers [g] of its arguments and has no effect. *)
Definition pure_fun (f : loc) (g : list value -> value) (s : state) : Prop :=
  class_of (heap s) f = CFunction /\ forall this args s', call f this args s' = (Done (g args), s').

Lemma call_pure f g s this args :
  pure_fun f g s -> call_value call (VRef f) this args s = (Done (g args), s).
Proof.
  intros [Hc Hf]. unfold call_value. rewrite bind_heap. cbn [is_callable].
  rewrite bool_decide_true by done. apply Hf.
Qed.

Lemma get_str_own s l o x v :
  heap s !! l = Some o -> own_get o (KStr (js x)) = Some v -> get_str (VRef l) x s = (Done v, s).
Proof.
  intros Hl Hv. unfold get_str, get_prop. rewrite bind_heap. by rewrite (lookup_own _ _ _ _ _ Hl Hv).
Qed.

Definition put_state (s : state) (l : loc) (o : obj) : state :=
  {| heap := <[l := o]> (heap s); rnd := rnd s; ids := ids s |}.

Lemma put_prop_own s l o k v :
  heap s !! l = Some o -> put_prop (VRef l) k v s = (Done tt, put_state s l (own_put o k v)).
Proof. intros Hl. unfold put_prop. rewrite bind_heap, Hl. done. Qed.

(** ** before and once *)

(** The scope of a [before] wrapper. *)
Definition before_scope (times func memo : value) : obj :=
  {| o_class := CObject; o_proto := None; o_elems := [];
     o_props := [(KStr (js "times"), {| p_val := times; p_enum := true |});
                 (KStr (js "func"), {| p_val := func; p_enum := true |});
                 (KStr (js "memo"), {| p_val := memo; p_enum := true |})];
     o_data := VUndef |}.

(** One call of the wrapper, with its scope at [l]. *)
Definition before_call (l : loc) : fn := fun this args =>
  t ← decrement call (VRef l);
  (if num_ltb (Int 0) t then
     f ← get_var (VRef l) "func";
     r ← call_value call f this args;
     set_var (VRef l) "memo" r
   else mret tt);;
  t' ← get_var (VRef l) "times";
  (if (match t' with VNum n => num_leb n (Int 1) | _ => false end)
   then set_var (VRef l) "func" VNull else mret tt);;
  get_var (VRef l) "memo".

Lemma put_state_lookup s l o : heap (put_state s l o) !! l = Some o.
Proof. simpl. apply lookup_insert_eq. Qed.

Lemma put_state_pure f g s l o o' :
  heap s !! l = Some o' -> o_class o = o_class o' -> pure_fun f g s -> pure_fun f g (put_state s l o).
Proof.
  intros Hl Ho [Hc Hf]. split; [|done]. unfold class_of in *. simpl.
  destruct (decide (f = l)) as [->|]; [rewrite lookup_insert_eq; by rewrite Hl, <- Ho in Hc|by rewrite lookup_insert_ne].
Qed.

Lemma before_call_spec s l t fv m f g this args :
  heap s !! l = Some (before_scope (VNum (Int t)) fv m) -> pure_fun f g s ->
  ((1 < t)%Z -> fv = VRef f) ->
  exists fv' s',
    before_call l this args s = (Done (if Z.ltb 1 t then g args else m), s') /\
    heap s' !! l = Some (before_scope (VNum (Int (t - 1))) fv' (if Z.ltb 1 t then g args else m)) /\
    pure_fun f g s' /\ ((2 < t)%Z -> fv' = VRef f).
Proof.
  intros Hl Hp Hfv. unfold before_call, decrement, get_var, set_var.
  set (s1 := put_state s l (before_scope (VNum (Int (t - 1))) fv m)).
  assert (heap s1 !! l = Some (before_scope (VNum (Int (t - 1))) fv m)) as Hl1 by apply put_state_lookup.
  assert (pure_fun f g s1) as Hp1 by by eapply put_state_pure.
  erewrite bind_eq; [|erewrite bind_eq; [|by eapply get_str_own];
    erewrite bind_eq; [|done]; erewrite bind_eq; [done|by apply put_prop_own]].
  assert (num_sub (Int t) (Int 1) = Int (t - 1)) as -> by (unfold num_sub; simpl; f_equal; lia).
  change (put_state s l (own_put (before_scope (VNum (Int t)) fv m) (KStr (js "times")) (VNum (Int (t - 1)))))
    with s1.
  change (num_ltb (Int 0) (Int (t - 1))) with (Z.ltb 0 (t - 1)).
  assert (Z.ltb 0 (t - 1) = Z.ltb 1 t) as -> by (destruct (Z.ltb_spec 0 (t - 1)), (Z.ltb_spec 1 t); lia).
  set (m' := if Z.ltb 1 t then g args else m).
  set (s2 := if Z.ltb 1 t then put_state s1 l (before_scope (VNum (Int (t - 1))) fv m') else s1).
  assert (heap s2 !! l = Some (before_scope (VNum (Int (t - 1))) fv m')) as Hl2.
  { unfold s2, m'. destruct (Z.ltb 1 t); [apply put_state_lookup|done]. }
  assert (pure_fun f g s2) as Hp2.
  { unfold s2. destruct (Z.ltb 1 t); [by eapply put_state_pure|done]. }
  erewrite (bind_eq _ _ s1 tt s2).
  2: { unfold s2, m'. destruct (Z.ltb_spec 1 t) as [Ht|Ht]; [|done].
       rewrite (bind_eq _ _ _ _ _ (get_str_own s1 l _ "func" fv Hl1 eq_refl)), Hfv by done.
       rewrite (bind_eq _ _ _ _ _ (call_pure f g s1 this args Hp1)).
       rewrite (put_prop_own s1 l _ _ _ Hl1). rewrite Hfv by done. reflexivity. }
  rewrite (bind_eq _ _ _ _ _ (get_str_own s2 l _ "times" (VNum (Int (t - 1))) Hl2 eq_refl)).
  rewrite num_leb_Int. destruct (Z.leb_spec (t - 1) 1) as [Ht|Ht].
  - exists VNull. eexists.
    erewrite bind_eq; [|apply (put_prop_own s2 l _ _ _ Hl2)]. split; [|split; [|split; [|lia]]].
    + eapply get_str_own; [apply put_state_lookup|reflexivity].
    + apply put_state_lookup.
    + by eapply put_state_pure.
  - exists fv, s2. erewrite bind_eq; [|done]. split; [|split; [done|split; [done|]]].
    + by eapply get_str_own.
    + intros _. apply Hfv. lia.
Qed.

Lemma wp_calls_before argss s l t fv m f g this :
  heap s !! l = Some (before_scope (VNum (Int t)) fv m) -> pure_fun f g s -> ((1 < t)%Z -> fv = VRef f) ->
  exists rs s', calls (before_call l) this argss s = (Done rs, s') /\
    length rs = length argss /\
    forall i r, rs !! i = Some r ->
      r = (if Z.ltb 1 t then g (default [] (argss !! Nat.min i (Z.to_nat (t - 2)))) else m).
Proof.
  revert s t fv m. induction argss as [|args argss IH]; intros s t fv m Hl Hp Hfv; simpl.
  - exists [], s. split; [done|]. split; [done|]. intros i r Hr. done.
  - destruct (before_call_spec s l t fv m f g this args Hl Hp Hfv) as (fv' & s1 & E & Hl1 & Hp1 & Hfv').
    destruct (IH s1 (t - 1)%Z fv' _ Hl1 Hp1 ltac:(intros; apply Hfv'; lia)) as (rs & s2 & E2 & Hlen & Hrs).
    eexists _, s2. rewrite (bind_eq _ _ _ _ _ E), (bind_eq _ _ _ _ _ E2). split; [done|].
    split; [simpl; by rewrite Hlen|]. intros [|i] r Hr; simpl in Hr.
    + injection Hr as <-. destruct (Z.ltb 1 t); [done|done].
    + rewrite (Hrs i r Hr). destruct (Z.ltb_spec 1 t) as [H1|H1].
      * destruct (Z.ltb_spec 1 (t - 1)) as [H2|H2].
        -- replace (Z.to_nat (t - 2)) with (S (Z.to_nat (t - 1 - 2))) by lia. done.
        -- replace (Z.to_nat (t - 2)) with 0 by lia. by rewrite Nat.min_0_r.
      * by rewrite (proj2 (Z.ltb_ge 1 (t - 1))) by lia.
Qed.

(** The function [_.before] returns executes the wrapped function on the calls
    before the n-th only: the i-th call answers the result for its own arguments
    while i < n, and every later call answers the last of these results again; for
    [_.once] (n = 2) all calls answer the result of the first. *)
Theorem before_correct s n f g this argss :
  pure_fun f g s -> (2 <= n)%nat ->
  exists fw s1 rs s2, before call (VNat n) (VRef f) s = (Done fw, s1) /\
    calls fw this argss s1 = (Done rs, s2) /\ length rs = length argss /\
    forall i r, rs !! i = Some r -> r = g (default [] (argss !! Nat.min i (n - 2))).
Proof.
  intros Hp Hn.
  assert (wp (before call (VNat n) (VRef f)) s (fun fw s1 => exists l, fw = before_call l /\
    heap s1 !! l = Some (before_scope (VNat n) (VRef f) VUndef) /\ pure_fun f g s1)) as Hwp.
  { unfold before. apply wp_bind. unfold new_scope. apply wp_alloc. intros l s1 Hl Hh _ _.
    apply wp_ret. exists l. split; [done|]. split; [by rewrite Hh, lookup_insert_eq|].
    destruct Hp as [Hc Hf]. split; [|done]. unfold class_of in *. rewrite Hh.
    destruct (decide (f = l)) as [->|]; [by rewrite Hl in Hc|by rewrite lookup_insert_ne]. }
  destruct (wp_elim _ _ _ Hwp) as (fw & s1 & E & l & -> & Hl & Hp1).
  destruct (wp_calls_before argss s1 l (Z.of_nat n) (VRef f) VUndef f g this Hl Hp1 ltac:(done))
    as (rs & s2 & E2 & Hlen & Hrs).
  exists (before_call l), s1, rs, s2. split_and!; try done. intros i r Hr. rewrite (Hrs i r Hr).
  rewrite (proj2 (Z.ltb_lt 1 (Z.of_nat n))) by lia. do 4 f_equal. lia.
Qed.

(** ** memoize *)

Lemma assoc_get_put ps k v k' :
  p_val <$> assoc_get (assoc_put ps k v) k' = if decide (k' = k) then Some v else p_val <$> assoc_get ps k'.
Proof.
  induction ps as [|[k1 p] ps IH]; simpl.
  - by destruct (decide (k' = k)) as [E|E]; [rewrite bool_decide_true|rewrite bool_decide_false].
  - case_bool_decide as E1; simpl.
    + subst k1. case_decide as E2; [by rewrite bool_decide_true|by rewrite !bool_decide_false].
    + case_bool_decide as E2; [|exact IH]. subst k1. by rewrite decide_False by congruence.
Qed.

(** An object without special properties. *)
Definition cache_obj (ps : list (key * prop)) : obj :=
  {| o_class := CObject; o_proto := Some ObjProto; o_elems := []; o_props := ps; o_data := VUndef |}.

(** The function object of a memoized function, and its cache. *)
Definition memo_heap (s : state) (ls lc : loc) (ps : list (key * prop)) : Prop :=
  ls <> lc /\ heap s !! lc = Some (cache_obj ps) /\
  exists o, heap s !! ls = Some o /\ own_get o (KStr (js "cache")) = Some (VRef lc).

(** One call of the memoized function without a hasher. *)
Definition memo_call (func : value) (ls : loc) : fn := fun this args =>
  cache ← get_str (VRef ls) "cache";
  a ← (if truthy VUndef then call_value call VUndef this args else mret (arg args 0));
  s ← concat_str call a;
  let address := key_of_str s in
  hit ← has1 cache address;
  (if hit : bool then mret tt
   else r ← call_value call func this args; put_prop cache address r);;
  get_prop cache address.

Lemma memo_call_spec s ls lc ps f g this args str :
  memo_heap s ls lc ps -> pure_fun f g s ->
  (forall s', concat_str call (arg args 0) s' = (Done str, s')) ->
  let k := key_of_str str in
  let v := default (g args) (p_val <$> assoc_get ps k) in
  exists ps' s', memo_call (VRef f) ls this args s = (Done v, s') /\ memo_heap s' ls lc ps' /\
    pure_fun f g s' /\
    forall k', p_val <$> assoc_get ps' k' = if decide (k' = k) then Some v else p_val <$> assoc_get ps k'.
Proof.
  intros (Hne & Hlc & o & Hls & Ho) Hp Hstr k v. unfold memo_call.
  rewrite (bind_eq _ _ _ _ _ (get_str_own s ls o "cache" _ Hls Ho)). cbn [truthy].
  erewrite bind_eq; [|done]. rewrite (bind_eq _ _ _ _ _ (Hstr s)). fold k.
  assert (forall s ps, heap s !! lc = Some (cache_obj ps) ->
    has1 (VRef lc) k s = (Done (bool_decide (is_Some (p_val <$> assoc_get ps k))), s)) as Hhas.
  { intros s' ps' Hs'. unfold has1, has_own. cbn [is_nullish]. rewrite bind_heap, Hs'. done. }
  rewrite (bind_eq _ _ _ _ _ (Hhas s ps Hlc)). unfold v. clear Hhas.
  destruct (p_val <$> assoc_get ps k) as [w|] eqn:Hk.
  - rewrite bool_decide_true by by eexists. erewrite bind_eq; [|done]. exists ps, s. split; [|split; [|split; [done|]]].
    + unfold get_prop. rewrite bind_heap. by rewrite (lookup_own _ _ _ k w Hlc Hk).
    + split; [done|]. split; [done|]. by exists o.
    + intros k'. case_decide as E; [by subst|done].
  - rewrite bool_decide_false by by intros []. cbn iota.
    erewrite bind_eq; [|rewrite (bind_eq _ _ _ _ _ (call_pure f g s this args Hp)); by apply put_prop_own].
    change (own_put (cache_obj ps) k (g args)) with (cache_obj (assoc_put ps k (g args))).
    exists (assoc_put ps k (g args)), (put_state s lc (cache_obj (assoc_put ps k (g args)))).
    split; [|split; [|split; [by eapply put_state_pure|apply assoc_get_put]]].
    + unfold get_prop. rewrite bind_heap. erewrite lookup_own; [done|apply put_state_lookup|].
      simpl. unfold own_get. simpl. rewrite assoc_get_put. by rewrite decide_True.
    + split; [done|]. split; [apply put_state_lookup|]. exists o. simpl. by rewrite lookup_insert_ne.
Qed.

(** The first of the calls with the address [k]. *)
Definition first_call (K : list value -> key) (k : key) (argss : list (list value)) : option (list value) :=
  List.find (fun a => bool_decide (K a = k)) argss.

Lemma find_app {A} (p : A -> bool) l1 l2 :
  List.find p (l1 ++ l2) = match List.find p l1 with Some x => Some x | None => List.find p l2 end.
Proof. induction l1 as [|x l1 IH]; simpl; [done|]. by destruct (p x). Qed.

Lemma calls_memo s ls lc ps f g this K prev argss :
  memo_heap s ls lc ps -> pure_fun f g s ->
  (forall args, args ∈ argss -> exists str, K args = key_of_str str /\
     forall s', concat_str call (arg args 0) s' = (Done str, s')) ->
  (forall k, p_val <$> assoc_get ps k = g <$> first_call K k prev) ->
  exists s', calls (memo_call (VRef f) ls) this argss s =
    (Done ((fun a => g (default a (first_call K (K a) (prev ++ argss)))) <$> argss), s').
Proof.
  revert s ps prev. induction argss as [|args argss IH]; intros s ps prev Hm Hp HK Hinv; simpl; [by exists s|].
  destruct (HK args ltac:(set_solver)) as (str & EK & Hstr).
  destruct (memo_call_spec s ls lc ps f g this args str Hm Hp Hstr) as (ps' & s' & E & Hm' & Hp' & Hps').
  rewrite <- EK in E, Hps'. rewrite Hinv in E, Hps'.
  destruct (IH s' ps' (prev ++ [args]) Hm' Hp' ltac:(set_solver)) as [s2 E2].
  { intros k. rewrite Hps'. unfold first_call. rewrite find_app. simpl. case_decide as Hk.
    - subst k. rewrite bool_decide_true by done. unfold first_call.
      by destruct (List.find _ prev).
    - rewrite Hinv, bool_decide_false by congruence. unfold first_call. by destruct (List.find _ prev). }
  exists s2. rewrite (bind_eq _ _ _ _ _ E), (bind_eq _ _ _ _ _ E2). unfold mret, M_ret. do 3 f_equal.
  - unfold first_call. rewrite find_app. simpl. rewrite bool_decide_true by done.
    by destruct (List.find _ prev).
  - rewrite <- app_assoc. done.
Qed.

(** A function [_.memoize] returns computes each address once: a call answers
    what the wrapped function answered to the first call whose first argument
    converts to the same string. *)
Theorem memoize_correct s f g this K argss :
  pure_fun f g s ->
  (forall args, args ∈ argss -> exists str, K args = key_of_str str /\
     forall s', concat_str call (arg args 0) s' = (Done str, s')) ->
  exists self fw s1 s2, memoize call (VRef f) VUndef s = (Done (self, fw), s1) /\
    calls fw this argss s1 =
      (Done ((fun a => g (default a (first_call K (K a) argss))) <$> argss), s2).
Proof.
  intros Hp HK.
  assert (wp (memoize call (VRef f) VUndef) s (fun r s1 => exists ls lc, r.2 = memo_call (VRef f) ls /\
    memo_heap s1 ls lc [] /\ pure_fun f g s1)) as Hwp.
  { unfold memoize, new_object. apply wp_bind, wp_alloc. intros lc s1 Hlc Hh1 _ _.
    unfold new_function, new_object. apply wp_bind, wp_bind, wp_alloc. intros lp s2 Hlp Hh2 _ _.
    apply wp_alloc. intros ls s3 Hls Hh3 _ _. apply wp_ret. exists ls, lc. split; [done|].
    assert (lp <> lc) by (intros ->; rewrite Hh1, lookup_insert_eq in Hlp; done).
    assert (heap s2 !! lc = Some (cache_obj [])) as H2.
    { rewrite Hh2, lookup_insert_ne by done. rewrite Hh1. apply lookup_insert_eq. }
    assert (ls <> lc) by (intros ->; by rewrite H2 in Hls).
    split; [split; [done|]; split|].
    - rewrite Hh3, lookup_insert_ne by done. done.
    - eexists. split; [rewrite Hh3; apply lookup_insert_eq|reflexivity].
    - destruct Hp as [Hc Hf]. split; [|done]. unfold class_of in *.
      destruct (heap s !! f) as [o|] eqn:Eo; [|done].
      assert (heap s3 !! f = Some o) as ->; [|done].
      assert (heap s1 !! f = Some o) as E1 by (rewrite Hh1, lookup_insert_ne; [done|congruence]).
      assert (heap s2 !! f = Some o) as E2 by (rewrite Hh2, lookup_insert_ne; [done|congruence]).
      rewrite Hh3, lookup_insert_ne; [done|congruence]. }
  destruct (wp_elim _ _ _ Hwp) as ([self fw] & s1 & E & ls & lc & Hfw & Hm & Hp1). simpl in Hfw. subst fw.
  destruct (calls_memo s1 ls lc [] f g this K [] argss Hm Hp1 HK ltac:(done)) as [s2 E2].
  by exists self, (memo_call (VRef f) ls), s1, s2.
Qed.

(** ** Chaining *)

(** The function [_] and its prototype [up] are in place. *)
Definition us_ok (s : state) (up : loc) : Prop :=
  exists o, heap s !! us = Some o /\ o_class o = CFunction /\ own_get o (KStr (js "prototype")) = Some (VRef up).

(** [w] wraps the value [v]; [chained] says whether its [_chain] is set. *)
Definition wrapper (s : state) (up w : loc) (v : value) (chained : bool) : Prop :=
  exists o, heap s !! w = Some o /\ o_proto o = Some up /\ own_get o (KStr (js "_wrapped")) = Some v /\
    (chained = true -> own_get o (KStr (js "_chain")) = Some (VBool true)).

Lemma get_us_proto s up : us_ok s up -> get_str (VRef us) "prototype" s = (Done (VRef up), s).
Proof. intros (o & Ho & _ & Hp). by eapply get_str_own. Qed.

Lemma instanceof_us s up v b : us_ok s up ->
  (b = false /\ is_object v = false) \/ (b = true /\ exists w x c, v = VRef w /\ wrapper s up w x c) ->
  instanceof v (VRef us) s = (Done b, s).
Proof.
  intros Hus Hv. pose proof (get_us_proto s up Hus) as Hget. destruct Hus as (o & Ho & Hc & Hp).
  unfold instanceof. rewrite bind_heap. cbn [is_callable]. unfold class_of. rewrite Ho, Hc, bool_decide_true by done.
  destruct Hv as [[-> Hv]|[-> (w & x & c & -> & ow & How & Hproto & _)]]; [by destruct v|].
  rewrite (bind_eq _ _ _ _ _ Hget). cbn [in_chain]. rewrite How, Hproto, bool_decide_true by done. done.
Qed.

(** [chain] of a primitive makes a new chained wrapper. *)
Lemma wp_chain s up v : us_ok s up -> is_object v = false ->
  wp (chain v) s (fun r s' => ext s s' /\ us_ok s' up /\ exists w, r = VRef w /\ wrapper s' up w v true).
Proof.
  intros Hus Hv. unfold chain, wrap_us. apply wp_bind, wp_bind.
  eapply wp_eq; [apply (instanceof_us s up v false); [done|by left]|]. cbn iota.
  apply wp_bind. eapply wp_eq; [by apply get_us_proto|]. apply wp_bind, wp_heap, wp_alloc.
  intros w s1 Hw Hh _ _. apply wp_bind. eapply wp_eq.
  { apply put_prop_own. rewrite Hh. apply lookup_insert_eq. }
  apply wp_ret. assert (ext s (put_state s1 w (own_put {| o_class := CObject; o_proto := Some up; o_elems := [];
      o_props := [(KStr (js "_wrapped"), {| p_val := v; p_enum := true |})]; o_data := VUndef |}
      (KStr (js "_chain")) (VBool true)))) as He.
  { apply (ext_write s s1 _ w); [unfold ext; rewrite Hh; by apply insert_subseteq|done|].
    intros l Hl. simpl. by rewrite lookup_insert_ne. }
  split; [exact He|]. split.
  - destruct Hus as (o & Ho & Hc & Hp). exists o. split; [by apply (lookup_weaken _ _ _ _ Ho He)|done].
  - exists w. split; [done|]. eexists. split; [apply put_state_lookup|]. done.
Qed.

Lemma chain_method_diverges fuel s up w v :
  us_ok s up -> is_object v = false -> wrapper s up w v true ->
  (chain_method fuel (VRef w) s).1 = NoFuel.
Proof.
  revert s w. induction fuel as [|fuel IH]; intros s w Hus Hv Hw; [done|]. cbn [chain_method].
  destruct Hw as (o & Ho & Hproto & Hwr & Hch). specialize (Hch eq_refl).
  rewrite (bind_eq _ _ _ _ _ (get_str_own s w o "_wrapped" v Ho Hwr)).
  destruct (wp_elim _ _ _ (wp_chain s up v Hus Hv)) as (r & s1 & E & He & Hus1 & w1 & -> & Hw1).
  pose proof (get_str_own s1 w o "_chain" _ (lookup_weaken _ _ _ _ Ho He) Hch) as Ec.
  rewrite (bind_eq _ _ _ _ _ E), (bind_eq _ _ _ _ _ Ec). cbn [truthy].
  assert (wrap_us (VRef w1) s1 = (Done (VRef w1), s1)) as Ewrap.
  { unfold wrap_us. erewrite bind_eq; [|apply (instanceof_us s1 up _ true); [done|right]; split; [done|];
      by exists w1, v, true]. done. }
  rewrite (bind_eq _ _ _ _ _ Ewrap). by apply IH.
Qed.

(** Calling the method [chain] on an object that is already chained never
    returns: [_.chain(v).chain()] calls itself without end, whatever the fuel. *)
Theorem chain_of_chained_diverges s up v fuel :
  us_ok s up -> is_object v = false ->
  exists w s1, chain v s = (Done w, s1) /\ (chain_method fuel w s1).1 = NoFuel.
Proof.
  intros Hus Hv. destruct (wp_elim _ _ _ (wp_chain s up v Hus Hv)) as (r & s1 & E & _ & Hus1 & w & -> & Hw).
  exists (VRef w), s1. split; [done|]. by eapply chain_method_diverges.
Qed.

End proofs.
End UsFunctionProofs.
