(* ===== verification/UsWitnesses.v ===== *)
(** The theorems about [underscore.js] applied to a small program: an engine, a
    heap with the function [_], two caller functions and two arrays. *)

From Stdlib Require Import QArith_base Qround.
From S2P Require Import Prelude Regex JsCore UsObjects UsCollections UsArrays UsFunctions UsTiming JsLogic.
From S2P Require Import UsArrayProofs UsSlices UsSorting UsEquality UsTimingProofs UsFunctionProofs.
Import UsObjects UsCollections UsArrays UsFunctions UsTiming
  UsArrayProofs UsSlices UsSorting UsEquality UsTimingProofs UsFunctionProofs.

Module UsWitnesses.

#[local] Instance demo_realm : Realm :=
  {| ObjProto := 1; ArrayProto := 2; FunctionProto := 3; StringProto := 4; NumberProto := 5;
     BooleanProto := 6; SymbolProto := 7; Math_random := fun n => (if Nat.even n then 0 else 1 # 2)%Q |}%positive.

#[local] Instance demo_engine : Engine :=
  {| nativeIsArray := true; nativeKeys := true; nativeCreate := true; nativeIsView := true;
     supportsArrayBuffer := true; hasEnumBug := false; hasStringTagBug := false; isIE11 := false;
     argumentsTag := true; typeofFunctions := true; us := 8%positive;
     customIteratee := None; customToPath := None |}.

Definition plain_obj (c : class) (proto : option loc) (es : list value) (ps : list (key * prop)) : obj :=
  {| o_class := c; o_proto := proto; o_elems := Some <$> es; o_props := ps; o_data := VUndef |}.

Definition int (z : Z) : value := VNum (Int z).

Definition sorted_values : list value := [int 1; int 3; int 3; int 7].
Definition mixed_values : list value := [int 4; int 1; int 4; int 2; int 1].

Definition demo_heap : gmap loc obj := list_to_map
  [(1%positive, plain_obj CObject None [] []);
   (2%positive, plain_obj CObject (Some 1%positive) [] []);
   (3%positive, plain_obj CObject (Some 1%positive) [] []);
   (8%positive, plain_obj CFunction (Some 3%positive) []
      [(KStr (js "prototype"), {| p_val := VRef 9; p_enum := false |})]);
   (9%positive, plain_obj CObject (Some 1%positive) [] []);
   (10%positive, plain_obj CFunction (Some 3%positive) [] []);
   (20%positive, plain_obj CArray (Some 2%positive) sorted_values []);
   (21%positive, plain_obj CArray (Some 2%positive) mixed_values [])].

Definition demo_state : state := {| heap := demo_heap; rnd := 0; ids := 0 |}.

(** The caller's function answers its first argument. *)
Definition demo_call : loc -> value -> list value -> M value := fun _ _ args => mret (arg args 0).

Definition int_of (v : value) : Z := match v with VNum (Int z) => z | _ => 0%Z end.

Lemma sorted_arr : is_arr (heap demo_state) (VRef 20) sorted_values.
Proof. exists 20%positive. eexists. by repeat split. Defined.

Lemma mixed_arr : is_arr (heap demo_state) (VRef 21) mixed_values.
Proof. exists 21%positive. eexists. by repeat split. Defined.

Lemma mixed_short : short mixed_values.
Proof. apply (bool_decide_unpack _). vm_compute. exact I. Defined.

Ltac each_elem H := repeat (apply elem_of_cons in H as [->|H]); [..|by apply not_elem_of_nil in H].

Lemma mixed_numbers : no_wrappers (heap demo_state) mixed_values.
Proof. intros x Hx _. each_elem Hx; by eexists. Defined.

Lemma mixed_known : known (heap demo_state) mixed_values.
Proof.
  intros l Hl. exfalso. apply list_elem_of_lookup in Hl as [i Hi].
  do 5 (destruct i as [|i]; [discriminate Hi|]). discriminate Hi.
Defined.

Lemma sorted_sorted : sorted_by int_of sorted_values.
Proof.
  intros i j x y Hij Hi Hj.
  do 4 (destruct j as [|j]; [do 4 (destruct i as [|i]; [injection Hi as <-; injection Hj as <-; first [exfalso; lia|vm_compute; congruence]|]); lia|]).
  discriminate Hj.
Defined.

Lemma sortedIndex_correct_witness :
  exists k, sortedIndex demo_call (VRef 20) (int 4) VUndef VUndef demo_state = (Done k, demo_state) /\ k <= 4.
Proof.
  destruct (sortedIndex_correct demo_call demo_state (VRef 20) sorted_values (int 4) VUndef VUndef identity int_of)
    as (k & E & Hk & _).
  - exact sorted_arr.
  - exact sorted_sorted.
  - reflexivity.
  - intros x Hx. each_elem Hx; reflexivity.
  - exists k. split; [exact E|exact Hk].
Defined.

Lemma index_finders_correct_witness :
  exists r s', createIndexFinder demo_call false false (VRef 21) (int 1) VUndef demo_state = (Done r, s').
Proof.
  destruct (index_finders_correct demo_call false false demo_state (VRef 21) mixed_values (int 1)
    mixed_arr mixed_numbers mixed_known) as (r & s' & E & _). by exists r, s'.
Defined.

Lemma uniq_correct_witness :
  exists r s', uniq demo_call (VRef 21) (VBool false) VUndef VUndef demo_state = (Done r, s') /\
    is_arr (heap s') r [int 4; int 1; int 2].
Proof.
  destruct (uniq_correct demo_call demo_state (VRef 21) mixed_values false
    mixed_arr mixed_short mixed_numbers mixed_known) as (r & s' & E & _ & Hr & _); [done|]. by exists r, s'.
Defined.

Lemma chunk_correct_witness :
  exists r s' rs css, chunk demo_call (VRef 21) (Some (Int 2)) demo_state = (Done r, s') /\
    Forall2 (is_arr (heap s')) rs css /\ concat css = mixed_values.
Proof.
  destruct (chunk_correct demo_call demo_state (VRef 21) mixed_values 2 mixed_arr)
    as (r & s' & rs & css & E & _ & _ & Hf & Hc & _); [lia|]. by exists r, s', rs, css.
Defined.

Lemma range_correct_witness :
  exists r s' ns, range (Int 10) (Some (Int 0)) (Some (Int (-3))) demo_state = (Done r, s') /\
    is_arr (heap s') r ((fun z => VNum (Int z)) <$> ns).
Proof.
  destruct (range_correct demo_state 10 0 (-3)) as (r & s' & ns & E & _ & Hr & _); [lia|].
  by exists r, s', ns.
Defined.

Lemma demo_random : random_law.
Proof. intros n. simpl. destruct (Nat.even n); split; vm_compute; congruence. Defined.

Lemma sample_correct_witness :
  exists r s' ws, sample demo_call (VRef 21) (VNat 3) VUndef demo_state = (Done r, s') /\
    is_arr (heap s') r (take 3 ws) /\ ws ≡ₚ mixed_values.
Proof.
  destruct (sample_correct demo_call demo_state (VRef 21) mixed_values 3 demo_random mixed_arr)
    as (r & s' & ws & E & _ & Hr & Hp). by exists r, s', ws.
Defined.

Lemma mixed_identity i x :
  mixed_values !! i = Some x -> identity [x; VNat i; VRef 21] demo_state = (Done (VNum (Int (int_of x))), demo_state).
Proof. intros Hx. apply list_elem_of_lookup_2 in Hx. each_elem Hx; reflexivity. Defined.

Definition criterion (v : value) : value := VNum (Int (int_of v)).

Lemma sortBy_correct_witness :
  exists r s' ws (ps : list nat), sortBy demo_call (VRef 21) VUndef VUndef demo_state = (Done r, s') /\ is_arr (heap s') r ws /\
    forall i j p q x y, i < j -> ps !! i = Some p -> ps !! j = Some q -> ws !! i = Some x -> ws !! j = Some y ->
      crit_le (criterion x) (criterion y) = true /\ (crit_le (criterion y) (criterion x) = true -> p < q).
Proof.
  destruct (sortBy_correct demo_call demo_state (VRef 21) mixed_values VUndef VUndef identity criterion
    mixed_arr mixed_short) as (r & s' & ws & ps & E & _ & Hr & _ & _ & Ho); [reflexivity|exact mixed_identity|done|].
  exists r, s', ws, ps. split; [exact E|]. split; [exact Hr|]. apply (Ho false). by intros x _.
Defined.

Definition demo_key (v : value) : key := KIdx (Z.to_nat (int_of v)).

Lemma groupBy_correct_witness :
  exists l s', groupBy demo_call (VRef 21) VUndef VUndef demo_state = (Done (VRef l), s').
Proof.
  destruct (groupBy_correct demo_call demo_state (VRef 21) mixed_values VUndef VUndef identity
    (fun x => VNum (Int (int_of x))) demo_key mixed_arr mixed_short) as (l & s' & o & E & _);
    [reflexivity|exact mixed_identity| |by exists l, s'].
  intros x Hx. each_elem Hx; reflexivity.
Defined.

Lemma isEqual_ends_witness :
  (exists r, isEqual demo_call 30 (VRef 20) (VRef 21) demo_state = (Done r, demo_state)) \/
  (exists e, isEqual demo_call 30 (VRef 20) (VRef 21) demo_state = (Exc e, demo_state)).
Proof.
  apply isEqual_ends.
  - by repeat split.
  - intros l o Hl. apply elem_of_list_to_map_2 in Hl.
    repeat (apply elem_of_cons in Hl as [[= -> ->]|Hl]; [reflexivity|]). by apply not_elem_of_nil in Hl.
  - vm_compute. lia.
Defined.

Lemma demo_pure : pure_fun demo_call 10 (fun args => arg args 0) demo_state.
Proof. by split. Defined.

Lemma before_correct_witness :
  exists fw s1 rs s2, before demo_call (VNat 2) (VRef 10) demo_state = (Done fw, s1) /\
    calls fw VUndef [[int 1]; [int 2]; [int 3]] s1 = (Done rs, s2) /\ length rs = 3.
Proof.
  destruct (before_correct demo_call demo_state 2 10 _ VUndef [[int 1]; [int 2]; [int 3]] demo_pure)
    as (fw & s1 & rs & s2 & E & E2 & Hlen & _); [lia|]. by exists fw, s1, rs, s2.
Defined.

Definition demo_address (args : list value) : key :=
  match arg args 0 with VStr s => key_of_str s | _ => KIdx 0 end.

Lemma memoize_correct_witness :
  exists self fw s1 s2, memoize demo_call (VRef 10) VUndef demo_state = (Done (self, fw), s1) /\
    calls fw VUndef [[VStr (js "a")]; [VStr (js "b")]; [VStr (js "a")]] s1 =
      (Done [VStr (js "a"); VStr (js "b"); VStr (js "a")], s2).
Proof.
  destruct (memoize_correct demo_call demo_state 10 _ VUndef demo_address
    [[VStr (js "a")]; [VStr (js "b")]; [VStr (js "a")]] demo_pure) as (self & fw & s1 & s2 & E & E2).
  - intros args Ha. each_elem Ha; by eexists.
  - exists self, fw, s1, s2. split; [exact E|]. rewrite E2. reflexivity.
Defined.

Lemma chain_of_chained_diverges_witness :
  exists w s1, chain (int 5) demo_state = (Done w, s1) /\ (chain_method 100 w s1).1 = NoFuel.
Proof.
  apply (chain_of_chained_diverges demo_state 9 (int 5) 100); [|reflexivity].
  eexists. by repeat split.
Defined.

(** ** Timers *)

Definition demo_th_func : option nat -> throttle_state nat nat -> nat * throttle_state nat nat :=
  fun a s => (default 0 a, s).

Definition demo_th_start : throttle_state nat nat := throttle_start 1000.
Definition demo_opts : options := {| opt_leading := true; opt_trailing := true |}.

Lemma throttle_correct_witness :
  exists s, th_run demo_th_func 100 demo_opts demo_th_start
    ([ThCall 1000 1; ThCall 1010 2] ++ [ThFire 1100 1]) s /\ spaced 100 (th_log s).
Proof.
  eexists.
  assert (th_run demo_th_func 100 demo_opts demo_th_start ([] ++ [ThCall 1000 1])
    (throttled demo_th_func 100 demo_opts 1 (th_set_clock 1000 demo_th_start))) as H1.
  { eapply th_run_snoc; [apply th_run_nil|]. apply th_step_call. vm_compute. congruence. }
  pose proof (th_run_snoc demo_th_func 100 demo_opts _ _ _ (ThCall 1010 2) _ H1
    ltac:(apply th_step_call; vm_compute; congruence)) as H2.
  pose proof (th_run_snoc demo_th_func 100 demo_opts _ _ _ (ThFire 1100 1) _ H2
    ltac:(eapply th_step_fire; [vm_compute; congruence|vm_compute; reflexivity])) as H3.
  split; [exact H3|].
  eapply (throttle_correct demo_th_func 100 demo_opts 1000); [|lia|exact H3|].
  - intros a s. reflexivity.
  - by repeat constructor.
Defined.

Definition demo_db_func : option nat -> debounce_state nat nat -> nat * debounce_state nat nat :=
  fun a s => (default 0 a, s).

Definition demo_db_start : debounce_state nat nat := debounce_start 1000.

Lemma debounce_correct_witness :
  exists s, db_run demo_db_func 100 false demo_db_start
    ([DbCall 1000 1; DbCall 1050 2] ++ [DbFire 1100 1]) s /\ spaced 100 (db_log s).
Proof.
  eexists.
  assert (db_run demo_db_func 100 false demo_db_start ([] ++ [DbCall 1000 1])
    (debounced demo_db_func 100 false 1 (db_set_clock 1000 demo_db_start))) as H1.
  { eapply db_run_snoc; [apply db_run_nil|]. apply db_step_call. vm_compute. congruence. }
  pose proof (db_run_snoc demo_db_func 100 false _ _ _ (DbCall 1050 2) _ H1
    ltac:(apply db_step_call; vm_compute; congruence)) as H2.
  pose proof (db_run_snoc demo_db_func 100 false _ _ _ (DbFire 1100 1) _ H2
    ltac:(eapply db_step_fire; [vm_compute; congruence|vm_compute; reflexivity])) as H3.
  split; [exact H3|].
  eapply (debounce_correct demo_db_func 100 false 1000); [|exact H3|].
  - intros a s. reflexivity.
  - by repeat constructor.
Defined.
End UsWitnesses.
