(* ===== verification/JqCore.v ===== *)
(** The utilities of [jquery.js] that everything else is built on (lines 72 to 160
    and 255 to 520): type tests, iteration over arrays and objects, merging and
    filtering of arrays, and [jQuery.extend], on the heap of [JsCore]; with
    [camelCase] (lines 4205 to 4219). *)

From S2P Require Import Prelude JsCore.

(** What the host page decides: which functions have the source text of [Object],
    the test for a plain constructor. *)
Class Host : Type := { object_source : value -> bool }.

Module JqCore.

Definition arg (args : list value) (i : nat) : value := or_undef (args !! i).

Section core.
Context `{Realm} `{Host}.
Variable call : loc -> value -> list value -> M value.

(** ** Types *)

Definition isFunction (v : value) : M bool :=
  h ← get_heap;
  if negb (bool_decide (typeof h v = js "function")) then mret false else
  nodeType ← get_str v "nodeType";
  if bool_decide (typeof h nodeType = js "number") then mret false else
  item ← get_str v "item";
  mret (negb (bool_decide (typeof h item = js "function"))).

Definition isWindow (v : value) : M bool :=
  if is_nullish v then mret false else w ← get_str v "window"; mret (strict_eq v w).

(** The names [class2type] knows. *)
Definition class2type (tag : jstr) : option jstr :=
  let names := js <$> ["Boolean"; "Number"; "String"; "Function"; "Array"; "Date"; "RegExp";
                       "Object"; "Error"; "Symbol"] in
  match base.filter (fun name => tag = js "[object " ++ name ++ js "]") names with
  | name :: _ => Some (ascii_lower <$> name)
  | [] => None
  end.

Definition toType (h : gmap loc obj) (v : value) : jstr :=
  match v with
  | VUndef => js "undefined"
  | VNull => js "null"
  | VRef _ => default (js "object") (class2type (toString_tag h v))
  | _ => typeof h v
  end.

(** [Array.isArray(v)] *)
Definition is_array (h : gmap loc obj) (v : value) : bool :=
  match v with VRef l => bool_decide (class_of h l = CArray) | _ => false end.

Definition isArrayLike (v : value) : M bool :=
  (* [length = !!obj && "length" in obj && obj.length] *)
  length ← (if truthy v then
              b ← in_obj length_key v;
              if b : bool then get_prop v length_key else mret (VBool false)
            else mret (VBool false));
  f ← isFunction v;
  w ← (if f : bool then mret false else isWindow v);
  if f || w then mret false else
  h ← get_heap;
  if bool_decide (toType h v = js "array") then mret true else
  match length with
  | VNum n =>
      if num_eqb n (Int 0) then mret true
      else if num_ltb (Int 0) n then k ← to_key call (VNum (num_sub n (Int 1))); in_obj k v
      else mret false
  | _ => mret false
  end.

Definition isPlainObject (v : value) : M bool :=
  h ← get_heap;
  match v with
  | VRef l =>
      if negb (bool_decide (toString_tag h v = js "[object Object]")) then mret false else
      match h !! l ≫= o_proto with
      | None => mret true
      | Some p =>
          own ← has_own (VRef p) (KStr (js "constructor"));
          if own : bool then
            c ← get_str (VRef p) "constructor";
            mret (bool_decide (typeof h c = js "function") && object_source c)
          else mret false
      end
  | _ => mret false
  end.

Definition isEmptyObject (h : gmap loc obj) (v : value) : bool :=
  match for_in_keys h v with [] => true | _ => false end.

(** ** Iteration *)

(** The loop of [each] over the keys or indices [ks]. *)
Fixpoint each_loop (v callback : value) (ks : list value) : M unit :=
  match ks with
  | [] => mret tt
  | k :: ks' =>
      x ← get_val call v k;
      r ← call_value call callback x [k; x];
      match r with VBool false => mret tt | _ => each_loop v callback ks' end
  end.

(** The keys [each] and [map] visit. *)
Definition each_keys (v : value) : M (list value) :=
  al ← isArrayLike v;
  if al : bool then
    length ← get_prop v length_key; n ← rounds call length; mret (VNat <$> seq 0 n)
  else h ← get_heap; mret (key_to_value <$> for_in_keys h v).

Definition each (v callback : value) : M value :=
  ks ← each_keys v; each_loop v callback ks;; mret v.

(** ** Arrays *)

Definition merge (first second : value) : M value :=
  l ← get_prop second length_key;
  len ← rounds call l;
  i ← get_prop first length_key;
  i ← iter_up len 0 (fun j i =>
    (* [first[ i++ ] = second[ j ]] *)
    n ← to_num call i;
    k ← to_key call (VNum n);
    x ← get_idx second j;
    put_prop first k x;;
    mret (VNum (num_add n (Int 1)))) i;
  put_prop first length_key i;;
  mret first.

Definition makeArray (arr results : value) : M value :=
  ret ← (if truthy results then mret results else array_of []);
  if is_nullish arr then mret ret else
  o ← to_object arr;
  al ← isArrayLike o;
  if al : bool then
    second ← (match arr with VStr _ => array_of [arr] | _ => mret arr end);
    merge ret second;; mret ret
  else array_push call ret arr;; mret ret.

Definition grep (elems callback invert : value) : M value :=
  let callbackExpect := negb (truthy invert) in
  length ← get_prop elems length_key;
  n ← rounds call length;
  matches ← iter_up n 0 (fun i matches =>
    x ← get_idx elems i;
    r ← call_value call callback VUndef [x; VNat i];
    if Bool.eqb (negb (truthy r)) callbackExpect then mret matches
    else x' ← get_idx elems i; mret (matches ++ [x'])) [];
  array_of matches.

(** [flat(array)]: arrays among the entries are replaced by their entries. *)
Fixpoint flat (vs : list value) : M (list value) :=
  match vs with
  | [] => mret []
  | v :: vs' =>
      h ← get_heap;
      xs ← (if is_array h v then es ← (n ← length_of call v; read_elems v 0 n);
                                 mret (or_undef <$> base.filter (fun e => e <> None) es)
            else mret [v]);
      r ← flat vs';
      mret (xs ++ r)
  end.

Definition map (elems callback arg : value) : M value :=
  ks ← each_keys elems;
  ret ← foldM (fun ret k =>
    x ← get_val call elems k;
    value ← call_value call callback VUndef [x; k; arg];
    mret (if is_nullish value then ret else ret ++ [value])) [] ks;
  r ← flat ret;
  array_of r.

(** ** extend *)

(** [jQuery.extend(...args)] called on [this]; [fuel] bounds the depth of the
    objects that are merged. *)
Fixpoint extend (fuel : nat) (this : value) (args : list value) : M value :=
  match fuel with
  | O => diverge
  | S fuel' =>
      let or_new v := if truthy v then mret v else new_object [] in
      t0 ← or_new (arg args 0);
      '(deep, target, i) ← (match t0 with
                            | VBool b => t ← or_new (arg args 1); mret (b, t, 2)
                            | _ => mret (false, t0, 1)
                            end);
      h ← get_heap;
      f ← isFunction target;
      target ← (if bool_decide (typeof h target = js "object") || f then mret target else new_object []);
      let '(target, i) := if Nat.eqb i (length args) then (this, i - 1) else (target, i) in
      foldM (fun _ options =>
        if is_nullish options then mret tt else
        h ← get_heap;
        foldM (fun _ name =>
          copy ← get_prop options name;
          if bool_decide (name = KStr (js "__proto__")) || strict_eq target copy then mret tt else
          plain ← (if deep && truthy copy then isPlainObject copy else mret false);
          h ← get_heap;
          let copyIsArray := deep && truthy copy && negb plain && is_array h copy in
          if plain || copyIsArray then
            src ← get_prop target name;
            srcPlain ← isPlainObject src;
            h ← get_heap;
            clone ← (if copyIsArray && negb (is_array h src) then array_of []
                     else if negb copyIsArray && negb srcPlain then new_object []
                     else mret src);
            x ← extend fuel' this [VBool deep; clone; copy];
            put_prop target name x
          else if strict_eq copy VUndef then mret tt
          else put_prop target name copy) tt (for_in_keys h options)) tt (drop i args);;
      mret target
  end.

End core.

(** * camelCase *)

(** [string.replace(/^-ms-/, "ms-")] *)
Definition ms_prefix (s : jstr) : jstr := if startsWith s (js "-ms-") then drop 1 s else s.

(** [replace(/-([a-z])/g, fcamelCase)] *)
Fixpoint dash_alpha (s : jstr) : jstr :=
  match s with
  | [] => []
  | c :: s' =>
      if N.eqb c (chr "-") then
        match s' with
        | d :: s'' => if is_lower d then ascii_upper d :: dash_alpha s'' else c :: dash_alpha s'
        | [] => [c]
        end
      else c :: dash_alpha s'
  end.

Definition camelCase (s : jstr) : jstr := dash_alpha (ms_prefix s).

End JqCore.
