(* ===== verification/JqParam.v ===== *)
(** Serialization of [jquery.js] (lines 8912 to 9040): [jQuery.param] on the heap of
    [JsCore] and [serialize] for forms; and its counterpart in the compatibility
    shim, [jQuery.getQueryParameters] (lines 18 to 55 of
    [_sphinx_javascript_frameworks_compat.js]), with the browser sniffing of the
    same file. *)

From S2P Require Import Prelude Regex Uri JsCore JqCore.
Import Uri JqCore.

Module JqParam.

Section param.
Context `{Realm} `{Host}.
Variable call : loc -> value -> list value -> M value.

(** [encodeURIComponent(v)] of any value *)
Definition encode_value (v : value) : M jstr := s ← to_str call v; of_res (encodeURIComponent s).

(** The closure [add] of [param]; the array [s] is the list of its strings. *)
Definition add (s : list jstr) (key valueOrFunction : value) : M (list jstr) :=
  f ← isFunction valueOrFunction;
  value ← (if f : bool then call_value call valueOrFunction VUndef [] else mret valueOrFunction);
  k ← encode_value key;
  v ← encode_value (if is_nullish value then VStr [] else value);
  mret (s ++ [k ++ js "=" ++ v]).

Definition bracket (prefix inner : jstr) : jstr := prefix ++ js "[" ++ inner ++ js "]".

(** The name of a key, as [for (name in obj)] gives it. *)
Definition key_name (k : key) : jstr := match key_to_value k with VStr s => s | _ => [] end.

Fixpoint buildParams (fuel : nat) (prefix : jstr) (v : value) (traditional : bool) (s : list jstr)
  : M (list jstr) :=
  match fuel with
  | O => diverge
  | S fuel' =>
      h ← get_heap;
      if is_array h v then
        length ← get_prop v length_key;
        n ← rounds call length;
        iter_up n 0 (fun i s =>
          x ← get_idx v i;
          h ← get_heap;
          if traditional || endsWith prefix (js "[]") then add s (VStr prefix) x
          else
            let inner := if bool_decide (typeof h x = js "object") && negb (is_nullish x)
                         then N_to_jstr (N.of_nat i) else [] in
            buildParams fuel' (bracket prefix inner) x traditional s) s
      else if negb traditional && bool_decide (toType h v = js "object") then
        foldM (fun s name =>
          x ← get_prop v name;
          buildParams fuel' (bracket prefix (key_name name)) x traditional s) s (for_in_keys h v)
      else add s (VStr prefix) v
  end.

(** [add(this.name, this.value)] for the entries of an array or a jQuery object *)
Fixpoint add_entries (v : value) (ks : list value) (s : list jstr) : M (list jstr) :=
  match ks with
  | [] => mret s
  | k :: ks' =>
      x ← get_val call v k;
      name ← get_str x "name";
      val ← get_str x "value";
      s' ← add s name val;
      add_entries v ks' s'
  end.

Definition param (fuel : nat) (a : value) (traditional : bool) : M jstr :=
  if is_nullish a then mret [] else
  h ← get_heap;
  elements ← (if is_array h a then mret true
              else j ← get_str a "jquery";
                   if truthy j then p ← isPlainObject a; mret (negb p) else mret false);
  s ← (if elements : bool then ks ← each_keys call a; add_entries a ks []
       else foldM (fun s prefix =>
              x ← get_prop a prefix;
              buildParams fuel (key_name prefix) x traditional s) [] (for_in_keys h a));
  mret (join (js "&") s).

(** ** Forms *)

(** A form element as [serializeArray] sees it; [el_val] is what [val()] answers:
    nothing, one value, or the values of a multiple selection. *)
Record element := {
  el_name : jstr;
  el_type : jstr;
  el_nodeName : jstr;
  el_disabled : bool;
  el_checked : bool;
  el_val : option (jstr + list jstr);
}.

(** [/^(?:submit|button|image|reset|file)$/i] and the like *)
Definition one_of (names : list string) (s : jstr) : bool := bool_decide ((ascii_lower <$> s) ∈ (js <$> names)).
Definition rsubmitterTypes := one_of ["submit"; "button"; "image"; "reset"; "file"].
Definition rcheckableType := one_of ["checkbox"; "radio"].

(** [/^(?:input|select|textarea|keygen)/i] *)
Definition rsubmittable (s : jstr) : bool :=
  existsb (startsWith (ascii_lower <$> s)) (js <$> ["input"; "select"; "textarea"; "keygen"]).

(** [val.replace(/\r?\n/g, "\r\n")] *)
Fixpoint rCRLF (s : jstr) : jstr :=
  match s with
  | [] => []
  | c :: s' =>
      if N.eqb c 10 then 13%N :: 10%N :: rCRLF s'
      else if N.eqb c 13 then
        match s' with
        | d :: s'' => if N.eqb d 10 then 13%N :: 10%N :: rCRLF s'' else c :: rCRLF s'
        | [] => [c]
        end
      else c :: rCRLF s'
  end.

Definition successful (e : element) : bool :=
  match el_name e with
  | [] => false
  | _ => negb (el_disabled e) && rsubmittable (el_nodeName e) && negb (rsubmitterTypes (el_type e))
         && (el_checked e || negb (rcheckableType (el_type e)))
  end.

(** The pairs of names and values of the elements of a form. *)
Definition serializeArray (elements : list element) : list (jstr * jstr) :=
  concat ((fun e => match el_val e with
                    | None => []
                    | Some (inl v) => [(el_name e, rCRLF v)]
                    | Some (inr vs) => (fun v => (el_name e, rCRLF v)) <$> vs
                    end) <$> base.filter successful elements).

Definition pair_object (nv : jstr * jstr) : list (key * prop) :=
  let entry name v := (KStr (js name), {| p_val := VStr v; p_enum := true |}) in
  [entry "name" nv.1; entry "value" nv.2].

(** The array of objects [{ name, value }] that [serializeArray] answers. *)
Fixpoint alloc_pairs (nvs : list (jstr * jstr)) : M (list value) :=
  match nvs with
  | [] => mret []
  | nv :: nvs' => o ← new_object (pair_object nv); os ← alloc_pairs nvs'; mret (o :: os)
  end.

Definition serialize (elements : list element) : M jstr :=
  os ← alloc_pairs (serializeArray elements);
  a ← array_of os;
  param 0 a false.

End param.

(** * The compatibility shim *)

(** [x.replace(/\+/g, ' ')] *)
Definition plus_to_space (x : jstr) : jstr := (fun c => if N.eqb c (chr "+") then 32%N else c) <$> x.

(** [jQuery.urldecode(x)]: undefined and the empty string are answered as they are. *)
Definition urldecode (x : option jstr) : res (option jstr) :=
  match x with
  | None => Ok None
  | Some [] => Ok (Some [])
  | Some s => do r <- decodeURIComponent (plus_to_space s); Ok (Some r)
  end.

Abbreviation parameters := (list (jstr * list (option jstr))).

(** One round of the loop; a key that names a member of [Object.prototype] is [in]
    the result without being an array. *)
Definition add_parameter (result : parameters) (part : jstr) : res parameters :=
  let tmp := take 2 (split_char (chr "=") part) in
  do key <- urldecode (tmp !! 0);
  do value <- urldecode (tmp !! 1);
  let k := default (js "undefined") key in
  match obj_get result k with
  | POwn values => Ok (assoc_set k (values ++ [value]) result)
  | PMethod | PProto => Throw TypeError
  | PUndefined => Ok (assoc_set k [value] result)
  end.

Fixpoint add_parameters (result : parameters) (parts : list jstr) : res parameters :=
  match parts with
  | [] => Ok result
  | p :: ps => do r <- add_parameter result p; add_parameters r ps
  end.

Definition getQueryParameters (s : jstr) : res parameters :=
  add_parameters [] (split_char (chr "&") (substr_from s (Z.to_nat (indexOf s (js "?") + 1)))).

(** ** Browser sniffing *)

(** [[\w.]+] *)
Definition version_class : regex := RPlus true (RClass (fun c => is_word_char c || N.eqb c (chr "."))).

Definition name_version (name : string) (sep : regex) : pattern :=
  {| p_groups := 2; p_re := RSeq (RGroup 1 (RLit (js name))) (RSeq sep (RGroup 2 version_class)) |}.

Definition slash_or_space : regex := RClass (fun c => N.eqb c 32 || N.eqb c (chr "/")).

(** [/(opera)(?:.*version|)[ \/]([\w.]+)/] *)
Definition opera_pattern : pattern :=
  {| p_groups := 2; p_re :=
       RSeq (RGroup 1 (RLit (js "opera")))
         (RSeq (RAlt (RSeq (RStar true RDot) (RLit (js "version"))) (RLit []))
           (RSeq slash_or_space (RGroup 2 version_class))) |}.

(** [/(mozilla)(?:.*? rv:([\w.]+)|)/] *)
Definition mozilla_pattern : pattern :=
  {| p_groups := 2; p_re :=
       RSeq (RGroup 1 (RLit (js "mozilla")))
         (RAlt (RSeq (RStar false RDot) (RSeq (RLit (js " rv:")) (RGroup 2 version_class))) (RLit [])) |}.

(** [jQuery.uaMatch(ua)]: the browser and its version. *)
Definition uaMatch `{Unicode} (ua0 : jstr) : jstr * jstr :=
  let ua := toLowerCase ua0 in
  let try_ P k := match exec P ua with Some r => Some r | None => k end in
  let found :=
    try_ (name_version "chrome" slash_or_space)
      (try_ (name_version "webkit" slash_or_space)
        (try_ opera_pattern
          (try_ (name_version "msie" (RLit (js " ")))
            (if Z.ltb (indexOf ua (js "compatible")) 0 then exec mozilla_pattern ua else None)))) in
  match found with
  | Some r => (group_or_empty ua r 1,
               match group_or_empty ua r 2 with [] => js "0" | v => v end)
  | None => ([], js "0")
  end.

(** [jQuery.browser] after the script was loaded, when it did not exist before. *)
Definition browser `{Unicode} (userAgent : jstr) : list (jstr * bool) := [((uaMatch userAgent).1, true)].

End JqParam.
