(* ===== verification/JqQuery.v ===== *)
(** The query string of a form is read back as the form was filled in:
    [serialize] of [jquery.js] against [getQueryParameters] of the compatibility
    shim. *)

From Stdlib Require Import QArith_base.
From S2P Require Import Prelude Uri JsCore JqCore JqParam JsLogic.
Import Uri JqCore JqParam.

Module JqQuery.

(** * Strings *)

Lemma safe_not c s : unreserved c = false -> c <> chr "%" -> Forall uri_safe s -> c ∉ s.
Proof. intros U P F Hc. rewrite Forall_forall in F. destruct (F _ Hc); congruence. Qed.

Lemma plus_to_space_safe s : Forall uri_safe s -> plus_to_space s = s.
Proof.
  induction 1 as [|c s Hc F IH]; [done|]. unfold plus_to_space in *. cbn [fmap list_fmap].
  rewrite IH. destruct (N.eqb_spec c (chr "+")) as [->|]; [|done]. by destruct Hc.
Qed.

(** An encoded text is decoded by [urldecode] too, the empty one included. *)
Lemma urldecode_encoded s e :
  Forall uri_safe e -> decodeURIComponent e = Ok s -> urldecode (Some e) = Ok (Some s).
Proof.
  intros F D. destruct e as [|c e]; [by injection D as <-|]. unfold urldecode.
  by rewrite plus_to_space_safe, D.
Qed.

(** * Reading *)

(** A name or value that can be sent. *)
Definition pair_ok (nv : jstr * jstr) : Prop := well_formed nv.1 = true /\ well_formed nv.2 = true.

(** The name of a parameter that [Object.prototype] does not have. *)
Definition free_name (k : jstr) : Prop := k ∉ object_proto_methods /\ k <> js "__proto__".

(** [part] is the text of the pair [nv]. *)
Definition part_of (nv : jstr * jstr) (part : jstr) : Prop :=
  exists a b, part = a ++ js "=" ++ b /\ Forall uri_safe a /\ Forall uri_safe b /\
    decodeURIComponent a = Ok nv.1 /\ decodeURIComponent b = Ok nv.2.

(** The values the pairs have for a name, in order. *)
Definition values_of (k : jstr) (nvs : list (jstr * jstr)) : list jstr :=
  (base.filter (fun nv : jstr * jstr => nv.1 = k) nvs).*2.

(** The parameters [r] group the pairs by name. *)
Definition groups (r : parameters) (nvs : list (jstr * jstr)) : Prop :=
  forall k, assoc k r = match values_of k nvs with [] => None | vs => Some (Some <$> vs) end.

Lemma obj_get_free {A} (r : list (jstr * A)) k : free_name k ->
  obj_get r k = match assoc k r with Some a => POwn a | None => PUndefined end.
Proof.
  intros [H1 H2]. unfold obj_get. destruct (assoc k r); [done|]. by rewrite !decide_False by done.
Qed.

Lemma values_of_snoc k nvs nv :
  values_of k (nvs ++ [nv]) = values_of k nvs ++ (if decide (nv.1 = k) then [nv.2] else []).
Proof.
  unfold values_of. rewrite filter_app, fmap_app. f_equal. cbn. by case_decide.
Qed.

Lemma add_parameter_group r nvs nv part :
  groups r nvs -> free_name nv.1 -> part_of nv part ->
  exists r', add_parameter r part = Ok r' /\ groups r' (nvs ++ [nv]).
Proof.
  intros G Hf (a & b & -> & Fa & Fb & Da & Db). unfold add_parameter.
  assert (S : split_char (chr "=") (a ++ js "=" ++ b) = [a; b]).
  { change (js "=" ++ b) with (chr "=" :: b).
    rewrite split_char_app, split_char_none by (by apply safe_not). done. }
  rewrite S. cbn [take lookup list_lookup firstn].
  rewrite (urldecode_encoded _ _ Fa Da), (urldecode_encoded _ _ Fb Db). cbn [rbind].
  change (default (js "undefined") (Some nv.1)) with nv.1.
  rewrite obj_get_free by done. rewrite (G nv.1).
  set (vs := values_of nv.1 nvs). exists (assoc_set nv.1 ((Some <$> vs) ++ [Some nv.2]) r).
  split; [by destruct vs|]. intros k. rewrite values_of_snoc. case_decide as Hk.
  - subst k. rewrite assoc_set_eq. fold vs. change [Some nv.2] with (Some <$> [nv.2]).
    rewrite <- fmap_app. by destruct vs.
  - rewrite assoc_set_ne, app_nil_r by done. apply G.
Qed.

Lemma add_parameters_group nvs' parts : Forall2 part_of nvs' parts ->
  forall r nvs, Forall (fun nv => free_name nv.1) nvs' -> groups r nvs ->
  exists r', add_parameters r parts = Ok r' /\ groups r' (nvs ++ nvs').
Proof.
  induction 1 as [|nv part nvs' parts Hp _ IH]; intros r nvs F G.
  - exists r. by rewrite app_nil_r.
  - apply Forall_cons in F as [Fn F].
    destruct (add_parameter_group r nvs nv part G Fn Hp) as (r1 & E & G1).
    destruct (IH r1 _ F G1) as (r2 & E2 & G2). exists r2. cbn [add_parameters]. rewrite E.
    split; [done|]. by rewrite <- app_assoc in G2.
Qed.

Lemma part_chars nv part c : part_of nv part -> unreserved c = false -> c <> chr "%" ->
  c <> chr "=" -> c ∉ part.
Proof.
  intros (a & b & -> & Fa & Fb & _) U P E.
  rewrite !elem_of_app. intros [H|[H|H]]; [by revert H; apply safe_not| |by revert H; apply safe_not].
  by apply list_elem_of_singleton in H.
Qed.

Lemma elem_of_join sep parts c : c ∈ join sep parts -> c ∈ sep \/ exists p, p ∈ parts /\ c ∈ p.
Proof.
  induction parts as [|p parts IH]; [by intros ?%elem_of_nil|]. destruct parts as [|q parts].
  - intros H. right. exists p. split; [left|done].
  - change (join sep (p :: q :: parts)) with (p ++ sep ++ join sep (q :: parts)).
    rewrite !elem_of_app. intros [H|[H|H]]; [right|by left|].
    + exists p. split; [left|done].
    + destruct (IH H) as [?|(r & ? & ?)]; [by left|]. right. exists r. split; [by right|done].
Qed.

Lemma indexOf_absent c s : c ∉ s -> indexOf s [c] = (-1)%Z.
Proof.
  intros H. assert (indexOf s [c] < 0)%Z; [|pose proof (indexOf_ge_m1 s [c]); lia].
  apply indexOf_neg, not_true_is_false. rewrite includes_spec. intros (a & b & ->).
  apply H. rewrite !elem_of_app. right. left. left.
Qed.

(** The text of some pairs, alone or after a question mark, is read as the pairs. *)
Lemma read_parts nvs parts :
  Forall2 part_of nvs parts -> Forall (fun nv => free_name nv.1) nvs -> parts <> [] ->
  exists r, groups r nvs /\ getQueryParameters (join (js "&") parts) = Ok r /\
    getQueryParameters (js "?" ++ join (js "&") parts) = Ok r.
Proof.
  intros H F Hne. destruct (add_parameters_group nvs parts H [] []) as (r & E & G); [done|done|].
  exists r. split; [done|].
  assert (N : forall c p, unreserved c = false -> c <> chr "%" -> c <> chr "=" -> p ∈ parts -> c ∉ p).
  { intros c p ??? Hp. apply list_elem_of_lookup in Hp as [i Hi].
    destruct (Forall2_lookup_r _ _ _ _ _ H Hi) as (nv & _ & Hn). by apply (part_chars nv). }
  assert (Q : chr "?" ∉ join (js "&") parts).
  { intros [Hc|(p & Hp & Hc)]%elem_of_join; [by apply list_elem_of_singleton in Hc|].
    by apply (N (chr "?") p). }
  assert (S : split_char (chr "&") (join (js "&") parts) = parts).
  { apply split_char_join; [done|]. apply Forall_forall. intros p Hp. by apply N. }
  unfold getQueryParameters, substr_from. split.
  - change (js "?") with [chr "?"]. rewrite indexOf_absent by done.
    change (Z.to_nat (-1 + 1)) with 0. by rewrite drop_0, S.
  - replace (indexOf (js "?" ++ join (js "&") parts) (js "?")) with 0%Z.
    + change (drop _ _) with (join (js "&") parts). by rewrite S.
    + unfold indexOf. change (js "?" ++ _) with (chr "?" :: join (js "&") parts).
      by destruct (join (js "&") parts).
Qed.

(** * Writing *)

Section write.
Context `{Realm} `{Host}.
Variable call : loc -> value -> list value -> M value.

(** The prototypes of arrays are ordinary objects without [window]. *)
Definition plain_protos (h : gmap loc obj) : Prop :=
  exists ap op, h !! ArrayProto = Some ap /\ o_proto ap = Some ObjProto /\
    h !! ObjProto = Some op /\ o_proto op = None /\
    own_get ap (KStr (js "window")) = None /\ own_get op (KStr (js "window")) = None.

(** [v] is an object whose [name] and [value] are the pair. *)
Definition is_pair (h : gmap loc obj) (v : value) (nv : jstr * jstr) : Prop :=
  exists l o, v = VRef l /\ h !! l = Some o /\ own_get o (KStr (js "name")) = Some (VStr nv.1) /\
    own_get o (KStr (js "value")) = Some (VStr nv.2).

Lemma plain_protos_ext s s' : ext s s' -> plain_protos (heap s) -> plain_protos (heap s').
Proof.
  intros E (ap & op & H1 & H2 & H3 & H4). exists ap, op.
  split; [by apply (lookup_weaken _ _ _ _ H1)|]. split; [done|].
  split; [by apply (lookup_weaken _ _ _ _ H3)|done].
Qed.

Lemma is_pair_ext s s' v nv : ext s s' -> is_pair (heap s) v nv -> is_pair (heap s') v nv.
Proof.
  intros E (l & o & -> & Hl & Ho). exists l, o. split; [done|].
  split; [by apply (lookup_weaken _ _ _ _ Hl)|done].
Qed.

Lemma wp_alloc_pairs nvs s (Q : list value -> state -> Prop) :
  (forall os s', ext s s' -> Forall2 (is_pair (heap s')) os nvs -> Q os s') ->
  wp (alloc_pairs nvs) s Q.
Proof.
  revert s Q. induction nvs as [|nv nvs IH]; intros s Q HQ.
  - apply wp_ret, HQ; [apply ext_refl|constructor].
  - cbn [alloc_pairs]. apply wp_bind. unfold new_object. apply wp_alloc. intros l s1 Hl Hh _ _.
    assert (E1 : ext s s1) by (unfold ext; rewrite Hh; by apply insert_subseteq).
    apply wp_bind, IH. intros os s2 E2 F. apply wp_ret, HQ; [by apply (ext_trans _ s1)|].
    constructor; [|done]. apply (is_pair_ext s1); [done|]. exists l. eexists.
    split; [done|]. rewrite Hh, lookup_insert_eq. done.
Qed.

Lemma own_proto_window h l o :
  h !! l = Some o -> o_class o = CArray -> o_proto o = Some ArrayProto -> o_props o = [] ->
  plain_protos h -> obj_lookup h l (KStr (js "window")) = None.
Proof.
  intros Hl Hc Hp Hs (ap & op & H1 & H2 & H3 & H4 & W1 & W2). unfold obj_lookup.
  assert (E : forall o l' n, h !! l' = Some o -> own_get o (KStr (js "window")) = None ->
    chain_get h (S n) l' (KStr (js "window")) =
    match o_proto o with Some p => chain_get h n p (KStr (js "window")) | None => None end).
  { intros o' l' n E1 E2. cbn [chain_get]. by rewrite E1, E2. }
  rewrite (E o) by (try done; unfold own_get; rewrite Hc, Hs; done). rewrite Hp.
  destruct (size h) as [|n]; [done|]. rewrite (E ap) by done. rewrite H2.
  destruct n as [|n]; [done|]. by rewrite (E op), H4.
Qed.

(** The keys of an array are its indices. *)
Lemma each_keys_new s l o vs :
  heap s !! l = Some o -> o_class o = CArray -> o_elems o = Some <$> vs ->
  o_proto o = Some ArrayProto -> o_props o = [] -> plain_protos (heap s) ->
  each_keys call (VRef l) s = (Done (VNat <$> seq 0 (length vs)), s).
Proof.
  intros Hl Hc He Hp Hs Hw.
  assert (A : is_arr (heap s) (VRef l) vs) by (by exists l, o).
  assert (I : in_obj length_key (VRef l) s = (Done true, s)).
  { unfold in_obj. rewrite bind_heap. by rewrite (lookup_own _ _ _ _ _ Hl (own_get_len _ _ Hc He)). }
  assert (F : isFunction (VRef l) s = (Done false, s)).
  { unfold isFunction. rewrite bind_heap. unfold typeof, is_callable, class_of. rewrite Hl, Hc. done. }
  assert (W : isWindow (VRef l) s = (Done false, s)).
  { unfold isWindow, get_str, get_prop. cbn [is_nullish].
    rewrite (bind_eq _ _ s VUndef s); [done|]. rewrite bind_heap.
    by rewrite (own_proto_window _ _ _ Hl Hc Hp Hs Hw). }
  assert (L : isArrayLike call (VRef l) s = (Done true, s)).
  { unfold isArrayLike. cbn [truthy]. rewrite (bind_eq _ _ s (VNat (length vs)) s).
    - rewrite (bind_eq _ _ _ _ _ F). cbn [negb].
      rewrite (bind_eq _ _ _ _ _ W). cbn [orb]. rewrite bind_heap.
      unfold toType, toString_tag, value_class, class_of. rewrite Hl, Hc. done.
    - rewrite (bind_eq _ _ _ _ _ I). apply (get_len_arr _ _ _ A). }
  unfold each_keys. rewrite (bind_eq _ _ _ _ _ L), (bind_eq _ _ _ _ _ (get_len_arr _ _ _ A)).
  by rewrite (bind_eq _ _ _ _ _ (rounds_nat call _ s)).
Qed.

Lemma get_pair_str s v nv :
  is_pair (heap s) v nv -> get_str v "name" s = (Done (VStr nv.1), s) /\
    get_str v "value" s = (Done (VStr nv.2), s).
Proof.
  intros (l & o & -> & Hl & Hn & Hv). unfold get_str, get_prop. rewrite !bind_heap.
  by rewrite (lookup_own _ _ _ _ _ Hl Hn), (lookup_own _ _ _ _ _ Hl Hv).
Qed.

Lemma add_pair s0 s nv : pair_ok nv ->
  exists part, part_of nv part /\
    add call s0 (VStr nv.1) (VStr nv.2) s = (Done (s0 ++ [part]), s).
Proof.
  intros [W1 W2]. destruct (decode_encode_wf _ W1) as (a & Ea & Fa & Da).
  destruct (decode_encode_wf _ W2) as (b & Eb & Fb & Db).
  exists (a ++ js "=" ++ b). split; [by exists a, b|]. unfold add.
  assert (V : forall t e, encodeURIComponent t = Ok e -> encode_value call (VStr t) s = (Done e, s)).
  { intros t e E. unfold encode_value. rewrite (bind_eq _ _ s t s) by done. by rewrite E. }
  rewrite (bind_eq _ _ s false s) by done. rewrite (bind_eq _ _ s (VStr nv.2) s) by done. cbn [is_nullish].
  rewrite (bind_eq _ _ _ _ _ (V _ _ Ea)), (bind_eq _ _ _ _ _ (V _ _ Eb)). done.
Qed.

Lemma add_entries_pairs s a os nvs : is_arr (heap s) a os -> Forall2 (is_pair (heap s)) os nvs ->
  Forall pair_ok nvs -> forall n i acc, i + n = length os ->
  exists parts, Forall2 part_of (drop i nvs) parts /\
    add_entries call a (VNat <$> seq i n) acc s = (Done (acc ++ parts), s).
Proof.
  intros A P W. pose proof (Forall2_length _ _ _ P) as L. induction n as [|n IH]; intros i acc Hi.
  - exists []. rewrite drop_ge, app_nil_r by lia. by split.
  - destruct (lookup_lt_is_Some_2 os i ltac:(lia)) as [x Hx].
    destruct (Forall2_lookup_l _ _ _ _ _ P Hx) as (nv & Hn & Px).
    destruct (add_pair acc s nv) as (part & Hp & Ha); [by apply (Forall_lookup_1 _ _ _ _ W Hn)|].
    destruct (IH (S i) (acc ++ [part]) ltac:(lia)) as (parts & Hps & Hr).
    exists (part :: parts). rewrite (drop_S nvs nv i Hn). split; [by constructor|].
    cbn [seq fmap list_fmap add_entries]. rewrite (bind_eq _ _ _ _ _ (get_val_arr call _ _ _ _ _ A Hx)).
    destruct (get_pair_str _ _ _ Px) as [G1 G2].
    rewrite (bind_eq _ _ _ _ _ G1), (bind_eq _ _ _ _ _ G2), (bind_eq _ _ _ _ _ Ha).
    by rewrite Hr, <- app_assoc.
Qed.

Lemma wp_serialize es s (Q : jstr -> state -> Prop) :
  plain_protos (heap s) -> Forall pair_ok (serializeArray es) ->
  (forall parts s', ext s s' -> Forall2 part_of (serializeArray es) parts ->
    Q (join (js "&") parts) s') ->
  wp (serialize call es) s Q.
Proof.
  intros Hp W HQ. unfold serialize. apply wp_bind, wp_alloc_pairs. intros os s1 E1 P.
  apply wp_bind. unfold array_of, new_array. apply wp_alloc. intros l s2 Hl Hh _ _.
  assert (E2 : ext s1 s2) by (unfold ext; rewrite Hh; by apply insert_subseteq).
  assert (P2 : Forall2 (is_pair (heap s2)) os (serializeArray es)).
  { eapply Forall2_impl; [exact P|]. intros v nv. by apply is_pair_ext. }
  assert (Ho : heap s2 !! l = Some {| o_class := CArray; o_proto := Some ArrayProto;
      o_elems := Some <$> os; o_props := []; o_data := VUndef |}).
  { by rewrite Hh, lookup_insert_eq. }
  assert (A : is_arr (heap s2) (VRef l) os) by (eexists _, _; by split).
  assert (K : each_keys call (VRef l) s2 = (Done (VNat <$> seq 0 (length os)), s2)).
  { eapply (each_keys_new _ _ _ os); try done.
    apply (plain_protos_ext s1); [done|]. by apply (plain_protos_ext s). }
  destruct (add_entries_pairs s2 (VRef l) os _ A P2 W (length os) 0 [] eq_refl) as (parts & F & R).
  unfold param. cbn [is_nullish]. apply (wp_eq _ _ (join (js "&") parts) s2).
  - rewrite bind_heap. unfold is_array, class_of. rewrite Ho. cbn [o_class].
    rewrite bool_decide_eq_true_2 by done. rewrite (bind_eq _ _ _ true s2) by done.
    assert (B : (ks ← each_keys call (VRef l); add_entries call (VRef l) ks []) s2 = (Done parts, s2)).
    { by rewrite (bind_eq _ _ _ _ _ K), R. }
    by rewrite (bind_eq _ _ _ _ _ B).
  - apply HQ; [by apply (ext_trans _ s1)|done].
Qed.

End write.

(** C25. What a form submits is what the page reads: for every form that submits
    something and whose
    successful elements have well-formed Unicode names and values and no name that
    [Object.prototype] has, [serialize] ends normally, and [getQueryParameters]
    of its result, with or without the leading question mark, answers for every
    name exactly the submitted values in their order, whatever separators, plus
    signs, spaces or non-ASCII text they contain. *)
Theorem serialize_roundtrip `{Realm} `{Host} call es s :
  plain_protos (heap s) -> serializeArray es <> [] ->
  Forall pair_ok (serializeArray es) -> Forall (fun nv => free_name nv.1) (serializeArray es) ->
  exists q r s', serialize call es s = (Done q, s') /\
    getQueryParameters q = Ok r /\ getQueryParameters (js "?" ++ q) = Ok r /\
    forall k, assoc k r = match values_of k (serializeArray es) with
                          | [] => None
                          | vs => Some (Some <$> vs)
                          end.
Proof.
  intros Hp Hne W F.
  edestruct (wp_elim (serialize call es) s (fun q _ => exists r, groups r (serializeArray es) /\
    getQueryParameters q = Ok r /\ getQueryParameters (js "?" ++ q) = Ok r))
    as (q & s' & E & r & G & Q1 & Q2).
  - apply (wp_serialize call es s); [done|done|]. intros parts s' _ P. apply read_parts; [done|done|].
    intros ->. by apply Forall2_nil_inv_r in P.
  - exists q, r, s'. by repeat split.
Qed.

(** ** A form *)

#[local] Instance page_realm : Realm :=
  {| ObjProto := 1; ArrayProto := 2; FunctionProto := 3; StringProto := 4; NumberProto := 5;
     BooleanProto := 6; SymbolProto := 7; Math_random := fun _ => 0%Q |}%positive.
#[local] Instance page_host : Host := {| object_source := fun _ => false |}.

Definition bare (proto : option loc) : obj :=
  {| o_class := CObject; o_proto := proto; o_elems := []; o_props := []; o_data := VUndef |}.

Definition page_state : state :=
  {| heap := {[ 1%positive := bare None; 2%positive := bare (Some 1%positive) ]}; rnd := 0; ids := 0 |}.

Definition input (name type : string) (checked : bool) (val : jstr + list jstr) : element :=
  {| el_name := js name; el_type := js type; el_nodeName := js "INPUT"; el_disabled := false;
     el_checked := checked; el_val := Some val |}.

(** A text with separators, a box that is not checked, and a selection of two
    values, one of them outside ASCII. *)
Definition page_form : list element :=
  [input "a&b" "text" false (inl (js "1 + 1 = 2?")); input "box" "checkbox" false (inl (js "on"));
   input "pick" "select" false (inr [js "x"; [233; 0xD83D; 0xDE00]%N])].

Lemma serialize_roundtrip_witness :
  exists q r s', serialize (fun _ _ _ => mret VUndef) page_form page_state = (Done q, s') /\
    getQueryParameters q = Ok r /\ getQueryParameters (js "?" ++ q) = Ok r /\
    forall k, assoc k r = match values_of k (serializeArray page_form) with
                          | [] => None
                          | vs => Some (Some <$> vs)
                          end.
Proof.
  apply serialize_roundtrip.
  - exists (bare (Some 1%positive)), (bare None). by repeat split.
  - done.
  - repeat constructor.
  - repeat (constructor; [unfold free_name; by_deciding|]). constructor.
Defined.

(** * What the reader does not handle *)

(** A parameter named like a member of [Object.prototype] is [in] the result
    although it was never stored: [push] of it is a TypeError. *)
Lemma inherited_parameter_throws r k v a b :
  k ∈ object_proto_methods -> assoc k r = None ->
  Forall uri_safe a -> Forall uri_safe b -> decodeURIComponent a = Ok k -> decodeURIComponent b = Ok v ->
  add_parameter r (a ++ js "=" ++ b) = Throw TypeError.
Proof.
  intros Hk Hr Fa Fb Da Db. unfold add_parameter. change (js "=" ++ b) with (chr "=" :: b).
  rewrite split_char_app, split_char_none by (by apply safe_not).
  cbn [take lookup list_lookup firstn].
  rewrite (urldecode_encoded _ _ Fa Da), (urldecode_encoded _ _ Fb Db). cbn [rbind].
  change (default (js "undefined") (Some k)) with k. unfold obj_get. rewrite Hr.
  by rewrite decide_True.
Qed.

(** A second equals sign cuts the value, an empty query has one empty name. *)
Lemma getQueryParameters_corners :
  getQueryParameters (js "?constructor=1") = Throw TypeError /\
  getQueryParameters (js "?q=a=b") = Ok [(js "q", [Some (js "a")])] /\
  getQueryParameters [] = Ok [([], [None])].
Proof. by vm_compute. Qed.

End JqQuery.
