(* ===== verification/JqCallbacks.v ===== *)
(** Callback lists of [jquery.js] ([jQuery.Callbacks], lines 3419 to 3647) and the
    world of values and functions they share with the deferred objects.

    Functions the library makes are constructors of [fn]; code of the page is an
    interactive program that may call every method of the library and is resumed
    with the answer.  A callback list holds entries: functions, or one of the
    internal steps of a deferred, which no program can name.  [fire] calls its
    entries through the parameter [rec], so that callbacks may change the list
    that is firing; loops run on the fuel [n]. *)

From S2P Require Import Prelude.

Module JqCallbacks.

(** * Values, functions and programs *)

(** The rows of the table [tuples] of a deferred. *)
Inductive tuple := Notify | Resolve | Reject.

(** Methods of promises and deferreds. *)
Inductive dmeth :=
| MState | MAlways | MCatch | MPipe | MThen | MPromise
| MListen (t : tuple)          (** [progress], [done], [fail] *)
| MAction (t : tuple)          (** [notify], [resolve], [reject] *)
| MActionWith (t : tuple).     (** [notifyWith], [resolveWith], [rejectWith] *)

(** Methods of callback lists. *)
Inductive cmeth :=
| CAdd | CRemove | CHas | CEmpty | CDisable | CDisabled | CLock | CLocked | CFireWith | CFire | CFired.

Inductive fn :=
| FUser (i : nat)                          (** a function of the page *)
| FList (l : nat) (m : cmeth)              (** a method of the list [l] *)
| FDef (d : nat) (m : dmeth)               (** a method of the deferred [d] *)
| FStep (id g depth d : nat) (handler : fn) (special : bool)
                                           (** [resolve(depth, deferred, handler, special)] of the
                                               call [g] of [then] *)
| FPipe (d : nat) (t : tuple) (f : fn)     (** the function [pipe] adds for [f] *)
| FPass (d : nat) (t : tuple)              (** the same without a function *)
| FUpdate (w i : nat)                      (** [updateFunc(i)] of the call [w] of [when] *)
| FIdentity
| FThrower.

(** A list a program made, or one of the six lists of a deferred: the callbacks
    [tuple[2]] and the handlers [tuple[3]]. *)
Inductive lref := LPub (n : nat) | LCb (d : nat) (t : tuple) | LHd (d : nat) (t : tuple).

Inductive entry :=
| EFn (f : fn)
| EState (d : nat) (t : tuple)             (** [state = stateString] *)
| EDisable (l : lref)
| ELock (l : lref)
| EFire (l : lref).

Inductive val :=
| VUndef | VNull | VBool (b : bool) | VStr (s : jstr)
| VTypeError (what : jstr)
| VData (n : nat)                          (** an object without methods *)
| VObj (i : nat)                           (** an object of the page, with its methods *)
| VFn (f : fn)
| VList (vs : list val)                    (** an array or an arguments object *)
| VCallbacks (l : nat)
| VPromise (d : nat)
| VDeferred (d : nat).

#[global] Instance tuple_eq_dec : EqDecision tuple.
Proof. solve_decision. Defined.
#[global] Instance dmeth_eq_dec : EqDecision dmeth.
Proof. solve_decision. Defined.
#[global] Instance cmeth_eq_dec : EqDecision cmeth.
Proof. solve_decision. Defined.
#[global] Instance fn_eq_dec : EqDecision fn.
Proof. intros f g. change ({f = g} + {f <> g}). decide equality; apply (decide_rel eq). Defined.
#[global] Instance lref_eq_dec : EqDecision lref.
Proof. solve_decision. Defined.
#[global] Instance entry_eq_dec : EqDecision entry.
Proof. solve_decision. Defined.

Definition tuple_code (t : tuple) : nat := match t with Notify => 0 | Resolve => 1 | Reject => 2 end.
Definition tuple_decode (n : nat) : tuple := match n with 0 => Notify | 1 => Resolve | _ => Reject end.

#[global] Program Instance lref_countable : Countable lref :=
  inj_countable'
    (fun l => match l with
              | LPub n => inl n
              | LCb d t => inr (true, d, tuple_code t)
              | LHd d t => inr (false, d, tuple_code t)
              end)
    (fun c => match c with
              | inl n => LPub n
              | inr (true, d, t) => LCb d (tuple_decode t)
              | inr (false, d, t) => LHd d (tuple_decode t)
              end) _.
Next Obligation. by intros [n|d []|d []]. Qed.

(** What a program asks of the library. *)
Inductive op :=
| OMethod (v : val) (m : dmeth) (args : list val)
| OList (l : nat) (m : cmeth) (args : list val)
| OCallbacks (options : jstr)
| ODeferred (func : option fn)
| OWhen (args : list val)
| OCall (f : fn) (this : val) (args : list val).

Inductive prog :=
| PRet (v : val)
| PThrow (v : val)
| POp (o : op) (k : val + val -> prog).      (** resumed with the answer or with the exception *)

Definition truthy (v : val) : bool :=
  match v with VUndef | VNull | VBool false | VStr [] => false | _ => true end.

Definition argn (args : list val) (i : nat) : val := default VUndef (args !! i).

(** [isFunction(v)] *)
Definition as_fn (v : val) : option fn := match v with VFn f => Some f | _ => None end.

(** * The world *)

Record cb_options := { once : bool; memory : bool; unique : bool; stopOnFalse : bool }.

(** Context and arguments of an execution; the arguments are an array, or
    whatever was passed in its place. *)
Abbreviation call_data := (val * val)%type.

(** The variables of one [jQuery.Callbacks]; [None] stands for a falsy [memory]
    and for the empty string that replaces a spent [list]. *)
Record cblist := {
  cl_options : cb_options;
  cl_firing : bool;
  cl_memory : option call_data;
  cl_fired : bool;
  cl_locked : bool;
  cl_list : option (list entry);
  cl_queue : list call_data;
  cl_index : Z;
}.

Inductive dstate := pending | resolved | rejected.

#[global] Instance dstate_eq_dec : EqDecision dstate.
Proof. solve_decision. Defined.

(** The variables of one call of [jQuery.when]. *)
Record when_state := {
  wh_remaining : Z;
  wh_contexts : list val;
  wh_values : list val;
  wh_primary : nat;
}.

(** A function given to [setTimeout]: [process] of a step of [then]. *)
Record task := {
  tk_group : nat; tk_depth : nat; tk_deferred : nat; tk_handler : fn; tk_special : bool;
  tk_that : val; tk_args : list val;
}.

Record world := {
  w_lists : gmap lref cblist;
  w_states : gmap nat dstate;         (** [state] of every deferred *)
  w_depths : gmap nat nat;            (** [maxDepth] of every call of [then] *)
  w_whens : gmap nat when_state;
  w_mixins : gmap nat nat;            (** objects of the page that [promise(obj)] extended *)
  w_timers : list task;
  w_next : nat;
  w_calls : list (lref * entry * val * list val);   (** the calls [fire] made, in order *)
}.

Definition world_start : world :=
  {| w_lists := ∅; w_states := ∅; w_depths := ∅; w_whens := ∅; w_mixins := ∅; w_timers := [];
     w_next := 0; w_calls := [] |}.

Definition set_lists (x : gmap lref cblist) (w : world) : world :=
  {| w_lists := x; w_states := w_states w; w_depths := w_depths w; w_whens := w_whens w;
     w_mixins := w_mixins w; w_timers := w_timers w; w_next := w_next w; w_calls := w_calls w |}.
Definition set_states (x : gmap nat dstate) (w : world) : world :=
  {| w_lists := w_lists w; w_states := x; w_depths := w_depths w; w_whens := w_whens w;
     w_mixins := w_mixins w; w_timers := w_timers w; w_next := w_next w; w_calls := w_calls w |}.
Definition set_depths (x : gmap nat nat) (w : world) : world :=
  {| w_lists := w_lists w; w_states := w_states w; w_depths := x; w_whens := w_whens w;
     w_mixins := w_mixins w; w_timers := w_timers w; w_next := w_next w; w_calls := w_calls w |}.
Definition set_whens (x : gmap nat when_state) (w : world) : world :=
  {| w_lists := w_lists w; w_states := w_states w; w_depths := w_depths w; w_whens := x;
     w_mixins := w_mixins w; w_timers := w_timers w; w_next := w_next w; w_calls := w_calls w |}.
Definition set_mixins (x : gmap nat nat) (w : world) : world :=
  {| w_lists := w_lists w; w_states := w_states w; w_depths := w_depths w; w_whens := w_whens w;
     w_mixins := x; w_timers := w_timers w; w_next := w_next w; w_calls := w_calls w |}.
Definition set_timers (x : list task) (w : world) : world :=
  {| w_lists := w_lists w; w_states := w_states w; w_depths := w_depths w; w_whens := w_whens w;
     w_mixins := w_mixins w; w_timers := x; w_next := w_next w; w_calls := w_calls w |}.
Definition set_next (x : nat) (w : world) : world :=
  {| w_lists := w_lists w; w_states := w_states w; w_depths := w_depths w; w_whens := w_whens w;
     w_mixins := w_mixins w; w_timers := w_timers w; w_next := x; w_calls := w_calls w |}.
Definition set_calls (x : list (lref * entry * val * list val)) (w : world) : world :=
  {| w_lists := w_lists w; w_states := w_states w; w_depths := w_depths w; w_whens := w_whens w;
     w_mixins := w_mixins w; w_timers := w_timers w; w_next := w_next w; w_calls := x |}.

Definition set_firing (x : bool) (c : cblist) : cblist :=
  {| cl_options := cl_options c; cl_firing := x; cl_memory := cl_memory c; cl_fired := cl_fired c;
     cl_locked := cl_locked c; cl_list := cl_list c; cl_queue := cl_queue c; cl_index := cl_index c |}.
Definition set_memory (x : option call_data) (c : cblist) : cblist :=
  {| cl_options := cl_options c; cl_firing := cl_firing c; cl_memory := x; cl_fired := cl_fired c;
     cl_locked := cl_locked c; cl_list := cl_list c; cl_queue := cl_queue c; cl_index := cl_index c |}.
Definition set_fired (x : bool) (c : cblist) : cblist :=
  {| cl_options := cl_options c; cl_firing := cl_firing c; cl_memory := cl_memory c; cl_fired := x;
     cl_locked := cl_locked c; cl_list := cl_list c; cl_queue := cl_queue c; cl_index := cl_index c |}.
Definition set_locked (x : bool) (c : cblist) : cblist :=
  {| cl_options := cl_options c; cl_firing := cl_firing c; cl_memory := cl_memory c;
     cl_fired := cl_fired c; cl_locked := x; cl_list := cl_list c; cl_queue := cl_queue c;
     cl_index := cl_index c |}.
Definition set_list (x : option (list entry)) (c : cblist) : cblist :=
  {| cl_options := cl_options c; cl_firing := cl_firing c; cl_memory := cl_memory c;
     cl_fired := cl_fired c; cl_locked := cl_locked c; cl_list := x; cl_queue := cl_queue c;
     cl_index := cl_index c |}.
Definition set_queue (x : list call_data) (c : cblist) : cblist :=
  {| cl_options := cl_options c; cl_firing := cl_firing c; cl_memory := cl_memory c;
     cl_fired := cl_fired c; cl_locked := cl_locked c; cl_list := cl_list c; cl_queue := x;
     cl_index := cl_index c |}.
Definition set_index (x : Z) (c : cblist) : cblist :=
  {| cl_options := cl_options c; cl_firing := cl_firing c; cl_memory := cl_memory c;
     cl_fired := cl_fired c; cl_locked := cl_locked c; cl_list := cl_list c; cl_queue := cl_queue c;
     cl_index := x |}.

(** * Effects *)

Inductive outcome (A : Type) := Done (a : A) | Exc (e : val) | NoFuel.
Arguments Done {A} a.
Arguments Exc {A} e.
Arguments NoFuel {A}.

Definition J (A : Type) : Type := world -> outcome A * world.

#[global] Instance J_ret : MRet J := fun A a w => (Done a, w).
#[global] Instance J_bind : MBind J := fun A B f m w =>
  match m w with
  | (Done a, w') => f a w'
  | (Exc e, w') => (Exc e, w')
  | (NoFuel, w') => (NoFuel, w')
  end.

Definition throw {A} (e : val) : J A := fun w => (Exc e, w).
Definition diverge {A} : J A := fun w => (NoFuel, w).
Definition get_world : J world := fun w => (Done w, w).
Definition modify (f : world -> world) : J unit := fun w => (Done tt, f w).

(** [try m catch (e) h e] *)
Definition try_catch {A} (m : J A) (h : val -> J A) : J A := fun w =>
  match m w with (Exc e, w') => h e w' | r => r end.

Definition type_error (what : string) : val := VTypeError (js what).

Definition fresh : J nat := fun w => (Done (w_next w), set_next (S (w_next w)) w).

(** * Callback lists *)

(** [/[^\x20\t\r\n\f]+/g] *)
Definition is_html_white (c : N) : bool :=
  N.eqb c 32 || N.eqb c 9 || N.eqb c 13 || N.eqb c 10 || N.eqb c 12.

(** [options.match(rnothtmlwhite)] *)
Fixpoint not_white (s : jstr) : list jstr :=
  match s with
  | [] => []
  | c :: s' =>
      if is_html_white c then not_white s'
      else match s' with
           | d :: _ => if is_html_white d then [c] :: not_white s'
                       else match not_white s' with
                            | w :: ws => (c :: w) :: ws
                            | [] => [[c]]
                            end
           | [] => [[c]]
           end
  end.

Definition createOptions (options : jstr) : cb_options :=
  let flag name := bool_decide (js name ∈ not_white options) in
  {| once := flag "once"; memory := flag "memory"; unique := flag "unique";
     stopOnFalse := flag "stopOnFalse" |}.

(** The state of a new list: [jQuery.Callbacks(options)]. *)
Definition new_list (o : cb_options) : cblist :=
  {| cl_options := o; cl_firing := false; cl_memory := None; cl_fired := false; cl_locked := false;
     cl_list := Some []; cl_queue := []; cl_index := -1 |}.

Definition list_of (l : lref) (w : world) : cblist :=
  default (new_list (createOptions [])) (w_lists w !! l).

Definition get_list (l : lref) : J cblist := fun w => (Done (list_of l w), w).
Definition update (l : lref) (f : cblist -> cblist) : J unit :=
  modify (fun w => set_lists (<[l := f (list_of l w)]> (w_lists w)) w).

(** The entries, none for a spent list. *)
Definition entries (c : cblist) : list entry := default [] (cl_list c).

(** The arguments [apply] passes on; it refuses primitive values. *)
Definition apply_args (v : val) : option (list val) :=
  match v with
  | VList vs => Some vs
  | VBool _ | VStr _ => None
  | _ => Some []
  end.

Definition note_call (l : lref) (e : entry) (this : val) (args : list val) : J unit :=
  modify (fun w => set_calls (w_calls w ++ [(l, e, this, args)]) w).

Section callbacks.
Variable rec : entry -> val -> list val -> J val.
Variable n : nat.

(** [list[firingIndex].apply(memory[0], memory[1])] *)
Definition call_entry (l : lref) (e : entry) (c : cblist) : J val :=
  let '(this, args) := default (VUndef, VUndef) (cl_memory c) in
  match apply_args args with
  | Some vs => note_call l e this vs;; rec e this vs
  | None => throw (type_error "CreateListFromArrayLike called on non-object")
  end.

(** [while (++firingIndex < list.length)] *)
Fixpoint fire_list (k : nat) (l : lref) : J unit :=
  match k with
  | O => diverge
  | S k' =>
      update l (fun c => set_index (cl_index c + 1) c);;
      c ← get_list l;
      match entries c !! Z.to_nat (cl_index c) with
      | None => mret tt
      | Some e =>
          r ← call_entry l e c;
          (match r with
           | VBool false =>
               if stopOnFalse (cl_options c)
               then update l (fun c => set_memory None (set_index (Z.of_nat (length (entries c))) c))
               else mret tt
           | _ => mret tt
           end);;
          fire_list k' l
      end
  end.

(** [for (; queue.length; firingIndex = -1)] *)
Fixpoint fire_queue (k : nat) (l : lref) : J unit :=
  match k with
  | O => diverge
  | S k' =>
      c ← get_list l;
      match cl_queue c with
      | [] => mret tt
      | m :: q =>
          update l (fun c => set_memory (Some m) (set_queue q c));;
          fire_list n l;;
          update l (set_index (-1));;
          fire_queue k' l
      end
  end.

(** The inner function [fire]. *)
Definition fire (l : lref) : J unit :=
  update l (fun c => set_firing true (set_fired true
                       (set_locked (cl_locked c || once (cl_options c)) c)));;
  fire_queue n l;;
  update l (fun c =>
    let c1 := if memory (cl_options c) then c else set_memory None c in
    let c2 := set_firing false c1 in
    if cl_locked c2
    then set_list (match cl_memory c2 with Some _ => Some [] | None => None end) c2
    else c2).

(** [self.has(fn)] *)
Definition has (f : option fn) (c : cblist) : bool :=
  match f with
  | Some g => bool_decide (EFn g ∈ entries c)
  | None => negb (Nat.eqb (length (entries c)) 0)
  end.

(** The recursive inner [add] on one argument. *)
Fixpoint add_arg (v : val) (c : cblist) : cblist :=
  match v with
  | VFn f => if negb (unique (cl_options c)) || negb (has (Some f) c)
             then set_list (Some (entries c ++ [EFn f])) c else c
  | VList vs => (fix add_args vs c := match vs with [] => c | x :: vs' => add_args vs' (add_arg x c) end) vs c
  | _ => c
  end.

(** The arguments go through [push]: functions are added as [add_arg] says, the
    internal steps of a deferred, which occur once, as they are. *)
Definition add_with (l : lref) (push : cblist -> cblist) : J unit :=
  c ← get_list l;
  match cl_list c with
  | None => mret tt
  | Some es =>
      let again := match cl_memory c with Some m => negb (cl_firing c) | None => false end in
      update l (fun c => match cl_memory c with
                         | Some m => if again
                                     then set_queue (cl_queue c ++ [m])
                                            (set_index (Z.of_nat (length es) - 1) c)
                                     else c
                         | None => c
                         end);;
      update l push;;
      if again then fire l else mret tt
  end.

Definition add (l : lref) (args : list val) : J unit := add_with l (add_arg (VList args)).

(** [jQuery.inArray(elem, list, from)] *)
Definition in_array (e : entry) (es : list entry) (from : nat) : option nat :=
  match list_find (fun x => x = e) (drop from es) with
  | Some (i, _) => Some (from + i)
  | None => None
  end.

(** The loop of [remove] on one argument; every round shortens the list. *)
Fixpoint remove_loop (k : nat) (e : entry) (from : nat) (es : list entry) (idx : Z) : list entry * Z :=
  match k with
  | O => (es, idx)
  | S k' =>
      match in_array e es from with
      | None => (es, idx)
      | Some i => remove_loop k' e i (take i es ++ drop (S i) es)
                    (if Z.leb (Z.of_nat i) idx then idx - 1 else idx)%Z
      end
  end.

Definition remove_arg (c : cblist) (v : val) : cblist :=
  match v, cl_list c with
  | VFn f, Some es =>
      let '(es', idx') := remove_loop (S (length es)) (EFn f) 0 es (cl_index c) in
      set_index idx' (set_list (Some es') c)
  | _, _ => c
  end.

Definition remove (l : lref) (args : list val) : J unit :=
  update l (fun c => foldl remove_arg c args).

Definition empty (l : lref) : J unit :=
  update l (fun c => match cl_list c with Some _ => set_list (Some []) c | None => c end).

Definition disable (l : lref) : J unit :=
  update l (fun c => set_memory None (set_list None (set_queue [] (set_locked true c)))).

Definition disabled (c : cblist) : bool := bool_decide (cl_list c = None).

Definition lock (l : lref) : J unit :=
  update l (fun c =>
    let c1 := set_queue [] (set_locked true c) in
    match cl_memory c1 with
    | None => if cl_firing c1 then c1 else set_list None c1
    | Some _ => c1
    end).

(** [args || []], copied when it is an array *)
Definition fire_args (args : val) : val := if truthy args then args else VList [].

Definition fireWith (l : lref) (context args : val) : J unit :=
  c ← get_list l;
  if cl_locked c then mret tt else
  update l (fun c => set_queue (cl_queue c ++ [(context, fire_args args)]) c);;
  if cl_firing c then mret tt else fire l.

(** The methods as functions: most answer their [this]. *)
Definition call_list (l : lref) (m : cmeth) (this : val) (args : list val) : J val :=
  match m with
  | CAdd => add l args;; mret this
  | CRemove => remove l args;; mret this
  | CHas => c ← get_list l;
            mret (VBool (match argn args 0 with
                         | VFn f => has (Some f) c
                         | v => if truthy v then false else has None c
                         end))
  | CEmpty => empty l;; mret this
  | CDisable => disable l;; mret this
  | CDisabled => c ← get_list l; mret (VBool (disabled c))
  | CLock => lock l;; mret this
  | CLocked => c ← get_list l; mret (VBool (cl_locked c))
  | CFireWith => fireWith l (argn args 0) (argn args 1);; mret this
  | CFire => fireWith l this (VList args);; mret this
  | CFired => c ← get_list l; mret (VBool (cl_fired c))
  end.

End callbacks.

(** [jQuery.Callbacks(options)] called by a program *)
Definition Callbacks (options : jstr) : J val :=
  l ← fresh;
  update (LPub l) (fun _ => new_list (createOptions options));;
  mret (VCallbacks l).

End JqCallbacks.
