(* ===== verification/JqDeferred.v ===== *)
(** Deferred objects of [jquery.js] ([Identity] to [jQuery.when], lines 3650 to
    4035), and the interpreter that ties the callback lists, the deferreds and
    the code of the page together.

    [user] is the code of the functions of the page and [obj_method] the methods
    of its objects.  [call] runs a function with fuel for the depth of nested
    calls; the event loop runs programs and the timers that [then] sets. *)

From S2P Require Import Prelude JqCallbacks.
Import JqCallbacks.

Module JqDeferred.

Section deferred.
Variable user : nat -> val -> list val -> prog.
Variable obj_method : nat -> dmeth -> option fn.

(** * Deferred *)

Section methods.
Variable rec : entry -> val -> list val -> J val.
Variable n : nat.

Definition state_of (d : nat) (w : world) : dstate := default pending (w_states w !! d).

(** The final state of a row. *)
Definition final (t : tuple) : dstate :=
  match t with Notify => pending | Resolve => resolved | Reject => rejected end.

(** [tuples[3 - i]] *)
Definition opposite (t : tuple) : tuple :=
  match t with Notify => Notify | Resolve => Reject | Reject => Resolve end.

Definition list_options (t : tuple) : cb_options :=
  createOptions (match t with Notify => js "memory" | _ => js "once memory" end).

(** The functions that settle a deferred. *)
Definition settling (d : nat) (t : tuple) : list entry :=
  match t with
  | Notify => []
  | _ => [EState d t; EDisable (LCb d (opposite t)); EDisable (LHd d (opposite t));
          ELock (LCb d Notify); ELock (LHd d Notify)]
  end.

Definition push_entries (es : list entry) (c : cblist) : cblist := set_list (Some (entries c ++ es)) c.

(** The two new lists of a row. *)
Definition new_tuple (d : nat) (t : tuple) : J unit :=
  update (LCb d t) (fun _ => new_list (list_options t));;
  update (LHd d t) (fun _ => new_list (list_options t)).

Definition init_tuple (d : nat) (t : tuple) : J unit :=
  (if bool_decide (t = Notify) then mret tt
   else add_with rec n (LCb d t) (push_entries (settling d t)));;
  add_with rec n (LCb d t) (push_entries [EFire (LHd d t)]).

Definition new_deferred : J nat :=
  d ← fresh;
  new_tuple d Notify;; new_tuple d Resolve;; new_tuple d Reject;;
  modify (fun w => set_states (<[d := pending]> (w_states w)) w);;
  init_tuple d Notify;; init_tuple d Resolve;; init_tuple d Reject;;
  mret d.

(** [jQuery.Deferred(func)] *)
Definition Deferred (func : option fn) : J val :=
  d ← new_deferred;
  (match func with
   | Some f => rec (EFn f) (VDeferred d) [VDeferred d];; mret tt
   | None => mret tt
   end);;
  mret (VDeferred d).

(** ** Methods of values *)

Definition promise_method (d : nat) (m : dmeth) : option fn :=
  match m with MAction _ | MActionWith _ => None | _ => Some (FDef d m) end.

(** The function [v[m]], if it is one. *)
Definition method_of (v : val) (m : dmeth) : J (option fn) := fun w =>
  (Done (match v with
         | VDeferred d => Some (FDef d m)
         | VPromise d => promise_method d m
         | VObj i => match w_mixins w !! i with
                     | Some d => match promise_method d m with Some f => Some f | None => obj_method i m end
                     | None => obj_method i m
                     end
         | _ => None
         end), w).

(** [v[m](...args)] *)
Definition invoke (v : val) (m : dmeth) (args : list val) : J val :=
  f ← method_of v m;
  match f with
  | Some g => rec (EFn g) v args
  | None => throw (type_error "not a function")
  end.

(** ** then *)

Definition max_depth (g : nat) : J nat := fun w => (Done (default 0 (w_depths w !! g)), w).

(** [resolve(depth, deferred, handler, special)]: a new function *)
Definition resolve (g depth d : nat) (handler : fn) (special : bool) : J val :=
  id ← fresh; mret (VFn (FStep id g depth d handler special)).

Definition mightThrow (g depth d : nat) (handler : fn) (special : bool) (that : val) (args : list val)
  : J unit :=
  maxDepth ← max_depth g;
  if Nat.ltb depth maxDepth then mret tt else
  returned ← rec (EFn handler) that args;
  if (match returned with VPromise p => Nat.eqb p d | _ => false end)
  then throw (type_error "Thenable self-resolution") else
  then_ ← method_of returned MThen;
  match then_ with
  | Some f =>
      if special then
        maxDepth ← max_depth g;
        a ← resolve g maxDepth d FIdentity special;
        b ← resolve g maxDepth d FThrower special;
        rec (EFn f) returned [a; b];; mret tt
      else
        modify (fun w => set_depths (<[g := S (default 0 (w_depths w !! g))]> (w_depths w)) w);;
        maxDepth ← max_depth g;
        a ← resolve g maxDepth d FIdentity special;
        b ← resolve g maxDepth d FThrower special;
        c ← resolve g maxDepth d FIdentity true;
        rec (EFn f) returned [a; b; c];; mret tt
  | None =>
      let '(that, args) := if bool_decide (handler = FIdentity) then (that, args)
                           else (VUndef, [returned]) in
      fireWith rec n (LCb d (if special then Notify else Resolve)) that (VList args)
  end.

Definition process (g depth d : nat) (handler : fn) (special : bool) (that : val) (args : list val)
  : J unit :=
  if special then mightThrow g depth d handler special that args
  else
    try_catch (mightThrow g depth d handler special that args) (fun e =>
      maxDepth ← max_depth g;
      if Nat.leb maxDepth (depth + 1) then
        let '(that, args) := if bool_decide (handler = FThrower) then (that, args) else (VUndef, [e]) in
        fireWith rec n (LCb d Reject) that (VList args)
      else mret tt).

(** A call of the function [resolve] returned. *)
Definition call_step (g depth d : nat) (handler : fn) (special : bool) (that : val) (args : list val)
  : J unit :=
  if Nat.eqb depth 0 then
    modify (fun w => set_timers (w_timers w ++
      [{| tk_group := g; tk_depth := depth; tk_deferred := d; tk_handler := handler;
          tk_special := special; tk_that := that; tk_args := args |}]) w)
  else process g depth d handler special that args.

Definition handler_or (v : val) (f : fn) : fn := default f (as_fn v).

Definition add_handler (d : nat) (t : tuple) (g newDefer : nat) (handler : fn) : J unit :=
  f ← resolve g 0 newDefer handler (bool_decide (t = Notify));
  add rec n (LHd d t) [f].

Definition then_ (d : nat) (onFulfilled onRejected onProgress : val) : J val :=
  g ← fresh;
  modify (fun w => set_depths (<[g := 0]> (w_depths w)) w);;
  newDefer ← new_deferred;
  add_handler d Notify g newDefer (handler_or onProgress FIdentity);;
  add_handler d Resolve g newDefer (handler_or onFulfilled FIdentity);;
  add_handler d Reject g newDefer (handler_or onRejected FThrower);;
  mret (VPromise newDefer).

(** ** pipe *)

(** [tuple[4]]: the place of the function among the arguments *)
Definition arg_index (t : tuple) : nat := match t with Notify => 2 | Resolve => 0 | Reject => 1 end.

Definition pipe_tuple (d newDefer : nat) (fns : list val) (t : tuple) : J unit :=
  add rec n (LCb d t)
    [VFn (match as_fn (argn fns (arg_index t)) with
          | Some f => FPipe newDefer t f
          | None => FPass newDefer t
          end)].

Definition pipe (d : nat) (fns : list val) : J val :=
  newDefer ← new_deferred;
  pipe_tuple d newDefer fns Notify;;
  pipe_tuple d newDefer fns Resolve;;
  pipe_tuple d newDefer fns Reject;;
  mret (VPromise newDefer).

(** The function [pipe] adds for a row. *)
Definition call_pipe (d : nat) (t : tuple) (f : fn) (this : val) (args : list val) : J unit :=
  returned ← rec (EFn f) this args;
  p ← method_of returned MPromise;
  match p with
  | Some g =>
      r0 ← rec (EFn g) returned [];
      r1 ← invoke r0 (MListen Notify) [VFn (FDef d (MAction Notify))];
      r2 ← invoke r1 (MListen Resolve) [VFn (FDef d (MAction Resolve))];
      invoke r2 (MListen Reject) [VFn (FDef d (MAction Reject))];;
      mret tt
  | None => fireWith rec n (LCb d t) this (VList [returned])
  end.

(** ** The methods of a deferred *)

Definition state_str (s : dstate) : jstr :=
  match s with pending => js "pending" | resolved => js "resolved" | rejected => js "rejected" end.

Definition call_method (d : nat) (m : dmeth) (this : val) (args : list val) : J val :=
  match m with
  | MState => w ← get_world; mret (VStr (state_str (state_of d w)))
  | MAlways => add rec n (LCb d Resolve) [VList args];; add rec n (LCb d Reject) [VList args];; mret this
  | MCatch => then_ d VNull (argn args 0) VUndef
  | MPipe => pipe d args
  | MThen => then_ d (argn args 0) (argn args 1) (argn args 2)
  | MPromise =>
      match argn args 0 with
      | VUndef | VNull => mret (VPromise d)
      | VObj i => modify (fun w => set_mixins (<[i := d]> (w_mixins w)) w);; mret (VObj i)
      | v => mret v
      end
  | MListen t => add rec n (LCb d t) args;; mret this
  | MAction t =>
      let context := match this with VDeferred e => if Nat.eqb e d then VUndef else this | _ => this end in
      fireWith rec n (LCb d t) context (VList args);; mret this
  | MActionWith t => fireWith rec n (LCb d t) (argn args 0) (argn args 1);; mret this
  end.

(** * when *)

(** [array[i] = v], which may extend the array *)
Definition set_at (i : nat) (v : val) (vs : list val) : list val :=
  <[i := v]> (vs ++ replicate (S i - length vs) VUndef).

Definition set_when (w : nat) (x : when_state) : J unit :=
  modify (fun s => set_whens (<[w := x]> (w_whens s)) s).

Definition get_when (w : nat) : J (option when_state) := fun s => (Done (w_whens s !! w), s).

(** A call of [updateFunc(i)]. *)
Definition call_update (w i : nat) (this : val) (args : list val) : J unit :=
  o ← get_when w;
  match o with
  | None => mret tt
  | Some x =>
      let contexts := set_at i this (wh_contexts x) in
      let values := set_at i (if Nat.ltb 1 (length args) then VList args else argn args 0) (wh_values x) in
      let remaining := (wh_remaining x - 1)%Z in
      set_when w {| wh_remaining := remaining; wh_contexts := contexts; wh_values := values;
                    wh_primary := wh_primary x |};;
      if Z.eqb remaining 0
      then fireWith rec n (LCb (wh_primary x) Resolve) (VList contexts) (VList values)
      else mret tt
  end.

Definition adoptValue (v : val) (resolve reject : fn) (noValue : bool) : J unit :=
  try_catch
    (p ← method_of v MPromise;
     match p with
     | Some f =>
         r ← rec (EFn f) v [];
         r1 ← invoke r (MListen Resolve) [VFn resolve];
         invoke r1 (MListen Reject) [VFn reject];; mret tt
     | None =>
         t ← method_of v MThen;
         match t with
         | Some f => rec (EFn f) v [VFn resolve; VFn reject];; mret tt
         | None => rec (EFn resolve) VUndef (if noValue then [] else [v]);; mret tt
         end
     end)
    (fun e => rec (EFn reject) VUndef [e];; mret tt).

(** [while (i--)] *)
Fixpoint when_loop (w primary i : nat) : J unit :=
  match i with
  | O => mret tt
  | S i' =>
      o ← get_when w;
      let v := match o with Some x => argn (wh_values x) i' | None => VUndef end in
      adoptValue v (FUpdate w i') (FDef primary (MAction Reject)) false;;
      when_loop w primary i'
  end.

(** A single argument is adopted at once; the answer is the promise to return
    when it is not settled yet or still a thenable. *)
Definition when_single (w primary : nat) (args : list val) : J (option val) :=
  let i := length args in
  add rec n (LCb primary Resolve) [VFn (FUpdate w i)];;
  adoptValue (argn args 0) (FDef primary (MAction Resolve)) (FDef primary (MAction Reject))
    (Nat.eqb i 0);;
  s ← get_world;
  o ← get_when w;
  t ← method_of (match o with Some x => argn (wh_values x) i | None => VUndef end) MThen;
  if bool_decide (state_of primary s = pending) || bool_decide (is_Some t)
  then p ← then_ primary VUndef VUndef VUndef; mret (Some p)
  else mret None.

Definition when (args : list val) : J val :=
  primary ← new_deferred;
  w ← fresh;
  set_when w {| wh_remaining := Z.of_nat (length args); wh_contexts := replicate (length args) VUndef;
                wh_values := args; wh_primary := primary |};;
  early ← (if Nat.leb (length args) 1 then when_single w primary args else mret None);
  match early with
  | Some p => mret p
  | None => when_loop w primary (length args);; mret (VPromise primary)
  end.

(** * Calls *)

(** Programs only name objects that exist. *)
Definition known (f : fn) (w : world) : bool :=
  match f with
  | FDef d _ | FStep _ _ _ d _ _ | FPipe d _ _ | FPass d _ => bool_decide (is_Some (w_states w !! d))
  | _ => true
  end.

Definition run_op (o : op) : J val :=
  match o with
  | OMethod v m args => invoke v m args
  | OList l m args => rec (EFn (FList l m)) (VCallbacks l) args
  | OCallbacks options => Callbacks options
  | ODeferred func => Deferred func
  | OWhen args => when args
  | OCall f this args => rec (EFn f) this args
  end.

Fixpoint run (p : prog) : J val :=
  match p with
  | PRet v => mret v
  | PThrow v => throw v
  | POp o k =>
      r ← try_catch (v ← run_op o; mret (inl v)) (fun e => mret (inr e));
      run (k r)
  end.

Definition call_fn (f : fn) (this : val) (args : list val) : J val :=
  w ← get_world;
  if negb (known f w) then throw (type_error "no such object") else
  match f with
  | FUser i => run (user i this args)
  | FList l m => call_list rec n (LPub l) m this args
  | FDef d m => call_method d m this args
  | FStep _ g depth d handler special => call_step g depth d handler special this args;; mret VUndef
  | FPipe d t f => call_pipe d t f this args;; mret VUndef
  | FPass d t => fireWith rec n (LCb d t) this (VList args);; mret VUndef
  | FUpdate w i => call_update w i this args;; mret VUndef
  | FIdentity => mret (argn args 0)
  | FThrower => throw (argn args 0)
  end.

Definition call_body (e : entry) (this : val) (args : list val) : J val :=
  match e with
  | EFn f => call_fn f this args
  | EState d t => modify (fun w => set_states (<[d := final t]> (w_states w)) w);; mret VUndef
  | EDisable l => disable l;; mret this
  | ELock l => lock l;; mret this
  | EFire l => fireWith rec n l this (VList args);; mret this
  end.

End methods.

Fixpoint call (fuel : nat) : entry -> val -> list val -> J val :=
  match fuel with
  | O => fun _ _ _ => diverge
  | S n => call_body (call n) n
  end.

(** * The event loop *)

Inductive event :=
| EvRun (p : prog)     (** a script or an event handler of the page *)
| EvTimer.             (** the first timer that is due *)

Definition run_event (fuel : nat) (ev : event) : J unit :=
  match ev with
  | EvRun p => run (call fuel) fuel p;; mret tt
  | EvTimer =>
      w ← get_world;
      match w_timers w with
      | [] => mret tt
      | t :: ts =>
          modify (set_timers ts);;
          process (call fuel) fuel (tk_group t) (tk_depth t) (tk_deferred t) (tk_handler t)
            (tk_special t) (tk_that t) (tk_args t)
      end
  end.

(** Uncaught exceptions end their event only; [None] when the fuel is too small. *)
Fixpoint run_events (fuel : nat) (evs : list event) (w : world) : option world :=
  match evs with
  | [] => Some w
  | ev :: evs' =>
      match run_event fuel ev w with
      | (NoFuel, _) => None
      | (_, w') => run_events fuel evs' w'
      end
  end.

End deferred.
End JqDeferred.
