(* ===== verification/JqSettle.v ===== *)
(** The deferreds of [jquery.js] settle at most once, whatever the callbacks do.

    The invariant describes the two sides (resolve and reject) of every deferred:
    while it is pending both lists of callbacks are untouched, or jammed by an
    exception at their first call; once it is settled the list of its side is
    locked and the lists of the other side are spent.  It is shown for every
    function, with induction on the fuel, and for every run of the event loop. *)

From S2P Require Import Prelude JqCallbacks JqDeferred.
Import JqCallbacks JqDeferred.

Module JqSettle.

(** * Updates of one list *)

Definition upd (l : lref) (f : cblist -> cblist) (w : world) : world :=
  set_lists (<[l := f (list_of l w)]> (w_lists w)) w.

Lemma update_eq l f w : update l f w = (Done tt, upd l f w).
Proof. done. Qed.

Lemma list_of_upd l f w : list_of l (upd l f w) = f (list_of l w).
Proof. unfold list_of, upd. cbn. by rewrite lookup_insert_eq. Qed.

Lemma list_of_upd_ne l l' f w : l <> l' -> list_of l' (upd l f w) = list_of l' w.
Proof. intros. unfold list_of, upd. cbn. by rewrite lookup_insert_ne. Qed.

Lemma upd_upd l f g w : upd l f (upd l g w) = upd l (fun c => f (g c)) w.
Proof.
  unfold upd at 1. rewrite list_of_upd. unfold upd, set_lists. cbn. by rewrite insert_insert_eq.
Qed.

Lemma upd_ext l f g w : f (list_of l w) = g (list_of l w) -> upd l f w = upd l g w.
Proof. unfold upd. by intros ->. Qed.

(** * The invariant *)

Definition is_fn (e : entry) : Prop := match e with EFn _ => True | _ => False end.

(** The lists whose entries may be called at any time. *)
Definition plain_ref (l : lref) : Prop := match l with LCb _ t => t = Notify | _ => True end.

#[global] Instance plain_ref_dec l : Decision (plain_ref l).
Proof. destruct l; apply _. Defined.

Definition plain_entry (l : lref) (e : entry) : Prop :=
  is_fn e \/ exists d, l = LCb d Notify /\ e = EFire (LHd d Notify).

Definition late (d : nat) (t : tuple) (e : entry) : Prop := is_fn e \/ e = EFire (LHd d t).

(** The list of callbacks of a side before its deferred is settled. *)
Record untouched (d : nat) (t : tuple) (c : cblist) : Prop := {
  un_options : cl_options c = list_options t;
  un_locked : cl_locked c = false;
  un_firing : cl_firing c = false;
  un_memory : cl_memory c = None;
  un_queue : cl_queue c = [];
  un_index : cl_index c = (-1)%Z;
  un_list : exists us, cl_list c = Some (settling d t ++ EFire (LHd d t) :: us) /\ Forall is_fn us;
}.

Definition jammed (c : cblist) : Prop := cl_locked c = true /\ cl_firing c = true.

Definition quiet (c : cblist) : Prop := cl_memory c = None /\ cl_firing c = false /\ cl_queue c = [].

Definition spent (c : cblist) : Prop := cl_list c = None /\ cl_locked c = true.

(** The list of callbacks of the side a deferred was settled to. *)
Record settled (d : nat) (t : tuple) (c : cblist) : Prop := {
  se_options : cl_options c = list_options t;
  se_locked : cl_locked c = true;
  se_queue : cl_queue c = [];
  se_index : (-1 <= cl_index c)%Z;
  se_entries : Forall (if cl_firing c then late d t else is_fn)
                 (if cl_firing c then drop (Z.to_nat (cl_index c + 1)) (entries c) else entries c);
}.

Definition side_ok (w : world) (d : nat) (st : dstate) (t : tuple) : Prop :=
  if decide (st = pending) then
    (untouched d t (list_of (LCb d t) w) \/ jammed (list_of (LCb d t) w)) /\ quiet (list_of (LHd d t) w)
  else if decide (st = final t) then settled d t (list_of (LCb d t) w)
  else spent (list_of (LCb d t) w) /\ quiet (list_of (LHd d t) w).

Definition owner (l : lref) : option (nat * tuple) :=
  match l with LPub _ => None | LCb d t | LHd d t => Some (d, t) end.

(** The calls of the lists of a side are justified by the state. *)
Definition calls_ok (w : world) (d : nat) : Prop :=
  forall l e this args t, (l, e, this, args) ∈ w_calls w -> owner l = Some (d, t) -> t <> Notify ->
    w_states w !! d = Some (final t).

(** Everything but the deferred [d], or all of it. *)
Record inv_but (x : option nat) (w : world) : Prop := {
  inv_plain : forall l, plain_ref l -> Forall (plain_entry l) (entries (list_of l w));
  inv_sides : forall d st t, x <> Some d -> w_states w !! d = Some st -> t <> Notify -> side_ok w d st t;
  inv_calls : forall d, x <> Some d -> calls_ok w d;
  inv_next : forall d, is_Some (w_states w !! d) -> d < w_next w;
  inv_when : forall i s, w_whens w !! i = Some s -> is_Some (w_states w !! wh_primary s);
  inv_timers : Forall (fun t => is_Some (w_states w !! tk_deferred t)) (w_timers w);
}.

Abbreviation inv := (inv_but None).

(** What never changes back: settled states, and, apart from the list [x], a list
    that is firing keeps firing until its own call ends. *)
Record ord_but (x : option lref) (w w' : world) : Prop := {
  ord_states : forall d st, w_states w !! d = Some st ->
    exists st', w_states w' !! d = Some st' /\ (st <> pending -> st' = st);
  ord_firing : forall d t, is_Some (w_states w !! d) -> t <> Notify -> x <> Some (LCb d t) ->
    cl_firing (list_of (LCb d t) w) = true -> cl_firing (list_of (LCb d t) w') = true;
}.

Abbreviation ord := (ord_but None).

Lemma ord_alloc x w w' d : ord_but x w w' -> is_Some (w_states w !! d) -> is_Some (w_states w' !! d).
Proof. intros O [st E]. destruct (ord_states _ _ _ O _ _ E) as (st' & -> & _). by eexists. Qed.

#[global] Instance ord_refl x : Reflexive (ord_but x).
Proof. intros w. split; [naive_solver|done]. Qed.

#[global] Instance ord_trans x : Transitive (ord_but x).
Proof.
  intros w1 w2 w3 A B. split.
  - intros d st E. destruct (ord_states _ _ _ A _ _ E) as (st2 & E2 & K2).
    destruct (ord_states _ _ _ B _ _ E2) as (st3 & E3 & K3).
    exists st3. split; [done|]. intros N. rewrite <- (K2 N). apply K3. by rewrite (K2 N).
  - intros d t Al N X F. eapply ord_firing; eauto using ord_alloc, ord_firing.
Qed.

Lemma ord_weaken x w w' : ord w w' -> ord_but x w w'.
Proof. intros [A B]. split; eauto. Qed.

Lemma ord_strengthen l w w' : cl_firing (list_of l w) = false -> ord_but (Some l) w w' -> ord w w'.
Proof.
  intros F [A B]. split; [done|]. intros d t Al N _ G. apply B; [done..| |done].
  intros [= ->]. congruence.
Qed.

(** A list may only fire when the state of its deferred allows it. *)
Definition live (l : lref) (w : world) : Prop :=
  forall d t, owner l = Some (d, t) -> t <> Notify -> w_states w !! d = Some (final t).

Lemma live_ord l x w w' : ord_but x w w' -> live l w -> live l w'.
Proof.
  intros O L d t E N. specialize (L d t E N). destruct (ord_states _ _ _ O _ _ L) as (st' & Es & K).
  rewrite Es. f_equal. apply K. by destruct t.
Qed.

(** ** Preservation by updates *)

Lemma side_ok_ext w w' d st t :
  list_of (LCb d t) w' = list_of (LCb d t) w -> list_of (LHd d t) w' = list_of (LHd d t) w ->
  side_ok w d st t -> side_ok w' d st t.
Proof. unfold side_ok. by intros -> ->. Qed.

Lemma final_ne t : t <> Notify -> final t <> pending.
Proof. by destruct t. Qed.

Lemma ord_upd x l f w :
  (cl_firing (list_of l w) = true -> cl_firing (f (list_of l w)) = true) \/ x = Some l ->
  ord_but x w (upd l f w).
Proof.
  intros K. split; [naive_solver|]. intros d t _ _ X F.
  destruct (decide (l = LCb d t)) as [->|N]; [|by rewrite list_of_upd_ne].
  rewrite list_of_upd. naive_solver.
Qed.

Lemma inv_upd_plain x l f w :
  inv_but x w -> plain_ref l ->
  live l w \/ (quiet (list_of l w) -> quiet (f (list_of l w))) ->
  Forall (plain_entry l) (entries (f (list_of l w))) -> inv_but x (upd l f w).
Proof.
  intros I P Q E. destruct I as [I1 I2 I3 I4 I5 I6]. split; [| |exact I3|exact I4|exact I5|exact I6].
  - intros l' P'. destruct (decide (l = l')) as [<-|N].
    + by rewrite list_of_upd.
    + rewrite list_of_upd_ne by done. by apply I1.
  - intros d st t X S N. specialize (I2 d st t X S N).
    assert (Hcb : list_of (LCb d t) (upd l f w) = list_of (LCb d t) w).
    { apply list_of_upd_ne. by intros ->. }
    destruct (decide (l = LHd d t)) as [->|N2];
      [|eapply side_ok_ext; [exact Hcb| |exact I2]; by apply list_of_upd_ne].
    unfold side_ok in *. rewrite Hcb, list_of_upd. cbn in S.
    assert (L : live (LHd d t) w -> st = final t).
    { intros L. specialize (L d t eq_refl N). congruence. }
    assert (F := final_ne t N).
    repeat case_decide; [|done|]; (split; [by apply I2|]); destruct Q as [Q|Q]; try (by apply L in Q; congruence);
      by apply Q, I2.
Qed.

Lemma inv_upd_side x d t f w :
  inv_but x w -> t <> Notify -> 
  (forall st, x <> Some d -> w_states w !! d = Some st -> side_ok (upd (LCb d t) f w) d st t) ->
  inv_but x (upd (LCb d t) f w).
Proof.
  intros I N K. destruct I as [I1 I2 I3 I4 I5 I6]. split; [| |exact I3|exact I4|exact I5|exact I6].
  - intros l P. rewrite list_of_upd_ne by (by intros <-). by apply I1.
  - intros d' st t' X S N'. destruct (decide (LCb d t = LCb d' t')) as [[= -> ->]|N2]; [by apply K|].
    eapply side_ok_ext; [by apply list_of_upd_ne|by apply list_of_upd_ne|by apply I2].
Qed.

(** Changes of the other components. *)
Definition same_core (w w' : world) : Prop :=
  w_lists w' = w_lists w /\ w_states w' = w_states w /\ w_calls w' = w_calls w.

Lemma inv_same_core x w w' :
  same_core w w' -> w_next w <= w_next w' ->
  (forall i s, w_whens w' !! i = Some s -> is_Some (w_states w !! wh_primary s)) ->
  Forall (fun t => is_Some (w_states w !! tk_deferred t)) (w_timers w') ->
  inv_but x w -> inv_but x w' /\ ord w w'.
Proof.
  intros (El & Es & Ec) Hn Hw Ht I.
  assert (L : forall l, list_of l w' = list_of l w) by (intros l; unfold list_of; by rewrite El).
  split; [|split; [rewrite Es; naive_solver|intros; by rewrite L]].
  destruct I as [I1 I2 I3 I4 I5 I6]. split; rewrite ?Es; try done.
  - intros l P. rewrite L. by apply I1.
  - intros d st t X S N. eapply side_ok_ext; [apply L..|by apply I2].
  - intros d X l e this args t. rewrite Ec. intros. rewrite Es. by eapply I3.
  - intros d A. specialize (I4 d A). lia.
Qed.

Definition noted (l : lref) (e : entry) (this : val) (args : list val) (w : world) : world :=
  set_calls (w_calls w ++ [(l, e, this, args)]) w.

Lemma inv_noted x l e this args w :
  (forall d t, owner l = Some (d, t) -> t <> Notify -> x <> Some d -> w_states w !! d = Some (final t)) ->
  inv_but x w -> inv_but x (noted l e this args w).
Proof.
  intros L [I1 I2 I3 I4 I5 I6]. split; try done.
  intros d X l' e' this' args' t Hin O N. cbn in Hin |- *.
  apply elem_of_app in Hin as [Hin|Hin%list_elem_of_singleton]; [by eapply I3|].
  simplify_eq. eauto.
Qed.

Lemma ord_noted x l e this args w : ord_but x w (noted l e this args w).
Proof. split; [naive_solver|done]. Qed.

(** * Computations that keep the invariant *)

Definition good {A} (w : world) (m : J A) : Prop :=
  forall r w', m w = (r, w') -> r <> NoFuel -> inv w' /\ ord w w'.

Lemma good_ret {A} w (a : A) : inv w -> good w (mret a).
Proof. intros I r w' [= <- <-] _. by split. Qed.

Lemma good_throw {A} w e : inv w -> good w (@throw A e).
Proof. intros I r w' [= <- <-] _. by split. Qed.

Lemma good_diverge {A} w : good w (@diverge A).
Proof. by intros r w' [= <- <-]. Qed.

Lemma good_bind {A B} w (m : J A) (k : A -> J B) :
  good w m -> (forall a w', m w = (Done a, w') -> inv w' -> ord w w' -> good w' (k a)) ->
  good w (m ≫= k).
Proof.
  intros G K r w' E N. unfold mbind, J_bind in E. destruct (m w) as [[a|e|] w1] eqn:Em; [| |congruence].
  - destruct (G _ _ Em) as [I1 O1]; [done|]. destruct (K a w1 eq_refl I1 O1 _ _ E N) as [I2 O2].
    split; [done|]. by etrans.
  - simplify_eq. by apply (G _ _ Em).
Qed.

(** A computation that only reads. *)
Lemma good_read {A B} w (m : J A) (k : A -> J B) a :
  m w = (Done a, w) -> good w (k a) -> good w (m ≫= k).
Proof. intros E G r w' Er N. unfold mbind, J_bind in Er. rewrite E in Er. exact (G _ _ Er N). Qed.

(** A computation that has one known result. *)
Lemma good_run {A B} w w1 (m : J A) (k : A -> J B) a :
  m w = (Done a, w1) -> ord w w1 -> good w1 (k a) -> good w (m ≫= k).
Proof.
  intros E O G r w' Er N. unfold mbind, J_bind in Er. rewrite E in Er.
  destruct (G _ _ Er N) as [I' O']. split; [done|]. by etrans.
Qed.

Lemma good_done {A} w w1 (m : J A) a : m w = (Done a, w1) -> inv w1 -> ord w w1 -> good w m.
Proof. intros E I O r w' Er _. rewrite E in Er. by simplify_eq. Qed.

Lemma good_try {A} w (m : J A) h :
  good w m -> (forall e w', m w = (Exc e, w') -> inv w' -> ord w w' -> good w' (h e)) ->
  good w (try_catch m h).
Proof.
  intros G K r w' E N. unfold try_catch in E. destruct (m w) as [[a|e|] w1] eqn:Em.
  - simplify_eq. by apply (G _ _ Em).
  - destruct (G _ _ Em) as [I1 O1]; [done|]. destruct (K e w1 eq_refl I1 O1 _ _ E N) as [I2 O2].
    split; [done|]. by etrans.
  - by simplify_eq.
Qed.

Lemma ord_upd_plain x l f w : plain_ref l -> ord_but x w (upd l f w).
Proof.
  intros P. split; [naive_solver|]. intros d t _ N _ F. rewrite list_of_upd_ne; [done|]. by intros ->.
Qed.

Lemma good_upd_plain w l f :
  inv w -> plain_ref l -> live l w \/ (quiet (list_of l w) -> quiet (f (list_of l w))) ->
  Forall (plain_entry l) (entries (f (list_of l w))) -> good w (update l f).
Proof.
  intros I P Q E. eapply good_done; [apply update_eq|by apply inv_upd_plain|by apply ord_upd_plain].
Qed.

(** The rest of a computation after an update of a list. *)
Lemma good_upd_then {B} w l f (k : unit -> J B) :
  inv w -> plain_ref l -> live l w \/ (quiet (list_of l w) -> quiet (f (list_of l w))) ->
  Forall (plain_entry l) (entries (f (list_of l w))) ->
  (inv (upd l f w) -> ord w (upd l f w) -> good (upd l f w) (k tt)) ->
  good w (update l f ≫= k).
Proof.
  intros I P Q E K. assert (O : ord w (upd l f w)) by by apply ord_upd_plain.
  eapply good_run; [apply update_eq|done|]. apply K; [by apply inv_upd_plain|done].
Qed.

(** Additions of functions. *)
Definition extends (push : cblist -> cblist) : Prop :=
  forall c es, cl_list c = Some es ->
    exists us, push c = set_list (Some (es ++ us)) c /\ Forall is_fn us.

Lemma set_list_same c es : cl_list c = Some es -> set_list (Some es) c = c.
Proof. destruct c. cbn. by intros ->. Qed.

Lemma add_arg_extends : forall v, extends (add_arg v).
Proof.
  fix IH 1. intros v c es E.
  assert (Hsame : exists us, c = set_list (Some (es ++ us)) c /\ Forall is_fn us).
  { exists []. rewrite app_nil_r. split; [by rewrite set_list_same|done]. }
  destruct v as [| | | | | | |f|vs| | |]; try exact Hsame.
  - cbn. case_match; [|exact Hsame]. exists [EFn f]. unfold entries. rewrite E. cbn. split; [done|].
    by repeat constructor.
  - cbn. clear Hsame. revert c es E. induction vs as [|v vs IHvs]; intros c es E.
    + exists []. rewrite app_nil_r. split; [by rewrite set_list_same|done].
    + destruct (IH v c es E) as (us & -> & F).
      destruct (IHvs (set_list (Some (es ++ us)) c) (es ++ us) eq_refl) as (us' & -> & F').
      exists (us ++ us'). split; [by rewrite app_assoc|by apply Forall_app].
Qed.

(** * Firing *)

Section firing.
Variable user : nat -> val -> list val -> prog.
Variable obj_method : nat -> dmeth -> option fn.
Variable n : nat.
Abbreviation rec := (call user obj_method n).
Hypothesis rec_fn : forall f this args w, inv w -> good w (rec (EFn f) this args).
Hypothesis rec_fire : forall d t this args w,
  inv w -> live (LHd d t) w -> good w (rec (EFire (LHd d t)) this args).

Lemma live_notify d : forall w, live (LHd d Notify) w.
Proof. by intros w d' t [= -> <-]. Qed.

Lemma good_call_entry l e c w :
  inv w -> live l w ->
  (forall this args w', inv w' -> ord w w' -> good w' (rec e this args)) ->
  good w (call_entry rec l e c).
Proof.
  intros I L K. unfold call_entry. destruct (default _ _) as [this args].
  destruct (apply_args args) as [vs|]; [|by apply good_throw].
  eapply good_run; [reflexivity|apply ord_noted|]. apply K; [|apply ord_noted].
  apply inv_noted; [|done]. eauto.
Qed.

Lemma fire_list_plain k l w :
  plain_ref l -> inv w -> live l w -> good w (fire_list rec k l).
Proof.
  intros P. revert w. induction k as [|k IH]; intros w I L; [apply good_diverge|]. cbn [fire_list].
  assert (E := inv_plain _ _ I l P).
  apply good_upd_then; [done..|by left|done|]. clear I. intros I O.
  eapply good_read; [reflexivity|]. rewrite list_of_upd.
  destruct (_ !! _) as [e|] eqn:Ee; [|by apply good_ret].
  assert (L1 := live_ord _ _ _ _ O L).
  assert (He : plain_entry l e).
  { rewrite Forall_lookup in E. eapply E. exact Ee. }
  apply good_bind.
  - apply good_call_entry; [done..|]. intros this args w' I' O'.
    destruct He as [F|(d & -> & ->)]; [destruct e; try done; by apply rec_fn|].
    apply rec_fire; [done|]. apply live_notify.
  - intros r w' _ I' O'. assert (L' := live_ord _ _ _ _ O' L1).
    apply good_bind; [|intros; apply IH; eauto using live_ord].
    destruct r as [| |[]| | | | | | | | |]; try (by apply good_ret).
    case_match; [|by apply good_ret].
    apply good_upd_plain; [done..|by left|]. by apply (inv_plain _ _ I' l P).
Qed.

Lemma fire_queue_plain k l w :
  plain_ref l -> inv w -> live l w -> good w (fire_queue rec n k l).
Proof.
  intros P. revert w. induction k as [|k IH]; intros w I L; [apply good_diverge|]. cbn [fire_queue].
  eapply good_read; [reflexivity|]. destruct (cl_queue _) as [|m q]; [by apply good_ret|].
  apply good_upd_then; [done..|by left|by apply (inv_plain _ _ I l P)|]. clear I. intros I O.
  assert (L1 := live_ord _ _ _ _ O L).
  apply good_bind; [by apply fire_list_plain|]. intros _ w1 _ I1 O1.
  assert (L2 := live_ord _ _ _ _ O1 L1).
  apply good_upd_then; [done..|by left|by apply (inv_plain _ _ I1 l P)|]. intros I2 O2.
  apply IH; eauto using live_ord.
Qed.

Lemma fire_plain l w : plain_ref l -> inv w -> live l w -> good w (fire rec n l).
Proof.
  intros P I L. unfold fire.
  apply good_upd_then; [done..|by left|by apply (inv_plain _ _ I l P)|]. intros I1 O1.
  apply good_bind; [apply fire_queue_plain; eauto using live_ord|]. intros _ w2 _ I2 O2.
  apply good_upd_plain; [done..|left; eauto using live_ord|].
  assert (E := inv_plain _ _ I2 l P).
  destruct (memory _); cbn; destruct (cl_locked _); cbn; try done;
    try destruct (cl_memory _); apply Forall_nil_2.
Qed.

(** ** Adding and firing on plain lists *)

(** [add] on a list that does not fire: only the entries change. *)
Lemma add_with_still l push w es :
  cl_list (list_of l w) = Some es ->
  cl_memory (list_of l w) = None \/ cl_firing (list_of l w) = true ->
  add_with rec n l push w = (Done tt, upd l push w).
Proof.
  intros E Q. unfold add_with, mbind, J_bind, get_list. rewrite E.
  assert (Ha : (match cl_memory (list_of l w) with Some _ => negb (cl_firing (list_of l w)) | None => false end) = false).
  { destruct Q as [->| ->]; [done|]. by destruct (cl_memory _). }
  rewrite Ha, !update_eq, upd_upd. cbn. f_equal. apply upd_ext. f_equal. by destruct (cl_memory _).
Qed.

Lemma add_with_none l push w :
  cl_list (list_of l w) = None -> add_with rec n l push w = (Done tt, w).
Proof. intros E. unfold add_with, mbind, J_bind, get_list. by rewrite E. Qed.

Lemma plain_fns l us : Forall is_fn us -> Forall (plain_entry l) us.
Proof. intros F. eapply Forall_impl; [exact F|]. intros e. by left. Qed.

Lemma add_with_plain l push w :
  extends push -> plain_ref l -> inv w -> live l w \/ quiet (list_of l w) ->
  good w (add_with rec n l push).
Proof.
  intros X P I Q. destruct (cl_list (list_of l w)) as [es|] eqn:E;
    [|eapply good_done; [by apply add_with_none|done|done]].
  assert (Hes : Forall (plain_entry l) es).
  { assert (F := inv_plain _ _ I l P). unfold entries in F. by rewrite E in F. }
  destruct (decide (cl_memory (list_of l w) = None)) as [S|S].
  2: destruct (decide (cl_firing (list_of l w) = true)) as [S'|S'].
  3: { assert (L : live l w). { destruct Q as [?|(M&_)]; tauto. }
    unfold add_with. eapply good_read; [reflexivity|]. rewrite E.
    apply good_upd_then; [done..|by left| |].
    { repeat case_match; unfold entries; cbn; by rewrite E. }
    intros I1 O1. assert (L1 := live_ord _ _ _ _ O1 L).
    apply good_upd_then; [done..|by left| |].
    { rewrite list_of_upd.
      match goal with |- Forall _ (entries (push ?c)) => destruct (X c es) as (us & -> & F) end.
      { repeat case_match; by cbn. }
      cbn. apply Forall_app. split; [done|by apply plain_fns]. }
    intros I2 O2. case_match; [|by apply good_ret]. apply fire_plain; eauto using live_ord. }
  all: destruct (X _ _ E) as (us & Ep & F).
  all: eapply good_done; [eapply add_with_still; [done|tauto]| |by apply ord_upd_plain].
  all: apply inv_upd_plain; [done..| |rewrite Ep; cbn; apply Forall_app; split; [done|by apply plain_fns]].
  all: destruct Q as [?|(?&?&?)]; [by left|right]; intros _; rewrite Ep; by repeat split.
Qed.

Lemma fireWith_plain l ctx args w :
  plain_ref l -> inv w -> live l w -> good w (fireWith rec n l ctx args).
Proof.
  intros P I L. unfold fireWith. eapply good_read; [reflexivity|].
  destruct (cl_locked _); [by apply good_ret|].
  apply good_upd_then; [done..|by left|by apply (inv_plain _ _ I l P)|]. intros I1 O1.
  destruct (cl_firing _); [by apply good_ret|]. apply fire_plain; eauto using live_ord.
Qed.

(** ** The lists of callbacks of a settled deferred *)

Lemma side_options t :
  stopOnFalse (list_options t) = false /\ memory (list_options t) = true /\ unique (list_options t) = false /\
  (t <> Notify -> once (list_options t) = true).
Proof. destruct t; vm_compute; naive_solver. Qed.

Lemma inv_settled w d t :
  inv w -> t <> Notify -> w_states w !! d = Some (final t) -> settled d t (list_of (LCb d t) w).
Proof.
  intros I N S. assert (K := inv_sides _ _ I d _ t ltac:(done) S N). unfold side_ok in K.
  rewrite decide_False in K by by apply final_ne. by rewrite decide_True in K.
Qed.

Lemma inv_upd_settled w d t f :
  inv w -> t <> Notify -> w_states w !! d = Some (final t) -> settled d t (f (list_of (LCb d t) w)) ->
  inv (upd (LCb d t) f w).
Proof.
  intros I N S K. apply inv_upd_side; [done..|]. intros st _ S'. simplify_eq. unfold side_ok.
  rewrite decide_False by by apply final_ne. rewrite decide_True by done. by rewrite list_of_upd.
Qed.

Lemma live_side w d t : w_states w !! d = Some (final t) -> live (LCb d t) w /\ live (LHd d t) w.
Proof. intros S. split; by intros d' t' [= <- <-]. Qed.

(** A round of the loop moves the index by one. *)
Lemma settled_next d t c :
  settled d t c -> cl_firing c = true -> settled d t (set_index (cl_index c + 1) c).
Proof.
  intros [A B C D E] F. split; cbn; try done; [lia|]. rewrite F in E |- *.
  replace (Z.to_nat (cl_index c + 1 + 1)) with (Z.to_nat (cl_index c + 1) + 1) by lia.
  unfold entries in *. cbn. rewrite <- drop_drop. by apply Forall_drop.
Qed.

Lemma fire_list_side k d t w :
  t <> Notify -> inv w -> w_states w !! d = Some (final t) ->
  cl_firing (list_of (LCb d t) w) = true -> good w (fire_list rec k (LCb d t)).
Proof.
  intros N. revert w. induction k as [|k IH]; intros w I S F; [apply good_diverge|]. cbn [fire_list].
  assert (Se := inv_settled _ _ _ I N S). assert (Sn := settled_next _ _ _ Se F).
  set (f := fun c => set_index (cl_index c + 1) c).
  assert (I1 : inv (upd (LCb d t) f w)) by by apply inv_upd_settled.
  assert (O1 : ord w (upd (LCb d t) f w)) by (apply ord_upd; by left).
  eapply good_run; [apply update_eq|exact O1|]. eapply good_read; [reflexivity|].
  rewrite list_of_upd. destruct (entries _ !! _) as [e|] eqn:Ee; [|by apply good_ret].
  assert (He : late d t e).
  { assert (Es := se_entries _ _ _ Se). rewrite F in Es. rewrite Forall_lookup in Es.
    apply (Es 0). rewrite lookup_drop, Nat.add_0_r. exact Ee. }
  apply good_bind.
  - apply good_call_entry; [done|by apply live_side|]. intros this args w' I' O'.
    destruct He as [He| ->]; [destruct e; try done; by apply rec_fn|].
    apply rec_fire; [done|]. eapply live_ord; [exact O'|]. by apply live_side.
  - intros r w' _ I' O'.
    assert (S' : w_states w' !! d = Some (final t)).
    { destruct (ord_states _ _ _ O' _ _ S) as (st & -> & Hs). f_equal. apply Hs. by apply final_ne. }
    assert (F' : cl_firing (list_of (LCb d t) w') = true).
    { eapply ord_firing; [exact O'|by eexists|done..|]. by rewrite list_of_upd. }
    rewrite (se_options _ _ _ Sn : cl_options (f _) = _). destruct (side_options t) as (-> & _).
    destruct r as [| |[]| | | | | | | | |]; (eapply good_read; [reflexivity|]); by apply IH.
Qed.

(** The first update of [fire], together with the first execution of the queue. *)
Definition started (m : call_data) (c : cblist) : cblist :=
  set_memory (Some m) (set_queue [] (set_firing true (set_fired true
    (set_locked (cl_locked c || once (cl_options c)) c)))).

(** What firing the list of a side once must give. *)
Definition fires (d : nat) (t : tuple) (w : world) : Prop :=
  forall r w', fire_list rec n (LCb d t) w = (r, w') -> r <> NoFuel ->
    inv w' /\ ord_but (Some (LCb d t)) w w' /\
    (r = Done tt -> w_states w' !! d = Some (final t) /\ cl_firing (list_of (LCb d t) w') = true).

(** The end of [fire] leaves an empty list. *)
Lemma fire_end d t w :
  t <> Notify -> inv w -> w_states w !! d = Some (final t) ->
  let c := set_index (-1) (list_of (LCb d t) w) in
  let c1 := if memory (cl_options c) then c else set_memory None c in
  let c2 := set_firing false c1 in
  settled d t (if cl_locked c2
               then set_list (match cl_memory c2 with Some _ => Some [] | None => None end) c2
               else c2).
Proof.
  intros N I S. destruct (inv_settled _ _ _ I N S) as [A B C D E]. cbn. rewrite A.
  destruct (side_options t) as (_ & -> & _). cbn. rewrite B.
  split; cbn; try done. unfold entries. cbn. destruct (cl_memory _); apply Forall_nil_2.
Qed.

Lemma fire_side d t w m :
  t <> Notify -> cl_queue (list_of (LCb d t) w) = [m] -> fires d t (upd (LCb d t) (started m) w) ->
  forall r w', fire rec n (LCb d t) w = (r, w') -> r <> NoFuel ->
    inv w' /\ ord_but (Some (LCb d t)) w w'.
Proof.
  intros N Q K r w' E NF. set (l := LCb d t) in *.
  assert (Q0 : list_of l (upd l (started m) w) = started m (list_of l w)) by apply list_of_upd.
  assert (O0 : ord_but (Some l) w (upd l (started m) w)) by (apply ord_upd; by right).
  unfold fire, mbind, J_bind in E. rewrite update_eq in E.
  destruct n as [|k] eqn:Hn; [by cbn in E; simplify_eq|]. cbn [fire_queue] in E.
  unfold get_list, mbind, J_bind in E. rewrite list_of_upd in E.
  match type of E with context [cl_queue ?c] => change (cl_queue c) with (cl_queue (list_of l w)) in E end.
  rewrite Q, update_eq, upd_upd in E. change (upd l _ w) with (upd l (started m) w) in E. rewrite <- Hn in E.
  unfold fires in K. destruct (fire_list (call user obj_method n) n l _) as [[[]|e|] w3] eqn:Ef.
  - destruct (K _ _ Ef ltac:(done)) as (I3 & O3 & H). destruct (H eq_refl) as [S3 F3]. clear H.
    rewrite update_eq in E. assert (Se := inv_settled _ _ _ I3 N S3).
    destruct k as [|k]; [by cbn in E; simplify_eq|]. cbn [fire_queue] in E.
    unfold get_list, mbind, J_bind in E. rewrite list_of_upd in E.
    rewrite (se_queue _ _ _ Se : cl_queue (set_index _ _) = []) in E. cbn [mret J_ret] in E.
    rewrite update_eq, upd_upd in E. simplify_eq. split.
    + apply inv_upd_settled; [done..|]. by apply fire_end.
    + etrans; [exact O0|]. etrans; [exact O3|]. apply ord_upd. by right.
  - simplify_eq. destruct (K _ _ Ef ltac:(done)) as (I3 & O3 & _). split; [done|]. by etrans.
  - by simplify_eq.
Qed.

Lemma fires_settled k d t w r w' :
  t <> Notify -> inv w -> w_states w !! d = Some (final t) ->
  cl_firing (list_of (LCb d t) w) = true ->
  fire_list rec k (LCb d t) w = (r, w') -> r <> NoFuel ->
  inv w' /\ ord_but (Some (LCb d t)) w w' /\
  (r = Done tt -> w_states w' !! d = Some (final t) /\ cl_firing (list_of (LCb d t) w') = true).
Proof.
  intros N I S F E NF. destruct (fire_list_side k d t w N I S F r w' E NF) as [I' O'].
  split; [done|]. split; [by apply ord_weaken|]. intros _. split.
  - destruct (ord_states _ _ _ O' _ _ S) as (st & -> & Hs). f_equal. apply Hs. by apply final_ne.
  - eapply ord_firing; [exact O'|by eexists|done..].
Qed.

(** ** Adding to the list of a side *)

Lemma settled_push d t c es us :
  cl_list c = Some es -> Forall is_fn us -> settled d t c -> settled d t (set_list (Some (es ++ us)) c).
Proof.
  intros E F [A B C D G]. split; cbn; try done. unfold entries in *. cbn in *. rewrite E in G.
  destruct (cl_firing c); cbn in *.
  - rewrite drop_app. apply Forall_app. split; [done|]. apply Forall_drop.
    eapply Forall_impl; [exact F|]. by left.
  - by apply Forall_app.
Qed.

(** The updates of [add] on a settled list that is not firing start its entries. *)
Lemma settled_again d t c es us m :
  cl_list c = Some es -> Forall is_fn us -> cl_firing c = false -> settled d t c ->
  settled d t (started m (set_list (Some (es ++ us))
    (set_queue (cl_queue c ++ [m]) (set_index (Z.of_nat (length es) - 1) c)))).
Proof.
  intros E F Fi [A B C D G]. rewrite Fi in G. unfold entries in G. rewrite E in G. cbn in G.
  split; cbn; try done; [by rewrite B|lia|]. unfold entries. cbn.
  apply Forall_drop. apply Forall_app. split; (eapply Forall_impl; [done|]); by left.
Qed.

Lemma add_with_again d t push w es m :
  extends push -> t <> Notify -> inv w -> w_states w !! d = Some (final t) ->
  cl_list (list_of (LCb d t) w) = Some es -> cl_memory (list_of (LCb d t) w) = Some m ->
  cl_firing (list_of (LCb d t) w) = false -> good w (add_with rec n (LCb d t) push).
Proof.
  intros X N I S E M F r w' R NF. set (l := LCb d t) in *.
  assert (Se := inv_settled _ _ _ I N S). fold l in Se.
  set (f := fun c => set_queue (cl_queue c ++ [m]) (set_index (Z.of_nat (length es) - 1) c)).
  destruct (X (f (list_of l w)) es E) as (us & Ep & Fu).
  assert (R2 : add_with rec n l push w = fire rec n l (upd l (fun c => push (f c)) w)).
  { unfold add_with, mbind, J_bind, get_list. rewrite E, M, F, !update_eq, upd_upd. cbn. f_equal.
    apply upd_ext. by rewrite M. }
  rewrite R2 in R. destruct (fire_side d t (upd l (fun c => push (f c)) w) m) with r w' as [I' O']; try done.
  - fold l. rewrite list_of_upd, Ep. cbn. by rewrite (se_queue _ _ _ Se).
  - fold l. rewrite upd_upd. intros r0 w0. apply fires_settled; try done.
    + apply inv_upd_settled; [done..|]. fold l. rewrite Ep. by apply settled_again.
    + fold l. rewrite list_of_upd. done.
  - split; [done|]. apply (ord_strengthen l); [done|]. etrans; [|exact O']. apply ord_upd. by right.
Qed.

Lemma add_with_side d t push w :
  extends push -> t <> Notify -> inv w -> is_Some (w_states w !! d) ->
  good w (add_with rec n (LCb d t) push).
Proof.
  intros X N I [st S]. assert (K := inv_sides _ _ I d _ t ltac:(done) S N).
  destruct (cl_list (list_of (LCb d t) w)) as [es|] eqn:E;
    [|eapply good_done; [by apply add_with_none|done|done]].
  destruct (X _ _ E) as (us & Ep & F).
  assert (Still : (cl_memory (list_of (LCb d t) w) = None \/ cl_firing (list_of (LCb d t) w) = true) ->
    side_ok (upd (LCb d t) push w) d st t -> good w (add_with rec n (LCb d t) push)).
  { intros H Sk. eapply good_done; [by eapply add_with_still|apply inv_upd_side; [done..|]|apply ord_upd].
    - intros. by simplify_eq.
    - left. by rewrite Ep. }
  unfold side_ok in *. rewrite list_of_upd, list_of_upd_ne, Ep in Still by done. repeat case_decide.
  - destruct K as [[U|J] Q].
    + apply Still; [left; by apply U|]. split; [left|done]. destruct U as [? ? ? ? ? ? (vs & Hl & Fv)].
      split; cbn; try done. simplify_eq. exists (vs ++ us). split; [by rewrite <- app_assoc|by apply Forall_app].
    + apply Still; [right; by apply J|]. split; [by right|done].
  - subst st. destruct (cl_memory (list_of (LCb d t) w)) as [m|] eqn:M;
      [|apply Still; [by left|by apply settled_push]].
    destruct (cl_firing (list_of (LCb d t) w)) eqn:Fi; [apply Still; [by right|by apply settled_push]|].
    by eapply add_with_again.
  - destruct K as [[? ?] _]. congruence.
Qed.

(** ** Settling *)

(** The effects of the entries that settle a deferred. *)
Definition eff (e : entry) (w : world) : world :=
  match e with
  | EState d t => set_states (<[d := final t]> (w_states w)) w
  | EDisable l => upd l (fun c => set_memory None (set_list None (set_queue [] (set_locked true c)))) w
  | ELock l => upd l (fun c =>
      let c1 := set_queue [] (set_locked true c) in
      match cl_memory c1 with
      | None => if cl_firing c1 then c1 else set_list None c1
      | Some _ => c1
      end) w
  | _ => w
  end.

Lemma rec_eff d t e this args w :
  e ∈ settling d t -> (exists x, rec e this args w = (Done x, eff e w)) \/ rec e this args w = (NoFuel, w).
Proof.
  intros H. destruct n as [|k]; [by right|left]. cbn.
  destruct t; cbn in H; [by apply not_elem_of_nil in H|..];
    repeat (apply elem_of_cons in H as [->|H]; [by eexists|]); by apply not_elem_of_nil in H.
Qed.

(** The deferred [d] after [j] settling entries, before the call at index [i + 1]. *)
Record mid (d : nat) (t : tuple) (m : call_data) (j : nat) (i : Z) (w : world) : Prop := {
  mid_but : inv_but (Some d) w;
  mid_calls : forall l e this args t', (l, e, this, args) ∈ w_calls w -> owner l = Some (d, t') ->
    t' <> Notify -> t' = t;
  mid_state : w_states w !! d = Some (if Nat.eqb j 0 then pending else final t);
  mid_options : cl_options (list_of (LCb d t) w) = list_options t;
  mid_locked : cl_locked (list_of (LCb d t) w) = true;
  mid_firing : cl_firing (list_of (LCb d t) w) = true;
  mid_memory : cl_memory (list_of (LCb d t) w) = Some m;
  mid_queue : cl_queue (list_of (LCb d t) w) = [];
  mid_index : cl_index (list_of (LCb d t) w) = i;
  mid_list : exists us, cl_list (list_of (LCb d t) w) = Some (settling d t ++ EFire (LHd d t) :: us)
                        /\ Forall is_fn us;
  mid_other : if Nat.leb 2 j then spent (list_of (LCb d (opposite t)) w)
              else untouched d (opposite t) (list_of (LCb d (opposite t)) w)
                   \/ jammed (list_of (LCb d (opposite t)) w);
  mid_quiet : quiet (list_of (LHd d (opposite t)) w);
}.

Lemma opposite_ne t : t <> Notify -> opposite t <> t /\ opposite t <> Notify.
Proof. by destruct t. Qed.

(** An update of another list that keeps the parts [mid] looks at. *)
Lemma mid_upd d t m j j' i l f w :
  mid d t m j i w -> l <> LCb d t -> inv_but (Some d) (upd l f w) -> Nat.eqb j 0 = Nat.eqb j' 0 ->
  (if Nat.leb 2 j' then spent (list_of (LCb d (opposite t)) (upd l f w))
   else untouched d (opposite t) (list_of (LCb d (opposite t)) (upd l f w))
        \/ jammed (list_of (LCb d (opposite t)) (upd l f w))) ->
  quiet (list_of (LHd d (opposite t)) (upd l f w)) -> mid d t m j' i (upd l f w).
Proof.
  intros M N I Ej O Q. destruct M. split; try done; rewrite ?list_of_upd_ne by done; try done.
  by rewrite <- Ej.
Qed.

Lemma mid_index_next d t m j i w :
  t <> Notify -> mid d t m j i w ->
  mid d t m j (i + 1) (upd (LCb d t) (fun c => set_index (cl_index c + 1) c) w).
Proof.
  intros N M. destruct (opposite_ne t N) as [No Nn].
  split; rewrite ?list_of_upd, ?list_of_upd_ne by congruence; try apply M.
  - apply inv_upd_side; [apply M|done|]. intros st H. by destruct H.
  - cbn. by rewrite (mid_index _ _ _ _ _ _ M).
Qed.

Lemma mid_noted d t m j i w e this args :
  t <> Notify -> mid d t m j i w -> mid d t m j i (noted (LCb d t) e this args w).
Proof.
  intros N M. split; try apply M.
  - apply inv_noted; [|apply M]. intros d' t' [= <- <-] _ H. by destruct H.
  - intros l e' this' args' t' Hin O N'. cbn in Hin.
    apply elem_of_app in Hin as [Hin|Hin%list_elem_of_singleton]; [by eapply (mid_calls _ _ _ _ _ _ M)|].
    injection Hin as -> -> -> ->. cbn in O. congruence.
Qed.

(** Changing the state of a pending deferred. *)
Lemma inv_but_state d st w :
  is_Some (w_states w !! d) -> inv_but (Some d) w ->
  inv_but (Some d) (set_states (<[d := st]> (w_states w)) w).
Proof.
  intros A [I1 I2 I3 I4 I5 I6].
  assert (Al : forall d', is_Some (w_states w !! d') -> is_Some (<[d := st]> (w_states w) !! d')).
  { intros d' H. destruct (decide (d = d')) as [->|]; [by rewrite lookup_insert_eq|by rewrite lookup_insert_ne]. }
  split; cbn.
  - exact I1.
  - intros d' st' t X S N. rewrite lookup_insert_ne in S by congruence. by apply I2.
  - intros d' X l e this args t H O N. cbn. rewrite lookup_insert_ne by congruence. by eapply (I3 d' X).
  - intros d' H. destruct (decide (d = d')) as [<-|]; [by apply I4|]. rewrite lookup_insert_ne in H by done. by apply I4.
  - intros i s H. apply Al. by eapply I5.
  - eapply Forall_impl; [exact I6|]. intros ? H. by apply Al.
Qed.

Lemma lock_entries l c :
  Forall (plain_entry l) (entries c) ->
  Forall (plain_entry l) (entries (let c1 := set_queue [] (set_locked true c) in
    match cl_memory c1 with None => if cl_firing c1 then c1 else set_list None c1 | Some _ => c1 end)).
Proof. intros F. cbn. destruct (cl_memory c), (cl_firing c); try done; apply Forall_nil_2. Qed.

Lemma mid_eff d t m j i e w :
  t <> Notify -> settling d t !! j = Some e -> mid d t m j i w ->
  mid d t m (S j) i (eff e w) /\ ord_but (Some (LCb d t)) w (eff e w).
Proof.
  intros N E M. destruct (opposite_ne t N) as [No Nn]. assert (I := mid_but _ _ _ _ _ _ M).
  assert (P := fun l => inv_plain _ _ I l).
  assert (Ho := mid_other _ _ _ _ _ _ M). assert (Hq := mid_quiet _ _ _ _ _ _ M).
  assert (Hj : settling d t = [EState d t; EDisable (LCb d (opposite t)); EDisable (LHd d (opposite t));
          ELock (LCb d Notify); ELock (LHd d Notify)]) by by destruct t.
  rewrite Hj in E. clear Hj. destruct j as [|[|[|[|[|j]]]]]; cbn in E; [injection E as <-..|done].
  - split.
    + destruct M. split; try done; cbn; rewrite ?lookup_insert_eq; try done.
      apply inv_but_state; [by eexists|done].
    + split; [|done]. intros d' st S. cbn. destruct (decide (d = d')) as [<-|Nd].
      * rewrite lookup_insert_eq. eexists. split; [done|]. rewrite (mid_state _ _ _ _ _ _ M) in S. by simplify_eq.
      * rewrite lookup_insert_ne by done. eauto.
  - split; [|apply ord_upd; by left]. eapply mid_upd; [done|congruence| |done|by rewrite list_of_upd|by rewrite list_of_upd_ne].
    apply inv_upd_side; [done..|]. intros st H. by destruct H.
  - split; [|apply ord_upd; by left]. eapply mid_upd; [done..| |done|by rewrite list_of_upd_ne|].
    + apply inv_upd_plain; [done..| |apply Forall_nil_2]. right. by intros (?&?&?).
    + rewrite list_of_upd. by destruct Hq as (?&?&?).
  - split; [|by apply ord_upd_plain]. eapply mid_upd; [done|congruence| |done|by rewrite list_of_upd_ne by congruence|by rewrite list_of_upd_ne].
    apply inv_upd_plain; [done..|left; by intros ? ? [= <- <-]|]. by apply lock_entries, P.
  - split; [|by apply ord_upd_plain]. eapply mid_upd; [done|congruence| |done|by rewrite list_of_upd_ne|by rewrite list_of_upd_ne by congruence].
    apply inv_upd_plain; [done..|left; by intros ? ? [= <- <-]|]. by apply lock_entries, P.
Qed.

Lemma settling_length d t : t <> Notify -> length (settling d t) = 5.
Proof. by destruct t. Qed.

Lemma mid_inv d t m w : t <> Notify -> mid d t m 5 4 w -> inv w.
Proof.
  intros N M. destruct (opposite_ne t N) as [No Nn]. assert (Sm := mid_state _ _ _ _ _ _ M). cbn in Sm.
  destruct (mid_but _ _ _ _ _ _ M) as [I1 I2 I3 I4 I5 I6]. split; try done.
  - intros d' st t' _ S N'. destruct (decide (d = d')) as [<-|Nd]; [|by apply I2; [congruence|..]].
    unfold side_ok. simplify_eq. rewrite decide_False by by apply final_ne.
    destruct (decide (t = t')) as [<-|Nt].
    + rewrite decide_True by done. split; [apply M..| |].
      * rewrite (mid_index _ _ _ _ _ _ M). lia.
      * rewrite (mid_firing _ _ _ _ _ _ M), (mid_index _ _ _ _ _ _ M). unfold entries.
        destruct (mid_list _ _ _ _ _ _ M) as (us & -> & F). cbn [default from_option id].
        rewrite drop_app_ge by (rewrite settling_length by done; lia). rewrite settling_length by done.
        constructor; [by right|]. eapply Forall_impl; [exact F|]. by left.
    + assert (t' = opposite t) as -> by (by destruct t, t').
      rewrite decide_False by (by destruct t). split; apply M.
  - intros d' _. destruct (decide (d = d')) as [<-|Nd]; [|apply I3; congruence].
    intros l e this args t' H O N'. by rewrite (mid_calls _ _ _ _ _ _ M _ _ _ _ _ H O N').
Qed.

(** One round of the loop on a settling entry. *)
Lemma fire_list_mid k d t m vs j i w r w' :
  t <> Notify -> apply_args m.2 = Some vs -> j < 5 -> i = (Z.of_nat j - 1)%Z -> mid d t m j i w ->
  fire_list rec (S k) (LCb d t) w = (r, w') -> r <> NoFuel ->
  exists w1, mid d t m (S j) (i + 1) w1 /\ ord_but (Some (LCb d t)) w w1 /\
    fire_list rec k (LCb d t) w1 = (r, w').
Proof.
  intros N Ha Hj Hi M E NF. set (l := LCb d t) in *.
  assert (M1 := mid_index_next _ _ _ _ _ _ N M). fold l in M1.
  set (w0 := upd l (fun c => set_index (cl_index c + 1) c) w) in *.
  cbn [fire_list] in E. unfold mbind, J_bind in E. rewrite update_eq in E. unfold get_list in E. fold w0 in E.
  destruct (mid_list _ _ _ _ _ _ M1) as (us & El & _). fold l in El.
  assert (exists e, settling d t !! j = Some e) as [e Ee].
  { apply lookup_lt_is_Some_2. by rewrite settling_length. }
  assert (Hl : entries (list_of l w0) !! Z.to_nat (cl_index (list_of l w0)) = Some e).
  { rewrite (mid_index _ _ _ _ _ _ M1 : cl_index (list_of l w0) = _). subst i.
    replace (Z.to_nat (Z.of_nat j - 1 + 1)) with j by lia. unfold entries. rewrite El. cbn.
    by apply lookup_app_l_Some. }
  rewrite Hl in E. unfold call_entry in E. rewrite (mid_memory _ _ _ _ _ _ M1 : cl_memory (list_of l w0) = _) in E.
  destruct m as [this args]. cbn in Ha. cbn [default from_option id] in E. rewrite Ha in E.
  unfold mbind, J_bind in E. change (note_call l e this vs w0) with (@Done unit tt, noted l e this vs w0) in E.
  assert (M2 := mid_noted _ _ _ _ _ _ e this vs N M1). fold l in M2.
  destruct (mid_eff _ _ _ _ _ _ _ N Ee M2) as [M3 O3].
  cbv beta iota in E.
  destruct (rec_eff d t e this vs (noted l e this vs w0)) as [[x Hx]|Hx];
    [by eapply list_elem_of_lookup_2| |rewrite Hx in E; by simplify_eq].
  rewrite Hx in E. exists (eff e (noted l e this vs w0)). split; [done|]. split.
  - etrans; [|exact O3]. etrans; [|apply ord_noted]. apply ord_upd. by right.
  - rewrite (mid_options _ _ _ _ _ _ M1 : cl_options (list_of l w0) = _) in E.
    destruct (side_options t) as (So & _). rewrite So in E. by destruct x as [| |[]| | | | | | | | |].
Qed.

Lemma fire_list_settling d t m vs g : t <> Notify -> apply_args m.2 = Some vs ->
  forall j k w r w', j + g = 5 -> mid d t m j (Z.of_nat j - 1) w ->
  fire_list rec k (LCb d t) w = (r, w') -> r <> NoFuel ->
  inv w' /\ ord_but (Some (LCb d t)) w w' /\
  (r = Done tt -> w_states w' !! d = Some (final t) /\ cl_firing (list_of (LCb d t) w') = true).
Proof.
  intros N Ha. induction g as [|g IH]; intros j k w r w' Hj M E NF.
  - assert (j = 5) as -> by lia. change (Z.of_nat 5 - 1)%Z with 4%Z in M.
    assert (I := mid_inv _ _ _ _ N M).
    assert (S : w_states w !! d = Some (final t)) by exact (mid_state _ _ _ _ _ _ M).
    exact (fires_settled k d t w r w' N I S (mid_firing _ _ _ _ _ _ M) E NF).
  - destruct k as [|k]; [unfold fire_list, diverge in E; by simplify_eq|].
    destruct (fire_list_mid k d t m vs j _ w r w' N Ha ltac:(lia) eq_refl M E NF) as (w1 & M1 & O1 & E1).
    replace (Z.of_nat j - 1 + 1)%Z with (Z.of_nat (S j) - 1)%Z in M1 by lia.
    destruct (IH (S j) k w1 r w' ltac:(lia) M1 E1 NF) as (I' & O' & H). split; [done|]. split; [by etrans|done].
Qed.

(** A deferred that is resolved or rejected for the first time. *)
Lemma mid_start d t w m :
  t <> Notify -> inv w -> w_states w !! d = Some pending -> untouched d t (list_of (LCb d t) w) ->
  mid d t m 0 (-1) (upd (LCb d t) (started m) w).
Proof.
  intros N I S U. destruct (opposite_ne t N) as [No Nn].
  assert (K := inv_sides _ _ I d _ (opposite t) ltac:(done) S Nn). unfold side_ok in K.
  rewrite decide_True in K by done. destruct (side_options t) as (_ & _ & _ & On).
  assert (I' : inv_but (Some d) w).
  { destruct I as [I1 I2 I3 I4 I5 I6]. split; try done; intros; [by apply I2|by apply I3]. }
  split; rewrite ?list_of_upd, ?list_of_upd_ne by congruence; try done; try apply K; try apply U.
  - apply inv_upd_side; [done..|]. intros st H. by destruct H.
  - intros l e this args t' H O N'. exfalso. cbn in H.
    assert (C := inv_calls _ _ I d ltac:(done) l e this args t' H O N'). rewrite S in C. injection C as C.
    by apply (final_ne t').
  - cbn. rewrite (un_options _ _ _ U), On by done. apply orb_true_r.
Qed.

(** The arguments are no array: the first call throws. *)
Lemma fires_jam d t w m :
  t <> Notify -> inv w -> w_states w !! d = Some pending -> untouched d t (list_of (LCb d t) w) ->
  apply_args m.2 = None -> fires d t (upd (LCb d t) (started m) w).
Proof.
  intros N I S U Ha r w' E NF. set (l := LCb d t) in *.
  destruct n as [|k]; [unfold fire_list, diverge in E; by simplify_eq|]. cbn [fire_list] in E.
  unfold mbind, J_bind in E. rewrite update_eq, upd_upd in E. unfold get_list in E. rewrite list_of_upd in E.
  destruct (un_list _ _ _ U) as (us & El & _). fold l in El.
  assert (exists e, entries (list_of l w) !! 0 = Some e) as [e Ee].
  { unfold entries. rewrite El. by destruct t; eexists. }
  match type of E with context [entries ?c !! ?i] =>
    assert (Hl : entries c !! i = Some e) by (cbn; rewrite (un_index _ _ _ U); exact Ee) end.
  rewrite Hl in E. destruct m as [this args]. cbn in Ha. unfold call_entry in E. cbn in E. rewrite Ha in E.
  cbn in E. simplify_eq. split; [|split; [|done]].
  - apply inv_upd_side; [done..|]. intros st _ S'. simplify_eq. unfold side_ok. rewrite decide_True by done.
    rewrite list_of_upd, list_of_upd_ne by done.
    assert (K := inv_sides _ _ I d _ t ltac:(done) S N). unfold side_ok in K. rewrite decide_True in K by done.
    split; [right|apply K]. split; [|done]. cbn. fold l. rewrite (un_options _ _ _ U).
    destruct (side_options t) as (_ & _ & _ & ->); [|done]. apply orb_true_r.
  - rewrite <- (upd_upd l (fun c => set_index (cl_index c + 1) c) (started (this, args))). apply ord_upd. by right.
Qed.

Lemma fireWith_side d t ctx args w :
  t <> Notify -> inv w -> is_Some (w_states w !! d) -> good w (fireWith rec n (LCb d t) ctx args).
Proof.
  intros N I [st S]. unfold fireWith. eapply good_read; [reflexivity|].
  destruct (cl_locked (list_of (LCb d t) w)) eqn:L; [by apply good_ret|].
  assert (K := inv_sides _ _ I d _ t ltac:(done) S N). unfold side_ok in K. repeat case_decide.
  - destruct K as [[U|[J _]] _]; [|congruence]. subst st. rewrite (un_firing _ _ _ U).
    set (m := (ctx, fire_args args)). set (l := LCb d t) in *.
    intros r w' E NF. unfold mbind, J_bind in E. rewrite update_eq in E.
    destruct (fire_side d t (upd l (fun c => set_queue (cl_queue c ++ [m]) c) w) m) with r w' as [I' O']; try done.
    + fold l. rewrite list_of_upd. cbn. by rewrite (un_queue _ _ _ U).
    + fold l. rewrite upd_upd. rewrite (upd_ext l _ (started m)) by done.
      destruct (apply_args m.2) as [vs|] eqn:Ha; [|by apply fires_jam].
      intros r0 w0. by apply (fire_list_settling d t m vs 5 N Ha 0 n _ r0 w0 eq_refl); apply mid_start.
    + split; [done|]. apply (ord_strengthen l); [apply U|]. etrans; [|exact O']. apply ord_upd. by right.
  - destruct K. congruence.
  - destruct K as [[? ?] _]. congruence.
Qed.

(** ** All lists *)

Definition allocated (l : lref) (w : world) : Prop :=
  match owner l with Some (d, _) => is_Some (w_states w !! d) | None => True end.

Lemma allocated_ord x l w w' : ord_but x w w' -> allocated l w -> allocated l w'.
Proof. unfold allocated. intros O. destruct (owner l) as [[d t]|]; [|done]. by eapply ord_alloc. Qed.

Lemma live_or_quiet l w : inv w -> plain_ref l -> allocated l w -> live l w \/ quiet (list_of l w).
Proof.
  intros I P A. destruct l as [i|d t|d t]; [by left|left; by intros ? ? [= <- <-]|].
  destruct (decide (t = Notify)) as [->|N]; [left; apply live_notify|].
  destruct A as [st S]. assert (K := inv_sides _ _ I d _ t ltac:(done) S N). unfold side_ok in K.
  repeat case_decide; [right; apply K| |right; apply K]. subst st. left. by apply live_side.
Qed.

Lemma good_add l args w : inv w -> allocated l w -> good w (add rec n l args).
Proof.
  intros I A. unfold add. assert (X := add_arg_extends (VList args)).
  destruct (decide (plain_ref l)) as [P|P]; [by apply add_with_plain; [..|apply live_or_quiet]|].
  destruct l as [i|d t|d t]; try done. by apply add_with_side.
Qed.

Lemma good_fireWith l ctx args w :
  inv w -> allocated l w -> (forall d t, l = LHd d t -> live l w) -> good w (fireWith rec n l ctx args).
Proof.
  intros I A L. destruct l as [i|d t|d t].
  - apply fireWith_plain; [done..|]. by intros ? ?.
  - destruct (decide (t = Notify)) as [->|N]; [|by apply fireWith_side].
    apply fireWith_plain; [done..|]. by intros ? ? [= <- <-].
  - apply fireWith_plain; [done..|]. by eapply L.
Qed.

(** ** New deferreds *)

Definition new_side (d : nat) (t : tuple) : cblist :=
  set_list (Some (settling d t ++ [EFire (LHd d t)])) (new_list (list_options t)).

Lemma init_tuple_eq d t w :
  list_of (LCb d t) w = new_list (list_options t) ->
  init_tuple rec n d t w = (Done tt, upd (LCb d t) (fun _ => new_side d t) w).
Proof.
  intros E. unfold init_tuple, mbind, J_bind.
  destruct (bool_decide_reflect (t = Notify)) as [->|N]; cbn [mret J_ret].
  - rewrite (add_with_still _ _ _ []); [|by rewrite E..|left; by rewrite E]. f_equal. apply upd_ext. by rewrite E.
  - rewrite (add_with_still _ _ _ []); [|by rewrite E..|left; by rewrite E].
    rewrite (add_with_still _ _ _ (settling d t)); [|by rewrite list_of_upd, E..|left; by rewrite list_of_upd, E].
    f_equal. rewrite upd_upd. apply upd_ext. by rewrite E.
Qed.

Definition with_deferred (w : world) : world :=
  let d := w_next w in
  let w0 := set_next (S d) w in
  let w1 := foldl (fun w t => upd (LHd d t) (fun _ => new_list (list_options t))
                               (upd (LCb d t) (fun _ => new_list (list_options t)) w)) w0
              [Notify; Resolve; Reject] in
  let w2 := set_states (<[d := pending]> (w_states w1)) w1 in
  foldl (fun w t => upd (LCb d t) (fun _ => new_side d t) w) w2 [Notify; Resolve; Reject].

Lemma list_of_set_states l x w : list_of l (set_states x w) = list_of l w.
Proof. done. Qed.

Lemma new_deferred_eq w : new_deferred rec n w = (Done (w_next w), with_deferred w).
Proof.
  unfold new_deferred, new_tuple, fresh, modify, with_deferred, mbind, J_bind. cbn [foldl].
  repeat rewrite update_eq.
  rewrite init_tuple_eq by (by rewrite list_of_set_states, !list_of_upd_ne, list_of_upd by congruence).
  rewrite init_tuple_eq by (by rewrite list_of_upd_ne, list_of_set_states, !list_of_upd_ne, list_of_upd by congruence).
  rewrite init_tuple_eq by (by rewrite !list_of_upd_ne, list_of_set_states, list_of_upd_ne, list_of_upd by congruence).
  done.
Qed.

Lemma list_of_with_deferred l w :
  list_of l (with_deferred w) =
  match owner l with
  | Some (d, t) => if decide (d = w_next w)
                   then match l with LCb _ _ => new_side d t | _ => new_list (list_options t) end
                   else list_of l w
  | None => list_of l w
  end.
Proof.
  unfold with_deferred. cbn [foldl].
  destruct l as [i|d t|d t]; cbn [owner].
  - by rewrite !list_of_upd_ne, list_of_set_states, !list_of_upd_ne by congruence.
  - case_decide as D; [subst d|].
    + destruct t; by rewrite ?list_of_upd_ne, list_of_upd by congruence.
    + by rewrite !list_of_upd_ne, list_of_set_states, !list_of_upd_ne by congruence.
  - rewrite !list_of_upd_ne, list_of_set_states by congruence. case_decide as D; [subst d|].
    + destruct t; by rewrite ?list_of_upd_ne, list_of_upd by congruence.
    + by rewrite !list_of_upd_ne by congruence.
Qed.

Lemma new_side_ok w d t :
  t <> Notify -> list_of (LCb d t) w = new_side d t -> list_of (LHd d t) w = new_list (list_options t) ->
  side_ok w d pending t.
Proof.
  intros N E1 E2. unfold side_ok. rewrite decide_True, E1, E2 by done. split; [|by repeat split].
  left. split; try done. by exists [].
Qed.

Lemma inv_with_deferred w : inv w -> inv (with_deferred w) /\ ord w (with_deferred w).
Proof.
  intros I. set (d := w_next w). assert (Hs : w_states (with_deferred w) = <[d := pending]> (w_states w)) by done.
  assert (Fr : w_states w !! d = None).
  { destruct (w_states w !! d) eqn:E; [|done]. assert (H := inv_next _ _ I d ltac:(by eexists)). unfold d in H. lia. }
  assert (Al : forall d', is_Some (w_states w !! d') -> is_Some (<[d := pending]> (w_states w) !! d')).
  { intros d' H. destruct (decide (d = d')) as [->|]; [by rewrite lookup_insert_eq|by rewrite lookup_insert_ne]. }
  destruct I as [I1 I2 I3 I4 I5 I6]. split; [split|split]; rewrite ?Hs.
  - intros l P. rewrite list_of_with_deferred. destruct l as [i|e t|e t]; cbn; [by apply I1|..];
      (case_decide; [subst e|by apply I1]); [|apply Forall_nil_2].
    cbn in P. subst t. apply Forall_singleton. right. by exists (w_next w).
  - intros d' st t _ S N. destruct (decide (d = d')) as [<-|Nd].
    + rewrite lookup_insert_eq in S. injection S as <-.
      by apply new_side_ok; [done|rewrite list_of_with_deferred; cbn; by rewrite decide_True..].
    + rewrite lookup_insert_ne in S by done.
      eapply side_ok_ext; [rewrite list_of_with_deferred; cbn; by rewrite decide_False..|by apply I2].
  - intros d' _ l e this args t H O N. assert (C := I3 d' ltac:(done) l e this args t H O N).
    rewrite Hs, lookup_insert_ne; [done|]. intros <-. congruence.
  - intros d' H. change (w_next (with_deferred w)) with (S d). destruct (decide (d = d')) as [<-|]; [lia|].
    rewrite lookup_insert_ne in H by done. specialize (I4 d' H). unfold d. lia.
  - intros i s H. apply Al. by eapply I5.
  - eapply Forall_impl; [exact I6|]. intros ? H. by apply Al.
  - intros d' st S. rewrite lookup_insert_ne by congruence. eauto.
  - intros d' t [st S] N _ F. rewrite list_of_with_deferred. cbn. rewrite decide_False; [done|].
    intros ->. unfold d in *. congruence.
Qed.

Lemma good_new {B} w (k : nat -> J B) :
  inv w -> (forall d w', inv w' -> ord w w' -> w_states w' !! d = Some pending -> good w' (k d)) ->
  good w (new_deferred rec n ≫= k).
Proof.
  intros I K. destruct (inv_with_deferred w I) as [I' O'].
  eapply good_run; [apply new_deferred_eq|done|]. apply K; [done..|]. by cbn; rewrite lookup_insert_eq.
Qed.

(** ** Changes outside the lists *)

Lemma good_fresh {B} w (k : nat -> J B) :
  inv w -> (forall i w', inv w' -> ord w w' -> good w' (k i)) -> good w (fresh ≫= k).
Proof.
  intros I K. destruct (inv_same_core None w (set_next (S (w_next w)) w)) as [I' O']; try done; try apply I; [cbn; lia|].
  eapply good_run; [reflexivity|exact O'|]. by apply K.
Qed.

Lemma good_depths {B} w f (k : unit -> J B) :
  inv w -> (forall w', inv w' -> ord w w' -> good w' (k tt)) ->
  good w (modify (fun w => set_depths (f w) w) ≫= k).
Proof.
  intros I K. destruct (inv_same_core None w (set_depths (f w) w)) as [I' O']; try done; try apply I.
  eapply good_run; [reflexivity|exact O'|]. by apply K.
Qed.

Lemma good_mixins {B} w f (k : unit -> J B) :
  inv w -> (forall w', inv w' -> ord w w' -> good w' (k tt)) ->
  good w (modify (fun w => set_mixins (f w) w) ≫= k).
Proof.
  intros I K. destruct (inv_same_core None w (set_mixins (f w) w)) as [I' O']; try done; try apply I.
  eapply good_run; [reflexivity|exact O'|]. by apply K.
Qed.

Lemma good_timer w tk :
  inv w -> is_Some (w_states w !! tk_deferred tk) ->
  good w (modify (fun w => set_timers (w_timers w ++ [tk]) w)).
Proof.
  intros I A. destruct (inv_same_core None w (set_timers (w_timers w ++ [tk]) w)) as [I' O']; try done; try apply I.
  - apply Forall_app. split; [apply I|by apply Forall_singleton].
  - by eapply good_done.
Qed.

Lemma good_set_when {B} w i x (k : unit -> J B) :
  inv w -> is_Some (w_states w !! wh_primary x) ->
  (forall w', inv w' -> ord w w' -> good w' (k tt)) -> good w (set_when i x ≫= k).
Proof.
  intros I A K. destruct (inv_same_core None w (set_whens (<[i := x]> (w_whens w)) w)) as [I' O']; try done; try apply I.
  - intros i' s. cbn. rewrite lookup_insert_Some. intros [[_ <-]|[_ H]]; [done|]. by eapply (inv_when _ _ I).
  - eapply good_run; [reflexivity|exact O'|]. by apply K.
Qed.

Lemma good_upd_pub i f w :
  inv w -> (forall c, Forall is_fn (entries c) -> Forall is_fn (entries (f c))) -> good w (update (LPub i) f).
Proof.
  intros I K.
  assert (E : Forall is_fn (entries (list_of (LPub i) w))).
  { eapply Forall_impl; [apply (inv_plain _ _ I (LPub i)); done|]. intros e [H|(d & [=] & _)]. done. }
  apply good_upd_plain; [done..|left; by intros ? ?|]. apply plain_fns. by apply K.
Qed.

(** ** Methods *)

Lemma good_method_of {B} w v m (k : option fn -> J B) :
  (forall o, good w (k o)) -> good w (method_of obj_method v m ≫= k).
Proof. intros K. eapply good_read; [reflexivity|]. apply K. Qed.

Lemma good_resolve {B} w g depth d h sp (k : val -> J B) :
  inv w -> (forall v w', inv w' -> ord w w' -> good w' (k v)) -> good w (resolve g depth d h sp ≫= k).
Proof.
  intros I K. apply good_bind.
  - apply good_fresh; [done|]. intros. by apply good_ret.
  - intros a w' _ I' O'. by apply K.
Qed.

End firing.

(** Facts on allocated deferreds stay true. *)
Ltac carry :=
  repeat match goal with
  | O : ord_but None ?w ?w', H : is_Some (w_states ?w !! ?d) |- _ =>
      lazymatch goal with
      | _ : is_Some (w_states w' !! d) |- _ => fail
      | _ => pose proof (ord_alloc _ _ _ _ O H)
      end
  end.

(** One step of a computation that keeps the invariant. *)
Ltac good_step :=
  lazymatch goal with
  | |- good _ (mret _) => apply good_ret; assumption
  | |- good _ (throw _) => apply good_throw; assumption
  | |- good _ diverge => apply good_diverge
  | |- good _ (call _ _ _ (EFn _) _ _) => auto
  | |- good _ (fireWith _ _ (LCb _ _) _ _) => apply good_fireWith; [auto..|assumption|assumption|discriminate]
  | |- good _ (add _ _ _ _) => apply good_add; [auto..|assumption|assumption]
  | |- good _ (method_of _ _ _ ≫= _) => apply good_method_of; intros ?o
  | |- good _ (max_depth _ ≫= _) => eapply good_read; [reflexivity|]
  | |- good _ (get_when _ ≫= _) => eapply good_read; [reflexivity|]
  | |- good _ (get_world ≫= _) => eapply good_read; [reflexivity|]
  | |- good _ (fresh ≫= _) => apply good_fresh; [assumption|intros ?i ?w' ?I ?O; carry]
  | |- good _ (resolve _ _ _ _ _ ≫= _) => apply good_resolve; [assumption|intros ?v ?w' ?I ?O; carry]
  | |- good _ (modify (fun _ => set_depths _ _) ≫= _) => apply good_depths; [assumption|intros ?w' ?I ?O; carry]
  | |- good _ (modify (fun _ => set_mixins _ _) ≫= _) => apply good_mixins; [assumption|intros ?w' ?I ?O; carry]
  | |- good _ (new_deferred _ _ ≫= _) =>
      let d := fresh "d" in let w := fresh "w" in let S := fresh "S" in
      apply good_new; [auto..|assumption|];
      intros d w ?I ?O S; assert (is_Some (w_states w !! d)) by (by rewrite S); carry
  | |- good _ (_ ≫= _) => apply good_bind; [|intros ?a ?w' _ ?I ?O; carry]
  | |- good _ (let '(_, _) := ?x in _) => destruct x
  | |- good _ (if ?b then _ else _) => destruct b
  | |- good _ (match ?x with _ => _ end) => destruct x eqn:?
  | |- good _ (try_catch _ _) => apply good_try; [|intros ?e ?w' _ ?I ?O; carry]
  end.

Section calls.
Variable user : nat -> val -> list val -> prog.
Variable obj_method : nat -> dmeth -> option fn.
Variable n : nat.
Abbreviation rec := (call user obj_method n).
Hypothesis rec_fn : forall f this args w, inv w -> good w (rec (EFn f) this args).
Hypothesis rec_fire : forall d t this args w,
  inv w -> live (LHd d t) w -> good w (rec (EFire (LHd d t)) this args).

Lemma good_invoke w v m args : inv w -> good w (invoke obj_method rec v m args).
Proof. intros I. unfold invoke. repeat good_step. Qed.

Lemma good_mightThrow w g depth d h sp that args :
  inv w -> is_Some (w_states w !! d) -> good w (mightThrow obj_method rec n g depth d h sp that args).
Proof. intros I A. unfold mightThrow. repeat good_step. Qed.

Lemma good_process w g depth d h sp that args :
  inv w -> is_Some (w_states w !! d) -> good w (process obj_method rec n g depth d h sp that args).
Proof.
  intros I A. unfold process. good_step; [by apply good_mightThrow|].
  apply good_try; [by apply good_mightThrow|]. intros e w' _ I' O'. carry. repeat good_step.
Qed.

Lemma good_call_step w g depth d h sp that args :
  inv w -> is_Some (w_states w !! d) -> good w (call_step obj_method rec n g depth d h sp that args).
Proof. intros I A. unfold call_step. good_step; [by apply good_timer|by apply good_process]. Qed.

Lemma good_add_handler w d t g nd h :
  inv w -> is_Some (w_states w !! d) -> good w (add_handler rec n d t g nd h).
Proof. intros I A. unfold add_handler. repeat good_step. Qed.

Lemma good_then w d a b c :
  inv w -> is_Some (w_states w !! d) -> good w (then_ rec n d a b c).
Proof.
  intros I A. unfold then_. do 3 good_step.
  repeat (good_step; [by apply good_add_handler|]). by good_step.
Qed.

Lemma good_pipe w d fns : inv w -> is_Some (w_states w !! d) -> good w (pipe rec n d fns).
Proof. intros I A. unfold pipe, pipe_tuple. repeat good_step. Qed.

Lemma good_call_pipe w d t f this args :
  inv w -> is_Some (w_states w !! d) -> good w (call_pipe obj_method rec n d t f this args).
Proof.
  intros I A. unfold call_pipe. do 3 good_step; [|by good_step].
  good_step; [by good_step|]. repeat (good_step; [by apply good_invoke|]). by good_step.
Qed.

Lemma good_call_method w d m this args :
  inv w -> is_Some (w_states w !! d) -> good w (call_method rec n d m this args).
Proof.
  intros I A. unfold call_method. destruct m as [| | | | | |t|t|t].
  - repeat good_step.
  - repeat good_step.
  - by apply good_then.
  - by apply good_pipe.
  - by apply good_then.
  - repeat good_step.
  - repeat good_step.
  - repeat good_step.
  - repeat good_step.
Qed.

Lemma good_call_update w i j this args : inv w -> good w (call_update rec n i j this args).
Proof.
  intros I. unfold call_update. good_step. destruct (w_whens w !! i) as [x|] eqn:E; [|by good_step].
  assert (A := inv_when _ _ I _ _ E). apply good_set_when; [done..|]. intros w' I' O'. carry. repeat good_step.
Qed.

Lemma good_adoptValue w v f g b : inv w -> good w (adoptValue obj_method rec v f g b).
Proof.
  intros I. unfold adoptValue. good_step; [|repeat good_step]. good_step. good_step.
  - good_step; [by good_step|]. repeat (good_step; [by apply good_invoke|]). by good_step.
  - repeat good_step.
Qed.

Lemma good_when_loop w i p k : inv w -> good w (when_loop obj_method rec i p k).
Proof.
  revert w. induction k as [|k IH]; intros w I; cbn [when_loop]; [by good_step|].
  good_step. good_step; [by apply good_adoptValue|]. by apply IH.
Qed.

Lemma good_when_single w i p args :
  inv w -> is_Some (w_states w !! p) -> good w (when_single obj_method rec n i p args).
Proof.
  intros I A. unfold when_single. good_step; [by good_step|]. good_step; [by apply good_adoptValue|].
  repeat good_step. by apply good_then.
Qed.

Lemma good_when w args : inv w -> good w (when obj_method rec n args).
Proof.
  intros I. unfold when. do 2 good_step. apply good_set_when; [done..|]. intros w2 I2 O2. carry.
  good_step; [good_step; [by apply good_when_single|by good_step]|].
  good_step; [by good_step|]. good_step; [by apply good_when_loop|by good_step].
Qed.

Lemma good_Deferred w func : inv w -> good w (Deferred rec n func).
Proof. intros I. unfold Deferred. repeat good_step. Qed.

Lemma remove_loop_sub P k e from es idx :
  Forall P es -> Forall P (remove_loop k e from es idx).1.
Proof.
  revert from es idx. induction k as [|k IH]; intros from es idx F; cbn; [done|].
  destruct (in_array _ _ _) as [j|]; [|done]. apply IH. apply Forall_app.
  split; [by apply Forall_take|by apply Forall_drop].
Qed.

Lemma remove_arg_sub v c : Forall is_fn (entries c) -> Forall is_fn (entries (remove_arg c v)).
Proof.
  intros F. unfold remove_arg, entries in *. destruct v; try done. destruct (cl_list c) as [es|] eqn:E; [|by rewrite E].
  assert (R := remove_loop_sub is_fn (S (length es)) (EFn f) 0 es (cl_index c) F).
  by destruct (remove_loop _ _ _ _ _).
Qed.

Lemma good_call_list w i m this args : inv w -> good w (call_list rec n (LPub i) m this args).
Proof.
  intros I. unfold call_list.
  assert (U : forall f, (forall c, Forall is_fn (entries c) -> Forall is_fn (entries (f c))) ->
    good w (update (LPub i) f;; mret this)).
  { intros f K. good_step; [by apply good_upd_pub|by good_step]. }
  assert (F : forall a b, good w (fireWith rec n (LPub i) a b;; mret this)).
  { intros a b. good_step; [by apply good_fireWith|by good_step]. }
  destruct m; try (eapply good_read; [reflexivity|by good_step]); try apply F; try (apply U; intros c Hc).
  - good_step; [by apply good_add|by good_step].
  - revert c Hc. induction args as [|v vs IH]; intros c Hc; [done|]. by apply IH, remove_arg_sub.
  - destruct (cl_list c); [apply Forall_nil_2|done].
  - apply Forall_nil_2.
  - cbn. destruct (cl_memory c), (cl_firing c); try done; apply Forall_nil_2.
Qed.

Lemma good_Callbacks w s : inv w -> good w (Callbacks s).
Proof.
  intros I. unfold Callbacks. good_step. good_step; [apply good_upd_pub; [done|]|by good_step].
  intros. apply Forall_nil_2.
Qed.

Lemma good_run_op w o : inv w -> good w (run_op obj_method rec n o).
Proof.
  intros I. destruct o; cbn [run_op].
  - by apply good_invoke.
  - by good_step.
  - by apply good_Callbacks.
  - by apply good_Deferred.
  - by apply good_when.
  - by good_step.
Qed.

Lemma good_run_prog p w : inv w -> good w (run obj_method rec n p).
Proof.
  revert w. induction p as [v|v|o k IH]; intros w I; cbn [run]; [by good_step..|].
  good_step; [|by apply IH]. good_step; [|by good_step]. good_step; [by apply good_run_op|by good_step].
Qed.

Lemma good_call_fn w f this args : inv w -> good w (call_fn user obj_method rec n f this args).
Proof.
  intros I. unfold call_fn. good_step. destruct (known f w) eqn:K; cbn [negb]; [|by good_step].
  destruct f; cbn in K; try apply bool_decide_eq_true in K.
  - by apply good_run_prog.
  - by apply good_call_list.
  - by apply good_call_method.
  - good_step; [by apply good_call_step|by good_step].
  - good_step; [by apply good_call_pipe|by good_step].
  - repeat good_step.
  - good_step; [by apply good_call_update|by good_step].
  - by good_step.
  - by good_step.
Qed.

End calls.

Section runs.
Variable user : nat -> val -> list val -> prog.
Variable obj_method : nat -> dmeth -> option fn.

Lemma call_good n :
  (forall f this args w, inv w -> good w (call user obj_method n (EFn f) this args)) /\
  (forall d t this args w, inv w -> live (LHd d t) w ->
     good w (call user obj_method n (EFire (LHd d t)) this args)).
Proof.
  induction n as [|n [IH1 IH2]]; [split; intros; apply good_diverge|]. split.
  - intros f this args w I. by apply good_call_fn.
  - intros d t this args w I L. cbn. good_step; [by apply fireWith_plain|by good_step].
Qed.

Lemma run_event_good fuel ev w : inv w -> good w (run_event user obj_method fuel ev).
Proof.
  intros I. destruct (call_good fuel) as [K1 K2]. destruct ev as [p|]; cbn [run_event].
  - good_step; [by apply good_run_prog|by good_step].
  - good_step. destruct (w_timers w) as [|tk ts] eqn:E; [by good_step|].
    assert (F := inv_timers _ _ I). rewrite E in F. apply Forall_cons in F as [A F].
    destruct (inv_same_core None w (set_timers ts w)) as [I' O']; try done; try apply I.
    eapply good_run; [reflexivity|exact O'|]. by apply good_process.
Qed.

Lemma run_events_good fuel evs w w' :
  inv w -> run_events user obj_method fuel evs w = Some w' -> inv w' /\ ord w w'.
Proof.
  revert w. induction evs as [|ev evs IH]; intros w I E; cbn in E; [by simplify_eq|].
  destruct (run_event user obj_method fuel ev w) as [r w1] eqn:Er.
  assert (N : r <> NoFuel) by (by destruct r). 
  destruct (run_event_good fuel ev w I r w1 Er N) as [I1 O1].
  assert (E1 : run_events user obj_method fuel evs w1 = Some w') by (by destruct r).
  destruct (IH w1 I1 E1) as [I2 O2]. split; [done|]. by etrans.
Qed.

Lemma world_inv_start : inv world_start.
Proof.
  split; try done.
  - intros d _ l e this args t H. by apply not_elem_of_nil in H.
  - by intros d [].
Qed.

(** C2. A deferred settles at most once, whatever the callbacks of the page do: in
    every run of scripts and timers, also when callbacks throw, resolve or reject
    again, add callbacks while others run, or chain deferreds, a state that is
    resolved or rejected never changes again; and the callbacks and handlers of a
    side are only ever called when the state of the deferred is that side, so the
    done and the fail callbacks of one deferred never both run. *)
Theorem deferred_settles_once fuel evs1 evs2 w1 w2 :
  run_events user obj_method fuel evs1 world_start = Some w1 ->
  run_events user obj_method fuel evs2 w1 = Some w2 ->
  (forall d st, w_states w1 !! d = Some st -> st <> pending -> w_states w2 !! d = Some st) /\
  (forall l e this args d t, (l, e, this, args) ∈ w_calls w2 -> l = LCb d t \/ l = LHd d t ->
     t <> Notify -> w_states w2 !! d = Some (final t)).
Proof.
  intros E1 E2. destruct (run_events_good _ _ _ _ world_inv_start E1) as [I1 _].
  destruct (run_events_good _ _ _ _ I1 E2) as [I2 O2]. split.
  - intros d st S N. destruct (ord_states _ _ _ O2 _ _ S) as (st' & -> & K). by rewrite K.
  - intros l e this args d t H L N. eapply (inv_calls _ _ I2 d); [done|exact H| |done].
    by destruct L as [-> | ->].
Qed.

End runs.

(** ** A run *)

(** A program that goes on with the answer and passes exceptions on. *)
Definition and_then (o : op) (k : val -> prog) : prog :=
  POp o (fun r => match r with inl v => k v | inr e => PThrow e end).

(** Function 0 rejects the deferred it was called for, function 1 throws. *)
Definition demo_user (i : nat) (this : val) (args : list val) : prog :=
  match i with
  | 0 => and_then (OMethod (VDeferred 0) (MAction Reject) [VData 3]) (fun _ => PRet VUndef)
  | 1 => PThrow (VData 9)
  | _ => PRet (argn args 0)
  end.

Definition demo_method (i : nat) (m : dmeth) : option fn := None.

(** A new deferred with callbacks on both sides and a chained one, resolved twice. *)
Definition demo_script : prog :=
  and_then (ODeferred None) (fun d =>
  and_then (OMethod d (MListen Resolve) [VFn (FUser 0); VFn (FUser 2)]) (fun _ =>
  and_then (OMethod d (MListen Reject) [VFn (FUser 2)]) (fun _ =>
  and_then (OMethod d MThen [VFn (FUser 1)]) (fun _ =>
  and_then (OMethod d (MAction Resolve) [VData 1]) (fun _ =>
  and_then (OMethod d (MAction Resolve) [VData 2]) PRet))))).

Definition demo_run (evs : list event) (w : world) : world :=
  default world_start (run_events demo_user demo_method 30 evs w).

Lemma deferred_settles_once_witness :
  let w1 := demo_run [EvRun demo_script] world_start in
  let w2 := demo_run [EvTimer; EvRun demo_script] w1 in
  w_states w1 !! 0 = Some resolved /\ w_states w1 !! 2 = Some pending /\
  w_states w2 !! 0 = Some resolved /\ w_states w2 !! 2 = Some rejected /\
  (LCb 0 Resolve, EFn (FUser 2), VUndef, [VData 1]) ∈ w_calls w2.
Proof.
  cbv zeta. split; [by vm_compute|]. split; [by vm_compute|]. split; [|split; [by vm_compute|]].
  - refine (proj1 (deferred_settles_once demo_user demo_method 30 [EvRun demo_script]
      [EvTimer; EvRun demo_script] (demo_run [EvRun demo_script] world_start)
      (demo_run [EvTimer; EvRun demo_script] (demo_run [EvRun demo_script] world_start)) _ _) 0 resolved _ _);
      by vm_compute.
  - vm_compute. do 8 right. left.
Defined.

End JqSettle.
