(* ===== verification/JqFiring.v ===== *)
(** What firing a callback list of [jquery.js] delivers: which callbacks are called,
    in which order and with what, for lists with memory, for removals while the
    list is firing, and after a callback has thrown. *)

From S2P Require Import Prelude JqCallbacks JqDeferred JqSettle.
Import JqCallbacks JqDeferred JqSettle.

Module JqFiring.

(** * Removing callbacks *)

Lemma in_array_spec e es from :
  match in_array e es from with
  | Some i => from <= i < length es /\ es !! i = Some e /\
              (forall j x, from <= j < i -> es !! j = Some x -> x <> e)
  | None => forall j x, from <= j -> es !! j = Some x -> x <> e
  end.
Proof.
  unfold in_array. destruct (list_find _ _) as [[i x]|] eqn:F.
  - apply list_find_Some in F as (H & -> & K). rewrite lookup_drop in H.
    split; [apply lookup_lt_Some in H; lia|]. split; [done|]. intros j y Hj Ey.
    apply (K (j - from) y); [|lia]. rewrite lookup_drop. by replace (from + (j - from)) with j by lia.
  - apply list_find_None in F. rewrite Forall_lookup in F. intros j x Hj Ex. apply (F (j - from) x).
    rewrite lookup_drop. by replace (from + (j - from)) with j by lia.
Qed.

Definition keep (e : entry) : list entry -> list entry := base.filter (fun x => x <> e).

Lemma keep_all e es : (forall j x, es !! j = Some x -> x <> e) -> keep e es = es.
Proof.
  intros H. induction es as [|x es IH]; [done|]. unfold keep. rewrite filter_cons_True by (by apply (H 0)).
  f_equal. apply IH. intros j y Hy. by apply (H (S j)).
Qed.

(** Removing one occurrence, and moving the index when it was not called yet. *)
Lemma remove_one e es i idx :
  es !! i = Some e -> (-1 <= idx)%Z ->
  let es' := take i es ++ drop (S i) es in
  let idx' := (if Z.leb (Z.of_nat i) idx then idx - 1 else idx)%Z in
  (-1 <= idx')%Z /\
  keep e (take (Z.to_nat (idx' + 1)) es') = keep e (take (Z.to_nat (idx + 1)) es) /\
  keep e (drop (Z.to_nat (idx' + 1)) es') = keep e (drop (Z.to_nat (idx + 1)) es).
Proof.
  intros E Hi. assert (Hl := lookup_lt_Some _ _ _ E).
  assert (Hs : es = take i es ++ e :: drop (S i) es) by (by rewrite take_drop_middle).
  assert (Lt : length (take i es) = i) by (rewrite length_take; lia).
  cbv zeta. unfold keep. destruct (Z.leb_spec (Z.of_nat i) idx).
  - split; [lia|]. set (a := take i es) in *. set (b := drop (S i) es) in *.
    assert (exists k, Z.to_nat (idx - 1 + 1) = i + k /\ Z.to_nat (idx + 1) = i + S k) as (k & -> & ->).
    { exists (Z.to_nat (idx - Z.of_nat i)). lia. }
    clearbody a b. subst i es. rewrite !take_app_add, !drop_app_add. cbn.
    rewrite !filter_app, filter_cons_False by (intros H'; by apply H'). done.
  - split; [lia|]. set (a := take i es) in *. set (b := drop (S i) es) in *.
    assert (Z.to_nat (idx + 1) <= length a) by lia. clearbody a b. subst es.
    rewrite !take_app_le, !drop_app_le by done.
    rewrite !filter_app, filter_cons_False by (intros H'; by apply H'). done.
Qed.

Lemma remove_loop_spec k e from es idx :
  length es < k + from -> (-1 <= idx)%Z -> (forall j x, j < from -> es !! j = Some x -> x <> e) ->
  let '(es', idx') := remove_loop k e from es idx in
  (-1 <= idx')%Z /\ es' = keep e es /\
  take (Z.to_nat (idx' + 1)) es' = keep e (take (Z.to_nat (idx + 1)) es) /\
  drop (Z.to_nat (idx' + 1)) es' = keep e (drop (Z.to_nat (idx + 1)) es).
Proof.
  revert from es idx. induction k as [|k IH]; intros from es idx Hk Hi Hb; cbn [remove_loop].
  all: assert (Hnone : (forall j x, es !! j = Some x -> x <> e) ->
    (-1 <= idx)%Z /\ es = keep e es /\ take (Z.to_nat (idx + 1)) es = keep e (take (Z.to_nat (idx + 1)) es) /\
    drop (Z.to_nat (idx + 1)) es = keep e (drop (Z.to_nat (idx + 1)) es)).
  1,3: intros H; split; [done|]; split; [by rewrite keep_all|]; split; symmetry; apply keep_all; intros j x Hx;
    [apply lookup_take_Some in Hx as [Hx _]|rewrite lookup_drop in Hx]; by eapply H.
  - apply Hnone. intros j x Hx. apply (Hb j); [|done]. apply lookup_lt_Some in Hx. lia.
  - assert (S := in_array_spec e es from). destruct (in_array e es from) as [i|].
    + destruct S as (Hr & He & Hf).
      destruct (remove_one e es i idx He Hi) as (Hi' & Ht & Hd).
      match goal with |- context [remove_loop k e i ?es' ?idx'] => specialize (IH i es' idx') end.
      destruct (remove_loop k e i _ _) as [es2 idx2]. rewrite <- Ht, <- Hd.
      assert (Lt : length (take i es) = i) by (rewrite length_take; lia).
      destruct IH as (A & B & C & D); try done.
      * rewrite length_app, Lt, length_drop. lia.
      * intros j x Hj Hx. rewrite lookup_app_l, lookup_take_lt in Hx by lia.
        destruct (decide (j < from)); [by apply (Hb j)|by apply (Hf j); [lia|]].
      * split; [done|]. split; [|done]. rewrite B. unfold keep.
        rewrite <- (take_drop_middle es i e) at 3 by done.
        rewrite !filter_app, filter_cons_False by (intros H'; by apply H'). done.
    + apply Hnone. intros j x Hx. destruct (decide (j < from)); [by apply (Hb j)|by apply (S j); [lia|]].
Qed.

(** C26. Removing a callback removes all of its occurrences, and while the list is
    firing neither skips nor repeats another one: the callbacks that were called
    and those that are still to be called are the ones from before without the
    removed one. *)
Theorem remove_correct l f w es :
  cl_list (list_of l w) = Some es -> (-1 <= cl_index (list_of l w))%Z ->
  exists w', remove l [VFn f] w = (Done tt, w') /\
    let idx := Z.to_nat (cl_index (list_of l w) + 1) in
    let idx' := Z.to_nat (cl_index (list_of l w') + 1) in
    entries (list_of l w') = base.filter (fun x => x <> EFn f) es /\
    take idx' (entries (list_of l w')) = base.filter (fun x => x <> EFn f) (take idx es) /\
    drop idx' (entries (list_of l w')) = base.filter (fun x => x <> EFn f) (drop idx es).
Proof.
  intros E Hi. eexists. split; [reflexivity|]. cbv zeta.
  change (set_lists _ w) with (upd l (fun c => foldl remove_arg c [VFn f]) w).
  rewrite list_of_upd. cbn [foldl]. unfold remove_arg. rewrite E.
  assert (R := remove_loop_spec (S (length es)) (EFn f) 0 es (cl_index (list_of l w)) ltac:(lia) Hi ltac:(lia)).
  destruct (remove_loop _ _ _ _ _) as [es' idx']. cbn. by destruct R as (_ & -> & R).
Qed.

(** ** An example of a removal *)

Definition demo_list (es : list entry) (idx : Z) : world :=
  upd (LPub 0) (fun c => set_firing true (set_index idx (set_list (Some es) c))) world_start.

Lemma remove_correct_witness :
  let w := demo_list (EFn <$> [FUser 1; FUser 2; FUser 1; FUser 3]) 1 in
  cl_list (list_of (LPub 0) w) = Some (EFn <$> [FUser 1; FUser 2; FUser 1; FUser 3]) /\
  exists w', remove (LPub 0) [VFn (FUser 1)] w = (Done tt, w') /\
    drop (Z.to_nat (cl_index (list_of (LPub 0) w') + 1)) (entries (list_of (LPub 0) w')) = [EFn (FUser 3)].
Proof.
  cbv zeta. split; [by vm_compute|].
  destruct (remove_correct (LPub 0) (FUser 1) (demo_list (EFn <$> [FUser 1; FUser 2; FUser 1; FUser 3]) 1)
    (EFn <$> [FUser 1; FUser 2; FUser 1; FUser 3])) as (w' & E & _ & _ & D).
  { by vm_compute. }
  { vm_compute. discriminate. }
  exists w'. split; [exact E|]. cbv zeta in D. rewrite D. by vm_compute.
Defined.

(** * Firing callbacks that leave the library alone *)

Section delivery.
Variable user : nat -> val -> list val -> prog.
Variable obj_method : nat -> dmeth -> option fn.
Variable n : nat.
Abbreviation rec := (call user obj_method n).

(** A callback that returns and changes nothing. *)
Definition steady (f : fn) : Prop :=
  forall this args w, exists v, rec (EFn f) this args w = (Done v, w).

(** The calls of a list of callbacks with one context and arguments. *)
Definition calls_of (l : lref) (fs : list fn) (this : val) (args : list val)
  : list (lref * entry * val * list val) := (fun f => (l, EFn f, this, args)) <$> fs.

(** One round of [fire_list] at a callback. *)
Lemma fire_list_round l this vs args k w es f :
  apply_args args = Some vs -> cl_list (list_of l w) = Some es ->
  cl_memory (list_of l w) = Some (this, args) -> stopOnFalse (cl_options (list_of l w)) = false ->
  es !! Z.to_nat (cl_index (list_of l w) + 1) = Some (EFn f) ->
  let w1 := noted l (EFn f) this vs (upd l (set_index (cl_index (list_of l w) + 1)) w) in
  fire_list rec (S k) l w =
    (rec (EFn f) this vs ≫= fun _ => fire_list rec k l) w1.
Proof.
  intros Ha El Em So Ef. cbn [fire_list]. unfold mbind, J_bind. rewrite update_eq.
  rewrite (upd_ext l _ (set_index (cl_index (list_of l w) + 1))) by done.
  unfold get_list. rewrite list_of_upd. unfold entries at 1. cbn [set_index cl_list cl_index].
  rewrite El. cbn [default from_option id]. rewrite Ef. unfold call_entry. cbn [set_index cl_memory].
  rewrite Em. cbn [default from_option id]. rewrite Ha. unfold mbind, J_bind. cbn [set_index cl_options].
  rewrite So. set (w1 := noted l (EFn f) this vs _). 
  change (note_call l (EFn f) this vs _) with (@Done unit tt, w1). cbv beta iota.
  destruct (rec (EFn f) this vs w1) as [[v|e|] w2]; [|done..].
  by destruct v as [| |[]| | | | | | | | |].
Qed.

(** Steady callbacks from the index on are called in order. *)
Lemma fire_list_prefix l this vs args : apply_args args = Some vs ->
  forall fs rest k w es, (-1 <= cl_index (list_of l w))%Z ->
  cl_list (list_of l w) = Some es ->
  drop (Z.to_nat (cl_index (list_of l w) + 1)) es = (EFn <$> fs) ++ rest ->
  cl_memory (list_of l w) = Some (this, args) -> stopOnFalse (cl_options (list_of l w)) = false ->
  Forall steady fs ->
  exists w', fire_list rec (length fs + k) l w = fire_list rec k l w' /\
    list_of l w' = set_index (cl_index (list_of l w) + Z.of_nat (length fs)) (list_of l w) /\
    w_calls w' = w_calls w ++ calls_of l fs this vs.
Proof.
  intros Ha. induction fs as [|f fs IH]; intros rest k w es Hi El Ed Em So St.
  - exists w. split; [done|]. rewrite app_nil_r. split; [|done].
    cbn. rewrite Z.add_0_r. by destruct (list_of l w).
  - apply Forall_cons in St as [Sf St].
    assert (Ef : es !! Z.to_nat (cl_index (list_of l w) + 1) = Some (EFn f)).
    { rewrite <- (Nat.add_0_r (Z.to_nat _)), <- lookup_drop, Ed. done. }
    set (w1 := noted l (EFn f) this vs (upd l (set_index (cl_index (list_of l w) + 1)) w)).
    assert (L1 : list_of l w1 = set_index (cl_index (list_of l w) + 1) (list_of l w)) by apply list_of_upd.
    destruct (IH rest k w1 es) as (w' & E & L' & C); rewrite ?L1; try done; [cbn; lia| |].
    { cbn. replace (Z.to_nat (cl_index (list_of l w) + 1 + 1)) with (Z.to_nat (cl_index (list_of l w) + 1) + 1) by lia.
      by rewrite <- drop_drop, Ed. }
    exists w'. split; [|split].
    + cbn [length Nat.add]. rewrite (fire_list_round l this vs args _ w es f) by done. fold w1.
      destruct (Sf this vs w1) as [v Hv]. unfold mbind, J_bind. by rewrite Hv.
    + rewrite L', L1. cbn [length set_index cl_index]. unfold set_index. cbn -[Z.of_nat]. f_equal. lia.
    + rewrite C. cbn. by rewrite <- app_assoc.
Qed.

(** The end of the list. *)
Lemma fire_list_end k l w es :
  cl_list (list_of l w) = Some es -> length es <= Z.to_nat (cl_index (list_of l w) + 1) ->
  fire_list rec (S k) l w = (Done tt, upd l (fun c => set_index (cl_index c + 1) c) w).
Proof.
  intros El H. cbn [fire_list]. unfold mbind, J_bind. rewrite update_eq. unfold get_list. rewrite list_of_upd.
  unfold entries at 1. cbn [set_index cl_list cl_index]. rewrite El. cbn [default from_option id].
  by rewrite lookup_ge_None_2.
Qed.

(** The variables of a list after a run over all of its entries. *)
Definition after_fire (es : list entry) (m : call_data) (c : cblist) : cblist :=
  let locked := cl_locked c || once (cl_options c) in
  {| cl_options := cl_options c; cl_firing := false; cl_memory := Some m; cl_fired := true;
     cl_locked := locked; cl_list := Some (if locked then [] else es); cl_queue := []; cl_index := -1 |}.

Lemma fire_steady l this vs args fs w es :
  apply_args args = Some vs -> S (length fs) < n -> (-1 <= cl_index (list_of l w))%Z ->
  cl_list (list_of l w) = Some es ->
  drop (Z.to_nat (cl_index (list_of l w) + 1)) es = EFn <$> fs ->
  cl_queue (list_of l w) = [(this, args)] -> memory (cl_options (list_of l w)) = true ->
  stopOnFalse (cl_options (list_of l w)) = false -> Forall steady fs ->
  exists w', fire rec n l w = (Done tt, w') /\
    list_of l w' = after_fire es (this, args) (list_of l w) /\
    w_calls w' = w_calls w ++ calls_of l fs this vs.
Proof.
  intros Ha Hn Hi El Ed Eq Me So St.
  assert (exists k, n = S (S k)) as [k Hk] by (exists (n - 2); lia).
  assert (exists k', n = length fs + S k') as [k' Hk'] by (exists (n - length fs - 1); lia).
  set (w0 := upd l (started (this, args)) w).
  assert (L0 : list_of l w0 = started (this, args) (list_of l w)) by apply list_of_upd.
  destruct (fire_list_prefix l this vs args Ha fs [] (S k') w0 es) as (w1 & E1 & L1 & C1);
    rewrite ?L0; try done; [by rewrite app_nil_r|].
  rewrite <- Hk' in E1. rewrite (fire_list_end k' l w1 es) in E1.
  2: { by rewrite L1, L0. }
  2: { rewrite L1, L0. cbn. apply (f_equal length) in Ed. rewrite length_drop, length_fmap in Ed. lia. }
  unfold fire, mbind, J_bind. rewrite update_eq.
  assert (Hq : fire_queue rec n n l = fire_queue rec n (S (S k)) l) by (by rewrite <- Hk).
  rewrite Hq. cbn [fire_queue].
  unfold get_list, mbind, J_bind. rewrite list_of_upd.
  match goal with |- context [cl_queue ?c] => change (cl_queue c) with (cl_queue (list_of l w)) end.
  rewrite Eq, update_eq, upd_upd. change (upd l _ w) with w0. rewrite E1, update_eq, upd_upd.
  rewrite list_of_upd, L1, L0. cbn [cl_queue set_index started set_memory set_queue mret J_ret].
  rewrite update_eq, upd_upd. eexists. split; [done|]. split; [|by cbn; rewrite C1].
  rewrite list_of_upd, L1, L0. cbn. rewrite Me. unfold after_fire. cbn.
  unfold set_list, set_firing, set_index, started. cbn. destruct (_ || _); [done|by rewrite El].
Qed.

(** [push] of functions on a list without the option [unique]. *)
Lemma add_arg_fns gs c es :
  unique (cl_options c) = false -> cl_list c = Some es ->
  add_arg (VList (VFn <$> gs)) c = set_list (Some (es ++ (EFn <$> gs))) c.
Proof.
  revert c es. induction gs as [|g gs IH]; intros c es U E.
  - cbn. rewrite app_nil_r. by rewrite set_list_same.
  - change (add_arg (VList (VFn <$> g :: gs)) c) with (add_arg (VList (VFn <$> gs)) (add_arg (VFn g) c)).
    assert (E1 : add_arg (VFn g) c = set_list (Some (es ++ [EFn g])) c).
    { cbn. rewrite U. unfold entries. by rewrite E. }
    rewrite E1, (IH _ (es ++ [EFn g])) by done. cbn. by rewrite <- app_assoc.
Qed.

Lemma add_fns_still l gs w es :
  unique (cl_options (list_of l w)) = false -> cl_list (list_of l w) = Some es ->
  cl_memory (list_of l w) = None \/ cl_firing (list_of l w) = true ->
  add rec n l (VFn <$> gs) w = (Done tt, upd l (set_list (Some (es ++ (EFn <$> gs)))) w).
Proof.
  intros U E S. unfold add. rewrite (add_with_still user obj_method n l _ w es) by done.
  f_equal. apply upd_ext. by apply add_arg_fns.
Qed.

(** A new list for functions that are called once. *)
Record ready (fs : list fn) (c : cblist) : Prop := {
  rd_once : once (cl_options c) = true;
  rd_memory : memory (cl_options c) = true;
  rd_unique : unique (cl_options c) = false;
  rd_stop : stopOnFalse (cl_options c) = false;
  rd_state : cl_firing c = false /\ cl_memory c = None /\ cl_locked c = false /\ cl_queue c = [];
  rd_index : cl_index c = (-1)%Z;
  rd_list : cl_list c = Some (EFn <$> fs);
}.

(** C14. A list with the options once and memory delivers one firing to every
    callback exactly once and in order: to the callbacks that are there when it
    fires, and right away to those added later, with the same context and
    arguments; firing it again calls nothing.  This is for lists without the options
    unique and stopOnFalse, and for steady callbacks, which return and leave the world
    as it is: a callback that throws stops the delivery for good, as shown below for
    a list of any options. *)
Theorem once_memory_delivers l w fs gs this args this' args' :
  ready fs (list_of l w) -> Forall steady (fs ++ gs) -> S (length (fs ++ gs)) < n ->
  exists w1 w2 w3,
    fireWith rec n l this (VList args) w = (Done tt, w1) /\
    add rec n l (VFn <$> gs) w1 = (Done tt, w2) /\
    fireWith rec n l this' args' w2 = (Done tt, w3) /\
    w_calls w1 = w_calls w ++ calls_of l fs this args /\
    w_calls w2 = w_calls w1 ++ calls_of l gs this args /\
    w_calls w3 = w_calls w2.
Proof.
  intros [On Me Un So (Fi & Mn & Lo & Qn) Ix El] St Hn. apply Forall_app in St as [Sf Sg].
  rewrite length_app in Hn. set (m := (this, VList args)).
  (* the first firing *)
  set (w0 := upd l (fun c => set_queue (cl_queue c ++ [m]) c) w).
  assert (L0 : list_of l w0 = set_queue [m] (list_of l w)) by (unfold w0; by rewrite list_of_upd, Qn).
  destruct (fire_steady l this args (VList args) fs w0 (EFn <$> fs)) as (w1 & E1 & L1 & C1);
    rewrite ?L0; try done; [lia|cbn; lia|by cbn; rewrite Ix|].
  rewrite L0 in L1. unfold after_fire in L1. cbn in L1. rewrite On, orb_true_r in L1.
  (* the additions *)
  set (f := fun c => set_list (Some (EFn <$> gs)) (set_queue [m] (set_index (-1) c))).
  set (w1' := upd l f w1).
  assert (L1' : list_of l w1' = f (list_of l w1)) by apply list_of_upd.
  destruct (fire_steady l this args (VList args) gs w1' (EFn <$> gs)) as (w2 & E2 & L2 & C2);
    rewrite ?L1', ?L1; try done; [lia|].
  exists w1, w2, w2. split; [|split; [|split; [|split; [|split]]]].
  - unfold fireWith, mbind, J_bind, get_list. rewrite Lo, Fi, update_eq. exact E1.
  - unfold add, add_with, mbind, J_bind, get_list. rewrite L1. cbn [cl_list cl_memory cl_firing negb].
    rewrite !update_eq, upd_upd. rewrite <- E2. f_equal. unfold w1'. apply upd_ext. rewrite L1.
    cbn [cl_memory length Z.of_nat]. by rewrite (add_arg_fns gs _ []).
  - unfold fireWith, mbind, J_bind, get_list. by rewrite L2, L1', L1.
  - exact C1.
  - by rewrite C2.
  - done.
Qed.

(** C34. A callback that throws jams its list for good, although lists with memory
    promise to call every callback that is added after the list has fired: the
    exception leaves the list marked as firing, so the callbacks behind it, those
    added later, and those of later firings are never called. *)
Theorem throwing_callback_jams l w fs f rest gs this args e this' args' :
  cl_list (list_of l w) = Some (EFn <$> fs ++ f :: rest) -> cl_index (list_of l w) = (-1)%Z ->
  cl_locked (list_of l w) = false -> cl_firing (list_of l w) = false -> cl_queue (list_of l w) = [] ->
  unique (cl_options (list_of l w)) = false -> stopOnFalse (cl_options (list_of l w)) = false ->
  Forall steady fs -> (forall this args w, rec (EFn f) this args w = (Exc e, w)) -> S (length fs) < n ->
  exists w1 w2 w3,
    fireWith rec n l this (VList args) w = (Exc e, w1) /\
    add rec n l (VFn <$> gs) w1 = (Done tt, w2) /\
    fireWith rec n l this' args' w2 = (Done tt, w3) /\
    w_calls w1 = w_calls w ++ calls_of l (fs ++ [f]) this args /\
    w_calls w2 = w_calls w1 /\ w_calls w3 = w_calls w1 /\
    cl_firing (list_of l w3) = true.
Proof.
  intros El Ix Lo Fi Qn Un So Sf Th Hn. set (m := (this, VList args)).
  assert (exists k, n = S k) as [k Hk] by (exists (n - 1); lia).
  assert (exists k', n = length fs + S k') as [k' Hk'] by (exists (n - length fs - 1); lia).
  set (w0 := upd l (started m) w).
  assert (L0 : list_of l w0 = started m (list_of l w)) by apply list_of_upd.
  destruct (fire_list_prefix l this args (VList args) eq_refl fs (EFn <$> f :: rest) (S k') w0
    (EFn <$> fs ++ f :: rest)) as (w1 & E1 & L1 & C1); rewrite ?L0; try done; [cbn; lia|cbn; rewrite Ix; by rewrite fmap_app|].
  rewrite <- Hk', (fire_list_round l this args (VList args) _ w1 (EFn <$> fs ++ f :: rest) f) in E1;
    rewrite ?L1, ?L0; try done.
  2: { cbn. rewrite Ix. replace (Z.to_nat (-1 + Z.of_nat (length fs) + 1)) with (length (EFn <$> fs) + 0)
         by (rewrite length_fmap; lia). by rewrite fmap_app, lookup_app_r, Nat.add_0_r, Nat.sub_diag by lia. }
  rewrite L1, L0 in E1.
  match type of E1 with _ = _ ?w => set (w2 := w) in E1 end.
  unfold mbind, J_bind in E1. rewrite Th in E1.
  assert (L2 : cl_list (list_of l w2) = Some (EFn <$> fs ++ f :: rest) /\ cl_firing (list_of l w2) = true /\
    unique (cl_options (list_of l w2)) = false).
  { change (list_of l w2) with (list_of l (upd l (set_index (cl_index (list_of l w) + Z.of_nat (length fs) + 1)) w1)).
    by rewrite list_of_upd, L1, L0. }
  destruct L2 as (L2 & F2 & U2).
  set (w3 := upd l (set_list (Some ((EFn <$> fs ++ f :: rest) ++ (EFn <$> gs)))) w2).
  assert (F3 : cl_firing (list_of l w3) = true) by (unfold w3; by rewrite list_of_upd).
  exists w2, w3.
  assert (exists w4, fireWith rec n l this' args' w3 = (Done tt, w4) /\ w_calls w4 = w_calls w3 /\
    cl_firing (list_of l w4) = true) as (w4 & E4 & C4 & F4).
  { unfold fireWith, mbind, J_bind, get_list. destruct (cl_locked (list_of l w3)); [by exists w3|].
    rewrite F3, update_eq. eexists. split; [done|]. split; [done|]. by rewrite list_of_upd. }
  exists w4. split; [|split; [|split; [exact E4|split; [|split; [done|split; [by rewrite C4|exact F4]]]]]].
  - unfold fireWith, mbind, J_bind, get_list. rewrite Lo, Fi, update_eq. unfold fire, mbind, J_bind.
    rewrite update_eq, upd_upd.
    assert (Hq : fire_queue rec n n l = fire_queue rec n (S k) l) by (by rewrite <- Hk).
    rewrite Hq. cbn [fire_queue]. unfold get_list, mbind, J_bind. rewrite list_of_upd. cbn [cl_queue set_firing set_fired set_locked set_queue].
    rewrite Qn. cbn [app]. rewrite update_eq, upd_upd. rewrite (upd_ext l _ (started m)) by done. fold w0.
    by rewrite E1.
  - by apply add_fns_still; [..|right].
  - cbn. rewrite C1. unfold calls_of. by rewrite fmap_app, <- app_assoc.
Qed.

End delivery.
(** ** Examples *)

(** Functions from 2 on are steady, function 1 throws. *)
Lemma demo_steady i : 2 <= i -> steady demo_user demo_method 10 (FUser i).
Proof. intros H this args w. destruct i as [|[|i]]; [lia..|]. by exists (argn args 0). Qed.

Definition ready_world (es : list entry) : world :=
  upd (LPub 0) (fun _ => set_list (Some es) (new_list (createOptions (js "once memory")))) world_start.

Lemma once_memory_delivers_witness :
  let w := ready_world (EFn <$> [FUser 2; FUser 3]) in
  ready [FUser 2; FUser 3] (list_of (LPub 0) w) /\
  exists w1 w2, fireWith (call demo_user demo_method 10) 10 (LPub 0) VNull (VList [VData 1]) w = (Done tt, w1) /\
    add (call demo_user demo_method 10) 10 (LPub 0) (VFn <$> [FUser 4]) w1 = (Done tt, w2) /\
    w_calls w2 = (w_calls w ++ calls_of (LPub 0) [FUser 2; FUser 3] VNull [VData 1])
                 ++ calls_of (LPub 0) [FUser 4] VNull [VData 1].
Proof.
  cbv zeta. assert (R : ready [FUser 2; FUser 3] (list_of (LPub 0) (ready_world (EFn <$> [FUser 2; FUser 3])))).
  { split; by vm_compute. }
  split; [exact R|].
  destruct (once_memory_delivers demo_user demo_method 10 (LPub 0) (ready_world (EFn <$> [FUser 2; FUser 3]))
    [FUser 2; FUser 3] [FUser 4] VNull [VData 1] VNull VNull R) as (w1 & w2 & w3 & E1 & E2 & _ & C1 & C2 & _).
  { repeat constructor; apply demo_steady; lia. }
  { cbn. lia. }
  exists w1, w2. rewrite C2, C1. by repeat split.
Defined.

Lemma throwing_callback_jams_witness :
  let w := ready_world (EFn <$> [FUser 2; FUser 1; FUser 3]) in
  exists w1 w2, fireWith (call demo_user demo_method 10) 10 (LPub 0) VNull (VList [VData 1]) w = (Exc (VData 9), w1) /\
    add (call demo_user demo_method 10) 10 (LPub 0) (VFn <$> [FUser 4]) w1 = (Done tt, w2) /\
    w_calls w2 = w_calls w ++ calls_of (LPub 0) [FUser 2; FUser 1] VNull [VData 1].
Proof.
  cbv zeta.
  destruct (throwing_callback_jams demo_user demo_method 10 (LPub 0)
    (ready_world (EFn <$> [FUser 2; FUser 1; FUser 3])) [FUser 2] (FUser 1) [FUser 3] [FUser 4] VNull [VData 1]
    (VData 9) VNull VNull) as (w1 & w2 & w3 & E1 & E2 & _ & C1 & C2 & _).
  1-7: by vm_compute.
  { repeat constructor; apply demo_steady; lia. }
  { done. }
  { cbn. lia. }
  exists w1, w2. rewrite C2, C1. by repeat split.
Defined.

End JqFiring.
