(* ===== verification/JqData.v ===== *)
(** The data store of [jquery.js] (lines 4220 to 4462 and 4522 to 4544): an object keeps its data in
    a cache object under a private property, the expando of the store.  Two
    stores exist, [dataPriv] and [dataUser]; a store is its expando.  The getters
    of HTML5 attributes ([getData], [dataAttr]) are here as well. *)

From S2P Require Import Prelude Regex JsCore JqCore JqCallbacks.
Import JqCore.

Module JqData.

Section store.
Context `{Realm} `{Host}.
Variable call : loc -> value -> list value -> M value.

(** [camelCase(v)]; strings only, another value has no [replace]. *)
Definition camelCase_value (v : value) : M jstr :=
  match v with VStr s => mret (camelCase s) | _ => throw TypeError end.

Definition acceptData (owner : value) : M bool :=
  nodeType ← get_str owner "nodeType";
  if strict_eq nodeType (VNat 1) then mret true
  else if strict_eq nodeType (VNat 9) then mret true
  else n ← to_num call nodeType; mret (negb (truthy (VNum n))).

(** [Object.defineProperty(v, k, { value: w, configurable: true })]: a new property
    is not enumerable, an existing one stays as it was. *)
Definition define_hidden (v : value) (k : key) (w : value) : M unit :=
  match v with
  | VRef l =>
      h ← get_heap;
      match h !! l with
      | Some o =>
          let ps := match assoc_get (o_props o) k with
                    | Some _ => assoc_put (o_props o) k w
                    | None => o_props o ++ [(k, {| p_val := w; p_enum := false |})]
                    end in
          set_heap (<[l := with_props o ps]> h)
      | None => mret tt
      end
  | _ => throw TypeError
  end.

(** [Data]: the store is its [expando]. *)
Variable expando : key.

Definition cache (owner : value) : M value :=
  value ← get_prop owner expando;
  if truthy value then mret value else
  value ← new_object [];
  ok ← acceptData owner;
  if ok : bool then
    nodeType ← get_str owner "nodeType";
    (if truthy nodeType then put_prop owner expando value else define_hidden owner expando value);;
    mret value
  else mret value.

(** The body of the loop of [set] over the properties of an object. *)
Definition set_one (cache data : value) (prop : key) : M unit :=
  k ← camelCase_value (key_to_value prop);
  x ← get_prop data prop;
  put_prop cache (key_of_str k) x.

Definition set (owner data value : value) : M JsCore.value :=
  c ← cache owner;
  (match data with
   | VStr s => put_prop c (key_of_str (camelCase s)) value
   | _ => h ← get_heap; foldM (fun _ prop => set_one c data prop) tt (for_in_keys h data)
   end);;
  mret c.

Definition get (owner key : value) : M value :=
  match key with
  | VUndef => cache owner
  | _ =>
      c ← get_prop owner expando;
      if truthy c then
        c' ← get_prop owner expando; k ← camelCase_value key; get_prop c' (key_of_str k)
      else mret c
  end.

Definition access (owner key value : value) : M JsCore.value :=
  if match key with
     | VUndef => true
     | VStr (_ :: _) => bool_decide (value = VUndef)
     | _ => false
     end
  then get owner key
  else set owner key value;; mret (if bool_decide (value = VUndef) then key else value).

(** The keys [remove] deletes for an argument that is not undefined. *)
Definition keys_to_remove (c key : value) : M (list value) :=
  h ← get_heap;
  if is_array h key then
    n ← length_of call key;
    es ← read_elems key 0 n;
    foldM (fun acc e => match e with
                        | Some v => k ← camelCase_value v; mret (acc ++ [VStr k])
                        | None => mret (acc ++ [VUndef])      (* [map] keeps holes *)
                        end) [] es
  else
    k ← camelCase_value key;
    b ← in_obj (key_of_str k) c;
    mret (if b : bool then [VStr k] else VStr <$> JqCallbacks.not_white k).

Definition remove (owner key : value) : M unit :=
  c ← get_prop owner expando;
  match c with
  | VUndef => mret tt
  | _ =>
      (match key with
       | VUndef => mret tt
       | _ => ks ← keys_to_remove c key;
              foldM (fun _ k => k ← to_key call k; del_prop c k) tt (rev ks)
       end);;
      h ← get_heap;
      if bool_decide (key = VUndef) || isEmptyObject h c then
        nodeType ← get_str owner "nodeType";
        if truthy nodeType then put_prop owner expando VUndef else del_prop owner expando
      else mret tt
  end.

Definition hasData (owner : value) : M bool :=
  c ← get_prop owner expando;
  h ← get_heap;
  mret (negb (bool_decide (c = VUndef)) && negb (isEmptyObject h c)).

End store.

(** * The two stores *)

Section stores.
Context `{Realm} `{Host}.
Variable call : loc -> value -> list value -> M value.
Variables dataPriv dataUser : key.

Definition jq_hasData (elem : value) : M bool :=
  b ← hasData dataUser elem; if b : bool then mret true else hasData dataPriv elem.
Definition jq_data (elem name data : value) : M value := access call dataUser elem name data.
Definition jq_removeData (elem name : value) : M unit := remove call dataUser elem name.

(** ** Data attributes *)

(** The text of an attribute: [getAttribute] answers null for one that is absent. *)
Variable getAttribute : value -> jstr -> option jstr.

(** [JSON.parse] *)
Variable JSON_parse : jstr -> M value.

(** [/^(?:\{[\w\W]*\}|\[[\w\W]*\])$/] *)
Definition rbrace (s : jstr) : bool :=
  match s with
  | c :: _ :: _ =>
      let d := default 0%N (last s) in
      (N.eqb c (chr "{") && N.eqb d (chr "}")) || (N.eqb c (chr "[") && N.eqb d (chr "]"))
  | _ => false
  end.

(** Numerals with a fraction or an exponent are outside the numbers of [JsCore] and
    stay texts here. *)
Definition getData (data : jstr) : M value :=
  if bool_decide (data = js "true") then mret (VBool true)
  else if bool_decide (data = js "false") then mret (VBool false)
  else if bool_decide (data = js "null") then mret VNull
  else if bool_decide (data = num_to_str (str_to_num data)) then mret (VNum (str_to_num data))
  else if rbrace data then JSON_parse data
  else mret (VStr data).

(** ["data-" + key.replace(/[A-Z]/g, "-$&").toLowerCase()] *)
Definition attr_name `{Unicode} (key : jstr) : jstr :=
  js "data-" ++ toLowerCase (concat ((fun c => if is_upper c then [chr "-"; c] else [c]) <$> key)).

(** [try m catch (e) other] *)
Definition try_value (m : M value) (other : value) : M value := fun s =>
  match m s with (Exc _, s') => (Done other, s') | r => r end.

Definition dataAttr `{Unicode} (elem : value) (key : jstr) (data : value) : M value :=
  match data with
  | VUndef =>
      nodeType ← get_str elem "nodeType";
      if strict_eq nodeType (VNat 1) then
        match getAttribute elem (attr_name key) with
        | Some text =>
            data ← try_value (getData text) (VStr text);
            set call dataUser elem (VStr key) data;;
            mret data
        | None => mret VUndef
        end
      else mret VUndef
  | _ => mret data
  end.

(** The read path of [elem.data(key)]. *)
Definition data_read `{Unicode} (elem : value) (key : jstr) : M value :=
  data ← get call dataUser elem (VStr key);
  match data with VUndef => dataAttr elem key VUndef | _ => mret data end.

End stores.
End JqData.
