(* ===== verification/JqDataProofs.v ===== *)
(** The data stores of [jquery.js] against finite maps: any sequence of reads,
    writes and removals through several stores of one object answers what
    independent maps under the camel-cased keys answer. *)

From Stdlib Require Import QArith_base.
From S2P Require Import Prelude Regex JsCore JqCore JqCallbacks JqData JsLogic.
Import JqCore JqData.

Module JqDataProofs.

#[global] Program Instance key_countable : Countable key :=
  inj_countable' (fun k => match k with KIdx n => inl n | KStr s => inr (inl s) | KSym y => inr (inr y) end)
                 (fun c => match c with inl n => KIdx n | inr (inl s) => KStr s | inr (inr y) => KSym y end) _.
Next Obligation. by intros []. Qed.

(** * Prototype chains *)

Section paths.
Context `{Realm}.
Implicit Types (h : gmap loc obj) (ps : list loc) (k : key).

(** The chain from [p] is [ps]. *)
Fixpoint path h (p : option loc) ps : Prop :=
  match ps with
  | [] => p = None
  | q :: ps' => p = Some q /\ exists o, h !! q = Some o /\ path h (o_proto o) ps'
  end.

(** The property [k] along the objects [ps]. *)
Fixpoint find_in h ps k : option value :=
  match ps with
  | [] => None
  | q :: ps' => match h !! q ≫= fun o => own_get o k with Some v => Some v | None => find_in h ps' k end
  end.

Lemma path_dom h p ps q : path h p ps -> q ∈ ps -> is_Some (h !! q).
Proof.
  revert p. induction ps as [|r ps IH]; intros p; [by intros _ ?%elem_of_nil|].
  intros (_ & o & Hr & Hp) [->|Hq]%elem_of_cons; [done|by apply (IH (o_proto o))].
Qed.

Lemma path_same h h' p ps : (forall q, q ∈ ps -> h' !! q = h !! q) -> path h p ps -> path h' p ps.
Proof.
  revert p. induction ps as [|q ps IH]; intros p E; [done|]. intros (-> & o & Hq & Hp).
  split; [done|]. exists o. rewrite E by left. split; [done|]. apply IH; [|done].
  intros r Hr. apply E. by right.
Qed.

Lemma find_in_same h h' ps k : (forall q, q ∈ ps -> h' !! q = h !! q) -> find_in h' ps k = find_in h ps k.
Proof.
  induction ps as [|q ps IH]; intros E; [done|]. cbn [find_in]. rewrite E by left.
  rewrite IH; [done|]. intros r Hr. apply E. by right.
Qed.

Lemma chain_get_path h ps k : forall n l o, length ps < n -> h !! l = Some o -> path h (o_proto o) ps ->
  chain_get h n l k = match own_get o k with Some v => Some v | None => find_in h ps k end.
Proof.
  induction ps as [|q ps IH]; intros n l o Hn Hl Hp; (destruct n as [|n]; [cbn in Hn; lia|]);
    cbn [chain_get]; rewrite Hl; destruct (own_get o k); try done; cbn in Hp.
  - by rewrite Hp.
  - destruct Hp as (-> & o' & Hq & Hp). rewrite (IH n q o') by (done || (cbn in Hn; lia)).
    cbn [find_in]. by rewrite Hq.
Qed.

Lemma obj_lookup_path h l o ps k : h !! l = Some o -> path h (o_proto o) ps -> NoDup ps ->
  obj_lookup h l k = match own_get o k with Some v => Some v | None => find_in h ps k end.
Proof.
  intros Hl Hp Hn. apply chain_get_path; [|done|done].
  assert (size (list_to_set ps : gset loc) <= size (dom h)) as Hs.
  { apply subseteq_size. intros q Hq%elem_of_list_to_set. apply elem_of_dom. by apply (path_dom _ _ _ _ Hp). }
  rewrite size_list_to_set, size_dom in Hs by done. lia.
Qed.

End paths.

(** * Property lists *)

(** The own property [k] of an object that is not exotic. *)
Definition at_key (o : obj) (k : key) : option value := p_val <$> assoc_get (o_props o) k.

Lemma own_get_plain o k : o_class o = CObject -> own_get o k = at_key o k.
Proof. intros E. unfold own_get, at_key. rewrite E. cbn. by destruct (o_data o). Qed.

(** [assoc_get] on the head of a list. *)
Lemma assoc_get_cons k1 p ps k :
  assoc_get ((k1, p) :: ps) k = if decide (k = k1) then Some p else assoc_get ps k.
Proof. cbn. case_decide; [by rewrite bool_decide_eq_true_2|by rewrite bool_decide_eq_false_2]. Qed.

Lemma assoc_put_cons k1 p ps k v :
  assoc_put ((k1, p) :: ps) k v =
  if decide (k = k1) then (k1, {| p_val := v; p_enum := p_enum p |}) :: ps else (k1, p) :: assoc_put ps k v.
Proof. cbn. case_decide; [by rewrite bool_decide_eq_true_2|by rewrite bool_decide_eq_false_2]. Qed.

Ltac prop_cases := repeat (rewrite assoc_get_cons || rewrite assoc_put_cons || case_decide); subst; try done.

Lemma assoc_put_get ps k v k' :
  p_val <$> assoc_get (assoc_put ps k v) k' = if decide (k' = k) then Some v else p_val <$> assoc_get ps k'.
Proof.
  induction ps as [|[k1 p] ps IH]; [cbn [assoc_put]|]; prop_cases; rewrite IH; prop_cases.
Qed.

Lemma assoc_get_snoc ps k p k' : assoc_get ps k = None ->
  assoc_get (ps ++ [(k, p)]) k' = if decide (k' = k) then Some p else assoc_get ps k'.
Proof.
  induction ps as [|[k1 q] ps IH]; [intros _; cbn [app]; prop_cases|].
  cbn [app]. rewrite !assoc_get_cons. destruct (decide (k = k1)); [done|]. intros E. rewrite (IH E). prop_cases.
Qed.

Lemma assoc_del_get ps k k' : assoc_get (assoc_del ps k) k' = if decide (k' = k) then None else assoc_get ps k'.
Proof.
  unfold assoc_del. induction ps as [|[k1 p] ps IH]; [cbn; by case_decide|].
  rewrite filter_cons. cbn [fst]. rewrite assoc_get_cons. destruct (decide (k1 <> k)).
  - rewrite assoc_get_cons, IH. prop_cases.
  - rewrite IH. assert (k1 = k) as -> by (by apply dec_stable). prop_cases.
Qed.

Lemma at_put o k v k' : at_key (with_props o (assoc_put (o_props o) k v)) k' =
  if decide (k' = k) then Some v else at_key o k'.
Proof. apply assoc_put_get. Qed.

Lemma at_del o k k' : at_key (with_props o (assoc_del (o_props o) k)) k' =
  if decide (k' = k) then None else at_key o k'.
Proof. unfold at_key. cbn. rewrite assoc_del_get. by case_decide. Qed.

Lemma own_put_plain o k v : o_class o = CObject -> own_put o k v = with_props o (assoc_put (o_props o) k v).
Proof. intros E. unfold own_put. rewrite E. by destruct k. Qed.

Lemma own_del_plain o k : o_class o = CObject -> own_del o k = with_props o (assoc_del (o_props o) k).
Proof. intros E. unfold own_del. rewrite E. by destruct k. Qed.


(** * The representation of the stores *)

(** The cache object [co] holds the entries [m]. *)
Definition is_cache `{Realm} (co : obj) (m : gmap key value) : Prop :=
  o_class co = CObject /\ o_proto co = Some ObjProto /\ o_elems co = [] /\ o_data co = VUndef /\
  Forall (fun kp => p_enum kp.2 = true /\ match kp.1 with KSym _ => False | _ => True end) (o_props co) /\
  forall k, m !! k = at_key co k.

Definition node_key : key := KStr (js "nodeType").

(** The node types an object with data has: none, an element or a document. *)
Definition accepted (nt : value) : Prop := nt = VUndef \/ nt = VNat 1 \/ nt = VNat 9.

Definition upd_store (ms : key -> gmap key value) (e : key) (m : gmap key value) (e' : key) : gmap key value :=
  if decide (e' = e) then m else ms e'.

Section representation.
Context `{Realm}.
Variable call : loc -> value -> list value -> M value.

(** The owner [l], its prototypes, its node type, [Object.prototype], and the
    expandos of the stores. *)
Variables (l : loc) (ps : list loc) (nt : value) (op : obj) (exps : list key).

Record host (h : gmap loc obj) (o : obj) : Prop := {
  ho_at : h !! l = Some o;
  ho_class : o_class o = CObject;
  ho_path : path h (o_proto o) ps;
  ho_node : match at_key o node_key with Some v => Some v | None => find_in h ps node_key end
            = (if decide (nt = VUndef) then None else Some nt);
  ho_exp : forall e, e ∈ exps -> find_in h ps e = None;
  ho_op : h !! ObjProto = Some op;
}.

(** What never changes. *)
Record setting : Prop := {
  se_nodup : NoDup ps;
  se_owner : l ∉ ps;
  se_op : ObjProto <> l;
  se_root : o_proto op = None /\ own_keys op = [];
  se_nt : accepted nt;
  se_exps : node_key ∉ exps;
}.

(** The value of the expando and the entries [m] of the store. *)
Definition slot (h : gmap loc obj) (x : option value) (m : gmap key value) : Prop :=
  match x with
  | None | Some VUndef => m = ∅
  | Some (VRef c) => c <> l /\ c ∉ ps /\ c <> ObjProto /\ exists co, h !! c = Some co /\ is_cache co m
  | _ => False
  end.

(** The stores of the owner hold the maps [ms], in separate objects. *)
Definition rep (ms : key -> gmap key value) (h : gmap loc obj) : Prop :=
  exists o, host h o /\ (forall e, e ∈ exps -> slot h (at_key o e) (ms e)) /\
    (forall e1 e2 c, e1 ∈ exps -> e2 ∈ exps -> at_key o e1 = Some (VRef c) ->
       at_key o e2 = Some (VRef c) -> e1 = e2).

Hypothesis Set_ : setting.

Lemma get_owner s o k : host (heap s) o ->
  get_prop (VRef l) k s = (Done (or_undef (match at_key o k with
                                           | Some v => Some v | None => find_in (heap s) ps k end)), s).
Proof.
  intros Ho. unfold get_prop. rewrite bind_heap.
  rewrite (obj_lookup_path _ _ o ps k), own_get_plain by apply Ho || apply Set_. done.
Qed.

Lemma get_expando s o e : host (heap s) o -> e ∈ exps ->
  get_prop (VRef l) e s = (Done (or_undef (at_key o e)), s).
Proof. intros Ho He. rewrite (get_owner s o e Ho), (ho_exp _ _ Ho e He). by destruct (at_key o e). Qed.

Lemma get_node s o : host (heap s) o -> get_str (VRef l) "nodeType" s = (Done nt, s).
Proof.
  intros Ho. unfold get_str. fold node_key. rewrite (get_owner s o _ Ho), (ho_node _ _ Ho).
  case_decide as E; [by rewrite E|done].
Qed.

(** The heap may change away from the prototypes, the owner in other properties. *)
Lemma host_update h h' o o' : host h o -> h' !! l = Some o' ->
  o_class o' = CObject -> o_proto o' = o_proto o -> at_key o' node_key = at_key o node_key ->
  (forall q, q ∈ ObjProto :: ps -> h' !! q = h !! q) -> host h' o'.
Proof.
  intros [A C P N X O] Hl Hc Hp Hn E.
  assert (F : forall k, find_in h' ps k = find_in h ps k).
  { intros k. apply find_in_same. intros q Hq. apply E. by right. }
  split; [done|done|..].
  - rewrite Hp. apply (path_same h); [|done]. intros q Hq. apply E. by right.
  - by rewrite Hn, F.
  - intros e He. rewrite F. auto.
  - rewrite E by left. done.
Qed.

Lemma slot_frame h h' x m : slot h x m ->
  (forall c, x = Some (VRef c) -> h' !! c = h !! c) -> slot h' x m.
Proof.
  destruct x as [[]|]; try done. intros (? & ? & ? & co & Hc & ?) E. cbn.
  repeat (split; [done|]). exists co. by rewrite E.
Qed.

(** ** The three changes of the heap *)

Lemma away c q : c ∉ ps -> c <> ObjProto -> q ∈ ObjProto :: ps -> c <> q.
Proof. intros ?? Hq ->. by apply elem_of_cons in Hq as [|]. Qed.

Lemma owner_not_proto q : q ∈ ObjProto :: ps -> l <> q.
Proof. apply away; [apply Set_|apply not_eq_sym, Set_]. Qed.

(** The owner gets a new, empty cache. *)
Lemma rep_new ms h o c co e ps' : rep ms h -> host h o -> e ∈ exps ->
  (at_key o e = None \/ at_key o e = Some VUndef) -> h !! c = None ->
  is_cache co ∅ -> let o' := with_props o ps' in
  (forall k, at_key o' k = if decide (k = e) then Some (VRef c) else at_key o k) ->
  rep ms (<[l := o']> (<[c := co]> h)) /\ host (<[l := o']> (<[c := co]> h)) o'.
Proof.
  intros (o0 & Ho0 & Sl & Sep) Ho He Hx Hc Hco o' Ha.
  assert (o0 = o) as -> by (pose proof (ho_at _ _ Ho0); pose proof (ho_at _ _ Ho); congruence).
  assert (Hcl : c <> l) by (intros ->; pose proof (ho_at _ _ Ho); congruence).
  assert (Hcp : c ∉ ps).
  { intros Hq. destruct (path_dom _ _ _ _ (ho_path _ _ Ho) Hq). congruence. }
  assert (Hco' : c <> ObjProto) by (intros ->; pose proof (ho_op _ _ Ho); congruence).
  assert (Hh : host (<[l := o']> (<[c := co]> h)) o').
  { apply (host_update h _ o); [done|by rewrite lookup_insert_eq|apply Ho|done| |].
    - rewrite Ha, decide_False; [done|]. intros <-. by apply (se_exps Set_).
    - intros q Hq. rewrite !lookup_insert_ne by (by apply owner_not_proto || apply (away c)). done. }
  split; [|done]. exists o'. split; [done|]. split.
  - intros e' He'. rewrite Ha. case_decide as Hd.
    + subst e'. cbn. repeat (split; [done|]). exists co. rewrite lookup_insert_ne, lookup_insert_eq by done.
      split; [done|]. specialize (Sl e He). assert (ms e = ∅) as -> by (by destruct Hx as [Hx|Hx]; rewrite Hx in Sl).
      done.
    + eapply slot_frame; [apply Sl; done|]. intros c' Hc'. specialize (Sl e' He'). rewrite Hc' in Sl.
      destruct Sl as (? & _ & _ & co' & Hcc & _). rewrite !lookup_insert_ne; [done|congruence|done].
  - assert (Fresh : forall e', e' ∈ exps -> at_key o e' <> Some (VRef c)).
    { intros e' He' Hc'. specialize (Sl e' He'). rewrite Hc' in Sl. destruct Sl as (_ & _ & _ & co' & ? & _). congruence. }
    intros e1 e2 c' H1 H2. rewrite !Ha. repeat case_decide; subst; try done; intros E1 E2; simplify_eq.
    + by destruct (Fresh e2 H2).
    + by destruct (Fresh e1 H1).
    + by apply (Sep e1 e2 c').
Qed.

(** The cache of a store changes. *)
Lemma rep_write ms h o c co e m : rep ms h -> host h o -> e ∈ exps ->
  at_key o e = Some (VRef c) -> is_cache co m ->
  rep (upd_store ms e m) (<[c := co]> h) /\ host (<[c := co]> h) o.
Proof.
  intros (o0 & Ho0 & Sl & Sep) Ho He Hx Hco.
  assert (o0 = o) as -> by (pose proof (ho_at _ _ Ho0); pose proof (ho_at _ _ Ho); congruence).
  pose proof (Sl e He) as Se. rewrite Hx in Se. destruct Se as (Hcl & Hcp & Hco' & co0 & Hc & _).
  assert (Hh : host (<[c := co]> h) o).
  { apply (host_update h _ o); [done|by rewrite lookup_insert_ne; [apply Ho|]|apply Ho|done|done|].
    intros q Hq. by rewrite lookup_insert_ne by by apply (away c). }
  split; [|done]. exists o. split; [done|]. split; [|done]. intros e' He'. unfold upd_store. case_decide as Hd.
  - subst e'. rewrite Hx. cbn. repeat (split; [done|]). exists co. by rewrite lookup_insert_eq.
  - apply (slot_frame h); [by apply Sl|]. intros c' Hc'. apply lookup_insert_ne. intros <-.
    apply Hd. symmetry. by apply (Sep e e' c).
Qed.

(** The expando of a store is taken off the owner. *)
Lemma rep_drop ms h o e ps' : rep ms h -> host h o -> e ∈ exps -> let o' := with_props o ps' in
  (at_key o' e = None \/ at_key o' e = Some VUndef) ->
  (forall k, k <> e -> at_key o' k = at_key o k) ->
  rep (upd_store ms e ∅) (<[l := o']> h).
Proof.
  intros (o0 & Ho0 & Sl & Sep) Ho He o' Hx Ha.
  assert (o0 = o) as -> by (pose proof (ho_at _ _ Ho0); pose proof (ho_at _ _ Ho); congruence).
  exists o'. split; [|split].
  - apply (host_update h _ o); [done|by rewrite lookup_insert_eq|apply Ho|done| |].
    + apply Ha. intros <-. by apply (se_exps Set_).
    + intros q Hq. by rewrite lookup_insert_ne by by apply owner_not_proto.
  - intros e' He'. unfold upd_store. case_decide as Hd; [subst; by destruct Hx as [-> | ->]|].
    rewrite Ha by done. apply (slot_frame h); [by apply Sl|]. intros c Hc. specialize (Sl e' He').
    rewrite Hc in Sl. apply lookup_insert_ne. intros <-. by destruct Sl.
  - intros e1 e2 c H1 H2. destruct (decide (e1 = e)) as [->|N1]; [by destruct Hx as [-> | ->]|].
    destruct (decide (e2 = e)) as [->|N2]; [by destruct Hx as [-> | ->]|].
    rewrite !Ha by done. by apply Sep.
Qed.

Lemma rep_ext ms ms' h : (forall e, e ∈ exps -> ms e = ms' e) -> rep ms h -> rep ms' h.
Proof.
  intros E (o & Ho & Sl & Sep). exists o. split; [done|]. split; [|done].
  intros e He. rewrite <- E by done. auto.
Qed.

(** An unrelated new object. *)
Lemma rep_alloc ms h a x : rep ms h -> h !! a = None -> rep ms (<[a := x]> h).
Proof.
  intros (o & Ho & Sl & Sep) Ha. exists o. split; [|split; [|done]].
  - apply (host_update h _ o); [done| |apply Ho|done|done|].
    + rewrite lookup_insert_ne; [apply Ho|]. intros ->. pose proof (ho_at _ _ Ho). congruence.
    + intros q [->|Hq]%elem_of_cons; apply lookup_insert_ne; intros ->.
      * pose proof (ho_op _ _ Ho). congruence.
      * destruct (path_dom _ _ _ _ (ho_path _ _ Ho) Hq). congruence.
  - intros e He. apply (slot_frame h); [auto|]. intros c Hc. specialize (Sl e He). rewrite Hc in Sl.
    destruct Sl as (_ & _ & _ & co & Hco & _). apply lookup_insert_ne. congruence.
Qed.

(** ** Cache objects *)

Lemma is_cache_empty : is_cache {| o_class := CObject; o_proto := Some ObjProto; o_elems := [];
                                   o_props := []; o_data := VUndef |} ∅.
Proof. repeat (split; [done|]). intros k. apply lookup_empty. Qed.

Definition no_symbol (k : key) : Prop := match k with KSym _ => False | _ => True end.

Lemma no_symbol_str s : no_symbol (key_of_str s).
Proof. unfold key_of_str. destruct (nat_of_str s); [case_bool_decide|]; done. Qed.

Lemma is_cache_put co m k v : is_cache co m -> no_symbol k -> is_cache (own_put co k v) (<[k := v]> m).
Proof.
  intros (C & P & E & D & F & L) Hk. rewrite own_put_plain by done. repeat (split; [done|]). split.
  - cbn. clear L. induction F as [|[k1 p] ps1 [Hp Hs] F IH]; [constructor; [done|constructor]|].
    rewrite assoc_put_cons. case_decide; constructor; done.
  - intros k'. rewrite at_put. case_decide as Hd; [subst; apply lookup_insert_eq|].
    by rewrite lookup_insert_ne.
Qed.

Lemma is_cache_del co m k : is_cache co m -> is_cache (own_del co k) (delete k m).
Proof.
  intros (C & P & E & D & F & L). rewrite own_del_plain by done. repeat (split; [done|]). split.
  - cbn. unfold assoc_del. rewrite Forall_forall in F |- *. intros x [_ Hx]%list_elem_of_filter. auto.
  - intros k'. rewrite at_del. case_decide as Hd; [subst; apply lookup_delete_eq|].
    by rewrite lookup_delete_ne.
Qed.

Lemma lookup_cache h o c co m k : host h o -> h !! c = Some co -> is_cache co m -> own_get op k = None ->
  obj_lookup h c k = m !! k.
Proof.
  intros Ho Hc (C & P & _ & _ & _ & L) Hk. rewrite (obj_lookup_path _ _ co [ObjProto]); [|done| |].
  - rewrite own_get_plain, <- L by done. destruct (m !! k); [done|]. cbn [find_in].
    rewrite (ho_op _ _ Ho). cbn. by rewrite Hk.
  - rewrite P. split; [done|]. exists op. split; [apply Ho|]. apply Set_.
  - apply NoDup_singleton.
Qed.

Lemma index_keys_cons k p ps' : index_keys ((k, p) :: ps') = [] ->
  match k with KIdx _ => p_enum p = false | _ => True end.
Proof.
  unfold index_keys. destruct k; try done. cbn. destruct (p_enum p); [|done].
  cbn. intros E. destruct (foldr _ _ _); cbn in E; [done|]. by destruct (Nat.leb _ _).
Qed.

Lemma empty_cache h o c co m : host h o -> h !! c = Some co -> is_cache co m ->
  isEmptyObject h (VRef c) = bool_decide (m = ∅).
Proof.
  intros Ho Hc (C & P & E & D & F & L). unfold isEmptyObject, for_in_keys. cbn [chain_keys]. rewrite Hc, P.
  assert (R : forall n sh, chain_keys h n ObjProto sh = []).
  { intros [|n] sh; [done|]. cbn. rewrite (ho_op _ _ Ho). destruct (se_root Set_) as [-> ->]. done. }
  rewrite R, app_nil_r. unfold own_keys. rewrite E, D. cbn [present app].
  destruct (o_props co) as [|[k p] ps'] eqn:Ep.
  - cbn. rewrite bool_decide_eq_true_2; [done|]. apply map_eq. intros k. rewrite L. unfold at_key. by rewrite Ep.
  - rewrite bool_decide_eq_false_2.
    + apply Forall_cons in F as [[Hp Hk] _]. cbn in Hp, Hk.
      destruct (base.filter _ _) as [|x xs] eqn:Ef; [|done]. exfalso.
      assert (A : forall ks : list key, base.filter (fun k => k ∉ []) ks = [] -> ks = []).
      { intros [|y ys]; [done|]. rewrite filter_cons_True by apply not_elem_of_nil. done. }
      apply A in Ef. clear A. rename Ef into A.
      apply app_eq_nil in A as [A B]. apply fmap_nil_inv, index_keys_cons in A.
      destruct k; [congruence| |done]. unfold string_keys in B. cbn in B. by rewrite Hp in B.
    + intros ->. specialize (L k). unfold at_key in L. rewrite Ep, assoc_get_cons, decide_True in L by done.
      by rewrite lookup_empty in L.
Qed.

(** ** The operations *)

(** The store [e] has the cache [c] with the entries [m]. *)
Definition opened (ms : key -> gmap key value) (e : key) (c : loc) (s : state) : Prop :=
  rep ms (heap s) /\ e ∈ exps /\ exists o co, host (heap s) o /\ at_key o e = Some (VRef c) /\
    heap s !! c = Some co /\ is_cache co (ms e).

Lemma open_store ms e s o c : rep ms (heap s) -> e ∈ exps -> host (heap s) o ->
  at_key o e = Some (VRef c) -> opened ms e c s.
Proof.
  intros R He Ho Hx. split; [done|]. split; [done|]. destruct R as (o0 & Ho0 & Sl & _).
  assert (o0 = o) as -> by (pose proof (ho_at _ _ Ho0); pose proof (ho_at _ _ Ho); congruence).
  specialize (Sl e He). rewrite Hx in Sl. destruct Sl as (_ & _ & _ & co & Hc & Hco).
  by exists o, co.
Qed.

(** The value of the expando of a store. *)
Lemma expando_cases ms e s : rep ms (heap s) -> e ∈ exps ->
  (get_prop (VRef l) e s = (Done VUndef, s) /\ ms e = ∅) \/
  (exists c, get_prop (VRef l) e s = (Done (VRef c), s) /\ opened ms e c s).
Proof.
  intros R He. pose proof R as (o & Ho & Sl & _). rewrite (get_expando s o e Ho He).
  specialize (Sl e He). destruct (at_key o e) as [[]|] eqn:Hx; try done; [by left| |by left].
  right. eexists. split; [done|]. by apply (open_store ms e s o).
Qed.

Lemma wp_acceptData s o : host (heap s) o -> acceptData call (VRef l) s = (Done true, s).
Proof.
  intros Ho. unfold acceptData. rewrite (bind_eq _ _ _ _ _ (get_node s o Ho)).
  by destruct (se_nt Set_) as [-> | [-> | ->]].
Qed.

Lemma cache_opened ms e s : rep ms (heap s) -> e ∈ exps ->
  exists c s', cache call e (VRef l) s = (Done (VRef c), s') /\ opened ms e c s'.
Proof.
  intros R He. destruct (expando_cases ms e s R He) as [[G M]|(c & G & O)].
  2: { exists c, s. unfold cache. by rewrite (bind_eq _ _ _ _ _ G). }
  unfold cache. rewrite (bind_eq _ _ _ _ _ G). cbn [truthy].
  pose proof R as (o & Ho & _). unfold new_object, alloc. unfold mbind at 1, M_bind at 1.
  set (c := fresh (dom (heap s))). set (s1 := {| heap := _; rnd := _; ids := _ |}).
  assert (Hc : heap s !! c = None) by apply not_elem_of_dom, is_fresh.
  assert (R1 : rep ms (heap s1)) by by apply rep_alloc.
  assert (Ho1 : host (heap s1) o).
  { destruct R1 as (o1 & Ho1 & _). pose proof (ho_at _ _ Ho1) as A. cbn in A.
    rewrite lookup_insert_ne in A; [|intros E; pose proof (ho_at _ _ Ho); congruence].
    pose proof (ho_at _ _ Ho). by assert (o1 = o) as <- by congruence. }
  rewrite (bind_eq _ _ _ _ _ (wp_acceptData s1 o Ho1)), (bind_eq _ _ _ _ _ (get_node s1 o Ho1)).
  assert (Hx : at_key o e = None \/ at_key o e = Some VUndef).
  { rewrite (get_expando s o e Ho He) in G. destruct (at_key o e) as [[]|]; cbn in G; try done; auto. }
  exists c.
  assert (Fin : forall ps', let o' := with_props o ps' in
    (forall k, at_key o' k = if decide (k = e) then Some (VRef c) else at_key o k) ->
    opened ms e c {| heap := <[l := o']> (heap s1); rnd := rnd s; ids := ids s |}).
  { intros ps' o' Ha. destruct (rep_new ms (heap s) o c _ e ps' R Ho He Hx Hc is_cache_empty Ha) as [R2 H2].
    apply (open_store ms e _ o'); [done|done|done|]. by rewrite Ha, decide_True. }
  destruct (truthy nt).
  - eexists. split.
    + unfold put_prop. unfold mbind at 1, M_bind at 1. rewrite bind_heap, (ho_at _ _ Ho1), own_put_plain by apply Ho. done.
    + apply Fin. intros k. apply at_put.
  - unfold define_hidden. unfold mbind at 1, M_bind at 1. rewrite bind_heap, (ho_at _ _ Ho1).
    unfold set_heap. eexists. split; [done|]. apply Fin. intros k. unfold at_key. cbn.
    destruct (assoc_get (o_props o) e) eqn:Eg; [apply assoc_put_get|].
    rewrite assoc_get_snoc by done. by case_decide.
Qed.

Lemma put_opened ms e c k v s : opened ms e c s -> no_symbol k ->
  exists s', put_prop (VRef c) k v s = (Done tt, s') /\ rep (upd_store ms e (<[k := v]> (ms e))) (heap s').
Proof.
  intros (R & He & o & co & Ho & Hx & Hc & Hco) Hk. unfold put_prop. rewrite bind_heap, Hc.
  eexists. split; [done|]. cbn. eapply rep_write; try done. by apply is_cache_put.
Qed.

Lemma get_opened ms e c k s : opened ms e c s -> own_get op k = None ->
  get_prop (VRef c) k s = (Done (or_undef (ms e !! k)), s).
Proof.
  intros (R & He & o & co & Ho & Hx & Hc & Hco) Hk. unfold get_prop. rewrite bind_heap.
  by rewrite (lookup_cache _ o c co (ms e)).
Qed.

Lemma in_opened ms e c k s : opened ms e c s -> own_get op k = None ->
  in_obj k (VRef c) s = (Done (bool_decide (is_Some (ms e !! k))), s).
Proof.
  intros (R & He & o & co & Ho & Hx & Hc & Hco) Hk. unfold in_obj. rewrite bind_heap.
  by rewrite (lookup_cache _ o c co (ms e)).
Qed.

Lemma del_opened ms e c k s : opened ms e c s ->
  exists s', del_prop (VRef c) k s = (Done tt, s') /\ opened (upd_store ms e (delete k (ms e))) e c s'.
Proof.
  intros (R & He & o & co & Ho & Hx & Hc & Hco). unfold del_prop. rewrite bind_heap, Hc.
  eexists. split; [done|].
  destruct (rep_write ms (heap s) o c (own_del co k) e (delete k (ms e))) as [R' Ho']; try done; [by apply is_cache_del|].
  by apply (open_store _ e _ o).
Qed.

(** The deletions of [remove]. *)
Definition delete_all (ks : list key) (m : gmap key value) : gmap key value := foldr delete m ks.

Lemma upd_store_upd ms e m m' e' : upd_store (upd_store ms e m) e m' e' = upd_store ms e m' e'.
Proof. unfold upd_store. by case_decide. Qed.

Lemma upd_store_same ms e e' : upd_store ms e (ms e) e' = ms e'.
Proof. unfold upd_store. case_decide; by subst. Qed.

Lemma upd_store_eq ms e m : upd_store ms e m e = m.
Proof. unfold upd_store. by rewrite decide_True. Qed.

Lemma opened_ext ms ms' e c s : (forall e, ms e = ms' e) -> opened ms e c s -> opened ms' e c s.
Proof.
  intros E (R & He & o & co & Ho & Hx & Hc & Hco). split; [by apply (rep_ext ms); auto|]. split; [done|].
  exists o, co. by rewrite <- E.
Qed.

Lemma delete_opened (ws : list jstr) : forall ms e c s, opened ms e c s ->
  exists s', foldM (fun _ k => k ← to_key call k; del_prop (VRef c) k) tt (rev (VStr <$> ws)) s = (Done tt, s') /\
    opened (upd_store ms e (delete_all (key_of_str <$> ws) (ms e))) e c s'.
Proof.
  induction ws as [|w ws IH] using rev_ind; intros ms e c s O.
  - exists s. split; [done|]. eapply opened_ext; [|exact O]. intros e'. symmetry. apply upd_store_same.
  - rewrite fmap_app, rev_app_distr. cbn [fmap list_fmap rev app foldM].
    destruct (del_opened ms e c (key_of_str w) s O) as (s1 & E1 & O1).
    destruct (IH _ e c s1 O1) as (s2 & E2 & O2). exists s2. split.
    + rewrite (bind_eq _ _ s tt s1) by exact E1. exact E2.
    + eapply opened_ext; [|exact O2]. intros e'. rewrite upd_store_upd, upd_store_eq.
      unfold delete_all. by rewrite fmap_app, foldr_app.
Qed.

(** What [remove] does at its end. *)
Lemma settle_store ms e c s (b : bool) : opened ms e c s ->
  exists s', (h ← get_heap;
              if b || isEmptyObject h (VRef c) then
                nodeType ← get_str (VRef l) "nodeType";
                if truthy nodeType then put_prop (VRef l) e VUndef else del_prop (VRef l) e
              else mret tt) s = (Done tt, s') /\
    rep (upd_store ms e (if b then ∅ else ms e)) (heap s').
Proof.
  intros (R & He & o & co & Ho & Hx & Hc & Hco). rewrite bind_heap.
  rewrite (empty_cache _ o c co (ms e)) by done.
  assert (Keep : b = false -> ms e <> ∅ -> rep (upd_store ms e (if b then ∅ else ms e)) (heap s)).
  { intros -> _. eapply rep_ext; [|done]. intros e' _. symmetry. apply upd_store_same. }
  assert (Drop : b || bool_decide (ms e = ∅) = true -> (if b then ∅ else ms e) = ∅).
  { destruct b; [done|]. by intros ?%bool_decide_eq_true. }
  destruct (b || bool_decide (ms e = ∅)) eqn:Eb.
  - rewrite (Drop eq_refl). rewrite (bind_eq _ _ _ _ _ (get_node s o Ho)).
    destruct (truthy nt).
    + unfold put_prop. rewrite bind_heap, (ho_at _ _ Ho), own_put_plain by apply Ho. eexists. split; [done|].
      cbn. apply (rep_drop ms (heap s) o e); try done; [right; by rewrite at_put, decide_True|]. intros k Hk. by rewrite at_put, decide_False.
    + unfold del_prop. rewrite bind_heap, (ho_at _ _ Ho), own_del_plain by apply Ho. eexists. split; [done|].
      cbn. apply (rep_drop ms (heap s) o e); try done; [left; by rewrite at_del, decide_True|]. intros k Hk. by rewrite at_del, decide_False.
  - apply orb_false_iff in Eb as [Eb Em%bool_decide_eq_false]. exists s. split; [done|]. by apply Keep.
Qed.

End representation.


(** * Maps *)

(** What a page does with a store of an object. *)
Inductive data_op :=
| DSet (k : jstr) (v : value)
| DGet (k : jstr)
| DRemove (k : jstr)               (** one key, or several separated by white space *)
| DRemoveKeys (ks : list jstr)     (** an array of keys *)
| DClear
| DHas.

Definition stored_key (k : jstr) : key := key_of_str (camelCase k).

(** The specification: an answer and the next map. *)
Definition spec_op (m : gmap key value) (o : data_op) : value * gmap key value :=
  match o with
  | DSet k v => (v, <[stored_key k := v]> m)
  | DGet k => (or_undef (m !! stored_key k), m)
  | DRemove k =>
      (VUndef, if decide (is_Some (m !! stored_key k)) then delete (stored_key k) m
               else delete_all (key_of_str <$> JqCallbacks.not_white (camelCase k)) m)
  | DRemoveKeys ks => (VUndef, delete_all (stored_key <$> ks) m)
  | DClear => (VUndef, ∅)
  | DHas => (VBool (bool_decide (m <> ∅)), m)
  end.

Fixpoint spec_ops (ms : key -> gmap key value) (os : list (key * data_op)) :
    list value * (key -> gmap key value) :=
  match os with
  | [] => ([], ms)
  | (e, o) :: os' =>
      let '(v, m) := spec_op (ms e) o in
      let '(vs, ms') := spec_ops (upd_store ms e m) os' in (v :: vs, ms')
  end.

Section refinement.
Context `{Realm} `{Host}.
Variable call : loc -> value -> list value -> M value.
Variables (l : loc) (ps : list loc) (nt : value) (op : obj) (exps : list key).

(** The code. *)
Definition run_op (e : key) (o : data_op) : M value :=
  match o with
  | DSet k v => access call e (VRef l) (VStr k) v
  | DGet k => access call e (VRef l) (VStr k) VUndef
  | DRemove k => remove call e (VRef l) (VStr k);; mret VUndef
  | DRemoveKeys ks => a ← array_of (VStr <$> ks); remove call e (VRef l) a;; mret VUndef
  | DClear => remove call e (VRef l) VUndef;; mret VUndef
  | DHas => b ← hasData e (VRef l); mret (VBool b)
  end.

Fixpoint run_ops (os : list (key * data_op)) : M (list value) :=
  match os with
  | [] => mret []
  | (e, o) :: os' => v ← run_op e o; vs ← run_ops os'; mret (v :: vs)
  end.

(** Names every object inherits are found in an empty cache too: they are not used
    as keys, nor is [__proto__]; and what is stored is not undefined. *)
Definition op_ok (o : data_op) : Prop :=
  match o with
  | DSet k v => v <> VUndef /\ stored_key k <> KStr (js "__proto__")
  | DGet k => k <> [] /\ own_get op (stored_key k) = None
  | DRemove k => own_get op (stored_key k) = None
  | _ => True
  end.

Hypothesis Set_ : setting l ps nt op exps.
Abbreviation rep := (rep l ps nt op exps).
Abbreviation opened := (opened l ps nt op exps).

Lemma set_step ms e k v s : rep ms (heap s) -> e ∈ exps -> v <> VUndef ->
  exists s', access call e (VRef l) (VStr k) v s = (Done v, s') /\
    rep (upd_store ms e (<[stored_key k := v]> (ms e))) (heap s').
Proof.
  intros R He Hv. destruct (cache_opened call l ps nt op exps Set_ ms e s R He) as (c & s1 & E1 & O1).
  destruct (put_opened l ps nt op exps ms e c (stored_key k) v s1 O1 (no_symbol_str _)) as (s2 & E2 & R2).
  exists s2. split; [|done]. unfold access, set. rewrite bool_decide_eq_false_2 by done.
  replace (match k with [] => false | _ => false end) with false by by destruct k.
  rewrite (bind_eq _ _ s (VRef c) s2); [done|]. rewrite (bind_eq _ _ _ _ _ E1).
  by rewrite (bind_eq _ _ _ _ _ E2).
Qed.

Lemma get_step ms e k s : rep ms (heap s) -> e ∈ exps -> k <> [] -> own_get op (stored_key k) = None ->
  access call e (VRef l) (VStr k) VUndef s = (Done (or_undef (ms e !! stored_key k)), s).
Proof.
  intros R He Hk Hf. unfold access. destruct k as [|x k]; [done|]. rewrite bool_decide_eq_true_2 by done.
  unfold get. destruct (expando_cases l ps nt op exps Set_ ms e s R He) as [[G M]|(c & G & O)].
  - rewrite (bind_eq _ _ _ _ _ G), M. by rewrite lookup_empty.
  - rewrite (bind_eq _ _ _ _ _ G). cbn [truthy]. rewrite (bind_eq _ _ _ _ _ G).
    rewrite (bind_eq _ _ s (camelCase (x :: k)) s) by done. by apply (get_opened l ps nt op exps).
Qed.

(** [remove] when the keys are the strings [ws]. *)
Lemma remove_step ms e s key ws : rep ms (heap s) -> e ∈ exps -> key <> VUndef ->
  (forall c, opened ms e c s -> keys_to_remove call (VRef c) key s = (Done (VStr <$> ws), s)) ->
  exists s', remove call e (VRef l) key s = (Done tt, s') /\
    rep (upd_store ms e (delete_all (key_of_str <$> ws) (ms e))) (heap s').
Proof.
  intros R He Hk Hw. unfold remove.
  destruct (expando_cases l ps nt op exps Set_ ms e s R He) as [[G M]|(c & G & O)]; rewrite (bind_eq _ _ _ _ _ G).
  - exists s. split; [done|]. eapply rep_ext; [|exact R]. intros e' _. symmetry.
    assert (D : delete_all (key_of_str <$> ws) ∅ = ∅).
    { clear. induction ws as [|w ws IH]; [done|]. cbn. fold (delete_all (key_of_str <$> ws) ∅).
      by rewrite IH, delete_empty. }
    rewrite M, D, <- M. apply upd_store_same.
  - destruct (delete_opened call l ps nt op exps ws ms e c s O) as (s1 & E1 & O1).
    destruct (settle_store l ps nt op exps Set_ _ e c s1 false O1) as (s2 & E2 & R2).
    exists s2. split.
    + rewrite (bind_eq _ _ s tt s1); [|destruct key; try done; by rewrite (bind_eq _ _ _ _ _ (Hw c O))].
      rewrite (bool_decide_eq_false_2 (key = VUndef)) by done. exact E2.
    + eapply rep_ext; [|exact R2]. intros e' _. by rewrite upd_store_upd, upd_store_eq.
Qed.

Lemma clear_step ms e s : rep ms (heap s) -> e ∈ exps ->
  exists s', remove call e (VRef l) VUndef s = (Done tt, s') /\ rep (upd_store ms e ∅) (heap s').
Proof.
  intros R He. unfold remove.
  destruct (expando_cases l ps nt op exps Set_ ms e s R He) as [[G M]|(c & G & O)]; rewrite (bind_eq _ _ _ _ _ G).
  - exists s. split; [done|]. eapply rep_ext; [|exact R]. intros e' _. rewrite <- M. symmetry. apply upd_store_same.
  - destruct (settle_store l ps nt op exps Set_ _ e c s true O) as (s2 & E2 & R2). by exists s2.
Qed.

Lemma has_step ms e s : rep ms (heap s) -> e ∈ exps ->
  hasData e (VRef l) s = (Done (bool_decide (ms e <> ∅)), s).
Proof.
  intros R He. unfold hasData.
  destruct (expando_cases l ps nt op exps Set_ ms e s R He) as [[G M]|(c & G & O)]; rewrite (bind_eq _ _ _ _ _ G), bind_heap.
  - rewrite M. by rewrite (bool_decide_eq_false_2 (∅ <> ∅)) by auto.
  - destruct O as (_ & _ & o & co & Ho & Hx & Hc & Hco).
    rewrite (empty_cache l ps nt op exps Set_ _ o c co (ms e)) by done.
    rewrite (bool_decide_eq_false_2 (VRef c = VUndef)) by done. cbn.
    unfold mret, M_ret. do 2 f_equal. by repeat case_bool_decide.
Qed.

Lemma keys_of_text ms e c k s : opened ms e c s -> own_get op (stored_key k) = None ->
  keys_to_remove call (VRef c) (VStr k) s =
  (Done (VStr <$> (if decide (is_Some (ms e !! stored_key k)) then [camelCase k]
                   else JqCallbacks.not_white (camelCase k))), s).
Proof.
  intros O Hk. unfold keys_to_remove. rewrite bind_heap. cbn [is_array].
  rewrite (bind_eq _ _ s (camelCase k) s) by done.
  rewrite (bind_eq _ _ _ _ _ (in_opened l ps nt op exps Set_ ms e c _ s O Hk)).
  fold (stored_key k). case_decide as D; [by rewrite bool_decide_eq_true_2|by rewrite bool_decide_eq_false_2].
Qed.

Lemma keys_of_array c a ks s : is_arr (heap s) a (VStr <$> ks) ->
  keys_to_remove call c a s = (Done (VStr <$> (camelCase <$> ks)), s).
Proof.
  intros A. unfold keys_to_remove. rewrite bind_heap.
  assert (I : is_array (heap s) a = true).
  { destruct A as (la & o & -> & Hl & Hc & _). unfold is_array, class_of. rewrite Hl, Hc. done. }
  rewrite I, (bind_eq _ _ _ _ _ (length_of_arr call _ _ _ A)).
  rewrite (bind_eq _ _ _ _ _ (read_elems_arr _ _ _ 0 (length (VStr <$> ks)) A ltac:(lia))).
  rewrite drop_0, take_ge by done. clear. 
  assert (G : forall ks acc, foldM (fun acc e => match e with
       | Some v => k ← camelCase_value v; mret (acc ++ [VStr k]) | None => mret (acc ++ [VUndef]) end)
       acc (Some <$> (VStr <$> ks)) s = (Done (acc ++ (VStr <$> (camelCase <$> ks))), s)).
  { clear. induction ks as [|k ks IH]; intros acc; [by cbn; rewrite app_nil_r|].
    cbn [fmap list_fmap foldM]. rewrite (bind_eq _ _ s (acc ++ [VStr (camelCase k)]) s) by done.
    fold (@fmap list _ jstr value VStr ks). rewrite IH. by rewrite <- app_assoc. }
  apply G.
Qed.

(** One operation. *)
Lemma op_step ms e o s : rep ms (heap s) -> e ∈ exps -> op_ok o ->
  exists s', run_op e o s = (Done (spec_op (ms e) o).1, s') /\
    rep (upd_store ms e (spec_op (ms e) o).2) (heap s').
Proof.
  intros R He Hok. destruct o as [k v|k|k|ks| |]; cbn [run_op spec_op fst snd] in *.
  - destruct Hok as [Hv _]. by apply set_step.
  - destruct Hok as [Hk Hf]. exists s. rewrite (get_step ms e k s) by done. split; [done|].
    eapply rep_ext; [|exact R]. intros e' _. symmetry. apply upd_store_same.
  - destruct (remove_step ms e s (VStr k) _ R He ltac:(done) (fun c O => keys_of_text ms e c k s O Hok)) as (s' & E & R').
    exists s'. rewrite (bind_eq _ _ _ _ _ E). split; [done|]. by case_decide.
  - destruct (wp_elim (array_of (VStr <$> ks)) s (fun a s' => is_arr (heap s') a (VStr <$> ks) /\ rep ms (heap s')))
      as (a & s1 & E1 & A & R1).
    { unfold array_of, new_array. apply wp_alloc. intros la s' Hl Hh _ _. rewrite Hh. split.
      - eexists la, _. split; [done|]. by rewrite lookup_insert_eq.
      - by apply rep_alloc. }
    destruct (remove_step ms e s1 a (camelCase <$> ks) R1 He) as (s2 & E2 & R2).
    { by destruct A as (la & o & -> & _). }
    { intros c _. by apply keys_of_array. }
    exists s2. rewrite (bind_eq _ _ _ _ _ E1), (bind_eq _ _ _ _ _ E2). split; [done|].
    by rewrite <- list_fmap_compose in R2.
  - destruct (clear_step ms e s R He) as (s' & E & R'). exists s'. by rewrite (bind_eq _ _ _ _ _ E).
  - exists s. rewrite (bind_eq _ _ _ _ _ (has_step ms e s R He)). split; [done|].
    eapply rep_ext; [|exact R]. intros e' _. symmetry. apply upd_store_same.
Qed.

(** C5. The data stores of an object implement finite maps: from any state that
    represents the maps [ms], every sequence of writes, reads, removals (by key,
    by a list of keys in one string, by an array of keys, or of everything) and
    tests for data, through any of the stores of the object, runs without an
    exception, answers what the maps answer, and ends in a state that represents
    the final maps.  Keys meet under their camel-cased form, stores do not see
    each other, and it makes no difference whether the object is a node, whose
    expando is set to undefined, or not, whose expando is deleted. *)
Theorem data_refines_maps ms s os :
  rep ms (heap s) -> Forall (fun eo => eo.1 ∈ exps /\ op_ok eo.2) os ->
  exists s', run_ops os s = (Done (spec_ops ms os).1, s') /\ rep (spec_ops ms os).2 (heap s').
Proof.
  intros R F. revert ms s R. induction F as [|[e o] os [He Ho] F IH]; intros ms s R; [by exists s|].
  destruct (op_step ms e o s R He Ho) as (s1 & E1 & R1). cbn [spec_ops run_ops].
  destruct (spec_op (ms e) o) as [v m]. destruct (IH _ _ R1) as (s2 & E2 & R2). cbn [fst snd] in *.
  destruct (spec_ops (upd_store ms e m) os) as [vs ms']. exists s2.
  by rewrite (bind_eq _ _ _ _ _ E1), (bind_eq _ _ _ _ _ E2).
Qed.

End refinement.

(** An object without data represents empty maps. *)
Lemma rep_fresh `{Realm} l ps nt op exps h o :
  host l ps nt op exps h o -> (forall e, e ∈ exps -> at_key o e = None) ->
  rep l ps nt op exps (fun _ => ∅) h.
Proof.
  intros Ho Hn. exists o. split; [done|]. split; [intros e He; by rewrite Hn|].
  intros e1 e2 c He. by rewrite Hn.
Qed.

(** ** An element of the page *)

#[local] Instance demo_realm : Realm :=
  {| ObjProto := 1; ArrayProto := 2; FunctionProto := 3; StringProto := 4; NumberProto := 5;
     BooleanProto := 6; SymbolProto := 7; Math_random := fun _ => 0%Q |}%positive.

Definition plain (proto : option loc) (ps : list (key * prop)) : obj :=
  {| o_class := CObject; o_proto := proto; o_elems := []; o_props := ps; o_data := VUndef |}.

Definition element_obj : obj := plain (Some 11%positive) [(node_key, {| p_val := VNat 1; p_enum := false |})].

Definition element_state : state :=
  {| heap := {[ 1%positive := plain None []; 11%positive := plain (Some 1%positive) []; 20%positive := element_obj ]};
     rnd := 0; ids := 0 |}.

Definition priv : key := KStr (js "jQuery3601").
Definition user : key := KStr (js "jQuery3602").

Definition demo_ops : list (key * data_op) :=
  [(user, DSet (js "max-width") (VNat 3)); (user, DGet (js "maxWidth")); (priv, DGet (js "max-width"));
   (priv, DSet (js "fxqueue") VNull); (user, DSet (js "b") (VBool false)); (user, DRemove (js "b max-width"));
   (user, DRemoveKeys [js "max-width"]); (user, DHas); (priv, DHas); (priv, DClear); (priv, DHas)].

Lemma data_refines_maps_witness :
  exists s', run_ops (fun _ _ _ => mret VUndef) 20 demo_ops element_state =
    (Done [VNat 3; VNat 3; VUndef; VNull; VBool false; VUndef; VUndef; VBool false; VBool true; VUndef; VBool false], s').
Proof.
  destruct (data_refines_maps (fun _ _ _ => mret VUndef) 20 [11; 1]%positive (VNat 1) (plain None []) [priv; user]
    ltac:(split; try done; [by_deciding|apply (bool_decide_unpack _); vm_compute; exact I|
          right; by left|by_deciding])
    (fun _ => ∅) element_state demo_ops) as (s' & E & _).
  - apply (rep_fresh _ _ _ _ _ _ element_obj).
    + split; try done. split; [done|]. eexists. split; [done|]. split; [done|]. by eexists.
    + intros e He. repeat (apply elem_of_cons in He as [->|He]; [done|]). by apply elem_of_nil in He.
  - repeat (constructor; [split; [by_deciding|by vm_compute]|]). constructor.
  - exists s'. exact E.
Defined.

End JqDataProofs.
