(* ===== verification/SzTokens.v ===== *)
(** The tokenizer of Sizzle, the selector engine inside [jquery.js]: its regular
    expressions (lines 591 to 664), escapes (lines 671 to 690), the prefilters (lines 1775 to 1854),
    [tokenize] (lines 2315 to 2383) and [toSelector] (lines 2385 to 2393).

    The caches of tokens by selector are left out: [tokenize] is a function of the
    selector.  The types of filters are the ones the library defines, in the order
    in which they are added to [Expr.filter]. *)

From S2P Require Import Prelude Regex.

Module SzTokens.

(** * Regular expressions *)

(** [[\x20\t\r\n\f]] *)
Definition is_white (c : N) : bool := existsb (N.eqb c) [32; 9; 13; 10; 12]%N.
Definition white : regex := RClass is_white.
Definition whites : regex := RStar true white.

Definition is_hex (c : N) : bool := is_digit c || in_range 97 102 c || in_range 65 70 c.

(** [a{1,n}] *)
Fixpoint upto (n : nat) (a : regex) : regex :=
  match n with O => REps | 1 => a | S n' => RSeq a (ROpt true (upto n' a)) end.

Definition backslash : regex := RChar 92.

(** [[^\r\n\f]] *)
Definition not_newline : regex := RNoneOf [13; 10; 12]%N.

Definition hex_escape : regex := RSeq backslash (RSeq (upto 6 (RClass is_hex)) (ROpt true white)).

Definition identifier : regex :=
  RPlus true
    (RAlt hex_escape
      (RAlt (RSeq backslash not_newline)
        (RAlt (RClass (fun c => is_word_char c || N.eqb c (chr "-"))) (RClass (fun c => N.ltb 0x7F c))))).

(** A string between quotes [q] with escapes, its content as group [g]. *)
Definition quoted (q : N) (g : nat) : regex :=
  RSeq (RChar q)
    (RSeq (RGroup g (RStar true (RAlt (RSeq backslash RDot) (RNoneOf [92; q]%N)))) (RChar q)).

Definition squote : N := 39.
Definition dquote : N := 34.

(** [attributes], with its groups numbered from [g] *)
Definition attributes (g : nat) : regex :=
  RSeq (RChar (chr "["))
    (RSeq whites
      (RSeq (RGroup g identifier)
        (RSeq
          (RAlt
            (RSeq whites
              (RSeq (RGroup (g + 1) (RSeq (ROpt true (ROneOf (js "*^$|!~"))) (RChar (chr "="))))
                (RSeq whites
                  (RAlt (quoted squote (g + 2))
                    (RAlt (quoted dquote (g + 3)) (RGroup (g + 4) identifier))))))
            REps)
          (RSeq whites (RChar (chr "]")))))).

Definition pseudos : regex :=
  RSeq (RChar (chr ":"))
    (RSeq (RGroup 1 identifier)
      (RAlt
        (RSeq (RChar (chr "("))
          (RSeq
            (RGroup 2
              (RAlt (RGroup 3 (RAlt (quoted squote 4) (quoted dquote 5)))
                (RAlt
                  (RGroup 6
                    (RStar true
                      (RAlt (RSeq backslash RDot) (RAlt (RNoneOf (92%N :: js "()[]")) (attributes 7)))))
                  (RStar true RDot))))
            (RChar (chr ")"))))
        REps)).

Definition anchored (n : nat) (r : regex) : pattern := {| p_groups := n; p_re := RSeq RBol r |}.

Definition rcomma : pattern := anchored 0 (RSeq whites (RSeq (RChar (chr ",")) whites)).
Definition rcombinators : pattern :=
  anchored 1 (RSeq whites (RSeq (RGroup 1 (RAlt (ROneOf (js ">+~")) white)) whites)).
Definition rpseudo : pattern := {| p_groups := 11; p_re := pseudos |}.

(** Leading white space, or trailing white space that is not escaped. *)
Definition rtrim : pattern :=
  {| p_groups := 1; p_re :=
       RAlt (RSeq RBol (RPlus true white))
         (RSeq (RGroup 1 (RSeq (RAlt RBol (RNoneOf [92]%N)) (RStar true (RSeq backslash RDot))))
           (RSeq (RPlus true white) REol)) |}.

(** A literal under the flag i. *)
Definition RCharI (c : N) : regex := RClass (fun d => N.eqb (ascii_lower d) c).
Definition RLitI (s : string) : regex := foldr (fun c r => RSeq (RCharI c) r) REps (js s).
Definition RAltsI (ss : list string) : regex :=
  match ss with
  | [] => RClass (fun _ => false)
  | s :: ss' => foldl (fun r s => RAlt r (RLitI s)) (RLitI s) ss'
  end.

(** [([+-]|)] *)
Definition sign (g : nat) : regex := RGroup g (RAlt (ROneOf (js "+-")) REps).
Definition digit : regex := RClass is_digit.

Definition child_pattern : pattern :=
  anchored 8
    (RSeq (RChar (chr ":"))
      (RSeq (RGroup 1 (RAltsI ["only"; "first"; "last"; "nth"; "nth-last"]))
        (RSeq (RChar (chr "-"))
          (RSeq (RGroup 2 (RAltsI ["child"; "of-type"]))
            (RAlt
              (RSeq (RChar (chr "("))
                (RSeq whites
                  (RSeq
                    (RGroup 3
                      (RAlt (RAltsI ["even"; "odd"])
                        (RSeq
                          (RGroup 4
                            (RAlt (RSeq (sign 5) (RSeq (RGroup 6 (RStar true digit)) (RCharI (chr "n")))) REps))
                          (RSeq whites
                            (RAlt (RSeq (sign 7) (RSeq whites (RGroup 8 (RPlus true digit)))) REps)))))
                    (RSeq whites (RChar (chr ")"))))))
              REps))))).

Inductive filter_type := FTAG | FCLASS | FATTR | FCHILD | FPSEUDO | FID.

Definition matchExpr (t : filter_type) : pattern :=
  match t with
  | FTAG => anchored 1 (RGroup 1 (RAlt identifier (RChar (chr "*"))))
  | FCLASS => anchored 1 (RSeq (RChar (chr ".")) (RGroup 1 identifier))
  | FATTR => anchored 5 (attributes 1)
  | FCHILD => child_pattern
  | FPSEUDO => anchored 11 pseudos
  | FID => anchored 1 (RSeq (RChar (chr "#")) (RGroup 1 identifier))
  end.

(** The keys of [Expr.filter]. *)
Definition filter_types : list filter_type := [FTAG; FCLASS; FATTR; FCHILD; FPSEUDO; FID].

(** * Escapes *)

Definition runescape : pattern :=
  {| p_groups := 1; p_re := RAlt hex_escape (RSeq backslash (RGroup 1 not_newline)) |}.

Definition hex_number (s : jstr) : N :=
  foldl (fun n c => 16 * n + (if is_digit c then c - 48 else if is_upper c then c - 55 else c - 87))%N 0%N
    (base.filter (fun c => is_hex c = true) s).

(** [funescape(escape, nonHex)] *)
Definition funescape (escape : jstr) (nonHex : option jstr) : jstr :=
  let n := hex_number (drop 1 escape) in
  match nonHex with
  | Some (c :: s) => c :: s
  | _ =>
      if N.ltb n 0x10000 then [n]
      else let high := (n - 0x10000)%N in
           [N.modulo (N.lor (N.shiftr high 10) 0xD800) 0x10000; N.lor (N.land high 0x3FF) 0xDC00]
  end.

(** [s.replace(runescape, funescape)] *)
Definition unescape (s : jstr) : jstr :=
  replace_all runescape s (fun r => funescape (group_or_empty s r 0) (group s r 1)).

(** * Tokens *)

(** A token carries its text; a filter also the arguments of its filter function.
    The two numbers of [TChild] are those of [nth] pseudo-classes. *)
Inductive token_kind :=
| TComb (type : jstr)
| TTag (nodeNameSelector : jstr)
| TClass (className : jstr)
| TId (id : jstr)
| TAttr (name : jstr) (operator : option jstr) (check : jstr)
| TChild (type what : jstr) (argument : option jstr) (nth : option (Z * Z))
| TPseudo (pseudo : jstr) (argument : option jstr).

Record token := { tk_value : jstr; tk_kind : token_kind }.

#[global] Instance token_kind_eq_dec : EqDecision token_kind.
Proof. solve_decision. Defined.
#[global] Instance token_eq_dec : EqDecision token.
Proof. solve_decision. Defined.

(** [Sizzle.error(msg)] *)
Definition error {A} (msg : jstr) : res A :=
  Throw (EvalError (js "Syntax error, unrecognized expression: " ++ msg)).

(** The text of a group, when it is truthy. *)
Definition some_text (o : option jstr) : option jstr :=
  match o with Some (c :: s) => Some (c :: s) | _ => None end.

Definition text_or (o : option jstr) (other : jstr) : jstr := default other (some_text o).

(** * Prefilters *)

Definition preFilter_ATTR (s : jstr) (r : rresult) : token_kind :=
  let check := unescape (text_or (group s r 3) (text_or (group s r 4) (text_or (group s r 5) []))) in
  TAttr (unescape (group_or_empty s r 1)) (group s r 2)
    (if bool_decide (group s r 2 = Some (js "~=")) then js " " ++ check ++ js " " else check).

(** [+(sign + digits)] *)
Definition signed (sgn digits : jstr) : Z :=
  let n := foldl (fun n c => 10 * n + (Z.of_N c - 48))%Z 0%Z digits in
  if bool_decide (sgn = js "-") then (- n)%Z else n.

Definition preFilter_CHILD (s : jstr) (r : rresult) : res token_kind :=
  let type := ascii_lower <$> group_or_empty s r 1 in
  let what := group_or_empty s r 2 in
  let argument := group s r 3 in
  let m := group_or_empty s r 0 in
  if bool_decide (take 3 type = js "nth") then
    match some_text argument with
    | None => error m
    | Some a =>
        let even := bool_decide (a = js "even") in
        let odd := bool_decide (a = js "odd") in
        let first :=
          match some_text (group s r 4) with
          | Some _ => signed (group_or_empty s r 5) (text_or (group s r 6) (js "1"))
          | None => if even || odd then 2%Z else 0%Z
          end in
        let last :=
          match group s r 7, group s r 8 with
          | Some sgn, Some n => signed sgn n
          | _, _ => if odd then 1%Z else 0%Z
          end in
        Ok (TChild type what argument (Some (first, last)))
    end
  else match some_text argument with
       | Some _ => error m
       | None => Ok (TChild type what argument None)
       end.

(** [s.slice(0, k)] for a negative [k] *)
Definition slice_to (s : jstr) (k : Z) : jstr := take (Z.to_nat (Z.of_nat (length s) + k)) s.

(** [s.indexOf(c, from)] *)
Definition indexOf_from (s c : jstr) (from : nat) : Z :=
  match find_sub c (drop from s) from with Some i => Z.of_nat i | None => (-1)%Z end.

Section tokenizer.

(** [tokenize(s, true)]: the length of the invalid excess *)
Variable excess_of : jstr -> res nat.

Definition preFilter_PSEUDO (s : jstr) (r : rresult) : res (option (jstr * token_kind)) :=
  let m := group_or_empty s r 0 in
  let name := group_or_empty s r 1 in
  let plain := Some (m, TPseudo name (group s r 2)) in
  let unquoted := match some_text (group s r 6) with Some _ => None | None => some_text (group s r 2) end in
  if test (matchExpr FCHILD) m then Ok None
  else match some_text (group s r 3) with
       | Some _ => Ok (Some (m, TPseudo name (Some (text_or (group s r 4) (text_or (group s r 5) [])))))
       | None =>
           match unquoted with
           | Some u =>
               if test rpseudo u then
                 do e <- excess_of u;
                 let excess := (indexOf_from u (js ")") (length u - e) - Z.of_nat (length u))%Z in
                 if Nat.eqb e 0 || Z.eqb excess 0 then Ok plain
                 else Ok (Some (slice_to m excess, TPseudo name (Some (slice_to u excess))))
               else Ok plain
           | None => Ok plain
           end
       end.

(** One round of the loop over the filters: the text matched and its token. *)
Definition try_filter (t : filter_type) (soFar : jstr) : res (option (jstr * token_kind)) :=
  match exec (matchExpr t) soFar with
  | None => Ok None
  | Some r =>
      let m := group_or_empty soFar r 0 in
      let g1 := group_or_empty soFar r 1 in
      match t with
      | FTAG => Ok (Some (m, TTag g1))
      | FCLASS => Ok (Some (m, TClass g1))
      | FID => Ok (Some (m, TId g1))
      | FATTR => Ok (Some (m, preFilter_ATTR soFar r))
      | FCHILD => do k <- preFilter_CHILD soFar r; Ok (Some (m, k))
      | FPSEUDO => preFilter_PSEUDO soFar r
      end
  end.

(** The loop variables: what is left, the groups before the last one, the tokens
    of the last one, and whether the round has matched. *)
Record scan_state := { soFar : jstr; groups : list (list token); tokens : list token; matched : bool }.

Definition push_token (m : jstr) (k : token_kind) (st : scan_state) : scan_state :=
  {| soFar := drop (length m) (soFar st); groups := groups st;
     tokens := tokens st ++ [{| tk_value := m; tk_kind := k |}];
     matched := negb (bool_decide (m = [])) |}.

Fixpoint run_filters (ts : list filter_type) (st : scan_state) : res scan_state :=
  match ts with
  | [] => Ok st
  | t :: ts' =>
      do o <- try_filter t (soFar st);
      run_filters ts' (match o with Some (m, k) => push_token m k st | None => st end)
  end.

(** Comma and first run: [matched] tells that it is not the first one. *)
Definition next_group (st : scan_state) : scan_state :=
  let s := soFar st in
  if negb (matched st) then {| soFar := s; groups := groups st; tokens := []; matched := false |}
  else match exec rcomma s with
       | Some r =>
           {| soFar := match drop (length (group_or_empty s r 0)) s with [] => s | s' => s' end;
              groups := groups st ++ [tokens st]; tokens := []; matched := false |}
       | None => {| soFar := s; groups := groups st; tokens := tokens st; matched := false |}
       end.

Definition combinator (st : scan_state) : scan_state :=
  let s := soFar st in
  match exec rcombinators s with
  | Some r =>
      let type := group_or_empty s r 1 in
      push_token (group_or_empty s r 0) (TComb (replace_all rtrim type (fun _ => js " "))) st
  | None => st
  end.

(** The body of the loop. *)
Definition scan_round (st : scan_state) : res scan_state :=
  run_filters filter_types (combinator (next_group st)).

End tokenizer.

(** [while (soFar)]: the loop, and [tokenize] called by it, on common fuel. *)
Fixpoint scan (fuel : nat) (st : scan_state) : res scan_state :=
  match fuel with
  | O => Throw (OutOfModel (js "fuel"))
  | S fuel' =>
      match soFar st with
      | [] => Ok st
      | _ =>
          do st' <- scan_round (fun u =>
                      do r <- scan fuel' {| soFar := u; groups := []; tokens := []; matched := false |};
                      Ok (length (soFar r))) st;
          if matched st' then scan fuel' st' else Ok st'
      end
  end.

Definition scan_start (s : jstr) : scan_state :=
  {| soFar := s; groups := []; tokens := []; matched := false |}.

(** [tokenize(selector, true)] *)
Definition tokenize_excess (selector : jstr) : res nat :=
  do st <- scan (S (length selector)) (scan_start selector); Ok (length (soFar st)).

(** [tokenize(selector)] *)
Definition tokenize (selector : jstr) : res (list (list token)) :=
  do st <- scan (S (length selector)) (scan_start selector);
  match soFar st, selector with
  | [], [] => Ok []
  | [], _ => Ok (groups st ++ [tokens st])
  | _, _ => error selector
  end.

Definition toSelector (ts : list token) : jstr := concat (tk_value <$> ts).

End SzTokens.
