(* ===== verification/SzTokensProofs.v ===== *)
(** What the tokenizer of Sizzle does to a selector: it ends, and the tokens it
    finds are the whole text of the selector. *)

From S2P Require Import Prelude Regex SzTokens.
Import SzTokens.

Module SzTokensProofs.

(** * Matches *)

(** Can [r] match the empty text; can a match of [r] that is not empty start
    with [c]? *)
Fixpoint nullable (r : regex) : bool :=
  match r with
  | REps | RStar _ _ | ROpt _ _ | RBack _ | RBol | REol | RBolM | REolM => true
  | RClass _ => false
  | RSeq a b => nullable a && nullable b
  | RAlt a b => nullable a || nullable b
  | RGroup _ a => nullable a
  end.

Fixpoint starts (r : regex) (c : N) : bool :=
  match r with
  | REps | RBol | REol | RBolM | REolM => false
  | RBack _ => true
  | RClass p => p c
  | RSeq a b => starts a c || (nullable a && starts b c)
  | RAlt a b => starts a c || starts b c
  | RStar _ a | ROpt _ a | RGroup _ a => starts a c
  end.

Lemma rmatch_starts s r i c j c' : rmatch s r i c j c' -> i <= length s ->
  (i = j /\ nullable r = true) \/ exists x, s !! i = Some x /\ starts r x = true.
Proof.
  induction 1 as [| |a b i c j c' l c'' Ha IHa Hb IHb|a b i c j c' Ha IHa|a b i c j c' Hb IHb|
    |g a i c j c' l c'' Ha IHa Hne Hr IHr| |g a i c j c' Ha IHa Hne|n a i c j c' Ha IHa| | | | | |];
    intros Hi; cbn [nullable starts]; try (by left); try (by right; eexists).
  - pose proof (rmatch_bounds _ _ _ _ _ _ Ha Hi) as [Hij Hj].
    destruct (IHa Hi) as [[<- Na]|(x & Hx & Sx)].
    + destruct (IHb Hi) as [[<- Nb]|(x & Hx & Sx)]; [left; by rewrite Na, Nb|].
      right. exists x. by rewrite Na, Sx, orb_true_r.
    + right. exists x. by rewrite Sx.
  - destruct (IHa Hi) as [[<- Na]|(x & Hx & Sx)]; [left; by rewrite Na|right; exists x; by rewrite Sx].
  - destruct (IHb Hi) as [[<- Nb]|(x & Hx & Sx)]; [left; by rewrite Nb, orb_true_r|].
    right. exists x. by rewrite Sx, orb_true_r.
  - destruct (IHa Hi) as [[E _]|?]; [congruence|by right].
  - destruct (IHa Hi) as [[E _]|?]; [congruence|by right].
  - destruct (IHa Hi) as [[E N]|?]; [by left|by right].
  - assert (i + length t = i \/ i < length s) as [E|Hlt]; [|left; split; [lia|done]|].
    + destruct t as [|x t]; [left; simpl; lia|]. right. apply is_prefix_spec in H0 as [u Hu].
      apply (f_equal length) in Hu. rewrite length_drop in Hu. simpl in Hu. lia.
    + right. destruct (lookup_lt_is_Some_2 s i Hlt) as [x Hx]. by exists x.
Qed.

(** Every captured span lies behind [lo]. *)
Definition caps_from (lo len : nat) (c : caps) : Prop :=
  forall n i j, c !! n = Some (Some (i, j)) -> lo <= i /\ j <= len.

Lemma caps_from_insert lo len c n o :
  caps_from lo len c -> match o with Some (i, j) => lo <= i /\ j <= len | None => True end ->
  caps_from lo len (<[n := o]> c).
Proof.
  intros Hc Ho m i j Hm. destruct (decide (n = m)) as [->|Hne].
  - destruct (decide (m < length c)) as [Hl|Hl].
    + rewrite list_lookup_insert_eq in Hm by done. by simplify_eq.
    + rewrite list_insert_ge in Hm by lia. by apply Hc in Hm.
  - rewrite list_lookup_insert_ne in Hm by done. by apply Hc in Hm.
Qed.

Lemma caps_from_reset lo len r c : caps_from lo len c -> caps_from lo len (reset_caps r c).
Proof.
  intros Hc. unfold reset_caps. induction (groups_of r) as [|n ns IH]; [done|].
  cbn. by apply caps_from_insert.
Qed.

Lemma rmatch_caps s r lo i c j c' : rmatch s r i c j c' -> lo <= i -> i <= length s ->
  caps_from lo (length s) c -> caps_from lo (length s) c'.
Proof.
  induction 1 as [| |a b i c j c' l c'' Ha IHa Hb IHb| | |
    |g a i c j c' l c'' Ha IHa Hne Hr IHr| |g a i c j c' Ha IHa Hne|n a i c j c' Ha IHa| | | | | |];
    intros Hl Hi Hc; auto.
  - pose proof (rmatch_bounds _ _ _ _ _ _ Ha Hi) as [Hij Hj]. apply IHb; [lia|lia|]. by apply IHa.
  - pose proof (rmatch_bounds _ _ _ _ _ _ Ha Hi) as [Hij Hj]. apply IHr; [lia|lia|].
    apply IHa; [done|done|]. by apply caps_from_reset.
  - apply IHa; [done|done|]. by apply caps_from_reset.
  - pose proof (rmatch_bounds _ _ _ _ _ _ Ha Hi) as [Hij Hj]. apply caps_from_insert; [by apply IHa|lia].
Qed.

(** ** Anchored patterns *)

Lemma exec_anchored n r s m : exec (anchored n r) s = Some m ->
  group_or_empty s m 0 = take (m_end m) s /\ m_end m <= length s /\
  rmatch s r 0 (replicate (S n) None) (m_end m) (m_caps m).
Proof.
  intros [Hb H]%exec_sound. inversion H as [| |a b i c j c' l c'' Ha Hr| | | | | | | | | | | | |]; subst.
  inversion Ha; subst. split; [|split; [lia|done]].
  unfold group_or_empty, group, slice. cbn. rewrite <- H0. by rewrite Nat.sub_0_r, drop_0.
Qed.

Lemma matchExpr_exec t s m : exec (matchExpr t) s = Some m ->
  group_or_empty s m 0 = take (m_end m) s /\ m_end m <= length s.
Proof. destruct t; intros H%exec_anchored; destruct H as (? & ? & _); done. Qed.

(** The filters do not start with white space or a comma. *)
Lemma matchExpr_first t s m x : exec (matchExpr t) s = Some m -> head s = Some x ->
  is_white x = false /\ x <> chr ",".
Proof.
  intros H Hx. assert (exists n r, matchExpr t = anchored n r /\ nullable r = false /\
    forall c, (is_white c = true \/ c = chr ",") -> starts r c = false) as (n & r & E & N & S).
  { destruct t; eexists _, _; (split; [reflexivity|split; [reflexivity|]]); intros c Hc;
      (assert (c = 32 \/ c = 9 \/ c = 13 \/ c = 10 \/ c = 12 \/ c = 44)%N as Hc';
       [destruct Hc as [Hw| ->]; [|by vm_compute; auto 7]; unfold is_white in Hw; cbn in Hw;
        rewrite !orb_true_iff, !N.eqb_eq in Hw; naive_solver
       |by repeat destruct Hc' as [-> |Hc']; [..|rewrite Hc']; vm_compute]). }
  rewrite E in H. apply exec_anchored in H as (_ & _ & H). apply rmatch_starts in H; [|lia].
  destruct H as [[_ H]|(y & Hy & Sy)]; [congruence|].
  assert (y = x) as -> by (destruct s; simplify_eq/=; congruence).
  split.
  - apply not_true_is_false. intros W. rewrite S in Sy by auto. done.
  - intros W. rewrite S in Sy by auto. done.
Qed.


(** * Separators *)

Definition all_white (s : jstr) : Prop := Forall (fun c => is_white c = true) s.

(** A comma between white space. *)
Definition comma_text (s : jstr) : Prop := exists a b, s = a ++ js "," ++ b /\ all_white a /\ all_white b.

Lemma not_white_comma s : all_white s -> chr "," ∉ s.
Proof. unfold all_white. intros F H. rewrite Forall_forall in F. by apply F in H. Qed.

Lemma exec_match_at n r s m : exec (anchored n r) s = Some m -> match_at (anchored n r) s 0 = Some m.
Proof.
  intros H. unfold exec in H. destruct (length s) as [|f] eqn:E; cbn [search_from] in H.
  - by destruct (match_at _ s 0).
  - destruct (match_at (anchored n r) s 0) eqn:M; [done|].
    apply search_from_sound in H as [Hb Hm]. inversion Hm as [| |a b i c j c' l c'' Ha Hr| | | | | | | | | | | | |]; subst.
    inversion Ha. lia.
Qed.

(** A greedy star of a class in front of the end takes all it can. *)
Lemma star_greedy {A} s p i c (k : nat -> caps -> option A) :
  (forall j c, k j c <> None) -> (forall j x, i <= j -> s !! j = Some x -> p x = true) -> i <= length s ->
  matcher s (RStar true (RClass p)) i c k = k (length s) c.
Proof.
  intros Hk Hp Hi. cbn [matcher]. remember (S (length s - i)) as fuel eqn:Ef.
  assert (F : length s - i < fuel) by lia. clear Ef. revert i Hp Hi F.
  induction fuel as [|f IH]; intros i Hp Hi F; [lia|]. cbn [star_loop matcher].
  destruct (s !! i) as [x|] eqn:Hx.
  - rewrite (Hp i x) by done. apply lookup_lt_Some in Hx.
    destruct (Nat.eqb_spec (S i) i); [lia|]. rewrite IH; [|intros j y Hj; apply Hp; lia|lia|lia].
    cbn. specialize (Hk (length s) c). by destruct (k (length s) c).
  - apply lookup_ge_None in Hx. by assert (i = length s) as -> by lia.
Qed.

Lemma whites_match s i c j c' : rmatch s whites i c j c' -> i <= length s ->
  exists w, drop i s = w ++ drop j s /\ all_white w /\ j = i + length w.
Proof.
  unfold whites. remember (RStar true white) as r eqn:Er. intros H.
  induction H as [| | | | |g a i c|g a i c j c1 l c2 Ha IHa Hne Hr IHr| | | | | | | | |]; simplify_eq; intros Hi.
  - exists []. split; [done|]. split; [constructor|]. cbn. lia.
  - inversion Ha; subst. destruct (IHr eq_refl) as (w & E & W & ->); [apply lookup_lt_Some in H0; lia|].
    exists (x :: w). split; [|split; [by constructor|cbn; lia]].
    rewrite (drop_S s x i) by done. by rewrite E.
Qed.

Lemma char_match s x i c j c' : rmatch s (RChar x) i c j c' -> s !! i = Some x /\ j = S i /\ c' = c.
Proof.
  unfold RChar. inversion 1 as [|p i0 c0 y Hy Py| | | | | | | | | | | | | |]; subst.
  by apply N.eqb_eq in Py as <-.
Qed.

(** What [rcomma] matches. *)
Lemma rcomma_value s m : exec rcomma s = Some m ->
  exists v, group_or_empty s m 0 = v /\ comma_text v /\ s = v ++ drop (length v) s.
Proof.
  intros H. apply exec_anchored in H as (V & B & H). exists (take (m_end m) s). split; [done|].
  split; [|by rewrite length_take_le, take_drop].
  inversion H as [| |a b i c j c' l c'' Ha Hb| | | | | | | | | | | | |]; subst.
  inversion Hb as [| |a b i c2 j2 c2' l c2'' Hc Hd| | | | | | | | | | | | |]; subst.
  apply whites_match in Ha as (w1 & E1 & W1 & ->); [|lia]. apply char_match in Hc as (Hx & -> & ->).
  apply whites_match in Hd as (w2 & E2 & W2 & Hj).
  2: { apply lookup_lt_Some in Hx. lia. }
  exists w1, w2. split; [|done]. rewrite drop_0 in E1. cbn [Nat.add] in *.
  rewrite (drop_S _ _ _ Hx), E2 in E1. rewrite E1 at 1. rewrite Hj.
  change (chr "," :: w2 ++ ?x) with ((js "," ++ w2) ++ x). rewrite app_assoc.
  apply take_app_length'. rewrite !length_app. cbn. lia.
Qed.

(** On a separator that ends the text, [rcomma] takes all of it. *)
Lemma rcomma_all s m : comma_text s -> exec rcomma s = Some m -> m_end m = length s.
Proof.
  intros (a & b & -> & Wa & Wb) H. set (s := a ++ js "," ++ b) in *. apply exec_match_at in H.
  assert (Hs : forall j x, s !! j = Some x -> is_white x = true \/ (j = length a /\ x = chr ",")).
  { intros j x Hj. unfold s in Hj. apply lookup_app_Some in Hj as [Hj|[Hl Hj]].
    - left. by apply (Forall_lookup_1 _ _ _ _ Wa Hj).
    - destruct (j - length a) as [|k] eqn:Ek; cbn in Hj.
      + right. simplify_eq. split; [lia|done].
      + left. by apply (Forall_lookup_1 _ _ _ _ Wb Hj). }
  assert (M : match_at rcomma s 0 = matcher s whites 0 (replicate 1 None) (fun j c =>
    matcher s (RChar (chr ",")) j c (fun j c => matcher s whites j c (fun j c =>
      Some {| m_start := 0; m_end := j; m_caps := c |})))) by reflexivity.
  unfold rcomma in M. rewrite M in H.
  apply matcher_sound in H as (j & c & _ & H). apply matcher_sound in H as (j' & c' & Hc & H).
  apply char_match in Hc as (Hj & -> & ->).
  destruct (Hs j _ Hj) as [?|[-> _]]; [done|]. unfold whites, white in H. rewrite star_greedy in H.
  - by simplify_eq.
  - done.
  - intros k y Hk Hy. destruct (Hs k y Hy) as [?|[-> _]]; [done|lia].
  - apply lookup_lt_Some in Hj. lia.
Qed.


(** * Rounds *)

(** A result, or the error of the library for an invalid selector. *)
Definition okay {A} (r : res A) : Prop := (exists a, r = Ok a) \/ exists msg, r = error msg.

Lemma okay_bind {A B} (r : res A) (f : A -> res B) :
  okay r -> (forall a, r = Ok a -> okay (f a)) -> okay (rbind r f).
Proof. intros [[a ->]|[msg ->]] H; [by apply H|right; by exists msg]. Qed.

Lemma okay_Ok {A} (a : A) : okay (Ok a).
Proof. left. by exists a. Qed.

Lemma okay_error {A} msg : okay (error (A := A) msg).
Proof. right. by exists msg. Qed.

Lemma slice_to_prefix s k : slice_to s k `prefix_of` s.
Proof. apply prefix_take. Qed.

Lemma preFilter_CHILD_okay s r : okay (preFilter_CHILD s r).
Proof.
  unfold preFilter_CHILD. case_bool_decide; destruct (some_text (group s r 3)); auto using okay_Ok, okay_error.
Qed.

Lemma try_filter_prefix ex t s m k : try_filter ex t s = Ok (Some (m, k)) -> m `prefix_of` s.
Proof.
  unfold try_filter. destruct (exec (matchExpr t) s) as [r|] eqn:E; [|done].
  apply matchExpr_exec in E as [V _]. rewrite V. pose proof (prefix_take s (m_end r)) as P.
  destruct t; try (intros [= <- <-]; exact P).
  - intros (k' & _ & [= <- <-])%rbind_Ok. exact P.
  - unfold preFilter_PSEUDO. rewrite V. destruct (test _ _); [done|].
    destruct (some_text (group s r 3)); [intros [= <- <-]; exact P|].
    destruct (match some_text (group s r 6) with Some _ => None | None => _ end) as [u|]; [|intros [= <- <-]; exact P].
    destruct (test rpseudo u); [|intros [= <- <-]; exact P].
    intros (e & _ & H)%rbind_Ok. destruct (_ || _); injection H as <- <-; [exact P|].
    etrans; [apply slice_to_prefix|exact P].
Qed.

(** The argument of a pseudo-class is shorter than the text. *)
Lemma pseudo_argument s r u : exec (matchExpr FPSEUDO) s = Some r -> group s r 2 = Some u ->
  length u < length s.
Proof.
  intros (_ & B & H)%exec_anchored G. unfold group, cap_str in G.
  destruct (m_caps r !! 2) as [[[i j]|]|] eqn:C; simplify_eq.
  unfold pseudos in H. inversion H as [| |a b i1 c1 j1 c1' l c'' Ha Hb| | | | | | | | | | | | |]; subst.
  apply char_match in Ha as (Hx & -> & ->). apply lookup_lt_Some in Hx.
  eapply (rmatch_caps s _ 1) in Hb; [|done|lia|].
  - destruct (Hb 2 i j C). unfold slice. rewrite length_take, length_drop. lia.
  - intros n i' j' Hn. apply lookup_replicate in Hn as [Hn _]. done.
Qed.


Lemma try_filter_okay ex t s :
  (forall u, length u < length s -> okay (ex u)) -> okay (try_filter ex t s).
Proof.
  intros Hex. unfold try_filter. destruct (exec (matchExpr t) s) as [r|] eqn:E; [|apply okay_Ok].
  destruct t; try apply okay_Ok.
  - apply okay_bind; [apply preFilter_CHILD_okay|]. intros. apply okay_Ok.
  - unfold preFilter_PSEUDO. destruct (test _ _); [apply okay_Ok|].
    destruct (some_text (group s r 3)); [apply okay_Ok|].
    destruct (match some_text (group s r 6) with Some _ => None | None => _ end) as [u|] eqn:U; [|apply okay_Ok].
    destruct (test rpseudo u); [|apply okay_Ok]. apply okay_bind; [|intros; destruct (_ || _); apply okay_Ok].
    apply Hex. apply (pseudo_argument s r); [done|]. destruct (some_text (group s r 6)); [done|].
    destruct (group s r 2) as [[|]|]; cbn in U; congruence.
Qed.

(** [b] comes from [a] by pushing tokens. *)
Definition moved (a b : scan_state) : Prop :=
  groups b = groups a /\ toSelector (tokens b) ++ soFar b = toSelector (tokens a) ++ soFar a /\
  ((soFar b = soFar a /\ tokens b = tokens a /\ matched b = matched a) \/
   (tokens b <> [] /\ length (soFar b) <= length (soFar a) /\
    (matched b = true -> length (soFar b) < length (soFar a)))).

Lemma moved_refl a : moved a a.
Proof. split; [done|]. split; [done|]. by left. Qed.

Lemma moved_trans a b c : moved a b -> moved b c -> moved a c.
Proof.
  intros (G1 & T1 & [(S1 & K1 & M1)|(K1 & L1 & M1)]) (G2 & T2 & [(S2 & K2 & M2)|(K2 & L2 & M2)]).
  - split; [congruence|]. split; [congruence|]. left. repeat split; congruence.
  - split; [congruence|]. split; [congruence|]. right. rewrite <- S1. auto.
  - split; [congruence|]. split; [congruence|]. right. rewrite K2, S2, M2. auto.
  - split; [congruence|]. split; [congruence|]. right. split; [done|]. split; [lia|].
    intros H. specialize (M2 H). lia.
Qed.

Lemma toSelector_snoc ts t : toSelector (ts ++ [t]) = toSelector ts ++ tk_value t.
Proof. unfold toSelector. rewrite fmap_app, concat_app. cbn. by rewrite app_nil_r. Qed.

Lemma push_token_moved m k st : m `prefix_of` soFar st -> moved st (push_token m k st).
Proof.
  intros [r Hr]. unfold push_token, moved. cbn [groups tokens soFar matched]. rewrite Hr, drop_app_length.
  split; [done|]. split.
  - rewrite toSelector_snoc. cbn [tk_value]. by rewrite <- app_assoc.
  - right. split; [by destruct (tokens st)|]. rewrite length_app. split; [lia|].
    intros Hm%negb_true_iff%bool_decide_eq_false. destruct m; [done|cbn; lia].
Qed.

Lemma run_filters_moved ex ts : forall st st', run_filters ex ts st = Ok st' -> moved st st'.
Proof.
  induction ts as [|t ts IH]; intros st st' H; [injection H as <-; apply moved_refl|].
  apply rbind_Ok in H as (o & Ho & H). apply (moved_trans _ (match o with Some (m, k) => push_token m k st | None => st end)); [|by apply IH].
  destruct o as [[m k]|]; [|apply moved_refl]. by apply push_token_moved, (try_filter_prefix ex t _ _ k).
Qed.

Lemma run_filters_okay ex ts : forall st, (forall u, length u < length (soFar st) -> okay (ex u)) ->
  okay (run_filters ex ts st).
Proof.
  induction ts as [|t ts IH]; intros st Hex; [apply okay_Ok|]. cbn [run_filters].
  apply okay_bind; [by apply try_filter_okay|]. intros o Ho. apply IH.
  destruct o as [[m k]|]; [|done]. intros u Hu. apply Hex. cbn in Hu. rewrite length_drop in Hu. lia.
Qed.

Lemma combinator_moved st : moved st (combinator st).
Proof.
  unfold combinator. destruct (exec rcombinators (soFar st)) as [r|] eqn:E; [|apply moved_refl].
  apply push_token_moved. apply exec_anchored in E as (-> & _). apply prefix_take.
Qed.

(** ** Trailing separators *)

(** The text that is left is a separator: nothing can follow. *)
Definition doomed (st : scan_state) : Prop := comma_text (soFar st).

(** The matches of [rcombinators] have no comma. *)
Lemma combinator_no_comma s m : exec rcombinators s = Some m -> chr "," ∉ group_or_empty s m 0.
Proof.
  intros (V & B & H)%exec_anchored. rewrite V.
  inversion H as [| |a b i c j c' l c'' Ha Hb| | | | | | | | | | | | |]; subst.
  inversion Hb as [| |a b i c2 j2 c2' l c2'' Hc Hd| | | | | | | | | | | | |]; subst.
  apply whites_match in Ha as (w1 & E1 & W1 & ->); [|lia]. rewrite drop_0 in E1. cbn [Nat.add] in *.
  assert (exists x, s !! length w1 = Some x /\ j2 = S (length w1) /\ x <> chr ",") as (x & Hx & -> & Nx).
  { inversion Hc as [| | | | | | | | |n a0 i0 c0 j0 c0' Hg| | | | | |]; subst.
    inversion Hg as [| | |a1 b1 i1 c1 j1 c1' Hl|a1 b1 i1 c1 j1 c1' Hl| | | | | | | | | | |]; subst;
      inversion Hl as [|p1 i2 c3 y Hy Py| | | | | | | | | | | | | |]; subst; exists y; (split; [done|]); (split; [done|]);
      intros ->; done. }
  apply whites_match in Hd as (w2 & E2 & W2 & Hj); [|apply lookup_lt_Some in Hx; lia].
  assert (T : take (m_end m) s = w1 ++ x :: w2).
  { rewrite E1, (drop_S _ _ _ Hx), E2, Hj. change (x :: w2 ++ ?y) with ((x :: w2) ++ y). rewrite app_assoc.
    apply take_app_length'. rewrite length_app. cbn. lia. }
  rewrite T. intros [Hc1|Hc1]%elem_of_app; [by apply (not_white_comma w1)|].
  apply elem_of_cons in Hc1 as [Hc2|Hc1]; [by destruct Nx|by apply (not_white_comma w2)].
Qed.

Lemma doomed_filters ex st : doomed st -> run_filters ex filter_types st = Ok st.
Proof.
  intros (a & b & E & Wa & Wb).
  assert (F : forall t, try_filter ex t (soFar st) = Ok None).
  { intros t. unfold try_filter. destruct (exec (matchExpr t) (soFar st)) as [m|] eqn:X; [|done]. exfalso.
    destruct a as [|x a].
    - destruct (matchExpr_first t _ m (chr ",") X) as [_ N]; [by rewrite E|done].
    - apply Forall_cons in Wa as [Wx _]. destruct (matchExpr_first t _ m x X) as [N _]; [by rewrite E|congruence]. }
  unfold filter_types. cbn [run_filters]. by do 6 (rewrite F; cbn [rbind]).
Qed.

Lemma doomed_next_group st : doomed st -> doomed (next_group st).
Proof.
  intros D. unfold next_group. destruct (matched st); [cbn [negb]|exact D].
  destruct (exec rcomma (soFar st)) as [m|] eqn:X; [|exact D].
  pose proof (rcomma_all _ _ D X) as L. apply exec_anchored in X as (V & _).
  unfold doomed. cbn [soFar]. rewrite V, L, firstn_all, drop_all. exact D.
Qed.

Lemma doomed_combinator st : doomed st -> doomed (combinator st).
Proof.
  intros (a & b & E & Wa & Wb). unfold combinator. destruct (exec rcombinators (soFar st)) as [m|] eqn:X; [|by exists a, b].
  pose proof (combinator_no_comma _ _ X) as N. apply exec_anchored in X as (V & B & _).
  unfold doomed, push_token. cbn [soFar]. rewrite V in N |- *. rewrite length_take_le by done.
  assert (m_end m <= length a) as L.
  { destruct (decide (m_end m <= length a)); [done|]. exfalso. apply N. rewrite E.
    rewrite take_app_ge by lia. apply elem_of_app. right.
    destruct (m_end m - length a) eqn:K; [lia|]. left. }
  rewrite E, drop_app_le by done. exists (drop (m_end m) a), b. split; [done|]. split; [|done].
  unfold all_white in *. by apply Forall_drop.
Qed.

Lemma doomed_round ex st st' : doomed st -> scan_round ex st = Ok st' -> doomed st'.
Proof.
  intros D. unfold scan_round. pose proof (doomed_combinator _ (doomed_next_group _ D)) as D'.
  rewrite doomed_filters by done. by intros [= <-].
Qed.

(** * The loop *)

(** The text [s] so far: complete groups, each with its separator, the last one,
    and what is left. *)
Definition covered (s : jstr) (st : scan_state) : Prop :=
  exists seps, length seps = length (groups st) /\ Forall comma_text seps /\
    s = concat (zip_with (fun g c => toSelector g ++ c) (groups st) seps) ++ toSelector (tokens st) ++ soFar st /\
    Forall (fun g => g <> []) (groups st) /\ (matched st = true -> tokens st <> []).

Lemma covered_moved s a b : covered s a -> moved a b -> covered s b.
Proof.
  intros (seps & L & C & E & G & M) (Gb & Tb & K). exists seps. rewrite Gb, Tb. repeat (split; [done|]).
  destruct K as [(_ & -> & ->)|(K & _)]; auto.
Qed.

Lemma next_group_covered s st : covered s st -> soFar st <> [] -> (matched st = false -> tokens st = []) ->
  doomed (next_group st) \/ (covered s (next_group st) /\ soFar (next_group st) <> [] /\
    matched (next_group st) = false).
Proof.
  intros (seps & L & C & E & G & M) Hne Hf. unfold next_group. destruct (matched st) eqn:Mt; cbn [negb].
  - destruct (exec rcomma (soFar st)) as [m|] eqn:X; cbn [soFar groups tokens matched].
    + apply rcomma_value in X as (v & -> & Cv & Ev). destruct (drop (length v) (soFar st)) as [|x rest] eqn:D.
      * left. unfold doomed. cbn. by rewrite Ev, app_nil_r.
      * right. split; [|done]. exists (seps ++ [v]). cbn. rewrite !length_app, L. split; [done|].
        split; [apply Forall_app; split; [done|by constructor]|].
        split; [|split; [apply Forall_app; split; [done|constructor; [auto|constructor]]|done]].
        rewrite zip_with_app, concat_app by done. rewrite E, Ev at 1.
        cbn [zip_with concat]. rewrite app_nil_r, <- !app_assoc. done.
    + right. split; [|done]. exists seps. by repeat (split; [done|]).
  - right. split; [|done]. exists seps. cbn [soFar groups tokens matched]. rewrite (Hf eq_refl) in E.
    by repeat (split; [done|]).
Qed.

(** After a round the text is covered, and consumed only by tokens, or doomed. *)
Lemma round_covered ex s st st' : covered s st -> soFar st <> [] -> (matched st = false -> tokens st = []) ->
  scan_round ex st = Ok st' -> doomed st' \/ (covered s st' /\ (tokens st' = [] -> soFar st' <> [])).
Proof.
  intros C Hne Hf H. destruct (next_group_covered s st C Hne Hf) as [D|(C' & N & _)].
  - left. unfold scan_round in H. rewrite (doomed_filters ex _ (doomed_combinator _ D)) in H.
    injection H as <-. by apply doomed_combinator.
  - right. assert (Mv : moved (next_group st) st').
    { eapply moved_trans; [apply combinator_moved|]. by apply (run_filters_moved ex filter_types). }
    split; [by apply (covered_moved s _ _ C' Mv)|]. destruct Mv as (_ & _ & [(-> & _)|(K & _)]); [done|].
    by intros ?.
Qed.

Lemma round_shorter ex st st' : scan_round ex st = Ok st' -> matched st' = true ->
  length (soFar st') < length (soFar st).
Proof.
  intros H M. assert (Mv : moved (next_group st) st').
  { eapply moved_trans; [apply combinator_moved|]. by apply (run_filters_moved ex filter_types). }
  assert (N : length (soFar (next_group st)) <= length (soFar st) /\ matched (next_group st) = false).
  { unfold next_group. destruct (matched st); cbn [negb]; [|split; [done|done]].
    destruct (exec rcomma (soFar st)) as [m|]; cbn; [|done]. split; [|done].
    destruct (drop _ _) eqn:D; [done|]. rewrite <- D, length_drop. lia. }
  destruct Mv as (_ & _ & [(_ & _ & Mm)|(_ & _ & L)]); [destruct N; congruence|].
  specialize (L M). lia.
Qed.

Lemma round_okay ex st : (forall u, length u < length (soFar st) -> okay (ex u)) -> okay (scan_round ex st).
Proof.
  intros Hex. unfold scan_round. apply run_filters_okay. intros u Hu. apply Hex.
  assert (length (soFar (combinator (next_group st))) <= length (soFar st)); [|lia].
  transitivity (length (soFar (next_group st))).
  - destruct (combinator_moved (next_group st)) as (_ & _ & [(-> & _)|(_ & L & _)]); [done|exact L].
  - unfold next_group. destruct (matched st); cbn [negb]; [|done].
    destruct (exec rcomma (soFar st)) as [m|]; cbn; [|done]. destruct (drop _ _) eqn:D; [done|].
    rewrite <- D, length_drop. lia.
Qed.

Lemma scan_okay fuel : forall st, length (soFar st) < fuel -> okay (scan fuel st).
Proof.
  induction fuel as [|f IH]; intros st Hf; [lia|]. cbn [scan]. destruct (soFar st) as [|x s] eqn:E; [apply okay_Ok|].
  apply okay_bind.
  - apply round_okay. intros u Hu. apply okay_bind; [|intros; apply okay_Ok]. apply IH. cbn. rewrite E in Hu. lia.
  - intros st' H. destruct (matched st') eqn:M; [|apply okay_Ok]. apply IH.
    apply round_shorter in H; [|done]. rewrite E in H. lia.
Qed.

Lemma scan_covered fuel s : forall st st', (doomed st \/ covered s st) -> soFar st <> [] ->
  (matched st = false -> tokens st = []) -> scan fuel st = Ok st' ->
  doomed st' \/ (covered s st' /\ (soFar st' = [] -> tokens st' <> [])).
Proof.
  induction fuel as [|f IH]; intros st st' C Hne Hf H; [done|]. cbn [scan] in H.
  destruct (soFar st) as [|x rest] eqn:E; [done|].
  apply rbind_Ok in H as (st1 & H1 & H).
  assert (C1 : doomed st1 \/ (covered s st1 /\ (tokens st1 = [] -> soFar st1 <> []))).
  { destruct C as [D|C]; [left; by eapply doomed_round|]. eapply round_covered; [done|by rewrite E|done|done]. }
  destruct (matched st1) eqn:M.
  - destruct (soFar st1) as [|y rest1] eqn:E1.
    + destruct f as [|f]; [done|]. cbn [scan] in H. rewrite E1 in H. injection H as <-. rewrite E1.
      destruct C1 as [D|[C1 K]]; [by left|]. right. split; [done|]. intros _ T. by destruct (K T).
    + apply (IH st1); [destruct C1 as [?|[? _]]; auto|by rewrite E1|by rewrite M|done].
  - injection H as <-. destruct C1 as [D|[C1 K]]; [by left|]. right. split; [done|]. intros S0 T. by destruct (K T).
Qed.

Lemma covered_start s : covered s (scan_start s).
Proof. exists []. repeat (split; [done|]). done. Qed.

(** C15. The tokenizer ends on every selector, with a list of groups or with the
    error for an invalid selector; and the tokens are the whole text: the selector
    is the concatenation of the texts of the tokens, group after group, each group
    has a token, and between two groups there is a comma with white space around
    it. *)
Theorem tokenize_covers s : s <> [] ->
  (exists msg, tokenize s = Throw (EvalError (js "Syntax error, unrecognized expression: " ++ msg))) \/
  (exists gs last seps, tokenize s = Ok (gs ++ [last]) /\
     Forall (fun g => g <> []) (gs ++ [last]) /\
     length seps = length gs /\ Forall comma_text seps /\
     s = concat (zip_with (fun g c => toSelector g ++ c) gs seps) ++ toSelector last).
Proof.
  intros Hne. unfold tokenize. destruct (scan_okay (S (length s)) (scan_start s)) as [[st E]|[msg E]];
    [cbn; lia| |left; exists msg; by rewrite E].
  rewrite E. cbn [rbind]. destruct (soFar st) as [|x rest] eqn:R; [|left; by exists s].
  right. destruct s as [|x s]; [done|]. set (sel := x :: s) in *.
  destruct (scan_covered _ sel _ _ (or_intror (covered_start sel)) Hne (fun _ => eq_refl) E) as [D|[C K]].
  - destruct D as (a & b & D & _). rewrite R in D. by destruct a.
  - destruct C as (seps & L & F & Et & G & _). exists (groups st), (tokens st), seps.
    split; [done|]. split; [apply Forall_app; split; [done|constructor; [by apply K|constructor]]|].
    repeat (split; [done|]). rewrite R, app_nil_r in Et. exact Et.
Qed.


Lemma tokenize_covers_witness :
  let s := js "ul > li.x:not([a=')']) , p" in
  exists gs last seps, tokenize s = Ok (gs ++ [last]) /\ length gs = 1 /\
    s = concat (zip_with (fun g c => toSelector g ++ c) gs seps) ++ toSelector last.
Proof.
  cbv zeta. destruct (tokenize_covers (js "ul > li.x:not([a=')']) , p")) as [[msg E]|(gs & last & seps & E & _ & _ & _ & C)].
  - done.
  - exfalso. revert E. vm_compute. done.
  - exists gs, last, seps. split; [exact E|]. split; [|exact C]. revert E. vm_compute. intros [= E].
    destruct gs as [|g [|g' gs]]; cbn in E; try done. by destruct gs.
Defined.

(** * Two divergences *)

(** An unclosed parenthesis around another pseudo-class is accepted: no closing
    parenthesis is found behind the excess, and the index -1 cuts the token down
    to its opening parenthesis. *)
Lemma unclosed_parenthesis_accepted :
  match tokenize (js "a:not(b:not(c) d") with
  | Ok [ts] => (tk_value <$> ts) = js <$> ["a"; ":not("; "b"; ":not(c)"; " "; "d"]
  | _ => False
  end.
Proof. by vm_compute. Qed.

(** The keywords of nth pseudo-classes are recognized in any case, but only their
    lower-case forms count: [:nth-child(ODD)] is [0n+0]. *)
Lemma upper_case_odd :
  tokenize (js ":nth-child(ODD)") =
    Ok [[{| tk_value := js ":nth-child(ODD)"; tk_kind := TChild (js "nth") (js "child") (Some (js "ODD")) (Some (0, 0)%Z) |}]] /\
  tokenize (js ":nth-child(odd)") =
    Ok [[{| tk_value := js ":nth-child(odd)"; tk_kind := TChild (js "nth") (js "child") (Some (js "odd")) (Some (2, 1)%Z) |}]].
Proof. by vm_compute. Qed.

End SzTokensProofs.
