(* ===== verification/SzMatch.v ===== *)
(** The compiled matchers of Sizzle, the selector engine inside [jquery.js]: the
    filters (lines 1857 to 2085), the pseudo-classes that depend on the element
    only and [:not] (lines 2087 to 2308), combinators with their caches (lines 2395
    to 2474), [matcherFromTokens] (lines 2606 to 2667), the super matcher for
    element matchers (lines 2672 to 2720) and [compile] (lines 2794 to 2826).

    The document is a finite map of nodes.  The closures the library composes are
    the trees of type [matcher]; running one threads the state of the engine: the
    counter [dirruns], the outermost context and the caches that the engine hangs
    on the elements.  A cache of a combinator is an array shared by the elements a
    walk has passed, so that its result reaches all of them; it is a cell here.

    Left out: positional pseudo-classes with the set matchers they need, and
    [:has], [:lang], [:target] and [:focus]; [compile] answers [OutOfModel] for
    them.  The caches of compiled selectors and of class patterns are left out as
    well, and the feature tests have the outcomes of a current browser. *)

From Stdlib Require Import QArith_base.
From S2P Require Import Prelude Regex SzTokens.
Import SzTokens.

Module SzMatch.

(** * Documents *)

(** A node; [form] and [label] tell whether the element has these properties,
    [disabled] is undefined for elements without it. *)
Record node := {
  nodeType : N;
  nodeName : jstr;
  parentNode : option nat;
  childNodes : list nat;
  attrs : list (jstr * jstr);
  className : option jstr;        (** when it is a string *)
  type : option jstr;
  textContent : jstr;
  checked : bool;
  selected : bool;
  disabled : option bool;
  has_form : bool;
  has_label : bool;
}.

Abbreviation dom := (gmap nat node).

Definition parent_of (d : dom) (e : nat) : option nat := d !! e ≫= parentNode.
Definition children_of (d : dom) (p : nat) : list nat := from_option childNodes [] (d !! p).

(** The index of [e] among the children of its parent, with those children. *)
Definition place (d : dom) (e : nat) : option (list nat * nat) :=
  p ← parent_of d e;
  '(i, _) ← list_find (fun x => x = e) (children_of d p);
  Some (children_of d p, i).

Definition nextSibling (d : dom) (e : nat) : option nat :=
  '(cs, i) ← place d e; cs !! S i.
Definition previousSibling (d : dom) (e : nat) : option nat :=
  '(cs, i) ← place d e; match i with O => None | S j => cs !! j end.
Definition firstChild (d : dom) (p : nat) : option nat := head (children_of d p).
Definition lastChild (d : dom) (p : nat) : option nat := last (children_of d p).

Definition is_element (d : dom) (e : nat) : bool :=
  match d !! e with Some x => N.eqb (nodeType x) 1 | None => false end.

Definition name_of (d : dom) (e : nat) : jstr := from_option nodeName [] (d !! e).

Definition assoc_attr (name : jstr) (l : list (jstr * jstr)) : option jstr := assoc name l.

Definition getAttribute (d : dom) (e : nat) (name : jstr) : option jstr :=
  x ← d !! e; assoc_attr name (attrs x).

(** * Filters *)

Section filters.
Context `{Unicode}.
Variable d : dom.
Variable docElem : nat.

Definition lower_name (e : nat) : jstr := toLowerCase (name_of d e).

Definition filter_TAG (nodeNameSelector : jstr) (e : nat) : bool :=
  if bool_decide (nodeNameSelector = js "*") then true
  else negb (bool_decide (name_of d e = [])) &&
       bool_decide (lower_name e = toLowerCase (unescape nodeNameSelector)).

(** [new RegExp("(^|" + whitespace + ")" + className + "(" + whitespace + "|$)")];
    [compile] refuses class names with escapes. *)
Definition class_pattern (name : jstr) : pattern :=
  {| p_groups := 2; p_re :=
       RSeq (RGroup 1 (RAlt RBol white)) (RSeq (RLit name) (RGroup 2 (RAlt white REol))) |}.

Definition filter_CLASS (name : jstr) (e : nat) : bool :=
  test (class_pattern name)
    (text_or (d !! e ≫= className) (text_or (getAttribute d e (js "class")) [])).

Definition filter_ID (id : jstr) (e : nat) : bool :=
  bool_decide (getAttribute d e (js "id") = Some (unescape id)).

(** [s.replace(/[\x20\t\r\n\f]+/g, " ")] *)
Definition rwhitespace : pattern := {| p_groups := 0; p_re := RPlus true white |}.

(** [booleans] *)
Definition booleans : list jstr :=
  js <$> ["checked"; "selected"; "async"; "autofocus"; "autoplay"; "controls"; "defer"; "disabled"; "hidden"; "ismap";
          "loop"; "multiple"; "open"; "readonly"; "required"; "scoped"].

(** [Sizzle.attr(elem, name)]: outside XML, [getAttribute] ignores case, and the
    handlers of boolean attributes answer the name of the attribute. *)
Definition attr (xml : bool) (e : nat) (name : jstr) : option jstr :=
  if xml then getAttribute d e name
  else
    let lowercaseName := toLowerCase name in
    value ← getAttribute d e lowercaseName;
    Some (if bool_decide (lowercaseName ∈ booleans) then lowercaseName else value).

Definition filter_ATTR (name : jstr) (operator : option jstr) (check : jstr) (xml : bool) (e : nat) : bool :=
  match attr xml e name with
  | None => bool_decide (operator = Some (js "!="))
  | Some result =>
      match operator with
      | None | Some [] => true
      | Some op =>
          let eqs s := bool_decide (op = js s) in
          let given := negb (bool_decide (check = [])) in
          if eqs "=" then bool_decide (result = check)
          else if eqs "!=" then negb (bool_decide (result = check))
          else if eqs "^=" then given && Z.eqb (indexOf result check) 0
          else if eqs "*=" then given && Z.ltb (-1) (indexOf result check)
          else if eqs "$=" then given && bool_decide (substr_last result (length check) = check)
          else if eqs "~=" then
            Z.ltb (-1) (indexOf (js " " ++ replace_all rwhitespace result (fun _ => js " ") ++ js " ") check)
          else if eqs "|=" then
            bool_decide (result = check) ||
            bool_decide (take (S (length check)) result = check ++ js "-")
          else false
      end
  end.

(** ** Pseudo-classes of the element alone *)

Definition empty (e : nat) : bool :=
  forallb (fun c => negb (match d !! c with Some x => N.ltb (nodeType x) 6 | None => false end)) (children_of d e).

(** [/^h\d$/i] and [/^(?:input|select|textarea|button)$/i] *)
Definition rheader (s : jstr) : bool :=
  match s with [h; n] => N.eqb (ascii_lower h) (chr "h") && is_digit n | _ => false end.
Definition rinputs (s : jstr) : bool :=
  bool_decide ((ascii_lower <$> s) ∈ (js <$> ["input"; "select"; "textarea"; "button"])).

Definition type_is (e : nat) (t : jstr) : bool := bool_decide (d !! e ≫= type = Some t).
Definition flag (f : node -> bool) (e : nat) : bool := from_option f false (d !! e).
Definition name_is (e : nat) (s : string) : bool := bool_decide (lower_name e = js s).

Definition createInputPseudo (t : jstr) (e : nat) : bool := name_is e "input" && type_is e t.
Definition createButtonPseudo (t : jstr) (e : nat) : bool :=
  (name_is e "input" || name_is e "button") && type_is e t.

(** A pseudo-class without argument; [None] when there is none of this name here. *)
Definition element_pseudo (name : jstr) : option (nat -> bool) :=
  let eqs s := bool_decide (name = js s) in
  if eqs "root" then Some (fun e => bool_decide (e = docElem))
  else if eqs "checked" then
    Some (fun e => (name_is e "input" && flag checked e) || (name_is e "option" && flag selected e))
  else if eqs "selected" then Some (flag selected)
  else if eqs "empty" then Some empty
  else if eqs "parent" then Some (fun e => negb (empty e))
  else if eqs "header" then Some (fun e => rheader (name_of d e))
  else if eqs "input" then Some (fun e => rinputs (name_of d e))
  else if eqs "button" then
    Some (fun e => (name_is e "input" && type_is e (js "button")) || name_is e "button")
  else if eqs "text" then
    Some (fun e => name_is e "input" && type_is e (js "text") &&
                   match getAttribute d e (js "type") with
                   | None => true
                   | Some a => bool_decide (toLowerCase a = js "text")
                   end)
  else if bool_decide (name ∈ (js <$> ["radio"; "checkbox"; "file"; "password"; "image"]))
  then Some (createInputPseudo name)
  else if bool_decide (name ∈ (js <$> ["submit"; "reset"])) then Some (createButtonPseudo name)
  else None.

End filters.

(** * State *)

(** The values of [outermostContext]: null, the [true] that a comparison with the
    document leaves, or a context. *)
Inductive outer := ONull | OTrue | ONode (n : nat).

#[global] Instance outer_eq_dec : EqDecision outer.
Proof. solve_decision. Defined.

(** The array [[dirruns, doneName, result]] *)
Record cell := { ce_stamp : Q; ce_done : nat; ce_value : option bool }.

(** A value of [elem[expando][uniqueID][key]]: an array of a combinator, or one of
    the filter CHILD. *)
Inductive entry := ERef (c : nat) | ENth (stamp : Q) (nodeIndex diff : Z).

Record engine := {
  dirruns : Q;
  outermost : outer;
  caches : gmap (nat * jstr) entry;
  cells : gmap nat cell;
  next_cell : nat;
  drawn : nat;                   (** how many random numbers were drawn *)
}.

(** A computation of the engine; [None] when a walk is longer than its fuel. *)
Definition E (A : Type) : Type := engine -> option (A * engine).

#[global] Instance E_ret : MRet E := fun A a s => Some (a, s).
#[global] Instance E_bind : MBind E := fun A B f m s =>
  match m s with Some (a, s') => f a s' | None => None end.

Definition stuck {A} : E A := fun _ => None.
Definition get_state : E engine := fun s => Some (s, s).

Definition set_dirruns (q : Q) : E unit := fun s =>
  Some (tt, {| dirruns := q; outermost := outermost s; caches := caches s; cells := cells s;
               next_cell := next_cell s; drawn := drawn s |}).
Definition set_outermost (o : outer) : E unit := fun s =>
  Some (tt, {| dirruns := dirruns s; outermost := o; caches := caches s; cells := cells s;
               next_cell := next_cell s; drawn := drawn s |}).
Definition put_cache (e : nat) (key : jstr) (x : entry) : E unit := fun s =>
  Some (tt, {| dirruns := dirruns s; outermost := outermost s; caches := <[(e, key) := x]> (caches s);
               cells := cells s; next_cell := next_cell s; drawn := drawn s |}).
Definition put_cell (c : nat) (x : cell) : E unit := fun s =>
  Some (tt, {| dirruns := dirruns s; outermost := outermost s; caches := caches s;
               cells := <[c := x]> (cells s); next_cell := next_cell s; drawn := drawn s |}).

(** [newCache = [dirruns, doneName]] *)
Definition new_cell (done : nat) : E nat := fun s =>
  Some (next_cell s,
        {| dirruns := dirruns s; outermost := outermost s; caches := caches s;
           cells := <[next_cell s := {| ce_stamp := dirruns s; ce_done := done; ce_value := None |}]> (cells s);
           next_cell := S (next_cell s); drawn := drawn s |}).

(** [newCache[2] = v] *)
Definition set_result (c : nat) (v : option bool) : E unit :=
  s ← get_state;
  match cells s !! c with
  | Some x => put_cell c {| ce_stamp := ce_stamp x; ce_done := ce_done x; ce_value := v |}
  | None => mret tt
  end.

(** * Matchers *)

Inductive dir := DParent | DPrevious.

#[global] Instance dir_eq_dec : EqDecision dir.
Proof. solve_decision. Defined.

Record combinator := { c_dir : dir; c_first : bool; c_next : option jstr }.

(** [Expr.relative] *)
Definition relative (k : token_kind) : option combinator :=
  match k with
  | TComb t =>
      if bool_decide (t = js ">") then Some {| c_dir := DParent; c_first := true; c_next := None |}
      else if bool_decide (t = js " ") then Some {| c_dir := DParent; c_first := false; c_next := None |}
      else if bool_decide (t = js "+") then Some {| c_dir := DPrevious; c_first := true; c_next := None |}
      else if bool_decide (t = js "~") then Some {| c_dir := DPrevious; c_first := false; c_next := None |}
      else None
  | _ => None
  end.

(** The functions the library composes.  [MIsContext] is the innermost one of
    [matchContext] and [MContext] the first one of [matcherFromTokens]. *)
Inductive matcher :=
| MFilter (k : token_kind)
| MPseudo (name : jstr)
| MContains (text : jstr)
| MDisabled (b : bool)
| MNot (ms : list matcher)
| MIsContext
| MContext (leading : bool) (m : matcher)
| MComb (c : combinator) (base : bool) (done : nat) (m : matcher)
| MAll (ms : list matcher).

Section run.
Context `{Unicode}.
Variable d : dom.
Variables document docElem : nat.

(** [Math.random() || 0.1] *)
Variable random : nat -> Q.

Definition step (c : combinator) (e : nat) : option nat :=
  match c_dir c with DParent => parent_of d e | DPrevious => previousSibling d e end.

(** [skip || dir] *)
Definition cache_key (c : combinator) : jstr :=
  match c_next c with
  | Some k => k
  | None => match c_dir c with DParent => js "parentNode" | DPrevious => js "previousSibling" end
  end.

(** [elem.nodeType === 1 || checkNonElements] *)
Definition counts (c : combinator) (base : bool) (e : nat) : bool :=
  is_element d e || (base && bool_decide (cache_key c = js "parentNode")).

Section walks.
Variable c : combinator.
Variable base : bool.
Variable done : nat.
Variable matcher : nat -> E bool.

(** Check against the closest ancestor or preceding element. *)
Fixpoint walk_first (fuel : nat) (e : nat) : E bool :=
  match step c e with
  | None => mret false
  | Some e' =>
      if counts c base e' then matcher e'
      else match fuel with O => stuck | S fuel' => walk_first fuel' e' end
  end.

(** All of them, in an XML document. *)
Fixpoint walk_plain (fuel : nat) (e : nat) : E bool :=
  match step c e with
  | None => mret false
  | Some e' =>
      match fuel with
      | O => stuck
      | S fuel' =>
          if counts c base e' then
            r ← matcher e';
            if r : bool then mret true else walk_plain fuel' e'
          else walk_plain fuel' e'
      end
  end.

(** The array an element has for this combinator, when it is of this run. *)
Definition old_cache (s : engine) (e : nat) : option (option bool) :=
  match caches s !! (e, cache_key c) with
  | Some (ERef r) =>
      match cells s !! r with
      | Some x => if Qeq_bool (ce_stamp x) (dirruns s) && Nat.eqb (ce_done x) done
                  then Some (ce_value x) else None
      | None => None
      end
  | _ => None
  end.

(** All of them, with the array [new]. *)
Fixpoint walk_cached (fuel : nat) (new : nat) (e : nat) : E bool :=
  match step c e with
  | None => mret false
  | Some e' =>
      match fuel with
      | O => stuck
      | S fuel' =>
          if counts c base e' then
            if match c_next c with Some k => bool_decide (k = lower_name d e') | None => false end
            then walk_cached fuel' new (default e' (step c e'))
            else
              s ← get_state;
              match old_cache s e' with
              | Some v => set_result new v;; mret (default false v)
              | None =>
                  put_cache e' (cache_key c) (ERef new);;
                  r ← matcher e';
                  set_result new (Some r);;
                  if r : bool then mret true else walk_cached fuel' new e'
              end
          else walk_cached fuel' new e'
      end
  end.

(** The function [addCombinator] answers. *)
Definition combine (fuel : nat) (xml : bool) (e : nat) : E bool :=
  if c_first c then walk_first fuel e
  else if xml then walk_plain fuel e
  else new ← new_cell done; walk_cached fuel new e.

End walks.

(** ** CHILD *)

(** Is there a node in this direction that counts? *)
Fixpoint any_sibling (fuel : nat) (next : nat -> option nat) (p : nat -> bool) (e : nat) : option bool :=
  match next e with
  | None => Some false
  | Some e' => if p e' then Some true
               else match fuel with O => None | S fuel' => any_sibling fuel' next p e' end
  end.

(** [++nodeIndex && node && node[dir] || (diff = nodeIndex = 0) || start.pop()];
    a missing [nodeIndex] is undefined. *)
Definition advance (next : nat -> option nat) (node : option nat) (nodeIndex : option Z) (diff : Z)
    (start : option nat) : option nat * option Z * Z * option nat :=
  let i := (fun i => i + 1)%Z <$> nodeIndex in
  let n := match i with
           | Some j => if Z.eqb j 0 then None else node ≫= next
           | None => None
           end in
  match n with
  | Some _ => (n, i, diff, start)
  | None => (start, Some 0%Z, 0%Z, None)
  end.

(** The loop over the siblings that counts those with [p]; [note] is called with
    every node that counts, its index and its number. *)
Fixpoint seek (fuel : nat) (next : nat -> option nat) (p : nat -> bool) (note : nat -> Z -> Z -> E unit)
    (elem : nat) (node : option nat) (nodeIndex : option Z) (diff : Z) (start : option nat) : E Z :=
  let '(node, nodeIndex, diff, start) := advance next node nodeIndex diff start in
  match node with
  | None => mret diff
  | Some n =>
      match fuel with
      | O => stuck
      | S fuel' =>
          if p n then
            let diff := (diff + 1)%Z in
            note n (default 0%Z nodeIndex) diff;;
            if bool_decide (n = elem) then mret diff
            else seek fuel' next p note elem node nodeIndex diff start
          else seek fuel' next p note elem node nodeIndex diff start
      end
  end.

(** [diff -= last; diff === first || (diff % first === 0 && diff / first >= 0)] *)
Definition in_cycle (first last diff : Z) : bool :=
  let diff := (diff - last)%Z in
  Z.eqb diff first ||
  (negb (Z.eqb first 0) && Z.eqb (Z.rem diff first) 0 && Z.leb 0 (diff * first)).

(** What an nth filter has cached on [e] in this run. *)
Definition old_nth (s : engine) (e : nat) (type : jstr) : option (Z * Z) :=
  match caches s !! (e, type) with
  | Some (ENth q i n) => if Qeq_bool q (dirruns s) then Some (i, n) else None
  | _ => None
  end.

Definition filter_CHILD (fuel : nat) (type what : jstr) (nth : option (Z * Z)) (xml : bool) (elem : nat)
  : E bool :=
  let simple := negb (bool_decide (take 3 type = js "nth")) in
  let forward := negb (bool_decide (substr_last type 4 = js "last")) in
  let ofType := bool_decide (what = js "of-type") in
  let '(first, last) := default (0, 0)%Z nth in
  match parent_of d elem with
  | None => mret false
  | Some parent =>
      if bool_decide (nth = Some (1, 0)%Z) then mret true else
      let counted n := if ofType then bool_decide (lower_name d n = lower_name d elem)
                       else is_element d n in
      let lift (o : option bool) : E bool := match o with Some b => mret b | None => stuck end in
      if simple then
        b ← lift (any_sibling fuel (if forward then previousSibling d else nextSibling d) counted elem);
        if b : bool then mret false
        else if bool_decide (type = js "only")
        then b' ← lift (any_sibling fuel (nextSibling d) counted elem); mret (negb b')
        else mret true
      else
        let next := if forward then nextSibling d else previousSibling d in
        let start := if forward then firstChild d parent else lastChild d parent in
        let useCache := negb xml && negb ofType in
        s ← get_state;
        diff ←
          (if forward && useCache then
             match old_nth s parent type with
             | Some (i, n) =>
                 (* a cached index 0 is no node *)
                 seek fuel next (is_element d)
                   (fun m j n => if bool_decide (m = elem) then put_cache parent type (ENth (dirruns s) j n) else mret tt)
                   elem (if Z.eqb i 0 then None else children_of d parent !! Z.to_nat i) (Some i)
                   (if Z.eqb i 0 then 0%Z else n) start
             | None =>
                 seek fuel next (is_element d)
                   (fun m j n => if bool_decide (m = elem) then put_cache parent type (ENth (dirruns s) j n) else mret tt)
                   elem None (Some 0%Z) 0%Z start
             end
           else if useCache then
             match old_nth s elem type with
             | Some (n, _) => mret n
             | None =>
                 (* [node] is [elem] here *)
                 seek fuel next counted
                   (fun m _ n => put_cache m type (ENth (dirruns s) n 0%Z)) elem (Some elem) (Some 0%Z) 0%Z start
             end
           else seek fuel next counted (fun _ _ _ => mret tt) elem None None 0%Z start);
        mret (in_cycle first last diff)
  end.

(** * Running *)

(** [!leadingRelative && (xml || context !== outermostContext)] *)
Definition outside (leading xml : bool) (context : nat) (outermostContext : outer) : bool :=
  negb leading && (xml || negb (bool_decide (outermostContext = ONode context))).

(** [dirruns += contextBackup == null ? 1 : Math.random() || 0.1] *)
Definition next_run : E unit := fun s =>
  match outermost s with
  | ONull => set_dirruns (dirruns s + 1) s
  | _ => Some (tt, {| dirruns := dirruns s + random (drawn s); outermost := outermost s; caches := caches s;
                      cells := cells s; next_cell := next_cell s; drawn := S (drawn s) |})
  end.

(** [inDisabledFieldset]: the first combinator ever made *)
Definition legend : combinator := {| c_dir := DParent; c_first := false; c_next := Some (js "legend") |}.

(** [elem.parentNode && elem.disabled === false] and the rest of the function
    [createDisabledPseudo] answers. *)
Definition disabled_pseudo (fuel : nat) (b : bool) (e : nat) : E bool :=
  let is_disabled x v := bool_decide (d !! x ≫= disabled = Some v) in
  let own := is_disabled e b in
  if flag d has_form e then
    match parent_of d e with
    | Some p =>
        if is_disabled e false then
          if flag d has_label e then mret (if flag d has_label p then is_disabled p b else own)
          else
            r ← combine legend false 0
                  (fun x => mret (is_disabled x true && name_is d x "fieldset")) fuel false e;
            mret (Bool.eqb r b)
        else mret own
    | None => mret own
    end
  else if flag d has_label e then mret own
  else mret false.

(** *** The super matcher, without set matchers *)

(** A function the library composes: of the element, the context and [xml] *)
Definition composed : Type := nat -> nat -> bool -> E bool.

(** [while (matcher = elementMatchers[j++])] *)
Fixpoint any_matcher (elementMatchers : list composed) (e context : nat) (xml : bool) : E bool :=
  match elementMatchers with
  | [] => mret false
  | m :: ms => r ← m e context xml; if r : bool then mret true else any_matcher ms e context xml
  end.

(** The loop over the elements. *)
Fixpoint match_elems (elementMatchers : list composed) (outermost : bool) (dirrunsUnique : Q)
    (elems : list nat) (context : nat) (xml : bool) (results : list nat) : E (list nat) :=
  match elems with
  | [] => mret results
  | e :: es =>
      r ← any_matcher elementMatchers e context xml;
      (if outermost then set_dirruns dirrunsUnique else mret tt);;
      match_elems elementMatchers outermost dirrunsUnique es context xml
        (if r : bool then results ++ [e] else results)
  end.

(** [superMatcher(elems, context, xml, results, outermost)] for elements of
    [document]; it answers [results] with what it has pushed. *)
Definition superMatcher (elementMatchers : list composed) (elems : list nat) (context : option nat) (xml : bool)
    (results : list nat) (outermost : bool) : E (list nat) :=
  s ← get_state;
  let contextBackup := SzMatch.outermost s in
  next_run;;
  s' ← get_state;
  let dirrunsUnique := dirruns s' in
  (if outermost
   then set_outermost match context with
                      | Some c => if bool_decide (c = document) then OTrue else ONode c
                      | None => OTrue
                      end
   else mret tt);;
  rs ← match_elems elementMatchers outermost dirrunsUnique elems (default document context) xml results;
  (if outermost then set_dirruns dirrunsUnique;; set_outermost contextBackup else mret tt);;
  mret rs.

(** [while (i--) if (!matchers[i](elem, context, xml)) return false;] *)
Fixpoint all_matchers (matchers : list composed) (e context : nat) (xml : bool) : E bool :=
  match matchers with
  | [] => mret true
  | m :: ms => r ← all_matchers ms e context xml; if r : bool then m e context xml else mret false
  end.

(** *** The functions themselves *)

Fixpoint run (fuel : nat) (m : matcher) (e context : nat) (xml : bool) : E bool :=
  match m with
  | MFilter (TTag n) => mret (filter_TAG d n e)
  | MFilter (TClass n) => mret (filter_CLASS d n e)
  | MFilter (TId i) => mret (filter_ID d i e)
  | MFilter (TAttr n op v) => mret (filter_ATTR d n op v xml e)
  | MFilter (TChild t w _ nth) => filter_CHILD fuel t w nth xml e
  | MFilter _ => mret false
  | MPseudo name => mret (from_option (fun p => p e) false (element_pseudo d docElem name))
  | MContains text => mret (includes (from_option textContent [] (d !! e)) text)
  | MDisabled b => disabled_pseudo fuel b e
  | MNot ms =>
      (* [input], [results] and [results.pop()] *)
      results ← superMatcher (run fuel <$> ms) [e] None xml [] false;
      mret (bool_decide (results = []))
  | MIsContext => mret (bool_decide (e = context))
  | MContext leading m' =>
      s ← get_state;
      if outside leading xml context (outermost s) then mret true else run fuel m' e context xml
  | MComb c base done m' => combine c base done (fun x => run fuel m' x context xml) fuel xml e
  | MAll ms => all_matchers (run fuel <$> ms) e context xml
  end.

(** The function [compile] answers, for an outermost call. *)
Definition run_compiled (fuel : nat) (ms : list matcher) (elems : list nat) (context : nat) (xml : bool)
    (results : list nat) : E (list nat) :=
  superMatcher (run fuel <$> ms) elems (Some context) xml results true.

End run.

(** * Compilation *)

(** [done++] and errors *)
Definition C (A : Type) : Type := nat -> res (A * nat).

#[global] Instance C_ret : MRet C := fun A a n => Ok (a, n).
#[global] Instance C_bind : MBind C := fun A B f m n =>
  match m n with Ok (a, n') => f a n' | Throw e => Throw e end.

Definition c_throw {A} (e : exn) : C A := fun _ => Throw e.
Definition of_res {A} (r : res A) : C A := fun n => do a <- r; Ok (a, n).
Definition next_done : C nat := fun n => Ok (n, S n).

(** [elementMatcher(matchers)] *)
Definition elementMatcher (ms : list matcher) : matcher :=
  match ms with [m] => m | _ => MAll ms end.

Definition addCombinator (m : matcher) (c : combinator) (base : bool) : C matcher :=
  n ← next_done; mret (MComb c base n m).

Definition descendant : combinator := {| c_dir := DParent; c_first := false; c_next := None |}.

Section compile.
Context `{Unicode}.

(** [compile(selector)], called for the argument of [:not] *)
Variable compile_rec : jstr -> C (list matcher).

Definition outside_model (what : jstr) : C matcher := c_throw (OutOfModel what).

(** The text argument of a pseudo-class; its method [replace] is called. *)
Definition argument_text (a : option jstr) : C jstr :=
  match a with Some s => mret s | None => c_throw TypeError end.

(** The names of [Expr.pseudos] other than those of [element_pseudo]. *)
Definition other_pseudos : list jstr :=
  js <$> ["not"; "contains"; "enabled"; "disabled"; "has"; "lang"; "target"; "focus"; "first"; "last"; "eq";
          "even"; "odd"; "lt"; "gt"; "nth"; "hidden"; "visible"; "animated"].

Definition is_pseudo (name : jstr) : bool :=
  bool_decide (name ∈ other_pseudos) || match element_pseudo ∅ 0 name with Some _ => true | None => false end.

(** [Expr.pseudos[pseudo] || Expr.setFilters[pseudo.toLowerCase()]]: the name found *)
Definition pseudo_name (pseudo : jstr) : jstr := if is_pseudo pseudo then pseudo else toLowerCase pseudo.

Definition inherited (name : jstr) : bool :=
  bool_decide (name ∈ object_proto_methods) || bool_decide (name = js "__proto__").

(** [selector.replace(rtrim, "$1")] *)
Definition trim (selector : jstr) : jstr := replace_all rtrim selector (fun r => group_or_empty selector r 1).

(** [Expr.filter.PSEUDO(pseudo, argument)] *)
Definition filter_PSEUDO (pseudo : jstr) (argument : option jstr) : C matcher :=
  let name := pseudo_name pseudo in
  let eqs s := bool_decide (name = js s) in
  if inherited pseudo || inherited name then outside_model pseudo
  else if eqs "not" then s ← argument_text argument; ms ← compile_rec (trim s); mret (MNot ms)
  else if eqs "contains" then t ← argument_text argument; mret (MContains (unescape t))
  else if eqs "enabled" then mret (MDisabled false)
  else if eqs "disabled" then mret (MDisabled true)
  else if bool_decide (name ∈ other_pseudos) then outside_model pseudo
  else match element_pseudo ∅ 0 name with
       | Some _ => mret (MPseudo name)
       | None => c_throw (EvalError (js "Syntax error, unrecognized expression: unsupported pseudo: " ++ pseudo))
       end.

(** [Expr.filter[type].apply(null, matches)]; a class name with an escape would be
    read as a regular expression. *)
Definition filter_of (k : token_kind) : C matcher :=
  match k with
  | TPseudo pseudo argument => filter_PSEUDO pseudo argument
  | TClass name => if bool_decide (92%N ∈ name) then outside_model name else mret (MFilter k)
  | _ => mret (MFilter k)
  end.

(** The loop of [matcherFromTokens]. *)
Fixpoint add_tokens (ts : list token) (matchers : list matcher) : C (list matcher) :=
  match ts with
  | [] => mret matchers
  | t :: ts' =>
      match relative (tk_kind t) with
      | Some c => m ← addCombinator (elementMatcher matchers) c false; add_tokens ts' [m]
      | None => m ← filter_of (tk_kind t); add_tokens ts' (matchers ++ [m])
      end
  end.

(** [matchContext] and [matchAnyContext] are made in this order; only the first one
    is used for a single context. *)
Definition matcherFromTokens (ts : list token) : C matcher :=
  match ts with
  | [] => c_throw TypeError
  | t :: ts' =>
      let leadingRelative := relative (tk_kind t) in
      let implicitRelative := default descendant leadingRelative in
      matchContext ← addCombinator MIsContext implicitRelative true;
      addCombinator MIsContext implicitRelative true;;
      ms ← add_tokens (match leadingRelative with Some _ => ts' | None => ts end)
             [MContext (bool_decide (is_Some leadingRelative)) matchContext];
      mret (elementMatcher ms)
  end.

(** [while (i--)]: the groups from the last one *)
Fixpoint group_matchers (gs : list (list token)) : C (list matcher) :=
  match gs with
  | [] => mret []
  | g :: gs' => m ← matcherFromTokens g; ms ← group_matchers gs'; mret (m :: ms)
  end.

End compile.

Fixpoint compile_at `{Unicode} (fuel : nat) (selector : jstr) : C (list matcher) :=
  match fuel with
  | O => c_throw (OutOfModel (js "fuel"))
  | S fuel' =>
      match_ ← of_res (tokenize selector);
      group_matchers (compile_at fuel') (rev match_)
  end.

(** The element matchers of [compile(selector)]. *)
Definition compile `{Unicode} (selector : jstr) : C (list matcher) := compile_at (S (length selector)) selector.

End SzMatch.
