(* ===== verification/SzReference.v ===== *)
(** What selectors mean: a reference for the matchers of SzMatch, in terms of
    the document alone.

    An element matches a group of a selector when, read from right to left, every
    filter holds and every combinator relates it to some element that matches what
    is left of it.  There is no state here, no caches and no numbering of walks;
    positions among siblings are read off the list of children.  The tests of a
    single element (tag, class, id, attribute) are the filters of the model. *)

From S2P Require Import Prelude Regex SzTokens SzMatch.
Import SzTokens SzMatch.

Module SzReference.

(** * Documents *)

(** The nodes met by following [next], at most [fuel] of them. *)
Fixpoint trail (next : nat -> option nat) (fuel : nat) (e : nat) : list nat :=
  match next e, fuel with
  | Some e', S fuel' => e' :: trail next fuel' e'
  | _, _ => []
  end.

(** A tree: children and parents agree, no node is twice among the children of
    another one, and the nodes have depths. *)
Record tree (d : dom) (depth : nat -> nat) (fuel : nat) : Prop := {
  parent_child : forall e p, parent_of d e = Some p -> e ∈ children_of d p;
  child_parent : forall e p, e ∈ children_of d p -> parent_of d e = Some p;
  children_NoDup : forall p, NoDup (children_of d p);
  parent_depth : forall e p, parent_of d e = Some p -> depth p < depth e;
  depth_fuel : forall e, depth e <= fuel;
  children_fuel : forall p, 2 * length (children_of d p) < fuel;
}.

Section reference.
Context `{Unicode}.
Variable d : dom.
Variables document docElem : nat.
Variable fuel : nat.
Variable xml : bool.

(** The nodes a combinator leads to. *)
Definition related (c : combinator) (base : bool) (e : nat) : list nat :=
  let all := base.filter (fun x => counts d c base x = true) (trail (step d c) fuel e) in
  if c_first c then take 1 all else all.

(** * Positions among siblings *)

(** Is [pos] of the form [a * k + b] for a natural number [k]? *)
Definition an_plus_b (a b pos : Z) : bool :=
  existsb (fun k => Z.eqb pos (a * Z.of_nat k + b)) (seq 0 (S (Z.to_nat (Z.abs (pos - b))))).

(** The position of [e] in [l], from 1. *)
Definition position (e : nat) (l : list nat) : Z :=
  match list_find (fun x => x = e) l with Some (i, _) => Z.of_nat i + 1 | None => 0 end.

Definition child_holds (type what : jstr) (nth : option (Z * Z)) (e : nat) : bool :=
  match parent_of d e with
  | None => false
  | Some p =>
      let like x := if bool_decide (what = js "of-type") then bool_decide (lower_name d x = lower_name d e)
                    else is_element d x in
      let siblings := base.filter (fun x => like x = true) (children_of d p) in
      let from_end := bool_decide (substr_last type 4 = js "last") in
      if bool_decide (nth = Some (1, 0)%Z) then true
      else if bool_decide (take 3 type = js "nth") then
        let '(a, b) := default (0, 0)%Z nth in
        an_plus_b a b (position e (if from_end then rev siblings else siblings))
      else if bool_decide (type = js "only") then bool_decide (siblings = [e])
      else bool_decide ((if from_end then last siblings else head siblings) = Some e)
  end.

(** * Disabled elements *)

(** Is there a disabled fieldset above [e]?  The parent of a legend is passed
    over. *)
Fixpoint disabled_fieldset_above (fuel : nat) (e : nat) : bool :=
  match parent_of d e, fuel with
  | Some p, S fuel' =>
      if is_element d p then
        if name_is d p "legend" then disabled_fieldset_above fuel' (default p (parent_of d p))
        else (bool_decide (d !! p ≫= disabled = Some true) && name_is d p "fieldset")
             || disabled_fieldset_above fuel' p
      else disabled_fieldset_above fuel' p
  | _, _ => false
  end.

(** [b] for [:disabled], its negation for [:enabled] *)
Definition disabled_holds (b : bool) (e : nat) : bool :=
  let is_disabled x v := bool_decide (d !! x ≫= disabled = Some v) in
  match flag d has_form e, flag d has_label e, parent_of d e with
  | true, true, Some p =>
      is_disabled (if is_disabled e false && flag d has_label p then p else e) b
  | true, false, Some p =>
      if is_disabled e false then Bool.eqb (disabled_fieldset_above fuel e) b else is_disabled e b
  | true, _, None => is_disabled e b
  | false, true, _ => is_disabled e b
  | false, false, _ => false
  end.

(** * Selectors *)

Section tokens.

(** Does some group of the selector match? *)
Variable some_group : jstr -> nat -> bool.

Definition pseudo_holds (pseudo : jstr) (argument : option jstr) (e : nat) : bool :=
  let name := pseudo_name pseudo in
  let eqs s := bool_decide (name = js s) in
  let text := default [] argument in
  if eqs "not" then negb (some_group (trim text) e)
  else if eqs "contains" then includes (from_option textContent [] (d !! e)) (unescape text)
  else if eqs "enabled" then disabled_holds false e
  else if eqs "disabled" then disabled_holds true e
  else from_option (fun p => p e) false (element_pseudo d docElem name).

Definition filter_holds (k : token_kind) (e : nat) : bool :=
  match k with
  | TComb _ => false
  | TTag n => filter_TAG d n e
  | TClass n => filter_CLASS d n e
  | TId i => filter_ID d i e
  | TAttr n op v => filter_ATTR d n op v xml e
  | TChild type what _ nth => child_holds type what nth e
  | TPseudo pseudo argument => pseudo_holds pseudo argument e
  end.

(** Do the tokens, given from the last one, hold of [e]?  What is left of them
    all has to satisfy [scope]. *)
Fixpoint holds (scope : nat -> bool) (ts : list token) (e : nat) : bool :=
  match ts with
  | [] => scope e
  | t :: ts' =>
      match relative (tk_kind t) with
      | Some c => existsb (holds scope ts') (related c false e)
      | None => filter_holds (tk_kind t) e && holds scope ts' e
      end
  end.

(** A selector that starts with a combinator, and one for a context that is not
    the one of the whole selection, are about elements related to the context. *)
Definition in_scope (leading : option combinator) (context : nat) (outermostContext : outer) (e : nat) : bool :=
  outside (bool_decide (is_Some leading)) xml context outermostContext
  || bool_decide (context ∈ related (default descendant leading) true e).

Definition group_holds (ts : list token) (context : nat) (outermostContext : outer) (e : nat) : bool :=
  match ts with
  | [] => false
  | t :: ts' =>
      let leading := relative (tk_kind t) in
      holds (in_scope leading context outermostContext)
        (rev (match leading with Some _ => ts' | None => ts end)) e
  end.

End tokens.

(** Does [e] match the selector?  The fuel is for selectors inside [:not]. *)
Fixpoint matches (fuel : nat) (selector : jstr) (context : nat) (outermostContext : outer) (e : nat) : bool :=
  match fuel, tokenize selector with
  | S fuel', Ok gs =>
      existsb (fun g => group_holds (fun s => matches fuel' s document outermostContext) g context outermostContext e) gs
  | _, _ => false
  end.

(** The elements of [elems] that match, for a selection under [context]. *)
Definition select (selector : jstr) (elems : list nat) (context : nat) : list nat :=
  base.filter
    (fun e => matches (S (length selector)) selector context
                (if bool_decide (context = document) then OTrue else ONode context) e = true)
    elems.

End reference.

End SzReference.
