(* ===== verification/SzWalks.v ===== *)
(** The walks over a document that the matchers of Sizzle make: siblings and
    parents in a tree, the loops over siblings of the filter CHILD, and what a
    combinator answers when nothing is cached. *)

From Stdlib Require Import QArith_base.
From S2P Require Import Prelude Regex SzTokens SzMatch SzReference.
Import SzTokens SzMatch SzReference.

Module SzWalks.

(** * Running *)

Lemma E_step {A B} (m : E A) (f : A -> E B) a s s' : m s = Some (a, s') -> (m ≫= f) s = f a s'.
Proof. intros H. unfold mbind, E_bind. by rewrite H. Qed.

Lemma rev_is_reverse {A} (l : list A) : rev l = reverse l.
Proof. apply rev_alt. Qed.

(** * Positions in a tree *)

Section tree.
Context {d : dom} {depth : nat -> nat} {fuel : nat} (T : tree d depth fuel).

Lemma place_child e p : parent_of d e = Some p ->
  exists i, place d e = Some (children_of d p, i) /\ children_of d p !! i = Some e.
Proof using T.
  intros Hp. pose proof (parent_child _ _ _ T _ _ Hp) as Hin.
  unfold place. rewrite Hp. simpl.
  destruct (list_find_elem_of (fun x => x = e) _ e Hin eq_refl) as [[i x] Hf].
  rewrite Hf. simpl. apply list_find_Some in Hf as (Hi & -> & _). eauto.
Qed.

Lemma place_at e p i : parent_of d e = Some p -> children_of d p !! i = Some e ->
  place d e = Some (children_of d p, i).
Proof using T.
  intros Hp Hi. destruct (place_child e p Hp) as (j & -> & Hj). do 2 f_equal.
  by eapply (NoDup_lookup _ j i); [apply (children_NoDup _ _ _ T)|..].
Qed.

Lemma next_at e p i : parent_of d e = Some p -> children_of d p !! i = Some e ->
  nextSibling d e = children_of d p !! S i.
Proof using T. intros Hp Hi. unfold nextSibling. by rewrite (place_at e p i Hp Hi). Qed.

Lemma previous_at e p i : parent_of d e = Some p -> children_of d p !! i = Some e ->
  previousSibling d e = match i with O => None | S j => children_of d p !! j end.
Proof using T. intros Hp Hi. unfold previousSibling. by rewrite (place_at e p i Hp Hi). Qed.

Lemma previous_at_rev e p i : parent_of d e = Some p -> rev (children_of d p) !! i = Some e ->
  previousSibling d e = rev (children_of d p) !! S i.
Proof using T.
  intros Hp Hi. set (cs := children_of d p) in *.
  assert (Hl : i < length cs) by (apply lookup_lt_Some in Hi; by rewrite length_rev in Hi).
  rewrite rev_is_reverse in Hi |- *.
  rewrite reverse_lookup in Hi by done.
  rewrite (previous_at e p _ Hp Hi).
  destruct (length cs - S i) as [|j] eqn:E.
  - symmetry. apply lookup_ge_None. rewrite length_reverse. lia.
  - rewrite reverse_lookup by lia. f_equal. lia.
Qed.

Lemma sibling_parent next e e' : (next = nextSibling \/ next = previousSibling) ->
  next d e = Some e' -> parent_of d e' = parent_of d e.
Proof using T.
  intros Hn H. assert (exists cs i j, place d e = Some (cs, i) /\ cs !! j = Some e') as (cs & i & j & Hp & Hj).
  { destruct Hn as [->| ->]; unfold nextSibling, previousSibling in H;
      destruct (place d e) as [[cs i]|]; try done; simpl in H; [eauto|].
    destruct i; [done|eauto 6]. }
  unfold place in Hp. destruct (parent_of d e) as [p|] eqn:Ep; [|done]. simpl in Hp.
  destruct (list_find _ _) as [[i' x]|]; [|done]. simplify_eq/=.
  apply (child_parent _ _ _ T). by apply list_elem_of_lookup_2 in Hj.
Qed.

(** How far a walk can still go. *)
Definition rank (dir : dir) (e : nat) : nat :=
  match dir with
  | DParent => depth e
  | DPrevious => match place d e with Some (_, i) => i | None => 0 end
  end.

Lemma rank_step c e e' : step d c e = Some e' -> rank (c_dir c) e' < rank (c_dir c) e.
Proof using T.
  unfold step, rank. destruct (c_dir c); [apply (parent_depth _ _ _ T)|].
  intros H. pose proof (sibling_parent previousSibling e e' (or_intror eq_refl) H) as Hp.
  unfold previousSibling in H. destruct (place d e) as [[cs i]|] eqn:E; [|done]. simpl in H.
  destruct i as [|j]; [done|].
  unfold place in E. destruct (parent_of d e) as [p|] eqn:Ep; [|done]. simpl in E.
  destruct (list_find _ _) as [[i' x]|]; [|done]. simplify_eq/=.
  rewrite (place_at e' p j Hp H). simpl. lia.
Qed.

Lemma rank_fuel dir e : rank dir e <= fuel.
Proof using T.
  destruct dir; simpl; [apply (depth_fuel _ _ _ T)|].
  destruct (place d e) as [[cs i]|] eqn:E; [|lia].
  unfold place in E. destruct (parent_of d e) as [p|] eqn:Ep; [|done]. simpl in E.
  destruct (list_find _ _) as [[i' x]|] eqn:Ef; [|done]. simplify_eq/=.
  apply list_find_Some in Ef as (Hi%lookup_lt_Some & _). pose proof (children_fuel _ _ _ T p). lia.
Qed.

End tree.

(** * The loops over siblings *)

Section siblings.
Variable next : nat -> option nat.
Variable l : list nat.
Hypothesis Hnext : forall i e, l !! i = Some e -> next e = l !! S i.
Hypothesis Hdup : NoDup l.

Lemma any_sibling_correct p fuel i e : l !! i = Some e -> length l <= fuel + S i ->
  any_sibling fuel next p e = Some (existsb p (drop (S i) l)).
Proof using Hnext.
  revert i e. induction fuel as [|fuel IH]; intros i e Hi Hf; simpl; rewrite (Hnext i e Hi).
  - rewrite lookup_ge_None_2, drop_ge by lia. done.
  - destruct (l !! S i) as [x|] eqn:Ex.
    + rewrite (drop_S l x (S i) Ex). simpl. destruct (p x); [done|]. apply IH; [done|lia].
    + apply lookup_ge_None in Ex. by rewrite drop_ge by lia.
Qed.

Section seek.
Variable p : nat -> bool.
Variable note : nat -> Z -> Z -> E unit.
Variables (elem k : nat).
Hypothesis Hk : l !! k = Some elem.
Hypothesis Hp : p elem = true.
Hypothesis Hnote : forall m i n s, m <> elem -> note m i n s = Some (tt, s).

Definition count (i : nat) : Z := Z.of_nat (length (base.filter (fun x => p x = true) (take i l))).

Lemma count_S i x : l !! i = Some x -> count (S i) = (count i + if p x then 1 else 0)%Z.
Proof using.
  intros Hi. unfold count. rewrite (take_S_r _ _ _ Hi), filter_app, length_app.
  destruct (p x) eqn:E; simpl.
  - rewrite filter_cons_True by done. simpl. lia.
  - rewrite filter_cons_False by congruence. simpl. lia.
Qed.

(** What the search answers: the number of [elem], which is noted. *)
Definition sought : E Z := note elem (Z.of_nat k) (count (S k));; mret (count (S k)).

(** The search stands before the node with number [i]. *)
Lemma seek_from fuel i node j diff start s : i <= k -> k - i < fuel ->
  advance next node j diff start = (l !! i, Some (Z.of_nat i), count i, None) ->
  seek fuel next p note elem node j diff start s = sought s.
Proof using Hnext Hdup Hk Hp Hnote.
  revert i node j diff start. induction fuel as [|fuel IH]; intros i node j diff start Hi Hf Ha; [lia|].
  simpl. rewrite Ha. destruct (l !! i) as [x|] eqn:Ex.
  2: { apply lookup_ge_None in Ex. apply lookup_lt_Some in Hk. lia. }
  pose proof (count_S i x Ex) as Hc. destruct (decide (x = elem)) as [->|Hne].
  - assert (i = k) as -> by (eapply NoDup_lookup; eauto).
    rewrite Hp. rewrite Hp in Hc. simpl. rewrite bool_decide_true by done. unfold sought. by rewrite Hc.
  - assert (i <> k) by congruence.
    assert (Hlt : S i < length l) by (apply lookup_lt_Some in Hk; lia).
    destruct (lookup_lt_is_Some_2 _ _ Hlt) as [y Ey].
    assert (Hadv : forall n, n = count (S i) ->
      advance next (Some x) (Some (Z.of_nat i)) n None = (l !! S i, Some (Z.of_nat (S i)), count (S i), None)).
    { intros n ->. unfold advance. simpl. rewrite (proj2 (Z.eqb_neq _ _)) by lia.
      rewrite (Hnext i x Ex), Ey. by replace (Z.of_nat i + 1)%Z with (Z.of_nat (S i)) by lia. }
    revert Hc. destruct (p x); intros Hc.
    + rewrite (E_step _ _ tt s s) by by apply Hnote. rewrite bool_decide_false by done.
      apply (IH (S i)); [lia..|]. apply Hadv. lia.
    + apply (IH (S i)); [lia..|]. apply Hadv. lia.
Qed.

(** A search that starts anew. *)
Lemma seek_start fuel node j diff s : length l < fuel ->
  (node ≫= next = None \/ j = None) ->
  seek fuel next p note elem node j diff (head l) s = sought s.
Proof using Hnext Hdup Hk Hp Hnote.
  intros Hf Hn. pose proof (lookup_lt_Some _ _ _ Hk). apply (seek_from fuel 0); [lia..|].
  unfold advance. rewrite <- head_lookup. change (count 0) with 0%Z.
  destruct Hn as [Hn| ->]; [|done]. rewrite Hn. destruct j as [z|]; [|done]. simpl. by destruct (Z.eqb (z + 1) 0).
Qed.

(** A search from the node with number [i], which is cached with its count. *)
Lemma seek_cached fuel i s : i < length l -> 2 * length l < fuel ->
  seek fuel next p note elem (if Z.eqb (Z.of_nat i) 0 then None else l !! i) (Some (Z.of_nat i))
    (if Z.eqb (Z.of_nat i) 0 then 0%Z else count (S i)) (head l) s = sought s.
Proof using Hnext Hdup Hk Hp Hnote.
  intros Hi Hf. case (Z.eqb_spec (Z.of_nat i) 0) as [->|Hi0].
  { apply seek_start; [lia|by left]. }
  assert (Hgo : forall fuel m x, l !! m = Some x -> 0 < m -> length l - m + length l < fuel ->
    seek fuel next p note elem (Some x) (Some (Z.of_nat m)) (count (S m)) (head l) s = sought s).
  { clear fuel Hf Hi. intros fuel. induction fuel as [|fuel IH]; intros m x Hm Hpos Hf; [lia|].
    destruct (l !! S m) as [y|] eqn:Ey.
    2: { apply seek_start; [apply lookup_lt_Some in Hm; lia|]. left. simpl. by rewrite (Hnext m x Hm). }
    simpl. unfold advance at 1. simpl. rewrite (proj2 (Z.eqb_neq _ _)) by lia.
    rewrite (Hnext m x Hm), Ey.
    pose proof (count_S (S m) y Ey) as Hc.
    assert (Hz : (Z.of_nat m + 1 = Z.of_nat (S m))%Z) by lia. rewrite Hz.
    pose proof (lookup_lt_Some _ _ _ Ey).
    destruct (decide (y = elem)) as [->|Hne].
    - assert (Hmk : S m = k) by (eapply NoDup_lookup; eauto).
      rewrite Hp. rewrite Hp in Hc. rewrite Hmk in Hc |- *. simpl. rewrite bool_decide_true by done. unfold sought. by rewrite Hc.
    - revert Hc. destruct (p y); intros Hc.
      + rewrite (E_step _ _ tt s s) by by apply Hnote. rewrite bool_decide_false by done.
        rewrite <- Hc. apply IH; [done|lia..].
      + rewrite Z.add_0_r in Hc. rewrite <- Hc. apply IH; [done|lia..]. }
  destruct (lookup_lt_is_Some_2 _ _ Hi) as [x Hx]. rewrite Hx. apply Hgo; [done|lia..].
Qed.

End seek.
End siblings.


(** * Positions *)

Lemma existsb_filter {A} (p : A -> bool) l :
  existsb p l = negb (bool_decide (base.filter (fun x => p x = true) l = [])).
Proof.
  induction l as [|x l IH]; [done|]. simpl. destruct (p x) eqn:E.
  - by rewrite filter_cons_True.
  - rewrite filter_cons_False by congruence. done.
Qed.


Lemma position_app e a b : e ∉ a -> position e (a ++ e :: b) = (Z.of_nat (length a) + 1)%Z.
Proof.
  intros He. unfold position. rewrite (proj2 (list_find_Some _ _ (length a) e)); [done|].
  split; [by apply list_lookup_middle|]. split; [done|]. intros j y Hj Hlt ->.
  apply He. rewrite lookup_app_l in Hj by done. by apply list_elem_of_lookup_2 in Hj.
Qed.

Lemma count_position p l k e : NoDup l -> l !! k = Some e -> p e = true ->
  count l p (S k) = position e (base.filter (fun x => p x = true) l).
Proof.
  intros Hl Hk Hp. rewrite <- (take_drop_middle l k e Hk) in Hl |- * at 2.
  apply NoDup_app in Hl as (_ & Hd & _).
  rewrite filter_app, filter_cons_True by done.
  rewrite position_app by (rewrite list_elem_of_filter; intros [_ ?]; eapply Hd; [done|left]).
  rewrite (count_S l p k e Hk), Hp. done.
Qed.

Lemma in_cycle_correct a b pos : in_cycle a b pos = an_plus_b a b pos.
Proof.
  apply eq_true_iff_eq. unfold in_cycle, an_plus_b.
  rewrite orb_true_iff, !andb_true_iff, negb_true_iff, !Z.eqb_eq, Z.eqb_neq, Z.leb_le, existsb_exists.
  split.
  - intros [Ha|[[Ha Hr] Hs]].
    + destruct (decide (pos - b = 0)%Z).
      * exists 0. rewrite in_seq, Z.eqb_eq. lia.
      * exists 1. rewrite in_seq, Z.eqb_eq. lia.
    + apply Z.rem_divide in Hr as [k Hk]; [|done].
      assert (0 <= k)%Z by nia. exists (Z.to_nat k). rewrite in_seq, Z.eqb_eq, Z2Nat.id by done.
      split; [|lia]. split; [lia|]. assert (k <= Z.abs (pos - b))%Z by nia. lia.
  - intros (k & _ & Hk%Z.eqb_eq). destruct (decide (a = 0%Z)) as [->|Ha]; [left; lia|]. right.
    replace (pos - b)%Z with (a * Z.of_nat k)%Z by lia. split; [split; [done|]|nia].
    rewrite Z.mul_comm. by apply Z.rem_mul.
Qed.


(** * What a walk answers *)

Section search.
Context `{Unicode}.
Variable d : dom.
Variable c : combinator.
Variable base : bool.
Variable p : nat -> bool.

(** [skip && skip === elem.nodeName.toLowerCase()] *)
Definition skipped (e : nat) : bool :=
  match c_next c with Some k => bool_decide (k = lower_name d e) | None => false end.

(** A walk that caches nothing. *)
Fixpoint search (fuel : nat) (e : nat) : bool :=
  match step d c e, fuel with
  | Some e', S fuel' =>
      if counts d c base e' then
        if skipped e' then search fuel' (default e' (step d c e')) else p e' || search fuel' e'
      else search fuel' e'
  | _, _ => false
  end.

Lemma search_fuel depth F (T : tree d depth F) f g e :
  rank (d := d) (depth := depth) (c_dir c) e <= f -> rank (d := d) (depth := depth) (c_dir c) e <= g ->
  search f e = search g e.
Proof using.
  revert g e. induction f as [|f IH]; intros g e Hf Hg.
  - simpl. destruct (step d c e) as [e'|] eqn:E; [|destruct g; simpl; by rewrite E].
    apply (rank_step T) in E. lia.
  - simpl. destruct (step d c e) as [e'|] eqn:E; [|destruct g; simpl; by rewrite E].
    pose proof (rank_step T _ _ _ E) as Hr. destruct g as [|g]; [lia|]. simpl. rewrite E.
    assert (Hn : search f e' = search g e') by (apply IH; lia). rewrite Hn.
    destruct (step d c e') as [e''|] eqn:E'; simpl; [|by rewrite Hn].
    pose proof (rank_step T _ _ _ E'). by rewrite (IH g e'') by lia.
Qed.

Lemma search_related fuel e : c_next c = None -> c_first c = false ->
  search fuel e = existsb p (related d fuel c base e).
Proof using.
  intros Hn Hf. unfold related. rewrite Hf. revert e. induction fuel as [|fuel IH]; intros e; simpl.
  - by destruct (step d c e).
  - destruct (step d c e) as [e'|]; [|done]. unfold skipped. rewrite Hn. destruct (counts d c base e') eqn:E.
    + rewrite filter_cons_True by done. simpl. by rewrite IH.
    + rewrite filter_cons_False by congruence. apply IH.
Qed.

End search.

Lemma search_ext `{Unicode} d c base p q fuel e : (forall x, p x = q x) -> search d c base p fuel e = search d c base q fuel e.
Proof.
  intros Hpq. revert e. induction fuel as [|fuel IH]; intros e; simpl; [done|].
  destruct (step d c e) as [e'|]; [|done]. by rewrite !IH, Hpq.
Qed.

Lemma fieldset_search `{Unicode} d fuel e :
  disabled_fieldset_above d fuel e =
  search d legend false (fun x => bool_decide (d !! x ≫= disabled = Some true) && name_is d x "fieldset") fuel e.
Proof.
  revert e. induction fuel as [|fuel IH]; intros e; simpl; [done|]. change (step d legend) with (parent_of d).
  destruct (parent_of d e) as [x|]; [|done]. unfold counts. simpl. rewrite orb_false_r.
  destruct (is_element d x); [|apply IH]. unfold skipped, name_is. simpl.
  destruct (decide (lower_name d x = js "legend")) as [E|E].
  - rewrite (bool_decide_true (lower_name d x = _)), (bool_decide_true (_ = lower_name d x)) by done. apply IH.
  - rewrite (bool_decide_false (lower_name d x = js "legend")), (bool_decide_false (_ = lower_name d x)) by congruence.
    by rewrite IH.
Qed.


(** * Siblings *)

Section children.
Context {d : dom} {depth : nat -> nat} {fuel : nat} (T : tree d depth fuel).
Variables (p e k : nat).
Let cs : list nat := children_of d p.
Hypothesis Hk : cs !! k = Some e.

Lemma next_in i x : cs !! i = Some x -> nextSibling d x = cs !! S i.
Proof using T. intros Hi. apply (next_at T x p i); [|done]. by eapply (child_parent _ _ _ T), list_elem_of_lookup_2. Qed.

Lemma previous_in i x : rev cs !! i = Some x -> previousSibling d x = rev cs !! S i.
Proof using T.
  intros Hi. apply (previous_at_rev T x p i); [|done]. apply (child_parent _ _ _ T).
  apply list_elem_of_In, in_rev, list_elem_of_In. by eapply list_elem_of_lookup_2.
Qed.

Lemma children_split : cs = take k cs ++ e :: drop (S k) cs.
Proof using Hk. symmetry. by apply take_drop_middle. Qed.

Lemma rev_split : rev cs = rev (drop (S k) cs) ++ e :: rev (take k cs).
Proof using Hk. rewrite children_split at 1. rewrite rev_app_distr. simpl. by rewrite <- app_assoc. Qed.

Lemma children_apart : e ∉ take k cs /\ e ∉ drop (S k) cs.
Proof using T Hk.
  pose proof (children_NoDup _ _ _ T p) as Hd. fold cs in Hd. rewrite children_split in Hd.
  apply NoDup_app in Hd as (_ & Hx & Hd). apply NoDup_cons in Hd as [? _].
  split; [|done]. intros Hin. apply (Hx e Hin). left.
Qed.

Lemma any_next q : any_sibling fuel (nextSibling d) q e = Some (existsb q (drop (S k) cs)).
Proof using T Hk.
  apply (any_sibling_correct _ cs next_in); [done|]. pose proof (children_fuel _ _ _ T p). unfold cs. lia.
Qed.

Lemma any_previous q : any_sibling fuel (previousSibling d) q e = Some (existsb q (take k cs)).
Proof using T Hk.
  rewrite (any_sibling_correct _ (rev cs) previous_in q fuel (length (drop (S k) cs))).
  - rewrite rev_split, drop_app_ge by (rewrite length_rev; lia).
    rewrite length_rev. replace (S _ - _) with 1 by lia. simpl. by rewrite drop_0, existsb_rev.
  - rewrite rev_split. apply list_lookup_middle. by rewrite length_rev.
  - rewrite length_rev. pose proof (children_fuel _ _ _ T p). unfold cs. lia.
Qed.

Variable like : nat -> bool.
Hypothesis Hlike : like e = true.
Let keep : list nat -> list nat := base.filter (fun x => like x = true).

Lemma kept_split : keep cs = keep (take k cs) ++ e :: keep (drop (S k) cs).
Proof using Hk Hlike. unfold keep. rewrite children_split at 1. by rewrite filter_app, filter_cons_True by done. Qed.

Lemma first_kept : bool_decide (head (keep cs) = Some e) = negb (existsb like (take k cs)).
Proof using T Hk Hlike.
  rewrite kept_split, existsb_filter, negb_involutive. fold keep. destruct (keep (take k cs)) as [|x l] eqn:E; [by rewrite !bool_decide_true|].
  rewrite !bool_decide_false; [done..|]. simpl. intros [= ->]. destruct children_apart as [Hn _]. apply Hn.
  assert (Hin : e ∈ keep (take k cs)) by (rewrite E; left). by apply list_elem_of_filter in Hin as [_ ?].
Qed.

Lemma last_kept : bool_decide (last (keep cs) = Some e) = negb (existsb like (drop (S k) cs)).
Proof using T Hk Hlike.
  rewrite kept_split, existsb_filter, negb_involutive. fold keep. rewrite last_app_cons.
  destruct (keep (drop (S k) cs)) as [|x l] eqn:E; [by rewrite !bool_decide_true|].
  rewrite !bool_decide_false; [done..|]. intros Hl. destruct children_apart as [_ Hn]. apply Hn.
  assert (Hin : e ∈ keep (drop (S k) cs)).
  { rewrite E. apply last_Some_elem_of. by rewrite last_cons_cons in Hl. }
  by apply list_elem_of_filter in Hin as [_ ?].
Qed.

Lemma only_kept : bool_decide (keep cs = [e]) = negb (existsb like (take k cs)) && negb (existsb like (drop (S k) cs)).
Proof using T Hk Hlike.
  rewrite kept_split, !existsb_filter, !negb_involutive. fold keep.
  destruct (keep (take k cs)) as [|x l] eqn:E; simpl.
  - apply bool_decide_ext. split; [by intros [= ->]|by intros ->].
  - rewrite !bool_decide_false; [done..|]. intros [= _ Hx]. by destruct l.
Qed.

Lemma number_kept : count cs like (S k) = position e (keep cs).
Proof using T Hk Hlike. apply count_position; [apply (children_NoDup _ _ _ T)|done..]. Qed.

Lemma rev_lookup : rev cs !! length (drop (S k) cs) = Some e.
Proof using Hk. rewrite rev_split. apply list_lookup_middle. by rewrite length_rev. Qed.

Lemma number_kept_rev : count (rev cs) like (S (length (drop (S k) cs))) = position e (rev (keep cs)).
Proof using T Hk Hlike.
  rewrite count_position with (e := e); [|rewrite rev_is_reverse, reverse_Permutation; apply (children_NoDup _ _ _ T)|apply rev_lookup|done].
  f_equal. unfold keep. rewrite !rev_is_reverse. apply filter_reverse.
Qed.

End children.

End SzWalks.
