(* ===== verification/SzEngine.v ===== *)
(** The caches of Sizzle are transparent: running a matcher, with the caches its
    combinators and its nth filters keep on the elements, answers what the matcher
    means without them.

    The proof keeps an invariant on the caches.  An entry made in the current run
    (its stamp is not below the one of the run) is right: a cell says what the
    walk with its [doneName] answers from any element that holds it, that element
    included, and an entry of [:nth-child] is the number of an element.  The cells
    of the walks under way ([B] below) are exempt; no matcher that runs inside such
    a walk looks at them, since it carries other names.

    [:nth-last-child] is left out: what it caches is wrong (see [SzSelect]). *)

From Stdlib Require Import QArith_base QArith Lqa.
From S2P Require Import Prelude Regex SzTokens SzMatch SzReference SzWalks.
Import SzTokens SzMatch SzReference SzWalks.

Module SzEngine.

(** * Matchers without state *)

(** Does an nth filter go through the caches on the elements themselves? *)
Definition nth_last_cached (type what : jstr) (nth : option (Z * Z)) : bool :=
  bool_decide (take 3 type = js "nth") && bool_decide (substr_last type 4 = js "last") &&
  negb (bool_decide (what = js "of-type")) && negb (bool_decide (nth = Some (1, 0)%Z)).

Section induction.
Variable P : matcher -> Prop.
Hypothesis HFilter : forall k, P (MFilter k).
Hypothesis HPseudo : forall n, P (MPseudo n).
Hypothesis HContains : forall t, P (MContains t).
Hypothesis HDisabled : forall b, P (MDisabled b).
Hypothesis HNot : forall ms, Forall P ms -> P (MNot ms).
Hypothesis HIsContext : P MIsContext.
Hypothesis HContext : forall l m, P m -> P (MContext l m).
Hypothesis HComb : forall c base n m, P m -> P (MComb c base n m).
Hypothesis HAll : forall ms, Forall P ms -> P (MAll ms).

Fixpoint matcher_nested_ind (m : matcher) : P m :=
  let all := fix all ms : Forall P ms :=
    match ms with [] => Forall_nil_2 P | m :: ms' => Forall_cons_2 P m ms' (matcher_nested_ind m) (all ms') end in
  match m with
  | MFilter k => HFilter k
  | MPseudo n => HPseudo n
  | MContains t => HContains t
  | MDisabled b => HDisabled b
  | MNot ms => HNot ms (all ms)
  | MIsContext => HIsContext
  | MContext l m' => HContext l m' (matcher_nested_ind m')
  | MComb c base n m' => HComb c base n m' (matcher_nested_ind m')
  | MAll ms => HAll ms (all ms)
  end.
End induction.

(** The names of the walks inside a matcher. *)
Fixpoint names (m : matcher) : list nat :=
  match m with
  | MDisabled _ => [0]
  | MNot ms | MAll ms => concat (names <$> ms)
  | MContext _ m' => names m'
  | MComb _ _ n m' => n :: names m'
  | _ => []
  end.

Section engine.
Context `{Unicode}.
Context {d : dom} {depth : nat -> nat} {fuel : nat} (T : tree d depth fuel).
Variables document docElem : nat.
Variable random : nat -> Q.

(** [outermostContext] and [xml] during the run, the stamp the run starts with, and
    what the walk with a name answers from an element, that element included.
    [steady] means that the run has no [:not], so that its stamp stays the same. *)
Variable outer0 : outer.
Variable xml : bool.
Variable D : Q.
Variable spec : nat -> nat -> bool.
Variable steady : bool.

(** What a matcher means, without caches. *)
Fixpoint plain (m : matcher) (e context : nat) : bool :=
  match m with
  | MFilter (TTag n) => filter_TAG d n e
  | MFilter (TClass n) => filter_CLASS d n e
  | MFilter (TId i) => filter_ID d i e
  | MFilter (TAttr n op v) => filter_ATTR d n op v xml e
  | MFilter (TChild t w _ nth) => child_holds d t w nth e
  | MFilter _ => false
  | MPseudo name => from_option (fun p => p e) false (element_pseudo d docElem name)
  | MContains text => includes (from_option textContent [] (d !! e)) text
  | MDisabled b => disabled_holds d fuel b e
  | MNot ms => negb (existsb (fun m' => plain m' e document) ms)
  | MIsContext => bool_decide (e = context)
  | MContext leading m' => outside leading xml context outer0 || plain m' e context
  | MComb c base _ m' => existsb (fun x => plain m' x context) (related d fuel c base e)
  | MAll ms => forallb (fun m' => plain m' e context) ms
  end.

Definition fieldset (e : nat) : bool :=
  bool_decide (d !! e ≫= disabled = Some true) && name_is d e "fieldset".

(** [spec] is right for the walk with this name. *)
Definition means (n : nat) (c : combinator) (base : bool) (p : nat -> bool) : Prop :=
  forall e, spec n e = p e || search d c base p fuel e.

(** The matcher can run: [spec] is right for its walks, whose names are not used
    inside them, and no filter uses the caches of [:nth-last-child]. *)
Fixpoint ready (context : nat) (m : matcher) : Prop :=
  match m with
  | MFilter (TChild t w _ nth) => xml || negb (nth_last_cached t w nth) = true
  | MDisabled _ => means 0 legend false fieldset
  | MNot ms => steady = false /\ foldr (fun m' P => ready document m' /\ P) True ms
  | MContext _ m' => ready context m'
  | MComb c base n m' =>
      (c_next c = None /\ (base = true -> m' = MIsContext) /\ n ∉ names m') /\
      means n c base (fun x => plain m' x context) /\ ready context m'
  | MAll ms => foldr (fun m' P => ready context m' /\ P) True ms
  | _ => True
  end.

Lemma ready_all context ms : foldr (fun m' P => ready context m' /\ P) True ms <-> Forall (ready context) ms.
Proof using. induction ms as [|m ms IH]; simpl; [by split; [constructor|]|]. by rewrite Forall_cons, IH. Qed.

(** * The invariant *)

(** A cached index is the number of an element among its siblings. *)
Definition nth_ok (p : nat) (i n : Z) : Prop :=
  exists j, i = Z.of_nat j /\ j < length (children_of d p) /\ n = count (children_of d p) (is_element d) (S j).

(** [B]: the cells of the walks under way *)
Record inv (B : list nat) (s : engine) : Prop := {
  inv_run : (D <= dirruns s)%Q;
  inv_outer : outermost s = outer0;
  inv_ref : forall e key c, caches s !! (e, key) = Some (ERef c) ->
    c < next_cell s /\ exists x, cells s !! c = Some x /\
      (steady = true -> ce_stamp x <= dirruns s)%Q /\
      (c ∉ B -> (D <= ce_stamp x)%Q -> ce_value x = Some (spec (ce_done x) e));
  inv_nth : forall p key q i n, caches s !! (p, key) = Some (ENth q i n) ->
    (steady = true -> q <= dirruns s)%Q /\ ((D <= q)%Q -> nth_ok p i n);
}.

(** The walks under way have none of these names. *)
Definition busy (N B : list nat) (s : engine) : Prop :=
  forall c, c ∈ B -> c < next_cell s /\ forall x, cells s !! c = Some x -> ce_done x ∉ N.

(** The cells below [k], and who refers to them, are untouched. *)
Record frame (k : nat) (s s' : engine) : Prop := {
  frame_next : next_cell s <= next_cell s';
  frame_cells : forall c, c < k -> cells s' !! c = cells s !! c;
  frame_refs : forall e key c, c < k -> caches s' !! (e, key) = Some (ERef c) -> caches s !! (e, key) = Some (ERef c);
  frame_run : steady = true -> dirruns s' = dirruns s;
}.

(** A computation, of a matcher whose walks have the names [N], answers [a]. *)
Definition yields {A} (N : list nat) (m : E A) (a : A) : Prop :=
  forall B s, inv B s -> busy N B s ->
    exists s', m s = Some (a, s') /\ inv B s' /\ frame (next_cell s) s s'.

Lemma frame_refl k s : frame k s s.
Proof using. by split. Qed.

Lemma frame_trans k k' s s' s'' : k <= k' -> frame k s s' -> frame k' s' s'' -> frame k s s''.
Proof using.
  intros Hk [A1 A2 A3 A4] [B1 B2 B3 B4]. split.
  - lia.
  - intros c Hc. by rewrite B2, A2 by lia.
  - intros e key c Hc Hr. apply A3, B3; [done|lia|done].
  - intros Hs. by rewrite B4, A4.
Qed.

Lemma busy_frame N B s s' : busy N B s -> frame (next_cell s) s s' -> busy N B s'.
Proof using.
  intros Hb [F1 F2 _ _] c Hc. destruct (Hb c Hc) as [Hlt Hd]. split; [lia|].
  intros x. rewrite F2 by done. apply Hd.
Qed.

Lemma busy_sub N N' B s : N ⊆ N' -> busy N' B s -> busy N B s.
Proof using. intros Hs Hb c Hc. destruct (Hb c Hc) as [Hlt Hd]. split; [done|]. intros x Hx Hin. by eapply Hd, Hs. Qed.

Lemma yields_sub {A} N N' (m : E A) a : N ⊆ N' -> yields N m a -> yields N' m a.
Proof using. intros Hs Hm B s Hi Hb. apply Hm; [done|]. by eapply busy_sub. Qed.

Lemma yields_ret {A} N (a : A) : yields N (mret a) a.
Proof using. intros B s Hi Hb. exists s. split; [done|]. split; [done|apply frame_refl]. Qed.

Lemma yields_bind {A B'} N (m : E A) (f : A -> E B') a b : yields N m a -> yields N (f a) b -> yields N (m ≫= f) b.
Proof using.
  intros Hm Hf B s Hi Hb. destruct (Hm B s Hi Hb) as (s1 & E1 & Hi1 & F1).
  destruct (Hf B s1 Hi1) as (s2 & E2 & Hi2 & F2); [by eapply busy_frame|].
  exists s2. rewrite (E_step _ _ _ _ _ E1). split; [done|]. split; [done|].
  eapply frame_trans; [|done..]. apply F1.
Qed.

Lemma yields_get {A} N (f : engine -> E A) a :
  (forall B s, inv B s -> busy N B s -> exists s', f s s = Some (a, s') /\ inv B s' /\ frame (next_cell s) s s') ->
  yields N (get_state ≫= f) a.
Proof using. intros Hf B s Hi Hb. by apply Hf. Qed.

Lemma yields_any_state {A} N (f : engine -> E A) a :
  (forall s, yields N (f s) a) -> yields N (get_state ≫= f) a.
Proof using. intros Hf B s Hi Hb. by apply Hf. Qed.

Lemma inv_sub B B' s : B ⊆ B' -> inv B s -> inv B' s.
Proof using.
  intros Hs [A1 A2 A3 A4]. split; [done..| |done]. intros e key c Hc.
  destruct (A3 e key c Hc) as (Hlt & x & Hx & Hst & Hv). split; [done|]. exists x. split; [done|]. split; [done|].
  intros Hn. apply Hv. by intros ?%Hs.
Qed.


(** * Changes of the state *)

(** [elem] gets the array of the walk [c0], which is under way. *)
Lemma put_ref e key c0 B s : inv (c0 :: B) s -> is_Some (cells s !! c0) -> c0 < next_cell s ->
  (forall x, cells s !! c0 = Some x -> steady = true -> (ce_stamp x <= dirruns s)%Q) ->
  exists s', put_cache e key (ERef c0) s = Some (tt, s') /\ inv (c0 :: B) s' /\ frame c0 s s' /\
    cells s' = cells s /\ next_cell s' = next_cell s /\ dirruns s' = dirruns s /\
    (forall e' key', caches s' !! (e', key') = Some (ERef c0) ->
       e' = e \/ caches s !! (e', key') = Some (ERef c0)).
Proof using.
  intros [A1 A2 A3 A4] [x Hx] Hlt Hst. eexists. split; [done|]. split_and!; simpl; try done.
  - split; simpl; try done.
    + intros e' key' c. rewrite lookup_insert_Some. intros [[? ?]|[_ Hc]]; [|by apply (A3 e' key')].
      simplify_eq/=. split; [done|]. exists x. split; [done|]. split; [by apply Hst|].
      intros Hn. destruct Hn. left.
    + intros p key' q i n. rewrite lookup_insert_Some. intros [[? ?]|[_ Hc]]; [done|]. by apply (A4 p key').
  - split; simpl; try done. intros e' key' c Hc. rewrite lookup_insert_Some. intros [[? ?]|[_ ?]]; [|done].
    simplify_eq. lia.
  - intros e' key'. rewrite lookup_insert_Some. intros [[? ?]|[_ ?]]; [left; congruence|by right].
Qed.

(** [newCache[2] = v] *)
Lemma set_value c0 v x B s : inv (c0 :: B) s -> cells s !! c0 = Some x ->
  exists s', set_result c0 v s = Some (tt, s') /\ inv (c0 :: B) s' /\ frame c0 s s' /\
    cells s' = <[c0 := {| ce_stamp := ce_stamp x; ce_done := ce_done x; ce_value := v |}]> (cells s) /\
    caches s' = caches s /\ next_cell s' = next_cell s /\ dirruns s' = dirruns s.
Proof using.
  intros [A1 A2 A3 A4] Hx. eexists. split.
  { unfold set_result, mbind, E_bind, get_state. rewrite Hx. done. }
  split_and!; simpl; try done.
  - split; simpl; try done. intros e key c Hc. destruct (A3 e key c Hc) as (Hlt & y & Hy & Hst & Hv).
    split; [done|]. destruct (decide (c = c0)) as [->|Hne].
    + simplify_eq. eexists. split; [apply lookup_insert_eq|]. simpl. split; [done|]. intros Hn. destruct Hn. left.
    + exists y. rewrite lookup_insert_ne by done. done.
  - split; simpl; try done. intros c Hc. by rewrite lookup_insert_ne by lia.
Qed.

(** [[dirruns, doneName]] *)
Lemma make_cell n B s : inv B s ->
  exists s', new_cell n s = Some (next_cell s, s') /\ inv (next_cell s :: B) s' /\ frame (next_cell s) s s' /\
    cells s' !! next_cell s = Some {| ce_stamp := dirruns s; ce_done := n; ce_value := None |} /\
    caches s' = caches s /\ next_cell s' = S (next_cell s) /\ dirruns s' = dirruns s.
Proof using.
  intros [A1 A2 A3 A4]. eexists. split; [done|]. split_and!; simpl; try done.
  - split; simpl; try done. intros e key c Hc. destruct (A3 e key c Hc) as (Hlt & y & Hy & Hst & Hv).
    split; [lia|]. exists y. rewrite lookup_insert_ne by lia. split; [done|]. split; [done|].
    intros Hn. apply Hv. intros ?. apply Hn. by right.
  - split; simpl; try done; [lia|]. intros c Hc. by rewrite lookup_insert_ne by lia.
  - apply lookup_insert_eq.
Qed.

(** The end of a walk: its array is right for all the elements that hold it. *)
Lemma close_cell c0 x B s : inv (c0 :: B) s -> cells s !! c0 = Some x ->
  (forall e key, caches s !! (e, key) = Some (ERef c0) -> ce_value x = Some (spec (ce_done x) e)) -> inv B s.
Proof using.
  intros [A1 A2 A3 A4] Hx Hp. split; try done. intros e key c Hc.
  destruct (A3 e key c Hc) as (Hlt & y & Hy & Hst & Hv). split; [done|]. exists y. split; [done|]. split; [done|].
  intros Hn Hq. destruct (decide (c = c0)) as [->|Hne].
  - simplify_eq. by apply (Hp e key).
  - apply Hv; [|done]. by intros [->|?]%elem_of_cons.
Qed.

(** * Walks *)

Section walk.
Variables (c : combinator) (base : bool) (n : nat) (m : nat -> E bool) (p : nat -> bool) (N : list nat).
Hypothesis Hm : forall x, counts d c base x = true -> yields N (m x) (p x).

Lemma walk_first_yields f e : rank (d := d) (depth := depth) (c_dir c) e <= f ->
  yields N (walk_first d c base m f e)
    (existsb p (take 1 (base.filter (fun x => counts d c base x = true) (trail (step d c) f e)))).
Proof using T Hm.
  revert e. induction f as [|f IH]; intros e Hf; simpl; destruct (step d c e) as [e'|] eqn:E; simpl.
  - apply (rank_step T) in E. lia.
  - apply yields_ret.
  - pose proof (rank_step T _ _ _ E). destruct (counts d c base e') eqn:Ec.
    + rewrite filter_cons_True by done. simpl. rewrite orb_false_r. by apply Hm.
    + rewrite filter_cons_False by congruence. apply IH. lia.
  - apply yields_ret.
Qed.

Lemma walk_plain_yields f e : rank (d := d) (depth := depth) (c_dir c) e <= f ->
  yields N (walk_plain d c base m f e)
    (existsb p (base.filter (fun x => counts d c base x = true) (trail (step d c) f e))).
Proof using T Hm.
  revert e. induction f as [|f IH]; intros e Hf; simpl; destruct (step d c e) as [e'|] eqn:E; simpl.
  - apply (rank_step T) in E. lia.
  - apply yields_ret.
  - pose proof (rank_step T _ _ _ E). destruct (counts d c base e') eqn:Ec.
    + rewrite filter_cons_True by done. simpl. eapply yields_bind; [by apply Hm|].
      destruct (p e'); simpl; [apply yields_ret|]. apply IH. lia.
    + rewrite filter_cons_False by congruence. apply IH. lia.
  - apply yields_ret.
Qed.

Hypothesis Hn : n ∉ N.
Hypothesis Hmeans : means n c base p.

Lemma search_unfold e e' : step d c e = Some e' ->
  search d c base p fuel e =
  if counts d c base e' then
    if skipped d c e' then search d c base p fuel (default e' (step d c e')) else spec n e'
  else search d c base p fuel e'.
Proof using T Hmeans.
  intros E. pose proof (rank_step T _ _ _ E). pose proof (rank_fuel T (c_dir c) e).
  rewrite (search_fuel d c base p depth fuel T fuel (S fuel)) by lia. simpl. rewrite E.
  rewrite Hmeans. destruct (step d c e') eqn:E'; done.
Qed.

(** The walk stands at [e], its array is the cell [c0]. *)
Record walking (c0 : nat) (B : list nat) (e : nat) (s : engine) : Prop := {
  walking_inv : inv (c0 :: B) s;
  walking_busy : busy (n :: N) B s;
  walking_below : forall b, b ∈ B -> b < c0;
  walking_fresh : c0 < next_cell s;
  walking_cell : exists x, cells s !! c0 = Some x /\ ce_done x = n /\
    (steady = true -> ce_stamp x <= dirruns s)%Q /\
    (forall y key, caches s !! (y, key) = Some (ERef c0) ->
       ce_value x = Some false /\ spec n y = search d c base p fuel e /\
       rank (d := d) (depth := depth) (c_dir c) e <= rank (d := d) (depth := depth) (c_dir c) y);
}.

(** One element is passed without a look at the caches. *)
Lemma walking_pass c0 B e e' s : walking c0 B e s ->
  search d c base p fuel e = search d c base p fuel e' ->
  rank (d := d) (depth := depth) (c_dir c) e' <= rank (d := d) (depth := depth) (c_dir c) e ->
  walking c0 B e' s.
Proof using.
  intros [W1 W2 W3 W4 (x & Hx & Hd & Hst & Hp)] Hs Hr. split; try done.
  exists x. split_and!; try done. intros y key Hy. destruct (Hp y key Hy) as (? & ? & ?).
  split_and!; [done|congruence|lia].
Qed.

(** What the walk finds in the cache of the next element is right. *)
Lemma walking_hit c0 B e e' s v : walking c0 B e s -> step d c e = Some e' ->
  old_cache c n s e' = Some v -> v = Some (spec n e').
Proof using T.
  intros [W1 W2 W3 W4 (x & Hx & Hd & Hst & Hp)] E. unfold old_cache.
  destruct (caches s !! (e', cache_key c)) as [[c1|]|] eqn:Ec; [|done..].
  destruct (inv_ref _ _ W1 e' _ c1 Ec) as (Hlt & y & Hy & Hst' & Hv). rewrite Hy.
  destruct (Qeq_bool (ce_stamp y) (dirruns s) && Nat.eqb (ce_done y) n) eqn:Eq; [|done].
  apply andb_true_iff in Eq as [Hq%Qeq_bool_iff Hn'%Nat.eqb_eq]. intros [= <-].
  rewrite <- Hn'. apply Hv; [|pose proof (inv_run _ _ W1); lra].
  intros [->|Hin]%elem_of_cons.
  - destruct (Hp e' _ Ec) as (_ & _ & Hr). apply (rank_step T) in E. lia.
  - destruct (W2 c1 Hin) as [_ Hdn]. apply (Hdn y Hy). rewrite Hn'. left.
Qed.

Lemma search_none e : step d c e = None -> search d c base p fuel e = false.
Proof using T. intros E. destruct fuel; simpl; by rewrite E. Qed.

(** The walk ends: no element was left. *)
Lemma walking_end c0 B e s : step d c e = None -> walking c0 B e s -> inv B s.
Proof using T.
  intros E [W1 W2 W3 W4 (x & Hx & Hd & Hst & Hp)]. eapply close_cell; [done..|].
  intros y key Hy. destruct (Hp y key Hy) as (-> & Hs & _). rewrite Hd, Hs, search_none; done.
Qed.

(** The walk ends with the result of an older one. *)
Lemma walking_adopt c0 B e e' s : walking c0 B e s -> search d c base p fuel e = spec n e' ->
  exists s', (set_result c0 (Some (spec n e'));; mret (default false (Some (spec n e')))) s = Some (spec n e', s') /\
    inv B s' /\ frame c0 s s'.
Proof using T.
  intros [W1 W2 W3 W4 (x & Hx & Hd & Hst & Hp)] Hs.
  destruct (set_value c0 (Some (spec n e')) x B s W1 Hx) as (s1 & E1 & Hi & F & Hc & Hca & _ & _).
  exists s1. rewrite (E_step _ _ _ _ _ E1). split; [done|]. split; [|done].
  eapply close_cell; [done|by rewrite Hc, lookup_insert_eq|]. simpl. intros y key. rewrite Hca. intros Hy.
  destruct (Hp y key Hy) as (_ & Hy' & _). rewrite Hd. by rewrite Hy', Hs.
Qed.

(** The walk enters the next element: its array is put there, the matcher runs, and
    its answer is noted in the array. *)
Lemma walking_enter c0 B e e' s : walking c0 B e s -> step d c e = Some e' -> counts d c base e' = true ->
  search d c base p fuel e = spec n e' ->
  exists s1, put_cache e' (cache_key c) (ERef c0) s = Some (tt, s1) /\
  exists s2, m e' s1 = Some (p e', s2) /\
  exists s3, set_result c0 (Some (p e')) s2 = Some (tt, s3) /\ frame c0 s s3 /\
    if p e' then inv B s3 else walking c0 B e' s3.
Proof using T Hm Hn Hmeans.
  intros [W1 W2 W3 W4 (x & Hx & Hd & Hst & Hp)] E Ec Hs. pose proof (rank_step T _ _ _ E) as Hr.
  destruct (put_ref e' (cache_key c) c0 B s W1) as (s1 & E1 & Hi1 & F1 & Hc1 & Hn1 & Hr1 & Hp1);
    [by exists x|done|intros ? ?; by simplify_eq|].
  destruct (Hm e' Ec (c0 :: B) s1 Hi1) as (s2 & E2 & Hi2 & F2).
  { intros b [->|Hin]%elem_of_cons; rewrite Hc1, Hn1.
    - split; [done|]. intros y Hy. simplify_eq. done.
    - destruct (W2 b Hin) as [? Hb]. split; [done|]. intros y Hy Hin'. eapply Hb; [done|by right]. }
  rewrite Hn1 in F2. destruct F2 as [F2a F2b F2c F2d].
  assert (Hx2 : cells s2 !! c0 = Some x) by by rewrite F2b, Hc1.
  destruct (set_value c0 (Some (p e')) x B s2 Hi2 Hx2) as (s3 & E3 & Hi3 & F3 & Hc3 & Hca3 & Hn3 & Hr3).
  assert (F : frame c0 s s3).
  { eapply frame_trans, F3; [done|]. eapply frame_trans; [done|apply F1|]. split; [done|..].
    - intros b Hb. apply F2b. lia.
    - intros y key b Hb. apply F2c. lia.
    - done. }
  exists s1. split; [done|]. exists s2. split; [done|]. exists s3. split; [done|]. split; [done|].
  assert (Hx3 : cells s3 !! c0 = Some {| ce_stamp := ce_stamp x; ce_done := n; ce_value := Some (p e') |})
    by by rewrite Hc3, lookup_insert_eq, Hd.
  assert (Hp3 : forall y key, caches s3 !! (y, key) = Some (ERef c0) ->
    spec n y = spec n e' /\ rank (d := d) (depth := depth) (c_dir c) e' <= rank (d := d) (depth := depth) (c_dir c) y).
  { intros y key. rewrite Hca3. intros Hy%F2c; [|done]. destruct (Hp1 y key Hy) as [->|Hy']; [done|].
    destruct (Hp y key Hy') as (_ & -> & ?). split; [done|lia]. }
  pose proof (Hmeans e') as He'. destruct (p e'); simpl in He'.
  - eapply close_cell; [done..|]. simpl. intros y key Hy. by rewrite (proj1 (Hp3 y key Hy)), He'.
  - assert (Hbusy : busy (n :: N) B s3).
    { intros b Hb. destruct (W2 b Hb) as [? Hd']. split; [destruct F; lia|]. intros y. rewrite (frame_cells _ _ _ F).
      - apply Hd'.
      - by apply W3. }
    split; [done|done|done|destruct F; lia|]. eexists. split; [done|]. simpl. split; [done|]. split.
    + intros Hsteady. rewrite (frame_run _ _ _ F) by done. by apply Hst.
    + intros y key Hy. destruct (Hp3 y key Hy) as [-> ?]. by rewrite He'.
Qed.

(** The loop with caches: it answers what the walk without them does, and closes
    its cell. *)
Lemma walk_cached_ok f c0 B e s : rank (d := d) (depth := depth) (c_dir c) e <= f -> walking c0 B e s ->
  exists s', walk_cached d c base n m f c0 e s = Some (search d c base p fuel e, s') /\ inv B s' /\ frame c0 s s'.
Proof using T Hm Hn Hmeans.
  revert e s. induction f as [|f IH]; intros e s Hf W; simpl; destruct (step d c e) as [e'|] eqn:E.
  - apply (rank_step T) in E. lia.
  - exists s. rewrite (search_none e E). split; [done|]. split; [|apply frame_refl]. by apply (walking_end c0 B e).
  - pose proof (rank_step T _ _ _ E) as Hr. rewrite (search_unfold e e' E).
    destruct (counts d c base e') eqn:Ec.
    2: { apply IH; [lia|]. eapply walking_pass; [done| |lia]. by rewrite (search_unfold e e' E), Ec. }
    fold (skipped d c e'). destruct (skipped d c e') eqn:Es.
    { assert (rank (d := d) (depth := depth) (c_dir c) (default e' (step d c e')) <= rank (d := d) (depth := depth) (c_dir c) e').
      { destruct (step d c e') eqn:E'; simpl; [|done]. apply (rank_step T) in E'. lia. }
      apply IH; [lia|]. eapply walking_pass; [done| |lia]. by rewrite (search_unfold e e' E), Ec, Es. }
    assert (Hs : search d c base p fuel e = spec n e') by by rewrite (search_unfold e e' E), Ec, Es.
    rewrite (E_step _ _ s s s) by done. destruct (old_cache c n s e') as [v|] eqn:Eo.
    + rewrite (walking_hit c0 B e e' s v W E Eo). by apply (walking_adopt c0 B e e').
    + destruct (walking_enter c0 B e e' s W E Ec Hs) as (s1 & E1 & s2 & E2 & s3 & E3 & F & Hw).
      rewrite (E_step _ _ _ _ _ E1), (E_step _ _ _ _ _ E2), (E_step _ _ _ _ _ E3).
      rewrite (Hmeans e'). destruct (p e') eqn:Ep; simpl.
      * exists s3. split; [done|]. done.
      * destruct (IH e' s3) as (s' & Ew & Hi & F'); [lia|done|].
        exists s'. split; [done|]. split; [done|]. by eapply frame_trans.
  - exists s. rewrite (search_none e E). split; [done|]. split; [|apply frame_refl]. by apply (walking_end c0 B e).
Qed.

Lemma combine_yields M e x : c_first c = false -> x = false -> n ∈ M -> N ⊆ M ->
  yields M (combine d c base n m fuel x e) (search d c base p fuel e).
Proof using T Hm Hn Hmeans.
  intros Hfirst -> HnM HNM B s Hi Hb. unfold combine. rewrite Hfirst.
  destruct (make_cell n B s Hi) as (s1 & E1 & Hi1 & F1 & Hc & Hca & Hnx & Hrun).
  rewrite (E_step _ _ _ _ _ E1).
  destruct (walk_cached_ok fuel (next_cell s) B e s1) as (s2 & E2 & Hi2 & F2).
  - apply (rank_fuel T).
  - split.
    + done.
    + eapply busy_frame; [|done]. eapply busy_sub; [|done]. intros y [->|?]%elem_of_cons; [done|by apply HNM].
    + intros b Hin. by apply Hb.
    + lia.
    + eexists. split; [done|]. simpl. split; [done|]. rewrite Hrun. split; [lra|].
      intros y key Hy. rewrite Hca in Hy. destruct (inv_ref _ _ Hi y key _ Hy) as [? _]. lia.
  - exists s2. split; [done|]. split; [done|]. by eapply frame_trans.
Qed.

End walk.


(** * The filter CHILD *)

(** An index is cached on the parent. *)
Lemma put_nth p t B s i n : inv B s -> nth_ok p i n ->
  exists s', put_cache p t (ENth (dirruns s) i n) s = Some (tt, s') /\ inv B s' /\ frame (next_cell s) s s'.
Proof using.
  intros [A1 A2 A3 A4] Hn. eexists. split; [done|]. split; split; simpl; try done.
  - intros e' key' c. rewrite lookup_insert_Some. intros [[? ?]|[_ Hc]]; [done|]. by apply (A3 e' key').
  - intros p' key' q i' n'. rewrite lookup_insert_Some. intros [[? ?]|[_ Hc]]; [|by apply (A4 p' key')].
    simplify_eq/=. split; [lra|done].
  - intros e' key' c Hc. rewrite lookup_insert_Some. by intros [[? ?]|[_ ?]].
Qed.

Section child.
Variables (t what : jstr) (nth : option (Z * Z)) (e p k : nat).
Hypothesis Hparent : parent_of d e = Some p.
Hypothesis Hk : children_of d p !! k = Some e.
Hypothesis Helem : is_element d e = true.

Definition like (x : nat) : bool :=
  if bool_decide (what = js "of-type") then bool_decide (lower_name d x = lower_name d e) else is_element d x.

Lemma like_self : like e = true.
Proof using Helem. unfold like. case_bool_decide; [by apply bool_decide_true|done]. Qed.

Definition siblings : list nat := base.filter (fun x => like x = true) (children_of d p).

(** The search from the start that caches nothing. *)
Lemma seek_yields (forward : bool) :
  yields []
    (seek fuel (if forward then nextSibling d else previousSibling d) like (fun _ _ _ => mret tt) e None None 0%Z
       (if forward then firstChild d p else lastChild d p))
    (position e (if forward then siblings else rev siblings)).
Proof using T Hparent Hk Helem.
  intros B s Hi Hb. exists s. split; [|by split; [|apply frame_refl]].
  pose proof (children_fuel _ _ _ T p) as Hf. destruct forward.
  - unfold firstChild. rewrite (seek_start _ _ (next_in T p) (children_NoDup _ _ _ T p) like _ e k Hk like_self);
      [|done|lia|by right].
    unfold sought. rewrite (E_step _ _ tt s s) by done. by rewrite (number_kept T p e k Hk like like_self).
  - unfold lastChild.
    assert (Hh : last (children_of d p) = head (rev (children_of d p))).
    { by rewrite rev_is_reverse, head_reverse. }
    assert (Hd : NoDup (rev (children_of d p))).
    { rewrite rev_is_reverse, reverse_Permutation. apply (children_NoDup _ _ _ T). }
    rewrite Hh, (seek_start _ _ (previous_in T p) Hd like _ e _ (rev_lookup p e k Hk) like_self);
      [|done|rewrite length_rev; lia|by right].
    unfold sought. rewrite (E_step _ _ tt s s) by done. by rewrite (number_kept_rev T p e k Hk like like_self).
Qed.

(** What is noted when the element is found. *)
Definition note_found (s : engine) (m : nat) (j n : Z) : E unit :=
  if bool_decide (m = e) then put_cache p t (ENth (dirruns s) j n) else mret tt.

Lemma sought_found B s : inv B s ->
  exists s', sought (children_of d p) (is_element d) (note_found s) e k s =
      Some (position e (base.filter (fun x => is_element d x = true) (children_of d p)), s') /\
    inv B s' /\ frame (next_cell s) s s'.
Proof using T Hk Helem.
  intros Hi. assert (Hok : nth_ok p (Z.of_nat k) (count (children_of d p) (is_element d) (S k))).
  { exists k. split; [done|]. split; [by eapply lookup_lt_Some|done]. }
  destruct (put_nth p t B s _ _ Hi Hok) as (s' & E & Hi' & F). exists s'. split; [|done].
  unfold sought, note_found. rewrite bool_decide_true by done. rewrite (E_step _ _ _ _ _ E).
  by rewrite (number_kept T p e k Hk (is_element d) Helem).
Qed.

(** The search forward, from what is cached on the parent. *)
Definition seek_forward (s : engine) : E Z :=
  match old_nth s p t with
  | Some (i, n) =>
      seek fuel (nextSibling d) (is_element d) (note_found s) e
        (if Z.eqb i 0 then None else children_of d p !! Z.to_nat i) (Some i) (if Z.eqb i 0 then 0%Z else n) (firstChild d p)
  | None => seek fuel (nextSibling d) (is_element d) (note_found s) e None (Some 0%Z) 0%Z (firstChild d p)
  end.

Lemma seek_forward_yields B s : inv B s ->
  exists s', seek_forward s s =
      Some (position e (base.filter (fun x => is_element d x = true) (children_of d p)), s') /\
    inv B s' /\ frame (next_cell s) s s'.
Proof using T Hk Helem.
  intros Hi. destruct (sought_found B s Hi) as (s' & E & Hi' & F). exists s'. split; [|done]. rewrite <- E.
  pose proof (children_fuel _ _ _ T p) as Hf.
  assert (Hnote : forall m i n s0, m <> e -> note_found s m i n s0 = Some (tt, s0)).
  { intros m i n s0 Hm. unfold note_found. by rewrite bool_decide_false. }
  unfold seek_forward, old_nth, firstChild.
  assert (Hstart : seek fuel (nextSibling d) (is_element d) (note_found s) e None (Some 0%Z) 0%Z (head (children_of d p)) s =
                   sought (children_of d p) (is_element d) (note_found s) e k s).
  { apply (seek_start _ _ (next_in T p) (children_NoDup _ _ _ T p)); [done..|lia|by left]. }
  destruct (caches s !! (p, t)) as [[c|q i n]|] eqn:Ec; [done| |done].
  destruct (Qeq_bool q (dirruns s)) eqn:Eq; [|done]. apply Qeq_bool_iff in Eq.
  destruct (inv_nth _ _ Hi p t q i n Ec) as [_ Hok].
  destruct Hok as (j & -> & Hj & ->); [pose proof (inv_run _ _ Hi); lra|].
  rewrite Nat2Z.id. apply (seek_cached _ _ (next_in T p) (children_NoDup _ _ _ T p)); [done..|lia].
Qed.

End child.

Lemma filter_CHILD_yields t what nth e : is_element d e = true ->
  xml || negb (nth_last_cached t what nth) = true ->
  yields [] (filter_CHILD d fuel t what nth xml e) (child_holds d t what nth e).
Proof using T.
  intros He Hx. unfold filter_CHILD, child_holds. destruct (parent_of d e) as [p|] eqn:Hp.
  2: { destruct (default (0, 0)%Z nth). apply yields_ret. }
  destruct (place_child T e p Hp) as (k & _ & Hk). fold (like what e). fold (siblings what e p).
  destruct (default (0, 0)%Z nth) as [first last0].
  case_bool_decide as Hone; [apply yields_ret|].
  destruct (bool_decide (take 3 t = js "nth")) eqn:Ent; simpl.
  - (* nth *)
    destruct (bool_decide (substr_last t 4 = js "last")) eqn:El; simpl.
    + assert (Hc : negb xml && negb (bool_decide (what = js "of-type")) = false).
      { revert Hx. unfold nth_last_cached. rewrite Ent, El, (bool_decide_false (nth = _)) by done.
        by destruct xml, (bool_decide (what = js "of-type")). }
      rewrite Hc. apply yields_get. intros B s Hi Hb. rewrite <- in_cycle_correct.
      eapply (yields_bind [] _ _ (position e (rev (siblings what e p)))); [|apply yields_ret|done|done].
      by apply (seek_yields what e p k Hp Hk He false).
    + apply yields_get. intros B s Hi Hb. rewrite <- in_cycle_correct.
      destruct (negb xml && negb (bool_decide (what = js "of-type"))) eqn:Hc.
      * destruct (seek_forward_yields t e p k Hk He B s Hi) as (s' & E & Hi' & F).
        apply andb_true_iff in Hc as [_ ->%negb_true_iff].
        exists s'. split; [|done]. unfold seek_forward in E. by rewrite (E_step _ _ _ _ _ E).
      * eapply (yields_bind [] _ _ (position e (siblings what e p))); [|apply yields_ret|done|done].
        by apply (seek_yields what e p k Hp Hk He true).
  - (* first, last, only *)
    pose proof (like_self what e He) as Hl. change (base.filter _ _) with (siblings what e p).
    unfold siblings. destruct (decide (t = js "only")) as [->|Honly].
    + rewrite (bool_decide_true (js "only" = js "only")) by done. rewrite (bool_decide_false (substr_last _ _ = _)) by done. simpl.
      rewrite (any_previous T p e k Hk), (any_next T p e k Hk), (only_kept T p e k Hk _ Hl).
      simpl. destruct (existsb _ (take k _)); simpl; [apply yields_ret|]. apply yields_ret.
    + rewrite (bool_decide_false (t = js "only")) by done. destruct (bool_decide (substr_last t 4 = js "last")); simpl.
      * rewrite (any_next T p e k Hk), (last_kept T p e k Hk _ Hl). simpl.
        destruct (existsb _ _); apply yields_ret.
      * rewrite (any_previous T p e k Hk), (first_kept T p e k Hk _ Hl). simpl.
        destruct (existsb _ _); apply yields_ret.
Qed.

(** * All matchers *)

Lemma disabled_yields b e : means 0 legend false fieldset ->
  yields [0] (disabled_pseudo d fuel b e) (disabled_holds d fuel b e).
Proof using T.
  intros Hs. unfold disabled_pseudo, disabled_holds.
  destruct (flag d has_form e), (flag d has_label e) eqn:Hl, (parent_of d e) as [p|]; try apply yields_ret.
  - case_bool_decide; [|apply yields_ret]. destruct (flag d has_label p); apply yields_ret.
  - destruct (bool_decide (d !! e ≫= disabled = Some false)); [|apply yields_ret].
    rewrite fieldset_search. eapply yields_bind; [|apply yields_ret].
    apply (combine_yields legend false 0 _ fieldset []); [intros x _; apply yields_ret|by apply not_elem_of_nil|done..|left|].
    by intros x ?%elem_of_nil.
Qed.

Hypothesis Hrandom : forall k, (0 <= random k)%Q.
Hypothesis Houter : outer0 <> ONull.

Lemma next_run_yields N : steady = false -> yields N (next_run random) tt.
Proof using Hrandom Houter.
  intros Hs B s [A1 A2 A3 A4] Hb. eexists. split.
  { unfold next_run. rewrite A2.
    assert (Hm : forall (A : Type) (a b : A), match outer0 with ONull => a | _ => b end = b).
    { intros A a b. generalize Houter. by destruct outer0. }
    apply Hm. }
  split; [|by split; simpl; [..|rewrite Hs]]. split; simpl; [|done|..].
  - pose proof (Hrandom (drawn s)). lra.
  - intros e key c Hc. destruct (A3 e key c Hc) as (? & x & ? & _ & ?). rewrite Hs.
    split; [done|]. exists x. split; [done|]. by split.
  - intros p key q i n Hq. destruct (A4 p key q i n Hq) as [_ ?]. by rewrite Hs.
Qed.

(** Runs of the matchers in a list. *)
Lemma any_matcher_yields N (ms : list matcher) (f : matcher -> composed) e context p :
  Forall (fun m => yields N (f m e context xml) (p m)) ms ->
  yields N (any_matcher (f <$> ms) e context xml) (existsb p ms).
Proof using.
  induction 1 as [|m ms Hm Hms IH]; simpl; [apply yields_ret|].
  eapply yields_bind; [done|]. destruct (p m); simpl; [apply yields_ret|done].
Qed.

Lemma all_matchers_yields N (ms : list matcher) (f : matcher -> composed) e context p :
  Forall (fun m => yields N (f m e context xml) (p m)) ms ->
  yields N (all_matchers (f <$> ms) e context xml) (forallb p ms).
Proof using.
  induction 1 as [|m ms Hm Hms IH]; simpl; [apply yields_ret|].
  eapply yields_bind; [done|]. destruct (forallb p ms); simpl; [by rewrite andb_true_r|].
  rewrite andb_false_r. apply yields_ret.
Qed.

(** The matcher of [:not] runs a super matcher that is not the outermost one. *)
Lemma inner_super_yields N (ms : list matcher) (f : matcher -> composed) e p : steady = false ->
  Forall (fun m => yields N (f m e document xml) (p m)) ms ->
  yields N (superMatcher document random (f <$> ms) [e] None xml [] false) (if existsb p ms then [e] else []).
Proof using Hrandom Houter.
  intros Hs Hms. apply yields_any_state. intros s0. eapply yields_bind; [by apply next_run_yields|].
  apply yields_any_state. intros s1. eapply yields_bind; [apply yields_ret|].
  eapply yields_bind; [|eapply yields_bind; apply yields_ret]. simpl.
  eapply yields_bind; [by apply any_matcher_yields|]. eapply yields_bind; [apply yields_ret|].
  destruct (existsb p ms); apply yields_ret.
Qed.

Lemma inner_yields (ms : list matcher) (f : matcher -> E bool) (p : matcher -> bool) context :
  Forall (fun m => ready context m -> yields (names m) (f m) (p m)) ms -> Forall (ready context) ms ->
  Forall (fun m => yields (concat (names <$> ms)) (f m) (p m)) ms.
Proof using.
  rewrite !Forall_forall. intros Hf Hr m Hm. eapply yields_sub; [|by apply Hf, Hr].
  intros n Hn. apply list_elem_of_In, in_concat. exists (names m).
  split; [|by apply list_elem_of_In]. apply list_elem_of_In, list_elem_of_fmap. eauto.
Qed.

(** Every matcher that is ready answers what it means, whatever the caches hold. *)
Lemma run_yields m context e : ready context m -> (m = MIsContext \/ is_element d e = true) ->
  yields (names m) (run d document docElem random fuel m e context xml) (plain m e context).
Proof using T Hrandom Houter.
  revert context e. induction m as [k| | | |ms IH| |l m IH|c base n m IH|ms IH] using matcher_nested_ind;
    intros context e Hr He; simpl.
  - destruct k; try apply yields_ret. apply filter_CHILD_yields; [by destruct He|done].
  - apply yields_ret.
  - apply yields_ret.
  - by apply disabled_yields.
  - destruct Hr as [Hs Hr%ready_all]. destruct He as [|He]; [done|].
    eapply yields_bind.
    + apply (inner_super_yields _ ms (run d document docElem random fuel) e (fun m' => plain m' e document)); [done|].
      apply (inner_yields ms _ _ document); [|done]. apply Forall_forall. intros m Hm. rewrite Forall_forall in IH. intros ?. apply IH; [done..|by right].
    + destruct (existsb _ ms); apply yields_ret.
  - apply yields_ret.
  - apply yields_get. intros B s Hi Hb. rewrite (inv_outer _ _ Hi).
    destruct He as [|He]; [done|].
    destruct (outside l xml context outer0); [by apply (yields_ret (names m) true B s)|].
    by apply (IH context e Hr (or_intror He)).
  - destruct Hr as ((Hnx & Hbase & Hn) & Hmeans & Hr).
    assert (Hm : forall x, counts d c base x = true ->
      yields (names m) (run d document docElem random fuel m x context xml) (plain m x context)).
    { intros x Hx. apply IH; [done|]. destruct base; [left; by apply Hbase|right].
      unfold counts in Hx. by rewrite orb_false_r in Hx. }
    assert (Hsub : names m ⊆ n :: names m) by (intros y ?; by right).
    destruct (c_first c) eqn:Ef.
    + eapply yields_sub; [done|]. unfold combine, related. rewrite Ef.
      by apply (walk_first_yields c base _ (fun x => plain m x context)), (rank_fuel T).
    + destruct xml eqn:Ex.
      * eapply yields_sub; [done|]. unfold combine, related. rewrite Ef.
        by apply (walk_plain_yields c base _ (fun x => plain m x context)), (rank_fuel T).
      * rewrite <- (search_related d c base (fun x => plain m x context) fuel e Hnx Ef).
        apply (combine_yields c base n _ (fun x => plain m x context) (names m) Hm Hn Hmeans (n :: names m) e false); [done..|left|done].
  - apply ready_all in Hr. destruct He as [|He]; [done|].
    apply all_matchers_yields, (inner_yields ms _ _ context); [|done]. apply Forall_forall. intros m Hm. rewrite Forall_forall in IH. intros ?. apply IH; [done..|by right].
Qed.

(** * The outermost run *)

(** Between two elements the counter goes back to the stamp of the run. *)
Lemma back_to_run s : inv [] s -> (steady = true -> dirruns s = D) ->
  exists s', set_dirruns D s = Some (tt, s') /\ inv [] s' /\ dirruns s' = D.
Proof using.
  intros [A1 A2 A3 A4] Hs. eexists. split; [done|]. split; [|done]. split; simpl; [lra|done|..].
  - intros e key c Hc. destruct (A3 e key c Hc) as (? & x & ? & ? & ?). split; [done|]. exists x.
    split; [done|]. split; [|done]. intros Hst. rewrite <- (Hs Hst). auto.
  - intros p key q i n Hq. destruct (A4 p key q i n Hq). split; [|done]. intros Hst. rewrite <- (Hs Hst). auto.
Qed.

Lemma match_elems_yields ms elems context results s :
  Forall (ready context) ms -> Forall (fun e => is_element d e = true) elems -> inv [] s -> dirruns s = D ->
  exists s', match_elems (run d document docElem random fuel <$> ms) true D elems context xml results s =
      Some (results ++ base.filter (fun e => existsb (fun m => plain m e context) ms = true) elems, s') /\
    inv [] s' /\ dirruns s' = D.
Proof using T Hrandom Houter.
  intros Hr He. revert results s. induction He as [|e elems He Hes IH]; intros results s Hi Hrun.
  { exists s. by rewrite app_nil_r. }
  assert (Hall : yields (concat (names <$> ms)) (any_matcher (run d document docElem random fuel <$> ms) e context xml)
                   (existsb (fun m => plain m e context) ms)).
  { apply (any_matcher_yields _ ms (run d document docElem random fuel) e context (fun m => plain m e context)).
    apply (inner_yields ms _ _ context); [|done]. apply Forall_forall. intros m Hm Hrm. apply run_yields; [done|by right]. }
  destruct (Hall [] s Hi) as (s1 & E1 & Hi1 & F1); [by intros c ?%elem_of_nil|].
  destruct (back_to_run s1 Hi1) as (s2 & E2 & Hi2 & Hrun2).
  { intros Hst. by rewrite (frame_run _ _ _ F1 Hst). }
  simpl. rewrite (E_step _ _ _ _ _ E1), (E_step _ _ _ _ _ E2).
  destruct (existsb (fun m => plain m e context) ms) eqn:Ee.
  - destruct (IH (results ++ [e]) s2 Hi2 Hrun2) as (s3 & -> & ?). exists s3.
    rewrite filter_cons_True by done. by rewrite <- app_assoc.
  - destruct (IH results s2 Hi2 Hrun2) as (s3 & -> & ?). exists s3. by rewrite filter_cons_False by congruence.
Qed.

End engine.

(** An engine at rest: no stamp in the caches is above the counter. *)
Record settled (s : engine) : Prop := {
  settled_outer : outermost s = ONull;
  settled_ref : forall e key c, caches s !! (e, key) = Some (ERef c) ->
    c < next_cell s /\ exists x, cells s !! c = Some x /\ (ce_stamp x <= dirruns s)%Q;
  settled_nth : forall p key q i n, caches s !! (p, key) = Some (ENth q i n) -> (q <= dirruns s)%Q;
}.

(** The value [outermostContext] has during a selection. *)
Definition outer_of (document context : nat) : outer :=
  if bool_decide (context = document) then OTrue else ONode context.

Lemma run_compiled_ok `{Unicode} d depth fuel (T : tree d depth fuel) document docElem random xml spec steady
    ms elems context results s :
  (forall k, (0 <= random k)%Q) ->
  Forall (ready (d := d) (fuel := fuel) document docElem (outer_of document context) xml spec steady context) ms ->
  Forall (fun e => is_element d e = true) elems -> settled s ->
  exists s', run_compiled d document docElem random fuel ms elems context xml results s =
      Some (results ++ base.filter (fun e => existsb (fun m =>
              plain (d := d) (fuel := fuel) document docElem (outer_of document context) xml m e context) ms = true) elems, s') /\
    outermost s' = ONull /\ dirruns s' = (dirruns s + 1)%Q /\ (steady = true -> settled s').
Proof.
  intros Hrandom Hr He [S1 S2 S3]. set (D := (dirruns s + 1)%Q).
  set (s1 := {| dirruns := D; outermost := outer_of document context; caches := caches s; cells := cells s;
                next_cell := next_cell s; drawn := drawn s |}).
  assert (Hi : inv (d := d) (outer_of document context) D spec steady [] s1).
  { split; simpl; [lra|done|..].
    - intros e key c Hc. destruct (S2 e key c Hc) as (? & x & ? & ?). split; [done|]. exists x. split; [done|].
      split; [unfold D; lra|]. unfold D. lra.
    - intros p key q i n Hq. pose proof (S3 p key q i n Hq). split; unfold D; lra. }
  assert (Houter : outer_of document context <> ONull) by (unfold outer_of; by case_bool_decide).
  destruct (match_elems_yields T document docElem random _ xml D spec steady Hrandom Houter ms elems context results s1
    Hr He Hi eq_refl) as (s2 & E & Hi2 & Hrun).
  eexists. split.
  { unfold run_compiled, superMatcher. rewrite (E_step _ _ s s s) by done.
    rewrite (E_step _ _ tt s {| dirruns := D; outermost := ONull; caches := caches s; cells := cells s;
                next_cell := next_cell s; drawn := drawn s |}) by (unfold next_run, set_dirruns; by rewrite S1).
    erewrite E_step by done. erewrite E_step by done. simpl.
    fold (outer_of document context). erewrite E_step by exact E. erewrite E_step by done. done. }
  simpl. split; [done|]. split; [done|]. intros ->. destruct Hi2 as [B1 B2 B3 B4]. split; simpl; [done|..].
  - intros e key c Hc. destruct (B3 e key c Hc) as (? & x & ? & Hst & _). split; [done|]. exists x. split; [done|].
    rewrite <- Hrun. by apply Hst.
  - intros p key q i n Hq. destruct (B4 p key q i n Hq) as [Hst _]. rewrite <- Hrun. by apply Hst.
Qed.

End SzEngine.
