(* ===== verification/SzSelect.v ===== *)
(** Selections: what [compile] makes of a selector means what the selector says, so
    that the engine, with all its caches, finds the elements of the reference.
    Why [:nth-last-child] is excluded is shown in SzNthLast.v. *)

From Stdlib Require Import QArith_base.
From S2P Require Import Prelude Regex SzTokens SzMatch SzReference SzWalks SzEngine.
Import SzTokens SzMatch SzReference SzWalks SzEngine.

Module SzSelect.

(** * Kinds of matchers *)

(** No [:nth-last-child] that caches indexes on the elements. *)
Fixpoint no_nth_last (m : matcher) : bool :=
  match m with
  | MFilter (TChild t w _ nth) => negb (nth_last_cached t w nth)
  | MNot ms | MAll ms => forallb no_nth_last ms
  | MContext _ m' | MComb _ _ _ m' => no_nth_last m'
  | _ => true
  end.

(** No [:not]. *)
Fixpoint no_not (m : matcher) : bool :=
  match m with
  | MNot _ => false
  | MAll ms => forallb no_not ms
  | MContext _ m' | MComb _ _ _ m' => no_not m'
  | _ => true
  end.

(** What all compiled matchers are like. *)
Fixpoint shape (m : matcher) : Prop :=
  match m with
  | MContext _ m' => shape m'
  | MComb c base n m' => (c_next c = None /\ (base = true -> m' = MIsContext) /\ n <> 0 /\ n ∉ names m') /\ shape m'
  | MNot ms | MAll ms => foldr (fun m' P => shape m' /\ P) True ms
  | _ => True
  end.

Lemma shape_all ms : foldr (fun m' P => shape m' /\ P) True ms <-> Forall shape ms.
Proof. induction ms as [|m ms IH]; simpl; [by split; [constructor|]|]. by rewrite Forall_cons, IH. Qed.

(** The names of the walks of a list of matchers, without the one of the walk to a
    disabled fieldset. *)
Definition nonzero (l : list nat) : list nat := base.filter (fun n => n <> 0) l.
Definition all_names (ms : list matcher) : list nat := nonzero (concat (names <$> ms)).

(** Compilation from the counter [n] to [n'] has made [ms]. *)
Record made (n n' : nat) (ms : list matcher) : Prop := {
  made_le : n <= n';
  made_shape : Forall shape ms;
  made_names : forall x, x ∈ all_names ms -> n <= x < n';
  made_NoDup : NoDup (all_names ms);
}.

Lemma all_names_app ms ms' : all_names (ms ++ ms') = all_names ms ++ all_names ms'.
Proof. unfold all_names, nonzero. by rewrite fmap_app, concat_app, filter_app. Qed.

Lemma all_names_one m : all_names [m] = nonzero (names m).
Proof. unfold all_names. simpl. by rewrite app_nil_r. Qed.

Lemma made_nil n : made n n [].
Proof. split; [done|constructor|by intros x ?%elem_of_nil|constructor]. Qed.

Lemma made_plain n m : nonzero (names m) = [] -> shape m -> made n n [m].
Proof.
  intros Hm Hs. assert (all_names [m] = []) as E by by rewrite all_names_one.
  split; [done|by repeat constructor|rewrite E; by intros x ?%elem_of_nil|rewrite E; constructor].
Qed.

Lemma made_app n n1 n2 ms ms' : made n n1 ms -> made n1 n2 ms' -> made n n2 (ms ++ ms').
Proof.
  intros [A1 A2 A3 A4] [B1 B2 B3 B4]. split.
  - lia.
  - by apply Forall_app.
  - intros x. rewrite all_names_app, elem_of_app. intros [Hx|Hx]; [apply A3 in Hx|apply B3 in Hx]; lia.
  - rewrite all_names_app. apply NoDup_app. split; [done|]. split; [|done].
    intros x Hx Hx'. apply A3 in Hx. apply B3 in Hx'. lia.
Qed.

Lemma made_later n n1 n2 ms : n1 <= n2 -> made n n1 ms -> made n n2 ms.
Proof. intros Hn [A1 A2 A3 A4]. split; [lia|done| |done]. intros x Hx%A3. lia. Qed.

Lemma made_same n n' ms m : all_names [m] = all_names ms -> shape m -> made n n' ms -> made n n' [m].
Proof. intros E Hs [A1 A2 A3 A4]. split; [done|by repeat constructor|by rewrite E|by rewrite E]. Qed.

Lemma made_elementMatcher n n' ms : made n n' ms -> made n n' [elementMatcher ms].
Proof.
  intros Hm. assert (Hs : shape (MAll ms)) by by apply shape_all, (made_shape _ _ _ Hm).
  assert (E : all_names [MAll ms] = all_names ms) by by rewrite all_names_one.
  destruct ms as [|m [|m' ms]]; [|done|]; by apply (made_same _ _ _ _ E Hs).
Qed.

Lemma made_not n n' ms : made n n' ms -> made n n' [MNot ms].
Proof.
  intros Hm. apply (made_same _ _ ms); [by rewrite all_names_one|by apply shape_all, (made_shape _ _ _ Hm)|done].
Qed.

Lemma made_comb n n' c base m : 1 <= n' -> c_next c = None -> (base = true -> m = MIsContext) ->
  made n n' [m] -> made n (S n') [MComb c base n' m].
Proof.
  intros H1 Hc Hb [A1 A2 A3 A4]. rewrite all_names_one in A3, A4.
  assert (Hn : n' ∉ names m).
  { intros Hin. assert (n' ∈ nonzero (names m)) as Hx%A3; [|lia]. apply list_elem_of_filter. split; [lia|done]. }
  assert (E : all_names [MComb c base n' m] = n' :: nonzero (names m)).
  { rewrite all_names_one. unfold nonzero. simpl. by rewrite filter_cons_True by lia. }
  split; [lia| |..].
  - constructor; [|constructor]. simpl. apply Forall_cons in A2 as [Hs _]. split; [|done]. split_and!; [done..|lia|done].
  - intros x. rewrite E. intros [->|Hx%A3]%elem_of_cons; lia.
  - rewrite E. constructor; [|done]. intros Hx%A3. lia.
Qed.

(** * What the walks of the compiled matchers answer *)

Section table.
Context `{Unicode}.
Variables (d : dom) (fuel document docElem : nat) (outer0 : outer) (xml : bool).

#[local] Abbreviation plain := (plain (d := d) (fuel := fuel) document docElem outer0 xml).

(** The walks inside a matcher, with their answers. *)
Fixpoint table (context : nat) (m : matcher) : list (nat * (nat -> bool)) :=
  match m with
  | MContext _ m' => table context m'
  | MComb c base n m' =>
      (n, fun e => plain m' e context || search d c base (fun x => plain m' x context) fuel e) :: table context m'
  | MNot ms => concat (table document <$> ms)
  | MAll ms => concat (table context <$> ms)
  | _ => []
  end.

Definition spec_of (l : list (nat * (nat -> bool))) (n : nat) : nat -> bool :=
  if Nat.eqb n 0 then fun e => fieldset (d := d) e || search d legend false (fieldset (d := d)) fuel e
  else default (fun _ => false) ((list_to_map l : gmap nat (nat -> bool)) !! n).

Lemma nonzero_concat (ls : list (list nat)) : nonzero (concat ls) = concat (nonzero <$> ls).
Proof. induction ls as [|l ls IH]; [done|]. simpl. unfold nonzero in *. by rewrite filter_app, IH. Qed.

Lemma table_names m context : shape m -> (table context m).*1 = nonzero (names m).
Proof using.
  assert (Hall : forall (ms : list matcher) context,
    Forall (fun m => forall context, shape m -> (table context m).*1 = nonzero (names m)) ms -> Forall shape ms ->
    (concat (table context <$> ms)).*1 = nonzero (concat (names <$> ms))).
  { intros ms ctx. induction 1 as [|x l Hx Hl IH]; [done|]. intros [Hs Hss]%Forall_cons. rewrite !fmap_cons. cbn [concat].
    rewrite fmap_app, Hx, IH by done. unfold nonzero. by rewrite filter_app. }
  revert context. induction m as [k| | | |ms IH| |l m IH|c base n m IH|ms IH] using matcher_nested_ind;
    intros context Hs; simpl in *; try done.
  - apply Hall; [done|by apply shape_all].
  - by apply IH.
  - destruct Hs as ((_ & _ & Hn & _) & Hs). unfold nonzero. rewrite filter_cons_True by done. f_equal. by apply IH.
  - apply Hall; [done|by apply shape_all].
Qed.

Lemma ready_of l steady context m : NoDup l.*1 -> shape m -> table context m ⊆ l ->
  xml || no_nth_last m = true -> (steady = true -> no_not m = true) ->
  ready (d := d) (fuel := fuel) document docElem outer0 xml (spec_of l) steady context m.
Proof using.
  intros Hd. revert context.
  assert (Hall : forall (ms : list matcher) (f : matcher -> bool) context,
    concat (table context <$> ms) ⊆ l -> xml || forallb f ms = true ->
    forall m', m' ∈ ms -> table context m' ⊆ l /\ xml || f m' = true).
  { intros ms f ctx Ht Hf m' Hm. split.
    - intros x Hx. apply Ht, list_elem_of_In, in_concat. exists (table ctx m').
      split; [|by apply list_elem_of_In]. apply list_elem_of_In, list_elem_of_fmap. eauto.
    - destruct xml; [done|]. simpl in *. rewrite forallb_forall in Hf. by apply Hf, list_elem_of_In. }
  induction m as [k| | | |ms IH| |lead m IH|c base n m IH|ms IH] using matcher_nested_ind;
    intros context Hs Ht Hx Hst; simpl in *; try done.
  - by destruct k.
  - split; [destruct steady; [by specialize (Hst eq_refl)|done]|]. apply ready_all. rewrite Forall_forall in *.
    apply shape_all in Hs. rewrite Forall_forall in Hs. intros m Hm. destruct (Hall ms _ _ Ht Hx m Hm).
    apply IH; [done|by apply Hs|done..|]. intros ->. by specialize (Hst eq_refl).
  - by apply IH.
  - destruct Hs as ((Hc & Hb & Hn & Hnin) & Hs). split; [done|]. split.
    + intros e. unfold spec_of. rewrite (proj2 (Nat.eqb_neq n 0) Hn).
      pose proof (Ht _ (list_elem_of_here _ _)) as Hin. by rewrite (elem_of_list_to_map_1 l n _ Hd Hin).
    + apply IH; [done| |done..]. intros x Hx'. apply Ht. by right.
  - apply ready_all. rewrite Forall_forall in *.
    apply shape_all in Hs. rewrite Forall_forall in Hs. intros m Hm. destruct (Hall ms _ _ Ht Hx m Hm).
    apply IH; [done|by apply Hs|done..|]. intros Hst'%Hst. rewrite forallb_forall in Hst'. by apply Hst', list_elem_of_In.
Qed.

(** All of them are ready. *)
Lemma made_ready n n' ms context : made n n' ms -> xml || forallb no_nth_last ms = true ->
  Forall (ready (d := d) (fuel := fuel) document docElem outer0 xml (spec_of (concat (table context <$> ms)))
            (forallb no_not ms) context) ms.
Proof using.
  intros [_ Hs _ Hd] Hx. apply Forall_forall. intros m Hm.
  assert (Hin : forall f : matcher -> bool, forallb f ms = true -> f m = true).
  { intros f Hf. rewrite forallb_forall in Hf. by apply Hf, list_elem_of_In. }
  apply ready_of; [|by eapply Forall_forall|..|apply Hin].
  - replace (concat _).*1 with (all_names ms); [done|]. clear -Hs. unfold all_names.
    induction Hs as [|x l Hx Hl IH]; [done|]. rewrite !fmap_cons. cbn [concat]. rewrite fmap_app, <- IH, table_names by done.
    unfold nonzero. by rewrite filter_app.
  - intros x Hx'. apply list_elem_of_In, in_concat. exists (table context m).
    split; [|by apply list_elem_of_In]. apply list_elem_of_In, list_elem_of_fmap. eauto.
  - destruct xml; [done|]. by apply Hin.
Qed.

End table.


(** * Compilation *)

Lemma C_inv {A B} (m : C A) (f : A -> C B) n b n'' : (m ≫= f) n = Ok (b, n'') ->
  exists a n', m n = Ok (a, n') /\ f a n' = Ok (b, n'').
Proof. unfold mbind, C_bind. destruct (m n) as [[a n']|]; [|done]. eauto. Qed.

Lemma existsb_eq {A} (p q : A -> bool) l : (forall x, p x = q x) -> existsb p l = existsb q l.
Proof. intros E. induction l as [|x l IH]; [done|]. simpl. by rewrite E, IH. Qed.

Lemma existsb_equal (x : nat) l : existsb (fun y => bool_decide (y = x)) l = bool_decide (x ∈ l).
Proof.
  apply eq_true_iff_eq. rewrite existsb_exists, bool_decide_eq_true. split.
  - intros (y & Hy & ->%bool_decide_eq_true). by apply list_elem_of_In.
  - intros Hx. exists x. by rewrite <- list_elem_of_In, bool_decide_true.
Qed.

Lemma relative_next k c : relative k = Some c -> c_next c = None.
Proof. unfold relative. destruct k; try done. intros. by repeat case_bool_decide; simplify_eq. Qed.

Lemma element_pseudo_known `{Unicode} d docElem name :
  is_Some (element_pseudo ∅ 0 name) -> is_Some (element_pseudo d docElem name).
Proof. unfold element_pseudo. intros [f Hf]. repeat case_match; done. Qed.

Section compiled.
Context `{Unicode}.
Variables (d : dom) (fuel document docElem : nat) (outer0 : outer) (xml : bool).

#[local] Abbreviation plain := (plain (d := d) (fuel := fuel) document docElem outer0 xml).

Section one_level.
Variable compile_rec : jstr -> C (list matcher).
Variable some_group : jstr -> nat -> bool.
Hypothesis Hrec : forall s n ms n', compile_rec s n = Ok (ms, n') -> 1 <= n ->
  made n n' ms /\ forall e, existsb (fun m => plain m e document) ms = some_group s e.

#[local] Abbreviation filter_holds := (filter_holds d docElem fuel xml some_group).
#[local] Abbreviation holds := (holds d docElem fuel xml some_group).

Lemma filter_PSEUDO_correct pseudo argument n m n' context :
  filter_PSEUDO compile_rec pseudo argument n = Ok (m, n') -> 1 <= n ->
  made n n' [m] /\ forall e, plain m e context = pseudo_holds d docElem fuel some_group pseudo argument e.
Proof using Hrec.
  unfold filter_PSEUDO, pseudo_holds. set (name := pseudo_name pseudo).
  destruct (_ || _); [done|]. destruct (bool_decide (name = js "not")).
  { intros (s & n1 & E & (ms & n2 & E2 & [= <- <-])%C_inv)%C_inv H1.
    destruct argument as [a|]; [|done]. injection E as <- <-.
    destruct (Hrec _ _ _ _ E2 H1) as [Hm Hg]. split; [by apply made_not|]. intros e. simpl. by rewrite Hg. }
  destruct (bool_decide (name = js "contains")).
  { intros (s & n1 & E & [= <- <-])%C_inv H1. destruct argument as [a|]; [|done]. injection E as <- <-.
    split; [by apply made_plain|done]. }
  destruct (bool_decide (name = js "enabled")).
  { intros [= <- <-] H1. split; [by apply made_plain|done]. }
  destruct (bool_decide (name = js "disabled")).
  { intros [= <- <-] H1. split; [by apply made_plain|done]. }
  destruct (bool_decide (name ∈ other_pseudos)); [done|].
  destruct (element_pseudo ∅ 0 name) eqn:E; [|done]. intros [= <- <-] H1.
  split; [by apply made_plain|done].
Qed.

Lemma filter_of_correct k n m n' context : filter_of compile_rec k n = Ok (m, n') -> 1 <= n ->
  made n n' [m] /\ forall e, plain m e context = filter_holds k e.
Proof using Hrec.
  intros Hk H1. destruct k; simpl in Hk; try (injection Hk as <- <-; split; [by apply made_plain|done]).
  - case_bool_decide; [done|]. injection Hk as <- <-. split; [by apply made_plain|done].
  - by apply filter_PSEUDO_correct.
Qed.

Lemma plain_elementMatcher ms e context : ms <> [] ->
  plain (elementMatcher ms) e context = forallb (fun m => plain m e context) ms.
Proof using. intros Hms. destruct ms as [|m [|m' ms]]; [done| |done]. simpl. by rewrite andb_true_r. Qed.

(** The loop over the tokens builds what the tokens read so far say. *)
Lemma add_tokens_correct ts ms n0 n ms' n' context scope rts :
  add_tokens compile_rec ts ms n = Ok (ms', n') -> 1 <= n -> made n0 n ms -> ms <> [] ->
  (forall e, forallb (fun m => plain m e context) ms = holds scope rts e) ->
  made n0 n' ms' /\ ms' <> [] /\
  forall e, forallb (fun m => plain m e context) ms' = holds scope (rev ts ++ rts) e.
Proof using Hrec.
  revert ms n rts. induction ts as [|t ts IH]; intros ms n rts; simpl.
  { intros [= <- <-]. done. }
  destruct (relative (tk_kind t)) as [c|] eqn:Er; intros (m & n1 & Em & Ha)%C_inv H1 Hm Hne Hp.
  - injection Em as <- <-. rewrite <- app_assoc.
    assert (Hm' : made n0 (S n) [MComb c false n (elementMatcher ms)]).
    { apply made_comb; [done|by eapply relative_next|done|by apply made_elementMatcher]. }
    eapply IH; [done|lia|done|done|]. intros e. simpl. rewrite Er, andb_true_r. apply existsb_eq. intros x.
    by rewrite plain_elementMatcher.
  - destruct (filter_of_correct _ _ _ _ context Em H1) as [Hf Hpf]. rewrite <- app_assoc.
    eapply IH; [done|destruct Hf; lia|by eapply made_app|by destruct ms|]. intros e.
    rewrite forallb_app. simpl. rewrite Er, Hp, Hpf, andb_true_r. apply andb_comm.
Qed.

Lemma matcherFromTokens_correct ts n m n' context :
  matcherFromTokens compile_rec ts n = Ok (m, n') -> 1 <= n ->
  made n n' [m] /\ forall e, plain m e context = group_holds d docElem fuel xml some_group ts context outer0 e.
Proof using Hrec.
  destruct ts as [|t ts]; [done|]. simpl. set (lead := relative (tk_kind t)).
  intros (mc & n1 & [= <- <-] & (ma & n2 & [= <- <-] & (ms & n3 & Ha & [= <- <-])%C_inv)%C_inv)%C_inv H1.
  set (c := default descendant lead) in *.
  assert (Hc : c_next c = None).
  { unfold c. destruct lead as [c'|] eqn:El; [|done]. by eapply relative_next. }
  destruct (add_tokens_correct _ _ n _ _ _ context (in_scope d fuel xml lead context outer0) [] Ha)
    as (Hm & Hne & Hp); [lia| |done| |].
  - assert (Hmc : made n (S n) [MComb c true n MIsContext]) by by apply made_comb, made_plain.
    apply (made_later _ (S n)); [lia|]. apply (made_same _ _ [MComb c true n MIsContext]); [done| |done].
    apply made_shape in Hmc. by apply Forall_cons in Hmc as [? _].
  - intros e. simpl. rewrite andb_true_r. unfold in_scope. f_equal. apply existsb_equal.
  - split; [by apply made_elementMatcher|]. intros e. rewrite plain_elementMatcher by done. rewrite Hp, app_nil_r. done.
Qed.

Lemma group_matchers_correct gs n ms n' context :
  group_matchers compile_rec gs n = Ok (ms, n') -> 1 <= n ->
  made n n' ms /\ forall e, existsb (fun m => plain m e context) ms =
    existsb (fun g => group_holds d docElem fuel xml some_group g context outer0 e) gs.
Proof using Hrec.
  revert n ms. induction gs as [|g gs IH]; intros n ms; simpl.
  - intros [= <- <-] H1. split; [apply made_nil|done].
  - intros (m & n1 & Em & (ms' & n2 & Ems & [= <- <-])%C_inv)%C_inv H1.
    destruct (matcherFromTokens_correct _ _ _ _ context Em H1) as [Hm Hp].
    destruct (IH _ _ Ems) as [Hms Hps]; [destruct Hm; lia|].
    split; [by apply (made_app n n1 n2 [m] ms')|]. intros e. simpl. by rewrite Hp, Hps.
Qed.

End one_level.

Lemma compile_at_correct k selector n ms n' context :
  compile_at k selector n = Ok (ms, n') -> 1 <= n ->
  made n n' ms /\ forall e, existsb (fun m => plain m e context) ms =
    matches d document docElem fuel xml k selector context outer0 e.
Proof using.
  revert selector n ms n' context. induction k as [|k IH]; intros selector n ms n' context; simpl; [done|].
  intros (gs & n1 & E & Hg)%C_inv H1. unfold of_res in E. destruct (tokenize selector) as [gs'|]; [|done].
  simpl in E. injection E as <- <-.
  assert (Hrec : forall s i ms' i', compile_at k s i = Ok (ms', i') -> 1 <= i ->
    made i i' ms' /\ forall e, existsb (fun m => plain m e document) ms' =
      matches d document docElem fuel xml k s document outer0 e) by (intros s i ms' i' Hc Hi; by apply IH).
  destruct (group_matchers_correct (compile_at k) _ Hrec (rev gs') n ms n' context Hg H1) as [Hm Hp].
  split; [done|]. intros e. rewrite Hp. apply existsb_rev.
Qed.

End compiled.


(** * Selections *)

(** C1. On a document that is a tree, a selection finds exactly the elements that
    match the selector in the sense of the reference, in the order in which they
    were given, and it always ends: for a selector that [compile] accepts, an
    engine at rest, any elements and any context.  The walks that combinators cut
    short by the caches, the results that flow back through shared arrays, and the
    cached indexes of [:nth-child] change nothing.  Nothing is asked of the caches
    but that their stamps are not above the counter, so the document may have
    changed since the last selection; and without [:not] the engine is at rest
    again.  The selectors must not use [:nth-last-child] (outside XML), whose cache is
    wrong; [compile] already refuses what the model leaves out. *)
Theorem selection_correct `{Unicode} d depth fuel document docElem random xml selector n ms n' elems context results s :
  tree d depth fuel -> (forall k, (0 <= random k)%Q) ->
  compile selector n = Ok (ms, n') -> 1 <= n -> xml || forallb no_nth_last ms = true ->
  Forall (fun e => is_element d e = true) elems -> settled s ->
  exists s', run_compiled d document docElem random fuel ms elems context xml results s =
      Some (results ++ select d document docElem fuel xml selector elems context, s') /\
    outermost s' = ONull /\ dirruns s' = (dirruns s + 1)%Q /\ (forallb no_not ms = true -> settled s').
Proof.
  intros T Hrandom Hc H1 Hx He Hs.
  destruct (compile_at_correct d fuel document docElem (outer_of document context) xml _ _ _ _ _ context Hc H1) as [Hm Hp].
  destruct (run_compiled_ok d depth fuel T document docElem random xml _ _ ms elems context results s Hrandom
    (made_ready d fuel document docElem _ xml n n' ms context Hm Hx) He Hs) as (s' & E & Hs').
  exists s'. split; [|done]. rewrite E. do 3 f_equal. apply list_filter_iff. intros e. by rewrite Hp.
Qed.

(** * A document *)

(** Is this map of nodes a tree? *)
Definition tree_ok (d : dom) (depth : nat -> nat) (fuel : nat) : bool :=
  forallb (fun '(e, x) =>
    match parentNode x with
    | Some p => bool_decide (e ∈ children_of d p) && Nat.ltb (depth p) (depth e)
    | None => true
    end
    && forallb (fun c => bool_decide (parent_of d c = Some e)) (childNodes x)
    && bool_decide (NoDup (childNodes x)) && Nat.ltb (2 * length (childNodes x)) fuel)
    (map_to_list d).

Lemma tree_ok_sound d depth fuel : tree_ok d depth fuel = true -> (forall e, depth e <= fuel) -> 0 < fuel ->
  tree d depth fuel.
Proof.
  unfold tree_ok. rewrite forallb_forall. intros Hall Hd Hf.
  assert (Hx : forall e x, d !! e = Some x ->
    match parentNode x with Some p => e ∈ children_of d p /\ depth p < depth e | None => True end /\
    (forall c, c ∈ childNodes x -> parent_of d c = Some e) /\ NoDup (childNodes x) /\ 2 * length (childNodes x) < fuel).
  { intros e x He. specialize (Hall (e, x)). simpl in Hall.
    apply elem_of_map_to_list, list_elem_of_In, Hall in He.
    rewrite !andb_true_iff, forallb_forall, bool_decide_eq_true, Nat.ltb_lt in He.
    destruct He as [[[Hp Hc] Hn] Hl]. split; [|split; [|done]].
    - destruct (parentNode x); [|done]. by rewrite andb_true_iff, bool_decide_eq_true, Nat.ltb_lt in Hp.
    - intros c Hin%list_elem_of_In. by apply Hc, bool_decide_eq_true in Hin. }
  assert (Hc : forall p, children_of d p = [] \/ exists x, d !! p = Some x /\ children_of d p = childNodes x).
  { intros p. unfold children_of. destruct (d !! p) as [x|]; [right; eauto|by left]. }
  split; try done.
  - intros e p Hp. unfold parent_of in Hp. destruct (d !! e) as [x|] eqn:E; [|done]. simpl in Hp.
    destruct (Hx e x E) as [Hpar _]. rewrite Hp in Hpar. by apply Hpar.
  - intros e p Hin. destruct (Hc p) as [E|(x & E & E')]; [by rewrite E in Hin; apply elem_of_nil in Hin|].
    rewrite E' in Hin. by apply (Hx p x E).
  - intros p. destruct (Hc p) as [->|(x & E & ->)]; [constructor|]. by apply (Hx p x E).
  - intros e p Hp. unfold parent_of in Hp. destruct (d !! e) as [x|] eqn:E; [|done]. simpl in Hp.
    destruct (Hx e x E) as [Hpar _]. rewrite Hp in Hpar. by apply Hpar.
  - intros p. destruct (Hc p) as [->|(x & E & ->)]; [done|]. by apply (Hx p x E).
Qed.

(** A list of three items. *)
Definition item (name class : string) (parent : option nat) (children : list nat) : node :=
  {| nodeType := 1; nodeName := js name; parentNode := parent; childNodes := children;
     attrs := []; className := Some (js class); type := None; textContent := []; checked := false;
     selected := false; disabled := None; has_form := false; has_label := false |}.

Definition page : dom :=
  list_to_map
    [(0, {| nodeType := 9; nodeName := js "#document"; parentNode := None; childNodes := [1];
            attrs := []; className := None; type := None; textContent := []; checked := false; selected := false;
            disabled := None; has_form := false; has_label := false |});
     (1, item "UL" "" (Some 0) [2; 3; 4]); (2, item "LI" "x" (Some 1) []); (3, item "LI" "x" (Some 1) []);
     (4, item "LI" "y" (Some 1) [])].

Definition page_depth (e : nat) : nat := match e with 0 => 0 | 1 => 1 | _ => 2 end.

Lemma page_tree : tree page page_depth 20.
Proof. apply tree_ok_sound; [by vm_compute| |lia]. intros [|[|e]]; simpl; lia. Qed.

(** An engine before its first selection. *)
Definition engine_start : engine :=
  {| dirruns := 0; outermost := ONull; caches := ∅; cells := ∅; next_cell := 0; drawn := 0 |}.

Lemma engine_start_settled : settled engine_start.
Proof. by split. Qed.

Lemma selection_correct_witness :
  exists ms n',
    compile (js "ul > li:not(.x), li:nth-child(2) ~ li.y, ul li.x") 1 = Ok (ms, n') /\
    select page 0 1 20 false (js "ul > li:not(.x), li:nth-child(2) ~ li.y, ul li.x") [2; 3; 4] 0 = [2; 3; 4] /\
    exists s', run_compiled page 0 1 (fun _ => 1 # 2)%Q 20 ms [2; 3; 4] 0 false [] engine_start = Some ([2; 3; 4], s').
Proof.
  destruct (compile (js "ul > li:not(.x), li:nth-child(2) ~ li.y, ul li.x") 1) as [[ms n']|] eqn:E; [|vm_compute in E; done].
  exists ms, n'. split; [done|].
  assert (Hsel : select page 0 1 20 false (js "ul > li:not(.x), li:nth-child(2) ~ li.y, ul li.x") [2; 3; 4] 0 = [2; 3; 4])
    by by vm_compute.
  split; [done|].
  destruct (selection_correct page page_depth 20 0 1 (fun _ => 1 # 2)%Q false _ 1 ms n' [2; 3; 4] 0 [] engine_start
    page_tree ltac:(done) E ltac:(lia)) as (s' & Hrun & _).
  - vm_compute in E. injection E as <- <-. by vm_compute.
  - repeat constructor.
  - apply engine_start_settled.
  - exists s'. rewrite Hrun, Hsel. done.
Defined.

End SzSelect.
