(* ===== verification/SzNthLast.v ===== *)
(** The cache of [:nth-last-child] in Sizzle ([filter_CHILD] of SzMatch.v), which the
    correctness of the engine in SzSelect.v excludes: what a search from an element
    leaves on its siblings, and the answers that follow from it. *)

From Stdlib Require Import QArith_base.
From S2P Require Import Prelude Regex SzTokens SzMatch SzReference SzWalks SzEngine SzSelect.
Import SzTokens SzMatch SzReference SzWalks SzEngine SzSelect.

Module SzNthLast.

(** * Positions *)

Lemma position_cons x y l : x <> y -> x ∈ l -> position x (y :: l) = (position x l + 1)%Z.
Proof.
  intros Hne Hin. unfold position. simpl. rewrite decide_False by done.
  destruct (list_find_elem_of (fun z => z = x) l x Hin eq_refl) as [[i z] E]. rewrite E. simpl. lia.
Qed.

Lemma position_here x l : position x (x :: l) = 1%Z.
Proof. unfold position. simpl. by rewrite decide_True. Qed.

Lemma position_behind x k l : x ∉ k -> x ∈ l -> position x (k ++ l) = (Z.of_nat (length k) + position x l)%Z.
Proof.
  intros Hk Hl. induction k as [|y k IH]; [done|]. apply not_elem_of_cons in Hk as [Hne Hk].
  simpl app. rewrite position_cons, IH by (done || apply elem_of_app; by right). simpl length. lia.
Qed.

(** * The loop over the siblings *)

Section lap.
Variable next : nat -> option nat.
Variable t : jstr.
Variable q : Q.
Variable counted : nat -> bool.
Variables (elem : nat) (behind ahead : list nat).
(** The siblings in the direction of the loop; [ahead] follow the element. *)
Let l : list nat := behind ++ elem :: ahead.
Hypothesis Hnext : forall i e, l !! i = Some e -> next e = l !! S i.
Hypothesis Hdup : NoDup l.
Hypothesis Helem : counted elem = true.

Let note (m : nat) (_ : Z) (n : Z) : E unit := put_cache m t (ENth q n 0%Z).

Definition marked (m : nat) (n : Z) (s : engine) : engine :=
  {| dirruns := dirruns s; outermost := outermost s; caches := <[(m, t) := ENth q n 0%Z]> (caches s);
     cells := cells s; next_cell := next_cell s; drawn := drawn s |}.

(** What is noted on a run of siblings that are numbered from [n + 1] *)
Fixpoint numbered (n : Z) (xs : list nat) (s : engine) : engine :=
  match xs with
  | [] => s
  | x :: xs' => if counted x then numbered (n + 1) xs' (marked x (n + 1) s) else numbered n xs' s
  end.

Definition number (xs : list nat) : Z := Z.of_nat (length (base.filter (fun x => counted x = true) xs)).

Lemma number_cons x xs : number (x :: xs) = ((if counted x then 1 else 0) + number xs)%Z.
Proof using.
  unfold number. destruct (counted x) eqn:E; [rewrite filter_cons_True by done; simpl; lia|].
  rewrite filter_cons_False by congruence. lia.
Qed.

Lemma numbered_frame n xs s : dirruns (numbered n xs s) = dirruns s.
Proof using. revert n s. induction xs as [|x xs IH]; intros n s; simpl; [done|]. destruct (counted x); by rewrite IH. Qed.

Lemma numbered_other n xs s x key : x ∉ xs -> caches (numbered n xs s) !! (x, key) = caches s !! (x, key).
Proof using.
  revert n s. induction xs as [|y xs IH]; intros n s Hx; simpl; [done|]. apply not_elem_of_cons in Hx as [Hne Hx].
  destruct (counted y); rewrite IH by done; [|done]. simpl. by rewrite lookup_insert_ne by congruence.
Qed.

Lemma numbered_at n xs s x : NoDup xs -> x ∈ xs -> counted x = true ->
  caches (numbered n xs s) !! (x, t) =
    Some (ENth q (n + position x (base.filter (fun x => counted x = true) xs)) 0%Z).
Proof using.
  intros Hd Hx Hc. revert n s. induction Hd as [|y xs Hy Hd IH]; intros n s; [by apply not_elem_of_nil in Hx|]. simpl.
  destruct (decide (x = y)) as [->|Hne].
  - rewrite Hc, filter_cons_True, position_here, numbered_other by done. simpl. by rewrite lookup_insert_eq.
  - apply elem_of_cons in Hx as [|Hx]; [done|]. specialize (IH Hx). destruct (counted y) eqn:Ey.
    + rewrite filter_cons_True, position_cons by (done || by apply list_elem_of_filter). rewrite IH. do 2 f_equal. lia.
    + by rewrite filter_cons_False, IH by congruence.
Qed.

Lemma next_of pre x post : l = pre ++ x :: post -> next x = head post.
Proof using Hnext.
  intros E. assert (l !! length pre = Some x) as Hx by (rewrite E; by apply list_lookup_middle).
  rewrite (Hnext _ _ Hx), E, lookup_app_r by lia. replace (S (length pre) - length pre) with 1 by lia. by destruct post.
Qed.

Lemma advance_on x j n start : (0 <= j)%Z ->
  advance next (Some x) (Some j) n start =
    match next x with Some y => (Some y, Some (j + 1)%Z, n, start) | None => (start, Some 0%Z, 0%Z, None) end.
Proof using. intros Hj. unfold advance. simpl. rewrite (proj2 (Z.eqb_neq _ _)) by lia. by destruct (next x). Qed.

(** A loop that has passed the element numbers what is ahead, to the end, and begins
    anew. *)
Lemma seek_lap fuel pre x post j n s : l = pre ++ x :: post -> elem ∉ post -> (0 <= j)%Z -> length post < fuel ->
  seek fuel next counted note elem (Some x) (Some j) n (head l) s =
  seek (fuel - length post) next counted note elem None (Some 0%Z) 0%Z (head l) (numbered n post s).
Proof using Hnext.
  revert fuel pre x j n s. induction post as [|y post IH]; intros fuel pre x j n s E Hne Hj Hf.
  - destruct fuel as [|fuel]; [lia|]. cbn [length]. rewrite Nat.sub_0_r. cbn [seek].
    by rewrite (advance_on x j n _ Hj), (next_of pre x []).
  - destruct fuel as [|fuel]; [simpl in Hf; lia|]. cbn [seek]. apply not_elem_of_cons in Hne as [Hy Hne].
    rewrite (advance_on x j n _ Hj), (next_of pre x (y :: post) E). cbn [head].
    assert (l = (pre ++ [x]) ++ y :: post) as E' by (by rewrite E, <- app_assoc).
    cbn [length numbered] in *. replace (S fuel - S (length post)) with (fuel - length post) by lia.
    destruct (counted y).
    + rewrite (E_step _ _ tt s (marked y (n + 1) s)) by done. rewrite bool_decide_false by done.
      apply (IH fuel (pre ++ [x])); [done..|lia|lia].
    + apply (IH fuel (pre ++ [x])); [done..|lia|lia].
Qed.

(** A loop that is still before the element numbers what is before it, and stops. *)
Lemma seek_arrives fuel pre todo node i j n n' start s :
  l = pre ++ todo ++ elem :: ahead -> elem ∉ todo -> length todo < fuel -> (0 <= i)%Z ->
  advance next node j n' start = (head (todo ++ [elem]), Some i, n, None) ->
  seek fuel next counted note elem node j n' start s =
    Some ((n + number todo + 1)%Z, numbered n (todo ++ [elem]) s).
Proof using Hnext Helem.
  revert fuel pre node i j n n' start s. induction todo as [|y todo IH]; intros fuel pre node i j n n' start s E Hne Hf Hi Ha.
  - destruct fuel as [|fuel]; [simpl in Hf; lia|]. cbn [seek]. rewrite Ha. cbn. rewrite Helem.
    rewrite (E_step _ _ tt s (marked elem (n + 1) s)) by done. rewrite bool_decide_true by done. unfold number. cbn.
    by rewrite Z.add_0_r.
  - destruct fuel as [|fuel]; [simpl in Hf; lia|]. cbn [seek]. rewrite Ha. cbn [head app length] in *.
    apply not_elem_of_cons in Hne as [Hy Hne].
    assert (l = (pre ++ [y]) ++ todo ++ elem :: ahead) as E' by (by rewrite E, <- app_assoc).
    assert (next y = head (todo ++ [elem])) as Hn by (rewrite (next_of pre y (todo ++ elem :: ahead) E); by destruct todo).
    assert (forall m, advance next (Some y) (Some i) m None = (head (todo ++ [elem]), Some (i + 1)%Z, m, None)) as Hadv.
    { intros m. rewrite advance_on by done. rewrite Hn. by destruct todo. }
    rewrite number_cons. cbn [numbered]. destruct (counted y).
    + rewrite (E_step _ _ tt s (marked y (n + 1) s)) by done. rewrite bool_decide_false by done.
      erewrite (IH fuel (pre ++ [y]) (Some y) (i + 1)%Z) by (done || lia || apply Hadv). do 2 f_equal. lia.
    + erewrite (IH fuel (pre ++ [y]) (Some y) (i + 1)%Z) by (done || lia || apply Hadv). do 2 f_equal.
Qed.

(** The search from the element itself: a lap over what is ahead, then the search *)
Lemma seek_from_elem fuel s : 2 * length l < fuel ->
  seek fuel next counted note elem (Some elem) (Some 0%Z) 0%Z (head l) s =
    Some ((number behind + 1)%Z, numbered 0 (behind ++ [elem]) (numbered 0 ahead s)).
Proof using Hnext Hdup Helem.
  intros Hf. unfold l in Hf. rewrite length_app in Hf. simpl in Hf.
  apply NoDup_app in Hdup as (_ & Hb & Ha). apply NoDup_cons in Ha as [Ha _].
  rewrite (seek_lap fuel behind elem ahead) by (done || lia).
  rewrite (seek_arrives (fuel - length ahead) [] behind None 0%Z (Some 0%Z) 0%Z 0%Z); [done|done| |lia|done|].
  - intros Hin. apply (Hb elem Hin). left.
  - unfold advance. simpl. unfold l. by destruct behind.
Qed.

End lap.

(** * The answers *)

Section answers.
Context `{Unicode}.
Context {d : dom} {depth : nat -> nat} {fuel : nat} (T : tree d depth fuel).
Variables (p : nat) (before : list nat) (e : nat) (after : list nat).
Hypothesis Hchildren : children_of d p = before ++ e :: after.
Hypothesis Helem : is_element d e = true.
Variables (a b : Z).
Hypothesis Hab : (a, b) <> (1, 0)%Z.

Let elements (l : list nat) : list nat := base.filter (fun x => is_element d x = true) l.

(** The number of an element among the children, from the last one *)
Definition from_end (x : nat) : Z := position x (rev (elements (children_of d p))).

(** Is [x] an element [:nth-last-child(an+b)]? *)
Definition ask (x : nat) : E bool := filter_CHILD d fuel (js "nth-last") (js "child") (Some (a, b)) false x.

Lemma child_parent_of x : x ∈ children_of d p -> parent_of d x = Some p.
Proof using T. apply (child_parent _ _ _ T). Qed.

Lemma elements_rev l : base.filter (fun x => is_element d x = true) (rev l) = rev (elements l).
Proof using. unfold elements. rewrite !rev_is_reverse. apply filter_reverse. Qed.

Lemma rev_children : rev (children_of d p) = rev after ++ e :: rev before.
Proof using Hchildren. rewrite Hchildren, rev_app_distr. simpl. by rewrite <- app_assoc. Qed.

Lemma rev_NoDup : NoDup (rev after ++ e :: rev before).
Proof using T Hchildren. rewrite <- rev_children, rev_is_reverse, reverse_Permutation. apply (children_NoDup _ _ _ T). Qed.

Lemma from_end_split : rev (elements (children_of d p)) = rev (elements after) ++ e :: rev (elements before).
Proof using Hchildren Helem. rewrite <- !elements_rev, rev_children, filter_app, filter_cons_True by done. done. Qed.

Lemma from_end_self : from_end e = (number (is_element d) (rev after) + 1)%Z.
Proof using T Hchildren Helem.
  unfold from_end, number. rewrite from_end_split, elements_rev, position_behind, position_here; [done| |left].
  rewrite <- elements_rev. intros [_ Hin]%list_elem_of_filter. pose proof rev_NoDup as (_ & Hn & _)%NoDup_app.
  apply (Hn e Hin). left.
Qed.

Lemma from_end_before x : x ∈ before -> is_element d x = true ->
  from_end x = (from_end e + position x (rev (elements before)))%Z.
Proof using T Hchildren Helem.
  intros Hx Hex. assert (x ∈ rev (elements before)) as Hin.
  { rewrite <- elements_rev. apply list_elem_of_filter. split; [done|]. by rewrite rev_is_reverse, elem_of_reverse. }
  pose proof rev_NoDup as (_ & Hn & [He _]%NoDup_cons)%NoDup_app.
  assert (x ∈ rev before) as Hxr by (by rewrite rev_is_reverse, elem_of_reverse).
  rewrite from_end_self. unfold from_end. rewrite from_end_split, position_behind, position_cons; [|by intros ->|done| |by right].
  - unfold number. rewrite elements_rev. lia.
  - rewrite <- elements_rev. intros [_ Hxa]%list_elem_of_filter. apply (Hn x Hxa). by right.
Qed.

(** What the filter does with an element that has nothing cached, and with one that has *)
Lemma ask_seeks s : old_nth s e (js "nth-last") = None ->
  ask e s = Some (an_plus_b a b (from_end e),
    numbered (js "nth-last") (dirruns s) (is_element d) 0 (rev after ++ [e])
      (numbered (js "nth-last") (dirruns s) (is_element d) 0 (rev before) s)).
Proof using T Hchildren Helem Hab.
  intros Hold. unfold ask, filter_CHILD. rewrite child_parent_of by (rewrite Hchildren; apply elem_of_app; right; left).
  rewrite (bool_decide_false (Some (a, b) = _)) by congruence.
  change (bool_decide (take 3 (js "nth-last") = js "nth")) with true.
  change (bool_decide (substr_last (js "nth-last") 4 = js "last")) with true.
  change (bool_decide (js "child" = js "of-type")) with false. cbn [negb andb default from_option id].
  rewrite (E_step _ _ s s s) by done. rewrite Hold.
  assert (lastChild d p = head (rev after ++ e :: rev before)) as ->.
  { unfold lastChild. by rewrite <- rev_children, rev_is_reverse, head_reverse. }
  erewrite E_step; [by rewrite in_cycle_correct, from_end_self|].
  apply (seek_from_elem (previousSibling d) (js "nth-last") (dirruns s) (is_element d) e (rev after) (rev before)).
  - rewrite <- rev_children. apply (previous_in T p).
  - apply rev_NoDup.
  - done.
  - rewrite <- rev_children, length_rev. apply (children_fuel _ _ _ T).
Qed.

Lemma ask_cached x s n m : x ∈ children_of d p -> old_nth s x (js "nth-last") = Some (n, m) ->
  ask x s = Some (an_plus_b a b n, s).
Proof using T Hab.
  intros Hx Hold. unfold ask, filter_CHILD. rewrite child_parent_of by done.
  rewrite (bool_decide_false (Some (a, b) = _)) by congruence.
  change (bool_decide (take 3 (js "nth-last") = js "nth")) with true.
  change (bool_decide (substr_last (js "nth-last") 4 = js "last")) with true.
  change (bool_decide (js "child" = js "of-type")) with false. cbn [negb andb default from_option id].
  rewrite (E_step _ _ s s s) by done. rewrite Hold. rewrite (E_step _ _ n s s) by done. by rewrite in_cycle_correct.
Qed.

(** C32. The cache of [:nth-last-child] is wrong.  The search for an element begins
    with the element itself ([node = elem]), so that its first lap numbers the
    elements before it as if the last of them were the last child, and these
    numbers stay in the caches.  In every document and every state of the engine in
    which an element has no number: asked whether the element is
    [:nth-last-child(an+b)], the filter answers by its number from the end, as it
    should, but asked next about any earlier sibling it answers by the distance of the
    two, which is less than the number of the sibling from the end. *)
Theorem nth_last_child_wrong s : old_nth s e (js "nth-last") = None ->
  exists s', ask e s = Some (child_holds d (js "nth-last") (js "child") (Some (a, b)) e, s') /\
    forall x, x ∈ before -> is_element d x = true ->
      child_holds d (js "nth-last") (js "child") (Some (a, b)) x = an_plus_b a b (from_end x) /\
      ask x s' = Some (an_plus_b a b (from_end x - from_end e), s') /\ (0 < from_end x - from_end e < from_end x)%Z.
Proof using T Hchildren Helem Hab.
  intros Hold. assert (forall x, x ∈ children_of d p -> child_holds d (js "nth-last") (js "child") (Some (a, b)) x = an_plus_b a b (from_end x)) as Hch.
  { intros x Hx. unfold child_holds. rewrite child_parent_of by done.
    rewrite (bool_decide_false (Some (a, b) = _)) by congruence. done. }
  eexists. rewrite Hch by (rewrite Hchildren; apply elem_of_app; right; left). split; [by apply ask_seeks|].
  intros x Hx Hex. assert (x ∈ children_of d p) as Hxc by (rewrite Hchildren; apply elem_of_app; by left).
  split; [by apply Hch|].
  assert (x ∈ rev before) as Hxr by (by rewrite rev_is_reverse, elem_of_reverse).
  pose proof rev_NoDup as (_ & Hn & [He Hb]%NoDup_cons)%NoDup_app.
  assert (x ∈ rev (elements before)) as Hin by (rewrite <- elements_rev; by apply list_elem_of_filter).
  assert (forall l, x ∈ l -> 1 <= position x l)%Z as Hpos.
  { intros l Hl. unfold position. destruct (list_find_elem_of (fun z => z = x) l x Hl eq_refl) as [[i z] ->]. lia. }
  rewrite (from_end_before x Hx Hex). replace (from_end e + _ - from_end e)%Z with (position x (rev (elements before))) by lia.
  split.
  - apply (ask_cached x _ _ 0%Z); [done|]. unfold old_nth. rewrite !numbered_frame.
    rewrite numbered_other.
    + rewrite numbered_at by done. rewrite elements_rev. by rewrite Qeq_bool_refl.
    + intros [Hxa| ->%list_elem_of_singleton]%elem_of_app; [|done]. apply (Hn x Hxa). by right.
  - pose proof (Hpos _ Hin). rewrite from_end_self. unfold number. lia.
Qed.

End answers.

(** In a list of three items, the first one is taken for the last but one, *)
Lemma nth_last_child_wrong_witness :
  exists s', ask (d := page) (fuel := 20) 0 2 4 engine_start = Some (false, s') /\
    ask (d := page) (fuel := 20) 0 2 2 s' = Some (true, s').
Proof.
  destruct (nth_last_child_wrong (fuel := 20) page_tree 1 [2; 3] 4 [] eq_refl eq_refl 0 2 ltac:(done) engine_start)
    as (s' & E & Hx); [reflexivity|].
  exists s'. split; [exact E|]. destruct (Hx 2) as (_ & E2 & _); [left|reflexivity|]. exact E2.
Defined.

(** and [li:nth-last-child(1) ~ li.y] finds the third item, although it asks for an
    element after a last child, which no element can be. *)
Lemma nth_last_child_finds :
  exists ms n' s',
    compile (js "li:nth-last-child(1) ~ li.y") 1 = Ok (ms, n') /\
    run_compiled page 0 1 (fun _ => 1 # 2)%Q 20 ms [4] 0 false [] engine_start = Some ([4], s') /\
    select page 0 1 20 false (js "li:nth-last-child(1) ~ li.y") [4] 0 = [].
Proof.
  destruct (compile (js "li:nth-last-child(1) ~ li.y") 1) as [[ms n']|] eqn:E; [|vm_compute in E; done].
  vm_compute in E. injection E as <- <-. do 3 eexists. split; [done|]. split; [by vm_compute|by vm_compute].
Qed.

End SzNthLast.
