(* ===== verification/JqEvent.v ===== *)
(** The event handlers of [jquery.js] (lines 5099 to 5945): [on], [one] and [off],
    and [jQuery.event] with [add], [remove], [dispatch] and [handlers].

    The store holds what the library keeps on elements (its lists of handlers and
    the listener it registers) and on functions (their [guid]), and the listeners
    the browser knows.  Handlers of the page are an argument [call]: they get the
    element, the event and the store, may change both and call the library again,
    and may throw.

    Left out: handler objects in place of functions, which only [leverageNative]
    passes, and therefore [focus], [blur] and the clicks of check boxes and radio
    buttons, whose [setup] calls it: [add] answers [OutOfModel] for them, and [remove]
    does so for namespaces with characters that are special in a regular expression;
    [trigger], [fix] and the answer of [beforeunload] handlers to the browser; and
    special events that the page defines. *)

From S2P Require Import Prelude Regex JqParam JqCallbacks SzTokens SzMatch.

Module JqEvent.

(** * Types and namespaces *)

(** What is before the first dot, and what is after it. *)
Definition rtypenamespace : pattern :=
  {| p_groups := 2; p_re :=
       RSeq RBol (RSeq (RGroup 1 (RStar true (RNoneOf (js "."))))
         (RAlt (RSeq (RChar (chr ".")) (RGroup 2 (RPlus true RDot))) REps)) |}.

Definition dot : N := chr ".".

(** [names.sort()] *)
Fixpoint insert_name (n : jstr) (l : list jstr) : list jstr :=
  match l with
  | [] => [n]
  | m :: l' => match str_compare n m with Gt => m :: insert_name n l' | _ => n :: l end
  end.
Definition sort_names (l : list jstr) : list jstr := foldr insert_name [] l.

(** The type of ["click.a.b"] and its namespaces. *)
Definition parse_type (s : jstr) : jstr * option jstr * list jstr :=
  match exec rtypenamespace s with
  | Some r =>
      let rest := group s r 2 in
      (group_or_empty s r 1, rest, sort_names (split_char dot (default [] rest)))
  | None => ([], None, [[]])
  end.

(** The expression [new RegExp("(^|\\.)" + namespaces.join("\\.(?:.*\\.|)") + "(\\.|$)")]:
    for the names [a] and [b] it is [/(^|\.)a\.(?:.*\.|)b(\.|$)/].  The names are
    pasted as they are, so one with a character that has a meaning in an expression
    is not read as itself; for such names there is no expression in the model, and
    [remove] and [trigger] answer [OutOfModel]. *)
Definition plain_name (n : jstr) : bool := forallb (fun c => negb (bool_decide (c ∈ js "^$\.*+?()[]{}|/"))) n.
Definition name_regex (n : jstr) : option regex := if plain_name n then Some (RLit n) else None.
Definition between : regex := RSeq (RChar dot) (RAlt (RSeq (RStar true RDot) (RChar dot)) REps).
Fixpoint names_regex (names : list jstr) : option regex :=
  match names with
  | [] => Some REps
  | [n] => name_regex n
  | n :: ns =>
      match name_regex n, names_regex ns with
      | Some r, Some rs => Some (RSeq r (RSeq between rs))
      | _, _ => None
      end
  end.
Definition namespace_pattern (names : list jstr) : option pattern :=
  match names_regex names with
  | Some r =>
      Some {| p_groups := 2;
              p_re := RSeq (RGroup 1 (RAlt RBol (RChar dot))) (RSeq r (RGroup 2 (RAlt (RChar dot) REol))) |}
  | None => None
  end.

(** The test of a namespace, once the expression has been built *)
Definition names_test (names : list jstr) (namespace : jstr) : bool :=
  match namespace_pattern names with Some p => test p namespace | None => false end.

(** ** Special events *)

Record special := { delegateType : option jstr; bindType : option jstr }.

Definition over_out : list (jstr * jstr) :=
  [(js "mouseenter", js "mouseover"); (js "mouseleave", js "mouseout");
   (js "pointerenter", js "pointerover"); (js "pointerleave", js "pointerout")].

Definition special_of (type : jstr) : special :=
  match assoc type over_out with
  | Some fix_ => {| delegateType := Some fix_; bindType := Some fix_ |}
  | None =>
      {| delegateType := assoc type [(js "focus", js "focusin"); (js "blur", js "focusout")]; bindType := None |}
  end.

Definition truthy_sel (selector : option jstr) : bool :=
  match selector with Some (_ :: _) => true | _ => false end.

(** [(selector ? special.delegateType : special.bindType) || type] *)
Definition mapped_type (selector : option jstr) (type : jstr) : jstr :=
  default type ((if truthy_sel selector then delegateType else bindType) (special_of type)).

(** * The store *)

(** Functions that can be handlers: those of the page, the wrappers [one] makes
    and [returnFalse]. *)
Inductive fn := FUser (n : nat) | FOne (n : nat) | FFalse.

#[global] Instance fn_eq_dec : EqDecision fn.
Proof. solve_decision. Defined.
#[global] Program Instance fn_countable : Countable fn :=
  inj_countable' (fun f => match f with FUser n => inl n | FOne n => inr (inl n) | FFalse => inr (inr tt) end)
    (fun c => match c with inl n => FUser n | inr (inl n) => FOne n | inr (inr _) => FFalse end) _.
Next Obligation. by intros []. Qed.

(** Arguments of any type; [ArgNone] is missing, undefined or null. *)
Inductive arg := ArgNone | ArgStr (s : jstr) | ArgFn (f : fn) | ArgFalse | ArgData (n : nat).

(** [x == null] *)
Definition missing (a : arg) : bool := match a with ArgNone => true | _ => false end.

Record handleObj := {
  h_type : jstr;
  origType : jstr;
  h_data : arg;
  handler : fn;
  h_guid : nat;
  selector : option jstr;
  needsContext : bool;
  namespace : jstr;
}.

Record hlist := { objs : list handleObj; delegateCount : nat }.

(** [elemData.events] and [elemData.handle] *)
Record edata := { events : option (list (jstr * hlist)); handle : option nat }.

(** What [trigger] does: it visits a node with the event of a type, and does the default
    action of an element. *)
Inductive step := SVisit (e : nat) (type : jstr) | SDefault (e : nat) (type : jstr).

#[global] Instance step_eq_dec : EqDecision step.
Proof. solve_decision. Defined.

(** What the library and the browser share besides: the handlers in attributes and
    properties like [onclick], [jQuery.event.triggered], the listeners that stop the
    propagation, and the steps so far *)
Record nstate := {
  inline : gmap (nat * jstr) nat;
  triggered : option jstr;
  stops : gset (nat * jstr);
  steps : list step;
}.

Record store := {
  data_of : gmap nat edata;
  guids : gmap fn nat;
  guid : nat;                             (** [jQuery.guid] *)
  wrapped : gmap nat fn;                  (** the functions in the wrappers of [one] *)
  fresh : nat;                            (** functions made so far *)
  listeners : gset (nat * jstr * nat);    (** element, type, main handler *)
  global : gset jstr;
  calls : list (fn * nat);                (** the functions called so far, with their [this] *)
  native : nstate;
}.

Definition store_start : store :=
  {| data_of := ∅; guids := ∅; guid := 1; wrapped := ∅; fresh := 0; listeners := ∅; global := ∅; calls := [];
     native := {| inline := ∅; triggered := None; stops := ∅; steps := [] |} |}.

Definition set_data (e : nat) (x : edata) (s : store) : store :=
  {| data_of := <[e := x]> (data_of s); guids := guids s; guid := guid s; wrapped := wrapped s; fresh := fresh s;
     listeners := listeners s; global := global s; calls := calls s; native := native s |}.
Definition set_listeners (l : gset (nat * jstr * nat)) (s : store) : store :=
  {| data_of := data_of s; guids := guids s; guid := guid s; wrapped := wrapped s; fresh := fresh s;
     listeners := l; global := global s; calls := calls s; native := native s |}.
Definition set_global (g : gset jstr) (s : store) : store :=
  {| data_of := data_of s; guids := guids s; guid := guid s; wrapped := wrapped s; fresh := fresh s;
     listeners := listeners s; global := g; calls := calls s; native := native s |}.
Definition set_fresh (n : nat) (s : store) : store :=
  {| data_of := data_of s; guids := guids s; guid := guid s; wrapped := wrapped s; fresh := n;
     listeners := listeners s; global := global s; calls := calls s; native := native s |}.
Definition set_wrapped (n : nat) (f : fn) (s : store) : store :=
  {| data_of := data_of s; guids := guids s; guid := guid s; wrapped := <[n := f]> (wrapped s); fresh := fresh s;
     listeners := listeners s; global := global s; calls := calls s; native := native s |}.
Definition set_guid (f : fn) (g : nat) (s : store) : store :=
  {| data_of := data_of s; guids := <[f := g]> (guids s); guid := guid s; wrapped := wrapped s; fresh := fresh s;
     listeners := listeners s; global := global s; calls := calls s; native := native s |}.
Definition set_counter (g : nat) (s : store) : store :=
  {| data_of := data_of s; guids := guids s; guid := g; wrapped := wrapped s; fresh := fresh s;
     listeners := listeners s; global := global s; calls := calls s; native := native s |}.

Definition log_call (f : fn) (e : nat) (s : store) : store :=
  {| data_of := data_of s; guids := guids s; guid := guid s; wrapped := wrapped s; fresh := fresh s;
     listeners := listeners s; global := global s; calls := calls s ++ [(f, e)]; native := native s |}.

Definition set_native (n : nstate) (s : store) : store :=
  {| data_of := data_of s; guids := guids s; guid := guid s; wrapped := wrapped s; fresh := fresh s;
     listeners := listeners s; global := global s; calls := calls s; native := n |}.

Definition data_at (e : nat) (s : store) : edata := default {| events := None; handle := None |} (data_of s !! e).
Definition events_at (e : nat) (s : store) : list (jstr * hlist) := default [] (events (data_at e s)).
Definition handlers_at (e : nat) (type : jstr) (s : store) : hlist :=
  default {| objs := []; delegateCount := 0 |} (assoc type (events_at e s)).

(** [if (!fn.guid) fn.guid = jQuery.guid++] *)
Definition ensure_guid (f : fn) (s : store) : nat * store :=
  match guids s !! f with
  | Some g => (g, s)
  | None => (guid s, set_counter (S (guid s)) (set_guid f (guid s) s))
  end.

(** Results with the store that is left, also after an exception. *)
Abbreviation outcome A := (res A * store)%type.



(** * Attaching and detaching *)

(** [needsContext]; the look-ahead at its end consumes a character here, which
    makes no difference to a test. *)
Definition needsContext_pattern : pattern :=
  {| p_groups := 2; p_re :=
       RAlt (RSeq RBol (RSeq SzTokens.whites (ROneOf (js ">+~"))))
         (RSeq (RChar (chr ":"))
           (RSeq (RGroup 1 (SzTokens.RAltsI ["even"; "odd"; "eq"; "gt"; "lt"; "nth"; "first"; "last"]))
             (RSeq
               (RAlt
                 (RSeq (RChar (chr "("))
                   (RSeq SzTokens.whites
                     (RSeq (RGroup 2 (RSeq (ROpt true (RSeq (RChar (chr "-")) SzTokens.digit)) (RStar true SzTokens.digit)))
                       (RSeq SzTokens.whites (RChar (chr ")"))))))
                 REps)
               (RAlt (RNoneOf (js "-")) REol)))) |}.

(** [(types || "").match(rnothtmlwhite) || [""]] *)
Definition type_tokens (types : jstr) : list jstr :=
  match JqCallbacks.not_white types with [] => [[]] | ts => ts end.

Definition put_handlers (e : nat) (type : jstr) (l : hlist) (s : store) : store :=
  set_data e {| events := Some (assoc_set type l (events_at e s)); handle := handle (data_at e s) |} s.

(** [delete events[type]] *)
Definition delete_type (e : nat) (type : jstr) (s : store) : store :=
  set_data e {| events := base.filter (fun p => p.1 <> type) <$> events (data_at e s); handle := handle (data_at e s) |} s.

(** [dataPriv.remove(elem, "handle events")] *)
Definition forget (e : nat) (s : store) : store := set_data e {| events := None; handle := None |} s.

(** Delegates in front *)
Definition insert_handler (h : handleObj) (l : hlist) : hlist :=
  if truthy_sel (selector h)
  then {| objs := take (delegateCount l) (objs l) ++ h :: drop (delegateCount l) (objs l);
          delegateCount := S (delegateCount l) |}
  else {| objs := objs l ++ [h]; delegateCount := delegateCount l |}.

Section events.
Variable d : gmap nat SzMatch.node.

(** [jQuery.find.matchesSelector(documentElement, selector)], for its exceptions *)
Variable check_selector : jstr -> res unit.

Definition acceptData (e : nat) : bool :=
  match d !! e with Some x => N.eqb (SzMatch.nodeType x) 1 || N.eqb (SzMatch.nodeType x) 9 | None => true end.

(** Does [setup] call [leverageNative]? *)
Definition leveraged (e : nat) (type : jstr) : bool :=
  bool_decide (type = js "focus") || bool_decide (type = js "blur") ||
  (bool_decide (type = js "click") &&
   JqParam.rcheckableType (default [] (d !! e ≫= SzMatch.type)) &&
   bool_decide (ascii_lower <$> SzMatch.name_of d e = js "input")).

(** One round of the loop of [add]. *)
Definition add_type (e : nat) (f : fn) (g : nat) (data : arg) (sel : option jstr) (tok : jstr) (s : store)
  : outcome unit :=
  let '(orig, _, names) := parse_type tok in
  match orig with
  | [] => (Ok tt, s)
  | _ =>
      let type := mapped_type sel orig in
      let h := {| h_type := type; origType := orig; h_data := data; handler := f; h_guid := g; selector := sel;
                  needsContext := truthy_sel sel && test needsContext_pattern (default [] sel);
                  namespace := join (js ".") names |} in
      match assoc type (events_at e s) with
      | Some l => (Ok tt, set_global ({[type]} ∪ global s) (put_handlers e type (insert_handler h l) s))
      | None =>
          if leveraged e type then (Throw (OutOfModel (js "leverageNative")), s)
          else
            let s1 := match handle (data_at e s) with
                      | Some n => set_listeners ({[(e, type, n)]} ∪ listeners s) s
                      | None => s
                      end in
            (Ok tt, set_global ({[type]} ∪ global s1)
                      (put_handlers e type (insert_handler h {| objs := []; delegateCount := 0 |}) s1))
      end
  end.

Fixpoint add_types (e : nat) (f : fn) (g : nat) (data : arg) (sel : option jstr) (toks : list jstr) (s : store)
  : outcome unit :=
  match toks with
  | [] => (Ok tt, s)
  | tok :: toks' =>
      match add_type e f g data sel tok s with
      | (Ok _, s') => add_types e f g data sel toks' s'
      | (Throw x, s') => (Throw x, s')
      end
  end.

(** The event structure and the main handler of an element *)
Definition init_events (e : nat) (s : store) : store :=
  let s1 := match events (data_at e s) with
            | Some _ => s
            | None => set_data e {| events := Some []; handle := handle (data_at e s) |} s
            end in
  match handle (data_at e s1) with
  | Some _ => s1
  | None => set_fresh (S (fresh s1)) (set_data e {| events := events (data_at e s1); handle := Some (fresh s1) |} s1)
  end.

(** [jQuery.event.add(elem, types, handler, data, selector)]; the loop runs from
    the last type to the first one. *)
Definition add (e : nat) (types : jstr) (f : fn) (data : arg) (sel : option jstr) (s : store) : outcome unit :=
  if negb (acceptData e) then (Ok tt, s)
  else
    match (if truthy_sel sel then check_selector (default [] sel) else Ok tt) with
    | Throw x => (Throw x, s)
    | Ok _ =>
        let '(g, s1) := ensure_guid f s in
        add_types e f g data sel (rev (type_tokens types)) (init_events e s1)
    end.

(** The condition under which [remove] takes out a handler. *)
Definition removed_by (mapped : bool) (orig : jstr) (g : option nat) (rest : option jstr) (names : list jstr)
    (sel : option jstr) (h : handleObj) : bool :=
  (mapped || bool_decide (orig = origType h)) &&
  match g with None => true | Some g => Nat.eqb g (h_guid h) end &&
  match rest with Some (_ :: _) => names_test names (namespace h) | _ => true end &&
  (negb (truthy_sel sel) || bool_decide (sel = selector h) || (bool_decide (sel = Some (js "**")) && truthy_sel (selector h))).

(** [while (j--)]: the handlers below [j] *)
Fixpoint remove_loop (p : handleObj -> bool) (j : nat) (l : hlist) : hlist :=
  match j with
  | O => l
  | S j' =>
      match objs l !! j' with
      | Some h =>
          remove_loop p j'
            (if p h
             then {| objs := take j' (objs l) ++ drop (S j') (objs l);
                     delegateCount := if truthy_sel (selector h) then delegateCount l - 1 else delegateCount l |}
             else l)
      | None => remove_loop p j' l
      end
  end.

(** The handler to remove: none stands for all of them; a function without a guid
    is on no list, and [undefined === handleObj.guid] never holds. *)
Definition guid_of (f : option fn) (s : store) : option (option nat) :=
  match f with None => None | Some f => Some (guids s !! f) end.

(** The round of the loop of [remove] for a type. *)
Definition remove_type (e : nat) (mapped : bool) (f : option fn) (sel : option jstr) (orig : jstr) (rest : option jstr)
    (names : list jstr) (s : store) : outcome unit :=
  let type := mapped_type sel orig in
  let l := handlers_at e type s in
  if match rest with Some (_ :: _) => bool_decide (is_Some (namespace_pattern names)) | _ => true end then
    let p h := match guid_of f s with
               | Some None => false
               | Some (Some g) => removed_by mapped orig (Some g) rest names sel h
               | None => removed_by mapped orig None rest names sel h
               end in
    let l' := remove_loop p (length (objs l)) l in
    let s1 := match assoc type (events_at e s) with Some _ => put_handlers e type l' s | None => s end in
    (Ok tt,
     match objs l, objs l' with
     | _ :: _, [] =>
         delete_type e type
           match handle (data_at e s1) with
           | Some n => set_listeners (listeners s1 ∖ {[(e, type, n)]}) s1
           | None => s1
           end
     | _, _ => s1
     end)
  else (Throw (OutOfModel (js "namespace")), s).

(** [if (jQuery.isEmptyObject(events)) dataPriv.remove(...)] *)
Definition tidy_up (e : nat) (s : store) : store := match events_at e s with [] => forget e s | _ => s end.

(** [jQuery.event.remove(elem, type + types[t], handler, selector, true)], which
    goes through [types] with its single entry *)
Definition remove_key (e : nat) (f : option fn) (sel : option jstr) (tok key : jstr) (s : store) : outcome unit :=
  match events (data_at e s) with
  | None => (Ok tt, s)
  | Some _ =>
      let '(orig, rest, names) := parse_type (key ++ tok) in
      match remove_type e true f sel orig rest names s with
      | (Ok _, s') => (Ok tt, tidy_up e s')
      | x => x
      end
  end.

(** [for (type in events)], over the keys there at its beginning: a key that has
    been deleted has no handlers *)
Fixpoint remove_keys (e : nat) (f : option fn) (sel : option jstr) (tok : jstr) (keys : list jstr) (s : store)
  : outcome unit :=
  match keys with
  | [] => (Ok tt, s)
  | k :: ks =>
      match remove_key e f sel tok k s with
      | (Ok _, s') => remove_keys e f sel tok ks s'
      | x => x
      end
  end.

Fixpoint remove_types (e : nat) (f : option fn) (sel : option jstr) (toks : list jstr) (s : store) : outcome unit :=
  match toks with
  | [] => (Ok tt, s)
  | tok :: toks' =>
      let '(orig, rest, names) := parse_type tok in
      match (match orig with
             | [] => remove_keys e f sel tok (events_at e s).*1 s
             | _ => remove_type e false f sel orig rest names s
             end) with
      | (Ok _, s') => remove_types e f sel toks' s'
      | x => x
      end
  end.

(** [jQuery.event.remove(elem, types, handler, selector)] *)
Definition remove (e : nat) (types : jstr) (f : option fn) (sel : option jstr) (s : store) : outcome unit :=
  match events (data_at e s) with
  | None => (Ok tt, s)
  | Some _ =>
      match remove_types e f sel (rev (type_tokens types)) s with
      | (Ok _, s') => (Ok tt, tidy_up e s')
      | x => x
      end
  end.

End events.

(** * Events *)

(** What a handler answers. *)
Inductive answer := AUndef | AFalse | AOther (n : nat).

(** The properties of a [jQuery.Event] that the library reads or writes. *)
Record event := {
  e_type : jstr;
  target : nat;
  button : option Z;
  relatedTarget : option nat;
  rnamespace : option (list jstr);
  currentTarget : option nat;
  delegateTarget : option nat;
  e_handleObj : option handleObj;
  e_data : arg;
  result : answer;
  defaultPrevented : bool;
  propagationStopped : bool;
  immediateStopped : bool;
}.

Definition set_type (t : jstr) (ev : event) : event :=
  {| e_type := t; target := target ev; button := button ev; relatedTarget := relatedTarget ev;
     rnamespace := rnamespace ev; currentTarget := currentTarget ev; delegateTarget := delegateTarget ev;
     e_handleObj := e_handleObj ev; e_data := e_data ev; result := result ev;
     defaultPrevented := defaultPrevented ev; propagationStopped := propagationStopped ev;
     immediateStopped := immediateStopped ev |}.
Definition set_current (e : nat) (ev : event) : event :=
  {| e_type := e_type ev; target := target ev; button := button ev; relatedTarget := relatedTarget ev;
     rnamespace := rnamespace ev; currentTarget := Some e; delegateTarget := delegateTarget ev;
     e_handleObj := e_handleObj ev; e_data := e_data ev; result := result ev;
     defaultPrevented := defaultPrevented ev; propagationStopped := propagationStopped ev;
     immediateStopped := immediateStopped ev |}.
Definition set_delegateTarget (e : nat) (ev : event) : event :=
  {| e_type := e_type ev; target := target ev; button := button ev; relatedTarget := relatedTarget ev;
     rnamespace := rnamespace ev; currentTarget := currentTarget ev; delegateTarget := Some e;
     e_handleObj := e_handleObj ev; e_data := e_data ev; result := result ev;
     defaultPrevented := defaultPrevented ev; propagationStopped := propagationStopped ev;
     immediateStopped := immediateStopped ev |}.
Definition set_handleObj (h : handleObj) (ev : event) : event :=
  {| e_type := e_type ev; target := target ev; button := button ev; relatedTarget := relatedTarget ev;
     rnamespace := rnamespace ev; currentTarget := currentTarget ev; delegateTarget := delegateTarget ev;
     e_handleObj := Some h; e_data := h_data h; result := result ev;
     defaultPrevented := defaultPrevented ev; propagationStopped := propagationStopped ev;
     immediateStopped := immediateStopped ev |}.

(** [event.result = ret], and for false [preventDefault] and [stopPropagation] *)
Definition take_answer (a : answer) (ev : event) : event :=
  match a with
  | AUndef => ev
  | _ =>
      let no := match a with AFalse => true | _ => false end in
      {| e_type := e_type ev; target := target ev; button := button ev; relatedTarget := relatedTarget ev;
         rnamespace := rnamespace ev; currentTarget := currentTarget ev; delegateTarget := delegateTarget ev;
         e_handleObj := e_handleObj ev; e_data := e_data ev; result := a;
         defaultPrevented := no || defaultPrevented ev; propagationStopped := no || propagationStopped ev;
         immediateStopped := immediateStopped ev |}
  end.

(** * Dispatching *)

Section dispatch.
Variable d : gmap nat SzMatch.node.
Variable fuel : nat.

(** Does the selector, with the space behind it, match [cur] below [this]?  For a
    selector that needs its context by [jQuery(sel, this).index(cur)], otherwise by
    [jQuery.find(sel, this, null, [cur])]. *)
Variable find_one : bool -> jstr -> nat -> nat -> bool.

(** The inner loop of [handlers], over the delegated handlers, with the answers for
    the selectors met before. *)
Fixpoint matched_handlers (this cur : nat) (hs : list handleObj) (matchedSelectors : list (jstr * bool))
  : list handleObj :=
  match hs with
  | [] => []
  | h :: hs' =>
      let sel := default (js "undefined") (selector h) ++ js " " in
      let b := match assoc sel matchedSelectors with
               | Some b => b
               | None => find_one (needsContext h) sel this cur
               end in
      let rest := matched_handlers this cur hs' (assoc_set sel b matchedSelectors) in
      if b then h :: rest else rest
  end.

(** The loop from the target up to the element of the listener. *)
Fixpoint delegates (fuel : nat) (this cur : nat) (ev : event) (hs : list handleObj)
  : res (list (nat * list handleObj)) :=
  if bool_decide (cur = this) then Ok []
  else
    match fuel with
    | O => Throw (OutOfModel (js "fuel"))
    | S fuel' =>
        do rest <- delegates fuel' this (default this (SzMatch.parent_of d cur)) ev hs;
        Ok (if SzMatch.is_element d cur
               && negb (bool_decide (e_type ev = js "click") && bool_decide (d !! cur ≫= SzMatch.disabled = Some true))
            then match matched_handlers this cur hs [] with
                 | [] => rest
                 | ms => (cur, ms) :: rest
                 end
            else rest)
    end.

(** [jQuery.event.handlers.call(this, event, handlers)] *)
Definition handlers (this : nat) (ev : event) (l : hlist) : res (list (nat * list handleObj)) :=
  do handlerQueue <-
    (if negb (Nat.eqb (delegateCount l) 0)
        && match d !! target ev with Some x => negb (N.eqb (SzMatch.nodeType x) 0) | None => false end
        && negb (bool_decide (e_type ev = js "click") && match button ev with Some b => Z.leb 1 b | None => false end)
     then delegates fuel this (target ev) ev (take (delegateCount l) (objs l))
     else Ok []);
  Ok (if Nat.ltb (delegateCount l) (length (objs l))
      then handlerQueue ++ [(this, drop (delegateCount l) (objs l))]
      else handlerQueue).

(** [jQuery.contains(target, related)] *)
Fixpoint contains (fuel : nat) (a b : nat) : bool :=
  match fuel with
  | O => false
  | S fuel' =>
      match SzMatch.parent_of d b with Some p => bool_decide (p = a) || contains fuel' a p | None => false end
  end.

(** The code of the page: it gets the element and the event. *)
Variable call : nat -> nat -> event -> store -> outcome (answer * event).

(** [jQuery().off(event)] *)
Definition off_event (ev : event) (s : store) : outcome unit :=
  match e_handleObj ev, delegateTarget ev with
  | Some h, Some e =>
      remove e (match namespace h with [] => origType h | _ => origType h ++ js "." ++ namespace h end)
        (Some (handler h)) (selector h) s
  | _, _ => (Ok tt, s)
  end.

(** A handler called with [this] and the event.  A wrapper of [one] was made after
    the function in it, so that the fuel is enough. *)
Fixpoint apply_fn (fuel : nat) (f : fn) (elem : nat) (ev : event) (s : store) : outcome (answer * event) :=
  match f with
  | FUser n => call n elem ev (log_call f elem s)
  | FFalse => (Ok (AFalse, ev), log_call f elem s)
  | FOne n =>
      match fuel with
      | O => (Throw (OutOfModel (js "fuel")), s)
      | S fuel' =>
          match off_event ev s with
          | (Ok _, s') => apply_fn fuel' (default FFalse (wrapped s' !! n)) elem ev s'
          | (Throw x, s') => (Throw x, s')
          end
      end
  end.

(** [(special[handleObj.origType].handle || handleObj.handler).apply(elem, args)] *)
Definition invoke (h : handleObj) (elem : nat) (ev : event) (s : store) : outcome (answer * event) :=
  match assoc (origType h) over_out with
  | None => apply_fn (2 + fresh s) (handler h) elem ev s
  | Some fix_ =>
      if match relatedTarget ev with
         | None => true
         | Some related => negb (bool_decide (related = elem)) && negb (contains fuel elem related)
         end
      then
        match apply_fn (2 + fresh s) (handler h) elem (set_type (origType h) ev) s with
        | (Ok (a, ev'), s') => (Ok (a, set_type fix_ ev'), s')
        | x => x
        end
      else (Ok (AUndef, ev), s)
  end.

(** [!event.rnamespace || event.rnamespace.test(handleObj.namespace)] *)
Definition in_namespace (ev : event) (h : handleObj) : bool :=
  match rnamespace ev with None => true | Some names => names_test names (namespace h) end.

(** The handlers of one element *)
Fixpoint run_handlers (elem : nat) (hs : list handleObj) (ev : event) (s : store) : outcome event :=
  match hs with
  | [] => (Ok ev, s)
  | h :: hs' =>
      if immediateStopped ev then (Ok ev, s)
      else if in_namespace ev h then
        match invoke h elem (set_handleObj h ev) s with
        | (Ok (a, ev'), s') => run_handlers elem hs' (take_answer a ev') s'
        | (Throw x, s') => (Throw x, s')
        end
      else run_handlers elem hs' ev s
  end.

Fixpoint run_queue (handlerQueue : list (nat * list handleObj)) (ev : event) (s : store) : outcome event :=
  match handlerQueue with
  | [] => (Ok ev, s)
  | (elem, hs) :: queue' =>
      if propagationStopped ev then (Ok ev, s)
      else
        match run_handlers elem hs (set_current elem ev) s with
        | (Ok ev', s') => run_queue queue' ev' s'
        | x => x
        end
  end.

(** [jQuery.event.dispatch.call(this, event)]: the event afterwards, with its result *)
Definition dispatch (this : nat) (ev : event) (s : store) : outcome event :=
  let ev := set_delegateTarget this ev in
  match handlers this ev (handlers_at this (e_type ev) s) with
  | Ok handlerQueue => run_queue handlerQueue ev s
  | Throw x => (Throw x, s)
  end.

End dispatch.

(** * [on], [one], [off] *)

(** The selector, the data and the function that [on] makes of its arguments. *)
Definition on_arguments (sel data f : arg) : arg * arg * arg :=
  if missing data && missing f then (ArgNone, ArgNone, sel)
  else if missing f then
    match sel with
    | ArgStr _ => (sel, ArgNone, data)
    | _ => (ArgNone, sel, data)
    end
  else (sel, data, f).

Definition as_selector (a : arg) : option jstr := match a with ArgStr s => Some s | _ => None end.

(** The wrapper that [one] puts around a handler, with the [guid] of the handler. *)
Definition wrap_one (f : fn) (s : store) : fn * store :=
  let n := fresh s in
  let '(g, s1) := ensure_guid f (set_wrapped n f (set_fresh (S n) s)) in
  (FOne n, set_guid (FOne n) g s1).

Section methods.
Variable d : gmap nat SzMatch.node.
Variable check_selector : jstr -> res unit.

(** [elem.each(...)] *)
Fixpoint on_each (elems : list nat) (types : jstr) (f : fn) (data : arg) (sel : option jstr) (s : store)
  : outcome unit :=
  match elems with
  | [] => (Ok tt, s)
  | e :: es =>
      match add d check_selector e types f data sel s with
      | (Ok _, s') => on_each es types f data sel s'
      | x => x
      end
  end.

(** [on(elem, types, selector, data, fn, one)] for a string of types *)
Definition on (elems : list nat) (types : jstr) (selector data f : arg) (one : bool) (s : store) : outcome unit :=
  let '(selector, data, f) := on_arguments selector data f in
  let bind f :=
    let '(f, s) := if one then wrap_one f s else (f, s) in
    on_each elems types f data (as_selector selector) s in
  match f, selector with
  | (ArgNone | ArgStr []), _ => (Ok tt, s)
  | ArgFalse, (ArgNone | ArgFalse | ArgStr _) => bind FFalse
  | ArgFn f, (ArgNone | ArgFalse | ArgStr _) => bind f
  | _, _ => (Throw (OutOfModel (js "handler or selector")), s)
  end.

Fixpoint off_each (elems : list nat) (types : jstr) (f : option fn) (sel : option jstr) (s : store) : outcome unit :=
  match elems with
  | [] => (Ok tt, s)
  | e :: es =>
      match remove e types f sel s with
      | (Ok _, s') => off_each es types f sel s'
      | x => x
      end
  end.

(** [off(types, selector, fn)] for a string of types *)
Definition off (elems : list nat) (types : jstr) (selector f : arg) (s : store) : outcome unit :=
  let '(selector, f) := match selector with
                        | ArgFalse | ArgFn _ => (ArgNone, selector)
                        | _ => (selector, f)
                        end in
  match f with
  | ArgNone => off_each elems types None (as_selector selector) s
  | ArgFalse => off_each elems types (Some FFalse) (as_selector selector) s
  | ArgFn f => off_each elems types (Some f) (as_selector selector) s
  | _ => (Throw (OutOfModel (js "handler")), s)
  end.

End methods.

End JqEvent.
