(* ===== verification/JqNamespace.v ===== *)
(** The namespaces of event types in [jquery.js]: what [parse_type] reads, and what
    the regular expression decides that [remove] and [trigger] build from a list of
    names without special characters. *)

From Stdlib Require Import Sorted.
From S2P Require Import Prelude Regex JqEvent.
Import JqEvent.

Module JqNamespace.

(** * The expression and the parts of a string *)

Definition no_terminator (s : jstr) : Prop := Forall (fun c => is_line_terminator c = false) s.

(** The names, in order, fit the beginning of [u], and [v] is left. *)
Fixpoint fits (names : list jstr) (u v : jstr) : Prop :=
  match names with
  | [] => u = v
  | [n] => u = n ++ v
  | n :: ns =>
      exists w w', u = n ++ dot :: w /\ (w = w' \/ exists x, no_terminator x /\ w = x ++ dot :: w') /\ fits ns w' v
  end.

Lemma drop_slice (s : jstr) i j : i <= j -> drop i s = slice s i j ++ drop j s.
Proof.
  intros H. unfold slice. rewrite <- (take_drop (j - i) (drop i s)) at 1. f_equal.
  rewrite drop_drop. f_equal. lia.
Qed.

Lemma rmatch_char s x i c j c' : rmatch s (RChar x) i c j c' -> c' = c /\ j = S i /\ drop i s = x :: drop (S i) s.
Proof.
  unfold RChar. inversion 1; subst.
  match goal with H : N.eqb _ _ = true |- _ => apply N.eqb_eq in H as -> end. split_and!; [done..|]. by apply drop_S.
Qed.

(** There is an expression for names without special characters. *)
Lemma name_regex_Some n r : name_regex n = Some r <-> plain_name n = true /\ r = RLit n.
Proof. unfold name_regex. destruct (plain_name n); naive_solver. Qed.

Lemma names_regex_cons n m ns r : names_regex (n :: m :: ns) = Some r <->
  plain_name n = true /\ exists rs, names_regex (m :: ns) = Some rs /\ r = RSeq (RLit n) (RSeq between rs).
Proof.
  cbn [names_regex]. unfold name_regex at 1. destruct (plain_name n); [|naive_solver].
  destruct (match ns with [] => _ | _ => _ end); naive_solver.
Qed.

Lemma names_regex_plain names : Forall (fun n => plain_name n = true) names -> exists r, names_regex names = Some r.
Proof.
  induction 1 as [|n ns Hn _ [r IH]]; [by exists REps|]. destruct ns as [|m ns].
  - exists (RLit n). by apply name_regex_Some.
  - eexists. apply names_regex_cons. eauto.
Qed.

Lemma plain_undotted n : plain_name n = true -> dot ∉ n.
Proof. unfold plain_name. rewrite forallb_forall. intros H Hd%list_elem_of_In%H. by vm_compute in Hd. Qed.

Lemma names_sound s names r i c j c' : names_regex names = Some r -> rmatch s r i c j c' -> i <= length s ->
  c' = c /\ fits names (drop i s) (drop j s).
Proof.
  revert r i c. induction names as [|n [|m ns] IH]; intros r i c Er Hm Hi.
  - injection Er as <-. inversion Hm; by subst.
  - apply name_regex_Some in Er as [_ ->]. apply rmatch_lit in Hm as (-> & Hs & ->); [|done]. split; [done|]. simpl.
    rewrite (drop_slice s i (i + length n)) by lia. by rewrite Hs.
  - apply names_regex_cons in Er as (_ & rs & Ers & ->). inversion Hm as [| |? ? ? ? j1 c1 ? ? Hn Hr| | | | | | | | | | | | |]; subst.
    apply rmatch_lit in Hn as (-> & Hs & ->); [|done].
    inversion Hr as [| |? ? ? ? j2 c2 ? ? Hb Hns| | | | | | | | | | | | |]; subst.
    unfold between in Hb. inversion Hb as [| |? ? ? ? j3 c3 ? ? Hd Ha| | | | | | | | | | | | |]; subst.
    apply rmatch_char in Hd as (-> & -> & Hd).
    pose proof (f_equal length Hd) as Hlen. rewrite !length_drop in Hlen. simpl in Hlen. rewrite length_drop in Hlen.
    assert (Hu : drop i s = n ++ dot :: drop (S (i + length n)) s).
    { rewrite (drop_slice s i (i + length n)) by lia. by rewrite Hs, Hd. }
    inversion Ha as [| | |? ? ? ? ? ? Hx|? ? ? ? ? ? Hx| | | | | | | | | | |]; subst.
    + inversion Hx as [| |? ? ? ? j4 c4 ? ? Hst Hd'| | | | | | | | | | | | |]; subst.
      pose proof (rmatch_bounds _ _ _ _ _ _ Hst ltac:(lia)) as Hb4.
      apply rmatch_star_class in Hst as [-> Hf]; [|lia]. apply rmatch_char in Hd' as (-> & -> & Hd').
      pose proof (f_equal length Hd') as Hlen'. rewrite !length_drop in Hlen'. simpl in Hlen'. rewrite length_drop in Hlen'.
      apply (IH rs) in Hns as [-> Hns]; [|done|lia]. split; [done|]. exists (drop (S (i + length n)) s), (drop (S j4) s).
      split; [done|]. split; [|done]. right. exists (slice s (S (i + length n)) j4). split.
      * unfold no_terminator. eapply Forall_impl; [done|]. intros y Hy. by apply negb_true_iff in Hy.
      * rewrite (drop_slice s _ j4) by lia. by rewrite Hd'.
    + inversion Hx; subst. apply (IH rs) in Hns as [-> Hns]; [|done|lia]. split; [done|].
      exists (drop (S (i + length n)) s), (drop (S (i + length n)) s). split; [done|]. split; [by left|done].
Qed.

Lemma drop_app_at (s : jstr) i a b : drop i s = a ++ b -> drop (i + length a) s = b.
Proof. intros H. rewrite <- drop_drop, H. by rewrite drop_app_length. Qed.

Lemma names_complete s names r i c v : names_regex names = Some r -> fits names (drop i s) v -> i <= length s ->
  exists j, rmatch s r i c j c /\ drop j s = v /\ j <= length s.
Proof.
  revert r i. induction names as [|n [|m ns] IH]; intros r i Er Hf Hi.
  - injection Er as <-. exists i. split; [constructor|]. done.
  - apply name_regex_Some in Er as [_ ->]. simpl in Hf. exists (i + length n). split; [by eapply rmatch_lit_intro|]. split; [by apply drop_app_at|].
    apply (f_equal length) in Hf. rewrite length_drop, length_app in Hf. lia.
  - apply names_regex_cons in Er as (_ & rs & Ers & ->). destruct Hf as (w & w' & Hu & Hw & Hf).
    pose proof (drop_app_at _ _ _ _ Hu) as H1. pose proof H1 as H1'. apply drop_lookup in H1' as [Hdot H2].
    assert (Hl : i + length n < length s) by by eapply lookup_lt_Some.
    assert (Hsep : exists l, rmatch s between (i + length n) c l c /\ drop l s = w' /\ l <= length s).
    { destruct Hw as [->|(x & Hx & ->)].
      - exists (S (i + length n)). split; [|done]. unfold between.
        eapply rm_seq; [eapply rm_class; [done|apply N.eqb_refl]|]. apply rm_alt_r. constructor.
      - pose proof (drop_app_at _ _ _ _ H2) as H3. pose proof H3 as H3'. apply drop_lookup in H3' as [Hdot' H4].
        exists (S (S (i + length n) + length x)). split; [|split; [done|by apply lookup_lt_Some in Hdot']].
        unfold between. eapply rm_seq; [eapply rm_class; [done|apply N.eqb_refl]|]. apply rm_alt_l.
        eapply rm_seq; [eapply rmatch_star_intro; [done|]|eapply rm_class; [done|apply N.eqb_refl]].
        eapply Forall_impl; [exact Hx|]. intros y Hy. simpl. by rewrite Hy. }
    destruct Hsep as (l & Hb & Hl' & Hle). rewrite <- Hl' in Hf.
    destruct (IH rs l Ers Hf Hle) as (j & Hj & Hd & Hj'). exists j. split; [|done].
    eapply rm_seq; [by eapply rmatch_lit_intro|]. by eapply rm_seq.
Qed.

(** The test, in terms of the string. *)
Lemma namespace_test names p s : namespace_pattern names = Some p -> test p s = true <->
  exists p u v, s = p ++ u /\ (p = [] \/ exists p', p = p' ++ [dot]) /\ fits names u v /\
    (v = [] \/ exists v', v = dot :: v').
Proof.
  unfold namespace_pattern. destruct (names_regex names) as [r|] eqn:Er; [|done]. intros [= <-].
  rewrite test_spec. simpl p_re. split.
  - intros (i & j & c & Hi & Hm). inversion Hm as [| |? ? ? ? j1 c1 ? ? Hb Hr| | | | | | | | | | | | |]; subst.
    inversion Hr as [| |? ? ? ? j2 c2 ? ? Hn He| | | | | | | | | | | | |]; subst.
    assert (Hj1 : j1 <= length s /\ (take j1 s = [] \/ exists p', take j1 s = p' ++ [dot])).
    { inversion Hb as [| | | | | | | | |? ? ? ? ? ? Ha| | | | | |]; subst.
      inversion Ha as [| | |? ? ? ? ? ? Hx|? ? ? ? ? ? Hx| | | | | | | | | | |]; subst.
      - inversion Hx; subst. split; [done|]. by left.
      - apply rmatch_char in Hx as (_ & -> & Hd). apply drop_lookup in Hd as [Hd _].
        split; [by apply lookup_lt_Some in Hd|]. right. exists (take i s). by apply take_S_r. }
    destruct Hj1 as [Hj1 Hp]. apply (names_sound _ names) in Hn as [-> Hf]; [|done..].
    exists (take j1 s), (drop j1 s), (drop j2 s). split; [by rewrite take_drop|]. split; [done|]. split; [done|].
    inversion He as [| | | | | | | | |? ? ? ? ? ? Ha| | | | | |]; subst.
    inversion Ha as [| | |? ? ? ? ? ? Hx|? ? ? ? ? ? Hx| | | | | | | | | | |]; subst.
    + apply rmatch_char in Hx as (_ & _ & Hd). right. eauto.
    + inversion Hx; subst. left. by rewrite drop_all.
  - intros (p & u & v & -> & Hp & Hf & Hv).
    set (c0 := replicate 3 None : caps).
    assert (Hstart : exists i c, i <= length (p ++ u) /\ rmatch (p ++ u) (RGroup 1 (RAlt RBol (RChar dot))) i c0 (length p) c).
    { destruct Hp as [->|(p' & ->)].
      - exists 0. eexists. split; [lia|]. apply rm_group, rm_alt_l. constructor.
      - exists (length p'). eexists. rewrite !length_app. simpl length. split; [simpl; lia|].
        replace (length p' + 1) with (S (length p')) by lia. apply rm_group, rm_alt_r.
        eapply rm_class; [|apply N.eqb_refl]. rewrite <- app_assoc. by apply list_lookup_middle. }
    destruct Hstart as (i & c & Hi & Hb). rewrite <- (drop_app_length p u) in Hf.
    apply (names_complete _ _ r _ c) in Hf as (j & Hn & Hd & Hj); [|done|rewrite length_app; lia].
    assert (He : exists l, rmatch (p ++ u) (RAlt (RChar dot) REol) j c l c).
    { destruct Hv as [->|(v' & ->)].
      - exists (length (p ++ u)). apply rm_alt_r. replace j with (length (p ++ u)); [constructor|].
        apply (f_equal length) in Hd. rewrite length_drop in Hd. simpl in Hd. lia.
      - exists (S j). apply rm_alt_l. apply drop_lookup in Hd as [Hd _]. eapply rm_class; [done|apply N.eqb_refl]. }
    destruct He as [l He]. eexists i, _, _. split; [done|].
    eapply rm_seq; [exact Hb|]. eapply rm_seq; [exact Hn|]. by apply rm_group.
Qed.


(** * Names in order *)

Definition boundary (v : jstr) : Prop := v = [] \/ exists v', v = dot :: v'.

Lemma split_boundary n v : dot ∉ n -> boundary v -> exists ps, split_char dot (n ++ v) = n :: ps.
Proof.
  intros Hn [->|(v' & ->)].
  - exists []. rewrite app_nil_r. by apply split_char_none.
  - exists (split_char dot v'). by apply split_char_app.
Qed.

Lemma fits_sublist names u v : names <> [] -> Forall (fun n => dot ∉ n) names -> fits names u v -> boundary v ->
  sublist names (split_char dot u).
Proof.
  revert u. induction names as [|n [|m ns] IH]; intros u Hne Hd Hf Hv; [done|..]; apply Forall_cons in Hd as [Hn Hd].
  - simpl in Hf. subst u. destruct (split_boundary n v Hn Hv) as [ps ->]. apply sublist_skip, sublist_nil_l.
  - destruct Hf as (w & w' & -> & Hw & Hf). rewrite split_char_app by done. apply sublist_skip.
    specialize (IH w' ltac:(done) Hd Hf Hv). destruct Hw as [->|(x & _ & ->)]; [done|].
    rewrite split_char_cut. by apply sublist_inserts_l.
Qed.

Lemma join_cons n p ps : join (js ".") (n :: p :: ps) = n ++ dot :: join (js ".") (p :: ps).
Proof. done. Qed.

Lemma sublist_fits names parts : sublist names parts -> names <> [] -> no_terminator (join (js ".") parts) ->
  exists p u v, join (js ".") parts = p ++ u /\ (p = [] \/ exists p', p = p' ++ [dot]) /\ fits names u v /\ boundary v.
Proof.
  induction 1 as [|n ns ps Hs IH|q ns ps Hs IH]; intros Hne Ht; [done|..].
  - destruct ns as [|m ns].
    + exists [], (join (js ".") (n :: ps)), (match ps with [] => [] | _ => dot :: join (js ".") ps end).
      split; [done|]. split; [by left|]. destruct ps as [|p ps]; simpl; [rewrite app_nil_r|]; (split; [done|]);
        [by left|right; by eexists].
    + destruct ps as [|q ps]; [by inversion Hs|]. rewrite join_cons in Ht |- *.
      apply Forall_app in Ht as [_ Ht]. apply Forall_cons in Ht as [_ Ht].
      destruct (IH ltac:(done) Ht) as (p & u & v & E & Hp & Hf & Hv). rewrite E in Ht |- *.
      exists [], (n ++ dot :: p ++ u), v. split; [done|]. split; [by left|]. split; [|done].
      exists (p ++ u), u. split; [done|]. split; [|done]. destruct Hp as [->|(p' & ->)]; [by left|]. right. exists p'.
      apply Forall_app in Ht as [Ht _]. apply Forall_app in Ht as [Ht _]. by rewrite <- app_assoc.
  - destruct ps as [|q' ps]; [by inversion Hs; subst|]. rewrite join_cons in Ht |- *.
    apply Forall_app in Ht as [_ Ht]. apply Forall_cons in Ht as [_ Ht].
    destruct (IH Hne Ht) as (p & u & v & E & Hp & Hf & Hv). rewrite E.
    exists (q ++ dot :: p), u, v. split; [by rewrite <- app_assoc|]. split; [|done]. right.
    destruct Hp as [->|(p' & ->)]; [by exists q|]. exists (q ++ dot :: p'). by rewrite <- app_assoc.
Qed.

(** The expression asks for the names among the parts, in order. *)
Lemma namespace_test_sublist names pat parts : namespace_pattern names = Some pat -> names <> [] -> parts <> [] ->
  Forall (fun n => dot ∉ n) names -> Forall (fun n => dot ∉ n) parts -> Forall no_terminator parts ->
  test pat (join (js ".") parts) = true <-> sublist names parts.
Proof.
  intros Hpat Hn Hp Hdn Hdp Ht. rewrite (namespace_test names) by done. split.
  - intros (p & u & v & E & Hb & Hf & Hv). apply fits_sublist in Hf; [|done..].
    rewrite <- (split_char_join dot parts Hp Hdp). change [dot] with (js "."). rewrite E.
    destruct Hb as [->|(p' & ->)]; [done|]. rewrite <- app_assoc. simpl. rewrite split_char_cut.
    by apply sublist_inserts_l.
  - intros Hs. apply sublist_fits; [done..|].
    clear -Ht. induction Ht as [|q ps Hq Hps IH]; [constructor|]. destruct ps as [|q' ps]; [done|].
    rewrite join_cons. apply Forall_app. split; [done|]. by constructor.
Qed.

(** ** Sorting *)

Definition name_le (a b : jstr) : Prop := str_compare a b <> Gt.

#[global] Instance name_le_trans : Transitive name_le.
Proof. intros a b c. apply str_compare_trans. Qed.

Lemma str_compare_eq a b : str_compare a b = Eq -> a = b.
Proof.
  revert b. induction a as [|x a IH]; intros [|y b]; simpl; try done.
  destruct (N.compare_spec x y); try done. subst. intros ?%IH. by subst.
Qed.

Lemma name_le_antisym a b : name_le a b -> name_le b a -> a = b.
Proof.
  unfold name_le. rewrite (str_compare_antisym a b). intros H1 H2. apply str_compare_eq.
  by destruct (str_compare a b).
Qed.

Lemma insert_name_perm n l : insert_name n l ≡ₚ n :: l.
Proof. induction l as [|m l IH]; simpl; [done|]. destruct (str_compare n m); [done..|]. rewrite IH. apply Permutation_swap. Qed.

Lemma sort_names_perm l : sort_names l ≡ₚ l.
Proof. induction l as [|n l IH]; simpl; [done|]. by rewrite insert_name_perm, IH. Qed.

Lemma insert_name_sorted n l : StronglySorted name_le l -> StronglySorted name_le (insert_name n l).
Proof.
  induction 1 as [|m l Hl IH Hm]; simpl; [repeat constructor|].
  assert (Hle : str_compare n m <> Gt -> StronglySorted name_le (n :: m :: l)).
  { intros Hn. constructor; [by constructor|]. constructor; [done|].
    eapply Forall_impl; [exact Hm|]. intros x Hx. by etrans. }
  destruct (str_compare n m) eqn:E; [by apply Hle..|]. constructor; [done|].
  rewrite insert_name_perm. constructor; [|done]. unfold name_le. by rewrite (str_compare_antisym n m), E.
Qed.

Lemma sort_names_sorted l : StronglySorted name_le (sort_names l).
Proof. induction l as [|n l IH]; simpl; [constructor|]. by apply insert_name_sorted. Qed.

Lemma sorted_sublist names parts : StronglySorted name_le names -> NoDup names -> StronglySorted name_le parts ->
  names ⊆ parts -> sublist names parts.
Proof.
  intros Hn Hd Hp. revert names Hn Hd. induction Hp as [|q ps Hps IH Hq]; intros names Hn Hd Hs.
  - destruct names as [|n ns]; [constructor|]. by specialize (Hs n (list_elem_of_here _ _)) as ?%elem_of_nil.
  - destruct names as [|n ns]; [apply sublist_nil_l|]. apply StronglySorted_inv in Hn as [Hns Hn].
    apply NoDup_cons in Hd as [Hnin Hd]. destruct (decide (n = q)) as [->|Hne].
    + apply sublist_skip, IH; [done..|]. intros x Hx. specialize (Hs x (list_elem_of_further _ _ _ Hx)).
      apply elem_of_cons in Hs as [->|?]; done.
    + apply sublist_cons, IH; [by constructor|by apply NoDup_cons|].
      assert (Hnq : n ∈ ps) by (specialize (Hs n (list_elem_of_here _ _)); by apply elem_of_cons in Hs as [?|?]).
      intros x Hx. pose proof (Hs x Hx) as Hx'. apply elem_of_cons in Hx' as [->|?]; [|done]. exfalso.
      apply elem_of_cons in Hx as [?|Hx]; [done|]. rewrite Forall_forall in Hn, Hq.
      apply Hne, name_le_antisym; [by apply Hn|by apply Hq].
Qed.

(** C35. The namespaces of a type decide as sets: there is an expression for
    every list of names without special characters, and the one that [off] and
    [trigger] build from distinct names, sorted, finds them in the sorted namespaces
    of a handler exactly when each of them is one of these, wherever they stand and
    whatever other names are among them.  The namespaces of the handler are what a
    type can carry: they may have special characters, but no dots and no line
    terminators. *)
Theorem namespaces_decide requested given : requested <> [] -> given <> [] -> NoDup requested ->
  Forall (fun n => plain_name n = true) requested -> Forall (fun n => dot ∉ n) given -> Forall no_terminator given ->
  exists pat, namespace_pattern (sort_names requested) = Some pat /\
    (test pat (join (js ".") (sort_names given)) = true <-> requested ⊆ given).
Proof.
  intros Hr Hg Hd Hpr Hdg Ht.
  assert (Hne : forall l, l <> [] -> sort_names l <> []).
  { intros l Hl E. apply Hl. apply Permutation_nil_r. by rewrite <- E, sort_names_perm. }
  destruct (names_regex_plain (sort_names requested)) as [r Er]; [by rewrite sort_names_perm|].
  destruct (namespace_pattern (sort_names requested)) as [pat|] eqn:Ep; [|by unfold namespace_pattern in Ep; rewrite Er in Ep].
  exists pat. split; [done|].
  assert (Hdr : Forall (fun n => dot ∉ n) requested) by (eapply Forall_impl; [exact Hpr|]; apply plain_undotted).
  rewrite (namespace_test_sublist (sort_names requested)) by (first [done|by apply Hne|by rewrite sort_names_perm]). split.
  - intros Hs x Hx. rewrite <- (sort_names_perm given). rewrite <- (sort_names_perm requested) in Hx.
    eapply elem_of_submseteq; [done|by apply sublist_submseteq].
  - intros Hs. apply sorted_sublist; [apply sort_names_sorted|by rewrite sort_names_perm|apply sort_names_sorted|].
    intros x. rewrite !sort_names_perm. apply Hs.
Qed.

Lemma namespaces_decide_witness :
  let requested := js <$> ["ui"; "drag"] in
  let given := js <$> ["drag"; "tab"; "ui"; "a+"] in
  requested ⊆ given /\ names_test (sort_names requested) (join (js ".") (sort_names given)) = true.
Proof.
  intros requested given. assert (Hs : requested ⊆ given) by by apply (bool_decide_unpack _); vm_compute.
  split; [done|]. destruct (namespaces_decide requested given) as (pat & E & Ht); [done|done|..].
  - by apply (bool_decide_unpack _); vm_compute.
  - by repeat constructor.
  - by apply (bool_decide_unpack _); vm_compute.
  - repeat constructor.
  - unfold names_test. rewrite E. by apply Ht.
Defined.


(** * Reading a type *)

Fixpoint take_line (u : jstr) : jstr :=
  match u with
  | y :: u' => if is_line_terminator y then [] else y :: take_line u'
  | [] => []
  end.

(** What stands behind the dot. *)
Definition rest_of (u : jstr) : option jstr :=
  match u with _ :: u' => match take_line u' with [] => None | x => Some x end | [] => None end.

Lemma take_line_split u : exists v, u = take_line u ++ v /\ no_terminator (take_line u) /\
  match v with y :: _ => is_line_terminator y = true | [] => True end.
Proof.
  induction u as [|y u (v & E & F & Hv)]; simpl; [by exists []; split_and!; [|constructor|]|].
  destruct (is_line_terminator y) eqn:Ey.
  - exists (y :: u). split_and!; [done|constructor|done].
  - exists v. split_and!; [by rewrite E at 1|by constructor|done].
Qed.

Lemma slice_between (s a x v : jstr) : s = a ++ x ++ v -> slice s (length a) (length a + length x) = x.
Proof. intros ->. unfold slice. rewrite drop_app_length. by rewrite take_app_length' by lia. Qed.

Lemma exec_type a u : dot ∉ a -> boundary u ->
  exists r, exec rtypenamespace (a ++ u) = Some r /\ group (a ++ u) r 1 = Some a /\ group (a ++ u) r 2 = rest_of u.
Proof.
  intros Ha Hu. set (s := a ++ u). set (k := fun j c => Some {| m_start := 0; m_end := j; m_caps := c |}).
  set (alt := RAlt (RSeq (RChar (chr ".")) (RGroup 2 (RPlus true RDot))) REps).
  set (c1 := [None; Some (0, length a); None] : caps).
  assert (Hf : Forall (fun y => negb (existsb (N.eqb y) (js ".")) = true) a).
  { apply Forall_forall. intros y Hy. simpl. rewrite orb_false_r. apply negb_true_iff, N.eqb_neq.
    intros ->. by apply Ha. }
  assert (Hd : drop 0 s = a ++ u) by apply drop_0.
  assert (Hstop : match u with y :: _ => negb (existsb (N.eqb y) (js ".")) = false | [] => True end).
  { by destruct Hu as [->|(u' & ->)]. }
  assert (Halt : exists r, matcher s alt (length a) c1 k = Some r /\ group s r 1 = Some a /\ group s r 2 = rest_of u).
  { assert (Hg1 : slice s 0 (length a) = a) by by apply (slice_between s [] a u).
    unfold alt, RChar. cbn [matcher]. destruct Hu as [->|(u' & ->)].
    - eexists. rewrite lookup_ge_None_2 by (unfold s; rewrite app_nil_r; done).
      split; [done|]. split; [|done]. change (Some (slice s 0 (length a)) = Some a). by rewrite Hg1.
    - assert (Hs : s !! length a = Some dot) by by apply list_lookup_middle.
      rewrite Hs. change (N.eqb (chr ".") dot) with true. cbn [matcher].
      destruct (take_line_split u') as (v & E & Hx & Hv). unfold rest_of.
      assert (Hdrop : drop (S (length a)) s = take_line u' ++ v).
      { rewrite <- E. apply (drop_lookup s (length a) dot). apply drop_app_length. }
      destruct (take_line u') as [|y x] eqn:Et.
      + assert (matcher s (RPlus true RDot) (S (length a)) c1 (fun j c' => k j (<[2:=Some (S (length a), j)]> c')) = None) as ->.
        { unfold RPlus, RDot. cbn [matcher]. destruct (s !! S (length a)) as [z|] eqn:Ez; [|done].
          rewrite (drop_S s z _ Ez) in Hdrop. simpl in Hdrop. subst v. by rewrite Hv. }
        eexists. split; [done|]. split; [|done]. change (Some (slice s 0 (length a)) = Some a). by rewrite Hg1.
      + apply Forall_cons in Hx as [Hy Hx]. destruct (drop_lookup _ _ _ _ Hdrop) as [Hsy Hdrop'].
        assert (Hm : matcher s (RPlus true RDot) (S (length a)) c1 (fun j c' => k j (<[2:=Some (S (length a), j)]> c'))
                     = k (S (S (length a)) + length x) (<[2:=Some (S (length a), S (S (length a)) + length x)]> c1)).
        { unfold RPlus, RDot. cbn [matcher]. rewrite Hsy, Hy. simpl negb. cbv iota.
          apply (matcher_star_greedy s _ x v _ c1 (fun j c' => k j (<[2:=Some (S (length a), j)]> c')));
            [done| |by destruct v; [|rewrite Hv]|done].
          eapply Forall_impl; [exact Hx|]. intros z Hz. simpl. by rewrite Hz. }
        rewrite Hm. eexists. split; [done|]. split; [change (Some (slice s 0 (length a)) = Some a); by rewrite Hg1|].
        change (Some (slice s (S (length a)) (S (S (length a)) + length x)) = Some (y :: x)). f_equal.
        replace (S (length a)) with (length (a ++ [dot])) by (rewrite length_app; simpl; lia).
        replace (S (length (a ++ [dot])) + length x) with (length (a ++ [dot]) + length (y :: x)) by (simpl; lia).
        apply (slice_between s (a ++ [dot]) (y :: x) v). unfold s. rewrite E, <- app_assoc. done. }
  destruct Halt as (r & Hr & Hg). exists r. split; [|done].
  assert (Hm : match_at rtypenamespace s 0 = Some r).
  { etrans; [|exact Hr].
    pose proof (matcher_star_greedy s _ a u 0 (replicate 3 None) (fun j c' => matcher s alt j (<[1:=Some (0, j)]> c') k)
             Hd Hf Hstop) as G. unfold match_at, rtypenamespace. cbn [p_re p_groups]. cbn [matcher] in G |- *. cbn [Nat.eqb].
    apply G. change (matcher s alt (length a) c1 k <> None). by rewrite Hr. }
  unfold exec. destruct (length s); simpl; by rewrite Hm.
Qed.

Lemma parse_type_shape a u : dot ∉ a -> boundary u ->
  parse_type (a ++ u) = (a, rest_of u, sort_names (split_char dot (default [] (rest_of u)))).
Proof.
  intros Ha Hu. destruct (exec_type a u Ha Hu) as (r & E & H1 & H2). unfold parse_type, group_or_empty.
  by rewrite E, H1, H2.
Qed.

(** Every string is a dotless type and what follows. *)
Lemma type_split s : exists a u, s = a ++ u /\ dot ∉ a /\ boundary u.
Proof.
  induction s as [|x s (a & u & -> & Ha & Hu)]; [by exists [], []; split_and!; [|by apply not_elem_of_nil|left]|].
  destruct (decide (x = dot)) as [->|Hx].
  - exists [], (dot :: a ++ u). split_and!; [done|by apply not_elem_of_nil|right; eauto].
  - exists (x :: a), u. split_and!; [done|by apply not_elem_of_cons|done].
Qed.

(** A key of the events with a token that has no type. *)
Lemma parse_type_key key tok rest names : parse_type tok = ([], rest, names) -> dot ∉ key ->
  parse_type (key ++ tok) = (key, rest, names).
Proof.
  intros Hp Hk. destruct (type_split tok) as (a & u & -> & Ha & Hu). rewrite (parse_type_shape a u Ha Hu) in Hp.
  injection Hp as -> <- <-. by apply parse_type_shape.
Qed.

Lemma parse_type_dotless tok orig rest names : parse_type tok = (orig, rest, names) -> dot ∉ orig.
Proof.
  destruct (type_split tok) as (a & u & -> & Ha & Hu). rewrite (parse_type_shape a u Ha Hu). by intros [= <- _ _].
Qed.

End JqNamespace.
