(* ===== verification/JqBindings.v ===== *)
(** The lists of event handlers of [jquery.js] refine a list of bindings.

    A binding is what a caller of [on] or [one] has asked for; bindings are kept in
    the order in which they were made, and [off] takes out those it describes.  The
    lists that [jQuery.event] keeps by element and type, its count of delegated
    handlers, the numbers it gives to functions and the listeners it registers in
    the browser all follow from the bindings. *)

From S2P Require Import Prelude Regex SzMatch JqEvent JqNamespace.
Import JqEvent JqNamespace.

Module JqBindings.

(** * The specification *)

Record binding := {
  b_elem : nat;
  b_type : jstr;
  b_orig : jstr;
  b_data : arg;
  b_fn : fn;
  b_once : bool;
  b_sel : option jstr;
  b_ns : jstr;
}.

Inductive command :=
| Bind (e : nat) (types : jstr) (f : fn) (data : arg) (sel : option jstr) (once : bool)
| Unbind (e : nat) (types : jstr) (f : option fn) (sel : option jstr).

(** The binding for one type *)
Definition bind_type (e : nat) (f : fn) (data : arg) (sel : option jstr) (once : bool) (tok : jstr) : list binding :=
  let '(orig, _, names) := parse_type tok in
  match orig with
  | [] => []
  | _ => [{| b_elem := e; b_type := mapped_type sel orig; b_orig := orig; b_data := data; b_fn := f; b_once := once;
             b_sel := sel; b_ns := join (js ".") names |}]
  end.

(** Does a type given to [off] describe the binding? *)
Definition describes (e : nat) (f : option fn) (sel : option jstr) (tok : jstr) (b : binding) : bool :=
  let '(orig, rest, names) := parse_type tok in
  bool_decide (b_elem b = e) &&
  match orig with [] => true | _ => bool_decide (b_type b = mapped_type sel orig) && bool_decide (b_orig b = orig) end &&
  match f with None => true | Some f => bool_decide (b_fn b = f) end &&
  match rest with Some (_ :: _) => names_test names (b_ns b) | _ => true end &&
  (negb (truthy_sel sel) || bool_decide (sel = b_sel b) || (bool_decide (sel = Some (js "**")) && truthy_sel (b_sel b))).

Section specification.
Variable d : gmap nat SzMatch.node.

Definition spec_step (bs : list binding) (c : command) : list binding :=
  match c with
  | Bind e types f data sel once =>
      if acceptData d e then bs ++ concat (bind_type e f data sel once <$> rev (type_tokens types)) else bs
  | Unbind e types f sel => base.filter (fun b => existsb (fun tok => describes e f sel tok b) (type_tokens types) = false) bs
  end.

Definition spec_run (cs : list command) : list binding := foldl spec_step [] cs.

(** The library, for the same commands; [None] when one of them throws. *)
Variable check_selector : jstr -> res unit.

Definition exec_command (c : command) (s : store) : outcome unit :=
  match c with
  | Bind e types f data sel once =>
      let '(f, s) := if once then wrap_one f s else (f, s) in add d check_selector e types f data sel s
  | Unbind e types f sel => remove e types f sel s
  end.

Fixpoint exec_commands (cs : list command) (s : store) : option store :=
  match cs with
  | [] => Some s
  | c :: cs' => match exec_command c s with (Ok _, s') => exec_commands cs' s' | _ => None end
  end.

End specification.

(** * Stores *)

Lemma data_set_eq e x s : data_at e (set_data e x s) = x.
Proof. unfold data_at. simpl. by rewrite lookup_insert_eq. Qed.

Lemma data_set_ne e e' x s : e' <> e -> data_at e' (set_data e x s) = data_at e' s.
Proof. intros H. unfold data_at. simpl. by rewrite lookup_insert_ne. Qed.

Definition not_one (f : fn) : Prop := match f with FOne _ => False | _ => True end.
Definition is_one (f : fn) : bool := match f with FOne _ => true | _ => false end.

(** The function of the caller: the one in a wrapper of [one] *)
Definition base (s : store) (f : fn) : fn :=
  match f with FOne n => default FFalse (wrapped s !! n) | _ => f end.

Definition view (s : store) (p : nat * handleObj) : binding :=
  let h := p.2 in
  {| b_elem := p.1; b_type := h_type h; b_orig := origType h; b_data := h_data h; b_fn := base s (handler h);
     b_once := is_one (handler h); b_sel := selector h; b_ns := namespace h |}.

(** The handlers of an element and a type, in the order of their bindings; and as
    the library keeps them, delegates in front. *)
Definition on_type (e : nat) (t : jstr) (hs : list (nat * handleObj)) : list handleObj :=
  (base.filter (fun p => p.1 = e /\ h_type p.2 = t) hs).*2.
Definition delegated (l : list handleObj) : list handleObj := base.filter (fun h => truthy_sel (selector h) = true) l.
Definition direct (l : list handleObj) : list handleObj := base.filter (fun h => truthy_sel (selector h) = false) l.
Definition arrange (l : list handleObj) : hlist :=
  {| objs := delegated l ++ direct l; delegateCount := length (delegated l) |}.

Definition stable (t : jstr) : Prop := forall sel, mapped_type sel t = t.

(** The lists, main handlers and listeners that go with the handlers [hs], given in
    the order of their bindings *)
Record lists (s : store) (hs : list (nat * handleObj)) : Prop := {
  inv_events : forall e t, assoc t (events_at e s) = match on_type e t hs with [] => None | l => Some (arrange l) end;
  inv_handle : forall e, is_Some (events (data_at e s)) -> is_Some (handle (data_at e s));
  inv_listeners : forall e t n, (e, t, n) ∈ listeners s <->
    handle (data_at e s) = Some n /\ is_Some (assoc t (events_at e s));
}.

(** The function in a handler with its number *)
Definition numbered (s : store) (f : fn) (g : nat) : Prop :=
  not_one (base s f) /\ guids s !! base s f = Some g /\
  match f with FOne n => is_Some (wrapped s !! n) | _ => True end.

Definition typed (h : handleObj) : Prop :=
  stable (h_type h) /\ dot ∉ h_type h /\
  needsContext h = truthy_sel (selector h) && test needsContext_pattern (default [] (selector h)).

(** Functions are told apart by their numbers. *)
Record numbers (s : store) (hs : list (nat * handleObj)) : Prop := {
  inv_types : forall e h, (e, h) ∈ hs -> typed h;
  inv_guid : forall e h, (e, h) ∈ hs -> numbered s (handler h) (h_guid h);
  inv_inj : forall f f' g, not_one f -> not_one f' -> guids s !! f = Some g -> guids s !! f' = Some g -> f = f';
  inv_guid_lt : forall f g, guids s !! f = Some g -> g < guid s;
  inv_wrapped : forall n, is_Some (wrapped s !! n) -> n < fresh s;
}.

(** ** Arrangements *)

Lemma of_app e t hs hs' : on_type e t (hs ++ hs') = on_type e t hs ++ on_type e t hs'.
Proof. unfold on_type. by rewrite filter_app, fmap_app. Qed.

Lemma of_one e t h : on_type e t [(e, h)] = if bool_decide (h_type h = t) then [h] else [].
Proof.
  unfold on_type. case_bool_decide.
  - by rewrite filter_cons_True.
  - rewrite filter_cons_False; [done|]. by intros [_ ?].
Qed.

Lemma of_other e e' t h : e <> e' -> on_type e t [(e', h)] = [].
Proof. intros H. unfold on_type. rewrite filter_cons_False; [done|]. intros [? _]. by apply H. Qed.

Lemma of_elem e t hs h : h ∈ on_type e t hs <-> (e, h) ∈ hs /\ h_type h = t.
Proof.
  unfold on_type. rewrite list_elem_of_fmap. split.
  - intros ([e' h'] & -> & H). apply list_elem_of_filter in H as [[He Ht] Hin]. simpl in *. by subst.
  - intros [Hin Ht]. exists (e, h). split; [done|]. by apply list_elem_of_filter.
Qed.

Lemma arrange_insert h l : insert_handler h (arrange l) = arrange (l ++ [h]).
Proof.
  unfold insert_handler, arrange, delegated, direct. simpl. rewrite !filter_app.
  destruct (truthy_sel (selector h)) eqn:E.
  - rewrite filter_cons_True, filter_cons_False by (done || congruence). f_equal.
    + rewrite take_app_length, drop_app_length. simpl. by rewrite app_nil_r, <- app_assoc.
    + rewrite length_app. simpl. lia.
  - rewrite filter_cons_False, filter_cons_True by (done || congruence). simpl. by rewrite app_nil_r, app_assoc.
Qed.

Lemma arrange_nil l : objs (arrange l) = [] <-> l = [].
Proof.
  split; [|by intros ->]. intros E. apply app_eq_nil in E as [E1 E2]. destruct l as [|h l]; [done|].
  unfold delegated, direct in *. destruct (truthy_sel (selector h)) eqn:Eh.
  - by rewrite filter_cons_True in E1.
  - by rewrite filter_cons_True in E2.
Qed.

(** What [remove] does to a list: it goes down from the end. *)
Lemma remove_loop_objs p j l : j <= length (objs l) ->
  objs (remove_loop p j l) = base.filter (fun h => p h = false) (take j (objs l)) ++ drop j (objs l).
Proof.
  revert l. induction j as [|j IH]; intros l Hj; simpl; [by rewrite drop_0|].
  destruct (lookup_lt_is_Some_2 (objs l) j ltac:(lia)) as [h Hh]. rewrite Hh, (take_S_r _ _ _ Hh), filter_app.
  destruct (p h) eqn:E.
  - rewrite filter_cons_False by congruence. rewrite IH by (simpl; rewrite length_app, length_take; lia). simpl.
    rewrite take_app_le, drop_app_ge, take_take, length_take by (rewrite ?length_take; lia).
    rewrite !Nat.min_l by lia. rewrite Nat.sub_diag, drop_0. by rewrite app_nil_r.
  - rewrite filter_cons_True by done. rewrite IH by lia. rewrite (drop_S _ _ _ Hh), <- app_assoc. done.
Qed.

Lemma remove_loop_count p j l : j <= length (objs l) ->
  delegateCount (remove_loop p j l) =
  delegateCount l - length (base.filter (fun h => p h = true) (delegated (take j (objs l)))).
Proof.
  revert l. induction j as [|j IH]; intros l Hj; simpl; [lia|].
  destruct (lookup_lt_is_Some_2 (objs l) j ltac:(lia)) as [h Hh]. rewrite Hh, (take_S_r _ _ _ Hh).
  unfold delegated in *. rewrite !filter_app, length_app.
  destruct (p h) eqn:E.
  - rewrite IH by (simpl; rewrite length_app, length_take; lia). simpl.
    rewrite take_app_le, take_take, Nat.min_l by (rewrite ?length_take; lia).
    destruct (truthy_sel (selector h)) eqn:Eh.
    + rewrite filter_cons_True by done. rewrite filter_cons_True by done. simpl. lia.
    + rewrite filter_cons_False by congruence. simpl. lia.
  - rewrite IH by lia. destruct (truthy_sel (selector h)) eqn:Eh.
    + rewrite filter_cons_True by done. rewrite filter_cons_False by congruence. simpl. lia.
    + rewrite filter_cons_False by congruence. simpl. lia.
Qed.

Lemma filter_swap {A} (P Q : A -> Prop) `{forall x, Decision (P x)} `{forall x, Decision (Q x)} (l : list A) :
  @base.filter _ (list A) _ P _ (base.filter Q l) = base.filter Q (base.filter P l).
Proof. rewrite !list_filter_filter. apply list_filter_iff. tauto. Qed.

Lemma filter_all {A} (P : A -> Prop) `{forall x, Decision (P x)} (l : list A) : (forall x, x ∈ l -> P x) -> base.filter P l = l.
Proof.
  induction l as [|x l IH]; intros Hl; [done|]. rewrite filter_cons_True by (apply Hl; left).
  rewrite IH; [done|]. intros y Hy. apply Hl. by right.
Qed.

Lemma filter_none {A} (P : A -> Prop) `{forall x, Decision (P x)} (l : list A) : (forall x, x ∈ l -> ~ P x) -> base.filter P l = [].
Proof.
  induction l as [|x l IH]; intros Hl; [done|]. rewrite filter_cons_False by (apply Hl; left).
  apply IH. intros y Hy. apply Hl. by right.
Qed.

Lemma filter_length_split {A} (p : A -> bool) (l : list A) :
  length l = length (base.filter (fun x => p x = true) l) + length (base.filter (fun x => p x = false) l).
Proof.
  induction l as [|x l IH]; [done|]. destruct (p x) eqn:E.
  - rewrite filter_cons_True, filter_cons_False by congruence. simpl. lia.
  - rewrite filter_cons_False, filter_cons_True by congruence. simpl. lia.
Qed.

Lemma remove_arranged p l :
  remove_loop p (length (objs (arrange l))) (arrange l) = arrange (base.filter (fun h => p h = false) l).
Proof.
  destruct (remove_loop p (length (objs (arrange l))) (arrange l)) as [os n] eqn:E.
  pose proof (remove_loop_objs p _ (arrange l) (Nat.le_refl _)) as Ho.
  pose proof (remove_loop_count p _ (arrange l) (Nat.le_refl _)) as Hc.
  rewrite E, take_ge in Hc by done. rewrite E, take_ge, drop_all, app_nil_r in Ho by done. simpl in Ho, Hc.
  unfold arrange. f_equal.
  - rewrite Ho, filter_app. unfold delegated, direct. by rewrite !(filter_swap (fun h => p h = false)).
  - rewrite Hc. set (dl := delegated l).
    assert (delegated (dl ++ direct l) = dl) as ->.
    { unfold delegated at 1. rewrite filter_app, (filter_all _ dl), (filter_none _ (direct l)), app_nil_r; [done|..];
        intros h [Hh _]%list_elem_of_filter; congruence. }
    assert (delegated (base.filter (fun h => p h = false) l) = base.filter (fun h => p h = false) dl) as ->.
    { apply filter_swap. }
    pose proof (filter_length_split p dl). lia.
Qed.

(** ** Types *)

Lemma stable_other t :
  Forall (fun k => k <> t) (js <$> ["mouseenter"; "mouseleave"; "pointerenter"; "pointerleave"; "focus"; "blur"]) -> stable t.
Proof.
  intros H sel. repeat (apply Forall_cons in H as [? H]). unfold mapped_type, special_of, over_out. cbn [assoc].
  repeat (case_decide; [done|]). cbn. by destruct (truthy_sel sel).
Qed.

Lemma mapped_stable sel orig :
  stable (mapped_type sel orig) \/ mapped_type sel orig = js "focus" \/ mapped_type sel orig = js "blur".
Proof.
  assert (H : mapped_type sel orig = orig \/
              In (mapped_type sel orig) (js <$> ["mouseover"; "mouseout"; "pointerover"; "pointerout"; "focusin"; "focusout"])).
  { unfold mapped_type, special_of, over_out. cbn [assoc].
    repeat case_decide; subst; cbn -[js In]; destruct (truthy_sel sel); cbn -[js In]; (by left) || (right; simpl; tauto). }
  destruct H as [E|H].
  - rewrite E. destruct (decide (orig = js "focus")) as [->|]; [by right; left|].
    destruct (decide (orig = js "blur")) as [->|]; [by right; right|]. left.
    intros sel'. revert E. unfold mapped_type, special_of, over_out. cbn [assoc].
    repeat (case_decide; [by subst; destruct (truthy_sel sel), (truthy_sel sel')|]).
    by destruct (truthy_sel sel'), (truthy_sel sel).
  - left. simpl in H. apply stable_other.
    repeat (destruct H as [<-|H]; [by apply (bool_decide_unpack _); vm_compute|]). done.
Qed.

Lemma mapped_dotless sel orig : dot ∉ orig -> dot ∉ mapped_type sel orig.
Proof.
  unfold mapped_type, special_of, over_out. simpl assoc. intros H.
  repeat case_decide; subst; simpl; destruct (truthy_sel sel); simpl; try done; by apply (bool_decide_unpack _); vm_compute.
Qed.


(** ** One type of one element *)

Lemma assoc_filter_ne {A} (l : list (jstr * A)) t t' :
  assoc t' (base.filter (fun p => p.1 <> t) l) = if decide (t' = t) then None else assoc t' l.
Proof.
  induction l as [|[k x] l IH]; simpl; [by case_decide|]. destruct (decide (k = t)) as [->|Hk].
  - rewrite filter_cons_False by (simpl; tauto). rewrite IH. repeat case_decide; congruence.
  - rewrite filter_cons_True by done. simpl. rewrite IH. repeat case_decide; congruence.
Qed.

Lemma assoc_set_lookup {A} (l : list (jstr * A)) t x t' :
  assoc t' (assoc_set t x l) = if decide (t' = t) then Some x else assoc t' l.
Proof. case_decide; [subst; by apply assoc_set_eq|by apply assoc_set_ne]. Qed.

(** The list of one type of one element changes, and its listener with it. *)
Lemma lists_update s s' hs hs' e t x :
  lists s hs -> (forall e', e' <> e -> data_at e' s' = data_at e' s) ->
  handle (data_at e s') = handle (data_at e s) -> is_Some (handle (data_at e s)) ->
  (forall t', assoc t' (events_at e s') = if decide (t' = t) then x else assoc t' (events_at e s)) ->
  (forall e' t' n, (e', t') <> (e, t) -> (e', t', n) ∈ listeners s' <-> (e', t', n) ∈ listeners s) ->
  (forall n, (e, t, n) ∈ listeners s' <-> handle (data_at e s) = Some n /\ is_Some x) ->
  x = match on_type e t hs' with [] => None | l => Some (arrange l) end ->
  (forall e' t', (e', t') <> (e, t) -> on_type e' t' hs' = on_type e' t' hs) ->
  lists s' hs'.
Proof.
  intros Hl Hd Hh Hsome Ha Hls Hle Hx Ho.
  assert (Hev : forall e' t', (e', t') <> (e, t) -> assoc t' (events_at e' s') = assoc t' (events_at e' s)).
  { intros e' t' Hne. destruct (decide (e' = e)) as [->|He]; [|unfold events_at; by rewrite Hd].
    rewrite Ha. case_decide; congruence. }
  assert (Hat : assoc t (events_at e s') = x) by by rewrite Ha, decide_True.
  split.
  - intros e' t'. destruct (decide ((e', t') = (e, t))) as [[= -> ->]|Hne]; [by rewrite Hat|].
    rewrite Hev, Ho by done. apply (inv_events _ _ Hl).
  - intros e'. destruct (decide (e' = e)) as [->|He]; [by rewrite Hh|]. rewrite Hd by done. apply (inv_handle _ _ Hl).
  - intros e' t' n. destruct (decide ((e', t') = (e, t))) as [[= -> ->]|Hne]; [by rewrite Hat, Hh|].
    rewrite Hls, Hev by done. rewrite (inv_listeners _ _ Hl). destruct (decide (e' = e)) as [->|He]; [by rewrite Hh|].
    by rewrite Hd.
Qed.

Lemma lists_handlers s hs e t : lists s hs -> handlers_at e t s = arrange (on_type e t hs).
Proof. intros Hl. unfold handlers_at. rewrite (inv_events _ _ Hl). by destruct (on_type e t hs). Qed.

(** [s'] may know more functions than [s]. *)
Record same_functions (s s' : store) : Prop := {
  same_guids : guids s' = guids s;
  same_guid : guid s' = guid s;
  same_wrapped : wrapped s' = wrapped s;
  same_fresh : fresh s <= fresh s';
}.

#[global] Instance same_functions_preorder : PreOrder same_functions.
Proof. split; [by intros s; split|]. intros s1 s2 s3 [] []. split; [congruence..|lia]. Qed.

Lemma same_base s s' f : same_functions s s' -> base s' f = base s f.
Proof. intros H. unfold base. by rewrite (same_wrapped _ _ H). Qed.

Lemma same_numbered s s' f g : same_functions s s' -> numbered s f g -> numbered s' f g.
Proof.
  intros H. unfold numbered. rewrite (same_base _ _ f H), (same_guids _ _ H), (same_wrapped _ _ H). done.
Qed.

Lemma numbers_update s s' hs hs' : same_functions s s' -> numbers s hs ->
  (forall e h, (e, h) ∈ hs' -> (e, h) ∈ hs \/ typed h /\ numbered s (handler h) (h_guid h)) ->
  numbers s' hs'.
Proof.
  intros H Hn Hs. split.
  - intros e h Hin. destruct (Hs e h Hin) as [?|[? ?]]; [by eapply (inv_types _ _ Hn)|done].
  - intros e h Hin. apply (same_numbered s); [done|]. destruct (Hs e h Hin) as [?|[? ?]]; [by eapply (inv_guid _ _ Hn)|done].
  - rewrite (same_guids _ _ H). apply (inv_inj _ _ Hn).
  - rewrite (same_guids _ _ H), (same_guid _ _ H). apply (inv_guid_lt _ _ Hn).
  - rewrite (same_wrapped _ _ H). intros n Hw. pose proof (same_fresh _ _ H). pose proof (inv_wrapped _ _ Hn n Hw). lia.
Qed.


(** ** Attaching *)

Definition new_handlers (f : fn) (g : nat) (data : arg) (sel : option jstr) (tok : jstr) : list handleObj :=
  let '(orig, _, names) := parse_type tok in
  match orig with
  | [] => []
  | _ => [{| h_type := mapped_type sel orig; origType := orig; h_data := data; handler := f; h_guid := g;
             selector := sel; needsContext := truthy_sel sel && test needsContext_pattern (default [] sel);
             namespace := join (js ".") names |}]
  end.

(** What holds after an operation that has turned the handlers [hs] into [hs']. *)
Record changed (e : nat) (s s' : store) (hs' : list (nat * handleObj)) : Prop := {
  ch_lists : lists s' hs';
  ch_numbers : numbers s' hs';
  ch_functions : same_functions s s';
}.

Lemma put_handlers_data e t l s :
  (forall e', e' <> e -> data_at e' (put_handlers e t l s) = data_at e' s) /\
  handle (data_at e (put_handlers e t l s)) = handle (data_at e s) /\
  (forall t', assoc t' (events_at e (put_handlers e t l s)) = if decide (t' = t) then Some l else assoc t' (events_at e s)).
Proof.
  unfold put_handlers. split_and!; [intros e' He; by apply data_set_ne|by rewrite data_set_eq|].
  intros t'. unfold events_at at 1. rewrite data_set_eq. apply assoc_set_lookup.
Qed.

Lemma put_handle e t l s s' : data_of s' = data_of (put_handlers e t l s) -> handle (data_at e s') = handle (data_at e s).
Proof. intros H. rewrite <- (proj1 (proj2 (put_handlers_data e t l s))). unfold data_at. by rewrite H. Qed.

Lemma lists_add s s' hs e h l :
  lists s hs -> is_Some (handle (data_at e s)) ->
  default {| objs := []; delegateCount := 0 |} (assoc (h_type h) (events_at e s)) = l ->
  data_of s' = data_of (put_handlers e (h_type h) (insert_handler h l) s) ->
  (forall n, handle (data_at e s) = Some n -> listeners s' = {[(e, h_type h, n)]} ∪ listeners s) ->
  lists s' (hs ++ [(e, h)]).
Proof.
  intros Hl Hh El Hd Hls. set (t := h_type h) in *.
  assert (Hdata : forall e', data_at e' s' = data_at e' (put_handlers e t (insert_handler h l) s)).
  { intros e'. unfold data_at. by rewrite Hd. }
  destruct (put_handlers_data e t (insert_handler h l) s) as (H1 & H2 & H3). destruct Hh as [n Hn].
  apply (lists_update s s' hs _ e t (Some (insert_handler h l))); [done|..].
  - intros e' He. rewrite Hdata. by apply H1.
  - by rewrite Hdata.
  - by eexists.
  - intros t'. rewrite <- H3. unfold events_at. by rewrite Hdata.
  - intros e' t' m Hne. rewrite (Hls n Hn). set_solver.
  - intros m. rewrite (Hls n Hn), elem_of_union, elem_of_singleton, (inv_listeners _ _ Hl), Hn. split.
    + intros [[= ->]|[? _]]; [|by simplify_eq]. split; [done|by eexists].
    + intros [[= ->] _]. by left.
  - pose proof (lists_handlers s hs e t Hl) as Ha. unfold handlers_at in Ha. rewrite El in Ha. rewrite Ha, arrange_insert.
    rewrite of_app, of_one, bool_decide_eq_true_2 by done. by destruct (on_type e t hs).
  - intros e' t' Hne. rewrite of_app. destruct (decide (e' = e)) as [->|He].
    + rewrite of_one, bool_decide_eq_false_2 by (by intros <-). apply app_nil_r.
    + rewrite of_other by done. apply app_nil_r.
Qed.

Section attaching.
Variable d : gmap nat SzMatch.node.

Lemma leveraged_not e t : leveraged d e t = false -> t <> js "focus" /\ t <> js "blur".
Proof.
  unfold leveraged. intros H. apply orb_false_elim in H as [H _]. apply orb_false_elim in H as [H1 H2].
  by apply bool_decide_eq_false in H1, H2.
Qed.

Lemma add_type_changed e f g data sel tok s s' hs :
  lists s hs -> numbers s hs -> numbered s f g -> is_Some (handle (data_at e s)) ->
  add_type d e f g data sel tok s = (Ok tt, s') ->
  changed e s s' (hs ++ (pair e <$> new_handlers f g data sel tok)) /\ is_Some (handle (data_at e s')).
Proof.
  intros Hl Hn Hf Hh. unfold add_type, new_handlers. destruct (parse_type tok) as [[orig rest] names] eqn:Ep.
  pose proof (parse_type_dotless _ _ _ _ Ep) as Hdot. destruct orig as [|x o]; [intros [= <-]; simpl; rewrite app_nil_r; done|].
  set (orig := x :: o) in *. set (h := {| h_type := _ |}). change (mapped_type sel orig) with (h_type h).
  set (t := h_type h). cbn [fmap list_fmap].
  assert (Hend : forall s0, data_of s0 = data_of s -> same_functions s s0 -> stable t ->
            (forall n, handle (data_at e s) = Some n -> listeners s0 = {[(e, t, n)]} ∪ listeners s) ->
            let s1 := set_global ({[t]} ∪ global s0)
                        (put_handlers e t (insert_handler h (default {| objs := []; delegateCount := 0 |} (assoc t (events_at e s)))) s0) in
            changed e s s1 (hs ++ [(e, h)]) /\ is_Some (handle (data_at e s1))).
  { intros s0 Hd Hs Ht Hls s1.
    assert (Hsf : same_functions s s1) by (etrans; [exact Hs|by split]).
    assert (Hd1 : data_of s1 = data_of (put_handlers e t (insert_handler h (default {| objs := []; delegateCount := 0 |} (assoc t (events_at e s)))) s)).
    { unfold s1, put_handlers, events_at, data_at. simpl. by rewrite Hd. }
    assert (Hh1 : is_Some (handle (data_at e s1))).
    { by rewrite (put_handle _ _ _ _ _ Hd1). }
    split; [split|].
    - by eapply lists_add.
    - eapply numbers_update; [done..|]. intros e' h' Hin. apply elem_of_app in Hin as [?|Hin]; [by left|right].
      apply list_elem_of_singleton in Hin as [= -> ->]. split; [|done]. by split_and!; [|apply mapped_dotless|].
    - done.
    - done. }
  destruct (assoc t (events_at e s)) as [l|] eqn:Ea.
  - intros [= <-]. apply (Hend s); [done|done|..].
    + pose proof (inv_events _ _ Hl e t) as Hev. rewrite Ea in Hev. destruct (on_type e t hs) as [|h' l'] eqn:Eo; [done|].
      assert (Hin : h' ∈ on_type e t hs) by (rewrite Eo; left). apply of_elem in Hin as [Hin <-].
      by apply (inv_types _ _ Hn) in Hin as [? _].
    + intros n Hhn. assert (Hin : (e, t, n) ∈ listeners s) by (apply (inv_listeners _ _ Hl); rewrite Ea; by split; [|eexists]).
      apply set_eq. intros y. set_solver.
  - destruct (leveraged d e t) eqn:El; [done|]. destruct (leveraged_not _ _ El) as [Hfo Hbl].
    destruct Hh as [n Hhn]. rewrite Hhn. intros [= <-]. apply (Hend (set_listeners ({[(e, t, n)]} ∪ listeners s) s)); [done|by split|..].
    + destruct (mapped_stable sel orig) as [?|[?|?]]; [done|by destruct Hfo|by destruct Hbl].
    + intros n' Hn'. by simplify_eq.
Qed.
Lemma add_types_changed e f g data sel toks s s' hs :
  lists s hs -> numbers s hs -> numbered s f g -> is_Some (handle (data_at e s)) ->
  add_types d e f g data sel toks s = (Ok tt, s') ->
  changed e s s' (hs ++ (pair e <$> concat (new_handlers f g data sel <$> toks))).
Proof.
  revert s hs. induction toks as [|tok toks IH]; intros s hs Hl Hn Hf Hh; simpl.
  - intros [= <-]. rewrite app_nil_r. by split.
  - destruct (add_type d e f g data sel tok s) as [[[]|] s1] eqn:E; [|done]. intros Hr.
    apply (add_type_changed _ _ _ _ _ _ _ _ hs) in E as [[Hl1 Hn1 Hs1] Hh1]; [|done..].
    destruct (IH _ _ Hl1 Hn1 (same_numbered _ _ _ _ Hs1 Hf) Hh1 Hr) as [Hl2 Hn2 Hs2].
    rewrite fmap_app, app_assoc. split; [done..|by etrans].
Qed.

Lemma lists_frame s s' hs : data_of s' = data_of s -> listeners s' = listeners s -> lists s hs -> lists s' hs.
Proof.
  intros Hd Hls [H1 H2 H3]. split; unfold events_at, data_at in *; rewrite ?Hd, ?Hls; assumption.
Qed.

Lemma init_events_changed e s hs : lists s hs -> numbers s hs ->
  changed e s (init_events e s) hs /\ is_Some (handle (data_at e (init_events e s))).
Proof.
  intros Hl Hn. set (s' := init_events e s).
  assert (H : same_functions s s' /\ listeners s' = listeners s /\
    (forall e', e' <> e -> data_at e' s' = data_at e' s) /\ events_at e s' = events_at e s /\
    is_Some (handle (data_at e s')) /\
    (handle (data_at e s') = handle (data_at e s) \/ handle (data_at e s) = None /\ events (data_at e s) = None)).
  { pose proof (inv_handle _ _ Hl e) as Hh. unfold s', init_events, events_at.
    destruct (data_at e s) as [ev hd] eqn:Ed; destruct ev as [ev|], hd as [n|]; simpl in *; rewrite ?data_set_eq, ?Ed; simpl;
      rewrite ?data_set_eq, ?Ed.
    all: try (by destruct Hh as [? ?]; [eexists|]).
    - split_and!; [done|done|done|done|by eexists|by left].
    - split_and!; [by split|done|intros; by apply data_set_ne|done|by eexists|by left].
    - assert (Hat : forall x, data_at e (set_fresh x (set_data e {| events := Some []; handle := Some (fresh s) |}
                (set_data e {| events := Some []; handle := None |} s))) = {| events := Some []; handle := Some (fresh s) |})
        by (intros x; apply data_set_eq).
      split_and!; [split; try done; cbn; lia|done| |by rewrite Hat|rewrite Hat; by eexists|by right].
      intros e' He. transitivity (data_at e' (set_data e {| events := Some []; handle := None |} s)); by apply data_set_ne. }
  destruct H as (Hs & Hls & Hd & Hev & Hh & Hor). split; [split|]; [|by eapply numbers_update; [..|by left]|done|done].
  split.
  - intros e' t. rewrite <- (inv_events _ _ Hl). destruct (decide (e' = e)) as [->|He]; [by rewrite Hev|].
    unfold events_at. by rewrite Hd.
  - intros e'. destruct (decide (e' = e)) as [->|He]; [done|]. rewrite Hd by done. apply (inv_handle _ _ Hl).
  - intros e' t n. rewrite Hls, (inv_listeners _ _ Hl). destruct (decide (e' = e)) as [->|He].
    + rewrite Hev. destruct Hor as [->|[Hn' Hev']]; [done|]. rewrite Hn'. unfold events_at. rewrite Hev'. simpl.
      by split; intros [? [? ?]].
    + unfold events_at. by rewrite Hd.
Qed.
End attaching.


(** ** Functions and their numbers *)

(** The functions that are known keep their numbers, and wrappers their functions. *)
Definition extends (s s' : store) : Prop := forall f g, numbered s f g -> numbered s' f g /\ base s' f = base s f.

Lemma same_extends s s' : same_functions s s' -> extends s s'.
Proof. intros H f g Hf. split; [by eapply same_numbered|by apply same_base]. Qed.

Lemma extends_trans s1 s2 s3 : extends s1 s2 -> extends s2 s3 -> extends s1 s3.
Proof. intros H1 H2 f g [H Hb]%H1. destruct (H2 _ _ H) as [? ->]. done. Qed.

Lemma view_extends s s' hs : extends s s' -> numbers s hs -> view s' <$> hs = view s <$> hs.
Proof.
  intros He Hn. apply list_fmap_ext. intros i [e h] Hi. unfold view. simpl.
  apply list_elem_of_lookup_2, (inv_guid _ _ Hn) in Hi as [_ ->]%He. done.
Qed.

(** [f] gets the number [g], fresh or its own. *)
Lemma ensure_guid_numbers f s hs g s' : numbers s hs -> not_one f -> ensure_guid f s = (g, s') ->
  numbers s' hs /\ numbered s' f g /\ extends s s' /\ data_of s' = data_of s /\ listeners s' = listeners s.
Proof.
  intros Hn Hf. unfold ensure_guid. destruct (guids s !! f) as [g'|] eqn:E.
  - intros [= <- <-]. split_and!; [done| |by intros ? ? ?|done|done]. by destruct f.
  - intros [= <- <-]. set (s' := set_counter _ _).
    assert (He : extends s s').
    { intros f' g' (H1 & H2 & H3). split; [|done]. split_and!; [done| |done]. unfold s'. simpl.
      rewrite lookup_insert_ne; [done|]. intros E1. change (f = base s f') in E1. congruence. }
    assert (Hb : base s' f = f) by by destruct f.
    split_and!; [|split_and!; rewrite ?Hb; [done|apply lookup_insert_eq|by destruct f]|done|done|done].
    split.
    + apply (inv_types _ _ Hn).
    + intros e h Hin. by apply (inv_guid _ _ Hn) in Hin as [? _]%He.
    + unfold s'. simpl. intros f1 f2 g1 Hf1 Hf2. rewrite !lookup_insert_Some.
      intros [[<- <-]|[? H1]] [[<- ?]|[? H2]]; try done; [..|by eapply (inv_inj _ _ Hn)].
      * apply (inv_guid_lt _ _ Hn) in H2. lia.
      * subst. apply (inv_guid_lt _ _ Hn) in H1. lia.
    + unfold s'. simpl. intros f1 g1. rewrite lookup_insert_Some. intros [[<- <-]|[? H1]]; [lia|].
      apply (inv_guid_lt _ _ Hn) in H1. lia.
    + apply (inv_wrapped _ _ Hn).
Qed.

Lemma wrap_one_numbers f s hs f' s' : numbers s hs -> not_one f -> wrap_one f s = (f', s') ->
  numbers s' hs /\ (exists g, guids s' !! f' = Some g /\ numbered s' f' g) /\ base s' f' = f /\ is_one f' = true /\
  extends s s' /\ data_of s' = data_of s /\ listeners s' = listeners s.
Proof.
  intros Hn Hf. unfold wrap_one. set (n := fresh s). set (s0 := set_wrapped n f (set_fresh (S n) s)).
  assert (He0 : extends s s0).
  { intros f1 g1 (H1 & H2 & H3). destruct f1 as [m|m|]; [done| |done].
    assert (Hm : m <> n) by (apply (inv_wrapped _ _ Hn) in H3; unfold n; lia).
    unfold numbered, base, s0 in *. simpl in *. by rewrite lookup_insert_ne. }
  assert (Hn0 : numbers s0 hs).
  { split; [apply (inv_types _ _ Hn)|..|apply (inv_inj _ _ Hn)|apply (inv_guid_lt _ _ Hn)|].
    - intros e h Hin. by apply (inv_guid _ _ Hn) in Hin as [? _]%He0.
    - intros m. unfold s0. simpl. destruct (decide (m = n)) as [->|Hm]; [lia|]. rewrite lookup_insert_ne by done.
      intros Hw%(inv_wrapped _ _ Hn). unfold n. lia. }
  destruct (ensure_guid f s0) as [g s1] eqn:E. intros [= <- <-].
  assert (Hw1 : wrapped s1 !! n = Some f).
  { unfold ensure_guid in E. destruct (guids s0 !! f); injection E as _ <-; simpl; apply lookup_insert_eq. }
  destruct (ensure_guid_numbers _ _ _ _ _ Hn0 Hf E) as (Hn1 & Hf1 & He1 & Hd1 & Hl1).
  set (s2 := set_guid (FOne n) g s1).
  assert (He2 : extends s1 s2).
  { intros f1 g1 (H1 & H2 & H3). split; [|done]. split_and!; [done| |done]. unfold s2. simpl.
    rewrite lookup_insert_ne; [done|]. intros E1. change (FOne n = base s1 f1) in E1. by rewrite <- E1 in H1. }
  assert (Hb2 : base s2 (FOne n) = f) by (unfold base, s2; simpl; by rewrite Hw1).
  assert (Hg : guids s1 !! f = Some g) by by destruct f, Hf1 as (_ & ? & _).
  split_and!; [split|exists g; split; [by apply lookup_insert_eq|]|done|done| |done|done].
  - apply (inv_types _ _ Hn1).
  - intros e h Hin. by apply (inv_guid _ _ Hn1) in Hin as [? _]%He2.
  - intros f1 f2 g1 Hf1' Hf2'. unfold s2. simpl. rewrite !lookup_insert_ne by (by intros <-).
    by apply (inv_inj _ _ Hn1).
  - intros f1 g1. unfold s2. simpl. rewrite lookup_insert_Some. intros [[_ <-]|[_ H1]]; by eapply (inv_guid_lt _ _ Hn1).
  - apply (inv_wrapped _ _ Hn1).
  - unfold numbered. rewrite Hb2. split_and!; [done| |unfold s2; simpl; by rewrite Hw1].
    unfold s2. simpl. rewrite lookup_insert_ne; [done|by intros <-].
  - eapply extends_trans; [exact He0|]. by eapply extends_trans.
Qed.


(** ** Detaching *)

(** Does a round of the loop of [remove] take out the handler? *)
Definition removes (mapped : bool) (f : option fn) (sel : option jstr) (orig : jstr) (rest : option jstr)
    (names : list jstr) (s : store) (h : handleObj) : bool :=
  match guid_of f s with
  | Some None => false
  | Some (Some g) => removed_by mapped orig (Some g) rest names sel h
  | None => removed_by mapped orig None rest names sel h
  end.

Definition dropped (e : nat) (t : jstr) (p : handleObj -> bool) (q : nat * handleObj) : bool :=
  bool_decide (q.1 = e) && bool_decide (h_type q.2 = t) && p q.2.

Definition kept (e : nat) (t : jstr) (p : handleObj -> bool) (hs : list (nat * handleObj)) : list (nat * handleObj) :=
  base.filter (fun q => dropped e t p q = false) hs.

Lemma on_type_cons e t q hs : on_type e t (q :: hs) =
  if bool_decide (q.1 = e) && bool_decide (h_type q.2 = t) then q.2 :: on_type e t hs else on_type e t hs.
Proof. unfold on_type. rewrite filter_cons. by case_decide as H; repeat case_bool_decide; try tauto. Qed.

Lemma kept_same e t p hs : on_type e t (kept e t p hs) = base.filter (fun h => p h = false) (on_type e t hs).
Proof.
  induction hs as [|q hs IH]; [done|]. unfold kept in *. rewrite on_type_cons.
  destruct (bool_decide (q.1 = e) && bool_decide (h_type q.2 = t)) eqn:E.
  - assert (Hd : dropped e t p q = p q.2) by (unfold dropped; by rewrite E). destruct (p q.2) eqn:Ep.
    + rewrite !filter_cons_False by congruence. done.
    + rewrite !filter_cons_True by congruence. rewrite on_type_cons, E. by f_equal.
  - rewrite filter_cons_True by (unfold dropped; by rewrite E). by rewrite on_type_cons, E.
Qed.

Lemma kept_other e t p hs e' t' : (e', t') <> (e, t) -> on_type e' t' (kept e t p hs) = on_type e' t' hs.
Proof.
  intros Hne. unfold kept, on_type. f_equal. rewrite list_filter_filter_l; [done|].
  intros [e1 h] [<- <-]. unfold dropped. simpl. repeat case_bool_decide; try done. by destruct Hne; subst.
Qed.

Lemma remove_type_changed e mapped f sel orig rest names s s' hs :
  lists s hs -> numbers s hs -> remove_type e mapped f sel orig rest names s = (Ok tt, s') ->
  changed e s s' (kept e (mapped_type sel orig) (removes mapped f sel orig rest names s) hs).
Proof.
  intros Hl Hn. unfold remove_type. case_match; [|done]. set (t := mapped_type sel orig).
  set (p := removes mapped f sel orig rest names s). change (fun h => match guid_of f s with None => _ | _ => _ end) with p.
  rewrite (lists_handlers _ hs), remove_arranged by done. set (l := on_type e t hs).
  assert (Hnum : forall s1, same_functions s s1 -> numbers s1 (kept e t p hs)).
  { intros s1 H1. eapply numbers_update; [done..|]. intros e' h Hin. left. by apply list_elem_of_filter in Hin as [_ ?]. }
  pose proof (inv_events _ _ Hl e t) as Ha. fold l in Ha. destruct l as [|h0 l0] eqn:El.
  - rewrite Ha. intros [= <-]. split; [|by apply Hnum|done].
    destruct Hl as [H1 H2 H3]. split; [|done..]. intros e' t'. rewrite H1.
    destruct (decide ((e', t') = (e, t))) as [[= -> ->]|Hne]; [|by rewrite kept_other].
    by rewrite kept_same; fold l; rewrite El.
  - rewrite Ha.
    destruct (inv_handle _ _ Hl e) as [n Hh].
    { unfold events_at in Ha. destruct (events (data_at e s)); [by eexists|done]. }
    set (l' := base.filter (fun h => p h = false) (h0 :: l0)).
    destruct (put_handlers_data e t (arrange l') s) as (H1 & H2 & H3). set (s1 := put_handlers e t (arrange l') s) in *.
    destruct (objs (arrange (h0 :: l0))) as [|? ?] eqn:Eo; [by apply (proj1 (arrange_nil _)) in Eo|].
    destruct (objs (arrange l')) as [|? ?] eqn:Eo'.
    + apply (proj1 (arrange_nil _)) in Eo'. rewrite H2, Hh. intros [= <-]. set (s2 := set_listeners _ s1).
      split; [|by apply Hnum; split|by split].
      apply (lists_update s _ hs _ e t None); [done|..].
      * intros e' He. unfold delete_type. rewrite data_set_ne by done. exact (H1 e' He).
      * unfold delete_type. by rewrite data_set_eq.
      * by eexists.
      * intros t'. unfold events_at, delete_type. rewrite data_set_eq. simpl. change (data_at e s2) with (data_at e s1).
        specialize (H3 t'). unfold events_at in H3. destruct (events (data_at e s1)) as [ev|]; simpl in *.
        -- rewrite assoc_filter_ne. case_decide; done.
        -- case_decide; done.
      * intros e' t' m Hne. simpl. set_solver.
      * intros m. simpl. rewrite elem_of_difference, elem_of_singleton, (inv_listeners _ _ Hl), Hh.
        split; [|by intros [_ [? ?]]]. intros [[[= ->] _] []]. done.
      * rewrite kept_same. fold l. rewrite El. fold l'. by rewrite Eo'.
      * intros e' t' Hne. by apply kept_other.
    + intros [= <-]. split; [|by apply Hnum; split|by split].
      apply (lists_update s _ hs _ e t (Some (arrange l'))); [done|done|done|by eexists|done|..].
      * done.
      * intros m. simpl. rewrite (inv_listeners _ _ Hl), Ha. split; intros [? _]; (split; [done|by eexists]).
      * rewrite kept_same. fold l. rewrite El. fold l'. destruct l'; [|done]. done.
      * intros e' t' Hne. by apply kept_other.
Qed.

Lemma changed_filter e s s' hs (P Q : nat * handleObj -> Prop) `{forall q, Decision (P q)} `{forall q, Decision (Q q)} :
  changed e s s' (base.filter P hs) -> (forall q, q ∈ hs -> P q <-> Q q) -> changed e s s' (base.filter Q hs).
Proof.
  intros Hc Hpq. replace (base.filter Q hs) with (base.filter P hs); [done|]. clear Hc.
  induction hs as [|q hs IH]; [done|]. rewrite !filter_cons, IH by (intros; apply Hpq; by right).
  specialize (Hpq q (list_elem_of_here _ _)). repeat case_decide; tauto.
Qed.

Lemma changed_trans e s s1 s' hs hs' : changed e s s1 hs -> changed e s1 s' hs' -> changed e s s' hs'.
Proof. intros [_ _ H1] [H2 H3 H4]. split; [done..|by etrans]. Qed.

Lemma nothing_bound e s hs q : lists s hs -> events_at e s = [] -> q ∈ hs -> q.1 <> e.
Proof.
  intros Hl He Hq <-. pose proof (inv_events _ _ Hl q.1 (h_type q.2)) as Ha. rewrite He in Ha. simpl in Ha.
  assert (Hin : q.2 ∈ on_type q.1 (h_type q.2) hs) by (apply of_elem; by destruct q).
  destruct (on_type q.1 (h_type q.2) hs); [by apply elem_of_nil in Hin|done].
Qed.

Lemma tidy_up_changed e s hs : lists s hs -> numbers s hs -> changed e s (tidy_up e s) hs.
Proof.
  intros Hl Hn. unfold tidy_up. destruct (events_at e s) as [|p ps] eqn:Ee; [|by split].
  assert (Hs : same_functions s (forget e s)) by by split.
  split; [|by eapply numbers_update; [..|by left]|done].
  assert (Hd : forall e', e' <> e -> data_at e' (forget e s) = data_at e' s) by (intros; by apply data_set_ne).
  assert (Hat : data_at e (forget e s) = {| events := None; handle := None |}) by apply data_set_eq.
  split.
  - intros e' t. rewrite <- (inv_events _ _ Hl). unfold events_at. destruct (decide (e' = e)) as [->|He]; [|by rewrite Hd].
    fold (events_at e s). by rewrite Ee, Hat.
  - intros e'. destruct (decide (e' = e)) as [->|He]; [rewrite Hat; by intros []|]. rewrite Hd by done. apply (inv_handle _ _ Hl).
  - intros e' t n. change (listeners (forget e s)) with (listeners s). rewrite (inv_listeners _ _ Hl). unfold events_at.
    destruct (decide (e' = e)) as [->|He]; [|by rewrite Hd]. fold (events_at e s). rewrite Ee, Hat. simpl.
    by split; [intros [_ [? ?]]|intros [? _]].
Qed.

Lemma removes_same mapped f sel orig rest names s s' h : same_functions s s' ->
  removes mapped f sel orig rest names s' h = removes mapped f sel orig rest names s h.
Proof. intros H. unfold removes, guid_of. by rewrite (same_guids _ _ H). Qed.

Definition key_dropped e f sel rest names s (ks : list jstr) (q : nat * handleObj) : bool :=
  existsb (fun k => dropped e k (removes true f sel [] rest names s) q) ks.

Lemma remove_keys_changed e f sel tok rest names ks s s' hs :
  parse_type tok = ([], rest, names) -> Forall (fun k => stable k /\ dot ∉ k) ks -> lists s hs -> numbers s hs ->
  remove_keys e f sel tok ks s = (Ok tt, s') ->
  changed e s s' (base.filter (fun q => key_dropped e f sel rest names s ks q = false) hs).
Proof.
  intros Hp Hks. revert s hs. induction Hks as [|k ks [Hk Hdot] Hks IH]; intros s hs Hl Hn; simpl.
  - intros [= <-]. rewrite filter_all by done. by split.
  - destruct (remove_key e f sel tok k s) as [[[]|] s1] eqn:E; [|done]. intros Hr.
    assert (Hc : changed e s s1 (kept e k (removes true f sel [] rest names s) hs)).
    { unfold remove_key in E. destruct (events (data_at e s)) as [ev|] eqn:Ev.
      - rewrite (parse_type_key _ _ _ _ Hp Hdot) in E.
        destruct (remove_type e true f sel k rest names s) as [[[]|] s2] eqn:E2; [|done]. injection E as <-.
        apply (remove_type_changed _ _ _ _ _ _ _ _ _ hs) in E2; [|done..]. rewrite (Hk sel) in E2.
        eapply changed_trans; [exact E2|]. by apply tidy_up_changed; destruct E2.
      - injection E as <-. unfold kept. rewrite filter_all; [by split|]. intros q Hq.
        unfold dropped. rewrite bool_decide_eq_false_2; [done|]. apply (nothing_bound e s hs); [done| |done].
        unfold events_at. by rewrite Ev. }
    destruct Hc as [Hl1 Hn1 Hs1]. specialize (IH _ _ Hl1 Hn1 Hr).
    eapply changed_trans; [split; [exact Hl1|exact Hn1|exact Hs1]|]. unfold kept in IH. rewrite list_filter_filter in IH.
    eapply changed_filter; [exact IH|]. intros q _. simpl. unfold key_dropped. simpl. rewrite orb_false_iff.
    rewrite (and_comm (dropped _ _ _ _ = false)).
    assert (Hx : existsb (fun k0 => dropped e k0 (removes true f sel [] rest names s1) q) ks =
                 existsb (fun k0 => dropped e k0 (removes true f sel [] rest names s) q) ks).
    { clear -Hs1. induction ks as [|k0 ks IH]; simpl; [done|]. rewrite IH. unfold dropped. by rewrite (removes_same _ _ _ _ _ _ s s1). }
    by rewrite Hx.
Qed.


(** Does a type given to [remove] describe the handler? *)
Definition token_drops e f sel s (tok : jstr) (q : nat * handleObj) : bool :=
  let '(orig, rest, names) := parse_type tok in
  bool_decide (q.1 = e) &&
  match orig with
  | [] => removes true f sel [] rest names s q.2
  | _ => bool_decide (h_type q.2 = mapped_type sel orig) && removes false f sel orig rest names s q.2
  end.

Lemma keys_sound e s hs : lists s hs -> numbers s hs -> Forall (fun k => stable k /\ dot ∉ k) (events_at e s).*1.
Proof.
  intros Hl Hn. apply Forall_forall. intros k Hk.
  assert (Hs : is_Some (assoc k (events_at e s))).
  { clear Hl Hn. induction (events_at e s) as [|[k' x] l IH]; [by apply elem_of_nil in Hk|]. simpl.
    case_decide; [by eexists|]. apply IH. by apply elem_of_cons in Hk as [?|?]. }
  rewrite (inv_events _ _ Hl) in Hs. destruct (on_type e k hs) as [|h l] eqn:E; [by destruct Hs|].
  assert (Hin : h ∈ on_type e k hs) by (rewrite E; left). apply of_elem in Hin as [Hin <-]. by apply (inv_types _ _ Hn) in Hin as (? & ? & _).
Qed.

Lemma keys_complete e s hs q : lists s hs -> q ∈ hs -> q.1 = e -> h_type q.2 ∈ (events_at e s).*1.
Proof.
  intros Hl Hq <-. pose proof (inv_events _ _ Hl q.1 (h_type q.2)) as Ha.
  assert (Hin : q.2 ∈ on_type q.1 (h_type q.2) hs) by (apply of_elem; by destruct q).
  destruct (on_type q.1 (h_type q.2) hs); [by apply elem_of_nil in Hin|]. apply assoc_elem in Ha.
  by apply (list_elem_of_fmap_2 fst) in Ha.
Qed.

Lemma remove_token_changed e f sel tok s s' hs : lists s hs -> numbers s hs ->
  remove_types e f sel [tok] s = (Ok tt, s') -> changed e s s' (base.filter (fun q => token_drops e f sel s tok q = false) hs).
Proof.
  intros Hl Hn. simpl. unfold token_drops. destruct (parse_type tok) as [[orig rest] names] eqn:Ep. destruct orig as [|x o].
  - destruct (remove_keys _ _ _ _ _ _) as [[[]|] s1] eqn:E; [|done]. intros [= <-].
    apply (remove_keys_changed _ _ _ _ rest names _ _ _ hs) in E; [|done|by eapply keys_sound|done..].
    eapply changed_filter; [exact E|]. intros q Hq. simpl. unfold key_dropped.
    destruct (bool_decide_reflect (q.1 = e)) as [He|He]; simpl.
    + rewrite <- not_true_iff_false, existsb_exists, <- not_true_iff_false. apply not_iff_compat. unfold dropped.
      split; [by intros (k & _ & [_ ?]%andb_prop)|]. intros Hr. exists (h_type q.2).
      split; [apply list_elem_of_In; by eapply keys_complete|]. by rewrite Hr, !bool_decide_eq_true_2.
    + split; [done|]. intros _. apply not_true_iff_false. rewrite existsb_exists. intros (k & _ & Hd).
      unfold dropped in Hd. by rewrite bool_decide_eq_false_2 in Hd.
  - destruct (remove_type _ _ _ _ _ _ _ _) as [[[]|] s1] eqn:E; [|done]. intros [= <-].
    apply (remove_type_changed _ _ _ _ _ _ _ _ _ hs) in E; [|done..]. unfold kept in E.
    eapply changed_filter; [exact E|]. intros q _. simpl. unfold dropped. by rewrite <- andb_assoc.
Qed.

Lemma remove_types_cons e f sel tok toks s :
  remove_types e f sel (tok :: toks) s =
  match remove_types e f sel [tok] s with (Ok _, s') => remove_types e f sel toks s' | x => x end.
Proof. simpl. destruct (parse_type tok) as [[orig rest] names]. by destruct (match orig with [] => _ | _ => _ end) as [[]]. Qed.

Lemma remove_types_changed e f sel toks s s' hs : lists s hs -> numbers s hs ->
  remove_types e f sel toks s = (Ok tt, s') ->
  changed e s s' (base.filter (fun q => existsb (fun tok => token_drops e f sel s tok q) toks = false) hs).
Proof.
  revert s hs. induction toks as [|tok toks IH]; intros s hs Hl Hn.
  - intros [= <-]. rewrite filter_all by done. by split.
  - rewrite remove_types_cons. destruct (remove_types e f sel [tok] s) as [[[]|] s1] eqn:E; [|done]. intros Hr.
    pose proof (remove_token_changed _ _ _ _ _ _ _ Hl Hn E) as Hc.
    specialize (IH _ _ (ch_lists _ _ _ _ Hc) (ch_numbers _ _ _ _ Hc) Hr). pose proof (ch_functions _ _ _ _ Hc) as Hs1.
    eapply changed_trans; [exact Hc|]. rewrite list_filter_filter in IH.
    eapply changed_filter; [exact IH|]. intros q _. simpl. rewrite orb_false_iff, (and_comm (token_drops _ _ _ _ _ _ = false)).
    assert (Hx : existsb (fun tok => token_drops e f sel s1 tok q) toks = existsb (fun tok => token_drops e f sel s tok q) toks).
    { clear -Hs1. induction toks as [|t ts IH]; simpl; [done|]. rewrite IH. unfold token_drops.
      destruct (parse_type t) as [[orig rest] names]. by rewrite !(removes_same _ _ _ _ _ _ s s1). }
    by rewrite Hx.
Qed.

(** ** The refinement *)

Lemma token_describes e f sel tok s hs q : numbers s hs -> q ∈ hs -> match f with Some f => not_one f | None => True end ->
  token_drops e f sel s tok q = describes e f sel tok (view s q).
Proof.
  intros Hn Hq Hf. destruct q as [e' h]. unfold token_drops, describes. simpl. destruct (parse_type tok) as [[orig rest] names].
  destruct (inv_guid _ _ Hn _ _ Hq) as (Hb & Hg & _).
  assert (Hr : forall mapped o, removes mapped f sel o rest names s h =
    (mapped || bool_decide (o = origType h)) && match f with None => true | Some f => bool_decide (base s (handler h) = f) end &&
    match rest with Some (_ :: _) => names_test names (namespace h) | _ => true end &&
    (negb (truthy_sel sel) || bool_decide (sel = selector h) || (bool_decide (sel = Some (js "**")) && truthy_sel (selector h)))).
  { intros mapped o. unfold removes, guid_of, removed_by. destruct f as [f|]; [|done]. destruct (guids s !! f) as [g|] eqn:E.
    - do 2 f_equal. f_equal. apply eq_true_iff_eq. rewrite Nat.eqb_eq, bool_decide_eq_true. split; [|intros <-; congruence].
      intros ->. by eapply (inv_inj _ _ Hn).
    - rewrite (bool_decide_eq_false_2 (base s (handler h) = f)) by (intros <-; congruence). by rewrite andb_false_r. }
  rewrite !Hr. destruct orig as [|x o]; simpl; [by rewrite !andb_assoc, andb_true_r|].
  rewrite (bool_decide_ext (origType h = x :: o) (x :: o = origType h)) by done. by rewrite !andb_assoc.
Qed.

End JqBindings.
