(* ===== verification/JqRefine.v ===== *)
(** [on], [one] and [off] of [jquery.js] refine the list of bindings of
    [JqBindings.v]: after any commands the lists of handlers, their counts of
    delegates and the listeners are the ones the bindings prescribe. *)

From S2P Require Import Prelude Regex SzMatch JqCallbacks JqEvent JqNamespace JqBindings.
Import JqEvent JqNamespace JqBindings.

Module JqRefine.

(** * One command *)

(** The store keeps the bindings [bs]. *)
Definition keeps (s : store) (bs : list binding) : Prop :=
  exists hs, lists s hs /\ numbers s hs /\ bs = view s <$> hs.

Lemma keeps_start : keeps store_start [].
Proof.
  exists []. split_and!; [|split; try done|done].
  - split; [done| |].
    + intros e [x Hx]. done.
    + intros e t n. split; [set_solver|]. by intros [? _].
  - by intros e h ?%elem_of_nil.
  - by intros e h ?%elem_of_nil.
  - by intros n [x Hx].
Qed.

Lemma view_new s e f g data sel tok : numbered s f g ->
  view s <$> (pair e <$> new_handlers f g data sel tok) = bind_type e (base s f) data sel (is_one f) tok.
Proof. intros _. unfold new_handlers, bind_type. destruct (parse_type tok) as [[[|x o] rest] names]; done. Qed.

Lemma view_news s e f g data sel toks : numbered s f g ->
  view s <$> (pair e <$> concat (new_handlers f g data sel <$> toks)) =
  concat (bind_type e (base s f) data sel (is_one f) <$> toks).
Proof.
  intros Hf. induction toks as [|tok toks IH]; [done|]. rewrite !fmap_cons. cbn [concat].
  rewrite !fmap_app, IH. f_equal. by eapply view_new.
Qed.

Lemma filter_view {A B} (v : A -> B) (P : A -> Prop) (Q : B -> Prop)
    `{forall q, Decision (P q)} `{forall b, Decision (Q b)} (hs : list A) :
  (forall q, q ∈ hs -> P q <-> Q (v q)) -> base.filter Q (v <$> hs) = v <$> base.filter P hs.
Proof.
  induction hs as [|q hs IH]; intros Hpq; [done|]. rewrite fmap_cons, !filter_cons.
  pose proof (Hpq q (list_elem_of_here _ _)). rewrite IH by (intros; apply Hpq; by right).
  repeat case_decide; try done; tauto.
Qed.

Section commands.
Variable d : gmap nat SzMatch.node.
Variable check_selector : jstr -> res unit.

(** The handler has its number when its types are added. *)
Lemma add_keeps e types f data sel s s' hs g s1 :
  lists s hs -> numbers s hs -> ensure_guid f s = (g, s1) -> numbers s1 hs -> numbered s1 f g -> extends s s1 ->
  data_of s1 = data_of s -> listeners s1 = listeners s -> add d check_selector e types f data sel s = (Ok tt, s') ->
  keeps s' (if acceptData d e then (view s <$> hs) ++ concat (bind_type e (base s1 f) data sel (is_one f) <$> rev (type_tokens types))
            else view s <$> hs).
Proof.
  intros Hl Hn Eg Hn1 Hf He Hd Hls. unfold add. destruct (acceptData d e); simpl; [|by intros [= <-]; exists hs].
  destruct (if truthy_sel sel then _ else _); [|done]. rewrite Eg. intros Ha.
  assert (Hl1 : lists s1 hs) by by eapply lists_frame.
  destruct (init_events_changed e s1 hs Hl1 Hn1) as [[Hl2 Hn2 Hs2] Hh].
  apply (add_types_changed _ _ _ g _ _ _ _ _ hs) in Ha; [|done..|by eapply same_numbered|done].
  destruct Ha as [Hl3 Hn3 Hs3]. assert (Hs : same_functions s1 s') by by etrans.
  eexists. split_and!; [exact Hl3|exact Hn3|]. rewrite fmap_app. f_equal.
  - symmetry. apply view_extends; [|done]. eapply extends_trans; [exact He|by apply same_extends].
  - rewrite view_news by by eapply same_numbered. by rewrite (same_base _ _ f Hs).
Qed.

Definition caller_handler (c : command) : Prop :=
  match c with Bind _ _ f _ _ _ => not_one f | Unbind _ _ f _ => match f with Some f => not_one f | None => True end end.

Lemma command_keeps c s s' bs : keeps s bs -> caller_handler c ->
  exec_command d check_selector c s = (Ok tt, s') -> keeps s' (spec_step d bs c).
Proof.
  intros (hs & Hl & Hn & ->) Hc. destruct c as [e types f data sel once|e types f sel]; simpl in *.
  - destruct once.
    + destruct (wrap_one f s) as [f' s1] eqn:Ew. intros Ha.
      destruct (wrap_one_numbers _ _ _ _ _ Hn Hc Ew) as (Hn1 & (g & Hg & Hf1) & Hb & Ho & He & Hd & Hls).
      assert (Eg : ensure_guid f' s1 = (g, s1)) by (unfold ensure_guid; by rewrite Hg).
      rewrite <- (view_extends s s1 hs) by done. rewrite <- Hb at 1. rewrite <- Ho.
      apply (add_keeps e types f' data sel s1 s' hs g s1); try done. by eapply lists_frame.
    + destruct (ensure_guid f s) as [g s1] eqn:Eg. intros Ha.
      destruct (ensure_guid_numbers _ _ _ _ _ Hn Hc Eg) as (Hn1 & Hf1 & He & Hd & Hls).
      assert (Hb : base s1 f = f) by by destruct f. assert (Ho : is_one f = false) by by destruct f.
      rewrite <- Hb at 1. rewrite <- Ho. by apply (add_keeps e types f data sel s s' hs g s1).
  - unfold remove. intros Hr.
    assert (Hch : changed e s s' (base.filter (fun q => existsb (fun tok => token_drops e f sel s tok q) (type_tokens types) = false) hs)).
    { destruct (events (data_at e s)) as [ev|] eqn:Ev.
      - destruct (remove_types _ _ _ _ _) as [[[]|] s1] eqn:E; [|done]. injection Hr as <-.
        apply (remove_types_changed _ _ _ _ _ _ hs) in E; [|done..].
        eapply changed_filter; [eapply changed_trans; [exact E|apply tidy_up_changed; by destruct E]|].
        intros q _. simpl. by rewrite existsb_rev.
      - injection Hr as <-. rewrite filter_all; [by split|]. intros q Hq. apply not_true_iff_false.
        rewrite existsb_exists. intros (tok & _ & Ht). unfold token_drops in Ht. destruct (parse_type tok) as [[? ?] ?].
        rewrite bool_decide_eq_false_2 in Ht; [done|]. apply (nothing_bound e s hs); [done| |done].
        unfold events_at. by rewrite Ev. }
    destruct Hch as [Hl1 Hn1 Hs1]. eexists. split_and!; [exact Hl1|exact Hn1|].
    rewrite (view_extends s s'); [|by apply same_extends|].
    2: { eapply numbers_update; [reflexivity|exact Hn|]. intros e' h [_ Hin]%list_elem_of_filter. by left. }
    apply filter_view.
    intros q Hq. rewrite <- not_true_iff_false. rewrite <- (not_true_iff_false (existsb _ _)). apply not_iff_compat.
    rewrite !existsb_exists. by setoid_rewrite (token_describes e f sel _ s hs q Hn Hq Hc).
Qed.

Lemma commands_keep cs s s' bs : keeps s bs -> Forall caller_handler cs ->
  exec_commands d check_selector cs s = Some s' -> keeps s' (foldl (spec_step d) bs cs).
Proof.
  intros Hk Hcs. revert s bs Hk. induction Hcs as [|c cs Hc Hcs IH]; intros s bs Hk; simpl; [by intros [= <-]|].
  destruct (exec_command d check_selector c s) as [[[]|] s1] eqn:E; [|done]. intros Hr.
  eapply IH; [|exact Hr]. by eapply command_keeps.
Qed.

End commands.
(** * All commands *)

(** The bindings of an element and a type, in their order *)
Definition bound (e : nat) (t : jstr) (bs : list binding) : list binding :=
  base.filter (fun b => b_elem b = e /\ b_type b = t) bs.

Definition delegated_bindings (bs : list binding) : list binding := base.filter (fun b => truthy_sel (b_sel b) = true) bs.
Definition direct_bindings (bs : list binding) : list binding := base.filter (fun b => truthy_sel (b_sel b) = false) bs.

Lemma bound_view s e t hs : bound e t (view s <$> hs) = (fun h => view s (e, h)) <$> on_type e t hs.
Proof.
  unfold bound, on_type. rewrite (filter_view (view s) (fun p => p.1 = e /\ h_type p.2 = t) (fun b => b_elem b = e /\ b_type b = t)) by done.
  rewrite <- list_fmap_compose. apply list_fmap_ext. intros i [e' h] Hi.
  by apply list_elem_of_lookup_2, list_elem_of_filter in Hi as [[<- _] _].
Qed.


Definition sample_commands : list command :=
  [Bind 1 (js "click.a focus") (FUser 1) ArgNone (Some (js "li")) false;
   Bind 1 (js "click.b mouseenter") (FUser 2) ArgNone None false;
   Bind 1 (js "click") (FUser 1) ArgNone (Some (js "b")) true;
   Unbind 1 (js "click.a") None None;
   Bind 2 (js "keyup") FFalse (ArgData 7) None false;
   Unbind 2 [] None None;
   Bind 1 (js "click.c") (FUser 3) ArgNone None true;
   Unbind 1 (js ".b") (Some (FUser 2)) None].


End JqRefine.
