(* ===== verification/JqDispatch.v ===== *)
(** What [jQuery.event.dispatch] calls: the handlers bound to the type of the event,
    delegated ones from the target upwards and then the direct ones, whatever the
    handlers themselves bind and unbind meanwhile. *)

From S2P Require Import Prelude Regex SzMatch SzReference SzSelect JqCallbacks JqEvent JqNamespace JqBindings JqRefine.
Import SzReference JqEvent JqNamespace JqBindings JqRefine.

Module JqDispatch.

(** * Code of the page *)

(** What the code of the page may do to the store: anything the library offers, but
    the dispatches it starts itself are not counted, and wrappers stay what they are. *)
Definition grows (s s' : store) : Prop := wrapped s ⊆ wrapped s'.
Record later (s s' : store) : Prop := { later_calls : calls s' = calls s; later_grows : grows s s' }.

#[global] Instance grows_preorder : PreOrder grows.
Proof. unfold grows. split; [by intros s|]. intros s1 s2 s3 H1 H2. by etrans. Qed.

#[global] Instance later_preorder : PreOrder later.
Proof. split; [by intros s; split|]. intros s1 s2 s3 [] []. split; [congruence|by etrans]. Qed.

(** What it does not change in an event; nothing takes a stop back. *)
Definition same_event (ev ev' : event) : Prop :=
  rnamespace ev' = rnamespace ev /\ relatedTarget ev' = relatedTarget ev /\
  (propagationStopped ev = true -> propagationStopped ev' = true).

#[global] Instance same_event_preorder : PreOrder same_event.
Proof. split; [by intros ev|]. intros ? ? ? (? & ? & ?) (? & ? & ?). split_and!; [congruence..|auto]. Qed.

(** A function that can be called: a wrapper of [one] has a function of the page. *)
Definition known (s : store) (f : fn) : Prop :=
  not_one (base s f) /\ match f with FOne n => is_Some (wrapped s !! n) | _ => True end.

Lemma known_grows s s' f : grows s s' -> known s f -> known s' f /\ base s' f = base s f.
Proof.
  intros Hw [Hb Hk]. destruct f as [n|n|]; [done| |done]. destruct Hk as [f Hn].
  pose proof (lookup_weaken _ _ _ _ Hn Hw) as Hn'. unfold known, base in *. rewrite Hn, Hn' in *. simpl in *.
  by split; [split|].
Qed.

(** ** [remove] *)

Lemma later_same s s' : calls s' = calls s -> wrapped s' = wrapped s -> later s s'.
Proof. intros H1 H2. split; [done|]. unfold grows. by rewrite H2. Qed.

Lemma remove_type_later e mapped f sel orig rest names s r s' :
  remove_type e mapped f sel orig rest names s = (r, s') -> later s s'.
Proof.
  unfold remove_type. case_match; [|by intros [= _ <-]]. intros [= _ <-].
  repeat case_match; by apply later_same.
Qed.

Lemma tidy_up_later e s : later s (tidy_up e s).
Proof. unfold tidy_up. by case_match; apply later_same. Qed.

Lemma remove_keys_later e f sel tok ks s r s' : remove_keys e f sel tok ks s = (r, s') -> later s s'.
Proof.
  revert s. induction ks as [|k ks IH]; intros s; simpl; [by intros [= _ <-]|].
  destruct (remove_key e f sel tok k s) as [r1 s1] eqn:E.
  assert (H1 : later s s1).
  { unfold remove_key in E. destruct (events _); [|by injection E as _ <-]. destruct (parse_type _) as [[orig rest] names].
    destruct (remove_type _ _ _ _ _ _ _ _) as [r2 s2] eqn:E2. apply remove_type_later in E2.
    destruct r2; injection E as _ <-; [|done]. etrans; [done|apply tidy_up_later]. }
  destruct r1; [|by intros [= _ <-]]. intros Hr. etrans; [done|by eapply IH].
Qed.

Lemma remove_types_later e f sel toks s r s' : remove_types e f sel toks s = (r, s') -> later s s'.
Proof.
  revert s. induction toks as [|tok toks IH]; intros s; simpl; [by intros [= _ <-]|].
  destruct (parse_type tok) as [[orig rest] names].
  destruct (match orig with [] => _ | _ => _ end) as [r1 s1] eqn:E.
  assert (H1 : later s s1) by (destruct orig; [by eapply remove_keys_later|by eapply remove_type_later]).
  destruct r1; [|by intros [= _ <-]]. intros Hr. etrans; [done|by eapply IH].
Qed.

Lemma remove_later e types f sel s r s' : remove e types f sel s = (r, s') -> later s s'.
Proof.
  unfold remove. destruct (events _); [|by intros [= _ <-]].
  destruct (remove_types _ _ _ _ _) as [r1 s1] eqn:E. apply remove_types_later in E.
  destruct r1; intros [= _ <-]; [|done]. etrans; [done|apply tidy_up_later].
Qed.

Lemma off_event_later ev s r s' : off_event ev s = (r, s') -> later s s'.
Proof.
  unfold off_event. destruct (e_handleObj ev) as [h|]; [|by intros [= _ <-]].
  destruct (delegateTarget ev); [|by intros [= _ <-]]. apply remove_later.
Qed.

(** * Running handlers *)

Section runs.
Variable d : gmap nat SzMatch.node.
Variable fuel : nat.
Variable call : nat -> nat -> event -> store -> outcome (answer * event).

Definition well_behaved : Prop := forall n elem ev s r s', call n elem ev s = (r, s') ->
  later s s' /\ match r with Ok (_, ev') => same_event ev ev' | _ => True end.

Hypothesis Hcall : well_behaved.

(** Functions that answer false whenever they answer *)
Definition refuses (f : fn) : Prop :=
  match f with
  | FUser n => forall e ev s a ev' s', call n e ev s = (Ok (a, ev'), s') -> a = AFalse
  | FFalse => True
  | FOne _ => False
  end.

(** The calls that a run may make are [l]: it makes the first of them, and all when
    it ends without an exception and without stopping at once; it ends halted when
    one of them has refused. *)
Definition makes {A} (stopped : A -> bool) (halted : A -> Prop) (l : list (fn * nat)) (s : store) (r : res A) (s' : store)
  : Prop :=
  exists l1 l2, l = l1 ++ l2 /\ calls s' = calls s ++ l1 /\ grows s s' /\
    match r with
    | Ok a => (stopped a = false -> l2 = []) /\ (forall p, p ∈ l1 -> refuses p.1 -> halted a)
    | Throw _ => True
    end.

Lemma makes_none {A} (stopped : A -> bool) halted l s r s' : later s s' ->
  match r with Ok a => stopped a = false -> l = [] | Throw _ => True end -> makes stopped halted l s r s'.
Proof using Type.
  intros [H1 H2] Hr. exists [], l. rewrite app_nil_r. split_and!; [done..|]. destruct r; [|done].
  split; [done|]. by intros p ?%elem_of_nil.
Qed.

Lemma makes_map {A B} (stopped : A -> bool) (stopped' : B -> bool) halted halted' l s r r' s' :
  makes stopped halted l s r s' ->
  (forall b, r' = Ok b -> exists a, r = Ok a /\ (stopped' b = false -> stopped a = false) /\ (halted a -> halted' b)) ->
  makes stopped' halted' l s r' s'.
Proof using Type.
  intros (l1 & l2 & E & Hc & Hg & Hr) Hb. exists l1, l2. split_and!; [done..|]. destruct r' as [b|]; [|done].
  destruct (Hb b eq_refl) as (a & -> & Ha & Hh). destruct Hr as [Hr1 Hr2]. split; [auto|]. intros p Hp Hf. eauto.
Qed.

Definition always {A} (_ : A) : bool := false.
Definition says_no (x : answer * event) : Prop := x.1 = AFalse.
Definition is_stopped (ev : event) : Prop := propagationStopped ev = true.

Lemma apply_fn_makes n f elem ev s r s' : 1 < n -> known s f -> apply_fn call n f elem ev s = (r, s') ->
  makes always says_no [(base s f, elem)] s r s' /\ match r with Ok (_, ev') => same_event ev ev' | _ => True end.
Proof using Hcall.
  assert (Hlast : forall n f s r s', not_one f -> apply_fn call (S n) f elem ev s = (r, s') ->
            makes always says_no [(f, elem)] s r s' /\ match r with Ok (_, ev') => same_event ev ev' | _ => True end).
  { clear -Hcall. intros n f s r s' Hf. destruct f as [m|m|]; [|done|]; simpl.
    - intros Hc. destruct (Hcall _ _ _ _ _ _ Hc) as [[H1 H2] He]. split; [|done]. exists [(FUser m, elem)], [].
      split_and!; [done..|]. destruct r as [[a ev']|]; [|done]. split; [done|].
      intros p ->%list_elem_of_singleton Hr. exact (Hr _ _ _ _ _ _ Hc).
    - intros [= <- <-]. split; [|done]. exists [(FFalse, elem)], [].
      split_and!; [done|done|exact (reflexivity (wrapped s))|done|done]. }
  intros Hn [Hb Hk]. destruct n as [|n]; [lia|]. destruct f as [m|m|]; [by apply Hlast| |by apply Hlast].
  destruct Hk as [f Hm]. destruct n as [|n]; [lia|]. cbn [apply_fn].
  assert (Ef : base s (FOne m) = f) by (unfold base; by rewrite Hm). rewrite Ef in Hb |- *.
  destruct (off_event ev s) as [r1 s1] eqn:Eo. apply off_event_later in Eo as Hl. destruct r1 as [a|x].
  - rewrite (lookup_weaken _ _ _ _ Hm (later_grows _ _ Hl)). simpl default. intros Hr.
    apply Hlast in Hr as [(l1 & l2 & E & H1 & H2 & H3) He]; [|done]. split; [|done]. destruct Hl as [Hc Hg].
    exists l1, l2. split_and!; [done|by rewrite H1, Hc|by etrans|done].
  - intros [= <- <-]. split; [|done]. by apply makes_none.
Qed.

(** [mouseenter] and its like are for moves from the outside only. *)
Definition enters (ev : event) (elem : nat) (orig : jstr) : bool :=
  match assoc orig over_out, relatedTarget ev with
  | Some _, Some related => negb (bool_decide (related = elem)) && negb (contains d fuel elem related)
  | _, _ => true
  end.

Definition called (ev : event) (elem : nat) (orig ns : jstr) : bool :=
  match rnamespace ev with None => true | Some names => names_test names ns end && enters ev elem orig.

Lemma invoke_makes h elem ev s r s' : known s (handler h) -> invoke d fuel call h elem ev s = (r, s') ->
  makes always says_no (if enters ev elem (origType h) then [(base s (handler h), elem)] else []) s r s' /\
  match r with Ok (_, ev') => same_event ev ev' | _ => True end.
Proof using Hcall.
  intros Hk. pose proof (fun ev r s' => apply_fn_makes (2 + fresh s) (handler h) elem ev s r s' ltac:(lia) Hk) as Hn.
  unfold invoke, enters. destruct (assoc (origType h) over_out) as [fix_|]; [|by apply Hn].
  destruct (match relatedTarget ev with None => true | Some _ => _ end) eqn:Er.
  - destruct (apply_fn _ _ _ _ _ _) as [r1 s1] eqn:Ea. apply Hn in Ea as [Hm He].
    destruct r1 as [[a ev']|x]; intros [= <- <-]; [|done]. split; [|exact He]. eapply makes_map; [exact Hm|]. intros b [= <-]. eexists. split; [done|]. split; done.
  - intros [= <- <-]. split; [|done]. by apply makes_none.
Qed.

Definition calls_of (s : store) (ev : event) (g : nat * list handleObj) : list (fn * nat) :=
  (fun h => (base s (handler h), g.1)) <$> base.filter (fun h => called ev g.1 (origType h) (namespace h) = true) g.2.

Lemma called_same ev ev' : same_event ev ev' -> called ev' = called ev.
Proof. intros (H1 & H2 & _). unfold called, enters. by rewrite H1, H2. Qed.

Lemma run_handlers_makes elem hs ev0 s0 ev s r s' :
  Forall (fun h => known s0 (handler h)) hs -> grows s0 s -> same_event ev0 ev ->
  run_handlers d fuel call elem hs ev s = (r, s') ->
  makes immediateStopped is_stopped (calls_of s0 ev0 (elem, hs)) s r s' /\ match r with Ok ev' => same_event ev ev' | _ => True end.
Proof using Hcall.
  intros Hk. revert ev s. induction Hk as [|h hs Hh Hhs IH]; intros ev s Hg He; simpl.
  - intros [= <- <-]. split; [|done]. by apply makes_none.
  - destruct (immediateStopped ev) eqn:Ei.
    { intros [= <- <-]. split; [|done]. apply makes_none; [done|]. by rewrite Ei. }
    assert (Ec : calls_of s0 ev0 (elem, h :: hs) =
              (if in_namespace ev h && enters ev elem (origType h) then [(base s0 (handler h), elem)] else []) ++ calls_of s0 ev0 (elem, hs)).
    { change (in_namespace ev h && enters ev elem (origType h)) with (called ev elem (origType h) (namespace h)).
      rewrite (called_same _ _ He). unfold calls_of. simpl. destruct (called ev0 elem _ _) eqn:Ed.
      - by rewrite filter_cons_True.
      - rewrite filter_cons_False; [done|]. by rewrite Ed. }
    rewrite Ec. clear Ec. destruct (in_namespace ev h); [|by apply IH].
    destruct (invoke _ _ _ _ _ _ _) as [r1 s1] eqn:E1. destruct (known_grows _ _ _ Hg Hh) as [Hh' Hb].
    apply invoke_makes in E1 as [(l1 & l2 & E & Hc & Hg1 & Hr1) He1]; [|done]. rewrite Hb in E.
    change (enters (set_handleObj h ev)) with (enters ev) in E. simpl andb. rewrite E. destruct r1 as [[a ev1]|x].
    + destruct Hr1 as [Hr1 Hno]. rewrite (Hr1 eq_refl), app_nil_r. intros Hr.
      assert (Hev : same_event ev (take_answer a ev1)).
      { destruct He1 as (H1 & H2 & H3). destruct a; split_and!; simpl in *; auto. }
      apply IH in Hr as [(l3 & l4 & E' & Hc' & Hg' & Hr') He']; [|by etrans|by etrans].
      split; [|destruct r as [ev'|]; [by etrans|done]].
      exists (l1 ++ l3), l4. rewrite E', Hc', Hc, !app_assoc. split_and!; [done..|by etrans|].
      destruct r as [ev'|]; [|done]. destruct Hr' as [Hr' Hs]. split; [done|].
      intros p [Hp|Hp]%elem_of_app Hf; [|by eapply Hs]. unfold is_stopped. destruct He' as (_ & _ & Hst). apply Hst.
      pose proof (Hno p Hp Hf) as Ha. unfold says_no in Ha. simpl in Ha. by rewrite Ha.
    + intros [= <- <-]. split; [|done]. exists l1, (l2 ++ calls_of s0 ev0 (elem, hs)). by rewrite <- app_assoc.
Qed.

Lemma run_queue_stopped queue ev s r s' : immediateStopped ev = true -> run_queue d fuel call queue ev s = (r, s') ->
  calls s' = calls s /\ match r with Ok ev' => immediateStopped ev' = true | _ => True end.
Proof using Type.
  revert ev. induction queue as [|[elem hs] queue IH]; intros ev Hi; simpl; [by intros [= <- <-]|].
  destruct (propagationStopped ev); [by intros [= <- <-]|].
  assert (run_handlers d fuel call elem hs (set_current elem ev) s = (Ok (set_current elem ev), s)) as ->
    by (destruct hs; simpl; by rewrite ?Hi).
  by apply IH.
Qed.

Lemma run_queue_makes queue ev0 s0 ev s r s' :
  Forall (fun g => Forall (fun h => known s0 (handler h)) g.2) queue -> grows s0 s -> same_event ev0 ev ->
  run_queue d fuel call queue ev s = (r, s') ->
  exists l1 l2, concat (calls_of s0 ev0 <$> queue) = l1 ++ l2 /\ calls s' = calls s ++ l1 /\
    forall ev', r = Ok ev' -> immediateStopped ev' = false ->
      exists j, l1 = concat (calls_of s0 ev0 <$> take j queue) /\ (propagationStopped ev' = false -> l2 = []) /\
        forall p, p ∈ concat (calls_of s0 ev0 <$> take (pred j) queue) -> ~ refuses p.1.
Proof using Hcall.
  intros Hk. revert ev s. induction Hk as [|[elem hs] queue Hh Hq IH]; intros ev s Hg He; cbn [run_queue].
  - intros [= <- <-]. exists [], []. split_and!; [done|by rewrite app_nil_r|]. intros ev' _ _. exists 0.
    split_and!; [done..|]. by intros p ?%elem_of_nil.
  - rewrite fmap_cons. cbn [concat]. destruct (propagationStopped ev) eqn:Ep.
    { intros [= <- <-]. exists [], (calls_of s0 ev0 (elem, hs) ++ concat (calls_of s0 ev0 <$> queue)).
      split_and!; [done|by rewrite app_nil_r|]. intros ev' [= <-] _. exists 0. rewrite Ep.
      split_and!; [done..|]. by intros p ?%elem_of_nil. }
    destruct (run_handlers _ _ _ _ _ _ _) as [r1 s1] eqn:E1.
    apply (run_handlers_makes elem hs ev0 s0) in E1 as [(l1 & l2 & E & Hc & Hg1 & Hr1) He1]; [|done..].
    destruct r1 as [ev1|x].
    + destruct Hr1 as [Hr1 Hno]. intros Hr. destruct (immediateStopped ev1) eqn:Ei.
      * apply run_queue_stopped in Hr as [Hc2 Hs2]; [|done].
        exists l1, (l2 ++ concat (calls_of s0 ev0 <$> queue)). rewrite E, Hc2, <- app_assoc. split_and!; [done..|].
        intros ev' ->. by rewrite Hs2.
      * rewrite (Hr1 eq_refl), app_nil_r in E. destruct (propagationStopped ev1) eqn:Ep1.
        -- assert (r = Ok ev1 /\ s' = s1) as [-> ->].
           { destruct queue as [|[e2 hs2] queue]; cbn [run_queue] in Hr; [by simplify_eq|]. rewrite Ep1 in Hr. by simplify_eq. }
           exists l1, (concat (calls_of s0 ev0 <$> queue)). rewrite E. split_and!; [done..|].
           intros ev' [= <-] _. exists 1. rewrite Ep1. simpl. rewrite app_nil_r. split_and!; [done..|]. by intros p ?%elem_of_nil.
        -- apply IH in Hr as (l3 & l4 & E' & Hc' & Hj); [|by etrans|by etrans].
           exists (l1 ++ l3), l4. rewrite E, E', Hc', Hc, !app_assoc. split_and!; [done..|].
           intros ev' Er Hi. destruct (Hj ev' Er Hi) as (j & -> & Hp & Hn). exists (S j). split_and!; [by rewrite <- E|done|].
           intros p Hin Hf. destruct j as [|j]; [by apply elem_of_nil in Hin|]. simpl in Hin. rewrite E in Hin.
           apply elem_of_app in Hin as [Hin|Hin]; [|by apply (Hn p)].
           pose proof (Hno p Hin Hf) as Hst. unfold is_stopped in Hst. congruence.
    + intros [= <- <-]. exists l1, (l2 ++ concat (calls_of s0 ev0 <$> queue)). by rewrite E, <- app_assoc.
Qed.

End runs.


(** * The queue of handlers *)

Section queue.
Variable d : gmap nat SzMatch.node.
Variable find_one : bool -> jstr -> nat -> nat -> bool.

(** Does the selector of a delegated handler match [cur] below [this]? *)
Definition selects (this cur : nat) (sel : option jstr) : bool :=
  find_one (test needsContext_pattern (default [] sel)) (default [] sel ++ js " ") this cur.

Definition delegate (h : handleObj) : Prop :=
  exists x sel, selector h = Some (x :: sel) /\ needsContext h = test needsContext_pattern (x :: sel).

(** The answers kept for selectors are the ones that would be given again. *)
Lemma matched_handlers_correct this cur hs m : Forall delegate hs ->
  (forall h b, h ∈ hs -> assoc (default (js "undefined") (selector h) ++ js " ") m = Some b -> b = selects this cur (selector h)) ->
  matched_handlers find_one this cur hs m = base.filter (fun h => selects this cur (selector h) = true) hs.
Proof.
  intros Hd. revert m. induction Hd as [|h hs (x & sel & Es & En) Hd IH]; intros m Hm; [done|]. cbn [matched_handlers].
  set (key := default _ _ ++ _). set (b := match assoc key m with Some b => b | None => _ end).
  assert (Hb : b = selects this cur (selector h)).
  { unfold b. destruct (assoc key m) as [b0|] eqn:E; [by apply (Hm h); [left|]|]. unfold selects, key. by rewrite Es, En. }
  clearbody b. rewrite IH.
  - subst b. destruct (selects this cur (selector h)) eqn:E; [by rewrite filter_cons_True|].
    rewrite filter_cons_False; [done|]. by rewrite E.
  - intros h' b' Hin. rewrite assoc_set_lookup. case_decide as Ek; [|by apply Hm; right]. intros [= <-].
    rewrite Forall_forall in Hd. destruct (Hd h' Hin) as (x' & sel' & Es' & _). unfold key in Ek. rewrite Es, Es' in Ek.
    rewrite Hb, Es, Es'. do 2 f_equal. symmetry. change (default (js "undefined") (Some ?s)) with s in Ek. by apply (app_inj_tail_iff _ _ (chr " ") (chr " ")) in Ek as [? _].
Qed.

(** The nodes before [this] *)
Fixpoint until (this : nat) (l : list nat) : list nat :=
  match l with [] => [] | x :: l' => if bool_decide (x = this) then [] else x :: until this l' end.

(** Elements that are not disabled for a click *)
Definition live (ev : event) (cur : nat) : bool :=
  SzMatch.is_element d cur && negb (bool_decide (e_type ev = js "click") && bool_decide (d !! cur ≫= SzMatch.disabled = Some true)).

(** From the target up to the element of the listener, without it *)
Definition path (fuel : nat) (this : nat) (ev : event) : list nat :=
  base.filter (fun cur => live ev cur = true) (until this (target ev :: trail (SzMatch.parent_of d) fuel (target ev))).

Definition nonempty (g : nat * list handleObj) : Prop := g.2 <> [].

#[global] Instance nonempty_dec g : Decision (nonempty g).
Proof. unfold nonempty. apply _. Defined.

Definition matching (this : nat) (hs : list handleObj) (cur : nat) : nat * list handleObj :=
  (cur, base.filter (fun h => selects this cur (selector h) = true) hs).

Lemma delegates_correct depth fuel0 (T : tree d depth fuel0) n fuel this cur ev hs : Forall delegate hs ->
  depth cur < n -> depth cur <= fuel ->
  delegates d find_one n this cur ev hs =
  Ok (base.filter nonempty (matching this hs <$>
       base.filter (fun cur => live ev cur = true) (until this (cur :: trail (SzMatch.parent_of d) fuel cur)))).
Proof.
  intros Hd. revert fuel cur. induction n as [|n IH]; intros fuel cur Hn Hf; [lia|]. cbn [delegates until].
  destruct (bool_decide_reflect (cur = this)) as [|Hne]; [done|].
  assert (Hrest : delegates d find_one n this (default this (SzMatch.parent_of d cur)) ev hs =
    Ok (base.filter nonempty (matching this hs <$>
       base.filter (fun cur => live ev cur = true) (until this (trail (SzMatch.parent_of d) fuel cur))))).
  { destruct (SzMatch.parent_of d cur) as [p|] eqn:Ep; simpl default.
    - pose proof (parent_depth _ _ _ T _ _ Ep). destruct fuel as [|fuel]; [lia|]. cbn [trail]. rewrite Ep. apply IH; lia.
    - assert (trail (SzMatch.parent_of d) fuel cur = []) as -> by (destruct fuel; cbn [trail]; by rewrite Ep).
      destruct n; cbn [delegates]; by rewrite bool_decide_eq_true_2. }
  rewrite Hrest. cbn [rbind]. rewrite matched_handlers_correct by (done || by intros).
  change (SzMatch.is_element d cur && _) with (live ev cur).
  destruct (live ev cur) eqn:El.
  - rewrite filter_cons_True by done. rewrite fmap_cons. destruct (base.filter _ hs) as [|h ms] eqn:Em.
    + rewrite filter_cons_False; [done|]. unfold nonempty, matching. rewrite Em. intros []. done.
    + rewrite filter_cons_True; [|unfold nonempty, matching; by rewrite Em]. unfold matching at 2. by rewrite Em.
  - rewrite filter_cons_False; [done|]. by rewrite El.
Qed.

(** Clicks of the secondary button and nodes without a type are for direct handlers only. *)
Definition delegating (ev : event) : bool :=
  match d !! target ev with Some x => negb (N.eqb (SzMatch.nodeType x) 0) | None => false end
  && negb (bool_decide (e_type ev = js "click") && match button ev with Some b => Z.leb 1 b | None => false end).

Definition queue_of (fuel : nat) (this : nat) (ev : event) (dels dirs : list handleObj) : list (nat * list handleObj) :=
  (if delegating ev then matching this dels <$> path fuel this ev else []) ++ [(this, dirs)].

Lemma matching_none this l : base.filter nonempty (matching this [] <$> l) = [].
Proof. induction l as [|x l IH]; [done|]. rewrite fmap_cons, filter_cons_False; [done|]. intros []. done. Qed.

Lemma handlers_correct depth fuel (T : tree d depth fuel) this ev l : Forall delegate (take (delegateCount l) (objs l)) ->
  handlers d (S fuel) find_one this ev l =
  Ok (base.filter nonempty (queue_of fuel this ev (take (delegateCount l) (objs l)) (drop (delegateCount l) (objs l)))).
Proof.
  intros Hd. unfold handlers, queue_of. rewrite <- andb_assoc. fold (delegating ev). rewrite filter_app.
  assert (Hdir : base.filter nonempty [(this, drop (delegateCount l) (objs l))] =
    if Nat.ltb (delegateCount l) (length (objs l)) then [(this, drop (delegateCount l) (objs l))] else []).
  { destruct (Nat.ltb_spec (delegateCount l) (length (objs l))).
    - rewrite filter_cons_True; [done|]. unfold nonempty. simpl. intros E. apply (f_equal length) in E.
      rewrite length_drop in E. simpl in E. lia.
    - rewrite filter_cons_False; [done|]. unfold nonempty. simpl. rewrite drop_ge by done. tauto. }
  rewrite Hdir. clear Hdir. destruct (Nat.eqb_spec (delegateCount l) 0) as [E|]; simpl andb.
  - rewrite E. simpl take. destruct (delegating ev); [rewrite matching_none|]; simpl; by case_match.
  - destruct (delegating ev); cbn [andb negb rbind]; [|simpl; by case_match].
    pose proof (depth_fuel _ _ _ T (target ev)).
    rewrite (delegates_correct depth fuel T _ fuel); [|done|lia|lia].
    cbn [rbind]. fold (path fuel this ev). case_match; [done|]. by rewrite app_nil_r.
Qed.

(** What the bindings [bs] of the type of the event make it call. *)
Definition group (ev : event) (fuel : nat) (cur : nat) (bs : list binding) : list (fn * nat) :=
  (fun b => (b_fn b, cur)) <$> base.filter (fun b => called d fuel ev cur (b_orig b) (b_ns b) = true) bs.

Definition expected (fuel : nat) (this : nat) (ev : event) (bs : list binding) : list (list (fn * nat)) :=
  (if delegating ev
   then (fun cur => group ev (S fuel) cur (base.filter (fun b => selects this cur (b_sel b) = true) (delegated_bindings bs)))
          <$> path fuel this ev
   else [])
  ++ [group ev (S fuel) this (direct_bindings bs)].

End queue.

(** ** Empty groups *)

Lemma concat_nonempty {A} (f : nat * list handleObj -> list A) gs : (forall x, f (x, []) = []) ->
  concat (f <$> base.filter nonempty gs) = concat (f <$> gs).
Proof.
  intros Hf. induction gs as [|[x hs] gs IH]; [done|]. destruct hs as [|h hs].
  - rewrite filter_cons_False by (intros []; done). rewrite fmap_cons. cbn [concat]. by rewrite Hf, IH.
  - rewrite filter_cons_True by done. rewrite !fmap_cons. cbn [concat]. by rewrite IH.
Qed.

Lemma take_nonempty {A} (f : nat * list handleObj -> list A) gs j : (forall x, f (x, []) = []) ->
  exists j', concat (f <$> take j (base.filter nonempty gs)) = concat (take j' (f <$> gs)) /\
    concat (f <$> take (pred j) (base.filter nonempty gs)) = concat (take (pred j') (f <$> gs)) /\ (j = 0 \/ 0 < j').
Proof.
  intros Hf. revert j. induction gs as [|[x hs] gs IH]; intros j; [exists 1; destruct j as [|[|j]]; auto|].
  destruct j as [|j]; [exists 0; auto|]. destruct hs as [|h hs].
  - rewrite filter_cons_False by (intros []; done). destruct (IH (S j)) as (j' & E1 & E2 & [|Hj]); [done|].
    rewrite E1, E2, fmap_cons. destruct j' as [|j']; [lia|]. exists (S (S j')). simpl. rewrite Hf. split_and!; [done..|lia].
  - rewrite filter_cons_True by done. destruct (IH j) as (j' & E1 & E2 & Hj). destruct j as [|j].
    + exists 1. rewrite fmap_cons. split_and!; [done..|lia].
    + destruct j' as [|j']; [lia|]. exists (S (S j')). simpl pred in *. rewrite !firstn_cons, !fmap_cons, !firstn_cons.
      cbn [concat]. split_and!; [by f_equal|by f_equal|lia].
Qed.

(** * Dispatching *)

Lemma run_handlers_ok d fuel call elem hs ev s : (forall n e ev s, exists x s', call n e ev s = (Ok x, s')) ->
  Forall (fun h => is_one (handler h) = false) hs -> exists ev' s', run_handlers d fuel call elem hs ev s = (Ok ev', s').
Proof.
  intros Hc Hh. revert ev s. induction Hh as [|h hs Hh _ IH]; intros ev s; simpl; [eauto|].
  destruct (immediateStopped ev); [eauto|]. destruct (in_namespace ev h); [|apply IH].
  assert (Ha : forall n ev s, exists x s', apply_fn call n (handler h) elem ev s = (Ok x, s')).
  { clear -Hc Hh. intros n ev s. destruct n, (handler h); try done; simpl; eauto. }
  unfold invoke. destruct (assoc _ _).
  - destruct (match relatedTarget _ with None => true | _ => _ end); [|apply IH].
    destruct (Ha (2 + fresh s) (JqEvent.set_type (origType h) (set_handleObj h ev)) s) as ([a ev'] & s' & ->). apply IH.
  - destruct (Ha (2 + fresh s) (set_handleObj h ev) s) as ([a ev'] & s' & ->). apply IH.
Qed.

Lemma run_queue_ok d fuel call queue ev s : (forall n e ev s, exists x s', call n e ev s = (Ok x, s')) ->
  Forall (fun g => Forall (fun h => is_one (handler h) = false) g.2) queue ->
  exists ev' s', run_queue d fuel call queue ev s = (Ok ev', s').
Proof.
  intros Hc Hq. revert ev s. induction Hq as [|[elem hs] queue Hh _ IH]; intros ev s; simpl; [eauto|].
  destruct (propagationStopped ev); [eauto|].
  destruct (run_handlers_ok d fuel call elem hs (set_current elem ev) s Hc Hh) as (ev' & s' & ->). apply IH.
Qed.

Lemma keeps_handlers s bs e t : keeps s bs -> exists l,
  handlers_at e t s = arrange l /\ bound e t bs = (fun h => view s (e, h)) <$> l /\
  Forall (fun h => known s (handler h)) l /\ Forall typed l.
Proof.
  intros (hs & Hl & Hn & ->). exists (on_type e t hs). split; [by apply lists_handlers|]. split; [apply bound_view|].
  split; apply Forall_forall; intros h [Hin _]%of_elem.
  - destruct (inv_guid _ _ Hn _ _ Hin) as (Hb & _ & Hw). by split.
  - by apply (inv_types _ _ Hn) in Hin.
Qed.

Lemma delegated_delegate l : Forall typed l -> Forall delegate (delegated l).
Proof.
  rewrite !Forall_forall. intros Hl h [Hs Hin]%list_elem_of_filter. destruct (Hl h Hin) as (_ & _ & Hn).
  unfold delegate. destruct (selector h) as [[|x sel]|]; try done. rewrite Hs in Hn. by exists x, sel.
Qed.

Lemma calls_of_view d fuel s ev cur l :
  calls_of d fuel s ev (cur, l) = group d ev fuel cur ((fun h => view s (cur, h)) <$> l).
Proof.
  unfold calls_of, group. simpl.
  rewrite (filter_view (fun h => view s (cur, h)) (fun h => called d fuel ev cur (origType h) (namespace h) = true)
             (fun b => called d fuel ev cur (b_orig b) (b_ns b) = true)) by done.
  by rewrite <- list_fmap_compose.
Qed.

(** The groups do not tell which element a binding is for. *)
Lemma group_view d fuel s ev cur e l :
  group d ev fuel cur ((fun h => view s (cur, h)) <$> l) = group d ev fuel cur ((fun h => view s (e, h)) <$> l).
Proof. rewrite <- calls_of_view. unfold calls_of, group. simpl.
  rewrite (filter_view (fun h => view s (e, h)) (fun h => called d fuel ev cur (origType h) (namespace h) = true)
             (fun b => called d fuel ev cur (b_orig b) (b_ns b) = true)) by done.
  by rewrite <- list_fmap_compose.
Qed.

Lemma expected_view d find_one fuel this ev s l :
  calls_of d (S fuel) s ev <$> queue_of d find_one fuel this ev (delegated l) (direct l) =
  expected d find_one fuel this ev ((fun h => view s (this, h)) <$> l).
Proof.
  unfold queue_of, expected, delegated_bindings, direct_bindings. rewrite fmap_app.
  rewrite (filter_view (fun h => view s (this, h)) (fun h => truthy_sel (selector h) = true) (fun b => truthy_sel (b_sel b) = true)) by done.
  rewrite (filter_view (fun h => view s (this, h)) (fun h => truthy_sel (selector h) = false) (fun b => truthy_sel (b_sel b) = false)) by done.
  f_equal.
  - destruct (delegating d ev); [|done]. rewrite <- list_fmap_compose. apply list_fmap_ext. intros i cur _. unfold compose, matching.
    rewrite calls_of_view, (group_view _ _ _ _ _ this). f_equal. symmetry.
    by apply (filter_view (fun h => view s (this, h)) (fun h => selects find_one this cur (selector h) = true)
             (fun b => selects find_one this cur (b_sel b) = true)).
  - simpl. f_equal. apply calls_of_view.
Qed.


Lemma take_arrange l : take (delegateCount (arrange l)) (objs (arrange l)) = delegated l.
Proof. apply take_app_length. Qed.
Lemma drop_arrange l : drop (delegateCount (arrange l)) (objs (arrange l)) = direct l.
Proof. apply drop_app_length. Qed.

(** C3. An event calls the handlers that are bound to it.  After any commands [on],
    [one] and [off], a dispatch on a tree calls, in this order, for every element from
    the target up to the one of the listener the delegated handlers whose selector
    matches it there, and then the direct ones, each kind in the order of binding and
    only those whose namespaces and [relatedTarget] allow it.  The handlers may bind,
    unbind, stop the event and throw: what is called is always a beginning of this
    sequence, settled when the dispatch started; without an exception or
    [stopImmediatePropagation] it consists of whole elements, is all of it without
    [stopPropagation], and ends with the element of the first handler that answers
    false.  A dispatch with handlers that do not throw,
    none of them bound by [one], ends without an exception. *)
Theorem dispatch_calls_bindings d depth fuel find_one check_selector call cs s this ev r s' :
  tree d depth fuel -> well_behaved call -> Forall caller_handler cs ->
  exec_commands d check_selector cs store_start = Some s -> dispatch d (S fuel) find_one call this ev s = (r, s') ->
  let bs := bound this (e_type ev) (spec_run d cs) in
  let groups := expected d find_one fuel this ev bs in
  (exists l1 l2, concat groups = l1 ++ l2 /\ calls s' = calls s ++ l1 /\
    forall ev', r = Ok ev' -> immediateStopped ev' = false ->
      exists j, l1 = concat (take j groups) /\ (propagationStopped ev' = false -> l2 = []) /\
        forall p, p ∈ concat (take (pred j) groups) -> ~ refuses call p.1) /\
  ((forall n e ev s, exists x s', call n e ev s = (Ok x, s')) -> Forall (fun b => b_once b = false) bs -> exists ev', r = Ok ev').
Proof.
  intros T Hcall Hcs Hr Hd bs groups. pose proof (commands_keep _ _ _ _ _ _ keeps_start Hcs Hr) as Hk.
  destruct (keeps_handlers s _ this (e_type ev) Hk) as (l & Hl & Hb & Hknown & Htyped). change (bs = (fun h => view s (this, h)) <$> l) in Hb.
  unfold dispatch in Hd. change (e_type (set_delegateTarget this ev)) with (e_type ev) in Hd. rewrite Hl in Hd.
  pose proof (handlers_correct d find_one depth fuel T this (set_delegateTarget this ev) (arrange l)) as Hq.
  rewrite take_arrange, drop_arrange in Hq.
  rewrite (Hq (delegated_delegate _ Htyped)) in Hd. clear Hq.
  change (queue_of d find_one fuel this (set_delegateTarget this ev)) with (queue_of d find_one fuel this ev) in Hd.
  set (queue := queue_of d find_one fuel this ev (delegated l) (direct l)) in Hd.
  assert (Hsub : forall (P : handleObj -> Prop), Forall P l -> Forall (fun g => Forall P g.2) (base.filter nonempty queue)).
  { intros P HP. apply Forall_forall. intros g [_ Hg]%list_elem_of_filter. unfold queue, queue_of in Hg.
    rewrite Forall_forall in HP |- *. intros h Hh. apply HP.
    apply elem_of_app in Hg as [Hg|Hg].
    - destruct (delegating d ev); [|by apply elem_of_nil in Hg]. apply list_elem_of_fmap in Hg as (cur & -> & _).
      apply list_elem_of_filter in Hh as [_ Hh]. by apply list_elem_of_filter in Hh as [_ Hh].
    - apply list_elem_of_singleton in Hg as ->. by apply list_elem_of_filter in Hh as [_ Hh]. }
  assert (Hgroups : groups = calls_of d (S fuel) s ev <$> queue) by (unfold groups, queue; by rewrite Hb, expected_view).
  split.
  - pose proof (run_queue_makes d (S fuel) call Hcall _ ev s (set_delegateTarget this ev) s r s' (Hsub _ Hknown) (reflexivity _)) as Hm.
    destruct (Hm (conj eq_refl (conj eq_refl (fun H => H))) Hd) as (l1 & l2 & E & Hc & Hj).
    rewrite concat_nonempty in E by done. rewrite Hgroups. exists l1, l2. split_and!; [done..|].
    intros ev' Er Hi. destruct (Hj ev' Er Hi) as (j & E1 & Hp & Hno).
    destruct (take_nonempty (calls_of d (S fuel) s ev) queue j (fun _ => eq_refl)) as (j' & Ej & Ej' & _).
    exists j'. by rewrite <- Ej, <- Ej'.
  - intros Hok Honce. assert (Hone : Forall (fun h => is_one (handler h) = false) l).
    { rewrite Hb in Honce. rewrite Forall_fmap in Honce. exact Honce. }
    destruct (run_queue_ok d (S fuel) call _ (set_delegateTarget this ev) s Hok (Hsub _ Hone)) as (ev' & s1 & E).
    rewrite E in Hd. injection Hd as <- _. by exists ev'.
Qed.


(** A list with a delegated and two direct handlers; the first one that is called
    unbinds the last. *)
Definition page_commands : list command :=
  [Bind 1 (js "click") (FUser 3) ArgNone None false; Bind 1 (js "click.a") (FUser 2) ArgNone None true;
   Bind 1 (js "click") (FUser 1) ArgNone (Some (js "li")) false].

Definition page_code (n e : nat) (ev : event) (s : store) : outcome (answer * event) :=
  (Ok (AUndef, ev), if Nat.eqb n 1 then (remove 1 (js "click") (Some (FUser 3)) None s).2 else s).

Definition page_click : event :=
  {| e_type := js "click"; target := 2; button := Some 0%Z; relatedTarget := None; rnamespace := None;
     currentTarget := None; delegateTarget := None; e_handleObj := None; e_data := ArgNone; result := AUndef;
     defaultPrevented := false; propagationStopped := false; immediateStopped := false |}.

Definition page_find (_ : bool) (sel : jstr) (_ cur : nat) : bool :=
  bool_decide (sel = (ascii_lower <$> SzMatch.name_of SzSelect.page cur) ++ js " ").

Lemma page_code_behaves : well_behaved page_code.
Proof.
  intros n e ev s r s' [= <- <-]. split; [|done]. destruct (Nat.eqb n 1); [|done].
  destruct (remove _ _ _ _ _) as [r1 s1] eqn:E. by apply remove_later in E.
Qed.

Lemma dispatch_calls_bindings_witness :
  exists s r s', exec_commands SzSelect.page (fun _ => Ok tt) page_commands store_start = Some s /\
    dispatch SzSelect.page 21 page_find page_code 1 page_click s = (r, s') /\
    calls s' = calls s ++ [(FUser 1, 2); (FUser 3, 1); (FUser 2, 1)].
Proof.
  assert (Hs : match exec_commands SzSelect.page (fun _ => Ok tt) page_commands store_start with
               | Some s => match dispatch SzSelect.page 21 page_find page_code 1 page_click s with
                           | (Ok ev, _) => negb (immediateStopped ev || propagationStopped ev)
                           | _ => false
                           end
               | None => false end = true) by (vm_compute; reflexivity).
  destruct (exec_commands _ _ page_commands store_start) as [s|] eqn:E; [|discriminate Hs].
  destruct (dispatch _ _ _ _ _ page_click s) as [[ev|x] s'] eqn:Ed; [|discriminate Hs].
  apply negb_true_iff, orb_false_iff in Hs as [Hi Hp].
  assert (Hc : Forall caller_handler page_commands) by (repeat constructor).
  destruct (dispatch_calls_bindings _ _ _ _ _ _ _ _ _ _ _ _ SzSelect.page_tree page_code_behaves Hc E Ed)
    as [(l1 & l2 & El & Ec & Hj) _].
  destruct (Hj ev eq_refl Hi) as (j & _ & Hl2 & _). rewrite (Hl2 Hp), app_nil_r in El.
  exists s, (Ok ev), s'. split; [reflexivity|]. split; [exact Ed|]. rewrite Ec. f_equal.
  etransitivity; [symmetry; exact El|]. vm_compute. reflexivity.
Defined.

End JqDispatch.
