(* ===== verification/JqWellFormed.v ===== *)
(** The well-formedness of the event store of [jquery.js]: what every command and
    every dispatch preserves, whatever the handlers do and also when they throw. *)

From S2P Require Import Prelude Regex SzMatch SzReference SzSelect JqCallbacks JqEvent JqNamespace JqBindings JqRefine JqDispatch.
Import SzReference JqEvent JqNamespace JqBindings JqRefine JqDispatch.

Module JqWellFormed.

(** * Preservation *)

Definition sound (s : store) : Prop := exists hs, lists s hs /\ numbers s hs.

Lemma changed_sound e s s' hs : changed e s s' hs -> sound s'.
Proof. intros [? ? _]. by exists hs. Qed.

Lemma frame_sound s s' : data_of s' = data_of s -> listeners s' = listeners s -> same_functions s s' -> sound s -> sound s'.
Proof.
  intros Hd Hl Hs (hs & H1 & H2). exists hs. split; [by eapply lists_frame|]. eapply numbers_update; [done..|]. by left.
Qed.

Lemma remove_type_sound e mapped f sel orig rest names s r s' :
  remove_type e mapped f sel orig rest names s = (r, s') -> sound s -> sound s'.
Proof.
  intros H (hs & Hl & Hn). destruct r as [[]|x].
  - eapply changed_sound, remove_type_changed; [exact Hl|exact Hn|exact H].
  - unfold remove_type in H. case_match; [done|]. injection H as _ <-. by exists hs.
Qed.

Lemma tidy_up_sound e s : sound s -> sound (tidy_up e s).
Proof. intros (hs & Hl & Hn). by eapply changed_sound, tidy_up_changed. Qed.

Lemma remove_key_sound e f sel tok k s r s' : remove_key e f sel tok k s = (r, s') -> sound s -> sound s'.
Proof.
  unfold remove_key. destruct (events _); [|by intros [= _ <-]]. destruct (parse_type _) as [[orig rest] names].
  destruct (remove_type _ _ _ _ _ _ _ _) as [r1 s1] eqn:E. intros H Hs. apply remove_type_sound in E; [|done].
  destruct r1; injection H as _ <-; [by apply tidy_up_sound|done].
Qed.

Lemma remove_keys_sound e f sel tok ks s r s' : remove_keys e f sel tok ks s = (r, s') -> sound s -> sound s'.
Proof.
  revert s. induction ks as [|k ks IH]; intros s; simpl; [by intros [= _ <-]|].
  destruct (remove_key e f sel tok k s) as [r1 s1] eqn:E. intros H Hs. apply remove_key_sound in E; [|done].
  destruct r1; [by eapply IH|by injection H as _ <-].
Qed.

Lemma remove_types_sound e f sel toks s r s' : remove_types e f sel toks s = (r, s') -> sound s -> sound s'.
Proof.
  revert s. induction toks as [|tok toks IH]; intros s; simpl; [by intros [= _ <-]|].
  destruct (parse_type tok) as [[orig rest] names].
  destruct (match orig with [] => _ | _ => _ end) as [r1 s1] eqn:E. intros H Hs.
  assert (H1 : sound s1) by (destruct orig; [by eapply remove_keys_sound|by eapply remove_type_sound]).
  destruct r1; [by eapply IH|by injection H as _ <-].
Qed.

Lemma remove_sound e types f sel s r s' : remove e types f sel s = (r, s') -> sound s -> sound s'.
Proof.
  unfold remove. destruct (events _); [|by intros [= _ <-]].
  destruct (remove_types _ _ _ _ _) as [r1 s1] eqn:E. intros H Hs. apply remove_types_sound in E; [|done].
  destruct r1; injection H as _ <-; [by apply tidy_up_sound|done].
Qed.

Section steps.
Variable d : gmap nat SzMatch.node.
Variable check_selector : jstr -> res unit.

Lemma add_type_throws e f g data sel tok s x s' : add_type d e f g data sel tok s = (Throw x, s') -> s' = s.
Proof.
  unfold add_type. destruct (parse_type tok) as [[[|y o] rest] names]; [done|]. case_match; [done|].
  case_match; [by intros [= _ <-]|done].
Qed.

Lemma add_types_sound e f g data sel toks s hs r s' : lists s hs -> numbers s hs -> numbered s f g ->
  is_Some (handle (data_at e s)) -> add_types d e f g data sel toks s = (r, s') -> sound s'.
Proof.
  revert s hs. induction toks as [|tok toks IH]; intros s hs Hl Hn Hf Hh; simpl; [intros [= _ <-]; by exists hs|].
  destruct (add_type d e f g data sel tok s) as [[[]|x] s1] eqn:E.
  - apply (add_type_changed _ _ _ _ _ _ _ _ _ hs) in E as [[Hl1 Hn1 Hs1] Hh1]; [|done..].
    apply (IH _ _ Hl1 Hn1 (same_numbered _ _ _ _ Hs1 Hf) Hh1).
  - intros [= _ <-]. apply add_type_throws in E as ->. by exists hs.
Qed.

Lemma add_sound e types f data sel s g s1 hs r s' : lists s hs -> numbers s hs -> ensure_guid f s = (g, s1) ->
  numbers s1 hs -> numbered s1 f g -> data_of s1 = data_of s -> listeners s1 = listeners s ->
  add d check_selector e types f data sel s = (r, s') -> sound s'.
Proof.
  intros Hl Hn Eg Hn1 Hf Hd Hls. unfold add. destruct (acceptData d e); simpl; [|intros [= _ <-]; by exists hs].
  destruct (if truthy_sel sel then _ else _); [|intros [= _ <-]; by exists hs]. rewrite Eg.
  assert (Hl1 : lists s1 hs) by (by eapply lists_frame).
  destruct (init_events_changed e s1 hs Hl1 Hn1) as [[Hl2 Hn2 Hs2] Hh].
  eapply add_types_sound; [exact Hl2|exact Hn2|by eapply same_numbered|done].
Qed.

Lemma command_sound c s r s' : caller_handler c -> exec_command d check_selector c s = (r, s') -> sound s -> sound s'.
Proof.
  intros Hc H Hs. destruct c as [e types f data sel once|e types f sel]; simpl in *; [|by eapply remove_sound].
  destruct Hs as (hs & Hl & Hn). destruct once.
  - destruct (wrap_one f s) as [f' s1] eqn:Ew.
    destruct (wrap_one_numbers _ _ _ _ _ Hn Hc Ew) as (Hn1 & (g & Hg & Hf1) & _ & _ & _ & Hd & Hls).
    eapply (add_sound e types f' data sel s1 g s1 hs); try done; [by eapply lists_frame|unfold ensure_guid; by rewrite Hg].
  - destruct (ensure_guid f s) as [g s1] eqn:Eg.
    destruct (ensure_guid_numbers _ _ _ _ _ Hn Hc Eg) as (Hn1 & Hf1 & _ & Hd & Hls).
    by eapply (add_sound e types f data sel s g s1 hs).
Qed.

(** ** Dispatching *)

(** The code of the page: what the handlers answer, and the commands they give
    before, which may depend on everything they see. *)
Variable answers : nat -> nat -> event -> store -> res (answer * event).
Variable code : nat -> nat -> event -> store -> list command.
Hypothesis Hcode : forall n e ev s, Forall caller_handler (code n e ev s).

(** A command that throws ends the others. *)
Fixpoint run_code (cs : list command) (s : store) : outcome unit :=
  match cs with
  | [] => (Ok tt, s)
  | c :: cs' => match exec_command d check_selector c s with (Ok _, s') => run_code cs' s' | x => x end
  end.

Definition page_call (n e : nat) (ev : event) (s : store) : outcome (answer * event) :=
  match run_code (code n e ev s) s with
  | (Ok _, s') => (answers n e ev s, s')
  | (Throw x, s') => (Throw x, s')
  end.

Lemma run_code_sound cs s r s' : Forall caller_handler cs -> run_code cs s = (r, s') -> sound s -> sound s'.
Proof using Type.
  intros Hcs. revert s. induction Hcs as [|c cs Hc Hcs IH]; intros s; simpl; [by intros [= _ <-]|].
  destruct (exec_command d check_selector c s) as [r1 s1] eqn:E. intros H Hs. apply command_sound in E; [|done..].
  destruct r1; [by eapply IH|by injection H as _ <-].
Qed.

Lemma page_call_sound n e ev s r s' : page_call n e ev s = (r, s') -> sound s -> sound s'.
Proof using Hcode.
  unfold page_call. destruct (run_code _ _) as [r1 s1] eqn:E. intros H Hs.
  apply run_code_sound in E; [|apply Hcode|done]. by destruct r1; injection H as _ <-.
Qed.

Lemma log_call_sound f e s : sound s -> sound (log_call f e s).
Proof using Type. by apply frame_sound; [..|split]. Qed.

Lemma off_event_sound ev s r s' : off_event ev s = (r, s') -> sound s -> sound s'.
Proof using Type.
  unfold off_event. destruct (e_handleObj ev); [|by intros [= _ <-]].
  destruct (delegateTarget ev); [apply remove_sound|by intros [= _ <-]].
Qed.

Lemma apply_fn_sound fuel f elem ev s r s' : apply_fn page_call fuel f elem ev s = (r, s') -> sound s -> sound s'.
Proof using Hcode.
  revert f s. induction fuel as [|fuel IH]; intros f s; destruct f as [n|n|]; cbn [apply_fn].
  1, 4: intros H Hs; eapply page_call_sound; [exact H|by apply log_call_sound].
  1: by intros [= _ <-].
  1, 3: intros [= _ <-]; apply log_call_sound.
  destruct (off_event ev s) as [r1 s1] eqn:E. intros H Hs. apply off_event_sound in E; [|done].
  destruct r1; [by eapply IH|by injection H as _ <-].
Qed.

Variable fuel : nat.
Variable find_one : bool -> jstr -> nat -> nat -> bool.

Lemma invoke_sound h elem ev s r s' : invoke d fuel page_call h elem ev s = (r, s') -> sound s -> sound s'.
Proof using Hcode.
  unfold invoke. destruct (assoc _ _); [|apply apply_fn_sound]. case_match; [|by intros [= _ <-]].
  destruct (apply_fn _ _ _ _ _ _) as [r1 s1] eqn:E. intros H' Hs. apply apply_fn_sound in E; [|done].
  destruct r1 as [[a ev']|x]; by injection H' as _ <-.
Qed.

Lemma run_handlers_sound elem hs ev s r s' : run_handlers d fuel page_call elem hs ev s = (r, s') -> sound s -> sound s'.
Proof using Hcode.
  revert ev s. induction hs as [|h hs IH]; intros ev s; simpl; [by intros [= _ <-]|].
  destruct (immediateStopped ev); [by intros [= _ <-]|]. destruct (in_namespace ev h); [|apply IH].
  destruct (invoke _ _ _ _ _ _ _) as [r1 s1] eqn:E. intros H Hs. apply invoke_sound in E; [|done].
  destruct r1 as [[a ev']|x]; [by eapply IH|by injection H as _ <-].
Qed.

Lemma run_queue_sound queue ev s r s' : run_queue d fuel page_call queue ev s = (r, s') -> sound s -> sound s'.
Proof using Hcode.
  revert ev s. induction queue as [|[elem hs] queue IH]; intros ev s; simpl; [by intros [= _ <-]|].
  destruct (propagationStopped ev); [by intros [= _ <-]|].
  destruct (run_handlers _ _ _ _ _ _ _) as [r1 s1] eqn:E. intros H Hs. apply run_handlers_sound in E; [|done].
  destruct r1; [by eapply IH|by injection H as _ <-].
Qed.

Lemma dispatch_sound this ev s r s' : dispatch d fuel find_one page_call this ev s = (r, s') -> sound s -> sound s'.
Proof using Hcode. unfold dispatch. case_match; [apply run_queue_sound|by intros [= _ <-]]. Qed.

End steps.


(** * Well-formed lists *)

(** The list of the element [e] and the type [t] *)
Record well_formed (s : store) (e : nat) (t : jstr) (l : hlist) : Prop := {
  wf_some : objs l <> [];
  wf_count : delegateCount l <= length (objs l);
  wf_delegated : Forall (fun h => truthy_sel (selector h) = true) (take (delegateCount l) (objs l));
  wf_direct : Forall (fun h => truthy_sel (selector h) = false) (drop (delegateCount l) (objs l));
  wf_types : Forall (fun h => h_type h = t /\ mapped_type (selector h) t = t) (objs l);
  wf_guids : forall h h', h ∈ objs l -> h' ∈ objs l ->
    (h_guid h = h_guid h' <-> base s (handler h) = base s (handler h')) /\ h_guid h < guid s;
  wf_listener : exists n, handle (data_at e s) = Some n /\ (e, t, n) ∈ listeners s;
}.

Lemma sound_well_formed s e t l : sound s -> assoc t (events_at e s) = Some l -> well_formed s e t l.
Proof.
  intros (hs & Hl & Hn) Ha. pose proof (inv_events _ _ Hl e t) as He. rewrite Ha in He.
  destruct (on_type e t hs) as [|h0 l0] eqn:Eo; [done|]. set (l1 := h0 :: l0) in *. injection He as ->.
  assert (Hin : forall h, h ∈ objs (arrange l1) -> (e, h) ∈ hs /\ h_type h = t).
  { intros h Hh. apply of_elem. rewrite Eo. unfold arrange in Hh. simpl in Hh.
    by apply elem_of_app in Hh as [Hh|Hh]; apply list_elem_of_filter in Hh as [_ Hh]. }
  split.
  - by intros E%(proj1 (arrange_nil _)).
  - unfold arrange. simpl. rewrite length_app. lia.
  - rewrite take_arrange. apply Forall_forall. by intros h [Hh _]%list_elem_of_filter.
  - rewrite drop_arrange. apply Forall_forall. by intros h [Hh _]%list_elem_of_filter.
  - apply Forall_forall. intros h [Hh Ht]%Hin. split; [done|]. rewrite <- Ht. by apply (inv_types _ _ Hn) in Hh as [Hs _].
  - intros h h' [Hh _]%Hin [Hh' _]%Hin. destruct (inv_guid _ _ Hn _ _ Hh) as (H1 & H2 & _).
    destruct (inv_guid _ _ Hn _ _ Hh') as (H3 & H4 & _). split; [|by apply (inv_guid_lt _ _ Hn) in H2].
    split; [|intros E; rewrite E in H2; congruence]. intros E. rewrite <- E in H4. by eapply (inv_inj _ _ Hn).
  - destruct (inv_handle _ _ Hl e) as [n Hh].
    { unfold events_at in Ha. destruct (events (data_at e s)); [by eexists|done]. }
    exists n. split; [done|]. apply (inv_listeners _ _ Hl). split; [done|by eexists].
Qed.

(** The stores of a page: commands and events follow each other, any of which may
    end with an exception, and the handlers give commands of their own. *)
Inductive reachable (d : gmap nat SzMatch.node) (check_selector : jstr -> res unit) : store -> Prop :=
| reach_start : reachable d check_selector store_start
| reach_command c s r s' : reachable d check_selector s -> caller_handler c ->
    exec_command d check_selector c s = (r, s') -> reachable d check_selector s'
| reach_dispatch answers code fuel find_one this ev s r s' : reachable d check_selector s ->
    (forall n e ev s, Forall caller_handler (code n e ev s)) ->
    dispatch d fuel find_one (page_call d check_selector answers code) this ev s = (r, s') -> reachable d check_selector s'.

Lemma reachable_sound d check_selector s : reachable d check_selector s -> sound s.
Proof.
  induction 1 as [|c s r s' _ IH Hc H|answers code fuel find_one this ev s r s' _ IH Hc H].
  - destruct keeps_start as (hs & ? & ? & _). by exists hs.
  - by eapply command_sound.
  - by eapply dispatch_sound.
Qed.



End JqWellFormed.
