(* ===== verification/JqConvert.v ===== *)
(** The responses of ajax requests in [jquery.js]: [ajaxHandleResponses], which
    mediates between the type of the content and the types asked for, and
    [ajaxConvert], which chains the converters.

    Values of responses are a type [V]; converters and filters of the page are
    functions that may throw and change what the page keeps, a type [W]. *)

From S2P Require Import Prelude Regex JqCallbacks.

Module JqConvert.

Definition star : jstr := js "*".

Section conversion.
Context `{Unicode}.
Context {V W : Type}.

(** The page: functions by their number, applied to a response; filters get the
    type that was asked for too. *)
Variable apply : nat -> V -> W -> res V * W.
Variable filter_data : nat -> V -> option jstr -> W -> res V * W.

(** What every object inherits, under that name *)
Variable inherited : jstr -> V.

Inductive converter := CTrue | CFn (f : nat) | CFalsy.

(** The settings of a request that its responses depend on. *)
Record settings := {
  dataTypes : list jstr;
  dataType : option jstr;
  mimeType : option jstr;
  contents : list (jstr * option pattern);
  responseFields : list (jstr * jstr);
  converters : list (jstr * converter);
  dataFilter : option nat;
  throws : bool;
}.

Definition set_dataTypes (l : list jstr) (s : settings) : settings :=
  {| dataTypes := l; dataType := dataType s; mimeType := mimeType s; contents := contents s;
     responseFields := responseFields s; converters := converters s; dataFilter := dataFilter s; throws := throws s |}.

(** * [ajaxHandleResponses] *)

(** The stars at the front; is there one? *)
Fixpoint shift_stars (l : list jstr) : bool * list jstr :=
  match l with
  | t :: l' => if decide (t = star) then (true, (shift_stars l').2) else (false, l)
  | [] => (false, [])
  end.

Definition truthy_conv (c : option converter) : option converter :=
  match c with Some CFalsy | None => None | Some c => Some c end.

(** The loop over the responses, for the first of the types asked for. *)
Fixpoint convertible (s : settings) (wanted : option jstr) (first : option jstr) {A} (responses : list (jstr * A))
  : option jstr :=
  match responses with
  | [] => first
  | (type, _) :: rs =>
      if match wanted with
         | None | Some [] => true
         | Some t => match truthy_conv (assoc (type ++ js " " ++ t) (converters s)) with Some _ => true | None => false end
         end
      then match type with [] => first | _ => Some type end
      else convertible s wanted (match first with None | Some [] => Some type | _ => first end) rs
  end.

(** [header] is the content type of the response.  The types that are left and the
    response found, if any. *)
Definition ajaxHandleResponses (s : settings) (header : option jstr) (responses : list (jstr * V))
  : list jstr * option V :=
  let '(auto, types) := shift_stars (dataTypes s) in
  let ct := if auto then match mimeType s with Some (_ :: _) => mimeType s | _ => header end else None in
  let types :=
    match ct with
    | Some ((_ :: _) as ct) =>
        match List.find (fun c => match c.2 with Some p => test p ct | None => false end) (contents s) with
        | Some (type, _) => type :: types
        | None => types
        end
    | _ => types
    end in
  let finalDataType :=
    match obj_get responses (default (js "undefined") (head types)) with
    | PUndefined => convertible s (head types) None responses
    | _ => head types
    end in
  match finalDataType with
  | None | Some [] => (types, None)
  | Some t =>
      (if decide (Some t = head types) then types else t :: types,
       Some match obj_get responses t with POwn v => v | _ => inherited t end)
  end.

(** * [ajaxConvert] *)

Inductive conversion := Converted (data : V) | ParserError (error : exn + jstr).

(** The converters under their names in lower case *)
Definition lower_converters (l : list (jstr * converter)) : list (jstr * converter) :=
  foldl (fun m c => assoc_set (toLowerCase c.1) c.2 m) [] l.

(** A converter from [a] to [b] or, failing that, from anything *)
Definition find_conv (cs : list (jstr * converter)) (a b : jstr) : option converter :=
  match truthy_conv (assoc (a ++ js " " ++ b) cs) with
  | Some c => Some c
  | None => truthy_conv (assoc (js "* " ++ b) cs)
  end.

(** The search for a pair: the converter to use, and the type to go to first. *)
Fixpoint seek_pair (all : list (jstr * converter)) (prev current : jstr) (cs : list (jstr * converter))
  : option converter * option jstr :=
  match cs with
  | [] => (None, None)
  | (conv2, _) :: cs' =>
      match split_char (chr " ") conv2 with
      | t0 :: t1 :: _ =>
          if decide (t1 = current) then
            match find_conv all prev t0 with
            | Some CTrue => (truthy_conv (assoc conv2 all), None)
            | Some c => (Some c, match assoc conv2 all with Some CTrue => None | _ => Some t0 end)
            | None => seek_pair all prev current cs'
            end
          else seek_pair all prev current cs'
      | _ => seek_pair all prev current cs'
      end
  end.

Definition seek (cs : list (jstr * converter)) (prev current : jstr) : option converter * option jstr :=
  match find_conv cs prev current with
  | Some c => (Some c, None)
  | None => seek_pair cs prev current cs
  end.

(** The fields of the request object, and what the page keeps *)
Abbreviation state := (list (jstr * V) * W)%type.

(** [jqXHR[s.responseFields[current]] = response]; a name that objects inherit gives
    a field named after the text of a function, which nothing reads. *)
Definition set_field (s : settings) (current : jstr) (response : V) (st : state) : state :=
  match obj_get (responseFields s) current with
  | POwn ((_ :: _) as f) => (assoc_set f response st.1, st.2)
  | _ => st
  end.

(** The loop, with [first] for its first round; [None] when the fuel is used up. *)
Fixpoint convert_loop (fuel : nat) (s : settings) (cs : list (jstr * converter)) (isSuccess first : bool)
    (current : jstr) (types : list jstr) (response : V) (st : state) : option (res conversion * state) :=
  match fuel with
  | O => None
  | S fuel' =>
      match current with
      | [] => Some (Ok (Converted response), st)
      | _ =>
          let st := set_field s current response st in
          let '(filtered, w) :=
            match dataFilter s with
            | Some f => if first && isSuccess then filter_data f response (dataType s) st.2 else (Ok response, st.2)
            | None => (Ok response, st.2)
            end in
          let st := (st.1, w) in
          match filtered with
          | Throw e => Some (Throw e, st)
          | Ok response =>
              match types with
              | [] => Some (Ok (Converted response), st)
              | [] :: _ => Some (Ok (Converted response), st)
              | next :: types' =>
                  if decide (next = star) then convert_loop fuel' s cs isSuccess false current types' response st
                  else if decide (current <> star /\ current <> next) then
                    let '(conv, via) := seek cs current next in
                    let next' := default next via in
                    let types'' := match via with Some _ => next :: types' | None => types' end in
                    match conv with
                    | Some CTrue => convert_loop fuel' s cs isSuccess false next' types'' response st
                    | Some (CFn f) =>
                        let '(r, w) := apply f response st.2 in
                        match r with
                        | Ok response => convert_loop fuel' s cs isSuccess false next' types'' response (st.1, w)
                        | Throw e =>
                            Some (if throws s then Throw e else Ok (ParserError (inl e)), (st.1, w))
                        end
                    | _ => Some (Ok (ParserError (inr (js "No conversion from " ++ current ++ js " to " ++ next'))), st)
                    end
                  else convert_loop fuel' s cs isSuccess false next types' response st
              end
          end
      end
  end.

Definition ajaxConvert (fuel : nat) (s : settings) (response : V) (isSuccess : bool) (st : state)
  : option (res conversion * state) :=
  let cs := match dataTypes s with _ :: (_ :: _) :: _ => lower_converters (converters s) | _ => [] end in
  convert_loop fuel s cs isSuccess true (default [] (head (dataTypes s))) (tail (dataTypes s)) response st.

End conversion.

End JqConvert.
