(* ===== verification/JqConvertProofs.v ===== *)
(** The conversions of ajax responses always end, and what they deliver has the type
    that was asked for. *)

From S2P Require Import Prelude Regex JqConvert.
Import JqConvert.

Module JqConvertProofs.

(** * Converters *)

Definition space : N := chr " ".

Definition pair_key (a b : jstr) : jstr := a ++ js " " ++ b.

Lemma pair_key_split a b : space ∉ a -> space ∉ b -> split_char space (pair_key a b) = [a; b].
Proof.
  intros Ha Hb. unfold pair_key. change (js " " ++ b) with (space :: b).
  rewrite split_char_app by done. by rewrite split_char_none.
Qed.

Lemma pair_key_inj a b a' b' : space ∉ a' -> space ∉ b' -> pair_key a b = pair_key a' b' -> a = a' /\ b = b'.
Proof.
  intros Ha' Hb' E. assert (Hs : split_char space (pair_key a b) = [a'; b']) by (rewrite E; by apply pair_key_split).
  unfold pair_key in Hs. change (js " " ++ b) with (space :: b) in Hs. rewrite split_char_cut in Hs.
  assert (Hlen : forall x, exists y ys, split_char space x = y :: ys).
  { intros x. destruct (split_char space x) eqn:Ex; [|eauto]. destruct x; simpl in Ex; repeat case_match; done. }
  destruct (Hlen a) as (y & ys & Ea), (Hlen b) as (z & zs & Eb). rewrite Ea, Eb in Hs.
  destruct ys as [|y' ys]; [|destruct ys; simpl in Hs; simplify_eq]. simpl in Hs. simplify_eq.
  unfold pair_key in E. assert (length a = length a') as Hl.
  { rewrite <- (join_split_char space a), <- (join_split_char space a'). by rewrite Ea, split_char_none. }
  apply app_inj_1 in E as [-> E]; [|done]. by simplify_eq/=.
Qed.

(** Keys name two types, and no converter is missing. *)
Definition proper (cs : list (jstr * converter)) : Prop :=
  Forall (fun c => c.2 <> CFalsy /\ exists a b, c.1 = pair_key a b /\ space ∉ a /\ space ∉ b /\ a <> []) cs.

Section typed.
Context {V W : Type}.
Variable apply : nat -> V -> W -> res V * W.
Variable filter_data : nat -> V -> option jstr -> W -> res V * W.

(** Which values are responses of a type *)
Variable of_type : jstr -> V -> Prop.

(** Every converter does what its key says. *)
Definition typed (cs : list (jstr * converter)) : Prop :=
  forall a b c, assoc (pair_key a b) cs = Some c ->
    match c with
    | CTrue => forall v, a = star \/ of_type a v -> of_type b v
    | CFn f => forall v w v' w', a = star \/ of_type a v -> apply f v w = (Ok v', w') -> of_type b v'
    | CFalsy => True
    end.

Lemma proper_truthy cs k c : proper cs -> assoc k cs = Some c -> truthy_conv (assoc k cs) = Some c.
Proof.
  intros Hp Hk. rewrite Hk. apply assoc_elem in Hk. unfold proper in Hp. rewrite Forall_forall in Hp.
  destruct (Hp _ Hk) as [Hc _]. by destruct c.
Qed.

(** What a converter that was found does. *)
Definition converts (c : converter) (a b : jstr) : Prop :=
  match c with
  | CTrue => forall v, of_type a v -> of_type b v
  | CFn f => forall v w v' w', of_type a v -> apply f v w = (Ok v', w') -> of_type b v'
  | CFalsy => False
  end.

Lemma find_conv_typed cs a b c : typed cs -> find_conv cs a b = Some c -> converts c a b.
Proof.
  intros Ht. unfold find_conv.
  assert (H : forall x, (x = a \/ x = star) -> truthy_conv (assoc (pair_key x b) cs) = Some c -> converts c a b).
  { intros x Hx Hc. destruct (assoc (pair_key x b) cs) as [c'|] eqn:E; [|done]. specialize (Ht _ _ _ E).
    destruct c'; simplify_eq/=; intros; eapply Ht; try done; destruct Hx as [->| ->]; auto. }
  change (a ++ js " " ++ b) with (pair_key a b). change (js "* " ++ b) with (pair_key star b).
  destruct (truthy_conv (assoc (pair_key a b) cs)) as [c'|] eqn:E; [intros [= ->]; by apply (H a); [left|]|].
  intros Hc. by apply (H star); [right|].
Qed.

Lemma find_conv_none cs a b : find_conv cs a b = None -> truthy_conv (assoc (pair_key a b) cs) = None.
Proof. unfold find_conv. change (a ++ js " " ++ b) with (pair_key a b). by destruct (truthy_conv _). Qed.

Lemma find_conv_star cs a b : find_conv cs a b = None -> truthy_conv (assoc (pair_key star b) cs) = None.
Proof.
  unfold find_conv. change (js "* " ++ b) with (pair_key star b). by destruct (truthy_conv _).
Qed.

(** What a search answers: a converter to the wanted type, or to one from which a
    converter found right away leads there. *)
Lemma seek_pair_typed cs a b sub c via : proper cs -> typed cs -> find_conv cs a b = None ->
  (forall k x, (k, x) ∈ sub -> (k, x) ∈ cs) -> seek_pair cs a b sub = (Some c, via) ->
  match via with
  | None => converts c a b
  | Some t => converts c a t /\ t <> star /\ t <> [] /\ exists c', find_conv cs t b = Some c'
  end.
Proof.
  intros Hp Ht Hnone. induction sub as [|[k x] sub IH]; intros Hsub; [done|]. cbn [seek_pair].
  assert (IH' : seek_pair cs a b sub = (Some c, via) -> _) by (apply IH; intros; apply Hsub; by right).
  assert (Hk : (k, x) ∈ cs) by (apply Hsub; left). clear IH Hsub.
  pose proof Hp as Hall. unfold proper in Hall. rewrite Forall_forall in Hall.
  destruct (Hall _ Hk) as (_ & t0 & t1 & Ek & Hs0 & Hs1 & Hne). simpl in Ek. subst k. rewrite pair_key_split by done.
  case_decide as Eb; [subst t1|done]. destruct (find_conv cs a t0) as [c0|] eqn:E0; [|done].
  assert (Hx : exists x', assoc (pair_key t0 b) cs = Some x').
  { clear -Hk. induction cs as [|[k y] cs IH]; [by apply elem_of_nil in Hk|]. simpl. case_decide; [by eexists|].
    apply elem_of_cons in Hk as [[= <- <-]|Hk]; [done|by apply IH]. }
  destruct Hx as [x' Hx]. pose proof (proper_truthy _ _ _ Hp Hx) as Hx'. pose proof (Ht _ _ _ Hx) as Htx.
  apply find_conv_typed in E0; [|done]. rewrite Hx in Hx' |- *.
  assert (Hvia : forall f, c = CFn f -> via = Some t0 -> converts (CFn f) a t0 ->
    match via with None => converts c a b | Some t => converts c a t /\ t <> star /\ t <> [] /\ exists c', find_conv cs t b = Some c' end).
  { intros f -> -> Hf. split; [done|]. split.
    - intros ->. apply find_conv_star in Hnone. by rewrite Hx, Hx' in Hnone.
    - split; [done|]. unfold find_conv. change (t0 ++ js " " ++ b) with (pair_key t0 b). rewrite Hx, Hx'. by eexists. }
  destruct c0 as [|f|]; [|destruct x'|done].
  - destruct x' as [|f|]; intros [= <- <-]; simpl in *; eauto.
  - intros [= <- <-]. simpl in *. eauto.
  - intros [= <- <-]. by eapply Hvia.
  - done.
Qed.

Lemma seek_typed cs a b c via : proper cs -> typed cs -> seek cs a b = (Some c, via) ->
  match via with
  | None => converts c a b
  | Some t => converts c a t /\ t <> star /\ t <> [] /\ exists c', find_conv cs t b = Some c'
  end.
Proof.
  intros Hp Ht. unfold seek. destruct (find_conv cs a b) as [c0|] eqn:E.
  - intros [= <- <-]. by eapply find_conv_typed.
  - by apply seek_pair_typed.
Qed.

(** * The loop *)

(** Stars stand for the type before them. *)
Definition target (current : jstr) (types : list jstr) : jstr :=
  foldl (fun a b => if decide (b = star) then a else b) current types.

Variable s : settings.

(** Filters keep the type of the response. *)
Hypothesis Hfilter : forall f t v w v' w', dataFilter s = Some f -> of_type t v ->
  filter_data f v (dataType s) w = (Ok v', w') -> of_type t v'.

Definition delivers (t : jstr) (out : res (@conversion V)) : Prop :=
  forall v, out = Ok (Converted v) -> of_type t v.

Variable cs : list (jstr * converter).
Variable isSuccess : bool.
Hypothesis Hp : proper cs.
Hypothesis Ht : typed cs.

(** The loop ends on these types and delivers the last of them. *)
Definition loops (types : list jstr) : Prop := forall fuel first current v st,
  current <> star -> current <> [] -> of_type current v -> 2 * length types < fuel ->
  exists out st', convert_loop apply filter_data fuel s cs isSuccess first current types v st = Some (out, st') /\
    delivers (target current types) out.

(** The beginning of a round: the field and the filter *)
Ltac start_round first current Hne Hv :=
  cbn [convert_loop];
  let y := fresh in let cur := fresh in
  destruct current as [|y cur]; [done|]; set (current := y :: cur) in *;
  let Ef := fresh "Ef" in
  destruct (match dataFilter s with Some _ => _ | None => _ end) as [[v1|?e] ?w] eqn:Ef;
    [|by do 2 eexists; split; [|intros ? ?]];
  assert (Hv1 : of_type current v1)
    by (destruct (dataFilter s) as [?f|] eqn:?Ed; [destruct (first && isSuccess); [by eapply Hfilter|]|]; by simplify_eq);
  clear Ef Hv.

Lemma loops_nil : loops [].
Proof using Hfilter.
  intros [|fuel] first current v st Hs Hc Hv Hf; [lia|]. start_round first current Hc Hv.
  do 2 eexists. split; [done|]. by intros ? [= <-].
Qed.

(** After a converter has been applied *)
Lemma apply_delivers c a b next types fuel v st : converts c a b -> of_type a v ->
  (forall v st, of_type b v -> exists out st', convert_loop apply filter_data fuel s cs isSuccess false b types v st = Some (out, st') /\
     delivers next out) ->
  exists out st',
    match c with
    | CTrue => convert_loop apply filter_data fuel s cs isSuccess false b types v st
    | CFn f =>
        let '(r, w) := apply f v st.2 in
        match r with
        | Ok v => convert_loop apply filter_data fuel s cs isSuccess false b types v (st.1, w)
        | Throw e => Some (if throws s then Throw e else Ok (ParserError (inl e)), (st.1, w))
        end
    | CFalsy => None
    end = Some (out, st') /\ delivers next out.
Proof using Type.
  intros Hc Hv IH. destruct c as [|f|]; simpl in Hc; [by apply IH; apply Hc| |done].
  destruct (apply f v st.2) as [[v'|e] w] eqn:E; [apply IH; by eapply Hc|].
  do 2 eexists. split; [done|]. intros v' H. by destruct (throws s).
Qed.

Lemma loops_direct next types fuel first current v st : loops types -> next <> [] -> current <> star -> current <> [] ->
  of_type current v -> S (2 * length types) < fuel -> (exists c, find_conv cs current next = Some c) ->
  exists out st', convert_loop apply filter_data fuel s cs isSuccess first current (next :: types) v st = Some (out, st') /\
    delivers (target current (next :: types)) out.
Proof using Hfilter Ht.
  intros IH Hnext Hs Hc Hv Hf [c Hconv]. destruct fuel as [|fuel]; [lia|]. start_round first current Hc Hv.
  destruct next as [|z nx]; [done|]. set (next := z :: nx) in *. unfold target. cbn [foldl].
  case_decide as Estar; [apply IH; try done; lia|].
  case_decide as Eneq; [|assert (current = next) as E by (destruct (decide (current = next)); tauto);
    rewrite E in Hv1; apply IH; try done; lia].
  unfold seek. rewrite Hconv. apply find_conv_typed in Hconv; [|done].
  assert (Hrest : forall v st, of_type next v -> exists out st',
    convert_loop apply filter_data fuel s cs isSuccess false next types v st = Some (out, st') /\ delivers (target next types) out)
    by (intros v' st' H'; apply IH; try done; lia).
  destruct c as [|f|]; [by eapply (apply_delivers CTrue)|by eapply (apply_delivers (CFn f))|done].
Qed.

Lemma loops_cons next types : loops types -> next <> [] -> loops (next :: types).
Proof using Hfilter Hp Ht.
  intros IH Hnext [|fuel] first current v st Hs Hc Hv Hf; [lia|]. simpl length in Hf. start_round first current Hc Hv.
  destruct next as [|z nx]; [done|]. set (next := z :: nx) in *. unfold target. cbn [foldl].
  case_decide as Estar; [apply IH; try done; lia|].
  case_decide as Eneq; [|assert (current = next) as E by (destruct (decide (current = next)); tauto);
    rewrite E in Hv1; apply IH; try done; lia].
  destruct (seek cs current next) as [conv via] eqn:Es. destruct conv as [c|]; [|by do 2 eexists; split; [|intros ? ?]].
  pose proof (seek_typed _ _ _ _ _ Hp Ht Es) as Hconv. destruct via as [t|].
  - destruct Hconv as (Hconv & Hts & Htn & Hdirect). cbn [default].
    assert (Hrest : forall v st, of_type t v -> exists out st',
      convert_loop apply filter_data fuel s cs isSuccess false t (next :: types) v st = Some (out, st') /\
      delivers (target next types) out).
    { intros v' st' H'. destruct (loops_direct next types fuel false t v' st' IH) as (out & st1 & E & Hd); try done; [lia|].
      exists out, st1. split; [done|]. unfold target in Hd. cbn [foldl] in Hd. by rewrite decide_False in Hd. }
    destruct c as [|f|]; [by eapply (apply_delivers CTrue)|by eapply (apply_delivers (CFn f))|done].
  - cbn [default]. assert (Hrest : forall v st, of_type next v -> exists out st',
      convert_loop apply filter_data fuel s cs isSuccess false next types v st = Some (out, st') /\ delivers (target next types) out)
      by (intros v' st' H'; apply IH; try done; lia).
    destruct c as [|f|]; [by eapply (apply_delivers CTrue)|by eapply (apply_delivers (CFn f))|done].
Qed.

Lemma loops_all types : Forall (fun t => t <> []) types -> loops types.
Proof using Hfilter Hp Ht. induction 1; [apply loops_nil|by apply loops_cons]. Qed.

End typed.

(** * The choice of a response *)

(** The last type that was asked for, if any *)
Definition wanted (l : list jstr) : option jstr := foldl (fun a b => if decide (b = star) then a else Some b) None l.

(** Names of types; nothing that objects inherit *)
Definition type_name (t : jstr) : Prop := t <> [] /\ obj_get (A := unit) [] t = PUndefined.

Lemma shift_stars_wanted l : wanted (shift_stars l).2 = wanted l /\ Forall (fun t => t <> star) (take 1 (shift_stars l).2) /\
  forall P : jstr -> Prop, Forall P l -> Forall P (shift_stars l).2.
Proof.
  induction l as [|t l (IH1 & IH2 & IH3)]; simpl; [by split_and!; [|constructor|]|]. case_decide as E; simpl.
  - split_and!; [|done|].
    + rewrite IH1. unfold wanted. simpl. by rewrite decide_True.
    + intros P HP%Forall_cons. apply IH3, HP.
  - split_and!; [done|by repeat constructor|done].
Qed.

Lemma wanted_target l w t : wanted l = Some w -> target t l = w.
Proof.
  unfold wanted, target.
  assert (H : forall a, (foldl (fun a b => if decide (b = star) then a else Some b) a l) = Some w ->
    foldl (fun a b => if decide (b = star) then a else b) (default t a) l = w).
  { induction l as [|x l IH]; intros a; simpl; [by intros ->|]. case_decide; [apply IH|]. intros Hw. by apply IH in Hw. }
  apply (H None).
Qed.

Lemma convertible_some s t {A} (responses : list (jstr * A)) first : Forall (fun r => r.1 <> []) responses ->
  (responses <> [] \/ exists x, first = Some x /\ x <> []) ->
  exists x, convertible s t first responses = Some x /\ x <> [] /\ (Some x = first \/ x ∈ responses.*1).
Proof.
  intros Hr. revert first. induction Hr as [|[k v] rs Hk Hr IH]; intros first Hf; simpl.
  - destruct Hf as [?|(x & -> & Hx)]; [done|]. exists x. split_and!; [done..|by left].
  - simpl in Hk. case_match.
    + destruct k as [|y k]; [done|]. eexists. split_and!; [done|done|]. right. left.
    + destruct (IH (match first with None | Some [] => Some k | _ => first end)) as (x & E & Hx & Hin).
      { right. destruct first as [[|]|]; eauto. }
      exists x. split_and!; [done|done|]. destruct Hin as [Hin|Hin]; [|right; by right].
      destruct first as [[|]|]; try (by left); right; simplify_eq/=; left.
Qed.

Lemma obj_get_own {A} (l : list (jstr * A)) k : k ∈ l.*1 -> exists v, obj_get l k = POwn v /\ (k, v) ∈ l.
Proof.
  intros Hk. unfold obj_get. destruct (assoc k l) as [v|] eqn:E; [exists v; split; [done|by apply assoc_elem]|].
  exfalso. induction l as [|[k' v] l IH]; simpl in *; [by apply elem_of_nil in Hk|]. case_decide; [done|].
  apply elem_of_cons in Hk as [?|Hk]; [done|by apply IH].
Qed.

Lemma obj_get_name {A} (l : list (jstr * A)) k : type_name k ->
  obj_get l k = PUndefined \/ exists v, obj_get l k = POwn v /\ (k, v) ∈ l.
Proof.
  intros [_ Hk]. unfold obj_get in *. simpl in Hk. destruct (assoc k l) as [v|] eqn:E; [right|left; by repeat case_decide].
  exists v. split; [done|by apply assoc_elem].
Qed.

Section response.
Context {V : Type}.
Variable inherited : jstr -> V.
Variable of_type : jstr -> V -> Prop.

(** Every response has the type under which it is given. *)
Definition responses_ok (responses : list (jstr * V)) : Prop :=
  responses <> [] /\ Forall (fun r => type_name r.1 /\ r.1 <> star /\ r.1 <> js "undefined" /\ of_type r.1 r.2) responses.

Lemma ajaxHandleResponses_ok s header responses : responses_ok responses ->
  Forall type_name (dataTypes s) -> Forall (fun c => type_name c.1 /\ c.1 <> star) (contents s) ->
  exists t rest v, ajaxHandleResponses inherited s header responses = (t :: rest, Some v) /\ of_type t v /\
    t <> star /\ t <> [] /\ Forall (fun t => t <> []) rest /\
    forall w, wanted (dataTypes s) = Some w -> target t rest = w.
Proof.
  intros [Hne Hr] Hd Hc. unfold ajaxHandleResponses.
  destruct (shift_stars_wanted (dataTypes s)) as (Hw & Hs & Hall). specialize (Hall _ Hd).
  destruct (shift_stars (dataTypes s)) as [auto types0]. simpl in Hw, Hs, Hall.
  set (ct := if auto then _ else _).
  set (types := match ct with Some ((_ :: _) as ct) => _ | _ => types0 end).
  assert (Htypes : Forall type_name types /\ Forall (fun t => t <> star) (take 1 types) /\
            forall w t, wanted (dataTypes s) = Some w -> target t types = w).
  { assert (H0 : Forall type_name types0 /\ Forall (fun t => t <> star) (take 1 types0) /\
            forall w t, wanted (dataTypes s) = Some w -> target t types0 = w).
    { split_and!; [done|done|]. intros w t Hww. rewrite <- Hw in Hww. by apply wanted_target. }
    destruct H0 as (H1 & H2 & H3). unfold types. destruct ct as [[|y ct']|]; [done| |done].
    destruct (List.find _ (contents s)) as [[type p]|] eqn:Ef; [|done]. apply List.find_some in Ef as [Ef _].
    rewrite Forall_forall in Hc. apply list_elem_of_In, Hc in Ef as [Hname Hstar]. simpl in *.
    split_and!; [by constructor|by repeat constructor|]. intros w t Hww. unfold target. simpl.
    case_decide; [done|]. by apply H3. }
  clearbody types. clear ct Hw Hs Hall. destruct Htypes as (Hn & Hs & Htarget).
  assert (Hkeys : Forall (fun r => r.1 <> []) responses) by (eapply Forall_impl; [exact Hr|]; intros r [[? _] _]; done).
  assert (Hin : forall t, t ∈ responses.*1 -> exists v, obj_get responses t = POwn v /\ of_type t v /\ t <> star /\ t <> []).
  { intros t (v & Ev & Hv)%obj_get_own. exists v. rewrite Forall_forall in Hr. destruct (Hr _ Hv) as ([? _] & ? & _ & ?). done. }
  assert (Hnonempty : Forall (fun t => t <> []) types) by (eapply Forall_impl; [exact Hn|]; by intros t [? _]).
  assert (Hpick : forall x, x ∈ responses.*1 -> exists t rest v,
    (match Some x with
     | None | Some [] => (types, None)
     | Some t => (if decide (Some t = head types) then types else t :: types,
                  Some match obj_get responses t with POwn v => v | _ => inherited t end)
     end) = (t :: rest, Some v) /\ of_type t v /\ t <> star /\ t <> [] /\ Forall (fun t => t <> []) rest /\
    forall w, wanted (dataTypes s) = Some w -> target t rest = w).
  { intros x Hx. destruct (Hin x Hx) as (v & Ev & Hv & Hstar & Hx'). destruct x as [|y x']; [done|]. set (x := y :: x') in *.
    rewrite Ev. case_decide as Eh.
    - destruct types as [|t rest]; [done|]. simpl in Eh. injection Eh as <-. exists x, rest, v.
      apply Forall_cons in Hnonempty as [_ Hrest]. split_and!; try done.
      intros w Hww. specialize (Htarget w x Hww). unfold target in Htarget |- *. simpl in Htarget. by rewrite decide_False in Htarget.
    - exists x, types, v. split_and!; try done. intros w Hww. by apply Htarget. }
  destruct types as [|t0 types'].
  - cbn [head default]. assert (Hu : type_name (js "undefined")) by (split; [done|by vm_compute]).
    destruct (obj_get_name responses _ Hu) as [->|(v & _ & Hv)].
    + destruct (convertible_some s None responses None Hkeys (or_introl Hne)) as (x & -> & _ & [?|Hx]); [done|]. by apply Hpick.
    + rewrite Forall_forall in Hr. by destruct (Hr _ Hv) as (_ & _ & ? & _).
  - change (default (js "undefined") (head (t0 :: types'))) with t0. cbn [head]. apply Forall_cons in Hn as [Hname _].
    destruct (obj_get_name responses _ Hname) as [->|(v & -> & Hv)].
    + destruct (convertible_some s (Some t0) responses None Hkeys (or_introl Hne)) as (x & -> & _ & [?|Hx]); [done|]. by apply Hpick.
    + apply Hpick. by apply (list_elem_of_fmap_2 fst) in Hv.
Qed.

End response.

(** * Responses *)

(** C19. A request gets data of the type it asked for, or an error.  With converters
    whose keys name two types and that do what their keys say, a filter that keeps
    the type, and responses that have the types they are given under, the choice of
    the response and its conversion always end; without an error the result has the
    last of the types asked for, if one was asked for, whichever response was chosen,
    whatever the content type added, and whether the conversion was direct, an
    equivalence, or found through an intermediate type. *)
Theorem response_has_requested_type `{Unicode} {V W} apply filter_data inherited of_type
    (s : settings) header responses isSuccess (st : list (jstr * V) * W) fuel types found :
  proper (lower_converters (converters s)) -> typed apply of_type (lower_converters (converters s)) ->
  (forall f t v w v' w', dataFilter s = Some f -> of_type t v -> filter_data f v (dataType s) w = (Ok v', w') -> of_type t v') ->
  responses_ok of_type responses -> Forall type_name (dataTypes s) ->
  Forall (fun c => type_name c.1 /\ c.1 <> star) (contents s) ->
  ajaxHandleResponses inherited s header responses = (types, found) -> 2 * length types <= fuel ->
  exists v out st', found = Some v /\ ajaxConvert apply filter_data fuel (set_dataTypes types s) v isSuccess st = Some (out, st') /\
    forall data, out = Ok (Converted data) ->
      exists t, of_type t data /\ forall w, wanted (dataTypes s) = Some w -> t = w.
Proof.
  intros Hp Ht Hf Hr Hd Hc Hh Hfuel.
  destruct (ajaxHandleResponses_ok inherited of_type s header responses Hr Hd Hc)
    as (t & rest & v & E & Hv & Hs & Hne & Hrest & Hw). rewrite E in Hh. injection Hh as <- <-. exists v.
  unfold ajaxConvert, set_dataTypes. cbn [dataTypes converters head default tail from_option].
  set (cs := match rest with [] => _ | _ => _ end).
  assert (Hcs : proper cs /\ typed apply of_type cs).
  { unfold cs. destruct rest as [|[|y nx] rest]; [split; [constructor|done]|split; [constructor|done]|by split]. }
  destruct Hcs as [Hp' Ht'].
  destruct (loops_all apply filter_data of_type (set_dataTypes (t :: rest) s) Hf cs isSuccess Hp' Ht' rest Hrest fuel true t v st
              Hs Hne Hv) as (out & st' & E' & Hout); [simpl in Hfuel; lia|].
  exists out, st'. split; [done|]. split; [exact E'|]. intros data Hdata. exists (target t rest). split; [by apply Hout|].
  intros w Hww. by apply Hw.
Qed.

(** A page with the converters of the library, whose XML parser fails. *)
Inductive value := Text (t : jstr) | Json (n : nat) | Undefined.

Definition sample_type (t : jstr) (v : value) : Prop :=
  match v with
  | Text _ => t = js "text" \/ t = js "html"
  | Json _ => t = js "json"
  | Undefined => False
  end.

Definition sample_apply (f : nat) (v : value) (w : nat) : res value * nat :=
  match f, v with
  | 0, Text t => (Ok (Text t), w)
  | 0, _ => (Ok (Text []), w)
  | 1, Text t => (Ok (Json (length t)), S w)
  | _, _ => (Throw TypeError, w)
  end.

Definition sample_settings : @settings :=
  {| dataTypes := [star; js "json"]; dataType := None; mimeType := None;
     contents := [(js "html", Some {| p_groups := 0; p_re := RLit (js "html") |})];
     responseFields := [(js "text", js "responseText"); (js "json", js "responseJSON")];
     converters := [(js "* text", CFn 0); (js "text html", CTrue); (js "text JSON", CFn 1); (js "text xml", CFn 2)];
     dataFilter := None; throws := false |}.

Lemma sample_proper : proper (lower_converters (converters sample_settings)).
Proof.
  change (lower_converters (converters sample_settings)) with
    [(pair_key star (js "text"), CFn 0); (pair_key (js "text") (js "html"), CTrue);
     (pair_key (js "text") (js "json"), CFn 1); (pair_key (js "text") (js "xml"), CFn 2)].
  repeat (apply Forall_cons_2; [split; [done|]; do 2 eexists; split; [reflexivity|]; split_and!;
    by apply (bool_decide_unpack _); vm_compute|]). constructor.
Qed.

Lemma sample_typed : typed sample_apply sample_type (lower_converters (converters sample_settings)).
Proof.
  intros a b c. change (lower_converters (converters sample_settings)) with
    [(pair_key star (js "text"), CFn 0); (pair_key (js "text") (js "html"), CTrue);
     (pair_key (js "text") (js "json"), CFn 1); (pair_key (js "text") (js "xml"), CFn 2)].
  cbn [assoc]. repeat case_decide; [..|by intros ?];
    match goal with E : _ = pair_key a b |- _ =>
      symmetry in E; apply pair_key_inj in E as [-> ->]; [|by apply (bool_decide_unpack _); vm_compute..]
    end; intros [= <-].
  - intros [t|n|] w v' w' _ [= <- <-]; by left.
  - intros [t|n|] [?|Ht]; try done; by right.
  - intros [t|n|] w v' w' _; [|done..]. by intros [= <- <-].
  - by intros [t|n|] w v' w' _.
Qed.

Lemma response_has_requested_type_witness :
  exists out st', ajaxConvert sample_apply (fun _ v _ w => (Ok v, w)) 4 (set_dataTypes [js "text"; js "json"] sample_settings)
      (Text (js "{}")) true ([], 0) = Some (out, st') /\ out = Ok (Converted (Json 2)) /\
    forall data, out = Ok (Converted data) -> sample_type (js "json") data.
Proof.
  destruct (response_has_requested_type sample_apply (fun _ v _ w => (Ok v, w)) (fun _ => Undefined) sample_type
    sample_settings (Some (js "application/json")) [(js "text", Text (js "{}"))] true ([], 0) 4
    [js "text"; js "json"] (Some (Text (js "{}")))) as (v & out & st' & Ev & E & Hout).
  - apply sample_proper.
  - apply sample_typed.
  - done.
  - split; [done|]. repeat constructor; done.
  - repeat constructor; done.
  - repeat constructor; done.
  - by vm_compute.
  - simpl. lia.
  - injection Ev as <-. exists out, st'. split; [exact E|]. split.
    + vm_compute in E. by injection E as <- _.
    + intros data Hd. destruct (Hout data Hd) as (t & Ht & Hw). by rewrite (Hw (js "json") eq_refl) in Ht.
Defined.

End JqConvertProofs.
