(* ===== verification/JqQueue.v ===== *)
(** The queues of [jquery.js] (lines 4559 to 4695): [queue], [dequeue], [clearQueue]
    and [promise].

    The store holds what the data stores of the elements hold under [type + "queue"]
    and [type + "queueHooks"], with the promises that wait in the list [empty] of the
    hooks, the state of the promises, and a record of what has happened, for the
    theorems.  The functions in a queue and the done callbacks of a promise are those of
    the page: the commands they give are an argument [code], which sees all that has
    happened; the [next] they get is [dequeue] on their own queue.  Types are names
    without dashes, which the data stores leave as they are.  The lists [empty] and the
    done list of a promise are fired as those of [Callbacks] with the options once and
    memory are: what waits in them is called once and in order, what is added later is
    called at once, and a callback that throws ends the firing.  Left out: the
    [stop] function of the hooks, which only animations set, hooks that a page keeps
    and adds callbacks to, and what a page does with a promise other than [done]. *)

From S2P Require Import Prelude.

Module JqQueue.

(** * The store *)

Inductive item := QFn (f : nat) | QInProgress.

#[global] Instance item_eq_dec : EqDecision item.
Proof. solve_decision. Defined.

(** What happens, for the record *)
Inductive happening :=
| Queued (e : nat) (type : jstr) (f : nat)
| Replaced (e : nat) (type : jstr) (fs : list nat)
| Started (e : nat) (type : jstr) (f : nat)
| Dequeued (e : nat) (type : jstr)     (** a call of [dequeue] or of a [next] *)
| Promised (p : nat) (ks : list (nat * jstr))     (** a promise, and the queues it waits for *)
| Emptied (e : nat) (type : jstr)      (** a call of [hooks.empty.fire] *)
| Resolved (p : nat)                   (** a call of [defer.resolveWith] *)
| Added (p : nat) (f : nat)            (** a call of [done] *)
| Called (p : nat) (f : nat)           (** a done callback runs *)
| Threw (x : exn)                      (** a function of the page throws *)
| OutOfFuel.

#[global] Instance happening_eq_dec : EqDecision happening.
Proof. solve_decision. Defined.

(** The done list of a promise: the callbacks that have not been called *)
Record done_list := { fired : bool; firing : bool; callbacks : list nat }.

Definition done_start : done_list := {| fired := false; firing := false; callbacks := [] |}.

Record qstore := {
  queues : gmap (nat * jstr) (list item);
  hooks : gmap (nat * jstr) (list nat);      (** the promises that wait for [empty] *)
  counts : list Z;                           (** the [count] of every promise *)
  dones : list done_list;                    (** and its done list *)
  log : list happening;
}.

Definition qstore_start : qstore := {| queues := ∅; hooks := ∅; counts := []; dones := []; log := [] |}.

Definition set_queue (e : nat) (type : jstr) (q : list item) (s : qstore) : qstore :=
  {| queues := <[(e, type) := q]> (queues s); hooks := hooks s; counts := counts s; dones := dones s; log := log s |}.
Definition set_hooks (e : nat) (type : jstr) (w : list nat) (s : qstore) : qstore :=
  {| queues := queues s; hooks := <[(e, type) := w]> (hooks s); counts := counts s; dones := dones s; log := log s |}.
Definition set_counts (l : list Z) (s : qstore) : qstore :=
  {| queues := queues s; hooks := hooks s; counts := l; dones := dones s; log := log s |}.
Definition set_count (p : nat) (n : Z) (s : qstore) : qstore := set_counts (<[p := n]> (counts s)) s.
Definition count_of (p : nat) (s : qstore) : Z := default 0%Z (counts s !! p).
Definition note (h : happening) (s : qstore) : qstore :=
  {| queues := queues s; hooks := hooks s; counts := counts s; dones := dones s; log := log s ++ [h] |}.

(** [dataPriv.remove(elem, [type + "queue", key])] *)
Definition remove_queue (e : nat) (type : jstr) (s : qstore) : qstore :=
  {| queues := delete (e, type) (queues s); hooks := delete (e, type) (hooks s); counts := counts s; dones := dones s; log := log s |}.

(** * Queues *)

Definition fx : jstr := js "fx".

(** Functions to add, or an array of functions to put in place of the queue *)
Inductive qdata := One (f : nat) | Array (fs : list nat).

Definition queue_at (e : nat) (type : jstr) (s : qstore) : list item := default [] (queues s !! (e, type)).

(** [jQuery.queue(elem, type, data)] *)
Definition queue (e : nat) (type : jstr) (data : option qdata) (s : qstore) : list item * qstore :=
  match data, queues s !! (e, type) with
  | Some (One f), Some q => (q ++ [QFn f], set_queue e type (q ++ [QFn f]) s)
  | Some (One f), None => ([QFn f], set_queue e type [QFn f] s)
  | Some (Array fs), _ => (QFn <$> fs, set_queue e type (QFn <$> fs) s)
  | None, q => (default [] q, s)
  end.

(** [jQuery._queueHooks(elem, type)] *)
Definition queueHooks (e : nat) (type : jstr) (s : qstore) : qstore :=
  match hooks s !! (e, type) with Some _ => s | None => set_hooks e type [] s end.

Definition done_at (p : nat) (s : qstore) : done_list := default done_start (dones s !! p).
Definition set_dones (l : list done_list) (s : qstore) : qstore :=
  {| queues := queues s; hooks := hooks s; counts := counts s; dones := l; log := log s |}.
Definition set_done (p : nat) (d : done_list) (s : qstore) : qstore := set_dones (<[p := d]> (dones s)) s.

(** The commands of a page *)
Inductive act :=
| AQueue (es : list nat) (type : jstr) (data : qdata)
| ADequeue (es : list nat) (type : jstr)
| APromise (es : list nat) (type : jstr)
| ADone (p : nat) (f : nat)
| AThrow (e : exn).

(** [clearQueue(type)] *)
Definition clearQueue (es : list nat) (type : jstr) : act := AQueue es type (Array []).

Abbreviation outcome := (res unit * qstore)%type.

(** [this.each(...)] *)
Fixpoint each (f : nat -> qstore -> outcome) (es : list nat) (s : qstore) : outcome :=
  match es with
  | [] => (Ok tt, s)
  | e :: es' => match f e s with (Ok _, s') => each f es' s' | x => x end
  end.

(** The loop of [promise], from the last element to the first; [es] is reversed. *)
Fixpoint promise_loop (p : nat) (es : list nat) (type : jstr) (s : qstore) : qstore :=
  match es with
  | [] => s
  | e :: es' =>
      promise_loop p es' type
        match hooks s !! (e, type) with
        | Some w => set_hooks e type (w ++ [p]) (set_count p (count_of p s + 1)%Z s)
        | None => s
        end
  end.

(** What [promise(type)] does before its own call of [resolve]; promises are numbered. *)
Definition promised (es : list nat) (type : jstr) (s : qstore) : qstore :=
  let p := length (counts s) in
  let ks := filter (fun k => hooks s !! k <> None) ((fun e => (e, type)) <$> rev es) in
  promise_loop p (rev es) type
    (note (Promised p ks) (set_dones (dones s ++ [done_start]) (set_counts (counts s ++ [1%Z]) s))).

(** What runs code of the page: [jQuery.dequeue], and the rest of the firing of a
    done list *)
Inductive task := TDequeue (e : nat) (type : jstr) | TDone (p : nat).

Section code.
Variable code : nat -> list happening -> list act.

Section commands.
Variable run : task -> qstore -> outcome.

(** The function [resolve] of a promise: [if (!(--count)) defer.resolveWith(...)].
    The done list is locked once it has been fired. *)
Definition resolve (p : nat) (s : qstore) : outcome :=
  let n := (count_of p s - 1)%Z in
  let s := set_count p n s in
  if Z.eqb n 0 then
    let d := done_at p s in
    let s := note (Resolved p) s in
    if fired d then (Ok tt, s)
    else run (TDone p) (set_done p {| fired := true; firing := true; callbacks := callbacks d |} s)
  else (Ok tt, s).

(** [hooks.empty.fire()]: the data is removed, then the promises that wait hear of it, until
    a callback of one throws. *)
Definition fire_empty (e : nat) (type : jstr) (s : qstore) : outcome :=
  each resolve (default [] (hooks s !! (e, type))) (note (Emptied e type) (remove_queue e type s)).

(** [promise(type)] *)
Definition promise (es : list nat) (type : jstr) (s : qstore) : outcome :=
  resolve (length (counts s)) (promised es type s).

(** [done(f)]: a list that has been fired, and is not being fired, is fired for the
    new callback. *)
Definition add_done (p f : nat) (s : qstore) : outcome :=
  match dones s !! p with
  | None => (Ok tt, s)       (* no such promise *)
  | Some d =>
      let s := note (Added p f) s in
      if fired d && negb (firing d)
      then run (TDone p) (set_done p {| fired := true; firing := true; callbacks := callbacks d ++ [f] |} s)
      else (Ok tt, set_done p {| fired := fired d; firing := firing d; callbacks := callbacks d ++ [f] |} s)
  end.

(** What [queue(type, data)] does for an element *)
Definition queue_one (type : jstr) (data : qdata) (e : nat) (s : qstore) : outcome :=
  let s := note match data with One f => Queued e type f | Array fs => Replaced e type fs end s in
  let '(q, s) := queue e type (Some data) s in
  let s := queueHooks e type s in
  if bool_decide (type = fx) && negb (bool_decide (head q = Some QInProgress)) then run (TDequeue e type) s else (Ok tt, s).

Definition run_act (a : act) (s : qstore) : outcome :=
  match a with
  | AQueue es type data => each (queue_one type data) es s
  | ADequeue es type => each (fun e s => run (TDequeue e type) (note (Dequeued e type) s)) es s
  | APromise es type => promise es type s
  | ADone p f => add_done p f s
  | AThrow e => (Throw e, note (Threw e) s)
  end.

Fixpoint run_acts (l : list act) (s : qstore) : outcome :=
  match l with
  | [] => (Ok tt, s)
  | a :: l' => match run_act a s with (Ok _, s') => run_acts l' s' | x => x end
  end.

End commands.

(** The first entry, behind the sentinel if it is the first, the entries after it and
    the number of entries, the sentinel not counted *)
Definition shift (q : list item) : option item * list item * nat :=
  let q := match q with QInProgress :: q' => q' | _ => q end in
  (head q, tail q, length q).

(** [jQuery.dequeue(elem, type)], given what runs code of the page *)
Definition dequeue (run : task -> qstore -> outcome) (e : nat) (type : jstr) (s : qstore) : outcome :=
  let '(fn, q, startLength) := shift (queue_at e type s) in
  let s := match queues s !! (e, type) with Some _ => set_queue e type q s | None => s end in
  let s := queueHooks e type s in
  match fn with
  | Some fn =>
      let s := if bool_decide (type = fx) then set_queue e type (QInProgress :: q) s else s in
      match fn with
      | QFn f => let s := note (Started e type f) s in run_acts run (code f (log s)) s
      | QInProgress => (Throw TypeError, s)
      end
  | None => if Nat.eqb startLength 0 then fire_empty run e type s else (Ok tt, s)
  end.

(** The next callback of a done list that is being fired, and the ones after it *)
Definition fire_done (run : task -> qstore -> outcome) (p : nat) (s : qstore) : outcome :=
  let d := done_at p s in
  match callbacks d with
  | [] => (Ok tt, set_done p {| fired := fired d; firing := false; callbacks := [] |} s)
  | f :: rest =>
      let s := note (Called p f) (set_done p {| fired := fired d; firing := firing d; callbacks := rest |} s) in
      match run_acts run (code f (log s)) s with
      | (Ok _, s) => run (TDone p) s
      | x => x
      end
  end.

Fixpoint run (fuel : nat) (t : task) (s : qstore) : outcome :=
  match fuel with
  | O => (Throw (OutOfModel (js "fuel")), note OutOfFuel s)
  | S fuel' => match t with TDequeue e type => dequeue (run fuel') e type s | TDone p => fire_done (run fuel') p s end
  end.

(** A page that gives commands one after another, the later ones also when one has
    thrown *)
Fixpoint run_page (fuel : nat) (l : list act) (s : qstore) : qstore :=
  match l with
  | [] => s
  | a :: l' => run_page fuel l' (run_act (run fuel) a s).2
  end.

End code.

End JqQueue.
