(* ===== verification/JqQueueProofs.v ===== *)
(** Theorems on the queues of [JqQueue.v]: functions run in the order in which they
    were queued, those of a queue fx one at a time and without stalling.

    What a queue holds is related to the part of the record that is about its key; the
    relation is an invariant of every step, with a weaker form between the decision to
    dequeue and the dequeuing. *)

From stdpp Require Import gmap.
From S2P Require Import Prelude JqQueue.

Module JqQueueProofs.
Export JqQueue.

(** * What the record says about a queue *)

Definition key_of (h : happening) : option (nat * jstr) :=
  match h with
  | Queued e t _ | Replaced e t _ | Started e t _ | Dequeued e t => Some (e, t)
  | _ => None
  end.

Definition at_key (e : nat) (type : jstr) (l : list happening) : list happening :=
  filter (fun h => key_of h = Some (e, type)) l.

Definition queued (l : list happening) : list nat :=
  omap (fun h => match h with Queued _ _ f => Some f | _ => None end) l.
Definition started (l : list happening) : list nat :=
  omap (fun h => match h with Started _ _ f => Some f | _ => None end) l.
Definition replaced (l : list happening) : bool :=
  existsb (fun h => match h with Replaced _ _ _ => true | _ => false end) l.

(** A function runs from its start to the next call of [dequeue], or until the queue
    is replaced. *)
Definition turn (b : bool) (h : happening) : bool :=
  match h with Started _ _ _ => true | Dequeued _ _ | Replaced _ _ _ => false | _ => b end.
Definition busy (l : list happening) : bool := foldl turn false l.

(** No function starts while another one runs. *)
Fixpoint serial (b : bool) (l : list happening) : bool :=
  match l with
  | [] => true
  | h :: l' => negb (b && match h with Started _ _ _ => true | _ => false end) && serial (turn b h) l'
  end.

(** The functions that the record leaves in a queue *)
Definition leave (fs : list nat) (h : happening) : list nat :=
  match h with Queued _ _ f => fs ++ [f] | Replaced _ _ fs' => fs' | Started _ _ _ => tail fs | _ => fs end.
Definition left_over (l : list happening) : list nat := foldl leave [] l.

(** The functions in a queue *)
Definition waiting (q : list item) : list nat :=
  omap (fun i => match i with QFn f => Some f | QInProgress => None end) q.

Lemma at_key_app e t l1 l2 : at_key e t (l1 ++ l2) = at_key e t l1 ++ at_key e t l2.
Proof. apply filter_app. Qed.

Lemma at_key_eq e t h : key_of h = Some (e, t) -> at_key e t [h] = [h].
Proof. intros E. unfold at_key. by rewrite filter_cons_True. Qed.

Lemma at_key_ne e t l : Forall (fun h => key_of h <> Some (e, t)) l -> at_key e t l = [].
Proof. induction 1 as [|h l Hh _ IH]; [done|]. unfold at_key. by rewrite filter_cons_False. Qed.

Lemma serial_snoc b l h :
  serial b (l ++ [h]) = serial b l && negb (foldl turn b l && match h with Started _ _ _ => true | _ => false end).
Proof. revert b. induction l as [|h' l IH]; intros b; simpl; [by rewrite andb_comm|]. by rewrite IH, andb_assoc. Qed.

Lemma busy_snoc l h : busy (l ++ [h]) = turn (busy l) h.
Proof. unfold busy. by rewrite foldl_snoc. Qed.

Lemma left_snoc l h : left_over (l ++ [h]) = leave (left_over l) h.
Proof. unfold left_over. by rewrite foldl_snoc. Qed.

Lemma queued_app l1 l2 : queued (l1 ++ l2) = queued l1 ++ queued l2.
Proof. apply omap_app. Qed.
Lemma started_app l1 l2 : started (l1 ++ l2) = started l1 ++ started l2.
Proof. apply omap_app. Qed.
Lemma replaced_snoc l h :
  replaced (l ++ [h]) = replaced l || match h with Replaced _ _ _ => true | _ => false end.
Proof. unfold replaced. rewrite existsb_app. simpl. by rewrite orb_false_r. Qed.

Create Rewrite HintDb queues.
#[export] Hint Rewrite serial_snoc busy_snoc left_snoc queued_app started_app replaced_snoc : queues.

(** A queue of functions, with or without the sentinel *)
Definition marked (b : bool) (fs : list nat) : list item := (if b then [QInProgress] else []) ++ (QFn <$> fs).

Lemma marked_snoc b fs f : marked b fs ++ [QFn f] = marked b (fs ++ [f]).
Proof. unfold marked. by rewrite fmap_app, app_assoc. Qed.

Lemma waiting_marked b fs : waiting (marked b fs) = fs.
Proof.
  assert (waiting (QFn <$> fs) = fs) as E.
  { induction fs as [|f fs IH]; [done|]. change (f :: waiting (QFn <$> fs) = f :: fs). by rewrite IH. }
  unfold waiting, marked in *. rewrite omap_app. destruct b; exact E.
Qed.

(** * The invariant of a key *)

(** [pre] holds when the queue is about to be dequeued, [o] when fuel has run out. *)
Definition key_ok (pre o : bool) (t : jstr) (q : list item) (l : list happening) : Prop :=
  exists b fs, q = marked b fs /\ (b = true -> t = fx) /\
    (left_over l = fs /\ (replaced l = false -> queued l = started l ++ fs)) /\
    (t = fx -> serial false l = true /\ (busy l = true -> b = true /\ pre = false) /\
       (o = false -> pre = false -> (b = true -> busy l = true) /\ (fs <> [] -> b = true))).

(** Does [queue] dequeue? *)
Definition starts (t : jstr) (q : list item) : bool :=
  bool_decide (t = fx) && negb (bool_decide (head q = Some QInProgress)).

Lemma head_marked b fs : bool_decide (head (marked b fs) = Some QInProgress) = b.
Proof. destruct b, fs; reflexivity. Qed.

Ltac queue_steps := autorewrite with queues; simpl; rewrite ?andb_false_r, ?orb_false_r, ?orb_true_r, ?app_nil_r; simpl; rewrite ?andb_true_r.

Lemma push_ok o e t q l f :
  key_ok false o t q l -> key_ok (starts t (q ++ [QFn f])) o t (q ++ [QFn f]) (l ++ [Queued e t f]).
Proof.
  intros (b & fs & -> & Hb & Ho & Hx).
  rewrite marked_snoc. exists b, (fs ++ [f]). split; [done|]. split; [done|]. queue_steps. destruct Ho as [Hl Ho]. split.
  - split; [by rewrite Hl|]. intros Hr. by rewrite Ho, app_assoc.
  - intros ->. destruct (Hx eq_refl) as (Hs & Hr & Hd). split; [done|]. unfold starts. rewrite head_marked.
    rewrite (bool_decide_eq_true_2 _ eq_refl). split.
    + intros Hbu. destruct (Hr Hbu) as [-> _]. done.
    + intros Ho' Hp. destruct b; [|done]. split; [by apply Hd|done].
Qed.

Lemma replace_ok o e t q l fs :
  key_ok false o t q l -> key_ok (starts t (QFn <$> fs)) o t (QFn <$> fs) (l ++ [Replaced e t fs]).
Proof.
  intros (b & fs' & -> & Hb & Ho & Hx). exists false, fs. split; [done|]. split; [done|]. queue_steps. split; [done|].
  intros ->. destruct (Hx eq_refl) as (Hs & _). split; [done|]. split; [done|]. unfold starts.
  change (QFn <$> fs) with (marked false fs). rewrite head_marked, (bool_decide_eq_true_2 _ eq_refl). done.
Qed.

Lemma dequeued_ok o e t q l : key_ok false o t q l -> key_ok true o t q (l ++ [Dequeued e t]).
Proof.
  intros (b & fs & -> & Hb & Ho & Hx). exists b, fs. split; [done|]. split; [done|]. queue_steps. split; [done|].
  intros ->. by destruct (Hx eq_refl) as (Hs & _).
Qed.

Lemma no_fuel_ok o pre t q l : key_ok pre o t q l -> key_ok false true t q l.
Proof.
  intros (b & fs & -> & Hb & Ho & Hx). exists b, fs. split; [done|]. split; [done|]. split; [done|].
  intros Ht. destruct (Hx Ht) as (Hs & Hr & _). split; [done|]. split; [|done]. intros Hbu. by destruct (Hr Hbu).
Qed.

Lemma shift_marked b fs :
  shift (marked b fs) = (QFn <$> head fs, QFn <$> tail fs, length fs).
Proof. destruct b, fs; unfold shift; csimpl; by rewrite ?length_fmap. Qed.

(** A dequeued queue starts its first function, or is empty. *)
Lemma shift_ok o e t q l : key_ok true o t q l ->
  match shift q with
  | (Some (QFn f), q', _) => key_ok false o t (if bool_decide (t = fx) then QInProgress :: q' else q') (l ++ [Started e t f])
  | (Some QInProgress, _, _) => False
  | (None, _, n) => n = 0 /\ key_ok false o t [] l
  end.
Proof.
  intros (b & fs & -> & Hb & Ho & Hx). rewrite shift_marked. destruct fs as [|f fs]; simpl.
  - split; [done|]. exists false, []. do 3 (split; [done|]). intros Ht. destruct (Hx Ht) as (Hs & Hr & _). split; [done|].
    split; [|done]. intros Hbu. by destruct (Hr Hbu).
  - exists (bool_decide (t = fx)), fs. split; [by destruct (bool_decide (t = fx))|].
    split; [by intros ?%bool_decide_eq_true_1|]. queue_steps. destruct Ho as [Hl Ho]. split.
    + split; [by rewrite Hl|]. intros Hr. by rewrite Ho, <- app_assoc.
    + intros Ht. destruct (Hx Ht) as (Hs & Hr & _). rewrite (bool_decide_eq_true_2 _ Ht), Hs. split; [|done].
      change (negb (busy l) = true). destruct (busy l); [|done]. by destruct (Hr eq_refl).
Qed.

(** * The invariant of the store *)

Definition spent (s : qstore) : bool := bool_decide (OutOfFuel ∈ log s).

(** [pre] is the queue about to be dequeued, if any. *)
Definition ready (pre : option (nat * jstr)) (s : qstore) : Prop :=
  forall e t, key_ok (bool_decide (pre = Some (e, t))) (spent s) t (queue_at e t s) (at_key e t (log s)).

(** A step that changes one queue, and records something about it *)
Record moved (e : nat) (type : jstr) (q : list item) (l : list happening) (s s' : qstore) : Prop := {
  moved_queue : forall e' t', queue_at e' t' s' = if decide ((e', t') = (e, type)) then q else queue_at e' t' s;
  moved_log : log s' = log s ++ l;
  moved_about : Forall (fun h => h <> OutOfFuel /\ forall k, key_of h = Some k -> k = (e, type)) l;
}.

Lemma spent_moved e type q l s s' : moved e type q l s s' -> spent s' = spent s.
Proof.
  intros [_ E Ha]. unfold spent. rewrite E. apply bool_decide_ext. rewrite elem_of_app. split; [|by left].
  intros [?|Hl]; [done|]. rewrite Forall_forall in Ha. by destruct (Ha _ Hl).
Qed.

Lemma ready_moved pre pre' e type q l s s' :
  ready pre s -> moved e type q l s s' -> (pre = None \/ pre = Some (e, type)) ->
  (key_ok (bool_decide (pre = Some (e, type))) (spent s) type (queue_at e type s) (at_key e type (log s)) ->
   key_ok pre' (spent s) type q (at_key e type (log s) ++ at_key e type l)) ->
  ready (if pre' then Some (e, type) else None) s'.
Proof.
  intros Hs Hm Hp Hk e' t'. rewrite (spent_moved _ _ _ _ _ _ Hm). destruct Hm as [Hq Hl Ha].
  rewrite Hq, Hl, at_key_app. destruct (decide ((e', t') = (e, type))) as [[= -> ->]|Hne].
  - replace (bool_decide _) with pre'; [by apply Hk|]. destruct pre'; [by rewrite bool_decide_eq_true_2|done].
  - rewrite (at_key_ne e' t' l), app_nil_r.
    + specialize (Hs e' t'). rewrite bool_decide_eq_false_2 in Hs by (destruct Hp as [->| ->]; congruence).
      rewrite bool_decide_eq_false_2 by (destruct pre'; congruence). exact Hs.
    + eapply Forall_impl; [exact Ha|]. intros h [_ Hh] E. by apply Hne, Hh.
Qed.

(** ** The steps *)

Lemma queue_at_set e type q s e' t' :
  queue_at e' t' (set_queue e type q s) = if decide ((e', t') = (e, type)) then q else queue_at e' t' s.
Proof.
  unfold queue_at, set_queue. simpl. case_decide as E; [by rewrite E, lookup_insert_eq|by rewrite lookup_insert_ne].
Qed.

Lemma queue_at_remove e type s e' t' :
  queue_at e' t' (remove_queue e type s) = if decide ((e', t') = (e, type)) then [] else queue_at e' t' s.
Proof.
  unfold queue_at, remove_queue. simpl. case_decide as E; [by rewrite E, lookup_delete_eq|by rewrite lookup_delete_ne].
Qed.

(** [queueHooks] leaves the queues and the record alone. *)
Lemma queueHooks_queues e type s : queues (queueHooks e type s) = queues s.
Proof. unfold queueHooks. by destruct (hooks s !! _). Qed.
Lemma queueHooks_log e type s : log (queueHooks e type s) = log s.
Proof. unfold queueHooks. by destruct (hooks s !! _). Qed.
Lemma queueHooks_at e type s e' t' : queue_at e' t' (queueHooks e type s) = queue_at e' t' s.
Proof. unfold queue_at. by rewrite queueHooks_queues. Qed.

(** What is recorded about promises *)
Definition silent (h : happening) : Prop := key_of h = None /\ h <> OutOfFuel.

Lemma silent_about e type l : Forall silent l ->
  Forall (fun h => h <> OutOfFuel /\ forall k, key_of h = Some k -> k = (e, type)) l.
Proof. intros Hl. eapply Forall_impl; [exact Hl|]. intros h [Hh ?]. split; [done|]. by rewrite Hh. Qed.

(** A queue is empty and its data is removed. *)
Definition emptied (e : nat) (type : jstr) (s : qstore) : qstore := note (Emptied e type) (remove_queue e type s).

Lemma emptied_moved e type s : moved e type [] [Emptied e type] s (emptied e type s).
Proof. split; [apply queue_at_remove|done|apply silent_about; by repeat constructor]. Qed.

Lemma promise_loop_frame p es type s : queues (promise_loop p es type s) = queues s /\
  log (promise_loop p es type s) = log s /\ dones (promise_loop p es type s) = dones s.
Proof.
  revert s. induction es as [|e es IH]; intros s; [done|]. simpl. destruct (IH match hooks s !! (e, type) with
    | Some w => set_hooks e type (w ++ [p]) (set_count p (count_of p s + 1)%Z s) | None => s end) as (-> & -> & ->).
  by destruct (hooks s !! (e, type)).
Qed.

Lemma ready_resolved pre s s' l : ready pre s -> queues s' = queues s -> log s' = log s ++ l ->
  Forall silent l -> ready pre s'.
Proof.
  intros Hs Hq Hl Hr e t. specialize (Hs e t).
  assert (moved e t (queue_at e t s) l s s') as Hm.
  { split; [|exact Hl|by apply silent_about]. intros e' t'. unfold queue_at. rewrite Hq. by destruct (decide ((e', t') = (e, t))) as [[= -> ->]|]. }
  rewrite (spent_moved _ _ _ _ _ _ Hm), Hl, at_key_app, (at_key_ne e t l), app_nil_r; [unfold queue_at in *; by rewrite Hq|].
  eapply Forall_impl; [exact Hr|]. by intros h [Hh _] E; rewrite Hh in E.
Qed.

(** A promise leaves the queues alone. *)
Lemma promised_ready pre es type s : ready pre s -> ready pre (promised es type s).
Proof.
  intros Hs. unfold promised. match goal with |- context [promise_loop ?p ?l ?t ?s'] => destruct (promise_loop_frame p l t s') as (Hq & Hl & _) end.
  eapply ready_resolved; [exact Hs|exact Hq|exact Hl|]. by repeat constructor.
Qed.

(** What a command adds to the queue of an element, and the record of it *)
Definition recorded (e : nat) (type : jstr) (data : qdata) : happening :=
  match data with One f => Queued e type f | Array fs => Replaced e type fs end.
Definition added (data : qdata) (q : list item) : list item :=
  match data with One f => q ++ [QFn f] | Array fs => QFn <$> fs end.

Lemma queue_moved e type data s :
  let r := queue e type (Some data) (note (recorded e type data) s) in
  r.1 = added data (queue_at e type s) /\ moved e type r.1 [recorded e type data] s (queueHooks e type r.2).
Proof.
  simpl. assert (Forall (fun h => h <> OutOfFuel /\ forall k, key_of h = Some k -> k = (e, type)) [recorded e type data]) as Ha.
  { repeat constructor; [by destruct data|]. by destruct data; intros k [= <-]. }
  unfold queue, queue_at. simpl. destruct data as [f|fs].
  - destruct (queues s !! (e, type)) as [q|] eqn:E; simpl; (split; [done|]);
      (split; [|by rewrite queueHooks_log|done]); intros e' t'; by rewrite queueHooks_at, queue_at_set.
  - simpl. split; [done|]. split; [|by rewrite queueHooks_log|done]. intros e' t'. by rewrite queueHooks_at, queue_at_set.
Qed.

Lemma queue_ready e type data s : ready None s ->
  let r := queue e type (Some data) (note (recorded e type data) s) in
  ready (if starts type r.1 then Some (e, type) else None) (queueHooks e type r.2).
Proof.
  intros Hs r. destruct (queue_moved e type data s) as [Hq Hm]. fold r in Hq, Hm.
  eapply ready_moved; [exact Hs|exact Hm|by left|]. rewrite bool_decide_eq_false_2 by done. intros Hk.
  rewrite (at_key_eq e type) by (by destruct data). rewrite Hq.
  destruct data; [by apply push_ok|by eapply replace_ok].
Qed.

Lemma dequeued_ready e type s : ready None s -> ready (Some (e, type)) (note (Dequeued e type) s).
Proof.
  intros Hs. apply (ready_moved None true e type (queue_at e type s) [Dequeued e type] s); [done| |by left|].
  - split; [|done|].
    + intros e' t'. change (queue_at e' t' (note (Dequeued e type) s)) with (queue_at e' t' s).
      by destruct (decide ((e', t') = (e, type))) as [[= -> ->]|].
    + repeat constructor; [done|]. by intros k [= <-].
  - rewrite bool_decide_eq_false_2 by done. intros Hk. rewrite (at_key_eq e type) by done. by apply dequeued_ok.
Qed.

Lemma silent_ready pre h s : silent h -> ready pre s -> ready pre (note h s).
Proof. intros Hh Hs. eapply (ready_resolved pre s _ [h]); [done..|]. by constructor. Qed.

Lemma same_ready pre s s' : queues s' = queues s -> log s' = log s -> ready pre s -> ready pre s'.
Proof. intros Hq Hl Hs. eapply (ready_resolved pre s _ []); [done..|by rewrite app_nil_r|constructor]. Qed.

Lemma out_of_fuel_ready pre s : ready pre s -> ready None (note OutOfFuel s).
Proof.
  intros Hs e t. specialize (Hs e t). rewrite (bool_decide_eq_false_2 (None = _)) by done.
  replace (spent (note OutOfFuel s)) with true.
  - simpl. rewrite at_key_app, (at_key_ne e t [OutOfFuel]), app_nil_r by (by repeat constructor). eapply no_fuel_ok. exact Hs.
  - symmetry. apply bool_decide_eq_true_2. simpl. apply elem_of_app. right. by left.
Qed.

(** What [dequeue] does to the store before it runs a function *)
Definition shifted (e : nat) (type : jstr) (s : qstore) : qstore :=
  queueHooks e type match queues s !! (e, type) with
    | Some _ => set_queue e type (shift (queue_at e type s)).1.2 s | None => s end.
Definition start (e : nat) (type : jstr) (f : nat) (q : list item) (s : qstore) : qstore :=
  note (Started e type f) (if bool_decide (type = fx) then set_queue e type (QInProgress :: q) s else s).

Lemma dequeue_eq code run e type s : dequeue code run e type s =
  match shift (queue_at e type s) with
  | (Some (QFn f), q, _) =>
      let s' := start e type f q (shifted e type s) in run_acts run (code f (log s')) s'
  | (Some QInProgress, q, _) => (Throw TypeError, if bool_decide (type = fx) then set_queue e type (QInProgress :: q) (shifted e type s) else shifted e type s)
  | (None, _, n) => if Nat.eqb n 0 then fire_empty run e type (shifted e type s) else (Ok tt, shifted e type s)
  end.
Proof. unfold start, shifted, dequeue. by destruct (shift _) as [[[[f|]|] q] n]. Qed.

Lemma shifted_at e type s e' t' : (shift (queue_at e type s)).1.2 = [] \/ queues s !! (e, type) <> None ->
  queue_at e' t' (shifted e type s) = if decide ((e', t') = (e, type)) then (shift (queue_at e type s)).1.2 else queue_at e' t' s.
Proof.
  intros Hq. unfold shifted. rewrite queueHooks_at. destruct (queues s !! (e, type)) as [q|] eqn:E.
  - apply queue_at_set.
  - destruct (decide _) as [[= -> ->]|]; [|done]. destruct Hq as [->|]; [|done]. unfold queue_at. by rewrite E.
Qed.

Lemma shifted_log e type s : log (shifted e type s) = log s.
Proof. unfold shifted. rewrite queueHooks_log. by case_match. Qed.

Lemma queue_at_present e type s : queue_at e type s <> [] -> queues s !! (e, type) <> None.
Proof. unfold queue_at. by destruct (queues s !! (e, type)). Qed.

Lemma start_moved e type f q n s : shift (queue_at e type s) = (Some (QFn f), q, n) ->
  moved e type (if bool_decide (type = fx) then QInProgress :: q else q) [Started e type f] s (start e type f q (shifted e type s)).
Proof.
  intros E. assert (queues s !! (e, type) <> None) as Hne.
  { apply queue_at_present. intros E'. by rewrite E' in E. }
  split.
  - intros e' t'. change (queue_at e' t' (start e type f q (shifted e type s))) with
      (queue_at e' t' (if bool_decide (type = fx) then set_queue e type (QInProgress :: q) (shifted e type s) else shifted e type s)).
    destruct (bool_decide (type = fx)); rewrite ?queue_at_set, shifted_at, E by (by right); by destruct (decide _).
  - unfold start. simpl. rewrite <- (shifted_log e type s). by destruct (bool_decide _).
  - repeat constructor; [done|]. by intros k [= <-].
Qed.

Lemma empty_moved e type n s : shift (queue_at e type s) = (None, [], n) ->
  moved e type [] [Emptied e type] s (emptied e type (shifted e type s)).
Proof.
  intros E. destruct (emptied_moved e type (shifted e type s)) as [Hq Hl Ha].
  split; [|by rewrite Hl, shifted_log|done].
  intros e' t'. rewrite Hq, shifted_at, E by (left; by rewrite E). by destruct (decide _).
Qed.

Lemma shift_none q q' n : shift q = (None, q', n) -> q' = [] /\ n = 0.
Proof. unfold shift. destruct q as [|[f|] [|? q]]; simpl; by intros [= <- <-]. Qed.

(** ** A run *)

(** No exception so far *)
Definition calm (l : list happening) : Prop :=
  Forall (fun h => match h with Threw _ | OutOfFuel => False | _ => True end) l.

(** A done list that is fired, with what its promise waits for behind it *)
Definition start_firing (p : nat) (s : qstore) : qstore :=
  set_done p {| fired := true; firing := true; callbacks := callbacks (done_at p s) |} s.
Definition stop_firing (p : nat) (s : qstore) : qstore :=
  set_done p {| fired := fired (done_at p s); firing := false; callbacks := [] |} s.
Definition call_next (p f : nat) (rest : list nat) (s : qstore) : qstore :=
  note (Called p f) (set_done p {| fired := fired (done_at p s); firing := firing (done_at p s); callbacks := rest |} s).
Definition push_done (p f : nat) (d : done_list) (s : qstore) : qstore :=
  let again := fired d && negb (firing d) in
  set_done p {| fired := fired d || again; firing := firing d || again; callbacks := callbacks d ++ [f] |} (note (Added p f) s).
Definition count_down (p : nat) (s : qstore) : qstore := set_count p (count_of p s - 1)%Z s.

(** An invariant of all steps is an invariant of a run: [I] holds between the
    commands, [P] of the queue that is about to be dequeued.  Both see the calls of
    [resolve] that are still to come, and the promises whose done lists are being
    fired; these are lost when an exception is thrown. *)
Section invariant.
Variable I : list nat -> list nat -> qstore -> Prop.
Variable P : list nat -> list nat -> nat -> jstr -> qstore -> Prop.

Hypothesis queue_step : forall X Y e type data s, I X Y s ->
  let r := queue e type (Some data) (note (recorded e type data) s) in
  if starts type r.1 then P X Y e type (queueHooks e type r.2) else I X Y (queueHooks e type r.2).
Hypothesis dequeue_step : forall X Y e type s, I X Y s -> P X Y e type (note (Dequeued e type) s).
Hypothesis fuel_step : forall X Y e type s, P X Y e type s -> I X Y (note OutOfFuel s).
Hypothesis end_step : forall X Y h s, h = OutOfFuel \/ (exists x, h = Threw x) -> I X Y s -> I X Y (note h s).
Hypothesis start_step : forall X Y e type s f q n, P X Y e type s -> shift (queue_at e type s) = (Some (QFn f), q, n) ->
  I X Y (start e type f q (shifted e type s)).
Hypothesis no_sentinel : forall X Y e type s q n, P X Y e type s -> shift (queue_at e type s) = (Some QInProgress, q, n) -> False.
Hypothesis empty_step : forall X Y e type s, P X Y e type s -> shift (queue_at e type s) = (None, [], 0) ->
  I (default [] (hooks (shifted e type s) !! (e, type)) ++ X) Y (emptied e type (shifted e type s)).
Hypothesis promise_step : forall X Y es type s, I X Y s -> I (length (counts s) :: X) Y (promised es type s).
Hypothesis wait_step : forall X Y p s, I (p :: X) Y s -> (count_of p s - 1 <> 0)%Z -> I X Y (count_down p s).
Hypothesis resolve_step : forall X Y p s, I (p :: X) Y s -> (count_of p s - 1 = 0)%Z ->
  if fired (done_at p s) then I X Y (note (Resolved p) (count_down p s))
  else I X (p :: Y) (start_firing p (note (Resolved p) (count_down p s))).
Hypothesis add_step : forall X Y p f d s, I X Y s -> dones s !! p = Some d ->
  if fired d && negb (firing d) then I X (p :: Y) (push_done p f d s) else I X Y (push_done p f d s).
Hypothesis call_step : forall X Y p f rest s, I X (p :: Y) s -> callbacks (done_at p s) = f :: rest ->
  I X (p :: Y) (call_next p f rest s).
Hypothesis stop_step : forall X Y p s, I X (p :: Y) s -> callbacks (done_at p s) = [] -> I X Y (stop_firing p s).
Hypothesis lose_resolve : forall X Y p s, I (p :: X) Y s -> ~ calm (log s) -> I X Y s.
Hypothesis lose_firing : forall X Y p s, I X (p :: Y) s -> ~ calm (log s) -> I X Y s.

Definition good (X Y : list nat) (o : outcome) : Prop :=
  I X Y o.2 /\ match o.1 with Ok _ => True | Throw _ => ~ calm (log o.2) end.

Definition about_to (X Y : list nat) (t : task) (s : qstore) : Prop :=
  match t with TDequeue e type => P X Y e type s | TDone p => I X (p :: Y) s end.

Lemma not_calm h s : h = OutOfFuel \/ (exists x, h = Threw x) -> ~ calm (log (note h s)).
Proof using. intros Hh [_ Hc]%Forall_app. apply Forall_cons in Hc as [Hc _]. destruct Hh as [->|[x ->]]; exact Hc. Qed.

Section acts.
Variable R : task -> qstore -> outcome.
Hypothesis HR : forall X Y t s, about_to X Y t s -> good X Y (R t s).

Lemma each_good X Y f es s : (forall e s, I X Y s -> good X Y (f e s)) -> I X Y s -> good X Y (each f es s).
Proof using.
  intros Hf. revert s. induction es as [|e es IH]; intros s Hs; simpl; [done|]. pose proof (Hf e s Hs) as [Hi Ht].
  destruct (f e s) as [[u|x] s']; simpl in *; [by apply IH|]. by split.
Qed.

Lemma resolve_good X Y p s : I (p :: X) Y s -> good X Y (resolve R p s).
Proof using HR wait_step resolve_step.
  intros Hs. unfold resolve. destruct (Z.eqb_spec (count_of p s - 1) 0) as [E|E].
  - pose proof (resolve_step X Y p s Hs E) as Hr. unfold count_down, start_firing in Hr.
    change (done_at p (set_count _ _ s)) with (done_at p s).
    change (done_at p (note _ _)) with (done_at p s) in Hr.
    destruct (fired (done_at p s)); [by split|]. apply HR. exact Hr.
  - split; [by apply wait_step|done].
Qed.

Lemma resolves_good X Y w s : I (w ++ X) Y s -> good X Y (each (resolve R) w s).
Proof using HR wait_step resolve_step lose_resolve.
  revert s. induction w as [|p w IH]; intros s Hs; simpl; [by split|].
  pose proof (resolve_good (w ++ X) Y p s Hs) as [Hi Ht]. destruct (resolve R p s) as [[u|x] s']; simpl in *; [by apply IH|].
  split; [|done]. simpl. clear Hs IH. induction w as [|q w IH]; [done|]. apply IH. by eapply lose_resolve.
Qed.

Lemma run_acts_good X Y l s : I X Y s -> good X Y (run_acts R l s).
Proof using HR queue_step dequeue_step end_step promise_step wait_step resolve_step add_step lose_resolve.
  assert (forall a s, I X Y s -> good X Y (run_act R a s)) as Ha.
  { clear s. intros a s Hs. destruct a as [es type data|es type|es type|p f|x]; simpl.
    - apply each_good; [|done]. intros e s' Hs'. unfold queue_one.
      pose proof (queue_step X Y e type data s' Hs') as Hq. cbv zeta. fold (recorded e type data) (queue e type).
      destruct (queue e type (Some data) (note (recorded e type data) s')) as [q s''] eqn:E. simpl in Hq.
      unfold starts in Hq. destruct (_ && _); [by apply HR|by split].
    - apply each_good; [|done]. intros e s' Hs'. by apply HR, dequeue_step.
    - apply resolve_good. by apply promise_step.
    - unfold add_done. destruct (dones s !! p) as [d|] eqn:E; [|by split].
      pose proof (add_step X Y p f d s Hs E) as Hd. unfold push_done in Hd. destruct (fired d) eqn:Ef, (firing d); simpl in *;
        try by split. by apply HR.
    - split; [apply end_step; [right; eauto|done]|]. apply not_calm. right. eauto. }
  revert s. induction l as [|a l IH]; intros s Hs; simpl; [by split|]. pose proof (Ha a s Hs) as [Hi Ht].
  destruct (run_act R a s) as [[u|x] s']; simpl in *; [by apply IH|by split].
Qed.

End acts.

Lemma run_good code fuel X Y t s : about_to X Y t s -> good X Y (run code fuel t s).
Proof using All.
  revert X Y t s. induction fuel as [|fuel IH]; intros X Y t s Hs; simpl.
  - split; [|by apply not_calm; left]. destruct t as [e type|p]; simpl in *; [by eapply fuel_step|].
    apply (lose_firing X Y p); [by apply end_step; [left|]|]. by apply not_calm; left.
  - destruct t as [e type|p]; simpl in Hs.
    + rewrite dequeue_eq. destruct (shift (queue_at e type s)) as [[[[f|]|] q] n] eqn:E.
      * apply run_acts_good; [exact IH|]. by eapply start_step.
      * by destruct (no_sentinel X Y e type s q n).
      * destruct (shift_none _ _ _ E) as [-> ->]. simpl. apply resolves_good; [exact IH|]. by apply empty_step.
    + unfold fire_done. destruct (callbacks (done_at p s)) as [|f rest] eqn:E.
      * split; [|done]. by apply stop_step.
      * change (note (Called p f) _) with (call_next p f rest s).
        pose proof (run_acts_good (run code fuel) IH X (p :: Y) (code f (log (call_next p f rest s))) (call_next p f rest s)
          (call_step X Y p f rest s Hs E)) as [Hi Ht].
        destruct (run_acts _ _ _) as [[u|x] s']; simpl in *; [by apply IH|]. split; [by eapply lose_firing|done].
Qed.

Lemma run_page_preserves code fuel l s : I [] [] s -> I [] [] (run_page code fuel l s).
Proof using All.
  revert s. induction l as [|a l IH]; intros s Hs; simpl; [done|]. apply IH.
  pose proof (run_acts_good (run code fuel) (run_good code fuel) [] [] [a] s Hs) as [Ha _]. simpl in Ha.
  by destruct (run_act (run code fuel) a s) as [[] s'].
Qed.
End invariant.

Lemma ready_at e type s : ready (Some (e, type)) s ->
  key_ok true (spent s) type (queue_at e type s) (at_key e type (log s)).
Proof. intros Hs. specialize (Hs e type). by rewrite bool_decide_eq_true_2 in Hs. Qed.

Lemma start_ready e type s f q n : ready (Some (e, type)) s -> shift (queue_at e type s) = (Some (QFn f), q, n) ->
  ready None (start e type f q (shifted e type s)).
Proof.
  intros Hs E. pose proof (shift_ok (spent s) e type _ _ (ready_at e type s Hs)) as Hk. rewrite E in Hk.
  apply (ready_moved _ false _ _ _ _ _ _ Hs (start_moved e type f q n s E)); [by right|]. intros _.
  by rewrite (at_key_eq e type) by done.
Qed.

Lemma ready_no_sentinel e type s q n : ready (Some (e, type)) s -> shift (queue_at e type s) = (Some QInProgress, q, n) -> False.
Proof. intros Hs E. pose proof (shift_ok (spent s) e type _ _ (ready_at e type s Hs)) as Hk. by rewrite E in Hk. Qed.

Lemma empty_ready e type s : ready (Some (e, type)) s -> shift (queue_at e type s) = (None, [], 0) ->
  ready None (emptied e type (shifted e type s)).
Proof.
  intros Hs E. pose proof (shift_ok (spent s) e type _ _ (ready_at e type s Hs)) as Hk. rewrite E in Hk. destruct Hk as [_ Hk].
  apply (ready_moved _ false _ _ _ _ _ _ Hs (empty_moved e type 0 s E)); [by right|]. intros _.
  by rewrite (at_key_ne e type [Emptied e type]), app_nil_r by by repeat constructor.
Qed.

Lemma end_ready h s : h = OutOfFuel \/ (exists x, h = Threw x) -> ready None s -> ready None (note h s).
Proof. intros [->|[x ->]] Hs; [by eapply out_of_fuel_ready|by apply silent_ready]. Qed.

Lemma count_down_ready p s : ready None s -> ready None (count_down p s).
Proof. by apply same_ready. Qed.

Lemma resolve_ready p s : ready None s -> if fired (done_at p s) then ready None (note (Resolved p) (count_down p s))
  else ready None (start_firing p (note (Resolved p) (count_down p s))).
Proof.
  intros Hs. assert (ready None (note (Resolved p) (count_down p s))) as Hr by by apply silent_ready, count_down_ready.
  destruct (fired _); [done|]. by eapply same_ready; [..|exact Hr].
Qed.

Lemma push_ready p f d s : ready None s -> ready None (push_done p f d s).
Proof. intros Hs. eapply same_ready; [..|by apply (silent_ready None (Added p f) s)]; done. Qed.

Lemma call_ready p f rest s : ready None s -> ready None (call_next p f rest s).
Proof. intros Hs. apply silent_ready; [done|]. by eapply same_ready; [..|exact Hs]. Qed.

Lemma stop_ready p s : ready None s -> ready None (stop_firing p s).
Proof. by apply same_ready. Qed.

Lemma queue_starts_ready e type data s : ready None s ->
  let r := queue e type (Some data) (note (recorded e type data) s) in
  if starts type r.1 then ready (Some (e, type)) (queueHooks e type r.2) else ready None (queueHooks e type r.2).
Proof. intros Hs. pose proof (queue_ready e type data s Hs) as H. cbv zeta in *. by destruct (starts _ _). Qed.

Lemma ready_start : ready None qstore_start.
Proof. intros e t. exists false, []. split; [done|]. split; [done|]. split; [done|]. intros _. by repeat split. Qed.

(** C17. Queues run in order.  Whatever a page does with its queues, and whatever their
    functions do, also when they throw: as long as a queue is not replaced, the
    functions queued are those started, in that order, followed by those still in the
    queue, so that none is lost, run twice or overtaken.  In a queue fx no function
    starts while another one runs; and while functions wait there, one has been
    started that has not called its [next] and has not been dequeued, so that the
    queue does not stall. *)
Theorem queue_runs_in_order code fuel page e type :
  let s := run_page code fuel page qstore_start in
  let l := at_key e type (log s) in
  let q := queue_at e type s in
  (replaced l = false -> queued l = started l ++ waiting q) /\
  (type = fx -> serial false l = true /\ (OutOfFuel ∉ log s -> waiting q <> [] -> busy l = true)).
Proof.
  intros s l q. assert (ready None s) as Hs.
  { apply (run_page_preserves (fun _ _ => ready None) (fun _ _ e t => ready (Some (e, t))));
      eauto using dequeued_ready, out_of_fuel_ready, end_ready, start_ready, ready_no_sentinel, empty_ready,
        promised_ready, count_down_ready, call_ready, stop_ready, ready_start.
    - intros _ _. apply queue_starts_ready.
    - intros _ _ p s' Hs' _. by apply resolve_ready.
    - intros _ _ p f d s' Hs' _. destruct (_ && _); by apply push_ready. }
  destruct (Hs e type) as (b & fs & Hq & _ & [_ Ho] & Hx).
  fold l in Ho, Hx. fold q in Hq. rewrite Hq, waiting_marked. split; [done|].
  intros Ht. destruct (Hx Ht) as (Hser & _ & Hr). split; [done|]. intros Hf Hw.
  destruct Hr as [Hb Hfs]; [by apply bool_decide_eq_false_2|by apply bool_decide_eq_false_2|]. by apply Hb, Hfs.
Qed.


End JqQueueProofs.
