(* ===== verification/JqQueueEnds.v ===== *)
(** The queues of [JqQueue.v] come to an end: a page whose queued functions do not
    queue anything and add no callbacks themselves is run completely, with fuel for
    twice the functions and callbacks that it gives.  The measure is the number of
    functions in all queues and of callbacks that have not been called. *)

From stdpp Require Import gmap.
From S2P Require Import Prelude JqQueue JqQueueProofs.

Module JqQueueEnds.
Export JqQueueProofs.

Definition size (q : list item) : nat := length (waiting q).
Definition total (s : qstore) : nat := msum size (queues s).
Definition uncalled (l : list done_list) : nat := sum_list ((fun d => length (callbacks d)) <$> l).

(** A store that has not run out of fuel, with at most [n] functions in its queues and
    done lists *)
Definition holds (n : nat) (s : qstore) : Prop := (OutOfFuel ∉ log s) /\ (total s + uncalled (dones s) <= n).

Lemma holds_mono n m s : holds n s -> n <= m -> holds m s.
Proof. intros [Ho Hn] Hm. split; [done|lia]. Qed.

Lemma total_key e type s : total s = size (queue_at e type s) + msum size (delete (e, type) (queues s)).
Proof. unfold total, queue_at. rewrite (msum_delete size _ (e, type)). by destruct (queues s !! (e, type)). Qed.

Lemma total_moved e type q s s' : queues s' = <[(e, type) := q]> (queues s) ->
  total s' + size (queue_at e type s) = size q + total s.
Proof. intros E. rewrite (total_key e type s). unfold total. rewrite E, msum_insert. lia. Qed.

Lemma total_remove e type s : total (remove_queue e type s) <= total s.
Proof. rewrite (total_key e type s). unfold total, remove_queue. simpl. lia. Qed.

Lemma size_app q1 q2 : size (q1 ++ q2) = size q1 + size q2.
Proof. unfold size, waiting. by rewrite omap_app, length_app. Qed.

Lemma size_fns fs : size (QFn <$> fs) = length fs.
Proof. unfold size. change (QFn <$> fs) with (marked false fs). by rewrite waiting_marked. Qed.

Lemma size_shift q :
  match shift q with
  | (Some (QFn _), q', _) => size q = S (size q')
  | (_, q', _) => size q' <= size q
  end.
Proof. unfold shift, size. destruct q as [|[f|] [|[g|] q]]; simpl; lia. Qed.

(** ** The steps *)

Lemma shifted_queues e type s : queues (shifted e type s) =
  match queues s !! (e, type) with Some _ => <[(e, type) := (shift (queue_at e type s)).1.2]> (queues s) | None => queues s end.
Proof. unfold shifted. rewrite queueHooks_queues. by destruct (queues s !! _). Qed.

Lemma shifted_dones e type s : dones (shifted e type s) = dones s.
Proof. unfold shifted, queueHooks. destruct (queues s !! _); by case_match. Qed.

Lemma start_dones e type f q s : dones (start e type f q (shifted e type s)) = dones s.
Proof. rewrite <- (shifted_dones e type s). unfold start. by destruct (bool_decide _). Qed.

Lemma shifted_total e type s : total (shifted e type s) + size (queue_at e type s) <= size (shift (queue_at e type s)).1.2 + total s.
Proof.
  pose proof (shifted_queues e type s) as E. destruct (queues s !! (e, type)) eqn:Eq.
  - pose proof (total_moved _ _ _ _ _ E). lia.
  - unfold total. rewrite E. unfold queue_at. rewrite Eq. change (msum size (queues s) + 0 <= msum size (queues s)). lia.
Qed.

Lemma start_total e type f q n s : shift (queue_at e type s) = (Some (QFn f), q, n) ->
  total (start e type f q (shifted e type s)) < total s.
Proof.
  intros E. pose proof (size_shift (queue_at e type s)) as Hs. pose proof (shifted_total e type s) as Ht. rewrite E in Hs, Ht. simpl in Ht.
  assert (total (start e type f q (shifted e type s)) = total (shifted e type s)) as ->; [|lia].
  unfold start. destruct (bool_decide _); [|done].
  pose proof (total_moved e type (QInProgress :: q) (shifted e type s) (note (Started e type f) (set_queue e type (QInProgress :: q) (shifted e type s))) eq_refl) as Hm.
  rewrite shifted_at, E, decide_True in Hm by (done || right; apply queue_at_present; intros E'; by rewrite E' in E).
  change (size (QInProgress :: q)) with (size q) in Hm. simpl in Hm. lia.
Qed.

Lemma queue_queues e type data s :
  let r := queue e type (Some data) (note (recorded e type data) s) in queues r.2 = <[(e, type) := r.1]> (queues s).
Proof. unfold queue. simpl. destruct data; [|done]. by destruct (queues s !! (e, type)). Qed.

Lemma queue_dones e type data s :
  dones (queueHooks e type (queue e type (Some data) (note (recorded e type data) s)).2) = dones s.
Proof. unfold queueHooks, queue. simpl. destruct data; [destruct (queues s !! (e, type))|]; simpl; by case_match. Qed.

Lemma holds_silent n s s' l : holds n s -> total s' + uncalled (dones s') <= total s + uncalled (dones s) ->
  log s' = log s ++ l -> Forall (fun h => h <> OutOfFuel) l -> holds n s'.
Proof.
  intros [Ho Hn] Ht E Hl. split; [|lia]. rewrite E. intros [?|Hx]%elem_of_app; [done|].
  rewrite Forall_forall in Hl. by destruct (Hl _ Hx).
Qed.

Lemma uncalled_cons d l : uncalled (d :: l) = length (callbacks d) + uncalled l.
Proof. done. Qed.

Lemma uncalled_app l1 l2 : uncalled (l1 ++ l2) = uncalled l1 + uncalled l2.
Proof. induction l1 as [|d l1 IH]; [done|]. simpl app. rewrite !uncalled_cons. lia. Qed.

Lemma uncalled_set p d s : p < length (dones s) ->
  uncalled (dones (set_done p d s)) + length (callbacks (done_at p s)) = uncalled (dones s) + length (callbacks d).
Proof.
  intros Hp. unfold done_at. destruct (lookup_lt_is_Some_2 _ _ Hp) as [d0 Hd]. rewrite Hd. simpl.
  unfold set_done. simpl. clear Hp. revert p Hd. generalize (dones s). induction l as [|d1 l IH]; intros [|p] Hd; simplify_eq/=;
    rewrite !uncalled_cons; [lia|]. specialize (IH p Hd). simpl in IH. lia.
Qed.

Lemma uncalled_none p d s : length (callbacks d) <= length (callbacks (done_at p s)) ->
  uncalled (dones (set_done p d s)) <= uncalled (dones s).
Proof.
  intros Hd. destruct (decide (p < length (dones s))) as [Hp|Hp]; [pose proof (uncalled_set p d s Hp); lia|].
  unfold set_done. simpl. by rewrite list_insert_ge by lia.
Qed.

Lemma holds_same n s s' : holds n s -> log s' = log s -> queues s' = queues s -> uncalled (dones s') <= uncalled (dones s) -> holds n s'.
Proof. intros Hs Hl Hq Hd. eapply (holds_silent n s s' []); [done|unfold total; rewrite Hq; lia|by rewrite app_nil_r|constructor]. Qed.

Lemma holds_note n h s : h <> OutOfFuel -> holds n s -> holds n (note h s).
Proof. intros Hh Hs. eapply (holds_silent n s _ [h]); [done|done|done|by constructor]. Qed.

Lemma holds_emptied n e type s : holds n s -> holds n (emptied e type s).
Proof.
  intros [Ho Hn]. apply holds_note; [done|]. split; [done|]. pose proof (total_remove e type s). simpl. lia.
Qed.

Lemma holds_promised n es type s : holds n s -> holds n (promised es type s).
Proof.
  intros Hs. unfold promised. match goal with |- context [promise_loop ?p ?l ?t ?s'] => destruct (promise_loop_frame p l t s') as (Hq & Hl & Hd) end.
  eapply holds_silent; [exact Hs| |exact Hl|by repeat constructor]. unfold total. rewrite Hq, Hd. simpl.
  rewrite uncalled_app. change (uncalled [done_start]) with 0. lia.
Qed.

(** ** A run *)

(** A function that queues nothing and adds no callback *)
Definition quiet (a : act) : bool := match a with AQueue _ _ _ | ADone _ _ => false | _ => true end.

(** The number of functions and callbacks that a page gives *)
Definition weight (a : act) : nat :=
  match a with
  | AQueue es _ (One _) => length es
  | AQueue es _ (Array fs) => length es * length fs
  | ADone _ _ => 1
  | _ => 0
  end.

Lemma each_holds n f es s : (forall e s, holds n s -> holds n (f e s).2) -> holds n s -> holds n (each f es s).2.
Proof.
  intros Hf. revert s. induction es as [|e es IH]; intros s Hs; simpl; [done|]. specialize (Hf e s Hs).
  destruct (f e s) as [[] s']; simpl in *; [by apply IH|done].
Qed.

Lemma resolve_done_holds n R p s : (forall p s, holds n s -> holds n (R (TDone p) s).2) -> holds n s -> holds n (resolve R p s).2.
Proof.
  intros HR Hs. unfold resolve. destruct (Z.eqb _ _); [|by eapply holds_same].
  assert (holds n (note (Resolved p) (set_count p (count_of p s - 1)%Z s))) as Hn by (apply holds_note; [done|by eapply holds_same]).
  destruct (fired _); [exact Hn|]. apply HR. eapply holds_same; [exact Hn|done|done|]. by apply uncalled_none.
Qed.

(** With fuel that is enough for the tasks, commands end. *)
Section acts.
Variables (n : nat) (R : task -> qstore -> outcome).
Hypothesis HR : forall t s, holds n s -> holds n (R t s).2.

Lemma run_acts_holds l s : forallb quiet l = true -> holds n s -> holds n (run_acts R l s).2.
Proof using HR.
  intros Hl. revert s. induction l as [|a l IH]; intros s Hs; simpl in *; [done|].
  apply andb_true_iff in Hl as [Ha Hl].
  assert (holds n (run_act R a s).2) as Hr.
  { destruct a as [es type data|es type|es type|p f|x]; simpl; [done|..|done|by apply holds_note].
    - apply each_holds; [|done]. intros e s' Hs'. by apply HR, holds_note.
    - apply resolve_done_holds; [|by apply holds_promised]. intros p s'. apply HR. }
  destruct (run_act R a s) as [[] s']; simpl in *; [by apply IH|done].
Qed.

End acts.

Section run.
Variable code : nat -> list happening -> list act.
Hypothesis code_quiet : forall f l, forallb quiet (code f l) = true.

(** What a task needs *)
Definition needs (t : task) (n : nat) : nat := match t with TDequeue _ _ => 2 * n + 1 | TDone _ => 2 * n end.

Lemma run_holds fuel n t s : needs t n < fuel -> holds n s -> holds n (run code fuel t s).2.
Proof using code_quiet.
  revert n t s. induction fuel as [|fuel IH]; intros n t s Hn Hs; [lia|]. destruct t as [e type|p]; simpl in Hn; cbn [run].
  - assert (holds n (shifted e type s)) as Hsh.
    { destruct Hs as [Ho Ht]. split; [by rewrite shifted_log|].
      pose proof (shifted_total e type s). pose proof (size_shift (queue_at e type s)). rewrite shifted_dones.
      destruct (shift _) as [[[[f|]|] q] k]; simpl in *; lia. }
    rewrite dequeue_eq. destruct (shift (queue_at e type s)) as [[[[f|]|] q] k] eqn:E.
    + pose proof (start_total e type f q k s E) as Hlt. destruct Hs as [Ho Ht].
      apply (holds_mono (pred n)); [|lia]. apply run_acts_holds; [|done|].
      * intros [e' t'|p'] s' Hs'; apply IH; simpl; done || lia.
      * split; [|rewrite start_dones; simpl in *; lia]. destruct Hsh as [Ho' _]. unfold start. simpl.
        intros [Hi|?%list_elem_of_singleton]%elem_of_app; [|done]. by destruct (bool_decide _).
    + pose proof (shifted_at e type s e type) as Ha. pose proof (size_shift (queue_at e type s)) as Hz. rewrite E in Ha, Hz. simpl in Ha.
      destruct (bool_decide _); [|done]. destruct Hsh as [Ho Ht]. split; [done|].
      pose proof (total_moved e type (QInProgress :: q) (shifted e type s) (set_queue e type (QInProgress :: q) (shifted e type s)) eq_refl) as Hm.
      rewrite Ha, decide_True in Hm by (done || right; apply queue_at_present; intros E'; by rewrite E' in E).
      change (size (QInProgress :: q)) with (size q) in Hm. simpl in *. lia.
    + destruct (Nat.eqb k 0); [|done]. unfold fire_empty. apply each_holds; [|by apply holds_emptied].
      intros p s' Hs'. apply resolve_done_holds; [|done]. intros p' s'' Hs''. apply IH; simpl; [lia|done].
  - unfold fire_done. destruct (callbacks (done_at p s)) as [|f rest] eqn:E.
    + eapply holds_same; [exact Hs|done|done|]. apply uncalled_none. simpl. lia.
    + change (note (Called p f) _) with (call_next p f rest s).
      assert (p < length (dones s)) as Hp.
      { destruct (decide (p < length (dones s))) as [|Hp]; [done|]. unfold done_at in E. by rewrite lookup_ge_None_2 in E by lia. }
      assert (holds (pred n) (call_next p f rest s) /\ 0 < n) as [Hc Hpos].
      { pose proof (uncalled_set p {| fired := fired (done_at p s); firing := firing (done_at p s); callbacks := rest |} s Hp) as Hu.
        rewrite E in Hu. simpl in Hu. destruct Hs as [Ho Ht]. split; [|lia]. apply holds_note; [done|]. split; [done|]. simpl. unfold total in *. simpl. lia. }
      assert (holds (pred n) (run_acts (run code fuel) (code f (log (call_next p f rest s))) (call_next p f rest s)).2) as Ha.
      { apply run_acts_holds; [|done|done]. intros [e' t'|p'] s' Hs'; apply IH; simpl; done || lia. }
      destruct (run_acts _ _ _) as [[u|x] s']; simpl in *; [|eapply holds_mono; [exact Ha|lia]].
      eapply holds_mono; [apply (IH (pred n)); [simpl; lia|exact Ha]|lia].
Qed.

Lemma dequeue_holds fuel n e type s : 2 * n + 1 < fuel -> holds n s -> holds n (run code fuel (TDequeue e type) s).2.
Proof using code_quiet. apply (run_holds fuel n (TDequeue e type)). Qed.

(** [queue] for the elements of a set: each adds at most [k] functions. *)
Lemma queue_each_holds fuel n k type data es s :
  match data with One _ => 1 | Array fs => length fs end <= k -> 2 * (n + length es * k) + 1 < fuel -> holds n s ->
  holds (n + length es * k) (each (queue_one (run code fuel) type data) es s).2.
Proof using code_quiet.
  intros Hk. revert n s. induction es as [|e es IH]; intros n s Hn Hs; simpl in *; [by rewrite Nat.add_0_r|].
  assert (holds (n + k) (queue_one (run code fuel) type data e s).2) as Hq.
  { destruct (queue_moved e type data s) as [Hr Hm].
    unfold queue_one. cbv zeta. fold (recorded e type data).
    assert (holds (n + k) (queueHooks e type (queue e type (Some data) (note (recorded e type data) s)).2)) as Hh.
    { destruct Hs as [Ho Ht]. split.
      - destruct Hm as [_ -> Ha]. intros [?|?%list_elem_of_singleton]%elem_of_app; [done|]. by destruct data.
      - unfold total. rewrite queueHooks_queues. fold (total (queue e type (Some data) (note (recorded e type data) s)).2).
        assert (size (added data (queue_at e type s)) <= size (queue_at e type s) + k) as Hz.
        { destruct data; simpl; [rewrite size_app; simpl in *; unfold size; simpl; lia|rewrite size_fns; lia]. }
        rewrite <- Hr in Hz.
        rewrite queue_dones. pose proof (total_moved _ _ _ s _ (queue_queues e type data s)). lia. }
    destruct (queue e type (Some data) _) as [q s'] eqn:E. simpl in Hh.
    destruct (_ && _); [apply dequeue_holds; [lia|done]|done]. }
  destruct (queue_one _ _ _ _ _) as [[] s'] eqn:E; simpl in *.
  - eapply holds_mono; [apply (IH (n + k)); [lia|done]|lia].
  - eapply holds_mono; [exact Hq|lia].
Qed.

Lemma run_act_holds fuel n a s : 2 * (n + weight a) + 1 < fuel -> holds n s -> holds (n + weight a) (run_act (run code fuel) a s).2.
Proof using code_quiet.
  intros Hn Hs. destruct a as [es type data|es type|es type|p f|x]; simpl.
  - destruct data as [f|fs]; [rewrite <- (Nat.mul_1_r (length es))|]; (apply queue_each_holds; [done|simpl in *; lia|done]).
  - rewrite Nat.add_0_r. apply each_holds; [|done]. intros e s' Hs'. apply dequeue_holds; [simpl in Hn; lia|by apply holds_note].
  - rewrite Nat.add_0_r. apply resolve_done_holds; [|by apply holds_promised].
    intros p s' Hs'. apply run_holds; [simpl in *; lia|done].
  - unfold add_done. destruct (dones s !! p) as [d|] eqn:E; [|eapply holds_mono; [exact Hs|lia]].
    assert (p < length (dones s)) as Hp by by eapply lookup_lt_Some.
    assert (forall b c, holds (n + 1) (set_done p {| fired := b; firing := c; callbacks := callbacks d ++ [f] |} (note (Added p f) s))) as Hd.
    { intros b c. destruct Hs as [Ho Ht]. split; [simpl; by intros [?|?%list_elem_of_singleton]%elem_of_app|].
      pose proof (uncalled_set p {| fired := b; firing := c; callbacks := callbacks d ++ [f] |} (note (Added p f) s) Hp) as Hu.
      change (done_at p (note (Added p f) s)) with (done_at p s) in Hu. unfold done_at in Hu. rewrite E in Hu. simpl in Hu. rewrite length_app in Hu.
      unfold total in *. simpl in *. lia. }
    destruct (_ && _); [|apply Hd]. apply run_holds; [simpl in *; lia|apply Hd].
  - rewrite Nat.add_0_r. by apply holds_note.
Qed.

(** Queues come to an end.  When the functions of a page only dequeue, make
    promises or throw, but queue nothing and add no callbacks, all commands of the page
    run to their end with fuel for twice the functions and callbacks that the page
    gives: [dequeue], [next] and the firing of promises calling each other never go on
    forever. *)
Theorem queues_terminate fuel page :
  2 * sum_list (weight <$> page) + 1 < fuel -> OutOfFuel ∉ log (run_page code fuel page qstore_start).
Proof using code_quiet.
  intros Hf. enough (forall n s, 2 * (n + sum_list (weight <$> page)) + 1 < fuel -> holds n s ->
    holds (n + sum_list (weight <$> page)) (run_page code fuel page s)) as H.
  { apply (H 0 qstore_start); [done|]. split; [|by vm_compute]. simpl. apply not_elem_of_nil. }
  clear Hf. induction page as [|a page IH]; intros n s Hn Hs; [by rewrite Nat.add_0_r|].
  change (sum_list (weight <$> a :: page)) with (weight a + sum_list (weight <$> page)) in *.
  eapply holds_mono; [apply (IH (n + weight a)); [lia|]|lia]. apply run_act_holds; [lia|done].
Qed.

End run.

(** A page that queues three functions which call their [next]. *)
Definition stepping (f : nat) (l : list happening) : list act := [ADequeue [0] fx].

Lemma queues_terminate_witness :
  let s := run_page stepping 9 [AQueue [0] fx (One 1); AQueue [0; 1] fx (One 2)] qstore_start in
  (OutOfFuel ∉ log s) /\ started (at_key 0 fx (log s)) = [1; 2].
Proof.
  split; [|by vm_compute]. apply (queues_terminate stepping).
  - intros f l. reflexivity.
  - vm_compute. lia.
Defined.

End JqQueueEnds.
