(* ===== verification/JqPromises.v ===== *)
(** The promises of the queues of [JqQueue.v]: [promise()] resolves once, when each
    of the queues that it found has been dequeued with nothing left in it, and then its
    callbacks are called.

    The [count] of a promise is related to the places where it waits, summed over all
    hooks; between the removal of the hooks and the calls of what waited in them, also
    to the calls that are still to come.  After an exception calls may be lost, and the
    count is only an upper bound. *)

From stdpp Require Import gmap.
From S2P Require Import Prelude JqQueue JqQueueProofs.

Module JqPromises.
Export JqQueueProofs.

(** How often a promise is in a list *)
Definition occurs (p : nat) (w : list nat) : nat := length (filter (fun x => x = p) w).
Definition resolutions (p : nat) (l : list happening) : nat := length (filter (fun h => h = Resolved p) l).

Lemma occurs_app p a b : occurs p (a ++ b) = occurs p a + occurs p b.
Proof. unfold occurs. by rewrite filter_app, length_app. Qed.
Lemma occurs_nil p : occurs p [] = 0.
Proof. done. Qed.
Lemma occurs_cons p x w : occurs p (x :: w) = occurs p [x] + occurs p w.
Proof. apply (occurs_app p [x]). Qed.
Lemma occurs_eq p : occurs p [p] = 1.
Proof. unfold occurs. by rewrite filter_cons_True. Qed.
Lemma occurs_ne p x : x <> p -> occurs p [x] = 0.
Proof. intros. unfold occurs. by rewrite filter_cons_False. Qed.
Lemma occurs_pos p w : occurs p w <> 0 <-> p ∈ w.
Proof.
  unfold occurs. rewrite length_zero_iff_nil. split.
  - intros Hne. destruct (filter (fun x => x = p) w) as [|x f] eqn:E; [done|].
    assert (x ∈ filter (fun x => x = p) w) as [-> Hi]%list_elem_of_filter by (rewrite E; left). done.
  - intros Hi E. assert (p ∈ filter (fun x => x = p) w) as H by (by apply list_elem_of_filter). rewrite E in H. by apply elem_of_nil in H.
Qed.
Lemma resolutions_app p a b : resolutions p (a ++ b) = resolutions p a + resolutions p b.
Proof. unfold resolutions. by rewrite filter_app, length_app. Qed.
Lemma resolutions_same p : resolutions p [Resolved p] = 1.
Proof. unfold resolutions. by rewrite filter_cons_True. Qed.
Lemma resolutions_other p h : h <> Resolved p -> resolutions p [h] = 0.
Proof. intros. unfold resolutions. by rewrite filter_cons_False. Qed.

(** Where a promise waits *)
Definition places (p : nat) (s : qstore) : nat := msum (occurs p) (hooks s).

Lemma calm_app l1 l2 : calm (l1 ++ l2) -> calm l1.
Proof. by intros [? _]%Forall_app. Qed.

(** ** Counts *)

(** [X] are the calls of [resolve] that are still to come. *)
Definition counted (X : list nat) (s : qstore) : Prop :=
  length (dones s) = length (counts s) /\
  forall p,
    (p < length (counts s) ->
       (Z.of_nat (places p s + occurs p X) <= count_of p s)%Z /\
       (calm (log s) -> count_of p s = Z.of_nat (places p s + occurs p X)) /\
       resolutions p (log s) = if Z.eqb (count_of p s) 0 then 1 else 0) /\
    (length (counts s) <= p -> places p s + occurs p X = 0 /\ resolutions p (log s) = 0).

Lemma counted_frame X s s' : counted X s -> counts s' = counts s -> length (dones s') = length (dones s) ->
  (forall p, places p s' = places p s) -> (forall p, resolutions p (log s') = resolutions p (log s)) ->
  (calm (log s') -> calm (log s)) -> counted X s'.
Proof.
  intros [Hd Hs] Hc Hl Hp Hr Hm. split; [by rewrite Hl, Hc|]. intros p. unfold count_of. rewrite Hc, Hp, Hr.
  destruct (Hs p) as [H1 H2]. split; [|done]. intros Hlt. destruct (H1 Hlt) as (H3 & H4 & H5). auto.
Qed.

Lemma counted_lose X p s : counted (p :: X) s -> ~ calm (log s) -> counted X s.
Proof.
  intros [Hd Hs] Hn. split; [done|]. intros p'. destruct (Hs p') as [H1 H2]. rewrite occurs_cons in H1, H2. split; intros Hlt.
  - destruct (H1 Hlt) as (H3 & _ & H5). split; [lia|]. by split.
  - destruct (H2 Hlt). split; [lia|done].
Qed.

Lemma counted_there X p s : counted (p :: X) s -> p < length (counts s).
Proof.
  intros [_ Hs]. destruct (decide (p < length (counts s))) as [|Hn]; [done|].
  destruct (Hs p) as [_ H2]. rewrite occurs_cons, occurs_eq in H2. lia.
Qed.

Lemma places_set p e type w s :
  places p (set_hooks e type w s) = occurs p w + msum (occurs p) (delete (e, type) (hooks s)).
Proof. apply msum_insert. Qed.
Lemma places_key p e type s :
  places p s = occurs p (default [] (hooks s !! (e, type))) + msum (occurs p) (delete (e, type) (hooks s)).
Proof. unfold places. rewrite (msum_delete _ _ (e, type)). by destruct (hooks s !! _). Qed.

Lemma count_of_set p p' n s : p < length (counts s) -> count_of p' (set_count p n s) = if decide (p' = p) then n else count_of p' s.
Proof.
  intros Hp. unfold count_of, set_count. simpl. case_decide as E; [subst; by rewrite list_lookup_insert_eq|].
  by rewrite list_lookup_insert_ne.
Qed.

Lemma count_down_places p s p' : places p' (count_down p s) = places p' s.
Proof. done. Qed.

(** A call of [resolve] *)
Lemma count_down_counted X p s : counted (p :: X) s -> (count_of p s - 1 <> 0)%Z -> counted X (count_down p s).
Proof.
  intros Hs Hne. pose proof (counted_there X p s Hs) as Hp. destruct Hs as [Hd Hs].
  assert (length (counts (count_down p s)) = length (counts s)) as Hl by apply length_insert.
  split; [by rewrite Hl|]. intros p'. rewrite Hl, count_down_places. change (log (count_down p s)) with (log s).
  unfold count_down. rewrite count_of_set by done. destruct (Hs p') as [H1 H2]. rewrite occurs_cons in H1, H2.
  case_decide as E; [subst p'|rewrite occurs_ne in * by done; simpl in *; done].
  rewrite occurs_eq in *. split; [|lia]. intros _. destruct (H1 Hp) as (H3 & H4 & H5). split; [lia|]. split; [intros Hm; specialize (H4 Hm); lia|].
  rewrite H5. destruct (Z.eqb_spec (count_of p s) 0), (Z.eqb_spec (count_of p s - 1) 0); lia.
Qed.

Lemma resolved_counted X p s : counted (p :: X) s -> (count_of p s - 1 = 0)%Z ->
  counted X (note (Resolved p) (count_down p s)) /\ resolutions p (log s) = 0.
Proof.
  intros Hs He. pose proof (counted_there X p s Hs) as Hp. destruct Hs as [Hd Hs].
  assert (resolutions p (log s) = 0) as Hr0.
  { destruct (Hs p) as [H1 _]. destruct (H1 Hp) as (_ & _ & ->). destruct (Z.eqb_spec (count_of p s) 0); lia. }
  split; [|done]. assert (length (counts (note (Resolved p) (count_down p s))) = length (counts s)) as Hl by apply length_insert.
  split; [by rewrite Hl|]. intros p'. rewrite Hl. change (places p' (note (Resolved p) (count_down p s))) with (places p' s).
  change (count_of p' (note (Resolved p) (count_down p s))) with (count_of p' (count_down p s)).
  change (log (note (Resolved p) (count_down p s))) with (log s ++ [Resolved p]). rewrite resolutions_app.
  unfold count_down. rewrite count_of_set by done. destruct (Hs p') as [H1 H2]. rewrite occurs_cons in H1, H2.
  case_decide as E.
  - subst p'. rewrite occurs_eq in *. rewrite resolutions_same, Hr0, He. split; [|lia]. intros _. destruct (H1 Hp) as (H3 & H4 & H5).
    split; [lia|]. split; [intros Hm%calm_app; specialize (H4 Hm); lia|done].
  - rewrite occurs_ne in * by done. rewrite resolutions_other, Nat.add_0_r by congruence. simpl in *. split; [|done].
    intros Hlt. destruct (H1 Hlt) as (H3 & H4 & H5). split; [done|]. split; [by intros ?%calm_app; apply H4|done].
Qed.

(** The promises that waited for a queue hear of it. *)
Lemma emptied_counted X e type s : counted X s -> counted (default [] (hooks s !! (e, type)) ++ X) (emptied e type s).
Proof.
  intros [Hd Hs]. set (w := default [] (hooks s !! (e, type))). split; [done|]. intros p. destruct (Hs p) as [H1 H2].
  rewrite (places_key p e type) in H1, H2. fold w in H1, H2. rewrite occurs_app.
  change (places p (emptied e type s)) with (msum (occurs p) (delete (e, type) (hooks s))).
  change (count_of p (emptied e type s)) with (count_of p s). change (counts (emptied e type s)) with (counts s).
  change (log (emptied e type s)) with (log s ++ [Emptied e type]).
  rewrite resolutions_app, (resolutions_other p (Emptied e type)), Nat.add_0_r by done. split; intros Hlt.
  - destruct (H1 Hlt) as (H3 & H4 & H5). split; [lia|]. split; [intros Hm%calm_app; specialize (H4 Hm); lia|done].
  - destruct (H2 Hlt). split; [lia|done].
Qed.

(** *** Promises *)

Definition found (type : jstr) (es : list nat) (s : qstore) : list (nat * jstr) :=
  filter (fun k => hooks s !! k <> None) ((fun e => (e, type)) <$> es).

Definition count_key (k : nat * jstr) (ks : list (nat * jstr)) : nat := length (filter (fun k' => k' = k) ks).

(** What the loop of [promise] changes *)
Record joined (p : nat) (type : jstr) (es : list nat) (s s' : qstore) : Prop := {
  joined_log : log s' = log s;
  joined_length : length (counts s') = length (counts s);
  joined_dones : dones s' = dones s;
  joined_counted : forall X, p ∈ X -> counted X s -> counted X s';
  joined_places : forall p', places p' s' = places p' s + if decide (p' = p) then length (found type es s) else 0;
  joined_occurs : forall p' k, occurs p' (default [] (hooks s' !! k)) =
    occurs p' (default [] (hooks s !! k)) + if decide (p' = p) then count_key k (found type es s) else 0;
  joined_present : forall k, hooks s !! k <> None -> hooks s' !! k <> None;
}.

Lemma join_one p e type w s : p < length (counts s) -> hooks s !! (e, type) = Some w ->
  joined p type [e] s (set_hooks e type (w ++ [p]) (set_count p (count_of p s + 1)%Z s)).
Proof.
  intros Hp E. set (s' := set_hooks _ _ _ _).
  assert (found type [e] s = [(e, type)]) as Hf by (unfold found; simpl; rewrite filter_cons_True; [done|by rewrite E]).
  assert (forall p', places p' s' = places p' s + if decide (p' = p) then 1 else 0) as Hpl.
  { intros p'. unfold s'. rewrite places_set, (places_key p' e type s), E, occurs_app. simpl.
    case_decide; [subst; rewrite occurs_eq|rewrite occurs_ne by done]; lia. }
  assert (length (counts s') = length (counts s)) as Hlen by apply length_insert.
  split; [done|done|done| | | |].
  - intros X HX%occurs_pos [Hd Hs]. split; [by rewrite Hlen|]. intros p'. destruct (Hs p') as [H1 H2]. rewrite Hpl, Hlen. change (log s') with (log s).
    change (count_of p' s') with (count_of p' (set_count p (count_of p s + 1)%Z s)). rewrite count_of_set by done. case_decide as Ep.
    + subst p'. split; [|lia]. intros Hlt. destruct (H1 Hlt) as (H3 & H4 & H5). split; [lia|].
      split; [intros Hm; specialize (H4 Hm); lia|]. rewrite H5. destruct (Z.eqb_spec (count_of p s) 0), (Z.eqb_spec (count_of p s + 1) 0); lia.
    + rewrite Nat.add_0_r. done.
  - intros p'. by rewrite Hpl, Hf.
  - intros p' k. rewrite Hf. unfold count_key, s', set_hooks. simpl. destruct (decide (k = (e, type))) as [->|Hk].
    + rewrite lookup_insert_eq, E, filter_cons_True by done. simpl. rewrite occurs_app.
      case_decide; [subst; by rewrite occurs_eq|by rewrite occurs_ne].
    + rewrite lookup_insert_ne, filter_cons_False by congruence. simpl. case_decide; lia.
  - intros k Hk. unfold s', set_hooks. simpl. destruct (decide (k = (e, type))) as [->|]; [by rewrite lookup_insert_eq|by rewrite lookup_insert_ne].
Qed.

Lemma promise_loop_joined p es type s : p < length (counts s) -> joined p type es s (promise_loop p es type s).
Proof.
  revert s. induction es as [|e es IH]; intros s Hp; simpl.
  - split; try done; intros; unfold count_key; simpl; case_decide; simpl; lia.
  - destruct (hooks s !! (e, type)) as [w|] eqn:E.
    + pose proof (join_one p e type w s Hp E) as [Hl Hc Hdo Hco Hpl Ho Hpr]. set (s' := set_hooks _ _ _ _) in *.
      destruct (IH s') as [Hl' Hc' Hdo' Hco' Hpl' Ho' Hpr']; [by rewrite Hc|].
      assert (found type es s' = found type es s) as Hf.
      { unfold found. apply list_filter_iff. intros k. unfold s', set_hooks. simpl. destruct (decide (k = (e, type))) as [->|].
        - by rewrite lookup_insert_eq, E.
        - by rewrite lookup_insert_ne. }
      assert (found type (e :: es) s = found type [e] s ++ found type es s) as Hf' by (apply (filter_app _ [(e, type)])).
      split; [by rewrite Hl'|by rewrite Hc'|by rewrite Hdo'|by auto|..].
      * intros p'. rewrite Hpl', Hpl, Hf, Hf', length_app. case_decide; lia.
      * intros p' k. rewrite Ho', Ho, Hf, Hf'. unfold count_key. rewrite filter_app, length_app. case_decide; lia.
      * intros k Hk. by apply Hpr', Hpr.
    + assert (found type (e :: es) s = found type es s) as Hf by (unfold found; csimpl; by rewrite filter_cons_False by (rewrite E; by intros [])).
      destruct (IH s Hp). by split; rewrite ?Hf.
Qed.

(** ** The queues that a promise waits for *)

Definition step (p : nat) (ks : list (nat * jstr)) (h : happening) : list (nat * jstr) :=
  match h with
  | Promised p' ks' => if decide (p' = p) then ks' else ks
  | Emptied e type => filter (fun k => k <> (e, type)) ks
  | _ => ks
  end.

(** The queues that a promise found and that have not been empty since *)
Definition pending (p : nat) (l : list happening) : list (nat * jstr) := foldl (step p) [] l.

Lemma pending_app p l1 l2 : pending p (l1 ++ l2) = foldl (step p) (pending p l1) l2.
Proof. apply foldl_app. Qed.

(** The hooks hold a promise as often as it waits for their queue. *)
Definition tracked (s : qstore) : Prop :=
  forall p, places p s = length (pending p (log s)) /\
    forall k, occurs p (default [] (hooks s !! k)) = count_key k (pending p (log s)).

(** Hooks belong to every queue that is not empty. *)
Definition hooked (s : qstore) : Prop := forall e type, queue_at e type s <> [] -> hooks s !! (e, type) <> None.

(** ** The callbacks of promises *)

Definition added (p : nat) (l : list happening) : list nat :=
  omap (fun h => match h with Added q f => if decide (q = p) then Some f else None | _ => None end) l.
Definition called (p : nat) (l : list happening) : list nat :=
  omap (fun h => match h with Called q f => if decide (q = p) then Some f else None | _ => None end) l.

Lemma added_app p l1 l2 : added p (l1 ++ l2) = added p l1 ++ added p l2.
Proof. apply omap_app. Qed.
Lemma called_app p l1 l2 : called p (l1 ++ l2) = called p l1 ++ called p l2.
Proof. apply omap_app. Qed.

(** The done list of a promise: [Y] are the lists that are being fired. *)
Record listed (Y : list nat) (p : nat) (s : qstore) : Prop := {
  listed_fired : fired (done_at p s) = negb (Nat.eqb (resolutions p (log s)) 0);
  listed_order : added p (log s) = called p (log s) ++ callbacks (done_at p s);
  listed_before : fired (done_at p s) = false -> firing (done_at p s) = false /\ called p (log s) = [];
  listed_after : fired (done_at p s) = true -> firing (done_at p s) = false -> callbacks (done_at p s) = [];
  listed_during : firing (done_at p s) = true -> p ∈ Y \/ ~ calm (log s);
}.

Definition answered (Y : list nat) (s : qstore) : Prop :=
  Forall (fun p => fired (done_at p s) = true) Y /\ forall p, listed Y p s.

Lemma done_at_set p d s p' : p < length (dones s) -> done_at p' (set_done p d s) = if decide (p' = p) then d else done_at p' s.
Proof.
  intros Hp. unfold done_at, set_done. simpl. case_decide as E; [subst; by rewrite list_lookup_insert_eq|].
  by rewrite list_lookup_insert_ne.
Qed.

Lemma fired_there p s : fired (done_at p s) = true -> p < length (dones s).
Proof.
  intros Hf. destruct (decide (p < length (dones s))) as [|Hn]; [done|].
  unfold done_at in Hf. rewrite lookup_ge_None_2 in Hf by lia. done.
Qed.

(** What is not about promises *)
Definition unrelated (h : happening) : Prop :=
  match h with Promised _ _ | Emptied _ _ | Resolved _ | Added _ _ | Called _ _ => False | _ => True end.

(** What is not about the callbacks of promises *)
Definition distant (h : happening) : Prop := match h with Resolved _ | Added _ _ | Called _ _ => False | _ => True end.

Lemma unrelated_distant h : unrelated h -> distant h.
Proof. by destruct h. Qed.

Lemma distant_record p l : Forall distant l -> resolutions p l = 0 /\ added p l = [] /\ called p l = [].
Proof.
  induction 1 as [|h l Hh _ (H1 & H2 & H3)]; [done|]. change (h :: l) with ([h] ++ l).
  rewrite resolutions_app, added_app, called_app, H1, H2, H3. by destruct h.
Qed.

Lemma answered_distant Y s s' l : answered Y s -> log s' = log s ++ l -> Forall distant l ->
  (forall p, done_at p s' = done_at p s) -> answered Y s'.
Proof.
  intros [Hf Hs] Hl Hd Hp. split; [eapply Forall_impl; [exact Hf|]; intros p; cbv beta; by rewrite Hp|]. intros p.
  destruct (Hs p) as [H1 H2 H3 H4 H5], (distant_record p l Hd) as (R1 & R2 & R3).
  split; rewrite ?Hp, ?Hl, ?resolutions_app, ?added_app, ?called_app, ?R1, ?R2, ?R3, ?app_nil_r, ?Nat.add_0_r; try done.
  intros [?|Hn]%H5; [by left|]. right. intros ?%calm_app. by apply Hn.
Qed.

(** What is about the callbacks of one promise *)
Definition about (p : nat) (h : happening) : Prop :=
  match h with Resolved q | Added q _ | Called q _ => q = p | _ => True end.

Lemma about_other p p' l : p' <> p -> Forall (about p) l -> resolutions p' l = 0 /\ added p' l = [] /\ called p' l = [].
Proof.
  intros Hne. induction 1 as [|h l Hh _ (H1 & H2 & H3)]; [done|]. change (h :: l) with ([h] ++ l).
  rewrite resolutions_app, added_app, called_app, H1, H2, H3. destruct h as [| | | | | |q|q f|q f| |]; try done; simpl in Hh; subst q.
  - split; [|done]. rewrite resolutions_other by congruence. done.
  - split; [done|]. split; [|done]. unfold added. cbn. by rewrite decide_False.
  - split; [done|]. split; [done|]. unfold called. cbn. by rewrite decide_False.
Qed.

(** A step that is about the done list of a promise *)
Lemma answered_step Y Y' p l s s1 d : answered Y s -> p < length (dones s) ->
  dones s1 = dones s -> log s1 = log s ++ l -> Forall (about p) l ->
  (forall p', p' <> p -> p' ∈ Y -> p' ∈ Y') -> (forall p', p' ∈ Y' -> p' = p \/ p' ∈ Y) ->
  fired d = true \/ Y' = Y /\ fired d = fired (done_at p s) ->
  listed Y' p (set_done p d s1) -> answered Y' (set_done p d s1).
Proof.
  intros [Hf Hs] Hp Ed El Hh HY HY' Hd Hn.
  assert (forall p', done_at p' (set_done p d s1) = if decide (p' = p) then d else done_at p' s) as Ho.
  { intros p'. rewrite done_at_set by (by rewrite Ed). unfold done_at. by rewrite Ed. }
  split.
  - apply Forall_forall. intros p' Hp'. rewrite Ho. rewrite Forall_forall in Hf. case_decide as E.
    + subst p'. destruct Hd as [|[-> Hd]]; [done|]. rewrite Hd. by apply Hf.
    + destruct (HY' _ Hp'); [done|by apply Hf].
  - intros p'. destruct (decide (p' = p)) as [->|Hne]; [done|]. destruct (Hs p') as [H1 H2 H3 H4 H5].
    destruct (about_other p p' l Hne Hh) as (R1 & R2 & R3).
    split; rewrite ?Ho, ?decide_False by done; change (log (set_done p d s1)) with (log s1); rewrite ?El;
      rewrite ?resolutions_app, ?added_app, ?called_app, ?R1, ?R2, ?R3, ?app_nil_r, ?Nat.add_0_r; try done.
    intros [?|Hn']%H5; [left; by apply HY|]. right. intros ?%calm_app. by apply Hn'.
Qed.

Lemma answered_frame Y s s' : answered Y s -> dones s' = dones s -> log s' = log s -> answered Y s'.
Proof.
  intros Hs Hd Hl. eapply (answered_distant Y s s' []); [done|by rewrite app_nil_r|done|]. intros p. unfold done_at. by rewrite Hd.
Qed.

Lemma fire_answered Y p s : answered Y s -> p < length (dones s) -> fired (done_at p s) = false ->
  answered (p :: Y) (start_firing p (note (Resolved p) (count_down p s))).
Proof.
  intros Hs Hp Hf. eapply (answered_step Y (p :: Y) p [Resolved p] s); [done|done|done|done|by repeat constructor| | |by left|].
  - intros p' _ ?. by right.
  - intros p' [->|?]%elem_of_cons; [by left|by right].
  - destruct Hs as [_ Hs]. destruct (Hs p) as [H1 H2 H3 _ _]. rewrite Hf in H1. destruct (H3 Hf) as [_ Hc].
    unfold start_firing. split; rewrite ?done_at_set, ?decide_True by done;
      change (log (set_done p _ _)) with (log s ++ [Resolved p]);
      rewrite ?resolutions_app, ?resolutions_same, ?added_app, ?called_app; cbn [fired firing callbacks]; try done.
    + by rewrite Nat.add_comm.
    + change (added p [Resolved p]) with (@nil nat). change (called p [Resolved p]) with (@nil nat).
      by rewrite !app_nil_r.
    + intros _. left. left.
Qed.

Lemma push_answered Y p f d s : answered Y s -> dones s !! p = Some d ->
  answered (if fired d && negb (firing d) then p :: Y else Y) (push_done p f d s).
Proof.
  intros Hs Hd. assert (done_at p s = d) as Ed by (unfold done_at; by rewrite Hd).
  assert (p < length (dones s)) as Hp by by eapply lookup_lt_Some.
  pose proof Hs as [_ Hl]. destruct (Hl p) as [H1 H2 H3 H4 H5]. rewrite Ed in *.
  eapply (answered_step Y _ p [Added p f] s); [done|done|done|done|by repeat constructor|..].
  - intros p' _ ?. destruct (_ && _); [by right|done].
  - intros p'. destruct (_ && _); [intros [->|?]%elem_of_cons; [by left|by right]|by right].
  - cbn [fired]. rewrite Ed. destruct (fired d), (firing d); simpl; auto.
  - unfold push_done. split; rewrite ?done_at_set, ?decide_True by done;
      change (log (set_done p _ _)) with (log s ++ [Added p f]);
      rewrite ?resolutions_app, ?(resolutions_other p (Added p f)), ?Nat.add_0_r, ?added_app, ?called_app by done; cbn [fired firing callbacks].
    + rewrite <- H1. by destruct (fired d), (firing d).
    + change (called p [Added p f]) with (@nil nat). unfold added at 2. cbn. rewrite decide_True by done. by rewrite H2, app_nil_r, app_assoc.
    + destruct (fired d); [done|]. intros _. destruct (H3 eq_refl) as [-> ->]. by split.
    + destruct (fired d) eqn:Ef, (firing d); simpl; try done.
    + destruct (fired d) eqn:Ef, (firing d) eqn:Eg; simpl; try done; try (intros _; left; left);
        intros _; destruct (H5 eq_refl) as [?|Hn]; auto; right; intros ?%calm_app; by apply Hn.
Qed.

Lemma call_answered Y p f rest s : answered (p :: Y) s -> callbacks (done_at p s) = f :: rest ->
  answered (p :: Y) (call_next p f rest s).
Proof.
  intros Hs Ec. pose proof Hs as [Hf Hl]. apply Forall_cons in Hf as [Hf _]. pose proof (fired_there p s Hf) as Hp.
  destruct (Hl p) as [H1 H2 H3 H4 H5].
  change (call_next p f rest s) with
    (set_done p {| fired := fired (done_at p s); firing := firing (done_at p s); callbacks := rest |} (note (Called p f) s)).
  eapply (answered_step (p :: Y) _ p [Called p f] s); [done|done|done|done|by repeat constructor|done|auto|by left|].
  split; rewrite ?done_at_set, ?decide_True by done;
    change (log (set_done p _ _)) with (log s ++ [Called p f]);
    rewrite ?resolutions_app, ?(resolutions_other p (Called p f)), ?Nat.add_0_r, ?added_app, ?called_app by done; cbn [fired firing callbacks].
  - done.
  - change (added p [Called p f]) with (@nil nat). unfold called at 2. cbn. rewrite decide_True by done.
    by rewrite app_nil_r, H2, Ec, <- app_assoc.
  - by rewrite Hf.
  - intros _ Hg. by rewrite (H4 Hf Hg) in Ec.
  - intros _. left. left.
Qed.

Lemma stop_answered Y p s : answered (p :: Y) s -> callbacks (done_at p s) = [] -> answered Y (stop_firing p s).
Proof.
  intros Hs Ec. pose proof Hs as [Hf Hl]. apply Forall_cons in Hf as [Hf _]. pose proof (fired_there p s Hf) as Hp.
  destruct (Hl p) as [H1 H2 H3 H4 H5]. unfold stop_firing.
  eapply (answered_step (p :: Y) Y p [] s); [done|done|done|by rewrite app_nil_r|done| | |by left|].
  - intros p' Hne [|?]%elem_of_cons; done.
  - intros p' ?. by right; right.
  - split; rewrite ?done_at_set, ?decide_True by done; cbn [fired firing callbacks log set_done set_dones]; try done.
    + by rewrite <- Ec.
    + by rewrite Hf.
Qed.

Lemma answered_lose Y p s : answered (p :: Y) s -> ~ calm (log s) -> answered Y s.
Proof.
  intros [Hf Hs] Hn. split; [by apply Forall_cons in Hf as [_ ?]|]. intros p'. destruct (Hs p') as [H1 H2 H3 H4 H5].
  split; auto.
Qed.

(** ** What the places say *)

Lemma count_key_split k ks : length ks = count_key k ks + length (filter (fun k' => k' <> k) ks).
Proof.
  unfold count_key. induction ks as [|k' ks IH]; [done|]. destruct (decide (k' = k)).
  - rewrite filter_cons_True, filter_cons_False by naive_solver. simpl. lia.
  - rewrite filter_cons_False, filter_cons_True by done. simpl. lia.
Qed.

Lemma count_key_self k ks : count_key k (filter (fun x => x <> k) ks) = 0.
Proof.
  induction ks as [|x ks IH]; [done|]. destruct (decide (x = k)); [by rewrite filter_cons_False by naive_solver|].
  rewrite filter_cons_True by done. unfold count_key in *. by rewrite filter_cons_False.
Qed.

Lemma count_key_ne k k' ks : k <> k' -> count_key k (filter (fun x => x <> k') ks) = count_key k ks.
Proof.
  intros Hne. unfold count_key. rewrite list_filter_filter_l; [done|]. by intros x ->.
Qed.

Lemma tracked_frame s s' l : tracked s -> hooks s' = hooks s -> log s' = log s ++ l ->
  Forall (fun h => match h with Promised _ _ | Emptied _ _ => False | _ => True end) l -> tracked s'.
Proof.
  intros Hs Hh Hl Hn p. assert (pending p (log s') = pending p (log s)) as ->.
  { rewrite Hl, pending_app. generalize (pending p (log s)) as ks. clear Hl.
    induction Hn as [|h l Hh' _ IH]; intros ks; simpl; [done|]. rewrite IH. by destruct h. }
  unfold places. rewrite Hh. apply Hs.
Qed.

Lemma emptied_tracked e type s : tracked s -> tracked (emptied e type s).
Proof.
  intros Hs p. destruct (Hs p) as [Hp Hk]. simpl. rewrite pending_app. simpl. split.
  - unfold places. simpl. pose proof (places_key p e type s) as E. rewrite (Hk (e, type)) in E.
    pose proof (count_key_split (e, type) (pending p (log s))). lia.
  - intros k. destruct (decide (k = (e, type))) as [->|Hne].
    + by rewrite lookup_delete_eq, count_key_self.
    + by rewrite lookup_delete_ne, Hk, count_key_ne.
Qed.

(** ** Emptiness *)

(** When a queue is emptied, nothing is left in it. *)
Definition truly_emptied (l : list happening) : Prop :=
  forall l1 l2 e type, l = l1 ++ Emptied e type :: l2 -> left_over (at_key e type l1) = [].

Lemma truly_emptied_snoc l h : truly_emptied l ->
  (forall e type, h = Emptied e type -> left_over (at_key e type l) = []) -> truly_emptied (l ++ [h]).
Proof.
  intros Hl Hh l1 l2 e type E. destruct l2 as [|h' l2 _] using rev_ind.
  - apply app_inj_tail in E as [-> ->]. by apply Hh.
  - change (l1 ++ Emptied e type :: l2 ++ [h']) with (l1 ++ (Emptied e type :: l2) ++ [h']) in E.
    rewrite app_assoc in E. apply app_inj_tail in E as [E _]. by eapply Hl.
Qed.

Lemma truly_emptied_app l l' : truly_emptied l ->
  Forall (fun h => match h with Emptied _ _ => False | _ => True end) l' -> truly_emptied (l ++ l').
Proof.
  intros Hl. revert l Hl. induction l' as [|h l' IH]; intros l Hl Hn; [by rewrite app_nil_r|].
  apply Forall_cons in Hn as [Hh Hn]. change (l ++ h :: l') with (l ++ [h] ++ l'). rewrite app_assoc. apply IH; [|done].
  apply truly_emptied_snoc; [done|]. intros e type ->. done.
Qed.

(** ** The invariant *)

Record settled (X Y : list nat) (s : qstore) : Prop := {
  settled_counted : counted X s;
  settled_tracked : tracked s;
  settled_hooked : hooked s;
  settled_answered : answered Y s;
  settled_emptied : truly_emptied (log s);
}.

(** A step that leaves promises alone *)
Record aside (s s' : qstore) : Prop := {
  aside_hooks : forall k, default [] (hooks s' !! k) = default [] (hooks s !! k);
  aside_places : forall p, places p s' = places p s;
  aside_present : forall k, hooks s !! k <> None -> hooks s' !! k <> None;
  aside_counts : counts s' = counts s;
  aside_dones : dones s' = dones s;
  aside_log : exists l, log s' = log s ++ l /\ Forall unrelated l;
}.

Lemma aside_settled X Y s s' : settled X Y s -> aside s s' -> hooked s' -> settled X Y s'.
Proof.
  intros [Hc Ht _ Ha He] [Hh Hp _ Hn Hd (l & Hl & Hu)] Hk.
  assert (Forall distant l) as Hdi by (eapply Forall_impl; [exact Hu|apply unrelated_distant]). split; [..|done| |].
  - apply (counted_frame X s); [done|done|by rewrite Hd|done| |rewrite Hl; apply calm_app].
    intros p. rewrite Hl, resolutions_app. destruct (distant_record p l Hdi) as [-> _]. lia.
  - intros p. assert (pending p (log s') = pending p (log s)) as ->.
    { rewrite Hl, pending_app. generalize (pending p (log s)) as ks. clear -Hu.
      induction Hu as [|h l Hh' _ IH]; intros ks; simpl; [done|]. rewrite IH. by destruct h. }
    rewrite Hp. split; [apply Ht|]. intros k. rewrite Hh. apply Ht.
  - apply (answered_distant Y s s' l); [done..|]. intros p. unfold done_at. by rewrite Hd.
  - rewrite Hl. apply truly_emptied_app; [done|]. eapply Forall_impl; [exact Hu|]. by intros [].
Qed.

Lemma aside_trans s1 s2 s3 : aside s1 s2 -> aside s2 s3 -> aside s1 s3.
Proof.
  intros [H1 H2 H3 H4 H5 (l & Hl & Hu)] [H1' H2' H3' H4' H5' (l' & Hl' & Hu')]. split.
  - intros k. by rewrite H1'. - intros p. by rewrite H2'. - auto. - by rewrite H4'. - by rewrite H5'.
  - exists (l ++ l'). rewrite Hl', Hl, app_assoc. split; [done|]. by apply Forall_app.
Qed.

(** [aside] when hooks, counts and lists are the same *)
Lemma aside_eq s s' l : hooks s' = hooks s -> counts s' = counts s -> dones s' = dones s -> log s' = log s ++ l ->
  Forall unrelated l -> aside s s'.
Proof.
  intros Hh Hc Hd Hl Hu. split; [by rewrite Hh|unfold places; by rewrite Hh|by rewrite Hh|done|done|by exists l].
Qed.

Lemma queueHooks_aside e type s : aside s (queueHooks e type s) /\ hooks (queueHooks e type s) !! (e, type) <> None.
Proof.
  unfold queueHooks. destruct (hooks s !! (e, type)) eqn:E.
  - split; [|by rewrite E]. apply (aside_eq _ _ []); [done..|by rewrite app_nil_r|done].
  - unfold set_hooks. simpl. split; [|by rewrite lookup_insert_eq]. split; simpl.
    + intros k. destruct (decide (k = (e, type))) as [->|]; [by rewrite lookup_insert_eq, E|by rewrite lookup_insert_ne].
    + intros p. unfold places. simpl. rewrite msum_insert. symmetry. rewrite (msum_delete _ _ (e, type)), E. done.
    + intros k. destruct (decide (k = (e, type))) as [->|]; [by rewrite lookup_insert_eq|by rewrite lookup_insert_ne].
    + done.
    + done.
    + exists []. by rewrite app_nil_r.
Qed.

Lemma hooked_moved e type q l s s' : hooked s -> moved e type q l s s' ->
  (forall k, k <> (e, type) -> hooks s !! k <> None -> hooks s' !! k <> None) ->
  (q = [] \/ hooks s' !! (e, type) <> None) -> hooked s'.
Proof.
  intros Hs [Hq _ _] Hk Hn e' t' Hne. rewrite Hq in Hne. case_decide as E; [by destruct Hn as [->|]; simplify_eq|].
  by apply Hk, Hs.
Qed.

Lemma moved_settled X Y e type q l s s' : settled X Y s -> moved e type q l s s' -> aside s s' ->
  hooks s' !! (e, type) <> None -> settled X Y s'.
Proof.
  intros Hs Hm Ha Hn. apply (aside_settled X Y s); [done..|].
  eapply hooked_moved; [apply (settled_hooked _ _ _ Hs)|exact Hm| |by right]. intros k _. apply Ha.
Qed.

(** *** The steps *)

Lemma note_settled X Y h s : unrelated h -> settled X Y s -> settled X Y (note h s).
Proof.
  intros Hh Hs. apply (aside_settled X Y s); [done| |apply Hs].
  apply (aside_eq _ _ [h]); try done. by repeat constructor.
Qed.

Lemma queue_settled X Y e type data s : settled X Y s ->
  settled X Y (queueHooks e type (queue e type (Some data) (note (recorded e type data) s)).2).
Proof.
  intros Hs. set (s' := (queue e type (Some data) (note (recorded e type data) s)).2).
  destruct (queueHooks_aside e type s') as [Ha Hn]. eapply moved_settled; [exact Hs|apply queue_moved| |exact Hn].
  eapply aside_trans; [|exact Ha]. apply (aside_eq _ _ [recorded e type data]); [..|by destruct data; repeat constructor];
    unfold s', queue; simpl; destruct data; try done; by destruct (queues s !! (e, type)).
Qed.

Lemma shifted_aside e type s : aside s (shifted e type s) /\ hooks (shifted e type s) !! (e, type) <> None.
Proof.
  unfold shifted. match goal with |- context [queueHooks e type ?x] => set (s' := x) end.
  destruct (queueHooks_aside e type s') as [Ha Hn]. split; [|done]. eapply aside_trans; [|exact Ha].
  apply (aside_eq _ _ []); [..|done]; unfold s'; destruct (queues s !! (e, type)); try done; by rewrite app_nil_r.
Qed.

Lemma start_settled X Y e type s f q n : settled X Y s -> shift (queue_at e type s) = (Some (QFn f), q, n) ->
  settled X Y (start e type f q (shifted e type s)).
Proof.
  intros Hs E. destruct (shifted_aside e type s) as [Ha Hn].
  eapply moved_settled; [exact Hs|by eapply start_moved| |].
  - eapply aside_trans; [exact Ha|]. apply (aside_eq _ _ [Started e type f]); [..|by repeat constructor];
      unfold start; by destruct (bool_decide (type = fx)).
  - unfold start. by destruct (bool_decide (type = fx)).
Qed.

(** Nothing is left in a queue that is about to be emptied. *)
Lemma ready_empty e type s : ready (Some (e, type)) s -> shift (queue_at e type s) = (None, [], 0) ->
  left_over (at_key e type (log s)) = [].
Proof.
  intros (b & fs & Hq & _ & [Hl _] & _)%ready_at E. rewrite Hl. rewrite Hq, shift_marked in E.
  by destruct fs.
Qed.

Lemma shifted_empty_settled X Y e type s : settled X Y s -> shift (queue_at e type s) = (None, [], 0) ->
  settled X Y (shifted e type s).
Proof.
  intros Hs E. destruct (shifted_aside e type s) as [Ha Hn]. apply (aside_settled X Y s); [done..|].
  intros e' t' Hne. rewrite shifted_at, E in Hne by (left; by rewrite E).
  destruct (decide _) as [[= -> ->]|]; [done|]. by apply Ha, Hs.
Qed.

Lemma empty_settled X Y e type s : settled X Y s -> ready (Some (e, type)) s -> shift (queue_at e type s) = (None, [], 0) ->
  settled (default [] (hooks (shifted e type s) !! (e, type)) ++ X) Y (emptied e type (shifted e type s)).
Proof.
  intros Hs Hr E. pose proof (shifted_empty_settled X Y e type s Hs E) as [Hc Ht Hh Ha He].
  split; [by apply emptied_counted|by apply emptied_tracked| | |].
  - eapply hooked_moved; [exact Hh|apply emptied_moved| |by left].
    intros k Hk Hs'. simpl. by rewrite lookup_delete_ne by congruence.
  - apply (answered_distant Y (shifted e type s) _ [Emptied e type]); [done|done|by repeat constructor|done].
  - change (log (emptied e type (shifted e type s))) with (log (shifted e type s) ++ [Emptied e type]).
    apply truly_emptied_snoc; [done|]. intros e' t' [= <- <-]. rewrite shifted_log. by apply ready_empty.
Qed.

Lemma new_counted X s h : counted X s -> (forall p, resolutions p [h] = 0) ->
  counted (length (counts s) :: X) (note h (set_dones (dones s ++ [done_start]) (set_counts (counts s ++ [1%Z]) s))).
Proof.
  intros [Hd Hs] Hh. split; [simpl; rewrite !length_app; simpl; lia|]. intros p'. set (p := length (counts s)). set (s' := note _ _).
  change (places p' s') with (places p' s). change (log s') with (log s ++ [h]). rewrite resolutions_app, Hh, Nat.add_0_r.
  change (counts s') with (counts s ++ [1%Z]). rewrite length_app. simpl. fold p. rewrite occurs_cons.
  destruct (Hs p') as [Hl Hr]. unfold count_of in *. change (counts s') with (counts s ++ [1%Z]). destruct (decide (p' = p)) as [->|Hne].
  - rewrite occurs_eq, list_lookup_middle by done. simpl. destruct (Hr (le_n _)) as [H1 H2].
    split; [|lia]. intros _. split; [lia|]. split; [lia|done].
  - rewrite occurs_ne by done. split.
    + intros Hlt. rewrite lookup_app_l by (unfold p in *; lia). destruct (Hl ltac:(unfold p in *; lia)) as (H1 & H2 & H3).
      split; [lia|]. split; [|done]. intros Hm%calm_app. specialize (H2 Hm). lia.
    + intros Hle. destruct (Hr ltac:(unfold p in *; lia)) as [H1 H2]. split; [lia|done].
Qed.

Lemma promised_settled X Y es type s : settled X Y s -> settled (length (counts s) :: X) Y (promised es type s).
Proof.
  intros [Hc Ht Hh Ha He]. unfold promised. set (p := length (counts s)). cbv zeta. fold (found type (rev es) s).
  set (s1 := note _ _). assert (counted (p :: X) s1) as H1 by (by apply new_counted).
  assert (p < length (counts s1)) as Hp by (unfold s1; simpl; rewrite length_app; simpl; unfold p; lia).
  destruct (promise_loop_joined p (rev es) type s1 Hp) as [Hl Hlen Hdo Hco Hpl Ho Hpr]. change (found type (rev es) s1) with (found type (rev es) s) in *.
  split.
  - apply Hco; [left|done].
  - intros p'. rewrite Hpl, Hl. change (log s1) with (log s ++ [Promised p (found type (rev es) s)]).
    rewrite pending_app. simpl. destruct (Ht p') as [H2 H3]. change (places p' s1) with (places p' s).
    destruct (decide (p' = p)) as [->|Hne].
    + rewrite (decide_True (P := p = p)) by done. destruct Hc as [_ Hc]. destruct (Hc p) as [_ H4]. destruct (H4 (le_n _)) as [H4' _].
      assert (pending p (log s) = []) as E by (apply nil_length_inv; lia). split; [lia|].
      intros k. rewrite Ho, decide_True by done. change (hooks s1) with (hooks s). rewrite H3, E. done.
    + rewrite (decide_False (P := p = p')) by congruence. split; [lia|]. intros k. rewrite Ho, decide_False by done.
      change (hooks s1) with (hooks s). rewrite H3. lia.
  - intros e t Hne. apply Hpr, Hh. unfold queue_at in *. by rewrite (proj1 (promise_loop_frame _ _ _ _)) in Hne.
  - apply (answered_distant Y s _ [Promised p (found type (rev es) s)]); [done|by rewrite Hl|by repeat constructor|].
    intros p'. unfold done_at. rewrite Hdo. unfold s1. simpl. destruct (decide (p' < length (dones s))).
    + by rewrite lookup_app_l.
    + rewrite (lookup_ge_None_2 (dones s)) by lia. destruct ((dones s ++ [done_start]) !! p') eqn:E; [|done].
      apply lookup_app_Some in E as [E|[_ [_ <-]%list_lookup_singleton_Some]]; [apply lookup_lt_Some in E; lia|done].
  - rewrite Hl. by apply truly_emptied_snoc.
Qed.

Lemma count_down_settled X Y p s : settled (p :: X) Y s -> (count_of p s - 1 <> 0)%Z -> settled X Y (count_down p s).
Proof.
  intros [Hc Ht Hh Ha He] Hn. split; [by apply count_down_counted|done|done|by eapply answered_frame|done].
Qed.

Lemma resolve_settled X Y p s : settled (p :: X) Y s -> (count_of p s - 1 = 0)%Z ->
  if fired (done_at p s) then settled X Y (note (Resolved p) (count_down p s))
  else settled X (p :: Y) (start_firing p (note (Resolved p) (count_down p s))).
Proof.
  intros [Hc Ht Hh Ha He] Hn. destruct (resolved_counted X p s Hc Hn) as [Hc' Hr]. pose proof Ha as [_ Hl].
  assert (fired (done_at p s) = false) as Hf by (rewrite (listed_fired _ _ _ (Hl p)), Hr; done). rewrite Hf. split.
  - eapply counted_frame; [exact Hc'|done|apply length_insert|done|done|done].
  - eapply (tracked_frame s _ [Resolved p]); [done..|]. by repeat constructor.
  - done.
  - apply fire_answered; [done| |done]. destruct Hc as [Hd Hc0]. rewrite Hd. by eapply (counted_there X p s).
  - apply truly_emptied_snoc; done.
Qed.

Lemma push_settled X Y p f d s : settled X Y s -> dones s !! p = Some d ->
  if fired d && negb (firing d) then settled X (p :: Y) (push_done p f d s) else settled X Y (push_done p f d s).
Proof.
  intros [Hc Ht Hh Ha He] Hd. pose proof (push_answered Y p f d s Ha Hd) as Ha'.
  enough (settled X (if fired d && negb (firing d) then p :: Y else Y) (push_done p f d s)) as H by by destruct (_ && _).
  split; [| |done|done|by apply truly_emptied_snoc].
  - eapply counted_frame; [exact Hc|done|apply length_insert|done| |apply calm_app].
    intros p'. simpl. by rewrite resolutions_app, (resolutions_other p' (Added p f)), Nat.add_0_r.
  - eapply (tracked_frame s _ [Added p f]); [done..|]. by repeat constructor.
Qed.

Lemma call_settled X Y p f rest s : settled X (p :: Y) s -> callbacks (done_at p s) = f :: rest ->
  settled X (p :: Y) (call_next p f rest s).
Proof.
  intros [Hc Ht Hh Ha He] Ec. split; [| |done|by apply call_answered|by apply truly_emptied_snoc].
  - eapply counted_frame; [exact Hc|done|apply length_insert|done| |apply calm_app].
    intros p'. simpl. by rewrite resolutions_app, (resolutions_other p' (Called p f)), Nat.add_0_r.
  - eapply (tracked_frame s _ [Called p f]); [done..|]. by repeat constructor.
Qed.

Lemma stop_settled X Y p s : settled X (p :: Y) s -> callbacks (done_at p s) = [] -> settled X Y (stop_firing p s).
Proof.
  intros [Hc Ht Hh Ha He] Ec. split; [|done|done|by apply stop_answered|done].
  eapply counted_frame; [exact Hc|done|apply length_insert|done..].
Qed.

Lemma lose_settled X Y p s : settled (p :: X) Y s -> ~ calm (log s) -> settled X Y s.
Proof. intros [Hc Ht Hh Ha He] Hn. split; try done. by eapply counted_lose. Qed.

Lemma lose_firing_settled X Y p s : settled X (p :: Y) s -> ~ calm (log s) -> settled X Y s.
Proof. intros [Hc Ht Hh Ha He] Hn. split; try done. by eapply answered_lose. Qed.

Lemma settled_start : settled [] [] qstore_start.
Proof.
  assert (forall p, places p qstore_start = 0) as E by (intros p; apply (map_fold_empty (M := gmap (nat * jstr)))).
  split.
  - split; [done|]. intros p. rewrite E. split; [simpl; lia|done].
  - intros p; rewrite E; split; [done|intros k; simpl; by rewrite lookup_empty].
  - intros e t Hne; by destruct Hne.
  - split; [constructor|]. intros p. split; try done.
  - intros l1 l2 e t Hl. by destruct l1.
Qed.

(** ** The record of a run only grows *)

Definition extends (l : list happening) (s : qstore) : Prop := ready None s /\ l `prefix_of` log s.

Lemma extends_by l l' s s' : l `prefix_of` log s -> log s' = log s ++ l' -> l `prefix_of` log s'.
Proof. intros Hp ->. by apply prefix_app_r. Qed.

Lemma resolves_extend code fuel w s : ready None s ->
  log s `prefix_of` log (each (resolve (run code fuel)) w s).2.
Proof.
  intros Hs. set (I := fun _ _ : list nat => extends (log s)).
  set (P := fun (_ _ : list nat) e t s' => ready (Some (e, t)) s' /\ log s `prefix_of` log s').
  assert (forall X Y t s', about_to I P X Y t s' -> good I X Y (run code fuel t s')) as Hrun.
  { apply run_good; unfold I, P, extends.
    - intros _ _ e t data s' [Hr Hp]. pose proof (queue_starts_ready e t data s' Hr) as Hq.
      destruct (queue_moved e t data s') as [_ Hm]. cbv zeta in *.
      pose proof (extends_by _ _ _ _ Hp (moved_log _ _ _ _ _ _ Hm)). by destruct (starts _ _).
    - intros _ _ e t s' [Hr Hp]. split; [by apply dequeued_ready|by eapply extends_by].
    - intros _ _ e t s' [Hr Hp]. split; [by eapply out_of_fuel_ready|by eapply extends_by].
    - intros _ _ h s' Hh [Hr Hp]. split; [by apply end_ready|by eapply extends_by].
    - intros _ _ e t s' f q n [Hr Hp] E. split; [by eapply start_ready|].
      eapply extends_by; [exact Hp|]. apply (start_moved _ _ _ _ _ _ E).
    - intros _ _ e t s' q n [Hr _] E. by eapply ready_no_sentinel.
    - intros _ _ e t s' [Hr Hp] E. split; [by apply empty_ready|].
      eapply extends_by; [exact Hp|]. apply (empty_moved _ _ _ _ E).
    - intros _ _ es t s' [Hr Hp]. split; [by apply promised_ready|]. unfold promised.
      match goal with |- context [promise_loop ?p ?l ?t ?s'] => destruct (promise_loop_frame p l t s') as (_ & -> & _) end.
      by eapply extends_by.
    - intros _ _ p s' [Hr Hp] _. by split; [apply count_down_ready|].
    - intros _ _ p s' [Hr Hp] _. pose proof (resolve_ready p s' Hr).
      destruct (fired _); (split; [done|]; by eapply (extends_by _ [Resolved p])).
    - intros _ _ p f d s' [Hr Hp] _. pose proof (push_ready p f d s' Hr).
      destruct (_ && _); (split; [done|]; by eapply (extends_by _ [Added p f])).
    - intros _ _ p f rest s' [Hr Hp] _. split; [by apply call_ready|by eapply (extends_by _ [Called p f])].
    - intros _ _ p s' [Hr Hp] _. by split; [apply stop_ready|].
    - done.
    - done. }
  enough (good I [] [] (each (resolve (run code fuel)) w s)) as [[_ Hx] _] by exact Hx.
  apply (resolves_good I P); unfold I, extends; [..|done|exact Hrun|by split].
  - intros _ _ p s' [Hr Hp] _. by split; [apply count_down_ready|].
  - intros _ _ p s' [Hr Hp] _. pose proof (resolve_ready p s' Hr).
    destruct (fired _); (split; [done|]; by eapply (extends_by _ [Resolved p])).
Qed.

(** A queue in which nothing is left is emptied as soon as it is dequeued. *)
Lemma dequeue_empties code fuel e type s : ready None s -> waiting (queue_at e type s) = [] -> 0 < fuel ->
  log s ++ [Dequeued e type; Emptied e type] `prefix_of` log (run_act (run code fuel) (ADequeue [e] type) s).2.
Proof.
  intros Hs Hw Hf. destruct fuel as [|fuel]; [lia|]. cbn [run_act each run]. set (s1 := note (Dequeued e type) s).
  assert (ready (Some (e, type)) s1) as Hr by by apply dequeued_ready.
  assert (shift (queue_at e type s1) = (None, [], 0)) as E.
  { destruct (Hs e type) as (b & fs & Hq & _). change (queue_at e type s1) with (queue_at e type s).
    rewrite Hq, waiting_marked in *. by rewrite Hw, shift_marked. }
  rewrite dequeue_eq, E. simpl Nat.eqb. cbv iota. unfold fire_empty.
  pose proof (resolves_extend code fuel (default [] (hooks (shifted e type s1) !! (e, type))) _ (empty_ready e type s1 Hr E)) as Hx.
  fold (emptied e type (shifted e type s1)). destruct (each _ _ _) as [[u|x] s2]; simpl in *;
    (etrans; [|exact Hx]); rewrite shifted_log; unfold s1; simpl; by rewrite <- app_assoc.
Qed.

Lemma run_page_snoc code fuel page a s :
  run_page code fuel (page ++ [a]) s = (run_act (run code fuel) a (run_page code fuel page s)).2.
Proof. revert s. induction page as [|a' page IH]; intros s; simpl; [done|apply IH]. Qed.

(** C18. A promise of queues resolves once, when each of the queues that it waits for
    has been dequeued with nothing left in it.  It waits for the queues that had hooks
    when it was made, among them every queue that is not empty.  Whatever a page does
    with its queues and promises, and whatever queued functions and done callbacks do:

    - a queue counts as emptied only when all its functions have been started or
      cleared away, and it is emptied as soon as it is dequeued in this state (to
      clear a queue other than fx is not enough);
    - a promise resolves at most once, and only after all its queues were emptied; if no
      function of the page has thrown, it has resolved when they were;
    - its callbacks are called in the order in which they were added, each at most
      once, and none before it resolves; if nothing has thrown, all have been called
      when it has resolved. *)
Theorem promise_resolves_once code fuel page :
  let s := run_page code fuel page qstore_start in
  let l := log s in
  (forall e type, waiting (queue_at e type s) = left_over (at_key e type l) /\
     (queue_at e type s <> [] -> hooks s !! (e, type) <> None) /\
     (waiting (queue_at e type s) = [] -> 0 < fuel ->
        l ++ [Dequeued e type; Emptied e type] `prefix_of` log (run_page code fuel (page ++ [ADequeue [e] type]) qstore_start))) /\
  (forall l1 l2 e type, l = l1 ++ Emptied e type :: l2 -> left_over (at_key e type l1) = []) /\
  (forall p, resolutions p l <= 1 /\
     (resolutions p l = 1 -> p < length (counts s) /\ pending p l = []) /\
     (calm l -> p < length (counts s) -> pending p l = [] -> resolutions p l = 1) /\
     (exists later, added p l = called p l ++ later /\
        (resolutions p l = 0 -> called p l = []) /\
        (calm l -> resolutions p l = 1 -> later = []))).
Proof.
  assert (ready None qstore_start /\ settled [] [] qstore_start) as Hstart by (split; [apply ready_start|apply settled_start]).
  apply (run_page_preserves (fun X Y s => ready None s /\ settled X Y s) (fun X Y e t s => ready (Some (e, t)) s /\ settled X Y s))
    with (code := code) (fuel := fuel) (l := page) in Hstart.
  - intros s l. fold s in Hstart. destruct Hstart as [Hr [[_ Hc] Ht Hh [_ Ha] He]]. split; [|split; [exact He|]].
    + intros e type. destruct (Hr e type) as (b & fs & Hq & _ & [Hl _] & _). split; [by rewrite Hq, waiting_marked|].
      split; [apply Hh|]. intros Hw Hf. rewrite run_page_snoc. fold s. by apply dequeue_empties.
    + intros p. destruct (Hc p) as [H1 H2], (Ht p) as [H3 _]. fold l in H1, H2, H3. rewrite occurs_nil, Nat.add_0_r in *.
      assert (resolutions p l <= 1) as Hle.
      { destruct (decide (p < length (counts s))) as [Hp|Hp]; [destruct (H1 Hp) as (_ & _ & ->); by destruct (Z.eqb _ _); lia|].
        destruct (H2 ltac:(lia)) as [_ ->]. lia. }
      split; [done|]. split; [|split].
      * intros E. destruct (decide (p < length (counts s))) as [Hp|Hp]; [|destruct (H2 ltac:(lia)); lia].
        split; [done|]. destruct (H1 Hp) as (H4 & _ & H5). destruct (Z.eqb_spec (count_of p s) 0); [|lia].
        apply nil_length_inv. lia.
      * intros Hm Hp E. destruct (H1 Hp) as (_ & H4 & ->). rewrite H4, H3, E by done. done.
      * destruct (Ha p) as [A1 A2 A3 A4 A5]. fold l in A1, A2, A3, A5. exists (callbacks (done_at p s)). split; [done|]. split.
        -- intros E. rewrite E in A1. by apply A3.
        -- intros Hm E. rewrite E in A1. apply A4; [done|]. destruct (firing _); [|done].
           destruct (A5 eq_refl) as [Hin|Hn]; [by apply elem_of_nil in Hin|by destruct Hn].
  - intros X Y e t data s [Hr Hs]. pose proof (queue_starts_ready e t data s Hr) as Hq. pose proof (queue_settled X Y e t data s Hs).
    cbv zeta in *. by destruct (starts _ _).
  - intros X Y e t s [Hr Hs]. split; [by apply dequeued_ready|by apply note_settled].
  - intros X Y e t s [Hr Hs]. split; [by eapply out_of_fuel_ready|by apply note_settled].
  - intros X Y h s Hh [Hr Hs]. split; [by apply end_ready|]. apply note_settled; [|done]. by destruct Hh as [->|[x ->]].
  - intros X Y e t s f q n [Hr Hs] E. split; [by eapply start_ready|by eapply start_settled].
  - intros X Y e t s q n [Hr _] E. by eapply ready_no_sentinel.
  - intros X Y e t s [Hr Hs] E. split; [by apply empty_ready|by apply empty_settled].
  - intros X Y es t s [Hr Hs]. split; [by apply promised_ready|by apply promised_settled].
  - intros X Y p s [Hr Hs] E. split; [by apply count_down_ready|by apply count_down_settled].
  - intros X Y p s [Hr Hs] E. pose proof (resolve_ready p s Hr). pose proof (resolve_settled X Y p s Hs E). by destruct (fired _).
  - intros X Y p f d s [Hr Hs] E. pose proof (push_ready p f d s Hr). pose proof (push_settled X Y p f d s Hs E). by destruct (_ && _).
  - intros X Y p f rest s [Hr Hs] E. split; [by apply call_ready|by apply call_settled].
  - intros X Y p s [Hr Hs] E. split; [by apply stop_ready|by apply stop_settled].
  - intros X Y p s [Hr Hs] Hn. split; [done|by eapply lose_settled].
  - intros X Y p s [Hr Hs] Hn. split; [done|by eapply lose_firing_settled].
Qed.

(** ** Examples *)

(** A promise waits for both elements; the function of the second one never calls its
    [next], until the page dequeues it. *)
Definition one_steps (f : nat) (l : list happening) : list act := if Nat.eqb f 1 then [ADequeue [0] fx] else [].

Example promise_waits :
  let page := [AQueue [0; 1] fx (One 2); APromise [0; 1] fx; ADone 0 3; ADequeue [0] fx] in
  log (run_page one_steps 9 page qstore_start) =
    [Queued 0 fx 2; Started 0 fx 2; Queued 1 fx 2; Started 1 fx 2; Promised 0 [(1, fx); (0, fx)]; Added 0 3;
     Dequeued 0 fx; Emptied 0 fx] /\
  log (run_page one_steps 9 (page ++ [ADequeue [1] fx; ADone 0 4]) qstore_start) =
    log (run_page one_steps 9 page qstore_start) ++ [Dequeued 1 fx; Emptied 1 fx; Resolved 0; Called 0 3; Added 0 4; Called 0 4].
Proof. vm_compute. by split. Qed.

(** [clearQueue(type)] empties the array of a queue other than fx, but nobody hears of
    it: the promise waits on, until the page dequeues the empty queue. *)
Lemma cleared_queue_keeps_promise :
  let page := [AQueue [0] (js "x") (One 1); APromise [0] (js "x"); ADone 0 2; clearQueue [0] (js "x")] in
  let s := run_page (fun _ _ => []) 9 page qstore_start in
  queue_at 0 (js "x") s = [] /\ resolutions 0 (log s) = 0 /\
  resolutions 0 (log (run_page (fun _ _ => []) 9 (page ++ [ADequeue [0] (js "x")]) qstore_start)) = 1.
Proof. by vm_compute. Qed.

(** A done callback that throws keeps the promises behind its own from hearing that
    the queue is empty: they are never resolved. *)
Lemma throwing_done_callback_loses_promises :
  log (run_page (fun f _ => if Nat.eqb f 2 then [AThrow (UserError 0)] else []) 9
    [AQueue [0] (js "x") (One 1); APromise [0] (js "x"); APromise [0] (js "x"); ADone 0 2; ADequeue [0] (js "x"); ADequeue [0] (js "x");
     ADequeue [0] (js "x")] qstore_start) =
    [Queued 0 (js "x") 1; Promised 0 [(0, js "x")]; Promised 1 [(0, js "x")]; Added 0 2; Dequeued 0 (js "x"); Started 0 (js "x") 1;
     Dequeued 0 (js "x"); Emptied 0 (js "x"); Resolved 0; Called 0 2; Threw (UserError 0); Dequeued 0 (js "x"); Emptied 0 (js "x")].
Proof. by vm_compute. Qed.

(** [clearQueue()] takes the sentinel away with the functions: the queue counts as
    empty, the promise resolves and the next function starts, all while the first one
    still runs, although the sentinel is there to keep the queue from being dequeued
    meanwhile. *)
Lemma clearQueue_overlaps :
  log (run_page (fun _ _ => []) 9
    [AQueue [0] fx (One 1); APromise [0] fx; clearQueue [0] fx; AQueue [0] fx (One 2)] qstore_start) =
    [Queued 0 fx 1; Started 0 fx 1; Promised 0 [(0, fx)]; Replaced 0 fx []; Emptied 0 fx; Resolved 0; Queued 0 fx 2; Started 0 fx 2].
Proof. by vm_compute. Qed.

End JqPromises.
