(* ===== verification/JqTransports.v ===== *)
(** Prefilters and transports of ajax requests in [jquery.js]: their registration,
    [addToPrefiltersOrTransports], and [inspectPrefiltersOrTransports], with its
    theorem.

    The functions that are registered are those of the page, by number: they get the
    request and may do anything to the state [S], which holds the types of the data
    in question. *)

From S2P Require Import Prelude Regex JqCallbacks.

Module JqTransports.

(** [prefilters] or [transports]: functions by type *)
Abbreviation structure := (list (jstr * list nat))%type.

(** * Registration *)

(** [structure[dataType] || []]; what objects inherit is not an array. *)
Definition functions (st : structure) (dataType : jstr) : option (list nat) :=
  match obj_get st dataType with POwn l => Some l | PUndefined => Some [] | _ => None end.

(** The loop over the types of the expression *)
Fixpoint add_types (dataTypes : list jstr) (func : nat) (st : structure) : res unit * structure :=
  match dataTypes with
  | [] => (Ok tt, st)
  | dataType :: rest =>
      let '(prepend, dataType) :=
        match dataType with
        | c :: t => if decide (c = chr "+") then (true, match t with [] => js "*" | _ => t end) else (false, dataType)
        | [] => (false, dataType)
        end in
      match functions st dataType with
      | Some l => add_types rest func (assoc_set dataType (if prepend then func :: l else l ++ [func]) st)
      | None => (Throw TypeError, st)
      end
  end.

(** [None] for the expression when it is left out *)
Definition addToPrefiltersOrTransports `{Unicode} (dataTypeExpression : option jstr) (func : nat) (st : structure)
  : res unit * structure :=
  add_types (JqCallbacks.not_white (toLowerCase (default (js "*") dataTypeExpression))) func st.

(** * Inspection *)

(** What a function answers: a type, a transport, something else that is true, or
    nothing. *)
Inductive answer := AString (t : jstr) | ATransport | ATrue | AFalse | AUndefined.

#[global] Instance answer_eq_dec : EqDecision answer.
Proof. solve_decision. Defined.

Definition truthy_answer (a : answer) : bool :=
  match a with AString [] | AFalse | AUndefined => false | _ => true end.

Section inspection.
Context {S : Type}.
Variable run : nat -> S -> res answer * S.         (** [prefilterOrFactory(options, originalOptions, jqXHR)] *)
Variable unshift : jstr -> S -> S.                 (** [options.dataTypes.unshift(type)] *)
Variable st : structure.
Variable seekingTransport : bool.

(** What was selected, the types inspected, the state *)
Abbreviation result := (res (option answer) * list jstr * S)%type.

(** [inspected[dataType]] *)
Definition was_inspected (t : jstr) (inspected : list jstr) : bool :=
  bool_decide (t ∈ inspected) || bool_decide (t ∈ object_proto_methods) || bool_decide (t = js "__proto__").

(** [jQuery.each(structure[dataType] || [], ...)], given [inspect] *)
Fixpoint inspect_each (inspect : jstr -> list jstr -> S -> option result) (fs : list nat) (inspected : list jstr) (s : S)
  : option result :=
  match fs with
  | [] => Some (Ok None, inspected, s)
  | f :: fs' =>
      match run f s with
      | (Throw e, s) => Some (Throw e, inspected, s)
      | (Ok a, s) =>
          if seekingTransport then
            if truthy_answer a then Some (Ok (Some a), inspected, s) else inspect_each inspect fs' inspected s
          else
            match a with
            | AString t =>
                if was_inspected t inspected then inspect_each inspect fs' inspected s
                else
                  match inspect t inspected (unshift t s) with
                  | Some (Ok _, inspected, s) => Some (Ok None, inspected, s)
                  | x => x
                  end
            | _ => inspect_each inspect fs' inspected s
            end
      end
  end.

Fixpoint inspect (fuel : nat) (dataType : jstr) (inspected : list jstr) (s : S) : option result :=
  match fuel with
  | O => None
  | Datatypes.S fuel' =>
      inspect_each (inspect fuel') (default [] (functions st dataType)) (dataType :: inspected) s
  end.

(** [first] is [options.dataTypes[0]]. *)
Definition inspectPrefiltersOrTransports (fuel : nat) (first : option jstr) (s : S) : option (res (option answer) * S) :=
  match inspect fuel (default (js "undefined") first) [] s with
  | Some (Ok None, inspected, s) =>
      if was_inspected (js "*") inspected then Some (Ok None, s)
      else match inspect fuel (js "*") inspected s with Some (r, _, s) => Some (r, s) | None => None end
  | Some (r, _, s) => Some (r, s)
  | None => None
  end.

End inspection.

(** * An inspection ends *)

(** The entries whose types have not been inspected, and their functions *)
Definition left_over (st : structure) (inspected : list jstr) : structure := base.filter (fun p => p.1 ∉ inspected) st.
Definition avail (st : structure) (inspected : list jstr) : list nat := concat (left_over st inspected).*2.

Lemma left_over_outside st t inspected : t ∉ st.*1 -> left_over st (t :: inspected) = left_over st inspected.
Proof.
  unfold left_over. induction st as [|[k l] st IH]; [done|]. intros [Hk Hn]%not_elem_of_cons. simpl in Hk. specialize (IH Hn).
  destruct (decide (k ∈ inspected)).
  - rewrite !filter_cons_False; simpl; [done| |]; intros H; apply H; [done|by right].
  - rewrite !filter_cons_True; simpl; [by rewrite IH|done|]. by intros [->|?]%elem_of_cons.
Qed.

(** Inspecting a type takes its functions away from those available. *)
Lemma avail_split st t inspected : NoDup st.*1 -> t ∉ inspected ->
  avail st inspected ≡ₚ default [] (functions st t) ++ avail st (t :: inspected) /\
  (default [] (functions st t) = [] \/ length (left_over st (t :: inspected)) < length (left_over st inspected)).
Proof.
  intros Hd Ht. induction st as [|[k l] st IH].
  - unfold functions, obj_get. simpl. by repeat case_decide; (split; [done|left]).
  - apply NoDup_cons in Hd as [Hk Hd]. destruct (IH Hd) as [Hp Hl]. unfold avail, left_over in *. destruct (decide (k = t)) as [->|Hne].
    + rewrite (filter_cons_True _ (t, l)), (filter_cons_False (fun p => p.1 ∉ t :: inspected)) by (simpl; set_solver).
      fold (left_over st inspected) (left_over st (t :: inspected)). rewrite left_over_outside by done.
      unfold functions, obj_get. simpl. rewrite decide_True by done. simpl. split; [done|right; lia].
    + assert (functions ((k, l) :: st) t = functions st t) as -> by (unfold functions, obj_get; simpl; by rewrite decide_False).
      destruct (decide (k ∈ inspected)).
      * by rewrite !filter_cons_False by (simpl; set_solver).
      * rewrite !filter_cons_True by (simpl; set_solver). simpl. split; [|destruct Hl; [by left|right; lia]].
        rewrite Hp. solve_Permutation.
Qed.


Section ends.
Context {S : Type}.
Variable run : nat -> S -> res answer * S.
Variable unshift : jstr -> S -> S.
Variable st : structure.
Variable seekingTransport : bool.
Variable calls : S -> list nat.

Hypothesis run_calls : forall f s, calls (run f s).2 = calls s ++ [f].
Hypothesis unshift_calls : forall t s, calls (unshift t s) = calls s.
Hypothesis distinct : NoDup st.*1.

(** An inspection from [s], with [fs] still to ask: it ends, calls functions of [fs]
    and available ones, and with an open end it has asked all of [fs]. *)
Definition ends (fs : list nat) (inspected : list jstr) (s : S) (r : option (res (option answer) * list jstr * S)) : Prop :=
  exists out inspected' s' l, r = Some (out, inspected', s') /\ calls s' = calls s ++ l /\
    inspected ⊆ inspected' /\ l ++ avail st inspected' ⊆+ fs ++ avail st inspected /\
    (seekingTransport = true -> inspected' = inspected /\ (out = Ok None -> l = fs)).

Lemma was_inspected_false t inspected : was_inspected t inspected = false -> t ∉ inspected.
Proof. unfold was_inspected. intros [[H _]%orb_false_iff _]%orb_false_iff. by apply bool_decide_eq_false_1 in H. Qed.

Lemma ends_here fs inspected s f l (out : res (option answer)) : calls s = l ++ [f] ->
  (seekingTransport = true -> out = Ok None -> fs = []) ->
  exists (out' : res (option answer)) inspected' s' l', Some (out, inspected, s) = Some (out', inspected', s') /\ calls s' = l ++ l' /\
    inspected ⊆ inspected' /\ l' ++ avail st inspected' ⊆+ (f :: fs) ++ avail st inspected /\
    (seekingTransport = true -> inspected' = inspected /\ (out' = Ok None -> l' = f :: fs)).
Proof.
  intros Hc Ho. exists out, inspected, s, [f]. split; [done|]. split; [done|]. split; [done|]. split.
  - simpl. constructor. apply submseteq_inserts_l. done.
  - intros Hs. split; [done|]. intros Hn. by rewrite (Ho Hs Hn).
Qed.

Lemma inspect_each_ends inspect fs inspected s :
  (forall t insp s, t ∉ insp -> length (left_over st insp) <= length (left_over st inspected) ->
     seekingTransport = false -> ends [] insp s (inspect t insp s)) ->
  ends fs inspected s (inspect_each run unshift seekingTransport inspect fs inspected s).
Proof using run_calls unshift_calls.
  intros IH. revert s. induction fs as [|f fs IHfs]; intros s; simpl.
  - exists (Ok None), inspected, s, []. by rewrite app_nil_r.
  - pose proof (run_calls f s) as Hc. destruct (run f s) as [[a|e] s1]; simpl in Hc; [|by apply (ends_here fs)].
    assert (ends fs inspected s1 (inspect_each run unshift seekingTransport inspect fs inspected s1) ->
      ends (f :: fs) inspected s (inspect_each run unshift seekingTransport inspect fs inspected s1)) as Hnext.
    { intros (out & insp' & s' & l & E & Hl & Hi & Hm & Hs). exists out, insp', s', (f :: l). split; [done|].
      rewrite Hl, Hc, <- app_assoc. split; [done|]. split; [done|]. split; [by constructor|].
      intros Hk. destruct (Hs Hk) as [-> Ho]. split; [done|]. intros Hn. by rewrite Ho. }
    destruct seekingTransport eqn:Hseek.
    + destruct (truthy_answer a); [by apply (ends_here fs)|by apply Hnext].
    + destruct a as [t| | | |]; try by apply Hnext.
      destruct (was_inspected t inspected) eqn:Hw; [by apply Hnext|].
      destruct (IH t inspected (unshift t s1)) as (out & insp' & s' & l & E & Hl & Hi & Hm & _);
        [by apply was_inspected_false|done|done|].
      rewrite E. assert (calls s' = calls s ++ f :: l) as Hl' by (rewrite Hl, unshift_calls, Hc, <- app_assoc; done).
      assert (f :: l ++ avail st insp' ⊆+ (f :: fs) ++ avail st inspected) as Hm'.
      { constructor. etrans; [exact Hm|]. by apply submseteq_inserts_l. }
      destruct out; [exists (Ok None)|exists (Throw e)]; (exists insp', s', (f :: l); do 2 (split; [done|]); do 2 (split; [done|]); by rewrite Hseek).
Qed.

Lemma inspect_ends fuel t inspected s : t ∉ inspected -> length (left_over st inspected) < fuel ->
  ends (default [] (functions st t)) (t :: inspected) s (inspect run unshift st seekingTransport fuel t inspected s).
Proof using All.
  revert t inspected s. induction fuel as [|fuel IH]; intros t inspected s Ht Hf; [lia|]. simpl.
  destruct (avail_split st t inspected distinct Ht) as [Hp [->|Hl]].
  - exists (Ok None), (t :: inspected), s, []. by rewrite app_nil_r.
  - apply inspect_each_ends. intros t' insp' s' Ht' Hl' Hk.
    destruct (IH t' insp' s' Ht') as (out & i & s2 & l & E & Hc & Hi & Hm & _); [lia|].
    destruct (avail_split st t' insp' distinct Ht') as [Hp' _].
    exists out, i, s2, l. split; [done|]. split; [done|]. split; [set_solver|]. split; [simpl; by rewrite Hp'|].
    by rewrite Hk.
Qed.

End ends.

Definition asked (st : structure) (t : jstr) : list nat := default [] (functions st t).

Lemma left_over_nil st : left_over st [] = st.
Proof. unfold left_over. induction st as [|p st IH]; [done|]. rewrite filter_cons_True by apply not_elem_of_nil. by rewrite IH. Qed.

Lemma left_over_length st inspected : length (left_over st inspected) <= length st.
Proof. apply length_filter. Qed.

Lemma was_inspected_star inspected : was_inspected (js "*") inspected = bool_decide (js "*" ∈ inspected).
Proof. unfold was_inspected. by rewrite !orb_false_r. Qed.

(** An inspection of prefilters or transports ends, whatever types the prefilters
    redirect to, also in a circle, and calls every registered function at most as often
    as it is registered.  When no transport is selected, all functions for the first
    type and then all for "*" have been asked, in the order of registration. *)
Theorem inspection_ends {S} (run : nat -> S -> res answer * S) unshift (st : structure) (seekingTransport : bool)
    (calls : S -> list nat) fuel first s :
  (forall f s, calls (run f s).2 = calls s ++ [f]) -> (forall t s, calls (unshift t s) = calls s) ->
  NoDup st.*1 -> length st < fuel ->
  exists out s' l, inspectPrefiltersOrTransports run unshift st seekingTransport fuel first s = Some (out, s') /\
    calls s' = calls s ++ l /\ l ⊆+ concat st.*2 /\
    (seekingTransport = true -> out = Ok None ->
       l = asked st (default (js "undefined") first) ++ if decide (first = Some (js "*")) then [] else asked st (js "*")).
Proof.
  intros Hrun Hun Hd Hf. unfold inspectPrefiltersOrTransports. set (t := default (js "undefined") first).
  assert (forall i, length (left_over st i) < fuel) as Hlt by (intros i; pose proof (left_over_length st i); lia).
  assert (concat st.*2 = avail st []) as -> by (unfold avail; by rewrite left_over_nil).
  destruct (inspect_ends run unshift st seekingTransport calls Hrun Hun Hd fuel t [] s (not_elem_of_nil _) (Hlt _))
    as (out & i & s1 & l & -> & Hl & Hi & Hm & Hs).
  destruct (avail_split st t [] Hd (not_elem_of_nil _)) as [Hp _]. rewrite <- Hp in Hm.
  assert (l ⊆+ avail st []) as Hm' by (etrans; [|exact Hm]; by apply submseteq_inserts_r).
  destruct out as [[a|]|e]; [by exists (Ok (Some a)), s1, l| |by exists (Throw e), s1, l].
  rewrite was_inspected_star. case_bool_decide as Hstar.
  - exists (Ok None), s1, l. do 3 (split; [done|]). intros Hk _. destruct (Hs Hk) as [-> ->]; [|done].
    apply list_elem_of_singleton in Hstar. rewrite decide_True, app_nil_r; [done|]. unfold t in Hstar. by destruct first; simpl in Hstar; subst.
  - destruct (inspect_ends run unshift st seekingTransport calls Hrun Hun Hd fuel (js "*") i s1 Hstar (Hlt _))
      as (out' & i' & s2 & l' & -> & Hl' & _ & Hm2 & Hs').
    exists out', s2, (l ++ l'). split; [done|]. rewrite Hl', Hl, app_assoc. split; [done|].
    destruct (avail_split st (js "*") i Hd Hstar) as [Hp' _]. rewrite <- Hp' in Hm2. split.
    + etrans; [|exact Hm]. apply submseteq_app; [done|]. etrans; [|exact Hm2]. by apply submseteq_inserts_r.
    + intros Hk ->. destruct (Hs Hk) as [Hi' ->]; [|done]. destruct (Hs' Hk) as [_ ->]; [|done].
      rewrite decide_False; [done|]. intros ->. apply Hstar. rewrite Hi'. left.
Qed.

(** Two prefilters that redirect to each other's types: the state records the calls. *)
Definition redirecting (f : nat) (s : list nat) : res answer * list nat :=
  (Ok (match f with 0 => AString (js "b") | 1 => AString (js "a") | _ => AUndefined end), s ++ [f]).

Lemma inspection_ends_witness :
  let st := [(js "a", [0; 2]); (js "b", [1; 3]); (js "*", [4])] in
  exists out s' l, inspectPrefiltersOrTransports redirecting (fun _ s => s) st false 4 (Some (js "a")) [] = Some (out, s') /\
    s' = l /\ l ⊆+ [0; 2; 1; 3; 4].
Proof.
  intros st. destruct (inspection_ends redirecting (fun _ s => s) st false (fun s => s) 4 (Some (js "a")) [])
    as (out & s' & l & E & Hl & Hm & _).
  - done.
  - done.
  - apply (bool_decide_unpack _). vm_compute. exact I.
  - vm_compute. lia.
  - exists out, s', l. split; [exact E|]. split; [exact Hl|exact Hm].
Defined.


End JqTransports.
