(* ===== verification/JqAjax.v ===== *)
(** The life of an ajax request in [jquery.js] (lines 9402 to 9830): [jQuery.ajax]
    with [abort], [done] and the counter [active].

    Modelled is what a request does and in which order: the prefilters, [beforeSend],
    the transport, the timer, the response and its conversion ([JqConvert]), the
    callbacks and the global events.  Wherever the code of the page runs, at a [hook],
    the commands it gives are an argument [code], which sees all that has happened; it
    may start, abort and complete requests and throw.  Callbacks that are attached to
    one list ([done], [fail] and [always] of the request; those for a status;
    [complete]; the handlers of a global event) are one hook.  The settings are those
    that [ajaxSetup] leaves.  Left out: the address, the data and the
    headers, which [JqHeaders] has, callbacks for a status that are added after the end of a request
    (they run at once), and the fields [statusText] and [readyState] of the request. *)

From S2P Require Import Prelude Regex JqCallbacks JqConvert JqTransports.

Module JqAjax.
Import JqConvert JqTransports.

(** * The page *)

(** Where the code of the page runs; requests are numbered. *)
Inductive hook :=
| HPrefilter (r f : nat) | HFactory (r f : nat)
| HStart | HBeforeSend (r : nat) | HAjaxSend (r : nat)
| HSend (r : nat) | HTransportAbort (r : nat) (text : jstr)
| HSettled (r : nat) (isSuccess : bool) (statusText : jstr)
| HStatus (r : nat) (status : Z)                     (** [s.statusCode] and what was added *)
| HGlobal (r : nat) (isSuccess : bool)               (** [ajaxSuccess] or [ajaxError] *)
| HComplete (r : nat) (statusText : jstr)
| HAjaxComplete (r : nat)
| HStop.

#[global] Instance hook_eq_dec : EqDecision hook.
Proof. solve_decision. Defined.

Inductive happening := Ran (h : hook) | Threw | OutOfFuel.

#[global] Instance happening_eq_dec : EqDecision happening.
Proof. solve_decision. Defined.

Record options := {
  conversions : settings;
  global : bool;
  head_request : bool;         (** [s.type === "HEAD"] *)
  beforeSend : bool;           (** is there one? *)
  async : bool;
  timeout : Z;
}.

(** The variables of a call of [ajax].  [given] says that the transport has been handed
    [done], [counted] that the request is one of those [active] counts; both are for the
    theorems and for what a transport may do. *)
Record request {V : Type} := {
  opts : options;
  completed : option bool;
  fireGlobals : bool;
  transport : option answer;
  timeoutTimer : bool;
  strAbort : jstr;
  fields : list (jstr * V);
  status_of : Z;
  given : bool;
  counted : bool;
}.
Arguments request : clear implicits.

Inductive act {V : Type} :=
| AAjax (o : options)
| AAbort (r : nat) (text : jstr)
| ADone (r : nat) (status : Z) (text : jstr) (responses : option (list (jstr * V))) (header : option jstr)
| ATimeout (r : nat)                  (** the timer of the request goes off *)
| AThrow (e : exn).
Arguments act : clear implicits.

Record astore {V W : Type} := {
  requests : list (request V);
  active : Z;
  world : W;                          (** what converters and filters keep *)
  log : list happening;
}.
Arguments astore : clear implicits.

(** What the page and the rest of the library give: the functions registered, those of
    converters and filters, and the code at a hook *)
Record page {V W : Type} := {
  prefilters : structure;
  transports : structure;
  apply : nat -> V -> W -> res V * W;
  filter_data : nat -> V -> option jstr -> W -> res V * W;
  inherited : jstr -> V;              (** what every object inherits, under that name *)
  undefined : V;
  noop : nat;                         (** the number of [function() {}] *)
  convert_fuel : nat;
  code : hook -> list happening -> list (act V) * answer;
}.
Arguments page : clear implicits.

Section ajax.
Context `{Unicode} {V W : Type}.
Variable P : page V W.

Abbreviation store := (astore V W).

(** * States and exceptions *)

Definition M (A : Type) : Type := store -> res A * store.
#[export] Instance M_ret : MRet M := fun A a s => (Ok a, s).
#[export] Instance M_bind : MBind M := fun A B f m s =>
  match m s with (Ok a, s') => f a s' | (Throw e, s') => (Throw e, s') end.

Definition modify (f : store -> store) : M unit := fun s => (Ok tt, f s).
Definition gets {A} (f : store -> A) : M A := fun s => (Ok (f s), s).

Definition note (h : happening) (s : store) : store :=
  {| requests := requests s; active := active s; world := world s; log := log s ++ [h] |}.
Definition set_active (n : Z) (s : store) : store :=
  {| requests := requests s; active := n; world := world s; log := log s |}.
Definition set_world (w : W) (s : store) : store :=
  {| requests := requests s; active := active s; world := w; log := log s |}.
Definition set_requests (l : list (request V)) (s : store) : store :=
  {| requests := l; active := active s; world := world s; log := log s |}.
Definition update (r : nat) (f : request V -> request V) (s : store) : store := set_requests (alter f r (requests s)) s.

Definition throw {A} (e : exn) : M A := fun s => (Throw e, note Threw s).

(** ** The variables of a request *)

Definition set_opts (o : options) (q : request V) : request V :=
  {| opts := o; completed := completed q; fireGlobals := fireGlobals q; transport := transport q; timeoutTimer := timeoutTimer q;
     strAbort := strAbort q; fields := fields q; status_of := status_of q; given := given q; counted := counted q |}.
Definition set_completed (b : option bool) (q : request V) : request V :=
  {| opts := opts q; completed := b; fireGlobals := fireGlobals q; transport := transport q; timeoutTimer := timeoutTimer q;
     strAbort := strAbort q; fields := fields q; status_of := status_of q; given := given q; counted := counted q |}.
Definition set_fires (b : bool) (q : request V) : request V :=
  {| opts := opts q; completed := completed q; fireGlobals := b; transport := transport q; timeoutTimer := timeoutTimer q;
     strAbort := strAbort q; fields := fields q; status_of := status_of q; given := given q; counted := counted q |}.
Definition set_transport (t : option answer) (q : request V) : request V :=
  {| opts := opts q; completed := completed q; fireGlobals := fireGlobals q; transport := t; timeoutTimer := timeoutTimer q;
     strAbort := strAbort q; fields := fields q; status_of := status_of q; given := given q; counted := counted q |}.
Definition set_timer (b : bool) (q : request V) : request V :=
  {| opts := opts q; completed := completed q; fireGlobals := fireGlobals q; transport := transport q; timeoutTimer := b;
     strAbort := strAbort q; fields := fields q; status_of := status_of q; given := given q; counted := counted q |}.
Definition set_strAbort (t : jstr) (q : request V) : request V :=
  {| opts := opts q; completed := completed q; fireGlobals := fireGlobals q; transport := transport q; timeoutTimer := timeoutTimer q;
     strAbort := t; fields := fields q; status_of := status_of q; given := given q; counted := counted q |}.
Definition set_fields (l : list (jstr * V)) (q : request V) : request V :=
  {| opts := opts q; completed := completed q; fireGlobals := fireGlobals q; transport := transport q; timeoutTimer := timeoutTimer q;
     strAbort := strAbort q; fields := l; status_of := status_of q; given := given q; counted := counted q |}.
Definition set_status (n : Z) (q : request V) : request V :=
  {| opts := opts q; completed := completed q; fireGlobals := fireGlobals q; transport := transport q; timeoutTimer := timeoutTimer q;
     strAbort := strAbort q; fields := fields q; status_of := n; given := given q; counted := counted q |}.
Definition set_given (q : request V) : request V :=
  {| opts := opts q; completed := completed q; fireGlobals := fireGlobals q; transport := transport q; timeoutTimer := timeoutTimer q;
     strAbort := strAbort q; fields := fields q; status_of := status_of q; given := true; counted := counted q |}.
Definition set_counted (b : bool) (q : request V) : request V :=
  {| opts := opts q; completed := completed q; fireGlobals := fireGlobals q; transport := transport q; timeoutTimer := timeoutTimer q;
     strAbort := strAbort q; fields := fields q; status_of := status_of q; given := given q; counted := b |}.

Definition request_at (r : nat) (s : store) : option (request V) := requests s !! r.
Definition is_completed (r : nat) (s : store) : bool :=
  match request_at r s with Some q => bool_decide (completed q = Some true) | None => false end.
Definition fires (r : nat) (s : store) : bool := match request_at r s with Some q => fireGlobals q | None => false end.

(** [s.dataTypes] *)
Definition types_of (r : nat) (s : store) : list jstr :=
  match request_at r s with Some q => dataTypes (conversions (opts q)) | None => [] end.
Definition set_conversions (c : settings) (q : request V) : request V :=
  set_opts {| conversions := c; global := global (opts q); head_request := head_request (opts q); beforeSend := beforeSend (opts q);
              async := async (opts q); timeout := timeout (opts q) |} q.
Definition set_types (r : nat) (l : list jstr) (s : store) : store :=
  update r (fun q => set_conversions (set_dataTypes l (conversions (opts q))) q) s.

(** * The end of a request *)

(** What a response comes to, before the conversion counts: is it a success? *)
Definition is_success (status : Z) : bool := (Z.leb 200 status && Z.ltb status 300) || Z.eqb status 304.

(** [isSuccess] and [statusText] that [done] arrives at *)
Definition verdict (status : Z) (nativeStatusText : jstr) (head : bool) (converted : @conversion V) : bool * jstr :=
  if is_success status then
    if Z.eqb status 204 || head then (true, js "nocontent")
    else if Z.eqb status 304 then (true, js "notmodified")
    else match converted with
         | Converted _ => (true, js "success")
         | ParserError _ => (false, js "parsererror")
         end
  else (false, if negb (Z.eqb status 0) || bool_decide (nativeStatusText = []) then js "error" else nativeStatusText).

(** The converters with those that a failed request for a script gets *)
Definition without_script (status : Z) (c : settings) : settings :=
  if negb (is_success status) && bool_decide (js "script" ∈ dataTypes c) && negb (bool_decide (js "json" ∈ dataTypes c)) then
    {| dataTypes := dataTypes c; dataType := dataType c; mimeType := mimeType c; contents := contents c;
       responseFields := responseFields c; converters := assoc_set (js "text script") (CFn (noop P)) (converters c);
       dataFilter := dataFilter c; throws := throws c |}
  else c.

(** The response, converted *)
Definition convert (r : nat) (status : Z) (responses : option (list (jstr * V))) (header : option jstr) : M conversion := fun s =>
  match request_at r s with
  | None => throw TypeError s
  | Some q =>
      let c := conversions (opts q) in
      let '(types, response) :=
        match responses with Some rs => ajaxHandleResponses (inherited P) c header rs | None => (dataTypes c, None) end in
      let c := without_script status (set_dataTypes types c) in
      let s := update r (set_conversions c) s in
      match ajaxConvert (apply P) (filter_data P) (convert_fuel P) c (default (undefined P) response) (is_success status) (fields q, world s) with
      | Some (Ok x, (fs, w)) => (Ok x, set_world w (update r (set_fields fs) s))
      | Some (Throw e, (fs, w)) => throw e (set_world w (update r (set_fields fs) s))
      | None => (Throw (OutOfModel (js "fuel")), note OutOfFuel s)
      end
  end.

(** Everything else gets the function that runs the page. *)
Section calls.
Variable call : hook -> M answer.

Definition run_hook (h : hook) : M unit := _ ← call h; mret ().

(** [if (!(--jQuery.active)) ...] and [if (... && jQuery.active++ === 0) ...] *)
Definition count_down (r : nat) : M unit :=
  modify (fun s => set_active (active s - 1) (update r (set_counted false) s));;
  n ← gets active;
  if Z.eqb n 0 then run_hook HStop else mret ().
Definition count_up (r : nat) : M unit :=
  n ← gets active;
  modify (fun s => set_active (n + 1) (update r (fun q => set_counted true (set_fires true q)) s));;
  if Z.eqb n 0 then run_hook HStart else mret ().

(** The callbacks of a request that has ended: the deferred, those for the status, the
    global events and [complete] *)
Definition callbacks (r : nat) (isSuccess : bool) (statusText : jstr) (status : Z) : M unit :=
  run_hook (HSettled r isSuccess statusText);;
  run_hook (HStatus r status);;
  globals ← gets (fires r);
  (if (globals : bool) then run_hook (HGlobal r isSuccess) else mret ());;
  run_hook (HComplete r statusText);;
  if (globals : bool) then run_hook (HAjaxComplete r);; count_down r else mret ().

(** [done(status, nativeStatusText, responses, headers)] *)
Definition finish (r : nat) (status : Z) (nativeStatusText : jstr) (responses : option (list (jstr * V))) (header : option jstr) : M unit :=
  already ← gets (is_completed r);
  if (already : bool) then mret () else
  modify (update r (fun q => set_transport None (set_timer false (set_completed (Some true) q))));;
  converted ← convert r status responses header;
  head ← gets (fun s => match request_at r s with Some q => head_request (opts q) | None => false end);
  let '(isSuccess, statusText) := verdict status nativeStatusText head converted in
  let status := if is_success status then status else Z.max 0 status in
  modify (update r (set_status status));;
  callbacks r isSuccess statusText status.

(** [jqXHR.abort(text)] *)
Definition abort (r : nat) (text : jstr) : M unit :=
  q ← gets (request_at r);
  match q with
  | None => mret ()
  | Some q =>
      let finalText := match text with [] => strAbort q | _ => text end in
      match transport q with
      | Some ATransport => run_hook (HTransportAbort r finalText)
      | Some _ => throw TypeError
      | None => mret ()
      end;;
      finish r 0 finalText None None
  end.

(** [inspectPrefiltersOrTransports] on the types of a request; the fuel is what
    [inspection_ends] asks for. *)
Definition inspect_for (r : nat) (seekingTransport : bool) (st : structure) : M (option answer) := fun s =>
  match inspectPrefiltersOrTransports (fun f => call (if seekingTransport then HFactory r f else HPrefilter r f))
          (fun t s => set_types r (t :: types_of r s) s) st seekingTransport (S (length st)) (head (types_of r s)) s with
  | Some out => out
  | None => (Throw (OutOfModel (js "fuel")), note OutOfFuel s)
  end.

(** [try { completed = false; transport.send(...) } catch ...] *)
Definition send (r : nat) (t : answer) : M unit := fun s =>
  let s := update r (set_completed (Some false)) s in
  match (match t with ATransport => modify (update r set_given);; run_hook (HSend r) | _ => throw TypeError end) s with
  | (Ok _, s) => (Ok tt, s)
  | (Throw e, s) => if is_completed r s then (Throw e, s) else finish r (-1) [] None None s
  end.

(** The beginning of the request, up to [beforeSend]; is it to go on? *)
Definition prepare (r : nat) (o : options) : M bool :=
  inspect_for r false (prefilters P);;
  aborted ← gets (is_completed r);
  if (aborted : bool) then mret false else
  (if global o then count_up r else mret ());;
  (if beforeSend o then
     a ← call (HBeforeSend r);
     aborted ← gets (is_completed r);
     if bool_decide (a = AFalse) || aborted then abort r [];; mret false else mret true
   else mret true).

(** [jQuery.ajax(...)] *)
Definition ajax (o : options) : M unit :=
  r ← gets (fun s => length (requests s));
  modify (fun s => set_requests (requests s ++ [{| opts := o; completed := None; fireGlobals := false; transport := None;
    timeoutTimer := false; strAbort := js "canceled"; fields := []; status_of := 0; given := false; counted := false |}]) s);;
  go ← prepare r o;
  if (go : bool) then
    modify (update r (set_strAbort (js "abort")));;
    t ← inspect_for r true (transports P);
    modify (update r (set_transport t));;
    match t with
    | None => finish r (-1) (js "No Transport") None None
    | Some t =>
        globals ← gets (fires r);
        (if (globals : bool) then run_hook (HAjaxSend r) else mret ());;
        aborted ← gets (is_completed r);
        if (aborted : bool) then mret () else
        (if async o && Z.ltb 0 (timeout o) then modify (update r (set_timer true)) else mret ());;
        send r t
    end
  else mret ().

(** ** The commands of the page *)

Definition run_act (a : act V) : M unit :=
  match a with
  | AAjax o => ajax o
  | AAbort r text => abort r text
  | ADone r status text responses header =>
      q ← gets (request_at r);
      match q with Some q => if given q then finish r status text responses header else mret () | None => mret () end
  | ATimeout r =>
      q ← gets (request_at r);
      match q with Some q => if timeoutTimer q then abort r (js "timeout") else mret () | None => mret () end
  | AThrow e => throw e
  end.

Fixpoint run_acts (l : list (act V)) : M unit :=
  match l with [] => mret () | a :: l' => run_act a;; run_acts l' end.

End calls.

(** The page at a hook *)
Fixpoint call (fuel : nat) (h : hook) : M answer := fun s =>
  let s := note (Ran h) s in
  match fuel with
  | O => (Throw (OutOfModel (js "fuel")), note OutOfFuel s)
  | S fuel' => let '(acts, a) := code P h (log s) in (run_acts (call fuel') acts;; mret a) s
  end.

(** Scripts, timers and transports give commands one after another, the later ones also
    when one has thrown. *)
Fixpoint run_page (fuel : nat) (l : list (act V)) (s : store) : store :=
  match l with
  | [] => s
  | a :: l' => run_page fuel l' (run_act (call fuel) a s).2
  end.

Definition start (w : W) : store := {| requests := []; active := 0; world := w; log := [] |}.

End ajax.

End JqAjax.
