(* ===== verification/JqAjaxProofs.v ===== *)
(** Theorems on ajax requests: a request ends once, with its callbacks in order, and the
    counter [active] is the number of requests under way.

    An invariant relates the variables of every request to what has happened to it; a
    second relation says what a run of page code leaves alone, in particular the
    requests that have ended.  Programs of the store monad are judged by triples over
    both, with a case for exceptions. *)

From S2P Require Import Prelude Regex JqCallbacks JqConvert JqTransports JqAjax.

Module JqAjaxProofs.
Import JqConvert JqTransports.
Export JqAjax.

(** * What the record says *)

(** The request that a hook of its later life belongs to *)
Definition subject (h : hook) : option nat :=
  match h with
  | HSend r | HSettled r _ _ | HStatus r _ | HGlobal r _ | HComplete r _ | HAjaxComplete r => Some r
  | _ => None
  end.

Definition trace (r : nat) (l : list happening) : list hook :=
  omap (fun x => match x with Ran h => if decide (subject h = Some r) then Some h else None | _ => None end) l.

(** No exception, and enough fuel *)
Definition quiet (l : list happening) : Prop := (Threw ∉ l) /\ (OutOfFuel ∉ l).

(** How a request ends *)
Definition ends (r : nat) (globals ok : bool) (text : jstr) (status : Z) : list hook :=
  [HSettled r ok text; HStatus r status] ++ (if globals then [HGlobal r ok] else []) ++
  [HComplete r text] ++ (if globals then [HAjaxComplete r] else []).

(** The starts and stops of all requests together *)
Definition turns (l : list happening) : list bool :=
  omap (fun x => match x with Ran HStart => Some true | Ran HStop => Some false | _ => None end) l.
Definition under_way (l : list bool) : bool := default false (last l).
Fixpoint alternates (b : bool) (l : list bool) : bool :=
  match l with [] => true | x :: l' => Bool.eqb x (negb b) && alternates x l' end.

Lemma trace_snoc r l x :
  trace r (l ++ [x]) = trace r l ++ match x with Ran h => if decide (subject h = Some r) then [h] else [] | _ => [] end.
Proof. unfold trace. rewrite omap_app. f_equal. destruct x as [h| |]; [simpl; by case_decide|done..]. Qed.
Lemma turns_snoc l x :
  turns (l ++ [x]) = turns l ++ match x with Ran HStart => [true] | Ran HStop => [false] | _ => [] end.
Proof. unfold turns. rewrite omap_app. f_equal. destruct x as [h| |]; [by destruct h|done..]. Qed.
Lemma under_way_snoc l b : under_way (l ++ [b]) = b.
Proof. unfold under_way. by rewrite last_snoc. Qed.
Lemma alternates_snoc b l x : alternates b (l ++ [x]) = alternates b l && Bool.eqb x (negb (default b (last l))).
Proof.
  revert b. induction l as [|y l IH]; intros b; simpl; [by rewrite andb_true_r|]. rewrite IH, andb_assoc. do 3 f_equal.
  destruct l as [|z l]; [done|]. change (last (y :: z :: l)) with (last (z :: l)).
  destruct (last (z :: l)) eqn:E; [done|by apply last_None in E].
Qed.

Lemma quiet_prefix l1 l2 : l1 `prefix_of` l2 -> quiet l2 -> quiet l1.
Proof. intros [l ->] [H1 H2]. split; intros H; [apply H1|apply H2]; apply elem_of_app; by left. Qed.
Lemma threw_loud l : ~ quiet (l ++ [Threw]).
Proof. intros [H _]. apply H, elem_of_app. right. by left. Qed.
Lemma fuel_loud l : ~ quiet (l ++ [OutOfFuel]).
Proof. intros [_ H]. apply H, elem_of_app. right. by left. Qed.

Section proofs.
Context `{Unicode} {V W : Type}.

Abbreviation store := (astore V W).
Abbreviation request := (request V).
Implicit Types (s : store) (q : request).

(** * The invariant *)

Definition sent (r : nat) (q : request) : list hook := if given q then [HSend r] else [].

Definition ok_request (r : nat) (q : request) (l : list happening) : Prop :=
  (counted q = true -> fireGlobals q = true) /\
  if decide (completed q = Some true)
  then exists ok text status k, trace r l = sent r q ++ take k (ends r (fireGlobals q) ok text status)
  else trace r l = sent r q /\ (fireGlobals q = true -> counted q = true).

Definition number (l : list request) : nat := length (base.filter (fun q => counted q = true) l).

Record inv (s : store) : Prop := {
  inv_active : active s = Z.of_nat (number (requests s));
  inv_turns : alternates false (turns (log s)) = true;
  inv_under_way : under_way (turns (log s)) = Z.ltb 0 (active s);
  inv_request : forall r q, requests s !! r = Some q -> ok_request r q (log s);
  inv_none : forall r, length (requests s) <= r -> trace r (log s) = [];
}.

Lemma number_alter (f : request -> request) r (l : list request) q : l !! r = Some q ->
  number (alter f r l) + (if counted q then 1 else 0) = number l + (if counted (f q) then 1 else 0).
Proof.
  unfold number. revert l. induction r as [|r IH]; intros [|q' l]; simpl; try done.
  - intros [= ->]. rewrite !filter_cons. destruct (decide (counted q = true)), (decide (counted (f q) = true));
      destruct (counted q), (counted (f q)); try congruence; simpl; lia.
  - intros Hl. specialize (IH l Hl). unfold alter in IH. rewrite !filter_cons. destruct (decide (counted q' = true)); simpl in *; lia.
Qed.

Lemma lookup_update r f r' s : requests (update r f s) !! r' = if decide (r' = r) then f <$> requests s !! r else requests s !! r'.
Proof.
  unfold update, set_requests. simpl. case_decide as E; [subst; apply list_lookup_alter_eq|by apply list_lookup_alter_ne].
Qed.

(** ** Runs of code *)

(** A request that has been completed, but whose callbacks have not all run *)
Definition unfinished (r : nat) (s : store) : Prop :=
  exists q, requests s !! r = Some q /\ completed q = Some true /\
    ~ (counted q = false /\ exists ok text status, trace r (log s) = sent r q ++ ends r (fireGlobals q) ok text status).

(** What a request keeps *)
Definition kept (r : nat) (s s' : store) (q q' : request) : Prop :=
  given q' = given q /\ fireGlobals q' = fireGlobals q /\
  (completed q = Some true -> completed q' = Some true /\ counted q' = counted q /\ trace r (log s') = trace r (log s)).

(** After a run of code from [s]; [x] is a request that is about to end. *)
Record after (x : option nat) (s s' : store) : Prop := {
  after_inv : inv s';
  after_log : log s `prefix_of` log s';
  after_kept : forall r q, requests s !! r = Some q -> exists q', requests s' !! r = Some q' /\ kept r s s' q q';
  after_finished : quiet (log s') -> forall r, x <> Some r -> unfinished r s' -> unfinished r s;
}.

Lemma kept_refl r s q : kept r s s q q.
Proof. by repeat split. Qed.

Lemma kept_trans r s1 s2 s3 q1 q2 q3 : kept r s1 s2 q1 q2 -> kept r s2 s3 q2 q3 -> kept r s1 s3 q1 q3.
Proof.
  intros (Hg & Hf & Hc) (Hg' & Hf' & Hc'). split; [congruence|]. split; [congruence|]. intros H1.
  destruct (Hc H1) as (H2 & Hn & Ht), (Hc' H2) as (H3 & Hn' & Ht'). split; [done|]. split; congruence.
Qed.

Lemma after_refl x s : inv s -> after x s s.
Proof. intros Hi. split; [done|done| |done]. intros r q Hq. exists q. split; [done|apply kept_refl]. Qed.

Lemma after_trans x s0 s s' : after x s0 s -> after None s s' -> after x s0 s'.
Proof.
  intros [Hi Hl Hk Hf] [Hi' Hl' Hk' Hf']. split; [done|by etrans| |].
  - intros r q Hq. destruct (Hk r q Hq) as (q1 & Hq1 & H1), (Hk' r q1 Hq1) as (q2 & Hq2 & H2).
    exists q2. split; [done|by eapply kept_trans].
  - intros Hq r Hx Hu. apply Hf; [by eapply quiet_prefix|done|]. by apply Hf'.
Qed.

Lemma after_weaken x s0 s : after None s0 s -> after x s0 s.
Proof. intros [Hi Hl Hk Hf]. split; [done..|]. intros Hq r _. by apply Hf. Qed.

(** A step of the request [r] itself *)
Lemma after_step y r s0 s s' : after (Some r) s0 s -> inv s' -> log s `prefix_of` log s' ->
  (forall r' q, r' <> r -> requests s !! r' = Some q -> requests s' !! r' = Some q /\ trace r' (log s') = trace r' (log s)) ->
  (forall r', length (requests s) <= r' -> requests s' !! r' = None) ->
  (forall q, requests s0 !! r = Some q -> completed q <> Some true /\
     exists q', requests s' !! r = Some q' /\ given q' = given q /\ fireGlobals q' = fireGlobals q) ->
  (y = Some r \/ (quiet (log s') -> unfinished r s' -> unfinished r s0)) ->
  after y s0 s'.
Proof.
  intros [Hi Hl Hk Hf] Hi' Hl' Ho Hn Hr Hy. split; [done|by etrans| |].
  - intros r' q Hq. destruct (decide (r' = r)) as [->|Hne].
    + destruct (Hr q Hq) as (Hc & q' & Hq' & Hg & Hfi). exists q'. split; [done|]. by repeat split.
    + destruct (Hk r' q Hq) as (q' & Hq' & H1). destruct (Ho r' q' Hne Hq') as [Hq2 Ht]. exists q'. split; [done|].
      eapply kept_trans; [exact H1|]. split; [done|]. split; [done|]. intros Hc. by rewrite Ht.
  - intros Hq r' Hx Hu. destruct (decide (r' = r)) as [->|Hne]; [destruct Hy as [->|Hy]; [done|by apply Hy]|].
    apply Hf; [by eapply quiet_prefix|congruence|]. destruct Hu as (q & Hq' & Hc & Hu).
    destruct (requests s !! r') as [q1|] eqn:E.
    + destruct (Ho r' q1 Hne E) as [E' Ht]. exists q1. rewrite E' in Hq'. injection Hq' as ->. rewrite Ht in Hu. done.
    + rewrite Hn in Hq'; [done|]. by apply lookup_ge_None_1.
Qed.

(** ** Steps that no theorem is about *)

(** The variables that the invariant is about *)
Definition same (q q' : request) : Prop :=
  completed q' = completed q /\ given q' = given q /\ fireGlobals q' = fireGlobals q /\ counted q' = counted q.

Lemma same_refl q : same q q.
Proof. by repeat split. Qed.

Lemma number_same l l' : Forall2 same l l' -> number l' = number l.
Proof.
  unfold number. induction 1 as [|q q' l l' (_ & _ & _ & Hc) _ IH]; [done|]. rewrite !filter_cons, Hc.
  destruct (decide (counted q = true)); simpl; by rewrite IH.
Qed.

Lemma ok_request_same r q q' l : same q q' -> ok_request r q l -> ok_request r q' l.
Proof. intros (Hc & Hg & Hf & Hn). unfold ok_request, sent. by rewrite Hc, Hg, Hf, Hn. Qed.

Definition mute (x : happening) : Prop := (forall r, trace r [x] = []) /\ turns [x] = [].

Lemma trace_mute r l x : mute x -> trace r (l ++ [x]) = trace r l.
Proof. intros [Hm _]. unfold trace in *. by rewrite omap_app, Hm, app_nil_r. Qed.
Lemma turns_mute l x : mute x -> turns (l ++ [x]) = turns l.
Proof. intros [_ Hm]. unfold turns in *. by rewrite omap_app, Hm, app_nil_r. Qed.

(** A step that changes other variables and records nothing of interest *)
Lemma after_tame s s' m : inv s -> active s' = active s -> Forall2 same (requests s) (requests s') ->
  log s' = log s ++ m -> Forall mute m -> after None s s'.
Proof.
  intros [Ha Ht Hu Hr Hn] Ea Hs Hl Hm.
  assert (turns (log s') = turns (log s) /\ forall r, trace r (log s') = trace r (log s)) as [Et Etr].
  { rewrite Hl. clear Hl. revert Hm. induction m as [|x m IH] using rev_ind; [rewrite app_nil_r; done|].
    intros [Hm Hx]%Forall_app. rewrite app_assoc. rewrite Forall_singleton in Hx. rewrite turns_mute by done. destruct (IH Hm) as [-> Hi].
    split; [done|]. intros r. rewrite trace_mute by done. apply Hi. }
  assert (forall r q, requests s !! r = Some q -> exists q', requests s' !! r = Some q' /\ same q q') as Hq.
  { intros r q. by apply Forall2_lookup_l. }
  assert (forall r q', requests s' !! r = Some q' -> exists q, requests s !! r = Some q /\ same q q') as Hq'.
  { intros r q'. by apply Forall2_lookup_r. }
  split.
  - split.
    + by rewrite Ea, (number_same _ _ Hs).
    + by rewrite Et.
    + by rewrite Et, Ea.
    + intros r q' E. destruct (Hq' r q' E) as (q & E' & Hsame). unfold ok_request. rewrite Etr. eapply ok_request_same; [done|by apply Hr].
    + intros r Hle. rewrite Etr. apply Hn. by rewrite (Forall2_length _ _ _ Hs).
  - rewrite Hl. by eexists.
  - intros r q E. destruct (Hq r q E) as (q' & E' & Hc & Hg & Hf & Hc'). exists q'. split; [done|].
    split; [done|]. split; [done|]. intros Hco. rewrite Hc, Etr. done.
  - intros _ r _ (q' & E & Hc & Hu'). destruct (Hq' r q' E) as (q & E' & Hc1 & Hg & Hf & Hc2). exists q.
    rewrite Hc2, Etr, Hf in Hu'. unfold sent in *. rewrite Hg in Hu'. split; [done|]. split; [congruence|done].
Qed.

Lemma Forall2_same_refl (l : list request) : Forall2 same l l.
Proof. induction l; constructor; [apply same_refl|done]. Qed.

Lemma after_note x s : mute x -> inv s -> after None s (note x s).
Proof. intros Hx Hi. apply (after_tame s _ [x]); [done|done|apply Forall2_same_refl|done|by constructor]. Qed.

Lemma after_update r f s : (forall q, same q (f q)) -> inv s -> after None s (update r f s).
Proof.
  intros Hf Hi. apply (after_tame s _ []); [done|done| |by rewrite app_nil_r|done].
  unfold update, set_requests. simpl. clear Hi. revert r. induction (requests s) as [|q l IH]; intros [|r]; simpl; constructor;
    try apply same_refl; try apply Hf; [apply Forall2_same_refl|apply IH].
Qed.

(** ** Programs *)

Definition triple {A} (x : option nat) (s0 : store) (P : store -> Prop) (m : M A) (Q : A -> store -> Prop) : Prop :=
  forall s, after x s0 s -> P s ->
    match m s with
    | (Ok a, s') => after x s0 s' /\ Q a s'
    | (Throw _, s') => after x s0 s' /\ ~ quiet (log s')
    end.

(** Code that does not belong to a request that is about to end *)
Definition nested {A} (m : M A) : Prop :=
  forall s, inv s ->
    match m s with
    | (Ok _, s') => after None s s'
    | (Throw _, s') => after None s s' /\ ~ quiet (log s')
    end.

(** What such code leaves alone *)
Definition stable (P : store -> Prop) : Prop := forall s s', inv s -> after None s s' -> P s -> P s'.

Lemma triple_bind {A B} x s0 P (m : M A) (f : A -> M B) Q R :
  triple x s0 P m Q -> (forall a, triple x s0 (Q a) (f a) R) -> triple x s0 P (a ← m; f a) R.
Proof.
  intros Hm Hf s Hs HP. specialize (Hm s Hs HP). unfold mbind, M_bind. destruct (m s) as [[a|e] s']; [|done].
  destruct Hm as [Hs' HQ]. exact (Hf a s' Hs' HQ).
Qed.

Lemma triple_ret {A} x s0 (a : A) (Q : A -> store -> Prop) : triple x s0 (Q a) (mret a) Q.
Proof. intros s Hs HP. by split. Qed.

Lemma triple_gets {A} x s0 P (f : store -> A) : triple x s0 P (gets f) (fun a s => P s /\ a = f s).
Proof. intros s Hs HP. by split. Qed.

Lemma triple_pre {A} x s0 (P P' : store -> Prop) (m : M A) Q :
  (forall s, P s -> P' s) -> triple x s0 P' m Q -> triple x s0 P m Q.
Proof. intros HP Hm s Hs H1. by apply Hm; [|apply HP]. Qed.

Lemma triple_post {A} x s0 P (m : M A) (Q Q' : A -> store -> Prop) :
  (forall a s, Q a s -> Q' a s) -> triple x s0 P m Q -> triple x s0 P m Q'.
Proof.
  intros HQ Hm s Hs H1. specialize (Hm s Hs H1). destruct (m s) as [[a|e] s']; [|done]. destruct Hm. split; auto.
Qed.

Lemma triple_nested {A} x s0 P (m : M A) : nested m -> stable P -> triple x s0 P m (fun _ => P).
Proof.
  intros Hm HP s Hs H1. assert (inv s) as Hi by apply Hs. specialize (Hm s Hi). destruct (m s) as [[a|e] s'].
  - split; [by eapply after_trans|by eapply HP].
  - destruct Hm as [Hm Hq]. split; [by eapply after_trans|done].
Qed.

Lemma nested_triple {A} (m : M A) : (forall s0, inv s0 -> triple None s0 (fun s => s = s0) m (fun _ _ => True)) -> nested m.
Proof.
  intros Hm s Hi. specialize (Hm s Hi s (after_refl _ _ Hi) eq_refl). destruct (m s) as [[a|e] s']; [by destruct Hm|done].
Qed.

Lemma nested_bind {A B} (m : M A) (f : A -> M B) : nested m -> (forall a, nested (f a)) -> nested (a ← m; f a).
Proof.
  intros Hm Hf s Hi. specialize (Hm s Hi). unfold mbind, M_bind. destruct (m s) as [[a|e] s']; [|done].
  assert (inv s') as Hi' by apply Hm. specialize (Hf a s' Hi'). destruct (f a s') as [[b|e] s''].
  - by eapply after_trans.
  - destruct Hf. split; [by eapply after_trans|done].
Qed.

Lemma nested_ret {A} (a : A) : nested (mret a).
Proof. intros s Hi. by apply after_refl. Qed.
Lemma nested_gets {A} (f : store -> A) : nested (gets f).
Proof. intros s Hi. by apply after_refl. Qed.
Lemma nested_throw {A} e : nested (throw (A := A) e).
Proof. intros s Hi. split; [by apply after_note|apply threw_loud]. Qed.
Lemma nested_update r f : (forall q, same q (f q)) -> nested (modify (update r f)).
Proof. intros Hf s Hi. by apply after_update. Qed.
Lemma after_world w s : inv s -> after None s (set_world w s).
Proof. intros Hi. apply (after_tame s _ []); [done|done|apply Forall2_same_refl|by rewrite app_nil_r|done]. Qed.

(** The response changes no variable that the invariant is about. *)
Lemma convert_nested P r status responses header : nested (convert P r status responses header).
Proof.
  intros s Hi. unfold convert. destruct (request_at r s) as [q|]; [|by apply nested_throw].
  destruct (match responses with Some rs => _ | None => _ end) as [types response]. cbv zeta.
  set (c := without_script P status (set_dataTypes types (conversions (opts q)))).
  pose proof (after_update r (set_conversions c) s (fun _ => same_refl _) Hi) as H1. set (s1 := update r (set_conversions c) s) in *.
  destruct (ajaxConvert _ _ _ _ _ _) as [[[x|e] [fs w]]|].
  - pose proof (after_update r (set_fields fs) s1 (fun _ => same_refl _) (after_inv _ _ _ H1)) as H2.
    eapply after_trans; [by eapply after_trans|]. apply after_world, H2.
  - pose proof (after_update r (set_fields fs) s1 (fun _ => same_refl _) (after_inv _ _ _ H1)) as H2.
    pose proof (after_world w _ (after_inv _ _ _ H2)) as H3.
    split; [|apply threw_loud]. eapply after_trans; [eapply after_trans; [by eapply after_trans|exact H3]|].
    apply after_note; [done|apply H3].
  - split; [|apply fuel_loud]. eapply after_trans; [exact H1|]. apply after_note; [done|apply H1].
Qed.

Lemma nested_if {A} (b : bool) (m1 m2 : M A) : nested m1 -> nested m2 -> nested (if b then m1 else m2).
Proof. by destruct b. Qed.


(** ** The end of a request *)

(** The request [r] has ended and [k] of its callbacks have been called. *)
Definition stage (r : nat) (globals : bool) (ok : bool) (text : jstr) (status : Z) (k : nat) (s : store) : Prop :=
  exists q, requests s !! r = Some q /\ completed q = Some true /\ fireGlobals q = globals /\ counted q = globals /\
    trace r (log s) = sent r q ++ take k (ends r globals ok text status).

Lemma stage_stable r globals ok text status k : stable (stage r globals ok text status k).
Proof.
  intros s s' Hi Ha (q & Hq & Hc & Hf & Hn & Ht). destruct (after_kept _ _ _ Ha r q Hq) as (q' & Hq' & Hg & Hf' & Hk).
  destruct (Hk Hc) as (Hc' & Hn' & Ht'). exists q'. unfold sent. rewrite Hg, Hf', Hn', Ht'. done.
Qed.

(** The request has not ended in the store where the run began. *)
Definition open (r : nat) (s0 : store) : Prop := forall q, requests s0 !! r = Some q -> completed q <> Some true.

Lemma open_kept r s0 s : after (Some r) s0 s -> open r s0 -> forall q, requests s0 !! r = Some q ->
  completed q <> Some true /\ exists q', requests s !! r = Some q' /\ given q' = given q /\ fireGlobals q' = fireGlobals q.
Proof.
  intros Hs Ho q Hq. split; [by apply Ho|]. destruct (after_kept _ _ _ Hs r q Hq) as (q' & Hq' & Hg & Hf & _). by exists q'.
Qed.

(** A step of [r] that changes its variables; [l] is what it records. *)
Lemma inv_own r f s s' q l : inv s -> requests s !! r = Some q -> requests s' = alter f r (requests s) ->
  log s' = log s ++ l -> (forall r', trace r' l = []) -> ok_request r (f q) (log s) ->
  active s' = Z.of_nat (number (requests s')) -> alternates false (turns (log s')) = true ->
  under_way (turns (log s')) = Z.ltb 0 (active s') -> inv s'.
Proof.
  intros Hi Hq Er El Hl Hok Ha Ht Hu.
  assert (forall r', trace r' (log s') = trace r' (log s)) as Etr.
  { intros r'. rewrite El. unfold trace in *. by rewrite omap_app, Hl, app_nil_r. }
  split; [done..| |].
  - intros r' q' Hq'. unfold ok_request. rewrite Etr. rewrite Er in Hq'. destruct (decide (r' = r)) as [->|Hne].
    + rewrite list_lookup_alter_eq, Hq in Hq'. injection Hq' as <-. exact Hok.
    + rewrite list_lookup_alter_ne in Hq' by congruence. by apply (inv_request _ Hi).
  - intros r' Hle. rewrite Etr. apply (inv_none _ Hi). by rewrite Er, length_alter in Hle.
Qed.

Lemma after_own y r f s0 s s' q l : after (Some r) s0 s -> requests s !! r = Some q -> requests s' = alter f r (requests s) ->
  log s' = log s ++ l -> (forall r', trace r' l = []) -> inv s' ->
  (forall q0, requests s0 !! r = Some q0 -> completed q0 <> Some true /\ given (f q) = given q0 /\ fireGlobals (f q) = fireGlobals q0) ->
  (y = Some r \/ (quiet (log s') -> unfinished r s' -> unfinished r s0)) -> after y s0 s'.
Proof.
  intros Hs Hq Er El Hl Hi Hk Hy. apply (after_step y r s0 s); [done|done|by exists l|..|done].
  - intros r' q' Hne Hq'. rewrite Er, list_lookup_alter_ne, El by congruence. split; [done|].
    unfold trace in *. by rewrite omap_app, Hl, app_nil_r.
  - intros r' Hle. rewrite Er. apply lookup_ge_None_2. by rewrite length_alter.
  - intros q0 Hq0. destruct (Hk q0 Hq0) as (Hc & Hg & Hf). split; [done|]. exists (f q).
    by rewrite Er, list_lookup_alter_eq, Hq.
Qed.

Section call.
Variable call : hook -> M (V := V) (W := W) answer.
Hypothesis call_ok : forall h s, inv (note (Ran h) s) ->
  match call h s with
  | (Ok _, s') => after None (note (Ran h) s) s'
  | (Throw _, s') => after None (note (Ran h) s) s' /\ ~ quiet (log s')
  end.

Lemma hook_nested h : mute (Ran h) -> nested (call h).
Proof using call_ok.
  intros Hh s Hi. pose proof (after_note _ _ Hh Hi) as Ha. specialize (call_ok h s (after_inv _ _ _ Ha)).
  destruct (call h s) as [[a|e] s']; [by eapply after_trans|]. destruct call_ok. split; [by eapply after_trans|done].
Qed.

Lemma run_hook_nested h : mute (Ran h) -> nested (run_hook call h).
Proof using call_ok. intros Hh. apply nested_bind; [by apply hook_nested|]. intros a. apply nested_ret. Qed.

(** A hook whose record takes the request to the next step *)
Lemma run_hook_triple x y s0 h (P P' : store -> Prop) :
  (forall s, after x s0 s -> P s -> after y s0 (note (Ran h) s) /\ P' (note (Ran h) s)) -> stable P' ->
  forall s, after x s0 s -> P s ->
    match run_hook call h s with
    | (Ok _, s') => after y s0 s' /\ P' s'
    | (Throw _, s') => after y s0 s' /\ ~ quiet (log s')
    end.
Proof using call_ok.
  intros Hh HP s Hs H1. destruct (Hh s Hs H1) as [Ha H2]. assert (inv (note (Ran h) s)) as Hi by apply Ha.
  specialize (call_ok h s Hi). unfold run_hook, mbind, M_bind. destruct (call h s) as [[a|e] s']; simpl.
  - split; [by eapply after_trans|]. by eapply HP.
  - destruct call_ok. split; [by eapply after_trans|done].
Qed.

Lemma inv_trace_note r h s q : inv s -> subject h = Some r -> requests s !! r = Some q ->
  ok_request r q (log s ++ [Ran h]) -> inv (note (Ran h) s).
Proof.
  intros [Ha Ht Hu Hr Hn] Hh Hq Hok.
  assert (turns (log s ++ [Ran h]) = turns (log s)) as Et by (rewrite turns_snoc; destruct h; try done; by rewrite app_nil_r).
  assert (forall r', r' <> r -> trace r' (log s ++ [Ran h]) = trace r' (log s)) as Etr.
  { intros r' Hne. rewrite trace_snoc, decide_False by congruence. apply app_nil_r. }
  split; simpl; rewrite ?Et; try done.
  - intros r' q' Hq'. destruct (decide (r' = r)) as [->|Hne]; [congruence|]. unfold ok_request. rewrite Etr by done. by apply Hr.
  - intros r' Hle. rewrite Etr; [by apply Hn|]. intros ->. apply lookup_lt_Some in Hq. lia.
Qed.

Lemma step_triple r s0 globals ok text status k h :
  open r s0 -> ends r globals ok text status !! k = Some h -> subject h = Some r ->
  triple (Some r) s0 (stage r globals ok text status k) (run_hook call h) (fun _ => stage r globals ok text status (S k)).
Proof using call_ok.
  intros Ho Hk Hh. unfold triple. apply run_hook_triple; [|apply stage_stable].
  intros s Hs (q & Hq & Hc & Hf & Hn & Ht).
  assert (trace r (log (note (Ran h) s)) = sent r q ++ take (S k) (ends r globals ok text status)) as Et.
  { cbn [log note]. rewrite trace_snoc, decide_True, Ht, <- app_assoc by done. f_equal. symmetry. by apply take_S_r. }
  split; [|by exists q]. apply (after_step (Some r) r s0 s); [done| |by exists [Ran h]|..].
  - apply (inv_trace_note r h s q); [apply Hs|done|done|]. split; [congruence|]. rewrite decide_True by done.
    exists ok, text, status, (S k). by rewrite Hf.
  - intros r' q' Hne Hq'. split; [done|]. simpl. rewrite trace_snoc, decide_False by congruence. apply app_nil_r.
  - intros r'. apply lookup_ge_None_2.
  - exact (open_kept r s0 s Hs Ho).
  - by left.
Qed.

Lemma ends_length r globals ok text status : length (ends r globals ok text status) = if globals then 5 else 3.
Proof. by destruct globals. Qed.

Lemma stage_finished r globals ok text status s :
  stage r globals ok text status (length (ends r globals ok text status)) s -> globals = false -> ~ unfinished r s.
Proof.
  intros (q & Hq & Hc & Hf & Hn & Ht) -> (q' & Hq' & _ & Hu). rewrite Hq in Hq'. injection Hq' as <-. apply Hu. split; [done|].
  exists ok, text, status. by rewrite Hf, Ht, firstn_all.
Qed.

(** Ending without global events *)
Lemma after_ended r ok text status s0 s : after (Some r) s0 s ->
  stage r false ok text status 3 s -> after None s0 s.
Proof.
  intros [Hi Hl Hk Hf] Hs. split; [done..|]. intros Hq r' _ Hu. destruct (decide (r' = r)) as [->|Hne].
  - by destruct (stage_finished r false ok text status s Hs eq_refl).
  - apply Hf; [done|congruence|done].
Qed.

Lemma loud_any x y s0 s : after x s0 s -> ~ quiet (log s) -> after y s0 s.
Proof. intros [Hi Hl Hk Hf] Hq. by split. Qed.

Lemma count_down_after r ok text status s0 s : open r s0 -> after (Some r) s0 s -> stage r true ok text status 5 s ->
  match count_down call r s with
  | (Ok _, s') => after None s0 s'
  | (Throw _, s') => after None s0 s' /\ ~ quiet (log s')
  end.
Proof using call_ok.
  intros Ho Hs (q & Hq & Hc & Hf & Hn & Ht). set (s1 := set_active (active s - 1) (update r (set_counted false) s)).
  assert (inv s) as Hi by apply Hs.
  pose proof (number_alter (set_counted false) r _ q Hq) as Hnum. rewrite Hn in Hnum. simpl in Hnum.
  pose proof (inv_active _ Hi) as Ha. pose proof (inv_under_way _ Hi) as Hu.
  assert (active s1 = Z.of_nat (number (requests s1))) as Ha1 by (unfold s1; simpl; lia).
  assert (ok_request r (set_counted false q) (log s)) as Hok.
  { split; [done|]. rewrite decide_True by done. exists ok, text, status, 5. rewrite <- Hf in Ht. exact Ht. }
  assert (forall s' l, requests s' = requests s1 -> log s' = log s ++ l -> (forall r', trace r' l = []) -> inv s' -> after None s0 s') as Hend.
  { intros s' l Er El Hl Hi'. apply (after_own None r (set_counted false) s0 s s' q l); try done.
    - intros q0 Hq0. destruct (open_kept r s0 s Hs Ho q0 Hq0) as (Hc0 & q' & Hq' & Hg & Hfi). rewrite Hq in Hq'. by injection Hq' as <-.
    - right. intros _ (q' & Hq' & _ & Hun). rewrite Er in Hq'. unfold s1 in Hq'. simpl in Hq'. rewrite list_lookup_alter_eq, Hq in Hq'.
      injection Hq' as <-. exfalso. apply Hun. split; [done|]. exists ok, text, status. rewrite El.
      unfold trace in *. rewrite omap_app, Hl, app_nil_r, Ht. simpl. by rewrite Hf. }
  change (count_down call r s) with ((if Z.eqb (active s1) 0 then run_hook call HStop else mret ()) s1).
  destruct (Z.eqb_spec (active s1) 0) as [E|E].
  - assert (inv (note (Ran HStop) s1)) as Hi2.
    { apply (inv_own r (set_counted false) s _ q [Ran HStop]); try done; simpl; rewrite turns_snoc.
      - rewrite alternates_snoc, (inv_turns _ Hi). fold (under_way (turns (log s))). rewrite Hu. simpl in E.
        destruct (Z.ltb_spec 0 (active s)); [done|lia].
      - rewrite under_way_snoc. simpl in E. destruct (Z.ltb_spec 0 (active s - 1)); [lia|done]. }
    pose proof (Hend (note (Ran HStop) s1) [Ran HStop] eq_refl eq_refl (fun _ => eq_refl) Hi2) as H2.
    specialize (call_ok HStop s1 Hi2). unfold run_hook, mbind, M_bind. destruct (call HStop s1) as [[a|e] s2]; simpl.
    + by eapply after_trans.
    + destruct call_ok. split; [by eapply after_trans|done].
  - apply (Hend s1 []); try done; [by rewrite app_nil_r|].
    apply (inv_own r (set_counted false) s _ q []); try done; [by rewrite app_nil_r|apply Hi|]. simpl.
    change (log s1) with (log s). rewrite Hu. simpl in E, Ha1. destruct (Z.ltb_spec 0 (active s)), (Z.ltb_spec 0 (active s - 1)); try done; lia.
Qed.

Lemma is_completed_spec r s : is_completed r s = false -> open r s.
Proof.
  unfold is_completed, request_at, open. intros E q Hq. rewrite Hq in E. by apply bool_decide_eq_false_1 in E.
Qed.

(** A program that brings the request [r] to its end *)
Definition ending (r : nat) (s0 : store) (P : store -> Prop) (m : M (V := V) (W := W) unit) : Prop :=
  forall s, after (Some r) s0 s -> P s ->
    match m s with
    | (Ok _, s') => after None s0 s'
    | (Throw _, s') => after None s0 s' /\ ~ quiet (log s')
    end.

Lemma ending_bind {A} r s0 P (m : M A) (f : A -> M unit) Q :
  triple (Some r) s0 P m Q -> (forall a, ending r s0 (Q a) (f a)) -> ending r s0 P (a ← m; f a).
Proof.
  intros Hm Hf s Hs HP. specialize (Hm s Hs HP). unfold mbind, M_bind. destruct (m s) as [[a|e] s'].
  - destruct Hm as [Hs' HQ]. exact (Hf a s' Hs' HQ).
  - destruct Hm as [Hs' Hq]. split; [by eapply loud_any|done].
Qed.

Lemma callbacks_ending r ok text status globals s0 : open r s0 ->
  ending r s0 (stage r globals ok text status 0) (callbacks call r ok text status).
Proof using call_ok.
  intros Ho. unfold callbacks.
  apply (ending_bind _ _ _ _ _ (fun _ => stage r globals ok text status 1)); [by apply step_triple|intros _].
  apply (ending_bind _ _ _ _ _ (fun _ => stage r globals ok text status 2)); [by apply step_triple|intros _].
  apply (ending_bind _ _ _ _ _ (fun a s => stage r globals ok text status 2 s /\ a = globals)).
  { intros s Hs (q & Hq & Hst). split; [done|]. split; [by exists q|]. unfold fires, request_at. rewrite Hq. by destruct Hst as (_ & -> & _). }
  intros a. destruct globals; (intros s Hs [Hst ->]; revert s Hs Hst).
  - apply (ending_bind _ _ _ _ _ (fun _ => stage r true ok text status 3)); [by apply step_triple|intros _].
    apply (ending_bind _ _ _ _ _ (fun _ => stage r true ok text status 4)); [by apply step_triple|intros _].
    apply (ending_bind _ _ _ _ _ (fun _ => stage r true ok text status 5)); [by apply step_triple|intros _].
    intros s Hs Hst. by eapply count_down_after.
  - apply (ending_bind _ _ _ _ _ (fun _ => stage r false ok text status 2)); [apply (triple_ret _ _ () (fun _ => stage r false ok text status 2))|intros _].
    apply (ending_bind _ _ _ _ _ (fun _ => stage r false ok text status 3)); [by apply step_triple|intros _].
    intros s Hs Hst. by eapply after_ended.
Qed.

Lemma stage_update r f globals ok text status k s s0 : (forall q, same q (f q)) -> after (Some r) s0 s ->
  stage r globals ok text status k s -> stage r globals ok text status k (update r f s).
Proof. intros Hf Hs. assert (inv s) as Hi by apply Hs. apply stage_stable; [done|]. by apply after_update. Qed.

(** [done] after the guard *)
Lemma finish_ending P r status text responses header globals s0 : open r s0 ->
  ending r s0 (fun s => forall ok text status, stage r globals ok text status 0 s)
    (converted ← convert P r status responses header;
     head ← gets (fun s => match request_at r s with Some q => head_request (opts q) | None => false end);
     let '(isSuccess, statusText) := verdict status text head converted in
     let status := if is_success status then status else Z.max 0 status in
     modify (update r (set_status status));;
     callbacks call r isSuccess statusText status).
Proof using call_ok.
  intros Ho. set (Q := fun s => forall ok text status, stage r globals ok text status 0 s).
  assert (stable Q) as HQ by (intros s s' Hi Ha HP ok t st; by eapply stage_stable).
  apply (ending_bind _ _ _ _ _ (fun _ => Q)); [apply triple_nested; [apply convert_nested|done]|intros x].
  apply (ending_bind _ _ _ _ _ (fun _ => Q)); [by apply triple_nested; [apply nested_gets|]|intros b].
  destruct (verdict status text b x) as [ok t]. cbv zeta. set (st := if is_success status then _ else _).
  apply (ending_bind _ _ _ _ _ (fun _ => stage r globals ok t st 0)); [|intros _; by apply callbacks_ending].
  apply (triple_pre _ _ _ (stage r globals ok t st 0)); [by intros s HP|].
  apply triple_nested; [by apply nested_update|apply stage_stable].
Qed.

Lemma alter_none {A} (f : A -> A) (r : nat) (l : list A) : l !! r = None -> alter f r l = l.
Proof.
  intros Hl. apply list_eq. intros i. destruct (decide (i = r)) as [->|Hne]; [by rewrite list_lookup_alter_eq, Hl|by rewrite list_lookup_alter_ne].
Qed.

(** [done] is code like any other for the requests that it is not about, and ends the one
    that it is about, if that is open. *)
Lemma finish_nested P r status text responses header : nested (finish P call r status text responses header).
Proof using call_ok.
  intros s Hi. unfold finish. unfold mbind at 1, M_bind at 1, gets at 1. destruct (is_completed r s) eqn:Ec; [by apply after_refl|].
  pose proof (is_completed_spec r s Ec) as Ho.
  unfold mbind at 1, M_bind at 1, modify at 1. cbv beta iota. set (f := fun q : request => set_transport None _). set (s1 := update r f s).
  destruct (requests s !! r) as [q|] eqn:Hq.
  - destruct (inv_request _ Hi r q Hq) as [Hcf Hok]. rewrite decide_False in Hok by (by apply Ho). destruct Hok as [Ht Hfc].
    assert (counted q = fireGlobals q) as Ecf.
    { destruct (counted q), (fireGlobals q); try done; [by rewrite Hcf|by rewrite <- Hfc]. }
    assert (requests s1 !! r = Some (f q)) as Hq1 by (unfold s1; rewrite lookup_update, decide_True, Hq; done).
    apply (finish_ending P r status text responses header (fireGlobals q) s Ho).
    + apply (after_own (Some r) r f s s s1 q []); try done; [by apply after_refl|by rewrite app_nil_r| | |by left].
      * apply (inv_own r f s s1 q []); try done; [by rewrite app_nil_r| | |apply Hi|apply Hi].
        -- split; [done|]. rewrite decide_True by done. exists true, [], 0%Z, 0. by rewrite Ht, app_nil_r.
        -- simpl. rewrite (inv_active _ Hi). pose proof (number_alter f r _ q Hq) as Hn. simpl in Hn. lia.
      * intros q0 Hq0. rewrite Hq in Hq0. injection Hq0 as <-. split; [by apply Ho|done].
    + intros ok t st. exists (f q). do 4 (split; [done|]). simpl. by rewrite Ht, app_nil_r.
  - assert (after None s s1) as H1.
    { apply (after_tame s s1 []); [done|done| |by rewrite app_nil_r|done]. simpl. rewrite alter_none by done. apply Forall2_same_refl. }
    assert (convert P r status responses header s1 = throw TypeError s1) as E.
    { unfold convert, request_at, s1. by rewrite lookup_update, decide_True, Hq. }
    unfold mbind at 1, M_bind at 1. rewrite E. split; [|apply threw_loud].
    eapply after_trans; [exact H1|]. by apply after_note; [|apply H1].
Qed.

Lemma abort_nested P r text : nested (abort P call r text).
Proof using call_ok.
  unfold abort. apply nested_bind; [apply nested_gets|]. intros [q|]; [|apply nested_ret].
  apply nested_bind; [|intros _; apply finish_nested].
  destruct (transport q) as [[]|]; try apply nested_throw; try apply nested_ret. by apply run_hook_nested.
Qed.

(** ** Prefilters and transports *)

Definition nested_out {A} (s : store) (o : option (res A * list jstr * store)) : Prop :=
  match o with
  | Some (Ok _, _, s') => after None s s'
  | Some (Throw _, _, s') => after None s s' /\ ~ quiet (log s')
  | None => True
  end.

Lemma nested_out_trans {A} s s1 (o : option (res A * list jstr * store)) : after None s s1 -> nested_out s1 o -> nested_out s o.
Proof.
  intros H1. destruct o as [[[[a|e] i] s2]|]; simpl; [| |done].
  - intros. by eapply after_trans.
  - intros [H2 Hq]. split; [by eapply after_trans|done].
Qed.

Section inspection.
Variable run : nat -> M (V := V) (W := W) answer.
Variable unshift : jstr -> store -> store.
Hypothesis run_ok : forall f, nested (run f).
Hypothesis unshift_ok : forall t s, inv s -> after None s (unshift t s).

Lemma inspect_nested st seeking fuel t inspected s : inv s ->
  nested_out s (inspect run unshift st seeking fuel t inspected s).
Proof using run_ok unshift_ok.
  revert t inspected s. induction fuel as [|fuel IH]; intros t inspected s Hi; simpl; [done|].
  revert s Hi. generalize (t :: inspected) as insp. generalize (default [] (functions st t)) as fs.
  induction fs as [|f fs IHfs]; intros insp s Hi; simpl; [by apply after_refl|].
  specialize (run_ok f s Hi). destruct (run f s) as [[a|e] s1]; [|done].
  assert (inv s1) as Hi1 by apply run_ok.
  assert (nested_out s (inspect_each run unshift seeking (inspect run unshift st seeking fuel) fs insp s1)) as Hnext.
  { eapply nested_out_trans; [exact run_ok|]. by apply IHfs. }
  destruct seeking; [by destruct (truthy_answer a)|].
  destruct a as [t'| | | |]; try exact Hnext. destruct (was_inspected t' insp); [exact Hnext|].
  pose proof (unshift_ok t' s1 Hi1) as Hu. specialize (IH t' insp (unshift t' s1) (after_inv _ _ _ Hu)).
  assert (nested_out s (inspect run unshift st false fuel t' insp (unshift t' s1))) as Hr.
  { eapply nested_out_trans; [exact run_ok|]. by eapply nested_out_trans. }
  by destruct (inspect _ _ _ _ _ _ _ _) as [[[[x|e] i] s2]|].
Qed.
End inspection.

Lemma inspect_for_nested r seeking st : nested (inspect_for call r seeking st).
Proof using call_ok.
  intros s Hi. unfold inspect_for, inspectPrefiltersOrTransports.
  set (run := fun f => call _). set (un := fun t s => set_types r (t :: types_of r s) s).
  assert (forall f, nested (run f)) as Hrun by (intros f; apply hook_nested; by destruct seeking).
  assert (forall t s, inv s -> after None s (un t s)) as Hun by (intros t s' Hi'; apply after_update; [by intros q|done]).
  assert (after None s (note OutOfFuel s)) as Hfuel by (by apply after_note).
  pose proof (inspect_nested run un Hrun Hun st seeking (S (length st)) (default (js "undefined") (head (types_of r s))) [] s Hi) as H1.
  destruct (inspect run un st seeking _ _ [] s) as [[[[[a|]|e] i] s1]|]; simpl in H1; try done.
  - destruct (was_inspected (js "*") i); [done|].
    pose proof (inspect_nested run un Hrun Hun st seeking (S (length st)) (js "*") i s1 (after_inv _ _ _ H1)) as H2.
    apply (nested_out_trans _ _ _ H1) in H2.
    destruct (inspect run un st seeking _ _ i s1) as [[[[x|e] i2] s2]|]; simpl in H2; try done. split; [done|apply fuel_loud].
  - split; [done|apply fuel_loud].
Qed.

(** ** The beginning of a request *)

(** The request [r] is new since the run began, and not in the midst of its end. *)
Definition fresh (globals : bool) (r : nat) (s : store) : Prop :=
  exists q, requests s !! r = Some q /\ given q = false /\ fireGlobals q = globals /\ (quiet (log s) -> ~ unfinished r s).

Lemma fresh_stable globals r : stable (fresh globals r).
Proof.
  intros s s' Hi Ha (q & Hq & Hg & Hf & Hu). destruct (after_kept _ _ _ Ha r q Hq) as (q' & Hq' & Hg' & Hf' & _).
  exists q'. split; [done|]. split; [congruence|]. split; [congruence|]. intros Hl Hun.
  apply Hu; [eapply quiet_prefix; [apply Ha|done]|]. by apply (after_finished _ _ _ Ha Hl).
Qed.

Lemma open_not_unfinished r s : open r s -> ~ unfinished r s.
Proof. intros Ho (q & Hq & Hc & _). by destruct (Ho q Hq). Qed.

(** A step of a new request that is open *)
Lemma after_new r f s0 s s' q l : after None s0 s -> requests s0 !! r = None -> requests s !! r = Some q ->
  requests s' = alter f r (requests s) -> log s' = log s ++ l -> (forall r', trace r' l = []) -> inv s' ->
  completed (f q) <> Some true -> after None s0 s'.
Proof.
  intros Hs Hn Hq Er El Hl Hi Hc. apply (after_own None r f s0 s s' q l); try done; [by apply after_weaken|by intros q0; rewrite Hn|].
  right. intros _ Hu. exfalso. revert Hu. apply open_not_unfinished. intros q' Hq'. rewrite Er, list_lookup_alter_eq, Hq in Hq'.
  by injection Hq' as <-.
Qed.

Lemma count_up_triple r s0 : requests s0 !! r = None ->
  triple None s0 (fun s => fresh false r s /\ open r s) (count_up call r) (fun _ => fresh true r).
Proof using call_ok.
  intros Hn s Hs [(q & Hq & Hg & Hf & _) Ho]. assert (inv s) as Hi by apply Hs.
  set (f := fun q : request => set_counted true (set_fires true q)).
  set (s1 := set_active (active s + 1) (update r f s)).
  destruct (inv_request _ Hi r q Hq) as [Hcf Hok]. pose proof (Ho q Hq) as Hc. rewrite decide_False in Hok by done. destruct Hok as [Ht _].
  assert (counted q = false) as Hcn by (destruct (counted q); [by rewrite Hcf in Hf|done]).
  pose proof (number_alter f r _ q Hq) as Hnum. rewrite Hcn in Hnum. simpl in Hnum.
  pose proof (inv_active _ Hi) as Ha. pose proof (inv_under_way _ Hi) as Hu.
  assert (active s1 = Z.of_nat (number (requests s1))) as Ha1 by (unfold s1; simpl; lia).
  assert (ok_request r (f q) (log s)) as Hok by (split; [done|]; by rewrite decide_False).
  assert (forall s' l, requests s' = requests s1 -> log s' = log s ++ l -> (forall r', trace r' l = []) -> inv s' ->
    after None s0 s' /\ fresh true r s') as Hend.
  { intros s' l Er El Hl Hi'. split; [by apply (after_new r f s0 s s' q l)|].
    assert (requests s' !! r = Some (f q)) as Hq' by (rewrite Er; unfold s1; simpl; by rewrite list_lookup_alter_eq, Hq).
    exists (f q). do 3 (split; [done|]). intros _. apply open_not_unfinished. intros q1 Hq1. rewrite Hq' in Hq1. by injection Hq1 as <-. }
  change (count_up call r s) with ((if Z.eqb (active s) 0 then run_hook call HStart else mret ()) s1).
  destruct (Z.eqb_spec (active s) 0) as [E|E].
  - assert (inv (note (Ran HStart) s1)) as Hi2.
    { apply (inv_own r f s _ q [Ran HStart]); try done; simpl; rewrite turns_snoc.
      - rewrite alternates_snoc, (inv_turns _ Hi). fold (under_way (turns (log s))). rewrite Hu, E. done.
      - rewrite under_way_snoc, E. done. }
    destruct (Hend (note (Ran HStart) s1) [Ran HStart] eq_refl eq_refl (fun _ => eq_refl) Hi2) as [H2 H3].
    specialize (call_ok HStart s1 Hi2). unfold run_hook, mbind, M_bind. destruct (call HStart s1) as [[a|e] s2]; simpl.
    + split; [by eapply after_trans|by eapply fresh_stable].
    + destruct call_ok. split; [by eapply after_trans|done].
  - apply (Hend s1 []); try done; [by rewrite app_nil_r|].
    apply (inv_own r f s _ q []); try done; [by rewrite app_nil_r|apply Hi|]. simpl.
    change (log s1) with (log s). rewrite Hu. simpl in Ha1. destruct (Z.ltb_spec 0 (active s)), (Z.ltb_spec 0 (active s + 1)); try done; lia.
Qed.

(** The request is handed to its transport. *)
Lemma send_after P globals r t s0 s : requests s0 !! r = None -> after None s0 s -> fresh globals r s -> open r s ->
  match send P call r t s with
  | (Ok _, s') => after None s0 s'
  | (Throw _, s') => after None s0 s' /\ ~ quiet (log s')
  end.
Proof using call_ok.
  intros Hn Hs (q & Hq & Hg & Hf & _) Ho. assert (inv s) as Hi by apply Hs. unfold send. cbv zeta.
  set (f1 := set_completed (Some false)). set (s1 := update r f1 s).
  destruct (inv_request _ Hi r q Hq) as [Hcf Hok]. pose proof (Ho q Hq) as Hc. rewrite decide_False in Hok by done. destruct Hok as [Ht Hfc].
  assert (requests s1 !! r = Some (f1 q)) as Hq1 by (unfold s1; rewrite lookup_update, decide_True, Hq; done).
  assert (inv s1) as Hi1.
  { apply (inv_own r f1 s s1 q []); try done; [by rewrite app_nil_r| |apply Hi|apply Hi].
    simpl. rewrite (inv_active _ Hi). pose proof (number_alter f1 r _ q Hq) as Hnum. simpl in Hnum. lia. }
  assert (after None s0 s1) as H1 by (apply (after_new r f1 s0 s s1 q []); try done; by rewrite app_nil_r).
  assert (forall o : res unit * store, match o with (Ok _, s') => after None s0 s' | (Throw _, s') => after None s0 s' /\ ~ quiet (log s') end ->
    match (match o with (Ok _, s) => (Ok tt, s) | (Throw e, s) => if is_completed r s then (Throw e, s) else finish P call r (-1) [] None None s end)
    with (Ok _, s') => after None s0 s' | (Throw _, s') => after None s0 s' /\ ~ quiet (log s') end) as Hcatch.
  { intros [[a|e] s2]; [done|]. intros [H2 Hq2]. destruct (is_completed r s2); [done|].
    pose proof (finish_nested P r (-1) [] None None s2 (after_inv _ _ _ H2)) as H3.
    destruct (finish P call r (-1) [] None None s2) as [[b|e'] s3]; [by eapply after_trans|]. destruct H3. split; [by eapply after_trans|done]. }
  apply Hcatch. assert (after None s0 (throw (A := unit) TypeError s1).2 /\ ~ quiet (log (throw (A := unit) TypeError s1).2)) as Hthrow.
  { split; [|apply threw_loud]. eapply after_trans; [exact H1|]. by apply after_note. }
  destruct t as [t| | | |]; try exact Hthrow.
  set (s2 := update r set_given s1). change ((modify (update r set_given);; run_hook call (HSend r)) s1) with (run_hook call (HSend r) s2).
  assert (inv (note (Ran (HSend r)) s2)) as Hi2.
  { destruct Hi1 as [Ha1 Ht1 Hu1 Hr1 Hn1]. pose proof (number_alter set_given r _ _ Hq1) as Hnum. simpl in Hnum.
    assert (turns (log s ++ [Ran (HSend r)]) = turns (log s)) as Et by (rewrite turns_snoc; apply app_nil_r).
    split; simpl; rewrite ?Et; try done.
    - simpl in Ha1. lia.
    - intros r' q' Hq'. unfold ok_request. rewrite trace_snoc. destruct (decide (r' = r)) as [->|Hne].
      + rewrite list_lookup_alter_eq in Hq'. simpl in Hq1. rewrite Hq1 in Hq'. injection Hq' as <-. split; [done|]. rewrite decide_False by done.
        rewrite decide_True, Ht by done. unfold sent. simpl. by rewrite Hg.
      + rewrite list_lookup_alter_ne in Hq' by done. pose proof (Hr1 r' q' Hq') as Hr'. unfold ok_request in Hr'.
        change (log s1) with (log s) in Hr'. rewrite (decide_False (P := subject (HSend r) = Some r')), app_nil_r by (intros [= ?]; congruence). exact Hr'.
    - intros r' Hle. rewrite length_alter in Hle. rewrite trace_snoc. assert (r' <> r) as Hne.
      { intros ->. apply lookup_lt_Some in Hq1. simpl in Hq1. lia. }
      rewrite decide_False, app_nil_r by (intros [= ?]; congruence). by apply Hn1. }
  assert (after None s0 (note (Ran (HSend r)) s2)) as H2.
  { apply (after_step None r s0 s1); [by apply after_weaken|done|by exists [Ran (HSend r)]|..].
    - intros r' q' Hne Hq'. split; [unfold s2; simpl in *; by rewrite list_lookup_alter_ne|].
      cbn [log note]. rewrite trace_snoc, decide_False, app_nil_r by (intros [= ?]; congruence). done.
    - intros r' Hle. simpl. apply lookup_ge_None_2. by rewrite length_alter.
    - intros q0 Hq0. by rewrite Hn in Hq0.
    - right. intros _ Hu. exfalso. revert Hu. apply open_not_unfinished. intros q' Hq'. simpl in Hq'. rewrite list_lookup_alter_eq in Hq'.
      simpl in Hq1. rewrite Hq1 in Hq'. by injection Hq' as <-. }
  specialize (call_ok (HSend r) s2 Hi2). unfold run_hook, mbind, M_bind. destruct (call (HSend r) s2) as [[a|e] s3]; simpl.
  - by eapply after_trans.
  - destruct call_ok. split; [by eapply after_trans|done].
Qed.

Definition begun (r : nat) (s : store) : Prop := exists globals, fresh globals r s.

Lemma begun_stable r : stable (begun r).
Proof. intros s s' Hi Ha [g Hf]. exists g. by eapply fresh_stable. Qed.

(** The test for an early end *)
Lemma completed_triple x s0 r P : triple x s0 P (gets (is_completed r)) (fun b s => P s /\ (b = false -> open r s)).
Proof. intros s Hs HP. split; [done|]. split; [done|]. apply is_completed_spec. Qed.

Lemma prepare_triple P r o s0 : requests s0 !! r = None ->
  triple None s0 (fresh false r) (prepare P call r o) (fun _ => begun r).
Proof using call_ok.
  intros Hn. unfold prepare.
  apply (triple_bind _ _ _ _ _ (fun _ => fresh false r)); [apply triple_nested; [apply inspect_for_nested|apply fresh_stable]|intros _].
  eapply triple_bind; [apply completed_triple|]. intros [|].
  { intros s Hs [Hf _]. split; [done|by exists false]. }
  apply (triple_bind _ _ _ _ _ (fun _ => begun r)).
  { destruct (global o).
    - apply (triple_pre _ _ _ (fun s => fresh false r s /\ open r s)); [intros s [Hf Ho]; split; [done|by apply Ho]|].
      apply (triple_post _ _ _ _ (fun _ => fresh true r)); [by exists true|by apply count_up_triple].
    - intros s Hs [Hf _]. split; [done|by exists false]. }
  intros _. destruct (beforeSend o); [|apply (triple_ret _ _ true (fun _ => begun r))].
  apply triple_nested; [|apply begun_stable]. apply nested_bind; [by apply hook_nested|]. intros a.
  apply nested_bind; [apply nested_gets|]. intros b. apply nested_if; [|apply nested_ret].
  apply nested_bind; [apply abort_nested|]. intros _. apply nested_ret.
Qed.

Lemma new_after s q : inv s -> completed q = None -> given q = false -> fireGlobals q = false -> counted q = false ->
  after None s (set_requests (requests s ++ [q]) s) /\ fresh false (length (requests s)) (set_requests (requests s ++ [q]) s).
Proof.
  intros Hi Hc Hg Hf Hn. set (r := length (requests s)). set (s1 := set_requests (requests s ++ [q]) s).
  assert (requests s1 !! r = Some q) as Hq by (by apply list_lookup_middle).
  assert (open r s1) as Ho by (intros q' Hq'; rewrite Hq in Hq'; injection Hq' as <-; by rewrite Hc).
  split; [|exists q; do 3 (split; [done|]); intros _; by apply open_not_unfinished].
  assert (forall r', r' <> r -> requests s1 !! r' = requests s !! r') as Hne.
  { intros r' Hne. unfold s1. simpl. destruct (decide (r' < r)); [by apply lookup_app_l|].
    rewrite (lookup_ge_None_2 (requests s)) by (unfold r in *; lia). apply lookup_ge_None_2. rewrite length_app. simpl. unfold r in *. lia. }
  split.
  - destruct Hi as [Ha Ht Hu Hr Hno]. split; [|done|done|..].
    + simpl. unfold number in *. rewrite Ha, filter_app, length_app. rewrite (filter_cons_False _ q) by congruence. simpl. lia.
    + intros r' q' Hq'. destruct (decide (r' = r)) as [->|Hd]; [|rewrite Hne in Hq' by done; by apply Hr].
      rewrite Hq in Hq'. injection Hq' as <-. split; [congruence|]. rewrite decide_False by (rewrite Hc; done).
      unfold sent. rewrite Hg, Hf. split; [by apply Hno|done].
    + intros r' Hle. apply Hno. simpl in Hle. rewrite length_app in Hle. lia.
  - done.
  - intros r' q' Hq'. exists q'. split; [|by repeat split]. rewrite Hne; [done|]. intros ->. apply lookup_lt_Some in Hq'. unfold r in Hq'. lia.
  - intros _ r' _ (q' & Hq' & Hc' & Hu). destruct (decide (r' = r)) as [->|Hd]; [by destruct (Ho q' Hq')|]. rewrite Hne in Hq' by done. by exists q'.
Qed.

Lemma ajax_nested P o : nested (ajax P call o).
Proof using call_ok.
  intros s Hi. unfold ajax. unfold mbind at 1, M_bind at 1, gets at 1. set (r := length (requests s)).
  unfold mbind at 1, M_bind at 1, modify at 1. cbv beta iota. set (q := {| opts := o; completed := None |}).
  destruct (new_after s q Hi eq_refl eq_refl eq_refl eq_refl) as [H1 Hf]. set (s1 := set_requests _ s) in *. fold r in Hf.
  assert (requests s !! r = None) as Hn by (by apply lookup_ge_None_2).
  enough (triple None s (fresh false r)
    (go ← prepare P call r o;
     if (go : bool) then
       modify (update r (set_strAbort (js "abort")));;
       t ← inspect_for call r true (transports P);
       modify (update r (set_transport t));;
       match t with
       | None => finish P call r (-1) (js "No Transport") None None
       | Some t =>
           globals ← gets (fires r);
           (if (globals : bool) then run_hook call (HAjaxSend r) else mret ());;
           aborted ← gets (is_completed r);
           if (aborted : bool) then mret () else
           (if async o && Z.ltb 0 (timeout o) then modify (update r (set_timer true)) else mret ());;
           send P call r t
       end
     else mret ()) (fun _ _ => True)) as Ht.
  { specialize (Ht s1 H1 Hf). match type of Ht with match ?x with _ => _ end =>
      change (match x with (Ok _, s') => after None s s' | (Throw _, s') => after None s s' /\ ~ quiet (log s') end);
      destruct x as [[a|e] s2] end; [by destruct Ht|done]. }
  clear s1 H1 Hf.
  eapply triple_bind; [by apply prepare_triple|]. intros [|]; [|by intros s1 Hs1 _].
  apply (triple_bind _ _ _ _ _ (fun _ => begun r)); [apply triple_nested; [by apply nested_update|apply begun_stable]|intros _].
  apply (triple_bind _ _ _ _ _ (fun _ => begun r)); [apply triple_nested; [apply inspect_for_nested|apply begun_stable]|intros t].
  apply (triple_bind _ _ _ _ _ (fun _ => begun r)); [apply triple_nested; [by apply nested_update|apply begun_stable]|intros _].
  destruct t as [t|]; [|apply (triple_post _ _ _ _ (fun _ => begun r)); [done|]; apply triple_nested; [apply finish_nested|apply begun_stable]].
  apply (triple_bind _ _ _ _ _ (fun _ => begun r)); [apply triple_nested; [apply nested_gets|apply begun_stable]|intros g].
  apply (triple_bind _ _ _ _ _ (fun _ => begun r)).
  { apply triple_nested; [|apply begun_stable]. apply nested_if; [by apply run_hook_nested|apply nested_ret]. }
  intros _. eapply triple_bind; [apply completed_triple|]. intros [|]; [by intros s1 Hs1 _|].
  apply (triple_bind _ _ _ _ _ (fun _ s => begun r s /\ open r s)).
  - intros s1 Hs1 [Hb Ho]. specialize (Ho eq_refl). destruct (async o && Z.ltb 0 (timeout o)); [|done].
    assert (after None s1 (update r (set_timer true) s1)) as Ha by (apply after_update; [by intros q'|apply Hs1]).
    simpl. split; [by eapply after_trans|]. split; [by eapply begun_stable; [apply Hs1|exact Ha|]|].
    intros q' Hq'. rewrite lookup_update, decide_True in Hq' by done. destruct (requests s1 !! r) as [q1|] eqn:E; [|done].
    injection Hq' as <-. by apply (Ho q1).
  - intros _ s1 Hs1 [[g' Hf] Ho]. pose proof (send_after P g' r t s s1 Hn Hs1 Hf Ho) as H2.
    destruct (send P call r t s1) as [[b|e] s2]; [by split|done].
Qed.

Lemma run_act_nested P a : nested (run_act P call a).
Proof using call_ok.
  destruct a as [o|r text|r status text responses header|r|e]; simpl.
  - apply ajax_nested.
  - apply abort_nested.
  - apply nested_bind; [apply nested_gets|]. intros [q|]; [|apply nested_ret]. apply nested_if; [apply finish_nested|apply nested_ret].
  - apply nested_bind; [apply nested_gets|]. intros [q|]; [|apply nested_ret]. apply nested_if; [apply abort_nested|apply nested_ret].
  - apply nested_throw.
Qed.

Lemma run_acts_nested P l : nested (run_acts P call l).
Proof using call_ok.
  induction l as [|a l IH]; simpl; [apply nested_ret|]. apply nested_bind; [apply run_act_nested|]. by intros _.
Qed.

End call.


(** ** A page *)

Lemma call_nested P fuel h s : inv (note (Ran h) s) ->
  match call P fuel h s with
  | (Ok _, s') => after None (note (Ran h) s) s'
  | (Throw _, s') => after None (note (Ran h) s) s' /\ ~ quiet (log s')
  end.
Proof.
  revert h s. induction fuel as [|fuel IH]; intros h s Hi; cbn [call]; cbv zeta.
  - split; [by apply after_note|apply fuel_loud].
  - destruct (code P h _) as [acts a]. apply (nested_bind (run_acts P (call P fuel) acts)); [by apply run_acts_nested| |done].
    intros _. apply nested_ret.
Qed.

Lemma start_inv w : inv (start w).
Proof. by split. Qed.

Lemma run_page_after P fuel l s0 s : after None s0 s -> after None s0 (run_page P fuel l s).
Proof.
  revert s. induction l as [|a l IH]; intros s Hs; simpl; [done|]. apply IH.
  pose proof (run_act_nested (call P fuel) (call_nested P fuel) P a s (after_inv _ _ _ Hs)) as Ha.
  destruct (run_act P (call P fuel) a s) as [[b|e] s']; simpl; [by eapply after_trans|]. destruct Ha. by eapply after_trans.
Qed.

End proofs.

End JqAjaxProofs.
