(* ===== verification/JqAjaxEnds.v ===== *)
(** The theorems on the life of ajax requests, from the invariants of [JqAjaxProofs]. *)

From S2P Require Import Prelude Regex JqCallbacks JqConvert JqTransports JqAjax JqAjaxProofs.

Module JqAjaxEnds.
Import JqConvert JqTransports.
Export JqAjaxProofs.

Section page.
Context `{Unicode} {V W : Type}.
Implicit Types (P : page V W) (s : astore V W) (q : request V).

Lemma page_after P fuel commands w : after None (start w) (run_page P fuel commands (start w)).
Proof. apply run_page_after, after_refl, start_inv. Qed.

Lemma page_finished P fuel commands w r : let s := run_page P fuel commands (start w) in
  quiet (log s) -> ~ unfinished r s.
Proof.
  intros s Hq Hu. destruct (after_finished _ _ _ (page_after P fuel commands w) Hq r) as (q & Hr & _); [done|done|].
  by simpl in Hr.
Qed.

(** A request under way: it is to fire global events and has not ended. *)
Definition live (q : request V) : Prop := fireGlobals q = true /\ completed q <> Some true.

#[global] Instance live_dec q : Decision (live q).
Proof. unfold live. apply _. Defined.

Lemma number_live (l : list (request V)) : (forall q, q ∈ l -> counted q = true <-> live q) -> number l = length (base.filter live l).
Proof.
  intros Hl. unfold number. f_equal. induction l as [|q l IH]; [done|].
  pose proof (Hl q ltac:(left)) as Hq. specialize (IH (fun q' Hq' => Hl q' ltac:(by right))).
  destruct (decide (live q)) as [Hv|Hv].
  - rewrite (filter_cons_True _ q), (filter_cons_True live q) by tauto. by rewrite IH.
  - rewrite (filter_cons_False _ q), (filter_cons_False live q) by tauto. done.
Qed.

Lemma page_counted P fuel commands w : let s := run_page P fuel commands (start w) in
  quiet (log s) -> forall q, q ∈ requests s -> counted q = true <-> live q.
Proof.
  intros s Hq q [r Hr]%list_elem_of_lookup. pose proof (after_inv _ _ _ (page_after P fuel commands w)) as Hi. fold s in Hi.
  destruct (inv_request _ Hi r q Hr) as [Hcf Hok]. unfold live. case_decide as Hc.
  - split; [|by intros []]. intros Hn. exfalso. apply (page_finished P fuel commands w r Hq). exists q. split; [done|]. split; [done|].
    intros [Hn' _]. congruence.
  - destruct Hok as [_ Hfc]. split; [|by intros []; auto]. intros Hn. split; [by apply Hcf|done].
Qed.

(** C12. A request ends once, in order.  Whatever a page does at its hooks (also starting
    requests in requests, aborting them from everywhere and throwing), a request is handed
    to its transport at most once and not after its end; then come, each at most once and
    in this order, the callbacks of the deferred, those of the status, the global event
    for the same verdict, [complete] and [ajaxComplete]; as long as nothing has thrown, a
    request that has ended has had all of them. *)
Theorem request_ends_once P fuel commands w r q :
  let s := run_page P fuel commands (start w) in
  requests s !! r = Some q ->
  exists ok text status k,
    trace r (log s) = sent r q ++ take k (ends r (fireGlobals q) ok text status) /\
    (completed q <> Some true -> k = 0) /\
    (quiet (log s) -> completed q = Some true -> length (ends r (fireGlobals q) ok text status) <= k).
Proof.
  intros s Hr. pose proof (after_inv _ _ _ (page_after P fuel commands w)) as Hi. fold s in Hi.
  destruct (inv_request _ Hi r q Hr) as [Hcf Hok]. case_decide as Hc.
  - destruct Hok as (ok & text & status & k & Ht). exists ok, text, status, k. split; [done|]. split; [done|]. intros Hq _.
    destruct (decide (length (ends r (fireGlobals q) ok text status) <= k)) as [|Hlt]; [done|exfalso].
    apply (page_finished P fuel commands w r Hq). exists q. split; [done|]. split; [done|]. intros (_ & ok' & text' & status' & Ht').
    fold s in Ht'. rewrite Ht in Ht'. apply app_inv_head in Ht'. apply (f_equal length) in Ht'. rewrite length_take, !ends_length in *. lia.
  - destruct Hok as [Ht _]. exists true, [], 0%Z, 0. rewrite Ht. simpl. by rewrite app_nil_r.
Qed.

(** C13. The counter of requests.  Whatever a page does, [ajaxStart] and [ajaxStop]
    alternate, beginning with [ajaxStart], and the last of them was [ajaxStart] exactly
    if the counter [active] is positive; it is never negative.  As long as nothing has
    thrown, [active] is the number of requests with global events that have not ended,
    so that [ajaxStop] comes when the last one ends. *)
Theorem active_counts P fuel commands w :
  let s := run_page P fuel commands (start w) in
  alternates false (turns (log s)) = true /\ under_way (turns (log s)) = Z.ltb 0 (active s) /\ (0 <= active s)%Z /\
  (quiet (log s) -> active s = Z.of_nat (length (base.filter live (requests s)))).
Proof.
  intros s. pose proof (after_inv _ _ _ (page_after P fuel commands w)) as Hi. fold s in Hi.
  split; [apply Hi|]. split; [apply Hi|]. rewrite (inv_active _ Hi). split; [lia|]. intros Hq. f_equal.
  apply number_live. by apply page_counted.
Qed.

End page.

(** * Pages *)

Definition plain_settings : settings :=
  {| dataTypes := [star]; dataType := None; mimeType := None; contents := []; responseFields := []; converters := [];
     dataFilter := None; throws := false |}.
Definition plain (before : bool) : options :=
  {| conversions := plain_settings; global := true; head_request := false; beforeSend := before; async := true; timeout := 0 |}.

(** One transport, registered for every type; [code] besides its answer *)
Definition simple_page (code : hook -> list happening -> list (act nat)) : page nat unit :=
  {| prefilters := []; transports := [(star, [7])]; apply := fun _ v w => (Ok v, w); filter_data := fun _ v _ w => (Ok v, w);
     inherited := fun _ => 0; undefined := 0; noop := 0; convert_fuel := 9;
     code := fun h l => (code h l, match h with HFactory _ _ => ATransport | _ => AUndefined end) |}.

(** The transport of the first request answers when the second one, which it aborts,
    has been sent. *)
Definition answering (h : hook) (l : list happening) : list (act nat) :=
  match h with HSend 1 => [AAbort 1 []; ADone 0 200 (js "OK") None None] | _ => [] end.

Lemma request_ends_once_witness :
  let s := run_page (simple_page answering) 9 [AAjax (plain false); AAjax (plain false)] (start tt) in
  exists q, requests s !! 0 = Some q /\
    exists ok text status k, trace 0 (log s) = sent 0 q ++ take k (ends 0 (fireGlobals q) ok text status) /\
      trace 0 (log s) = HSend 0 :: ends 0 true true (js "success") 200.
Proof.
  intros s. assert (trace 0 (log s) = HSend 0 :: ends 0 true true (js "success") 200) as E by (vm_compute; reflexivity).
  destruct (requests s !! 0) as [q|] eqn:Hq; [|vm_compute in Hq; discriminate Hq]. exists q. split; [reflexivity|].
  destruct (request_ends_once (simple_page answering) 9 [AAjax (plain false); AAjax (plain false)] tt 0 q Hq)
    as (ok & text & status & k & Ht & _). exists ok, text, status, k. split; [exact Ht|exact E].
Defined.

(** An exception in [beforeSend] is not counted down: [active] stays positive after all
    other requests have ended, and [ajaxStop] never comes. *)
Example beforeSend_leaks :
  let throwing := fun h (_ : list happening) => match h with HBeforeSend _ => [AThrow TypeError : act nat] | _ => [] end in
  let s := run_page (simple_page throwing) 9 [AAjax (plain true); AAjax (plain false); AAbort 1 []] (start tt) in
  active s = 1%Z /\ turns (log s) = [true] /\ trace 0 (log s) = [].
Proof. vm_compute. by repeat split. Qed.

(** A request that is aborted while its transport is made still fires [ajaxSend], after
    [ajaxComplete]. *)
Example send_after_complete :
  let aborting := fun h (_ : list happening) => match h with HFactory r _ => [AAbort r [] : act nat] | _ => [] end in
  let s := run_page (simple_page aborting) 9 [AAjax (plain false)] (start tt) in
  drop 5 (log s) = [Ran (HComplete 0 (js "abort")); Ran (HAjaxComplete 0); Ran HStop; Ran (HAjaxSend 0)].
Proof. vm_compute. done. Qed.

End JqAjaxEnds.
