(* ===== verification/SzOrder.v ===== *)
(** Document order in Sizzle: [siblingCheck] (lines 973 to 992), the two comparisons
    [sortOrder] (lines 1476 to 1598) and [uniqueSort] (lines 1686 to 1714).

    The first comparison asks the browser: [compareDocumentPosition] is an argument.
    The second one, for browsers without it, walks the tree.  [Array.prototype.sort] is
    a stable insertion sort.  Left out: the property [sourceIndex] of old browsers,
    which others do not have, and objects that are no nodes. *)

From S2P Require Import Prelude SzMatch JqEvent.
Import SzMatch.

Module SzOrder.

Section order.
Variable d : dom.
Variable fuel : nat.
Variables document preferredDoc : nat.
Variable ownerDocument : nat -> option nat.
Variable compareDocumentPosition : nat -> nat -> N.
Variables hasCompare sortDetached detectDuplicates sortStable : bool.

(** The loop over the next siblings of [cur]: is [b] one of them? *)
Fixpoint follows (fuel : nat) (cur b : nat) : bool :=
  match fuel, nextSibling d cur with
  | S fuel', Some c => if decide (c = b) then true else follows fuel' c b
  | _, _ => false
  end.

(** [siblingCheck(a, b)]; either may be undefined. *)
Definition siblingCheck (a b : option nat) : Z :=
  match a, b with
  | Some x, Some y => if follows fuel x y then -1 else 1
  | Some _, None => 1
  | None, _ => -1
  end.

(** [while ((cur = cur.parentNode)) ap.unshift(cur)] *)
Fixpoint ancestors (fuel : nat) (cur : nat) (ap : list nat) : list nat :=
  match fuel, parent_of d cur with
  | S fuel', Some p => ancestors fuel' p (p :: ap)
  | _, _ => ap
  end.

(** [while (ap[i] === bp[i]) i++]: how far it gets, and the entries there; [None] when
    both lists end, where the loop goes on forever. *)
Fixpoint discrepancy (ap bp : list nat) : option (nat * option nat * option nat) :=
  match ap, bp with
  | x :: ap', y :: bp' =>
      if decide (x = y) then match discrepancy ap' bp' with Some (i, a, b) => Some (S i, a, b) | None => None end
      else Some (0, Some x, Some y)
  | x :: _, [] => Some (0, Some x, None)
  | [], y :: _ => Some (0, None, Some y)
  | [], [] => None
  end.

(** [indexOf(sortInput, a) - indexOf(sortInput, b)], or 0 *)
Definition position_in (l : list nat) (a : nat) : Z :=
  match list_find (fun x => x = a) l with Some (i, _) => Z.of_nat i | None => -1 end.
Definition original_order (sortInput : option (list nat)) (a b : nat) : Z :=
  match sortInput with Some l => position_in l a - position_in l b | None => 0 end.

(** Is [a] the document, or in the preferred one? *)
Definition related (a : nat) : bool :=
  bool_decide (a = document) || (bool_decide (ownerDocument a = Some preferredDoc) && JqEvent.contains d fuel preferredDoc a).

(** [sortOrder] on two different nodes; [None] for the endless loop *)
Definition compare_positions (sortInput : option (list nat)) (a b : nat) : Z :=
  let compare :=
    if decide (default a (ownerDocument a) = default b (ownerDocument b)) then compareDocumentPosition a b else 1%N in
  if N.testbit compare 0 || (negb sortDetached && N.eqb (compareDocumentPosition b a) compare) then
    if related a then -1 else if related b then 1 else original_order sortInput a b
  else if N.testbit compare 2 then -1 else 1.

Definition compare_ancestors (sortInput : option (list nat)) (a b : nat) : option Z :=
  match parent_of d a, parent_of d b with
  | Some aup, Some bup =>
      if decide (aup = bup) then Some (siblingCheck (Some a) (Some b))
      else
        match discrepancy (ancestors fuel a [a]) (ancestors fuel b [b]) with
        | Some (S _, x, y) => Some (siblingCheck x y)
        | Some (O, x, y) =>
            Some (if decide (x = Some preferredDoc) then -1 else if decide (y = Some preferredDoc) then 1 else 0)
        | None => None
        end
  | aup, bup =>
      Some (if decide (a = document) then -1 else if decide (b = document) then 1
            else match aup, bup with Some _, _ => -1 | _, Some _ => 1 | _, _ => original_order sortInput a b end)
  end%Z.

(** The answer, and whether the nodes are the same *)
Definition sortOrder (sortInput : option (list nat)) (a b : nat) : option (Z * bool) :=
  if decide (a = b) then Some (0%Z, true)
  else if hasCompare then Some (compare_positions sortInput a b, false)
  else match compare_ancestors sortInput a b with Some n => Some (n, false) | None => None end.

(** * Sorting *)

Section sort.
Variable compare : nat -> nat -> option (Z * bool).

(** [x] goes behind the last entry that is not greater; the entries before it are
    reversed.  The flag is [hasDuplicate]. *)
Fixpoint insert_entry (x : nat) (before : list nat) (flag : bool) : option (list nat * bool) :=
  match before with
  | [] => Some ([x], flag)
  | y :: before' =>
      match compare y x with
      | Some (n, same) =>
          if Z.ltb 0 n then
            match insert_entry x before' (flag || same) with Some (l, flag) => Some (y :: l, flag) | None => None end
          else Some (x :: before, flag || same)
      | None => None
      end
  end.

Fixpoint sort_entries (l before : list nat) (flag : bool) : option (list nat * bool) :=
  match l with
  | [] => Some (rev before, flag)
  | x :: l' => match insert_entry x before flag with Some (before, flag) => sort_entries l' before flag | None => None end
  end.

End sort.

(** The indices [i] of entries that are the same as the one behind, as the loop counts
    them: [i] is that of the one behind. *)
Fixpoint duplicates (i : nat) (results : list nat) : list nat :=
  match results with
  | x :: ((y :: _) as l) => if decide (x = y) then S i :: duplicates (S i) l else duplicates (S i) l
  | _ => []
  end.

(** [while (j--) results.splice(duplicates[j], 1)], for the reversed list *)
Fixpoint splice_all (dups : list nat) (results : list nat) : list nat :=
  match dups with [] => results | i :: dups' => splice_all dups' (delete i results) end.

(** [Sizzle.uniqueSort(results)] *)
Definition uniqueSort (results : list nat) : option (list nat) :=
  let sortInput := if sortStable then None else Some results in
  match sort_entries (sortOrder sortInput) results [] (negb detectDuplicates) with
  | Some (results, hasDuplicate) =>
      Some (if hasDuplicate : bool then splice_all (rev (duplicates 0 results)) results else results)
  | None => None
  end.

End order.

End SzOrder.
