(* ===== verification/SzOrderProofs.v ===== *)
(** Document order: both comparisons of Sizzle order the nodes of a document as a walk
    through it meets them, and [uniqueSort] sorts by it and removes every duplicate.

    The place of a node is its path, the indices of the children that lead to it from
    the root; the order of the document is the lexicographic order of paths. *)

From S2P Require Import Prelude Regex SzTokens SzMatch SzReference SzWalks SzSelect SzOrder.
From stdpp Require Import sorting.

Module SzOrderProofs.
Import SzMatch SzReference SzWalks SzSelect.
Export SzOrder.

(** * Paths *)

Fixpoint lex (a b : list nat) : comparison :=
  match a, b with
  | [], [] => Eq
  | [], _ :: _ => Lt
  | _ :: _, [] => Gt
  | i :: a', j :: b' => match Nat.compare i j with Eq => lex a' b' | c => c end
  end.

(** The number that a comparison answers *)
Definition sign (c : comparison) : Z := match c with Lt => -1 | Eq => 0 | Gt => 1 end.

Lemma lex_refl a : lex a a = Eq.
Proof. induction a as [|i a IH]; simpl; [done|]. by rewrite Nat.compare_refl. Qed.
Lemma lex_eq a b : lex a b = Eq -> a = b.
Proof.
  revert b. induction a as [|i a IH]; intros [|j b]; simpl; try done.
  destruct (Nat.compare_spec i j) as [->| |]; try done. intros H. by rewrite (IH b).
Qed.
Lemma lex_app p a b : lex (p ++ a) (p ++ b) = lex a b.
Proof. induction p as [|i p IH]; simpl; [done|]. by rewrite Nat.compare_refl. Qed.
Lemma lex_antisym a b : lex b a = CompOpp (lex a b).
Proof.
  revert b. induction a as [|i a IH]; intros [|j b]; simpl; try done. rewrite (Nat.compare_antisym i j).
  destruct (Nat.compare i j); simpl; [apply IH|done..].
Qed.
Lemma lex_trans a b c : lex a b = Lt -> lex b c = Lt -> lex a c = Lt.
Proof.
  revert b c. induction a as [|i a IH]; intros [|j b] [|k c]; simpl; try done.
  destruct (Nat.compare_spec i j) as [->|Hij|], (Nat.compare_spec j k) as [->|Hjk|]; try done.
  - apply IH.
  - intros _ _. by rewrite (proj2 (Nat.compare_lt_iff i k)).
  - intros _ _. rewrite (proj2 (Nat.compare_lt_iff i k)); [done|lia].
Qed.

Section tree.
Context {d : dom} {depth : nat -> nat} {fuel : nat} (T : tree d depth fuel).

Fixpoint path (n : nat) (e : nat) : list nat :=
  match n, parent_of d e, place d e with
  | S n', Some p, Some (_, i) => path n' p ++ [i]
  | _, _, _ => []
  end.

(** The node at the end of a path, and all nodes on the way *)
Fixpoint descend (r : nat) (l : list nat) : option nat :=
  match l with [] => Some r | i :: l' => c ← children_of d r !! i; descend c l' end.
Fixpoint visited (r : nat) (l : list nat) : list nat :=
  r :: match l with
       | [] => []
       | i :: l' => match children_of d r !! i with Some c => visited c l' | None => [] end
       end.

Lemma descend_snoc r l i : descend r (l ++ [i]) = p ← descend r l; children_of d p !! i.
Proof.
  revert r. induction l as [|j l IH]; intros r; simpl; [by destruct (children_of d r !! i)|].
  destruct (children_of d r !! j) as [c|]; simpl; [apply IH|done].
Qed.

Lemma visited_snoc r l i p c : descend r l = Some p -> children_of d p !! i = Some c ->
  visited r (l ++ [i]) = visited r l ++ [c].
Proof.
  revert r. induction l as [|j l IH]; intros r Hd Hc; simpl in *; [injection Hd as ->; by rewrite Hc|].
  destruct (children_of d r !! j) as [x|]; simpl in *; [|done]. by rewrite (IH x Hd Hc).
Qed.

Definition root (r : nat) : Prop := parent_of d r = None.

(** The root above a node, and how to get back *)
Lemma above n e acc : depth e <= n -> exists r, root r /\ descend r (path n e) = Some e /\
  forall m, depth e <= m -> ancestors d m e (e :: acc) = visited r (path n e) ++ acc.
Proof using T.
  revert e acc. induction n as [|n IH]; intros e acc Hn.
  - assert (parent_of d e = None) as Hp.
    { destruct (parent_of d e) as [p|] eqn:E; [|done]. pose proof (parent_depth _ _ _ T _ _ E). lia. }
    exists e. split; [done|]. split; [done|]. intros [|m] _; simpl; [done|by rewrite Hp].
  - simpl. destruct (parent_of d e) as [p|] eqn:Hp.
    + destruct (place_child T e p Hp) as (i & -> & Hi). pose proof (parent_depth _ _ _ T _ _ Hp) as Hlt.
      destruct (IH p (e :: acc)) as (r & Hr & Hd & Ha); [lia|]. exists r. split; [done|]. split.
      * by rewrite descend_snoc, Hd.
      * intros [|m] Hm; [lia|]. simpl. rewrite Hp, Ha by lia. rewrite (visited_snoc r _ i p e Hd Hi). by rewrite <- app_assoc.
    + exists e. split; [done|]. split; [done|]. intros [|m] _; simpl; [done|by rewrite Hp].
Qed.

Lemma path_le n e m : depth e <= n -> depth e <= m -> path n e = path m e.
Proof using T.
  revert e m. induction n as [|n IH]; intros e m Hn Hm.
  - destruct (parent_of d e) as [p|] eqn:E; [pose proof (parent_depth _ _ _ T _ _ E); lia|]. destruct m; simpl; [done|by rewrite E].
  - simpl. destruct (parent_of d e) as [p|] eqn:E; [|destruct m; simpl; [done|by rewrite E]].
    pose proof (parent_depth _ _ _ T _ _ E). destruct m as [|m]; [lia|]. simpl. rewrite E.
    destruct (place d e) as [[cs i]|]; [|done]. rewrite (IH p m); [done|lia|lia].
Qed.

(** ** Siblings *)

Lemma follows_correct p n i j x y : children_of d p !! i = Some x -> children_of d p !! j = Some y ->
  length (children_of d p) <= n + i -> i <> j -> follows d n x y = Nat.ltb i j.
Proof using T.
  revert i x. induction n as [|n IH]; intros i x Hi Hj Hn Hne.
  - apply lookup_lt_Some in Hi. lia.
  - simpl. assert (parent_of d x = Some p) as Hp by (apply (child_parent _ _ _ T); by eapply list_elem_of_lookup_2).
    rewrite (next_at T x p i Hp Hi). destruct (children_of d p !! S i) as [c|] eqn:Ec.
    + case_decide as E.
      * subst c. assert (S i = j) as <- by (by eapply (NoDup_lookup _ _ _ y); [apply (children_NoDup _ _ _ T)|..]).
        symmetry. apply Nat.ltb_lt. lia.
      * assert (S i <> j) as Hne' by (intros <-; congruence). rewrite (IH (S i) c Ec Hj) by (lia || done).
        destruct (Nat.ltb_spec (S i) j), (Nat.ltb_spec i j); try done; lia.
    + symmetry. apply Nat.ltb_ge. apply lookup_lt_Some in Hj. apply lookup_ge_None in Ec. lia.
Qed.

Lemma siblings p i j x y : children_of d p !! i = Some x -> children_of d p !! j = Some y -> i <> j ->
  siblingCheck d fuel (Some x) (Some y) = sign (Nat.compare i j).
Proof using T.
  intros Hi Hj Hne. unfold siblingCheck. rewrite (follows_correct p fuel i j x y Hi Hj); [|pose proof (children_fuel _ _ _ T p); lia|done].
  destruct (Nat.ltb_spec i j), (Nat.compare_spec i j); try done; lia.
Qed.

(** The first difference of two ways down *)
Lemma diverge r a b x y : descend r a = Some x -> descend r b = Some y -> x <> y ->
  exists i u v, discrepancy (visited r a) (visited r b) = Some (S i, u, v) /\ siblingCheck d fuel u v = sign (lex a b).
Proof using T.
  revert r b. induction a as [|i a IH]; intros r [|j b] Ha Hb Hne; simpl in Ha, Hb.
  - congruence.
  - destruct (children_of d r !! j) as [c|] eqn:E; [|done]. exists 0, None, (Some c). simpl. rewrite decide_True, E by done. by destruct b.
  - destruct (children_of d r !! i) as [c|] eqn:E; [|done]. exists 0, (Some c), None. simpl. rewrite decide_True, E by done. by destruct a.
  - destruct (children_of d r !! i) as [c|] eqn:Ei; [|done]. destruct (children_of d r !! j) as [c'|] eqn:Ej; [|done]. simpl in Ha, Hb.
    cbn [visited discrepancy]. rewrite decide_True, Ei, Ej by done. destruct (decide (i = j)) as [->|Hij].
    + rewrite Ei in Ej. injection Ej as <-. destruct (IH c b Ha Hb Hne) as (k & u & v & Hd & Hs). rewrite Hd.
      exists (S k), u, v. split; [done|]. simpl. by rewrite Nat.compare_refl.
    + assert (c <> c') as Hc by (intros <-; apply Hij; by eapply (NoDup_lookup _ _ _ c); [apply (children_NoDup _ _ _ T)|..]).
      exists 0, (Some c), (Some c'). split.
      * destruct a, b; cbn [visited discrepancy]; by rewrite decide_False.
      * rewrite (siblings r i j c c' Ei Ej Hij). simpl. by destruct (Nat.compare_spec i j).
Qed.

(** ** The comparisons *)

(** [e] is in the tree of the root [r]. *)
Definition below (r e : nat) : Prop := root r /\ descend r (path fuel e) = Some e.

Definition before (a b : nat) : Prop := lex (path fuel a) (path fuel b) = Lt.

Lemma descend_root r r' l e : root r -> root r' -> descend r l = Some e -> descend r' l = Some e -> r = r'.
Proof using T.
  intros Hr Hr'. revert e. induction l as [|i l IH] using rev_ind; intros e; [by intros [= ->] [= ->]|].
  rewrite !descend_snoc. destruct (descend r l) as [p|]; [|done]. destruct (descend r' l) as [p'|]; [|done]. simpl.
  intros Hp Hp'. apply list_elem_of_lookup_2, (child_parent _ _ _ T) in Hp. apply list_elem_of_lookup_2, (child_parent _ _ _ T) in Hp'.
  rewrite Hp in Hp'. injection Hp' as ->. by apply (IH p').
Qed.

Lemma below_inj r a b : below r a -> below r b -> lex (path fuel a) (path fuel b) = Eq -> a = b.
Proof using T. intros [_ Ha] [_ Hb] E%lex_eq. rewrite E in Ha. congruence. Qed.

Lemma below_ancestors r e : below r e -> ancestors d fuel e [e] = visited r (path fuel e).
Proof using T.
  intros [Hr He]. destruct (above fuel e [] (depth_fuel _ _ _ T e)) as (r' & Hr' & He' & Ha).
  rewrite (descend_root r r' _ e Hr Hr' He He'). rewrite (Ha fuel); [apply app_nil_r|apply (depth_fuel _ _ _ T)].
Qed.

Lemma below_top r e : below r e -> parent_of d e = None -> e = r /\ path fuel e = [].
Proof using T. intros [_ He] Hp. assert (path fuel e = []) as E by (destruct fuel; simpl; [done|by rewrite Hp]). rewrite E in *. by injection He. Qed.

Lemma path_child e p : parent_of d e = Some p ->
  exists i, children_of d p !! i = Some e /\ path fuel e = path fuel p ++ [i].
Proof using T.
  intros Hp. destruct (place_child T e p Hp) as (i & Hpl & Hi). exists i. split; [done|].
  pose proof (parent_depth _ _ _ T _ _ Hp) as Hlt. pose proof (depth_fuel _ _ _ T e) as Hf.
  replace (path fuel e) with (path (S (pred fuel)) e) by (f_equal; lia). cbn [path]. rewrite Hp, Hpl. f_equal. apply path_le; lia.
Qed.

(** The walk through the tree, for browsers without [compareDocumentPosition] *)
Lemma compare_ancestors_correct document preferredDoc sortInput a b : below document a -> below document b -> a <> b ->
  compare_ancestors d fuel document preferredDoc sortInput a b = Some (sign (lex (path fuel a) (path fuel b))).
Proof using T.
  intros Ha Hb Hne. unfold compare_ancestors. destruct (parent_of d a) as [p|] eqn:Hp; [destruct (parent_of d b) as [p'|] eqn:Hp'|].
  - case_decide as E.
    + subst p'. destruct (path_child a p Hp) as (i & Hi & ->), (path_child b p Hp') as (j & Hj & ->). rewrite lex_app.
      f_equal. rewrite (siblings p i j a b Hi Hj) by (intros ->; congruence). simpl. by destruct (Nat.compare i j).
    + rewrite (below_ancestors document a Ha), (below_ancestors document b Hb).
      destruct (diverge document _ _ a b (proj2 Ha) (proj2 Hb) Hne) as (i & u & v & -> & Hs). by rewrite Hs.
  - destruct (below_top document b Hb Hp') as [-> Eb]. rewrite Eb, decide_False, decide_True by done.
    destruct (path_child a p Hp) as (i & _ & ->). by destruct (path fuel p).
  - destruct (below_top document a Ha Hp) as [-> Ea]. rewrite Ea, decide_True by done. do 2 f_equal.
    destruct (path fuel b) as [|j l] eqn:Eb; [|done]. destruct Hne. apply (below_inj document); [done..|]. by rewrite Ea, Eb.
Qed.

(** What browsers document about [compareDocumentPosition] and [ownerDocument], in the
    tree of [r]: bit 0 is for disconnected nodes, bit 2 for a second node that follows. *)
Record documented (r : nat) (ownerDocument : nat -> option nat) (compareDocumentPosition : nat -> nat -> N) : Prop := {
  same_document : forall a b, below r a -> below r b -> default a (ownerDocument a) = default b (ownerDocument b);
  connected : forall a b, below r a -> below r b -> N.testbit (compareDocumentPosition a b) 0 = false;
  following : forall a b, below r a -> below r b -> a <> b -> N.testbit (compareDocumentPosition a b) 2 = true <-> before a b;
}.

Lemma compare_positions_correct r document preferredDoc ownerDocument position sortDetached sortInput a b :
  documented r ownerDocument position -> below r a -> below r b -> a <> b ->
  compare_positions d fuel document preferredDoc ownerDocument position sortDetached sortInput a b =
    sign (lex (path fuel a) (path fuel b)).
Proof using T.
  intros [Hs Hc Hf] Ha Hb Hne. unfold compare_positions. rewrite decide_True by (by apply Hs). rewrite (Hc a b Ha Hb). simpl.
  assert (N.eqb (position b a) (position a b) = false) as ->.
  { apply N.eqb_neq. intros E. pose proof (Hf a b Ha Hb Hne) as H1. pose proof (Hf b a Hb Ha (not_eq_sym Hne)) as H2.
    rewrite E in H2. unfold before in *. rewrite (lex_antisym (path fuel a)) in H2.
    destruct (lex (path fuel a) (path fuel b)) eqn:El; [by apply Hne, (below_inj r)| |]; simpl in *.
    - assert (N.testbit (position a b) 2 = true) as H3 by (by apply H1). by apply H2 in H3.
    - assert (N.testbit (position a b) 2 = true) as H3 by (by apply H2). by apply H1 in H3. }
  rewrite andb_false_r. destruct (N.testbit (position a b) 2) eqn:E.
  - apply (Hf a b Ha Hb Hne) in E. by rewrite E.
  - destruct (lex (path fuel a) (path fuel b)) eqn:El; [by destruct Hne; apply (below_inj r)| |done].
    assert (N.testbit (position a b) 2 = true) by (by apply (Hf a b Ha Hb Hne)). congruence.
Qed.

End tree.

(** * Sorting *)

Section sorting.
Variable key : nat -> list nat.
Variable ok : nat -> Prop.
Variable compare : nat -> nat -> option (Z * bool).
Hypothesis key_inj : forall x y, ok x -> ok y -> lex (key x) (key y) = Eq -> x = y.
Hypothesis compare_key : forall x y, ok x -> ok y -> compare x y = Some (sign (lex (key x) (key y)), bool_decide (x = y)).

Definition not_after (x y : nat) : Prop := lex (key x) (key y) <> Gt.
Definition strictly (x y : nat) : Prop := lex (key x) (key y) = Lt.

Lemma not_after_trans x y z : ok x -> ok y -> ok z -> not_after x y -> not_after y z -> not_after x z.
Proof using key_inj.
  unfold not_after. intros Hx Hy Hz H1 H2. destruct (lex (key x) (key y)) eqn:E1; [|destruct (lex (key y) (key z)) eqn:E2|done].
  - by rewrite (key_inj x y Hx Hy E1).
  - by rewrite <- (key_inj y z Hy Hz E2), E1.
  - by rewrite (lex_trans _ _ _ E1 E2).
  - done.
Qed.

(** The entries so far, reversed, are in descending order. *)
Definition descending : list nat -> Prop := StronglySorted (fun x y => not_after y x).

Lemma insert_entry_correct x before flag : ok x -> Forall ok before -> descending before ->
  exists l, insert_entry compare x before flag = Some (l, flag || bool_decide (x ∈ before)) /\ l ≡ₚ x :: before /\ descending l.
Proof using key_inj compare_key.
  intros Hx Hb Hd. revert flag. induction Hd as [|y before Hd IH Hy]; intros flag; cbn [insert_entry].
  - exists [x]. rewrite bool_decide_eq_false_2, orb_false_r by apply not_elem_of_nil. split; [done|]. split; [done|]. by repeat constructor.
  - apply Forall_cons in Hb as [Hoy Hb]. rewrite (compare_key y x Hoy Hx). destruct (lex (key y) (key x)) eqn:E.
    + apply (key_inj y x Hoy Hx) in E as ->. cbn [sign Z.ltb Z.compare]. exists (x :: x :: before).
      rewrite !bool_decide_eq_true_2 by (done || left). split; [done|]. split; [done|]. constructor; [by constructor|].
      constructor; [unfold not_after; by rewrite lex_refl|done].
    + cbn [sign Z.ltb Z.compare]. assert (Forall (fun z => not_after z x /\ z <> x) (y :: before)) as Hall.
      { apply Forall_forall. intros z Hz. assert (ok z) as Hoz by (apply elem_of_cons in Hz as [->|Hz]; [done|by eapply Forall_forall in Hb]).
        assert (not_after z y) as Hzy.
        { apply elem_of_cons in Hz as [->|Hz]; [unfold not_after; by rewrite lex_refl|]. by eapply (Forall_forall (fun z => not_after z y)) in Hy. }
        split; [eapply (not_after_trans z y x); try done; unfold not_after; by rewrite E|]. intros ->. apply Hzy. by rewrite lex_antisym, E. }
      exists (x :: y :: before). rewrite !bool_decide_eq_false_2.
      * split; [done|]. split; [done|]. constructor; [by constructor|]. eapply Forall_impl; [exact Hall|]. by intros z [].
      * intros Hin. rewrite Forall_forall in Hall. by destruct (Hall x Hin).
      * apply Forall_cons in Hall as [[_ Hne] _]. done.
    + cbn [sign Z.ltb Z.compare]. destruct (IH Hb (flag || bool_decide (y = x))) as (l & -> & Hp & Hl).
      assert (y <> x) as Hne by (intros ->; by rewrite lex_refl in E).
      exists (y :: l). split; [|split].
      * rewrite bool_decide_eq_false_2, orb_false_r by done. do 3 f_equal. apply bool_decide_ext. rewrite elem_of_cons. split; [by right|by intros [->|?]].
      * rewrite Hp. apply Permutation_swap.
      * constructor; [done|]. rewrite Hp. constructor; [unfold not_after; by rewrite lex_antisym, E|done].
Qed.

Lemma sort_entries_correct l before flag : Forall ok l -> Forall ok before -> descending before ->
  exists l' flag', sort_entries compare l before flag = Some (l', flag') /\ l' ≡ₚ l ++ before /\ StronglySorted not_after l' /\
    (flag' = false -> flag = false /\ (NoDup before -> NoDup l')).
Proof using key_inj compare_key.
  revert before flag. induction l as [|x l IH]; intros before flag Hl Hb Hd; simpl.
  - exists (rev before), flag. split; [done|]. split; [by rewrite rev_is_reverse, reverse_Permutation|]. split.
    + clear Hl Hb. induction Hd as [|y before Hd IH Hy]; simpl; [constructor|].
      apply StronglySorted_app_2; [|done|by repeat constructor]. intros a b Ha Hb%list_elem_of_singleton. subst b.
      rewrite rev_is_reverse, elem_of_reverse in Ha. by eapply (Forall_forall (fun z => not_after z y)) in Hy.
    + intros ->. split; [done|]. intros Hn. by rewrite rev_is_reverse, reverse_Permutation.
  - apply Forall_cons in Hl as [Hx Hl]. destruct (insert_entry_correct x before flag Hx Hb Hd) as (before' & -> & Hp & Hd').
    destruct (IH before' (flag || bool_decide (x ∈ before)) Hl) as (l' & flag' & -> & Hp' & Hs & Hf); [rewrite Hp; by constructor|done|].
    exists l', flag'. split; [done|]. split; [rewrite Hp', Hp; symmetry; apply Permutation_middle|]. split; [done|].
    intros E. destruct (Hf E) as [[-> Hin]%orb_false_iff Hn]. split; [done|]. intros Hnb. apply Hn. rewrite Hp.
    constructor; [by apply bool_decide_eq_false_1 in Hin|done].
Qed.
End sorting.

(** ** Removing duplicates *)

(** One entry of every run of the same entries *)
Fixpoint undup (l : list nat) : list nat :=
  match l with
  | x :: ((y :: _) as l') => if decide (x = y) then undup l' else x :: undup l'
  | _ => l
  end.

Lemma undup_head y l : exists l', undup (y :: l) = y :: l'.
Proof.
  revert y. induction l as [|z l IH]; intros y; [by exists []|]. cbn [undup]. case_decide as E; [subst z; apply IH|by eexists].
Qed.

Lemma splice_all_app a b l : splice_all (a ++ b) l = splice_all b (splice_all a l).
Proof. revert l. induction a as [|i a IH]; intros l; simpl; [done|apply IH]. Qed.

Lemma splice_duplicates before l : splice_all (rev (duplicates (length before) l)) (before ++ l) = before ++ undup l.
Proof.
  revert before. induction l as [|x l IH]; intros before; [done|]. destruct l as [|y l]; [done|].
  specialize (IH (before ++ [x])). rewrite length_app, Nat.add_1_r, <- app_assoc in IH.
  change (duplicates (length before) (x :: y :: l)) with (if decide (x = y) then S (length before) :: duplicates (S (length before)) (y :: l)
    else duplicates (S (length before)) (y :: l)).
  change (undup (x :: y :: l)) with (if decide (x = y) then undup (y :: l) else x :: undup (y :: l)).
  change ([x] ++ y :: l) with (x :: y :: l) in IH.
  case_decide as E; [|rewrite IH, <- app_assoc; done]. subst y. cbn [rev]. rewrite splice_all_app, IH. cbn [splice_all].
  destruct (undup_head x l) as [l' E']. change (undup (x :: l)) with (undup (x :: l)) in E'. rewrite E', <- app_assoc. simpl.
  pose proof (delete_middle (before ++ [x]) l' x) as E2. rewrite length_app, Nat.add_1_r, <- !app_assoc in E2. exact E2.
Qed.

Section undup.
Variable key : nat -> list nat.
Variable ok : nat -> Prop.
Hypothesis key_inj : forall x y, ok x -> ok y -> lex (key x) (key y) = Eq -> x = y.

Lemma undup_elem l x : x ∈ undup l <-> x ∈ l.
Proof.
  induction l as [|y l IH]; [done|]. destruct l as [|z l]; [done|]. cbn [undup]. case_decide as E.
  - subst z. rewrite IH. rewrite !elem_of_cons. tauto.
  - rewrite elem_of_cons, IH, (elem_of_cons _ x y). done.
Qed.

Lemma strictly_strong l : Forall ok l -> NoDup l -> StronglySorted (not_after key) l -> StronglySorted (strictly key) l.
Proof using key_inj.
  intros Ho Hn. induction 1 as [|x l Hs IH Hx]; [constructor|]. apply Forall_cons in Ho as [Hox Ho]. apply NoDup_cons in Hn as [Hxl Hn].
  constructor; [by apply IH|]. apply Forall_forall. intros y Hy. unfold strictly.
  pose proof (proj1 (Forall_forall (not_after key x) _) Hx y Hy) as Hxy. unfold not_after in Hxy.
  destruct (lex (key x) (key y)) eqn:E; [|done|done]. destruct Hxl. pose proof (proj1 (Forall_forall ok _) Ho y Hy).
  by rewrite (key_inj x y).
Qed.

Lemma undup_sorted l : Forall ok l -> StronglySorted (not_after key) l -> StronglySorted (strictly key) (undup l).
Proof using key_inj.
  intros Ho. induction 1 as [|x l Hs IH Hx]; [constructor|]. apply Forall_cons in Ho as [Hox Ho]. specialize (IH Ho).
  destruct l as [|y l]; [by repeat constructor|]. cbn [undup]. case_decide as E; [done|].
  constructor; [done|]. apply Forall_forall. intros z Hz. apply (proj1 (undup_elem (y :: l) z)) in Hz. pose proof (proj1 (Forall_forall (not_after key x) _) Hx z Hz) as Hxz.
  assert (ok z) as Hoz by exact (proj1 (Forall_forall ok _) Ho z Hz). unfold strictly, not_after in *.
  destruct (lex (key x) (key z)) eqn:El; [|done|done]. apply key_inj in El; [|done|done]. subst z.
  apply elem_of_cons in Hz as [->|Hz]; [done|]. apply Forall_cons in Hx as [Hxy Hx]. apply Forall_cons in Ho as [Hoy Ho].
  inversion Hs as [|? ? Hs' Hy]; subst. pose proof (proj1 (Forall_forall (not_after key y) _) Hy x Hz) as Hyx.
  unfold not_after in *. destruct (lex (key x) (key y)) eqn:E1; [by apply key_inj in E1| |done].
  rewrite lex_antisym, E1 in Hyx. done.
Qed.
End undup.

(** * Theorems *)

(** C16. Unique and in document order.  For nodes of one document, in any order and with
    any duplicates, [uniqueSort] returns every node once, in the order in which a walk
    through the document meets them: with [compareDocumentPosition] if it does what
    browsers document (then also for the nodes of any other single tree), and without it
    by walking up to the common ancestor; whether or not equal entries are assumed to be
    noticed and the sort to be stable. *)
Theorem uniqueSort_correct d depth fuel document preferredDoc ownerDocument position
    (hasCompare sortDetached detectDuplicates sortStable : bool) r results :
  tree d depth fuel ->
  Forall (below (d := d) (fuel := fuel) r) results ->
  (if hasCompare then documented (d := d) (fuel := fuel) r ownerDocument position else r = document) ->
  exists l, uniqueSort d fuel document preferredDoc ownerDocument position hasCompare sortDetached detectDuplicates sortStable results = Some l /\
    StronglySorted (before (d := d) (fuel := fuel)) l /\ forall e, e ∈ l <-> e ∈ results.
Proof.
  intros T Hr Hc. unfold uniqueSort. set (sortInput := if sortStable then None else Some results).
  assert (forall x y, below (d := d) (fuel := fuel) r x -> below (d := d) (fuel := fuel) r y ->
    sortOrder d fuel document preferredDoc ownerDocument position hasCompare sortDetached sortInput x y =
      Some (sign (lex (path (d := d) fuel x) (path (d := d) fuel y)), bool_decide (x = y))) as Hcmp.
  { intros x y Hx Hy. unfold sortOrder. case_decide as E; [subst; by rewrite lex_refl, bool_decide_eq_true_2|].
    rewrite bool_decide_eq_false_2 by done. destruct hasCompare.
    - by rewrite (compare_positions_correct T r).
    - subst r. by rewrite (compare_ancestors_correct T). }
  assert (forall x y, below (d := d) (fuel := fuel) r x -> below (d := d) (fuel := fuel) r y ->
    lex (path (d := d) fuel x) (path (d := d) fuel y) = Eq -> x = y) as Hinj by (intros x y; apply (below_inj T r)).
  destruct (sort_entries_correct (path (d := d) fuel) _ _ Hinj Hcmp results [] (negb detectDuplicates) Hr (Forall_nil_2 _) (SSorted_nil _))
    as (l & flag & -> & Hp & Hs & Hf). rewrite app_nil_r in Hp.
  assert (Forall (below (d := d) (fuel := fuel) r) l) as Hl by (by rewrite Hp).
  destruct flag.
  - exists (undup l). split; [f_equal; apply (splice_duplicates [])|]. split; [by eapply undup_sorted|].
    intros e. by rewrite undup_elem, Hp.
  - exists l. split; [done|]. split; [|intros e; by rewrite Hp]. eapply strictly_strong; [exact Hinj|done| |done].
    apply Hf; [done|]. apply NoDup_nil_2.
Qed.

(** A browser that does what is documented in the tree of [r]: 4 for a node that follows,
    2 for one that precedes. *)
Definition positions (d : dom) (fuel a b : nat) : N :=
  if decide (a = b) then 0 else match lex (path (d := d) fuel a) (path (d := d) fuel b) with Lt => 4 | _ => 2 end.

Lemma positions_documented d fuel r (owner : nat) :
  documented (d := d) (fuel := fuel) r (fun _ => Some owner) (positions d fuel).
Proof.
  split; [done|..]; unfold positions, before; intros a b _ _.
  - case_decide; [done|]. by destruct (lex _ _).
  - intros Hne. rewrite decide_False by done. by destruct (lex _ _).
Qed.

Lemma uniqueSort_correct_witness :
  exists l, uniqueSort page 20 0 0 (fun _ => Some 0) (positions page 20) true true true true [4; 2; 1; 4; 0; 2] = Some l /\
    l = [0; 1; 2; 4] /\ forall e, e ∈ l <-> e ∈ [4; 2; 1; 4; 0; 2].
Proof.
  destruct (uniqueSort_correct page page_depth 20 0 0 (fun _ => Some 0) (positions page 20) true true true true 0 [4; 2; 1; 4; 0; 2])
    as (l & E & _ & Hl).
  - apply page_tree.
  - repeat constructor; vm_compute; reflexivity.
  - apply positions_documented.
  - exists l. split; [exact E|]. split; [|exact Hl]. vm_compute in E. injection E as <-. reflexivity.
Defined.

(** Duplicates of detached nodes stay.  Two nodes of different trees outside the
    preferred document compare as equal, so that the entries of one of them need not
    come together: a set with such a node on both sides of the other one keeps both
    entries, noticed as duplicates or not. *)
Theorem detached_duplicates_stay d fuel document preferredDoc ownerDocument position (sortDetached detectDuplicates : bool) x y :
  x <> y ->
  (default x (ownerDocument x) = default y (ownerDocument y) ->
     N.testbit (position x y) 0 = true /\ N.testbit (position y x) 0 = true) ->
  related d fuel document preferredDoc ownerDocument x = false ->
  related d fuel document preferredDoc ownerDocument y = false ->
  uniqueSort d fuel document preferredDoc ownerDocument position true sortDetached detectDuplicates true [x; y; x] = Some [x; y; x].
Proof.
  intros Hne Hpos Hx Hy.
  assert (forall a b, (a = x /\ b = y) \/ (a = y /\ b = x) ->
    sortOrder d fuel document preferredDoc ownerDocument position true sortDetached None a b = Some (0%Z, false)) as Hcmp.
  { intros a b Hab. unfold sortOrder. rewrite decide_False by (destruct Hab as [[-> ->]|[-> ->]]; congruence).
    unfold compare_positions. set (c := if decide _ then position a b else 1%N).
    assert (N.testbit c 0 = true) as ->.
    { unfold c. case_decide as E; [|done]. destruct Hab as [[-> ->]|[-> ->]]; [by apply Hpos|by apply Hpos]. }
    by destruct Hab as [[-> ->]|[-> ->]]; simpl; rewrite Hx, Hy. }
  unfold uniqueSort. cbn [sort_entries insert_entry]. rewrite (Hcmp x y) by (by left). cbn [Z.ltb Z.compare sort_entries insert_entry].
  rewrite (Hcmp y x) by (by right). cbn [Z.ltb Z.compare sort_entries rev app]. rewrite !orb_false_r.
  destruct (negb detectDuplicates); [|done]. cbn [duplicates]. by rewrite !decide_False by congruence.
Qed.

Lemma detached_duplicates_stay_witness :
  uniqueSort page 20 0 0 (fun _ => Some 0) (fun a b => if Nat.ltb a b then 37 else 35)%N true true true true [7; 8; 7] = Some [7; 8; 7].
Proof.
  apply (detached_duplicates_stay page 20 0 0 (fun _ => Some 0) (fun a b => if Nat.ltb a b then 37 else 35)%N true true 7 8);
    [discriminate|intros _; split; reflexivity|vm_compute; reflexivity|vm_compute; reflexivity].
Defined.

End SzOrderProofs.
