(* ===== verification/JqHeaders.v ===== *)
(** The address and the headers of an ajax request in [jquery.js] (lines 9543 to 9668):
    where a request goes, with its data and the stamp against caches, which headers it
    sends, and how the headers of the response are read (lines 9468 to 9508) and
    remembered for the next request (lines 9775 to 9785).

    The settings are those that [ajaxSetup] and the prefilters leave, after data that is
    no text has been given to [param].  An object holds its text: what the language makes
    of it when it is joined to a text.  The origin of an address is the browser's.  Left
    out: the headers that a transport adds, and a header or an address named like a
    member of [Object.prototype], which [OutOfModel] stands for. *)

From S2P Require Import Prelude Regex JqCallbacks.

Module JqHeaders.

(** * Patterns *)

(** Lines 9035, 9036 and 9037; [rheaders] has the flags m and g. *)
Definition rhash : pattern := {| p_groups := 0; p_re := RSeq (RChar (chr "#")) (RSeq (RStar true RDot) REol) |}.
Definition rantiCache : pattern :=
  {| p_groups := 1; p_re := RSeq (RGroup 1 (ROneOf (js "?&"))) (RSeq (RLit (js "_=")) (RStar true (RNoneOf (js "&")))) |}.
Definition rheaders : pattern :=
  {| p_groups := 2; p_re := RSeq RBolM (RSeq (RGroup 1 (RStar false RDot)) (RSeq (RChar (chr ":"))
       (RSeq (RStar true (ROneOf [32; 9]%N)) (RSeq (RGroup 2 (RStar true (RNoneOf [13; 10]%N))) REolM)))) |}.
(** [/^\/\//], [/\?/] and [/%20/g] *)
Definition rprotocol : pattern := {| p_groups := 0; p_re := RSeq RBol (RLit (js "//")) |}.
Definition rquery : pattern := {| p_groups := 0; p_re := RChar (chr "?") |}.
Definition r20 : pattern := {| p_groups := 0; p_re := RLit (js "%20") |}.

(** [/^(?:GET|HEAD)$/] *)
Definition rnoContent : pattern := {| p_groups := 0; p_re := RSeq RBol (RSeq (RAlts [js "GET"; js "HEAD"]) REol) |}.

(** [/^(?:about|app|app-storage|.+-extension|file|res|widget):$/] *)
Definition rlocalProtocol : pattern :=
  {| p_groups := 0; p_re :=
       RSeq RBol (RSeq
         (RAlt (RAlts [js "about"; js "app"; js "app-storage"])
           (RAlt (RSeq (RPlus true RDot) (RLit (js "-extension"))) (RAlts [js "file"; js "res"; js "widget"])))
         (RSeq (RChar (chr ":")) REol)) |}.

(** [allTypes] *)
Definition allTypes : jstr := js "*/*".

(** * Settings *)

(** [s.data]: nothing, a text, or an object that the transport takes as it is *)
Inductive body := BNone | BText (s : jstr) | BObject (text : jstr).

(** The value of a header, of [s.contentType] and the like *)
Inductive hvalue := HText (s : jstr) | HUndefined | HNull | HFalse.

#[global] Instance body_eq_dec : EqDecision body.
Proof. solve_decision. Defined.
#[global] Instance hvalue_eq_dec : EqDecision hvalue.
Proof. solve_decision. Defined.

(** [optionsContentType] is [options.contentType], [nocache] is [s.cache === false]. *)
Record hsettings := {
  url : jstr;
  type : jstr;
  hasContent : bool;
  data : body;
  processData : bool;
  contentType : hvalue;
  optionsContentType : hvalue;
  nocache : bool;
  ifModified : bool;
  dataTypes : list jstr;
  accepts : list (jstr * jstr);
  headers : list (jstr * hvalue);
}.

Definition set_url (u : jstr) (s : hsettings) : hsettings :=
  {| url := u; type := type s; hasContent := hasContent s; data := data s; processData := processData s;
     contentType := contentType s; optionsContentType := optionsContentType s; nocache := nocache s;
     ifModified := ifModified s; dataTypes := dataTypes s; accepts := accepts s; headers := headers s |}.
Definition set_data (b : body) (s : hsettings) : hsettings :=
  {| url := url s; type := type s; hasContent := hasContent s; data := b; processData := processData s;
     contentType := contentType s; optionsContentType := optionsContentType s; nocache := nocache s;
     ifModified := ifModified s; dataTypes := dataTypes s; accepts := accepts s; headers := headers s |}.
Definition set_type (t : jstr) (content : bool) (s : hsettings) : hsettings :=
  {| url := url s; type := t; hasContent := content; data := data s; processData := processData s;
     contentType := contentType s; optionsContentType := optionsContentType s; nocache := nocache s;
     ifModified := ifModified s; dataTypes := dataTypes s; accepts := accepts s; headers := headers s |}.

(** What requests share: [jQuery.lastModified], [jQuery.etag] and [nonce.guid] *)
Record hstore := { lastModified : list (jstr * jstr); etag : list (jstr * jstr); guid : Z }.

Section request.
Context `{Unicode}.

(** ** Before the prefilters *)

(** [a || b] of texts that may be missing *)
Definition or_else (a : option jstr) (b : jstr) : jstr := match a with Some ((_ :: _) as s) => s | _ => b end.

(** [((url || s.url || location.href) + "").replace(rprotocol, location.protocol + "//")] *)
Definition full_url (url s_url : option jstr) (href protocol : jstr) : jstr :=
  replace_first rprotocol (or_else url (or_else s_url href)) (fun _ => protocol ++ js "//").

(** [options.method || options.type || s.method || s.type] *)
Definition method_of (options_method options_type s_method : option jstr) (s_type : jstr) : jstr :=
  or_else options_method (or_else options_type (or_else s_method s_type)).

(** [(s.dataType || "*").toLowerCase().match(rnothtmlwhite) || [""]] *)
Definition types_list (dataType : option jstr) : list jstr :=
  match JqCallbacks.not_white (toLowerCase (or_else dataType (js "*"))) with [] => [[]] | ts => ts end.

(** [s.crossDomain]; [anchor] gives the protocol and the host of an address, or throws. *)
Definition cross_domain (given : option bool) (origin : jstr * jstr) (anchor : jstr -> option (jstr * jstr)) (u : jstr) : bool :=
  match given with
  | Some b => b
  | None =>
      match anchor u with
      | Some (p, h) => negb (bool_decide (origin.1 ++ js "//" ++ origin.2 = p ++ js "//" ++ h))
      | None => true
      end
  end.

(** [rlocalProtocol.test(location.protocol)] *)
Definition isLocal (protocol : jstr) : bool := test rlocalProtocol protocol.

(** ** The address *)

Definition joint (u : jstr) : jstr := if test rquery u then js "&" else js "?".

(** Data that is there, and is to become part of the address *)
Definition appendable (s : hsettings) : option jstr :=
  match data s with
  | BText ((_ :: _) as t) => Some t
  | BObject t => if processData s then Some t else None
  | _ => None
  end.

Definition append_data (cacheURL : jstr) (s : hsettings) : jstr * hsettings :=
  match appendable s with
  | Some t => (cacheURL ++ joint cacheURL ++ t, set_data BNone s)
  | None => (cacheURL, s)
  end.

(** [$1] of a match *)
Definition first_group (u : jstr) (r : rresult) : jstr := group_or_empty u r 1.

(** The stamp against caches: the address without an old one, and the rest with the new one *)
Definition stamp (cacheURL uncached : jstr) (n : Z) : jstr * jstr :=
  let cacheURL := replace_first rantiCache cacheURL (first_group cacheURL) in
  (cacheURL, joint cacheURL ++ js "_=" ++ Z_to_jstr n ++ uncached).

(** Spaces of encoded form data *)
Definition encode_spaces (s : hsettings) : res hsettings :=
  let form := match contentType s with HText t => is_prefix (js "application/x-www-form-urlencoded") t | _ => false end in
  match data s with
  | BText ((_ :: _) as t) =>
      Ok (if processData s && form then set_data (BText (replace_all r20 t (fun _ => js "+"))) s else s)
  | BObject _ => if processData s && form then Throw TypeError else Ok s
  | _ => Ok s
  end.

(** Lines 9600 to 9639: the settings, [cacheURL] and [nonce.guid] *)
Definition address (s0 : hsettings) (n : Z) : res (hsettings * jstr * Z) :=
  let type := toUpperCase (type s0) in
  let s := set_type type (negb (test rnoContent type)) s0 in
  let cacheURL := replace_first rhash (url s) (fun _ => []) in
  if hasContent s then do s <- encode_spaces s; Ok (s, cacheURL, n)
  else
    let uncached := drop (length cacheURL) (url s) in
    let '(cacheURL, s) := append_data cacheURL s in
    let '(cacheURL, uncached, n') :=
      if nocache s then (stamp cacheURL uncached n, n + 1)%Z else (cacheURL, uncached, n) in
    Ok (set_url (cacheURL ++ uncached) s, cacheURL, n').

End request.

(** * Headers *)

(** The variables of a request that have to do with headers *)
Record hstate := {
  completed : option bool;
  requestHeaders : list (jstr * hvalue);
  requestHeadersNames : list (jstr * jstr);
  responseHeadersString : option jstr;
  responseHeaders : option (list (jstr * list jstr));
  mimeType : option jstr;
}.

Definition hstate_start : hstate :=
  {| completed := None; requestHeaders := []; requestHeadersNames := []; responseHeadersString := None;
     responseHeaders := None; mimeType := None |}.

Section headers.
Context `{Unicode}.

(** [jqXHR.setRequestHeader(name, value)] *)
Definition setRequestHeader (name : jstr) (value : hvalue) (st : hstate) : res hstate :=
  match completed st with
  | Some _ => Ok st
  | None =>
      let put known :=
        let used := or_else known name in
        Ok {| completed := completed st; requestHeaders := assoc_set used value (requestHeaders st);
              requestHeadersNames := assoc_set (toLowerCase name) used (requestHeadersNames st);
              responseHeadersString := responseHeadersString st; responseHeaders := responseHeaders st; mimeType := mimeType st |} in
      match obj_get (requestHeadersNames st) (toLowerCase name) with
      | POwn used => put (Some used)
      | PUndefined => put None
      | PMethod | PProto => Throw (OutOfModel (js "inherited header"))
      end
  end.

(** [jqXHR.overrideMimeType(type)] *)
Definition overrideMimeType (type : jstr) (st : hstate) : hstate :=
  match completed st with
  | Some _ => st
  | None =>
      {| completed := completed st; requestHeaders := requestHeaders st; requestHeadersNames := requestHeadersNames st;
         responseHeadersString := responseHeadersString st; responseHeaders := responseHeaders st; mimeType := Some type |}
  end.

(** The loop over the matches of [rheaders], from [pos]; every match has a character. *)
Fixpoint read_headers (fuel : nat) (s : jstr) (pos : nat) (table : list (jstr * list jstr)) : res (list (jstr * list jstr)) :=
  match fuel with
  | O => Ok table
  | S fuel' =>
      match search_from rheaders s (length s - pos) pos with
      | None => Ok table
      | Some r =>
          let name := toLowerCase (group_or_empty s r 1) ++ js " " in
          do old <- match obj_get table name with
                    | POwn vs => Ok vs
                    | PUndefined => Ok []
                    | PMethod | PProto => Throw TypeError
                    end;
          read_headers fuel' s (m_end r) (assoc_set name (old ++ [group_or_empty s r 2]) table)
      end
  end.

Definition set_table (t : list (jstr * list jstr)) (st : hstate) : hstate :=
  {| completed := completed st; requestHeaders := requestHeaders st; requestHeadersNames := requestHeadersNames st;
     responseHeadersString := responseHeadersString st; responseHeaders := Some t; mimeType := mimeType st |}.

Definition is_completed (st : hstate) : bool := bool_decide (completed st = Some true).

(** [if (!responseHeaders) ...] *)
Definition load_headers (st : hstate) : res hstate :=
  match responseHeaders st with
  | Some _ => Ok st
  | None =>
      let s := str_or_undefined (responseHeadersString st) in
      do t <- read_headers (S (length s)) s 0 []; Ok (set_table t st)
  end.

(** [jqXHR.getResponseHeader(key)], [None] for null *)
Definition getResponseHeader (key : jstr) (st : hstate) : res (option jstr * hstate) :=
  if is_completed st then
    do st <- load_headers st;
    match obj_get (default [] (responseHeaders st)) (toLowerCase key ++ js " ") with
    | POwn vs => Ok (Some (join (js ", ") vs), st)
    | PUndefined => Ok (None, st)
    | PMethod | PProto => Throw TypeError
    end
  else Ok (None, st).

(** [jqXHR.getAllResponseHeaders()] *)
Definition getAllResponseHeaders (st : hstate) : option jstr :=
  if is_completed st then responseHeadersString st else None.

(** ** The headers of the request *)

Definition conditional_header (name : jstr) (cacheURL : jstr) (known : list (jstr * jstr)) : res (list (jstr * hvalue)) :=
  match obj_get known cacheURL with
  | POwn [] | PUndefined => Ok []
  | POwn v => Ok [(name, HText v)]
  | PMethod | PProto => Throw (OutOfModel (js "inherited address"))
  end.

(** Lines 9641 to 9649 *)
Definition conditional_headers (cacheURL : jstr) (s : hsettings) (g : hstore) : res (list (jstr * hvalue)) :=
  if ifModified s then
    do a <- conditional_header (js "If-Modified-Since") cacheURL (lastModified g);
    do b <- conditional_header (js "If-None-Match") cacheURL (etag g);
    Ok (a ++ b)
  else Ok [].

Definition truthy_body (b : body) : bool := match b with BNone | BText [] => false | _ => true end.
Definition truthy_hvalue (v : hvalue) : bool := match v with HText (_ :: _) => true | _ => false end.

(** Line 9652 *)
Definition content_headers (s : hsettings) : list (jstr * hvalue) :=
  if (truthy_body (data s) && hasContent s && negb (bool_decide (contentType s = HFalse))) || truthy_hvalue (optionsContentType s)
  then [(js "Content-Type", contentType s)] else [].

(** Lines 9656 to 9663 *)
Definition accept_header (s : hsettings) : res (list (jstr * hvalue)) :=
  let all := Ok [(js "Accept", match assoc (js "*") (accepts s) with Some a => HText a | None => HUndefined end)] in
  match dataTypes s with
  | ((_ :: _) as t) :: _ =>
      match obj_get (accepts s) t with
      | POwn [] | PUndefined => all
      | POwn a =>
          Ok [(js "Accept", HText (a ++ if bool_decide (t = js "*") then [] else js ", " ++ allTypes ++ js "; q=0.01"))]
      | PMethod | PProto => Throw (OutOfModel (js "inherited type"))
      end
  | _ => all
  end.

Fixpoint set_headers (l : list (jstr * hvalue)) (st : hstate) : res hstate :=
  match l with
  | [] => Ok st
  | (name, v) :: l' => do st <- setRequestHeader name v st; set_headers l' st
  end.

(** The calls of [setRequestHeader] that a request makes, in order *)
Definition headers_of (cacheURL : jstr) (s : hsettings) (g : hstore) : res (list (jstr * hvalue)) :=
  do conditional <- conditional_headers cacheURL s g;
  do accept <- accept_header s;
  Ok (conditional ++ content_headers s ++ accept ++ headers s).

(** Lines 9600 to 9668: what is requested, [cacheURL], the headers and the stores *)
Definition request (s : hsettings) (st : hstate) (g : hstore) : res (hsettings * jstr * hstate * hstore) :=
  do (s, cacheURL, n) <- address s (guid g);
  do l <- headers_of cacheURL s g;
  do st <- set_headers l st;
  Ok (s, cacheURL, st, {| lastModified := lastModified g; etag := etag g; guid := n |}).

(** ** The response *)

(** [completed = true] and [responseHeadersString = headers || ""] *)
Definition receive (headers : option jstr) (st : hstate) : hstate :=
  {| completed := Some true; requestHeaders := requestHeaders st; requestHeadersNames := requestHeadersNames st;
     responseHeadersString := Some (default [] headers); responseHeaders := responseHeaders st; mimeType := mimeType st |}.

(** [object[cacheURL] = modified], if there is something to remember; an assignment of a
    text to [__proto__] does nothing. *)
Definition keep (cacheURL : jstr) (modified : option jstr) (known : list (jstr * jstr)) : list (jstr * jstr) :=
  match modified with
  | Some ((_ :: _) as v) => if decide (cacheURL = js "__proto__") then known else assoc_set cacheURL v known
  | _ => known
  end.

(** Lines 9775 to 9785, in a successful response *)
Definition remember (cacheURL : jstr) (modified_mode : bool) (st : hstate) (g : hstore) : res (hstate * hstore) :=
  if modified_mode then
    do (modified, st) <- getResponseHeader (js "Last-Modified") st;
    let g := {| lastModified := keep cacheURL modified (lastModified g); etag := etag g; guid := guid g |} in
    do (modified, st) <- getResponseHeader (js "etag") st;
    Ok (st, {| lastModified := lastModified g; etag := keep cacheURL modified (etag g); guid := guid g |})
  else Ok (st, g).

End headers.

End JqHeaders.
