(* ===== verification/JqHeadersProofs.v ===== *)
(** The address and the headers of a request: where a request without content goes,
    that headers merge without regard to case, that the headers of a response are read
    back as they were sent, and that what a response says about its date returns with
    the next request for the same address. *)

From S2P Require Import Prelude Regex JqCallbacks JqHeaders.

Module JqHeadersProofs.
Export JqHeaders.

Lemma drop_here (pre s : jstr) : drop (length pre) (pre ++ s) = s.
Proof. by rewrite drop_app_length. Qed.

Lemma lookup_here (pre s : jstr) : (pre ++ s) !! length pre = head s.
Proof. rewrite lookup_app_r, Nat.sub_diag by lia. by destruct s. Qed.

(** * The headers of a response *)

(** A line: the name, the blanks behind the colon and the value *)
Record line := { l_name : jstr; l_blanks : jstr; l_value : jstr }.

Definition CRLF : jstr := [13; 10]%N.

Definition line_text (l : line) : jstr := l_name l ++ chr ":" :: l_blanks l ++ l_value l.
Definition block (ls : list line) : jstr := concat ((fun l => line_text l ++ CRLF) <$> ls).

Definition is_blank (c : N) : Prop := c ∈ [32; 9]%N.
Definition line_ok (l : line) : Prop :=
  Forall (fun c => c <> chr ":" /\ is_line_terminator c = false) (l_name l) /\
  Forall is_blank (l_blanks l) /\
  Forall (fun c => c <> 13%N /\ c <> 10%N) (l_value l) /\
  match l_value l with c :: _ => ~ is_blank c | [] => True end.

(** What the lines of a response say about a name in lower case, and about [key] *)
Definition values_for `{Unicode} (name : jstr) (ls : list line) : list jstr :=
  l_value <$> base.filter (fun l => toLowerCase (l_name l) = name) ls.
Definition values_of `{Unicode} (key : jstr) (ls : list line) : list jstr := values_for (toLowerCase key) ls.

Lemma existsb_elem c l : existsb (N.eqb c) l = bool_decide (c ∈ l).
Proof.
  induction l as [|x l IH]; [done|]. simpl. rewrite IH. destruct (N.eqb_spec c x) as [->|Hne]; simpl.
  - symmetry. apply bool_decide_eq_true_2. left.
  - apply bool_decide_ext. rewrite elem_of_cons. naive_solver.
Qed.

Lemma match_line s pre l u : line_ok l -> s = pre ++ line_text l ++ CRLF ++ u -> line_start s (length pre) = true ->
  exists r, match_at rheaders s (length pre) = Some r /\ m_end r = length pre + length (line_text l) /\
    group_or_empty s r 1 = l_name l /\ group_or_empty s r 2 = l_value l.
Proof.
  destruct l as [name blanks value]. unfold line_ok, line_text. cbn [l_name l_blanks l_value].
  intros (Hn & Hb & Hv & Hf) -> Hs. set (i := length pre). set (s := pre ++ _).
  set (a := i + length name). set (b := S a + length blanks). set (e := b + length value).
  assert (drop i s = name ++ chr ":" :: blanks ++ value ++ CRLF ++ u) as Hd.
  { unfold s, i. rewrite drop_here. by rewrite <- !app_assoc, <- !app_comm_cons, <- !app_assoc. }
  assert (drop a s = chr ":" :: blanks ++ value ++ CRLF ++ u) as Hda.
  { unfold a. by rewrite <- drop_drop, Hd, drop_app_length. }
  destruct (drop_lookup _ _ _ _ Hda) as [Hc Hdb].
  assert (drop b s = value ++ CRLF ++ u) as Hdv.
  { unfold b. by rewrite <- drop_drop, Hdb, drop_app_length. }
  assert (drop e s = CRLF ++ u) as Hde.
  { unfold e. by rewrite <- drop_drop, Hdv, drop_app_length. }
  destruct (drop_lookup _ _ _ _ Hde) as [He _].
  set (caps := <[2 := Some (b, e)]> (<[1 := Some (i, a)]> (replicate 3 (@None (nat * nat))))).
  assert (line_end s e = true) as Hle by (unfold line_end; by rewrite He).
  assert (forall cs (k : nat -> Regex.caps -> option rresult), k e cs <> None -> matcher s (RStar true (RNoneOf [13; 10]%N)) b cs k = k e cs) as Rv.
  { intros cs k Hk. apply (matcher_star_greedy s _ value (CRLF ++ u)); [done| |done|done].
    eapply Forall_impl; [exact Hv|]. intros c [H1 H2]. rewrite existsb_elem, bool_decide_eq_false_2; [done|].
    rewrite !elem_of_cons, elem_of_nil. naive_solver. }
  assert (forall cs (k : nat -> Regex.caps -> option rresult), k b cs <> None -> matcher s (RStar true (ROneOf [32; 9]%N)) (S a) cs k = k b cs) as Rb.
  { intros cs k Hk. apply (matcher_star_greedy s _ blanks (value ++ CRLF ++ u)); [done| | |done].
    - eapply Forall_impl; [exact Hb|]. intros c Hin. by rewrite existsb_elem, bool_decide_eq_true_2.
    - destruct value as [|c value]; [done|]. cbn [app]. rewrite existsb_elem. by apply bool_decide_eq_false_2. }
  exists {| m_start := i; m_end := e; m_caps := caps |}.
  split; [|split; [|split]].
  - unfold match_at, rheaders. cbn [p_re p_groups].
    rewrite run_seq, run_bol_m, (Hs : line_start s i = true), run_seq, run_group. set (start := replicate _ _).
    match goal with |- matcher _ _ _ _ ?f = _ => set (K := f) end.
    assert (K a start = Some {| m_start := i; m_end := e; m_caps := caps |}) as Hk.
    { unfold K. unfold RChar at 1. autorewrite with matching. rewrite Hc, N.eqb_refl.
      rewrite Rb; rewrite run_seq, run_group, Rv; rewrite run_eol_m, Hle; done. }
    unfold RDot. rewrite (matcher_star_lazy s _ name (chr ":" :: blanks ++ value ++ CRLF ++ u)); [by fold a|done|..].
    + eapply Forall_impl; [exact Hn|]. by intros c [_ ->].
    + intros j Hj. unfold K. unfold RChar at 1. autorewrite with matching.
      destruct (s !! (i + j)) as [c|] eqn:E; [|done]. rewrite <- lookup_drop, Hd, lookup_app_l in E by done.
      destruct (proj1 (Forall_lookup _ _) Hn j c E) as [Hne _]. by rewrite (proj2 (N.eqb_neq _ _)) by done.
    + right. fold a. by rewrite Hk.
  - cbn [m_end]. unfold e, b, a. simpl. rewrite !length_app. simpl. rewrite length_app. lia.
  - unfold group_or_empty, group, cap_str. cbn [m_caps]. change (caps !! 1) with (Some (Some (i, a))). unfold slice. rewrite Hd.
    replace (a - i) with (length name) by (unfold a; lia). by rewrite take_app_length.
  - unfold group_or_empty, group, cap_str. cbn [m_caps]. change (caps !! 2) with (Some (Some (b, e))). unfold slice. rewrite Hdv.
    replace (e - b) with (length value) by (unfold e; lia). by rewrite take_app_length.
Qed.

Lemma no_match s i : match s !! i with Some c => c = 13%N \/ c = 10%N | None => True end -> match_at rheaders s i = None.
Proof.
  intros Hc. unfold match_at, rheaders. cbn [p_re p_groups]. rewrite run_seq, run_bol_m. destruct (line_start s i); [|done].
  rewrite run_seq, run_group. unfold RDot. rewrite (matcher_star_lazy s _ [] (drop i s)); [|done|done|simpl; lia|].
  - simpl. rewrite Nat.add_0_r. destruct (s !! i) as [c|]; [|done]. by destruct Hc as [-> | ->].
  - left. destruct (drop i s) as [|c u] eqn:E; [done|]. apply drop_lookup in E as [E _]. rewrite E in Hc. by destruct Hc as [-> | ->].
Qed.

Section reading.
Context `{Unicode}.

(** The table holds what [ls] say. *)
Definition known (t : list (jstr * list jstr)) (ls : list line) : Prop :=
  forall k, assoc (k ++ js " ") t = match values_for k ls with [] => None | vs => Some vs end.

(** No member of [Object.prototype] has a name with a blank at its end. *)
Lemma get_spaced {A} (t : list (jstr * A)) k :
  obj_get t (k ++ js " ") = match assoc (k ++ js " ") t with Some a => POwn a | None => PUndefined end.
Proof.
  assert (Forall (fun m => last m <> Some 32%N) (js "__proto__" :: object_proto_methods)) as Hm.
  { apply (bool_decide_unpack _). vm_compute. exact I. }
  apply Forall_cons in Hm as [Hp Hm]. unfold obj_get. destruct (assoc _ t); [done|]. rewrite !decide_False; [done|..].
  - intros E. apply Hp. rewrite <- E. change (js " ") with [32%N]. by rewrite last_snoc.
  - intros E. apply (proj1 (Forall_forall _ _) Hm _ E). change (js " ") with [32%N]. by rewrite last_snoc.
Qed.

Lemma values_for_snoc k ls l : values_for k (ls ++ [l]) = values_for k ls ++ (if decide (toLowerCase (l_name l) = k) then [l_value l] else []).
Proof. unfold values_for. rewrite filter_app, fmap_app. f_equal. cbn. by case_decide. Qed.

Lemma known_snoc t ls l : known t ls ->
  known (assoc_set (toLowerCase (l_name l) ++ js " ") (values_for (toLowerCase (l_name l)) ls ++ [l_value l]) t) (ls ++ [l]).
Proof.
  intros Hk k. rewrite values_for_snoc. case_decide as E.
  - subst k. rewrite assoc_set_eq. by destruct (values_for _ ls).
  - rewrite assoc_set_ne, app_nil_r; [apply Hk|]. by intros ?%(inj (.++ js " ")).
Qed.

Lemma read_block ls : Forall line_ok ls -> forall s pre skip fuel t ls0,
  s = pre ++ skip ++ block ls -> (skip = [] /\ line_start s (length pre) = true) \/ skip = CRLF ->
  known t ls0 -> length ls < fuel ->
  exists t', read_headers fuel s (length pre) t = Ok t' /\ known t' (ls0 ++ ls).
Proof.
  induction 1 as [|l ls Hl Hls IH]; intros s pre skip fuel t ls0 -> Hskip Hk Hf; (destruct fuel as [|fuel]; [lia|]); cbn [read_headers].
  - exists t. rewrite (app_nil_r ls0). split; [|done]. rewrite search_nowhere; [done|]. intros j [Hj _]. apply no_match.
    rewrite lookup_app_r by done. change (block []) with (@nil N). rewrite app_nil_r. destruct Hskip as [[-> _]| ->]; [done|].
    change (match CRLF !! (j - length pre) with Some c => c = 13%N \/ c = 10%N | None => True end).
    destruct (j - length pre) as [|[|n]]; [by left|by right|done].
  - assert (Hb : block (l :: ls) = line_text l ++ CRLF ++ block ls) by (unfold block; cbn; by rewrite <- app_assoc).
    rewrite Hb in *. set (s := pre ++ skip ++ _). set (pre' := pre ++ skip).
    assert (Hs : s = pre' ++ line_text l ++ CRLF ++ block ls) by (unfold s, pre'; by rewrite <- app_assoc).
    assert (Hm : length pre' = length pre + length skip) by (unfold pre'; by rewrite length_app).
    assert (Hstart : line_start s (length pre') = true).
    { destruct Hskip as [[E E']|E]; [rewrite Hm, E, Nat.add_0_r; exact E'|].
      rewrite Hm, E. cbn. replace (length pre + 2) with (S (length pre + 1)) by lia. unfold line_start, s. rewrite E.
      rewrite lookup_app_r by lia. by replace (length pre + 1 - length pre) with 1 by lia. }
    destruct (match_line s pre' l (block ls) Hl Hs Hstart) as (r & Hr & He & Hg1 & Hg2).
    assert (Hlen : length pre' <= length s) by (rewrite Hs, length_app; lia).
    assert (forall j, length pre <= j < length pre' -> match_at rheaders s j = None) as Hno.
    { intros j Hj. apply no_match. destruct Hskip as [[-> _]|E]; [simpl in Hm; lia|]. subst skip. simpl in Hm.
      unfold s. rewrite lookup_app_r by lia. destruct (j - length pre) as [|[|n]] eqn:Ej; [by left|by right|lia]. }
    rewrite (search_skip _ _ (length pre')); [|lia|done].
    rewrite (search_here _ _ _ _ _ Hr), Hg1, Hg2, get_spaced, (Hk (toLowerCase (l_name l))).
    set (vs := values_for (toLowerCase (l_name l)) ls0).
    match goal with |- context [rbind ?m _] => assert (m = Ok vs) as -> by (by destruct vs) end. cbn [rbind].
    replace (m_end r) with (length (pre' ++ line_text l)) by (rewrite length_app; lia).
    destruct (IH s (pre' ++ line_text l) CRLF fuel (assoc_set (toLowerCase (l_name l) ++ js " ") (vs ++ [l_value l]) t) (ls0 ++ [l]))
      as (t' & E & Hk').
    + rewrite Hs. by rewrite <- app_assoc.
    + by right.
    + by apply known_snoc.
    + simpl in Hf. lia.
    + exists t'. split; [exact E|]. by rewrite <- app_assoc in Hk'.
Qed.

(** The response has arrived with these lines. *)
Definition received (ls : list line) (st : hstate) : Prop :=
  completed st = Some true /\ responseHeadersString st = Some (block ls) /\
  match responseHeaders st with Some t => known t ls | None => True end.

Lemma block_length ls : length ls <= length (block ls).
Proof.
  induction ls as [|l ls IH]; [done|]. change (block (l :: ls)) with ((line_text l ++ CRLF) ++ block ls).
  rewrite !length_app. change (length CRLF) with 2. simpl. lia.
Qed.

Lemma load_received ls st : Forall line_ok ls -> received ls st ->
  exists t, load_headers st = Ok (set_table t st) /\ known t ls.
Proof.
  intros Hls (Hc & Hs & Ht). unfold load_headers. destruct (responseHeaders st) as [t|] eqn:E.
  - exists t. split; [|done]. f_equal. destruct st. simpl in *. by subst.
  - rewrite Hs. change (str_or_undefined (Some (block ls))) with (block ls). cbv zeta.
    destruct (read_block ls Hls (block ls) [] [] (S (length (block ls))) [] []) as (t & E' & Hk); [done|by left|done|pose proof (block_length ls); lia|].
    exists t. split; [|done]. cbn [length] in E'. by rewrite E'.
Qed.

Lemma read_received key ls st : Forall line_ok ls -> received ls st ->
  exists st', getResponseHeader key st = Ok (match values_of key ls with [] => None | vs => Some (join (js ", ") vs) end, st') /\
    received ls st' /\ requestHeaders st' = requestHeaders st.
Proof.
  intros Hls Hr. destruct (load_received ls st Hls Hr) as (t & E & Hk). destruct Hr as (Hc & Hs & Ht).
  unfold getResponseHeader, is_completed. rewrite bool_decide_eq_true_2, E by done. cbn [rbind set_table responseHeaders default].
  rewrite get_spaced, Hk. exists (set_table t st). unfold values_of. by destruct (values_for _ ls).
Qed.

End reading.

(** * The address *)

Definition hash_ok (hash : jstr) : Prop :=
  match hash with [] => True | c :: u => c = chr "#" /\ Forall (fun c => is_line_terminator c = false) u end.

Lemma cut_hash base hash : chr "#" ∉ base -> hash_ok hash -> replace_first rhash (base ++ hash) (fun _ => []) = base.
Proof.
  intros Hb Hh. set (s := base ++ hash). unfold replace_first, exec.
  assert (forall j, j < length base -> match_at rhash s j = None) as Hno.
  { intros j Hj. unfold match_at, rhash. cbn [p_re p_groups]. unfold RChar. autorewrite with matching.
    destruct (s !! j) as [c|] eqn:E; [|done]. unfold s in E. rewrite lookup_app_l in E by done.
    rewrite (proj2 (N.eqb_neq _ _)); [done|]. intros <-. by apply list_elem_of_lookup_2 in E. }
  destruct hash as [|c u].
  - rewrite search_nowhere; [apply app_nil_r|]. intros j Hj. destruct (decide (j < length base)); [by apply Hno|].
    unfold match_at, rhash. cbn [p_re p_groups]. unfold RChar. autorewrite with matching.
    rewrite lookup_ge_None_2; [done|]. unfold s. rewrite length_app. simpl. lia.
  - destruct Hh as [-> Hu]. assert (length s = length base + S (length u)) as Hl by (unfold s; by rewrite length_app).
    rewrite (search_skip _ _ (length base)); [|lia|intros j Hj; apply Hno; lia].
    rewrite (search_here _ _ _ _ {| m_start := length base; m_end := length s; m_caps := [None] |}).
    + cbn [m_start m_end app]. rewrite (drop_ge s) by lia. unfold s. by rewrite take_app_length, app_nil_r.
    + unfold match_at, rhash. cbn [p_re p_groups]. unfold RChar. autorewrite with matching. unfold s at 1. rewrite lookup_here.
      cbn [head]. rewrite N.eqb_refl. unfold RDot.
      assert (S (length base) + length u = length s) as Hend by lia.
      rewrite (matcher_star_greedy s _ u []).
      * rewrite Hend. cbn [matcher]. by rewrite Nat.eqb_refl.
      * unfold s. change (chr "#" :: u) with ([chr "#"] ++ u). rewrite app_assoc, app_nil_r. rewrite drop_app_length'; [done|].
        rewrite length_app. simpl. lia.
      * eapply Forall_impl; [exact Hu|]. by intros x ->.
      * done.
      * rewrite Hend. cbn [matcher]. by rewrite Nat.eqb_refl.
Qed.

Lemma test_query u : test rquery u = bool_decide (chr "?" ∈ u).
Proof.
  unfold test, exec. pose proof (search_class 0 (N.eqb (chr "?")) u (length u) 0 eq_refl) as Hs.
  change {| p_groups := 0; p_re := RClass _ |} with rquery in Hs. destruct (search_from rquery u (length u) 0) as [r|].
  - destruct Hs as (x & Hx & Hp%N.eqb_eq & _). subst x. symmetry. apply bool_decide_eq_true_2. by eapply list_elem_of_lookup_2.
  - symmetry. apply bool_decide_eq_false_2. intros Hin. rewrite drop_0, Forall_forall in Hs. specialize (Hs _ Hin).
    by rewrite N.eqb_refl in Hs.
Qed.

(** ** The stamp *)

(** The pieces of a query without the first stamp *)
Fixpoint drop_stamp (ps : list jstr) : list jstr :=
  match ps with
  | [] => []
  | p :: ps' => if is_prefix (js "_=") p then [] :: ps' else p :: drop_stamp ps'
  end.

Lemma drop_stamp_cons p ps : drop_stamp (p :: ps) <> [].
Proof. cbn [drop_stamp]. by case_match. Qed.

Definition plain_piece (p : jstr) : Prop := Forall (fun c => c <> chr "?" /\ c <> chr "&") p.
Definition separator (c : N) : Prop := c = chr "?" \/ c = chr "&".

Lemma no_separator s j : match s !! j with Some c => ~ separator c | None => True end -> match_at rantiCache s j = None.
Proof.
  intros Hc. unfold match_at, rantiCache. cbn [p_re p_groups]. unfold ROneOf. autorewrite with matching.
  destruct (s !! j) as [c|]; [|done]. rewrite existsb_elem, bool_decide_eq_false_2; [done|].
  intros Hin. apply Hc. unfold separator. change (js "?&") with [chr "?"; chr "&"] in Hin.
  rewrite !elem_of_cons, elem_of_nil in Hin. naive_solver.
Qed.

Lemma at_separator s pre sep p u : s = pre ++ sep :: p ++ u -> separator sep -> plain_piece p ->
  match u with c :: _ => c = chr "&" | [] => True end ->
  match_at rantiCache s (length pre) =
    if is_prefix (js "_=") p
    then Some {| m_start := length pre; m_end := length pre + S (length p); m_caps := [None; Some (length pre, S (length pre))] |}
    else None.
Proof.
  intros -> Hsep Hp Hu. set (s := pre ++ _). set (i := length pre).
  assert (s !! i = Some sep) as Hi by (unfold s, i; by rewrite lookup_here).
  assert (drop (S i) s = p ++ u) as Hd.
  { unfold s, i. change (sep :: p ++ u) with ([sep] ++ p ++ u). rewrite app_assoc. apply drop_app_length'.
    rewrite length_app. simpl. lia. }
  assert (existsb (N.eqb sep) (js "?&") = true) as Hs by (by destruct Hsep as [-> | ->]).
  unfold match_at, rantiCache. cbn [p_re p_groups]. rewrite run_seq, run_group. unfold ROneOf. rewrite run_class, Hi, Hs, run_seq.
  change (RLit (js "_=")) with (RSeq (RChar (chr "_")) (RChar (chr "="))). unfold RChar. autorewrite with matching.
  destruct p as [|x p].
  { cbn [is_prefix app] in *. change (is_prefix (js "_=") []) with false. destruct u as [|y u].
    - rewrite (lookup_ge_None_2 s); [done|]. apply (f_equal length) in Hd. rewrite length_drop in Hd. simpl in Hd. lia.
    - apply drop_lookup in Hd as [-> _]. by subst y. }
  destruct (drop_lookup _ _ _ _ Hd) as [-> Hd1]. change (is_prefix (js "_=") (x :: p)) with (N.eqb (chr "_") x && is_prefix [chr "="] p).
  destruct (N.eqb_spec (chr "_") x) as [<-|]; [|done]. cbn [andb].
  destruct p as [|y p].
  { cbn [app] in Hd1. change (is_prefix [chr "="] []) with false. destruct u as [|y u].
    - rewrite (lookup_ge_None_2 s); [done|]. apply (f_equal length) in Hd1. rewrite length_drop in Hd1. simpl in Hd1. lia.
    - apply drop_lookup in Hd1 as [-> _]. by subst y. }
  destruct (drop_lookup _ _ _ _ Hd1) as [-> Hd2]. change (is_prefix [chr "="] (y :: p)) with (N.eqb (chr "=") y && true).
  destruct (N.eqb_spec (chr "=") y) as [<-|]; [|done]. cbn [andb]. unfold RNoneOf.
  assert (S (S (S i)) + length p = i + S (length (chr "_" :: chr "=" :: p))) as E by (simpl; lia).
  rewrite (matcher_star_greedy s _ p u); [by rewrite E|done|..].
  - apply Forall_cons in Hp as [_ Hp]. apply Forall_cons in Hp as [_ Hp]. eapply Forall_impl; [exact Hp|].
    intros c [_ Hc]. rewrite existsb_elem, bool_decide_eq_false_2; [done|]. change (js "&") with [chr "&"]. by rewrite list_elem_of_singleton.
  - destruct u as [|c u]; [done|]. by subst c.
  - done.
Qed.

Lemma join_pieces sep p ps : join sep (p :: ps) = p ++ match ps with [] => [] | _ => sep ++ join sep ps end.
Proof. destruct ps; simpl; by rewrite ?app_nil_r. Qed.

Lemma unstamp_from ps : forall pre sep s, Forall plain_piece ps -> ps <> [] -> separator sep -> s = pre ++ sep :: join (js "&") ps ->
  match search_from rantiCache s (length s - length pre) (length pre) with
  | Some r => take (m_start r) s ++ first_group s r ++ drop (m_end r) s = pre ++ sep :: join (js "&") (drop_stamp ps)
  | None => drop_stamp ps = ps
  end.
Proof.
  induction ps as [|p ps IH]; intros pre sep s Hps Hne Hsep Hs; [done|]. apply Forall_cons in Hps as [Hp Hps].
  set (u := match ps with [] => [] | _ => js "&" ++ join (js "&") ps end).
  rewrite join_pieces in Hs. fold u in Hs.
  assert (match u with c :: _ => c = chr "&" | [] => True end) as Hu by (unfold u; by destruct ps).
  pose proof (at_separator s pre sep p u Hs Hsep Hp Hu) as Hm. cbn [drop_stamp]. destruct (is_prefix (js "_=") p).
  - rewrite (search_here _ _ _ _ _ Hm), join_pieces. fold u. set (r := Build_rresult _ _ _).
    assert (first_group s r = [sep]) as ->.
    { unfold first_group, group_or_empty, group, cap_str. change (m_caps r !! 1) with (Some (Some (length pre, S (length pre)))).
      cbn [default]. unfold slice. replace (S (length pre) - length pre) with 1 by lia. by rewrite Hs, drop_here. }
    cbn [m_start m_end r app]. rewrite Hs at 1. rewrite take_app_length. do 2 f_equal.
    rewrite Hs. change (sep :: p ++ u) with ((sep :: p) ++ u). rewrite app_assoc, drop_app_length'; [done|]. rewrite length_app. simpl. lia.
  - destruct ps as [|p' ps'].
    + rewrite search_nowhere; [done|]. intros j Hj. destruct (decide (j = length pre)) as [->|Hne']; [done|]. apply no_separator.
      rewrite Hs. unfold u. rewrite app_nil_r. change (sep :: p) with ([sep] ++ p). rewrite app_assoc.
      rewrite lookup_app_r by (rewrite length_app; simpl; lia). destruct (p !! _) as [c|] eqn:E; [|done].
      destruct (proj1 (Forall_lookup _ _) Hp _ _ E) as [H1 H2]. by intros [?|?].
    + set (pre' := pre ++ sep :: p). assert (length pre' = length pre + S (length p)) as Hl by (unfold pre'; by rewrite length_app).
      assert (s = pre' ++ chr "&" :: join (js "&") (p' :: ps')) as Hs' by (unfold pre'; rewrite Hs, <- app_assoc; done).
      assert (length s = length pre' + S (length (join (js "&") (p' :: ps')))) as Hls by (rewrite Hs'; by rewrite length_app).
      rewrite (search_skip _ _ (length pre')); [|lia|].
      * specialize (IH pre' (chr "&") s Hps ltac:(done) ltac:(by right) Hs').
        replace (length s - length pre - (length pre' - length pre)) with (length s - length pre') by lia.
        destruct (search_from _ _ _ _) as [r|].
        -- rewrite IH. unfold pre'. rewrite <- app_assoc. cbn [app]. do 2 f_equal. rewrite join_pieces.
           pose proof (drop_stamp_cons p' ps'). by destruct (drop_stamp (p' :: ps')).
        -- by rewrite IH.
      * intros j Hj. destruct (decide (j = length pre)) as [->|Hne']; [done|]. apply no_separator.
        rewrite Hs'. rewrite lookup_app_l by lia. unfold pre'. change (sep :: p) with ([sep] ++ p). rewrite app_assoc.
        rewrite lookup_app_r by (rewrite length_app; simpl; lia). destruct (p !! _) as [c|] eqn:E; [|done].
        destruct (proj1 (Forall_lookup _ _) Hp _ _ E) as [H1 H2]. by intros [?|?].
Qed.

(** A query, if there are any pieces *)
Definition query_text (ps : list jstr) : jstr := match ps with [] => [] | _ => js "?" ++ join (js "&") ps end.

Lemma unstamp path ps : Forall (fun c => ~ separator c) path -> Forall plain_piece ps ->
  replace_first rantiCache (path ++ query_text ps) (first_group (path ++ query_text ps)) = path ++ query_text (drop_stamp ps).
Proof.
  intros Hpath Hps. set (s := path ++ query_text ps). unfold replace_first, exec.
  assert (length path <= length s) as Hl by (unfold s; rewrite length_app; lia).
  assert (forall j, j < length path -> match_at rantiCache s j = None) as Hno.
  { intros j Hj. apply no_separator. unfold s. rewrite lookup_app_l by done. destruct (path !! j) as [c|] eqn:E; [|done].
    exact (proj1 (Forall_lookup _ _) Hpath _ _ E). }
  rewrite (search_skip _ _ (length path)); [|lia|intros j Hj; apply Hno; lia].
  replace (length s - (length path - 0)) with (length s - length path) by lia. destruct ps as [|p ps].
  - rewrite search_nowhere; [done|]. intros j Hj. apply no_separator. rewrite lookup_ge_None_2; [done|]. unfold s. rewrite length_app. simpl. lia.
  - pose proof (unstamp_from (p :: ps) path (chr "?") s Hps ltac:(done) ltac:(by left) eq_refl) as Hu.
    assert (forall l, l <> [] -> path ++ query_text l = path ++ chr "?" :: join (js "&") l) as Hq by (by intros [|??]).
    destruct (search_from _ _ _ _) as [r|].
    + rewrite Hu. rewrite Hq; [done|apply drop_stamp_cons].
    + rewrite Hu. done.
Qed.

(** More pieces for a query *)
Lemma extend path ps qs : chr "?" ∉ path -> qs <> [] ->
  (path ++ query_text ps) ++ joint (path ++ query_text ps) ++ join (js "&") qs = path ++ query_text (ps ++ qs).
Proof.
  intros Hpath Hqs. unfold joint. rewrite test_query. destruct ps as [|p ps].
  - cbn [query_text app]. rewrite app_nil_r, bool_decide_eq_false_2 by done. by destruct qs.
  - rewrite bool_decide_eq_true_2; [|apply elem_of_app; right; left]. rewrite <- app_assoc. f_equal. cbn [query_text].
    change (query_text ((p :: ps) ++ qs)) with (js "?" ++ join (js "&") ((p :: ps) ++ qs)). rewrite <- app_assoc. f_equal.
    rewrite join_app by done. by destruct qs.
Qed.

(** What is between the ampersands of a query, or of data; nothing, if there is none *)
Definition pieces (q : option jstr) : list jstr := match q with Some t => split_char (chr "&") t | None => [] end.

Lemma split_nonempty c t : split_char c t <> [].
Proof. destruct t as [|x t]; simpl; [done|]. case_match; [done|]. by destruct (split_char c t). Qed.

Lemma query_pieces q : query_text (pieces q) = match q with Some t => js "?" ++ t | None => [] end.
Proof.
  destruct q as [t|]; [|done]. simpl. pose proof (split_nonempty (chr "&") t). pose proof (join_split_char (chr "&") t) as E.
  change [chr "&"] with (js "&") in E. destruct (split_char (chr "&") t); [done|]. cbn [query_text]. by rewrite E.
Qed.

Lemma plain_pieces q : match q with Some t => chr "?" ∉ t | None => True end -> Forall plain_piece (pieces q).
Proof.
  destruct q as [t|]; [|by constructor]. simpl. intros Hq. apply Forall_forall. intros p Hp. apply Forall_forall. intros c Hc. split.
  - intros ->. apply Hq. rewrite <- (join_split_char (chr "&") t). clear Hq. revert Hp. generalize (split_char (chr "&") t) as ps.
    intros ps. induction ps as [|x ps IH]; intros Hp; [by apply elem_of_nil in Hp|]. rewrite join_pieces. apply elem_of_app.
    apply elem_of_cons in Hp as [<-|Hp]; [by left|]. right. destruct ps; [by apply elem_of_nil in Hp|]. right. by apply IH.
  - intros ->. by apply split_char_no_sep in Hp.
Qed.

(** An address without a fragment: a path and a query *)
Definition address_text (path : jstr) (query : option jstr) : jstr := path ++ match query with Some q => js "?" ++ q | None => [] end.

(** No question mark, ampersand or hash in the path; none but ampersands in the query *)
Definition path_ok (path : jstr) : Prop := Forall (fun c => c <> chr "#" /\ ~ separator c) path.
Definition query_ok (query : option jstr) : Prop :=
  match query with Some q => Forall (fun c => c <> chr "#" /\ c <> chr "?") q | None => True end.

Lemma address_no_hash path query : path_ok path -> query_ok query -> chr "#" ∉ address_text path query.
Proof.
  intros Hp Hq [Hin|Hin]%elem_of_app; [by destruct (proj1 (Forall_forall _ _) Hp _ Hin)|].
  destruct query as [q|]; [|by apply elem_of_nil in Hin]. apply elem_of_app in Hin as [Hin|Hin].
  - by apply list_elem_of_singleton in Hin.
  - by destruct (proj1 (Forall_forall _ _) Hq _ Hin).
Qed.

Lemma path_no_query path : path_ok path -> chr "?" ∉ path.
Proof. intros Hp Hin. destruct (proj1 (Forall_forall _ _) Hp _ Hin) as [_ H]. apply H. by left. Qed.

Section address.
Context `{Unicode}.

(** The pieces of the query that a request asks for, but for the new stamp *)
Definition query_of (query : option jstr) (s : hsettings) : list jstr :=
  let ps := pieces query ++ pieces (appendable s) in if nocache s then drop_stamp ps else ps.

Lemma append_pieces path query s : path_ok path ->
  (append_data (address_text path query) s).1 = path ++ query_text (pieces query ++ pieces (appendable s)).
Proof.
  intros Hp. unfold append_data, address_text. rewrite <- query_pieces. destruct (appendable s) as [t|]; cbn [pieces fst].
  - rewrite <- (extend path (pieces query)); [|by apply path_no_query|apply split_nonempty].
    change (js "&") with [chr "&"]. by rewrite join_split_char.
  - by rewrite app_nil_r.
Qed.

Lemma no_content type : toUpperCase type ∈ [js "GET"; js "HEAD"] -> test rnoContent (toUpperCase type) = true.
Proof. rewrite !elem_of_cons, elem_of_nil. intros [->|[->|[]]]; by vm_compute. Qed.

Lemma appendable_type t b s : appendable (set_type t b s) = appendable s.
Proof. done. Qed.

(** What is left of the settings *)
Definition addressed (path : jstr) (query : option jstr) (hash : jstr) (n : Z) (s : hsettings) : hsettings :=
  set_url (path ++ query_text (query_of query s ++ if nocache s then [js "_=" ++ Z_to_jstr n] else []) ++ hash)
    (set_type (toUpperCase (type s)) false (match appendable s with Some _ => set_data BNone s | None => s end)).

(** The settings of a request without content, for an address of these parts *)
Definition plain_request (path : jstr) (query : option jstr) (hash : jstr) (s : hsettings) : Prop :=
  url s = address_text path query ++ hash /\ path_ok path /\ query_ok query /\ hash_ok hash /\
  match appendable s with Some t => chr "?" ∉ t | None => True end /\
  toUpperCase (type s) ∈ [js "GET"; js "HEAD"].

Lemma address_plain s n path query hash : plain_request path query hash s ->
  address s n = Ok (addressed path query hash n s, path ++ query_text (query_of query s), if nocache s then n + 1 else n)%Z.
Proof.
  intros (Hu & Hp & Hq & Hh & Ht & Htype). unfold address. rewrite (no_content _ Htype). cbn [negb hasContent set_type].
  set (s1 := set_type _ _ s). change (url s1) with (url s). rewrite Hu, cut_hash, drop_here by (done || by apply address_no_hash).
  pose proof (append_pieces path query s1 Hp) as Ha. change (appendable s1) with (appendable s) in Ha.
  destruct (append_data (address_text path query) s1) as [c s2] eqn:E. cbn [fst] in Ha. subst c.
  assert (s2 = set_type (toUpperCase (type s)) false (match appendable s with Some _ => set_data BNone s | None => s end)) as ->.
  { unfold append_data in E. change (appendable s1) with (appendable s) in E. destruct (appendable s); by injection E as _ <-. }
  unfold addressed. set (s3 := set_type _ _ _). assert (nocache s3 = nocache s) as -> by (unfold s3; by destruct (appendable s)).
  unfold query_of. set (ps := pieces query ++ pieces (appendable s)).
  assert (Forall plain_piece ps) as Hps.
  { apply Forall_app. split; apply plain_pieces; [|done]. destruct query as [q|]; [|done]. intros Hin.
    by destruct (proj1 (Forall_forall _ _) Hq _ Hin). }
  destruct (nocache s).
  - unfold stamp. rewrite unstamp; [|eapply Forall_impl; [exact Hp|]; by intros c [_ ?]|done].
    rewrite (app_assoc path (query_text (_ ++ _))), <- (extend path (drop_stamp ps) [js "_=" ++ Z_to_jstr n]) by (done || by apply path_no_query).
    cbn [join]. by rewrite <- !app_assoc.
  - by rewrite app_nil_r, <- app_assoc.
Qed.

(** C21. The address of a request without content.  With the path, the query and the hash
    of the given address, the request goes to the same path and hash, and its query is
    the given one and then the data; without caches the first stamp there is emptied
    and a new one put at the end.  Data that has become part of the address is not sent
    again. *)
Theorem address_correct s n path query hash : plain_request path query hash s ->
  exists s', address s n = Ok (s', path ++ query_text (query_of query s), if nocache s then n + 1 else n)%Z /\
    url s' = path ++ query_text (query_of query s ++ if nocache s then [js "_=" ++ Z_to_jstr n] else []) ++ hash /\
    data s' = match appendable s with Some _ => BNone | None => data s end /\ hasContent s' = false.
Proof. intros Hs. exists (addressed path query hash n s). rewrite (address_plain _ _ _ _ _ Hs). repeat split. cbn. by destruct (appendable s). Qed.
End address.

(** * The headers of a request *)

Section merge.
Context `{Unicode}.
Implicit Types (l : list (jstr * hvalue)) (st : hstate).

(** A name that no object inherits *)
Definition free_name (k : jstr) : Prop := k ∉ object_proto_methods /\ k <> js "__proto__".
Definition header_ok (h : jstr * hvalue) : Prop := h.1 <> [] /\ free_name (toLowerCase h.1).

Lemma get_free {A} (t : list (jstr * A)) k : free_name k -> obj_get t k = match assoc k t with Some a => POwn a | None => PUndefined end.
Proof. intros [H1 H2]. unfold obj_get. destruct (assoc k t); [done|]. by rewrite !decide_False. Qed.

(** The names in a list of headers, each as it is spelled first *)
Fixpoint spellings (seen : list jstr) l : list jstr :=
  match l with
  | [] => []
  | (n, _) :: l' => if decide (toLowerCase n ∈ seen) then spellings seen l' else n :: spellings (toLowerCase n :: seen) l'
  end.

(** The value that was given last for a name in lower case *)
Definition last_value (k : jstr) l : hvalue := default HUndefined (snd <$> last (base.filter (fun h => toLowerCase h.1 = k) l)).

(** The headers that are sent: every name once, as it was spelled first, with the value it
    was given last *)
Definition sent l : list (jstr * hvalue) := (fun n => (n, last_value (toLowerCase n) l)) <$> spellings [] l.

Definition lowers l : list jstr := (fun h => toLowerCase h.1) <$> l.

Lemma decide_same {A} (P Q : Prop) `{!Decision P, !Decision Q} (a b : A) : (P <-> Q) -> (if decide P then a else b) = if decide Q then a else b.
Proof. intros E. destruct (decide P), (decide Q); tauto. Qed.

Lemma spellings_snoc seen l n v :
  spellings seen (l ++ [(n, v)]) = spellings seen l ++ (if decide (toLowerCase n ∈ seen ++ lowers l) then [] else [n]).
Proof.
  revert seen. induction l as [|[m w] l IH]; intros seen; cbn [spellings app].
  - unfold lowers. cbn. rewrite app_nil_r. by case_decide.
  - unfold lowers in *. cbn [fmap list_fmap fst]. case_decide as E; rewrite IH.
    + f_equal. apply decide_same. rewrite !elem_of_app, elem_of_cons. split; [tauto|]. intros [?|[->|?]]; tauto.
    + cbn [app]. do 2 f_equal. apply decide_same. rewrite elem_of_cons, !elem_of_app, elem_of_cons. tauto.
Qed.

Lemma spellings_fresh seen l x : x ∈ spellings seen l -> toLowerCase x ∉ seen /\ toLowerCase x ∈ lowers l.
Proof.
  revert seen. induction l as [|[m w] l IH]; intros seen; cbn [spellings]; [by intros ?%elem_of_nil|].
  unfold lowers in *. cbn [fmap list_fmap fst]. case_decide as E.
  - intros [H1 H2]%IH. split; [done|by right].
  - intros [->|Hx]%elem_of_cons; [split; [done|left]|]. apply IH in Hx as [H1 H2]. split; [set_solver|by right].
Qed.

Lemma spellings_distinct seen l : NoDup (toLowerCase <$> spellings seen l).
Proof.
  revert seen. induction l as [|[m w] l IH]; intros seen; cbn [spellings]; [apply NoDup_nil_2|].
  case_decide; [done|]. cbn. apply NoDup_cons. split; [|done]. intros (x & Hx & Hin)%list_elem_of_fmap.
  apply spellings_fresh in Hin as [Hn _]. apply Hn. rewrite <- Hx. left.
Qed.

Lemma spellings_all seen l k : k ∈ lowers l -> k ∉ seen -> exists x, x ∈ spellings seen l /\ toLowerCase x = k.
Proof.
  revert seen. induction l as [|[m w] l IH]; intros seen; cbn [spellings]; [by intros ?%elem_of_nil|].
  unfold lowers in *. cbn [fmap list_fmap fst]. intros Hk Hs. case_decide as E.
  - apply IH; [|done]. apply elem_of_cons in Hk as [->|]; done.
  - destruct (decide (k = toLowerCase m)) as [->|Hne]; [exists m; split; [left|done]|].
    destruct (IH (toLowerCase m :: seen)) as (x & Hx & Ex); [set_solver..|]. exists x. split; [by right|done].
Qed.

Lemma spelled_once seen l x y : x ∈ spellings seen l -> y ∈ spellings seen l -> toLowerCase x = toLowerCase y -> x = y.
Proof.
  intros [i Hi]%list_elem_of_lookup [j Hj]%list_elem_of_lookup E.
  assert (i = j) as <-; [|congruence].
  apply (NoDup_lookup (toLowerCase <$> spellings seen l) i j (toLowerCase x)); [apply spellings_distinct|..].
  - by rewrite list_lookup_fmap, Hi.
  - by rewrite list_lookup_fmap, Hj, E.
Qed.

Lemma last_value_snoc k l n v : last_value k (l ++ [(n, v)]) = if decide (toLowerCase n = k) then v else last_value k l.
Proof.
  unfold last_value. rewrite filter_app. cbn. case_decide; [|by rewrite app_nil_r]. by rewrite last_snoc.
Qed.

(** Assignments to an object whose values are a function of the names *)
Lemma set_known ns (f : jstr -> hvalue) m v : NoDup ns -> m ∈ ns ->
  assoc_set m v ((fun n => (n, f n)) <$> ns) = (fun n => (n, if decide (n = m) then v else f n)) <$> ns.
Proof.
  induction ns as [|x ns IH]; intros Hnd Hm; [by apply elem_of_nil in Hm|]. apply NoDup_cons in Hnd as [Hx Hnd]. cbn. case_decide as E.
  - subst x. f_equal. apply list_fmap_ext. intros i y Hy. apply list_elem_of_lookup_2 in Hy. by rewrite decide_False by congruence.
  - f_equal. apply IH; [done|]. by apply elem_of_cons in Hm as [->|].
Qed.

Lemma set_unknown ns (f : jstr -> hvalue) m v : m ∉ ns ->
  assoc_set m v ((fun n => (n, f n)) <$> ns) = ((fun n => (n, f n)) <$> ns) ++ [(m, v)].
Proof.
  induction ns as [|x ns IH]; intros Hm; cbn; [done|]. rewrite decide_False by (intros ->; apply Hm; left).
  f_equal. apply IH. intros ?. apply Hm. by right.
Qed.

(** What the variables hold after the headers [l] *)
Definition holds l st : Prop :=
  completed st = None /\ requestHeaders st = sent l /\
  (forall k, k ∉ lowers l -> assoc k (requestHeadersNames st) = None) /\
  (forall x, x ∈ spellings [] l -> x <> [] /\ assoc (toLowerCase x) (requestHeadersNames st) = Some x).

Lemma sent_snoc_new l n v : toLowerCase n ∉ lowers l -> sent (l ++ [(n, v)]) = assoc_set n v (sent l).
Proof.
  intros Hn. unfold sent. rewrite set_unknown.
  - rewrite spellings_snoc, decide_False by done. rewrite fmap_app. f_equal.
    + apply list_fmap_ext. intros i y Hy. apply list_elem_of_lookup_2, spellings_fresh in Hy as [_ Hy].
      rewrite last_value_snoc, decide_False by congruence. done.
    + cbn. by rewrite last_value_snoc, decide_True.
  - by intros [_ ?]%spellings_fresh.
Qed.

Lemma sent_snoc_old l n v m : m ∈ spellings [] l -> toLowerCase m = toLowerCase n -> sent (l ++ [(n, v)]) = assoc_set m v (sent l).
Proof.
  intros Hm E. unfold sent. rewrite set_known; [|apply (NoDup_fmap_1 toLowerCase), spellings_distinct|done].
  rewrite spellings_snoc, decide_True, app_nil_r by (rewrite <- E; by apply (spellings_fresh [] l)).
  apply list_fmap_ext. intros i y Hy. apply list_elem_of_lookup_2 in Hy. rewrite last_value_snoc.
  destruct (decide (y = m)) as [->|Hne]; [by rewrite decide_True|]. rewrite decide_False; [done|].
  intros E'. apply Hne. apply (spelled_once [] l); [done..|congruence].
Qed.

Lemma set_holds l st n v : holds l st -> header_ok (n, v) -> exists st', setRequestHeader n v st = Ok st' /\ holds (l ++ [(n, v)]) st'.
Proof.
  intros (Hc & Hr & Hnew & Hold) [Hne Hfree]. cbn [fst] in *. unfold setRequestHeader. rewrite Hc, get_free by done.
  assert (lowers (l ++ [(n, v)]) = lowers l ++ [toLowerCase n]) as Hl by (unfold lowers; by rewrite fmap_app).
  destruct (decide (toLowerCase n ∈ lowers l)) as [Hin|Hin].
  - destruct (spellings_all [] l (toLowerCase n) Hin (not_elem_of_nil _)) as (m & Hm & E).
    destruct (Hold m Hm) as [Hm0 Hma]. rewrite <- E, Hma. assert (or_else (Some m) n = m) as -> by (destruct m; [by destruct Hm0|done]).
    eexists. split; [reflexivity|]. unfold holds. cbn [completed requestHeaders requestHeadersNames]. split; [done|]. split; [|split].
    + rewrite Hr. symmetry. by apply sent_snoc_old.
    + intros k Hk. rewrite assoc_set_ne; [apply Hnew; set_solver|]. intros <-. apply Hk. rewrite Hl. set_solver.
    + intros x. rewrite spellings_snoc, decide_True, app_nil_r by done. intros Hx. split; [by apply Hold|].
      destruct (decide (toLowerCase x = toLowerCase m)) as [E'|E'].
      * rewrite E', assoc_set_eq. f_equal. by apply (spelled_once [] l).
      * rewrite assoc_set_ne by congruence. by apply Hold.
  - rewrite (Hnew _ Hin). cbn [or_else]. eexists. split; [reflexivity|]. unfold holds. cbn [completed requestHeaders requestHeadersNames].
    split; [done|]. split; [|split].
    + rewrite Hr. symmetry. by apply sent_snoc_new.
    + intros k Hk. rewrite Hl in Hk. rewrite assoc_set_ne; [apply Hnew; set_solver|set_solver].
    + intros x. rewrite spellings_snoc, decide_False by done. intros [Hx|Hx]%elem_of_app.
      * rewrite assoc_set_ne; [by apply Hold|]. intros E. apply Hin. rewrite E. by apply (spellings_fresh [] l).
      * apply list_elem_of_singleton in Hx as ->. split; [done|]. by rewrite assoc_set_eq.
Qed.
Lemma set_all l2 : Forall header_ok l2 -> forall l1 st, holds l1 st -> exists st', set_headers l2 st = Ok st' /\ holds (l1 ++ l2) st'.
Proof.
  induction 1 as [|[n v] l2 Hh Hl IH]; intros l1 st Hst; cbn [set_headers]; [exists st; by rewrite app_nil_r|].
  destruct (set_holds l1 st n v Hst Hh) as (st1 & -> & H1). cbn [rbind]. destruct (IH _ _ H1) as (st' & E & H2).
  exists st'. split; [exact E|]. by rewrite <- app_assoc in H2.
Qed.

(** Nothing has been set yet. *)
Definition fresh st : Prop := completed st = None /\ requestHeaders st = [] /\ requestHeadersNames st = [].

Lemma fresh_holds st : fresh st -> holds [] st.
Proof. intros (H1 & H2 & H3). unfold holds. rewrite H3. split_and!; [done..|]. by intros x Hx%elem_of_nil. Qed.

(** C22. Headers merge without regard to case.  A request sends every header once, under
    the spelling that came first and with the value that came last, of the validators
    it remembers, the type of its content, what it accepts, and the [headers] option, in
    this order.  (The names are none that [Object.prototype] has.) *)
Theorem request_headers_sent s st g s' cacheURL n l :
  fresh st -> address s (guid g) = Ok (s', cacheURL, n) -> headers_of cacheURL s' g = Ok l -> Forall header_ok l ->
  exists st', request s st g = Ok (s', cacheURL, st', {| lastModified := lastModified g; etag := etag g; guid := n |}) /\
    requestHeaders st' = sent l /\
    forall name value t, setRequestHeader name value (receive t st') = Ok (receive t st').
Proof.
  intros Hst Ha Hl Hok. destruct (set_all l Hok [] st (fresh_holds st Hst)) as (st' & E & _ & Hr & _).
  exists st'. unfold request. rewrite Ha. cbn [rbind]. rewrite Hl. cbn [rbind]. by rewrite E.
Qed.

End merge.

(** Asking for several headers *)
Fixpoint ask `{Unicode} (keys : list jstr) (st : hstate) : res (list (option jstr) * hstate) :=
  match keys with
  | [] => Ok ([], st)
  | key :: keys' => do (v, st) <- getResponseHeader key st; do (vs, st) <- ask keys' st; Ok (v :: vs, st)
  end.

(** C20. The headers of a response are read back.  For a response whose header block has
    the lines [ls], names and values as HTTP has them, [getResponseHeader] answers for
    every name, in any case, the values of its lines in order, joined by commas, or null,
    as often as it is asked. *)
Theorem response_headers_read_back `{Unicode} ls st keys :
  Forall line_ok ls -> completed st = Some true -> responseHeadersString st = Some (block ls) -> responseHeaders st = None ->
  exists st', ask keys st = Ok ((fun key => match values_of key ls with [] => None | vs => Some (join (js ", ") vs) end) <$> keys, st').
Proof.
  intros Hls Hc Hs Hn. assert (received ls st) as Hr by (unfold received; by rewrite Hn). clear Hc Hs Hn.
  revert st Hr. induction keys as [|key keys IH]; intros st Hr; cbn [ask]; [by exists st|].
  destruct (read_received key ls st Hls Hr) as (st1 & -> & Hr1 & _). cbn [rbind]. destruct (IH st1 Hr1) as (st' & ->). by exists st'.
Qed.

(** What the lines of a response say, for the memory of dates and tags *)
Definition said `{Unicode} (name : string) (ls : list line) : jstr := join (js ", ") (values_of (js name) ls).

Lemma keep_said `{Unicode} name ls c known : said name ls <> [] -> c <> js "__proto__" ->
  keep c match values_of (js name) ls with [] => None | vs => Some (join (js ", ") vs) end known = assoc_set c (said name ls) known.
Proof.
  unfold said, keep. intros Hs Hc. destruct (values_of (js name) ls) as [|v vs]; [done|].
  destruct (join (js ", ") (v :: vs)); [done|]. by rewrite decide_False.
Qed.

Lemma conditional_known name c known v : free_name c -> v <> [] -> conditional_header name c (assoc_set c v known) = Ok [(name, HText v)].
Proof. intros Hf Hv. unfold conditional_header. rewrite get_free, assoc_set_eq by done. by destruct v. Qed.

(** C23. Validators return.  When a response with [ls] among its headers has been
    remembered under [cacheURL], the headers of any later request in the same mode for
    that address, whatever its fragment and its stamp, begin with what the response said
    of its date and its tag. *)
Theorem validators_return `{Unicode} ls st g s path query hash :
  Forall line_ok ls -> said "Last-Modified" ls <> [] -> said "etag" ls <> [] ->
  plain_request path query hash s -> ifModified s = true ->
  let cacheURL := path ++ query_text (query_of query s) in
  free_name cacheURL ->
  completed st = Some true -> responseHeadersString st = Some (block ls) -> responseHeaders st = None ->
  exists st' g' s' n, remember cacheURL true st g = Ok (st', g') /\ address s (guid g') = Ok (s', cacheURL, n) /\
    conditional_headers cacheURL s' g' =
      Ok [(js "If-Modified-Since", HText (said "Last-Modified" ls)); (js "If-None-Match", HText (said "etag" ls))].
Proof.
  intros Hls Hm Ht Hs Hi cacheURL Hf Hc Hstr Hn. assert (received ls st) as Hr by (unfold received; by rewrite Hn).
  destruct (read_received (js "Last-Modified") ls st Hls Hr) as (st1 & E1 & Hr1 & _).
  destruct (read_received (js "etag") ls st1 Hls Hr1) as (st2 & E2 & _).
  exists st2. eexists. exists (addressed path query hash (guid g) s). eexists. unfold remember. rewrite E1. cbn [rbind]. rewrite E2. cbn [rbind].
  split; [reflexivity|]. cbn [guid lastModified etag]. split; [apply (address_plain _ _ _ _ _ Hs)|].
  unfold conditional_headers. assert (ifModified (addressed path query hash (guid g) s) = true) as ->.
  { unfold addressed. cbn. by destruct (appendable s). }
  cbn [lastModified etag]. rewrite !keep_said by (done || by destruct Hf). by rewrite !conditional_known.
Qed.

(** * Instances *)

Definition page_settings (address : string) : hsettings :=
  {| url := js address; type := js "get"; hasContent := false; data := BText (js "q=3"); processData := true;
     contentType := HText (js "application/x-www-form-urlencoded"); optionsContentType := HUndefined; nocache := true; ifModified := true;
     dataTypes := [js "json"]; accepts := [(js "*", js "*/*"); (js "json", js "application/json")];
     headers := [(js "X-One", HText (js "1")); (js "ACCEPT", HText (js "text/html")); (js "x-one", HText (js "2"))] |}.

Lemma page_plain : plain_request (js "/a") (Some (js "_=1&x=2")) (js "#h") (page_settings "/a?_=1&x=2#h").
Proof.
  split; [reflexivity|]. split; [unfold path_ok, separator; by_deciding|]. split; [cbn; by_deciding|].
  split; [split; [reflexivity|by_deciding]|]. split; [cbn; by_deciding|by_deciding].
Qed.

Lemma address_correct_witness :
  exists s', address (page_settings "/a?_=1&x=2#h") 77 = Ok (s', js "/a?&x=2&q=3", 78%Z) /\ url s' = js "/a?&x=2&q=3&_=77#h" /\
    data s' = BNone /\ hasContent s' = false.
Proof.
  destruct (address_correct (page_settings "/a?_=1&x=2#h") 77 (js "/a") (Some (js "_=1&x=2")) (js "#h") page_plain) as (s' & E & Hu & Hd & Hc).
  exists s'. split; [rewrite E; vm_compute; reflexivity|]. split; [rewrite Hu; vm_compute; reflexivity|]. split; [exact Hd|exact Hc].
Defined.

Definition no_store : hstore := {| lastModified := []; etag := []; guid := 77 |}.

Lemma request_headers_sent_witness :
  exists s' st' g', request (page_settings "/a") hstate_start no_store = Ok (s', js "/a?q=3", st', g') /\
    requestHeaders st' = [(js "Accept", HText (js "text/html")); (js "X-One", HText (js "2"))].
Proof.
  destruct (request_headers_sent (page_settings "/a") hstate_start no_store
    (addressed (js "/a") None [] 77 (page_settings "/a")) (js "/a?q=3") 78
    [(js "Accept", HText (js "application/json, */*; q=0.01")); (js "X-One", HText (js "1")); (js "ACCEPT", HText (js "text/html")); (js "x-one", HText (js "2"))])
    as (st' & E & Hr & _).
  - repeat split.
  - vm_compute. reflexivity.
  - vm_compute. reflexivity.
  - repeat constructor; cbn [fst]; try discriminate; by_deciding.
  - eexists _, st', _. split; [exact E|]. rewrite Hr. vm_compute. reflexivity.
Defined.

Definition page_lines : list line :=
  [{| l_name := js "Content-Type"; l_blanks := js " "; l_value := js "text/html" |};
   {| l_name := js "Last-Modified"; l_blanks := js " "; l_value := js "Mon, 12:00" |};
   {| l_name := js "X"; l_blanks := []; l_value := [] |};
   {| l_name := js "ETag"; l_blanks := js "  "; l_value := js "1:2" |};
   {| l_name := js "x"; l_blanks := js " "; l_value := js "a, b" |}].

Lemma page_lines_ok : Forall line_ok page_lines.
Proof. unfold page_lines, line_ok, is_blank. repeat constructor; cbn; by_deciding. Qed.

Lemma response_headers_read_back_witness :
  exists st', ask [js "x"; js "last-modified"; js "constructor"] (receive (Some (block page_lines)) hstate_start) =
    Ok ([Some (js ", a, b"); Some (js "Mon, 12:00"); None], st').
Proof.
  destruct (response_headers_read_back page_lines (receive (Some (block page_lines)) hstate_start) [js "x"; js "last-modified"; js "constructor"])
    as (st' & E); [exact page_lines_ok|reflexivity..|]. exists st'. rewrite E. vm_compute. reflexivity.
Defined.

Lemma validators_return_witness :
  exists st' g' s' n, remember (js "/a?&x=2&q=3") true (receive (Some (block page_lines)) hstate_start) no_store = Ok (st', g') /\
    address (page_settings "/a?_=1&x=2#h") (guid g') = Ok (s', js "/a?&x=2&q=3", n) /\
    conditional_headers (js "/a?&x=2&q=3") s' g' =
      Ok [(js "If-Modified-Since", HText (js "Mon, 12:00")); (js "If-None-Match", HText (js "1:2"))].
Proof.
  apply (validators_return page_lines (receive (Some (block page_lines)) hstate_start) no_store (page_settings "/a?_=1&x=2#h")
    (js "/a") (Some (js "_=1&x=2")) (js "#h")); [exact page_lines_ok|vm_compute; discriminate|vm_compute; discriminate|exact page_plain|reflexivity| |reflexivity..].
  unfold free_name. by_deciding.
Defined.

End JqHeadersProofs.
