(* ===== verification/JqTrigger.v ===== *)
(** [jQuery.event.trigger] of [jquery.js] (lines 8651 to 8799): synthetic events along
    the path that an event of the browser would take, then the handlers in attributes
    and the default action, which is a method of the element.

    Nodes that are not in the document are windows or objects of the page.  The methods
    of elements are the browser's or the page's: an argument [native].  Types that need
    [leverageNative] ([focus], [blur], clicks of check boxes) and events that the page
    makes itself without a type are left out, and so are further arguments of the
    handlers. *)

From S2P Require Import Prelude Regex SzMatch SzReference JqEvent.
Import JqEvent.

Module JqTrigger.

(** [event.result = ...] and for false [preventDefault], as for a handler in an attribute *)
Definition set_result (a : answer) (ev : event) : event :=
  {| e_type := e_type ev; target := target ev; button := button ev; relatedTarget := relatedTarget ev;
     rnamespace := rnamespace ev; currentTarget := currentTarget ev; delegateTarget := delegateTarget ev;
     e_handleObj := e_handleObj ev; e_data := e_data ev; result := a;
     defaultPrevented := match a with AFalse => true | _ => defaultPrevented ev end;
     propagationStopped := propagationStopped ev; immediateStopped := immediateStopped ev |}.

(** The names that [event.rnamespace] is made of *)
Definition set_namespaces (names : list jstr) (ev : event) : event :=
  {| e_type := e_type ev; target := target ev; button := button ev; relatedTarget := relatedTarget ev;
     rnamespace := match join (js ".") names with [] => None | _ => Some names end;
     currentTarget := currentTarget ev; delegateTarget := delegateTarget ev;
     e_handleObj := e_handleObj ev; e_data := e_data ev; result := result ev;
     defaultPrevented := defaultPrevented ev; propagationStopped := propagationStopped ev; immediateStopped := immediateStopped ev |}.

(** [new jQuery.Event(type)] *)
Definition new_event (type : jstr) (elem : nat) : event :=
  {| e_type := type; target := elem; button := None; relatedTarget := None; rnamespace := None; currentTarget := None;
     delegateTarget := None; e_handleObj := None; e_data := ArgNone; result := AUndef;
     defaultPrevented := false; propagationStopped := false; immediateStopped := false |}.

Definition set_inline (m : gmap (nat * jstr) nat) (s : store) : store :=
  set_native {| inline := m; triggered := triggered (native s); stops := stops (native s); steps := steps (native s) |} s.
Definition set_triggered (t : option jstr) (s : store) : store :=
  set_native {| inline := inline (native s); triggered := t; stops := stops (native s); steps := steps (native s) |} s.
Definition set_stops (x : gset (nat * jstr)) (s : store) : store :=
  set_native {| inline := inline (native s); triggered := triggered (native s); stops := x; steps := steps (native s) |} s.
Definition note (x : step) (s : store) : store :=
  set_native {| inline := inline (native s); triggered := triggered (native s); stops := stops (native s); steps := steps (native s) ++ [x] |} s.

(** What is triggered: a type, perhaps with namespaces, or an event *)
Inductive targ := AType (type : jstr) | AnEvent (ev : event).

(** [/^(?:focusinfocus|focusoutblur)$/] *)
Definition rfocusMorph (s : jstr) : bool := bool_decide (s = js "focusinfocus") || bool_decide (s = js "focusoutblur").

(** [special.noBubble] *)
Definition noBubble (type : jstr) : bool := bool_decide (type = js "load").

(** The type and the namespaces *)
Definition type_and_names (a : targ) : jstr * list jstr :=
  let '(type, names) := match a with AType t => (t, []) | AnEvent ev => (e_type ev, default [] (rnamespace ev)) end in
  if bool_decide (chr "." ∈ type) then
    match split_char (chr ".") type with t :: names => (t, sort_names names) | [] => ([], []) end
  else (type, names).

Section trigger.
Variable d : gmap nat SzMatch.node.
Variable fuel : nat.
Variable find_one : bool -> jstr -> nat -> nat -> bool.
Variable call : nat -> nat -> event -> store -> outcome (answer * event).

Variable document : nat.
Variables ownerDocument : nat -> option nat.
Variable defaultView : nat -> nat.
Variable isWindow : nat -> bool.

(** Is [elem[type]] a function, and what does it do? *)
Variable has_method : nat -> jstr -> bool.
Variable method : nat -> jstr -> store -> outcome unit.

(** ** The path *)

Definition event_path (bubbles : bool) (elem : nat) : list nat :=
  if bubbles then
    let path := elem :: SzReference.trail (SzMatch.parent_of d) fuel elem in
    let top := default elem (last path) in
    path ++ (if bool_decide (top = default document (ownerDocument elem)) then [defaultView top] else [])
  else [elem].

(** The nodes of the path with the type the event has there *)
Definition visits (type : jstr) (path : list nat) : list (nat * jstr) :=
  match path with
  | [] => []
  | e :: path' =>
      (e, default type (bindType (special_of type))) ::
      ((fun cur => (cur, default type (delegateType (special_of type)))) <$> path')
  end.

(** ** The handlers *)

(** [elemData.handle], the main handler of an element *)
Definition eventHandle (this : nat) (ev : event) (s : store) : outcome event :=
  if bool_decide (triggered (native s) = Some (e_type ev)) then (Ok ev, s)
  else dispatch d fuel find_one call this ev s.

Definition jquery_handler (cur : nat) (ev : event) (s : store) : outcome event :=
  match assoc (e_type ev) (events_at cur s), handle (data_at cur s) with
  | Some _, Some _ => eventHandle cur ev s
  | _, _ => (Ok ev, s)
  end.

(** [cur[ontype]]; [ontype] is false for a type with a colon. *)
Definition ontype (type : jstr) : bool := negb (bool_decide (chr ":" ∈ type)).

Definition native_handler (type : jstr) (cur : nat) (ev : event) (s : store) : outcome event :=
  match inline (native s) !! (cur, type) with
  | Some n =>
      if ontype type && acceptData d cur then
        match call n cur ev s with
        | (Ok (a, ev'), s') => (Ok (set_result a ev'), s')
        | (Throw x, s') => (Throw x, s')
        end
      else (Ok ev, s)
  | None => (Ok ev, s)
  end.

(** The loop over the path, with the event and [lastElement] *)
Fixpoint run_path (type : jstr) (vs : list (nat * jstr)) (lastElement : nat) (ev : event) (s : store) : outcome (event * nat) :=
  match vs with
  | [] => (Ok (ev, lastElement), s)
  | (cur, t) :: vs' =>
      if propagationStopped ev then (Ok (ev, lastElement), s)
      else
        match jquery_handler cur (set_type t ev) (note (SVisit cur t) s) with
        | (Ok ev, s) =>
            match native_handler type cur ev s with
            | (Ok ev, s) => run_path type vs' cur ev s
            | (Throw x, s) => (Throw x, s)
            end
        | (Throw x, s) => (Throw x, s)
        end
  end.

(** ** The default action *)

(** [!special._default || special._default(...) === false]: links are not clicked. *)
Definition may_default (type : jstr) (ev : event) : bool :=
  negb (bool_decide (type = js "click") && bool_decide (ascii_lower <$> SzMatch.name_of d (target ev) = js "a")).

Definition has_default (type : jstr) (elem : nat) (ev : event) : bool :=
  may_default type ev && acceptData d elem && ontype type && has_method elem type && negb (isWindow elem).

Definition default_action (type : jstr) (elem lastElement : nat) (ev : event) (s : store) : outcome unit :=
  let tmp := inline (native s) !! (elem, type) in
  let s := match tmp with Some _ => set_inline (delete (elem, type) (inline (native s))) s | None => s end in
  let s := set_triggered (Some type) (note (SDefault elem type) s) in
  let s := if propagationStopped ev then set_stops ({[(lastElement, type)]} ∪ stops (native s)) s else s in
  match method elem type s with
  | (Ok _, s) =>
      let s := if propagationStopped ev then set_stops (stops (native s) ∖ {[(lastElement, type)]}) s else s in
      let s := set_triggered None s in
      (Ok tt, match tmp with Some n => set_inline (<[(elem, type) := n]> (inline (native s))) s | None => s end)
  | (Throw x, s) => (Throw x, s)
  end.

(** [jQuery.event.trigger(event, data, elem, onlyHandlers)]: the event afterwards, or
    nothing if it is not triggered *)
Definition trigger (a : targ) (elem : nat) (onlyHandlers : bool) (s : store) : outcome (option event) :=
  let type0 := match a with AType t => t | AnEvent ev => e_type ev end in
  if match d !! elem with Some x => N.eqb (SzMatch.nodeType x) 3 || N.eqb (SzMatch.nodeType x) 8 | None => false end
  then (Ok None, s)
  else if rfocusMorph (type0 ++ str_or_undefined (triggered (native s))) then (Ok None, s)
  else
    let '(type, names) := type_and_names a in
    if negb (bool_decide (is_Some (namespace_pattern names))) then (Throw (OutOfModel (js "namespace")), s)
    else
      let ev := set_result AUndef (set_namespaces names (match a with AType _ => new_event type elem | AnEvent ev => ev end)) in
      if leveraged d elem type || leveraged d (target ev) type then (Throw (OutOfModel (js "leverageNative")), s) else
      let bubbles := negb onlyHandlers && negb (noBubble type) && negb (isWindow elem) in
      match run_path type (visits type (event_path bubbles elem)) elem ev s with
      | (Ok (ev, lastElement), s) =>
          let ev := set_type type ev in
          if negb onlyHandlers && negb (defaultPrevented ev) && has_default type elem ev then
            match default_action type elem lastElement ev s with
            | (Ok _, s) => (Ok (Some ev), s)
            | (Throw x, s) => (Throw x, s)
            end
          else (Ok (Some ev), s)
      | (Throw x, s) => (Throw x, s)
      end.

End trigger.

(** * A page whose handlers and methods trigger events themselves *)

Inductive act :=
| AOn (elems : list nat) (types : jstr) (selector data f : arg) (one : bool)
| AOff (elems : list nat) (types : jstr) (selector f : arg)
| ATrigger (a : targ) (elem : nat) (onlyHandlers : bool)
| ABrowser (this : nat) (ev : event).      (** an event of the browser reaches a main handler *)

Record page := {
  p_dom : gmap nat SzMatch.node;
  p_fuel : nat;
  p_find : bool -> jstr -> nat -> nat -> bool;
  p_check : jstr -> res unit;
  p_document : nat;
  p_owner : nat -> option nat;
  p_view : nat -> nat;
  p_window : nat -> bool;
  p_has_method : nat -> jstr -> bool;
  (** What a handler does and answers, and what a method does *)
  p_code : nat -> nat -> event -> store -> list act * res (answer * event);
  p_method : nat -> jstr -> store -> list act * res unit;
}.

Section page.
Variable P : page.

Definition unit_of {A} (o : outcome A) : outcome unit := match o with (Ok _, s) => (Ok tt, s) | (Throw x, s) => (Throw x, s) end.

(** A command that throws ends the others. *)
Fixpoint run_each (run : act -> store -> outcome unit) (l : list act) (s : store) : outcome unit :=
  match l with
  | [] => (Ok tt, s)
  | a :: l' => match run a s with (Ok _, s) => run_each run l' s | x => x end
  end.

Definition with_answer {A} (run : act -> store -> outcome unit) (l : list act * res A) (s : store) : outcome A :=
  match run_each run l.1 s with (Ok _, s) => (l.2, s) | (Throw x, s) => (Throw x, s) end.

(** Commands, with [fuel] for how deep they start each other *)
Fixpoint run_act (fuel : nat) (a : act) (s : store) : outcome unit :=
  match fuel with
  | O => (Throw (OutOfModel (js "fuel")), s)
  | S fuel' =>
      let call n e ev s := with_answer (run_act fuel') (p_code P n e ev s) s in
      let method e t s := with_answer (run_act fuel') (p_method P e t s) s in
      match a with
      | AOn elems types selector data f one => on (p_dom P) (p_check P) elems types selector data f one s
      | AOff elems types selector f => off elems types selector f s
      | ATrigger a elem only =>
          unit_of (trigger (p_dom P) (p_fuel P) (p_find P) call (p_document P) (p_owner P) (p_view P) (p_window P)
            (p_has_method P) method a elem only s)
      | ABrowser this ev => unit_of (eventHandle (p_dom P) (p_fuel P) (p_find P) call this ev s)
      end
  end.

End page.

End JqTrigger.
