(* ===== verification/JqTriggerProofs.v ===== *)
(** What a triggered event visits, that triggers leave no traces, however deep they are
    nested, and the one way in which a trace stays.

    The operations on handlers do not touch what the library shares with the browser, so
    that a property of it holds of a dispatch when it holds of the code of the page: the
    rule [dispatch_keeps], for any preorder. *)

From S2P Require Import Prelude Regex SzMatch SzReference SzSelect JqEvent JqTrigger.
Import SzReference JqEvent JqTrigger.

Module JqTriggerProofs.

(** * Operations that keep the shared state *)

Definition same (s s' : store) : Prop := native s' = native s.

#[global] Instance same_preorder : PreOrder same.
Proof. unfold same. split; [by intros s|]. intros ? ? ?. congruence. Qed.

Lemma remove_type_native e mapped f sel orig rest names s r s' : remove_type e mapped f sel orig rest names s = (r, s') -> same s s'.
Proof. unfold remove_type. case_match; [|by intros [= _ <-]]. intros [= _ <-]. unfold same. by repeat case_match. Qed.

Lemma tidy_up_native e s : same s (tidy_up e s).
Proof. unfold tidy_up. by case_match. Qed.

Lemma remove_key_native e f sel tok k s r s' : remove_key e f sel tok k s = (r, s') -> same s s'.
Proof.
  unfold remove_key. destruct (events _); [|by intros [= _ <-]]. destruct (parse_type _) as [[orig rest] names].
  destruct (remove_type _ _ _ _ _ _ _ _) as [r1 s1] eqn:E. apply remove_type_native in E.
  destruct r1; intros [= _ <-]; [|done]. etrans; [done|apply tidy_up_native].
Qed.

Lemma remove_keys_native e f sel tok ks s r s' : remove_keys e f sel tok ks s = (r, s') -> same s s'.
Proof.
  revert s. induction ks as [|k ks IH]; intros s; simpl; [by intros [= _ <-]|].
  destruct (remove_key e f sel tok k s) as [r1 s1] eqn:E. apply remove_key_native in E.
  destruct r1; [|by intros [= _ <-]]. intros Hr. etrans; [done|by eapply IH].
Qed.

Lemma remove_types_native e f sel toks s r s' : remove_types e f sel toks s = (r, s') -> same s s'.
Proof.
  revert s. induction toks as [|tok toks IH]; intros s; simpl; [by intros [= _ <-]|].
  destruct (parse_type tok) as [[orig rest] names]. destruct (match orig with [] => _ | _ => _ end) as [r1 s1] eqn:E.
  assert (same s s1) by (destruct orig; [by eapply remove_keys_native|by eapply remove_type_native]).
  destruct r1; [|by intros [= _ <-]]. intros Hr. etrans; [done|by eapply IH].
Qed.

Lemma remove_native e types f sel s r s' : remove e types f sel s = (r, s') -> same s s'.
Proof.
  unfold remove. destruct (events _); [|by intros [= _ <-]].
  destruct (remove_types _ _ _ _ _) as [r1 s1] eqn:E. apply remove_types_native in E.
  destruct r1; intros [= _ <-]; [|done]. etrans; [done|apply tidy_up_native].
Qed.

Lemma off_event_native ev s r s' : off_event ev s = (r, s') -> same s s'.
Proof.
  unfold off_event. destruct (e_handleObj ev) as [h|]; [|by intros [= _ <-]].
  destruct (delegateTarget ev); [|by intros [= _ <-]]. apply remove_native.
Qed.

Lemma off_native elems types sel f s r s' : off elems types sel f s = (r, s') -> same s s'.
Proof.
  unfold off. destruct (match sel with ArgFalse => _ | _ => _ end) as [sel' f'].
  assert (forall f sel s r s', off_each elems types f sel s = (r, s') -> same s s') as Heach.
  { clear. induction elems as [|e es IH]; intros f sel s r s'; simpl; [by intros [= _ <-]|].
    destruct (remove e types f sel s) as [r1 s1] eqn:E. apply remove_native in E.
    destruct r1; [|by intros [= _ <-]]. intros Hr. etrans; [done|by eapply IH]. }
  destruct f'; try apply Heach. all: by intros [= _ <-].
Qed.

Lemma ensure_guid_native f s : same s (ensure_guid f s).2.
Proof. unfold ensure_guid. by case_match. Qed.

Lemma init_events_native e s : same s (init_events e s).
Proof. unfold init_events, same. by repeat case_match. Qed.

Lemma add_type_native d e f g data sel tok s r s' : add_type d e f g data sel tok s = (r, s') -> same s s'.
Proof.
  unfold add_type. destruct (parse_type tok) as [[orig rest] names]. unfold same.
  destruct orig; [by intros [= _ <-]|]. case_match; [by intros [= _ <-]|]. case_match; [by intros [= _ <-]|].
  intros [= _ <-]. by case_match.
Qed.

Lemma add_types_native d e f g data sel toks s r s' : add_types d e f g data sel toks s = (r, s') -> same s s'.
Proof.
  revert s. induction toks as [|tok toks IH]; intros s; simpl; [by intros [= _ <-]|].
  destruct (add_type d e f g data sel tok s) as [r1 s1] eqn:E. apply add_type_native in E.
  destruct r1; [|by intros [= _ <-]]. intros Hr. etrans; [done|by eapply IH].
Qed.

Lemma add_native d check e types f data sel s r s' : add d check e types f data sel s = (r, s') -> same s s'.
Proof.
  unfold add. case_match; [by intros [= _ <-]|]. case_match; [|by intros [= _ <-]].
  pose proof (ensure_guid_native f s) as Hg. destruct (ensure_guid f s) as [g s1]. simpl in Hg.
  intros Hr%add_types_native. etrans; [exact Hg|]. etrans; [apply init_events_native|done].
Qed.

Lemma on_native d check elems types sel data f one s r s' : on d check elems types sel data f one s = (r, s') -> same s s'.
Proof.
  unfold on. destruct (on_arguments sel data f) as [[sel' data'] f'].
  assert (forall f data sel s r s', on_each d check elems types f data sel s = (r, s') -> same s s') as Heach.
  { clear. induction elems as [|e es IH]; intros f data sel s r s'; simpl; [by intros [= _ <-]|].
    destruct (add _ _ _ _ _ _ _ _) as [r1 s1] eqn:E. apply add_native in E.
    destruct r1; [|by intros [= _ <-]]. intros Hr. etrans; [done|by eapply IH]. }
  assert (forall f s, same s (if one then wrap_one f s else (f, s)).2) as Hwrap.
  { intros f0 s0. destruct one; [|done]. unfold wrap_one.
    pose proof (ensure_guid_native f0 (set_wrapped (fresh s0) f0 (set_fresh (S (fresh s0)) s0))) as Hg.
    by destruct (ensure_guid _ _). }
  assert (forall f r s', (let '(f, s) := if one then wrap_one f s else (f, s) in on_each d check elems types f data' (as_selector sel') s) = (r, s') -> same s s') as Hbind.
  { intros f0 r0 s0. pose proof (Hwrap f0 s) as Hw. destruct (if one then _ else _) as [f1 s1]. intros Hr%Heach. by etrans. }
  destruct f' as [|[|? ?]|f0| |]; destruct sel'; first [by intros [= _ <-]|apply Hbind].
Qed.

(** * A rule for dispatches *)

Section keeps.
Context {d : gmap nat SzMatch.node} {fuel : nat} {call : nat -> nat -> event -> store -> outcome (answer * event)}.

(** What holds of a run that ends as [good] says *)
Variable R : nstate -> nstate -> Prop.
Context {R_preorder : PreOrder R}.
Variable good : forall A, res A -> Prop.
Hypothesis good_bind : forall A B (x : exn), good A (Throw x) -> good B (Throw x).
Hypothesis good_ok : forall A (a : A), good A (Ok a).

Definition keeps {A} (s : store) (o : outcome A) : Prop := good A o.1 -> R (native s) (native o.2).

Hypothesis Hcall : forall n e ev s, keeps s (call n e ev s).

Lemma keeps_same {A} s s' (r : res A) : same s s' -> keeps s (r, s').
Proof using R_preorder. unfold keeps, same. intros E _. simpl. by rewrite E. Qed.

Lemma keeps_from {A} s s1 (o : outcome A) : R (native s) (native s1) -> keeps s1 o -> keeps s o.
Proof using R_preorder. unfold keeps. intros H1 H2 Hg. etrans; [done|auto]. Qed.

Lemma keeps_bind {A B} s (o : outcome A) (f : A -> store -> outcome B) :
  keeps s o -> (forall a s1, keeps s1 (f a s1)) ->
  keeps s (match o with (Ok a, s1) => f a s1 | (Throw x, s1) => (Throw x, s1) end).
Proof using R_preorder good_bind good_ok.
  destruct o as [[a|x] s1]; intros H1 H2.
  - apply (keeps_from _ s1); [apply H1, good_ok|apply H2].
  - intros Hg. apply H1. exact (good_bind _ _ _ Hg).
Qed.

Lemma apply_fn_keeps n f elem ev s : keeps s (apply_fn call n f elem ev s).
Proof using Type*.
  revert f s. induction n as [|n IH]; intros f s; destruct f as [m|m|]; cbn [apply_fn]; try (by apply keeps_same).
  1, 2: apply (keeps_from _ (log_call (FUser m) elem s)); [done|apply Hcall].
  apply (keeps_bind s (off_event ev s) (fun _ s1 => apply_fn call n (default FFalse (wrapped s1 !! m)) elem ev s1)); [|by intros].
  destruct (off_event ev s) as [r1 s1] eqn:E. apply keeps_same. by eapply off_event_native.
Qed.

Lemma invoke_keeps h elem ev s : keeps s (invoke d fuel call h elem ev s).
Proof using Type*.
  unfold invoke. destruct (assoc _ _) as [fix_|]; [|apply apply_fn_keeps]. destruct (match relatedTarget ev with None => _ | _ => _ end); [|by apply keeps_same].
  pose proof (apply_fn_keeps (2 + fresh s) (handler h) elem (set_type (origType h) ev) s) as H.
  destruct (apply_fn _ _ _ _ _ _) as [[[a ev']|x] s1]; intros Hg; apply H; [apply good_ok|exact Hg].
Qed.

Lemma run_handlers_keeps elem hs ev s : keeps s (run_handlers d fuel call elem hs ev s).
Proof using Type*.
  revert ev s. induction hs as [|h hs IH]; intros ev s; cbn [run_handlers]; [by apply keeps_same|].
  destruct (immediateStopped ev); [by apply keeps_same|]. destruct (in_namespace ev h); [|apply IH].
  pose proof (invoke_keeps h elem (set_handleObj h ev) s) as H.
  destruct (invoke _ _ _ _ _ _ _) as [[[a ev']|x] s1].
  - apply (keeps_from _ s1); [apply H, good_ok|apply IH].
  - intros Hg. apply H. exact (good_bind _ _ _ Hg).
Qed.

Lemma run_queue_keeps queue ev s : keeps s (run_queue d fuel call queue ev s).
Proof using Type*.
  revert ev s. induction queue as [|[elem hs] queue IH]; intros ev s; cbn [run_queue]; [by apply keeps_same|].
  destruct (propagationStopped ev); [by apply keeps_same|].
  pose proof (run_handlers_keeps elem hs (set_current elem ev) s) as H.
  destruct (run_handlers _ _ _ _ _ _ _) as [[ev'|x] s1].
  - apply (keeps_from _ s1); [apply H, good_ok|apply IH].
  - exact H.
Qed.

Lemma dispatch_keeps find_one this ev s : keeps s (dispatch d fuel find_one call this ev s).
Proof using Type*. unfold dispatch. case_match; [apply run_queue_keeps|by apply keeps_same]. Qed.

Lemma eventHandle_keeps find_one this ev s : keeps s (eventHandle d fuel find_one call this ev s).
Proof using Type*. unfold eventHandle. case_match; [by apply keeps_same|apply dispatch_keeps]. Qed.

Lemma jquery_handler_keeps find_one cur ev s : keeps s (jquery_handler d fuel find_one call cur ev s).
Proof using Type*. unfold jquery_handler. repeat case_match; try (by apply keeps_same). apply eventHandle_keeps. Qed.

Lemma native_handler_keeps type cur ev s : keeps s (native_handler d call type cur ev s).
Proof using Type*.
  unfold native_handler. case_match; [|by apply keeps_same]. case_match; [|by apply keeps_same].
  pose proof (Hcall n cur ev s) as H'. destruct (call n cur ev s) as [[[a ev']|x] s1]; intros Hg; apply H'; [apply good_ok|exact (good_bind _ _ _ Hg)].
Qed.

End keeps.

(** * What a trigger visits *)

Section visits.
Variable d : gmap nat SzMatch.node.
Variable fuel : nat.
Variable find_one : bool -> jstr -> nat -> nat -> bool.
Variable call : nat -> nat -> event -> store -> outcome (answer * event).
Variable document : nat.
Variables ownerDocument : nat -> option nat.
Variable defaultView : nat -> nat.
Variable isWindow : nat -> bool.
Variable has_method : nat -> jstr -> bool.
Variable method : nat -> jstr -> store -> outcome unit.

(** The code of the page and of the browser does not count the steps of the triggers it
    starts itself. *)
Definition quiet : Prop :=
  (forall n e ev s, steps (native (call n e ev s).2) = steps (native s)) /\
  (forall e t s, steps (native (method e t s).2) = steps (native s)).

Hypothesis Hquiet : quiet.

Definition same_steps (n n' : nstate) : Prop := steps n' = steps n.
#[local] Instance same_steps_preorder : PreOrder same_steps.
Proof. unfold same_steps. split; [by intros n|]. intros ? ? ? ? ?. congruence. Qed.

Definition visit (v : nat * jstr) : step := SVisit v.1 v.2.

Lemma handlers_steps type cur ev s r s' :
  match jquery_handler d fuel find_one call cur ev s with
  | (Ok ev, s) => native_handler d call type cur ev s
  | (Throw x, s) => (Throw x, s)
  end = (r, s') -> steps (native s') = steps (native s).
Proof using Hquiet.
  pose (good := fun (A : Type) (_ : res A) => True).
  assert (forall n e ev s, keeps same_steps good s (call n e ev s)) as Hc by (intros n e ev0 s0 _; apply Hquiet).
  pose proof (jquery_handler_keeps (d := d) (fuel := fuel) same_steps good ltac:(done) ltac:(done) Hc find_one cur ev s I) as H1.
  destruct (jquery_handler _ _ _ _ _ _ _) as [[ev1|x] s1]; [|by intros [= _ <-]].
  pose proof (native_handler_keeps (d := d) same_steps good ltac:(done) ltac:(done) Hc type cur ev1 s1 I) as H2.
  intros E. rewrite E in H2. simpl in *. unfold same_steps in *. congruence.
Qed.

Lemma run_path_steps type vs last ev s r s' : run_path d fuel find_one call type vs last ev s = (r, s') ->
  exists k, steps (native s') = steps (native s) ++ (visit <$> take k vs) /\
    match r with Ok (ev', _) => propagationStopped ev' = false -> take k vs = vs | Throw _ => True end.
Proof using Hquiet.
  revert last ev s. induction vs as [|[cur t] vs IH]; intros last ev s; cbn [run_path].
  - intros [= <- <-]. exists 0. simpl. by rewrite app_nil_r.
  - destruct (propagationStopped ev) eqn:Ep.
    { intros [= <- <-]. exists 0. simpl. rewrite app_nil_r. split; [done|]. congruence. }
    pose proof (handlers_steps type cur (set_type t ev) (note (SVisit cur t) s)) as Hs.
    destruct (jquery_handler _ _ _ _ _ _ _) as [[ev1|x] s1].
    + destruct (native_handler _ _ _ _ _ _) as [[ev2|x] s2]; specialize (Hs _ _ eq_refl); cbn in Hs.
      * intros (k & Hk & Hr)%IH. exists (S k). cbn [take fmap list_fmap]. split; [by rewrite Hk, Hs, <- app_assoc|].
        destruct r as [[ev' ?]|]; [|done]. intros H. by rewrite (Hr H).
      * intros [= <- <-]. exists 1. by rewrite Hs.
    + specialize (Hs _ _ eq_refl). cbn in Hs. intros [= <- <-]. exists 1. by rewrite Hs.
Qed.

Lemma default_steps type elem last ev s : steps (native (default_action method type elem last ev s).2) = steps (native s) ++ [SDefault elem type].
Proof using Hquiet.
  unfold default_action. destruct Hquiet as [_ Hm].
  match goal with |- context [method elem type ?s0] => pose proof (Hm elem type s0) as H; destruct (method elem type s0) as [[u|x] s1] end;
    destruct (propagationStopped ev), (inline (native s) !! (elem, type)); simpl in *; by rewrite H.
Qed.

Lemma trigger_steps a elem only s r s' :
  trigger d fuel find_one call document ownerDocument defaultView isWindow has_method method a elem only s = (r, s') ->
  let type := (type_and_names a).1 in
  let path := visits type (event_path d fuel document ownerDocument defaultView (negb only && negb (noBubble type) && negb (isWindow elem)) elem) in
  exists k dflt, steps (native s') = steps (native s) ++ (visit <$> take k path) ++ dflt /\
    match r with
    | Ok (Some ev) =>
        (propagationStopped ev = false -> take k path = path) /\
        dflt = (if negb only && negb (defaultPrevented ev) && has_default d isWindow has_method type elem ev then [SDefault elem type] else [])
    | Ok None => k = 0 /\ dflt = []
    | Throw _ => dflt = [] \/ dflt = [SDefault elem type]
    end.
Proof using Hquiet.
  intros H type path. unfold trigger in H. destruct (match d !! elem with Some x => _ | None => _ end).
  { injection H as <- <-. exists 0, []. by rewrite app_nil_r. }
  destruct (rfocusMorph _). { injection H as <- <-. exists 0, []. by rewrite app_nil_r. }
  unfold type in *. destruct (type_and_names a) as [t names]. cbn [fst] in *. fold path in H.
  destruct (negb (bool_decide (is_Some (namespace_pattern names)))). { injection H as <- <-. exists 0, []. rewrite app_nil_r. auto. }
  destruct (leveraged d elem t || _). { injection H as <- <-. exists 0, []. rewrite app_nil_r. auto. }
  destruct (run_path _ _ _ _ _ _ _ _ _) as [[[ev last]|x] s1] eqn:E; apply run_path_steps in E as (k & Hk & Hr); exists k.
  - change (defaultPrevented (set_type t ev)) with (defaultPrevented ev) in H.
    destruct (negb only && negb (defaultPrevented ev) && has_default _ _ _ _ _ _) eqn:Ed.
    + exists [SDefault elem t]. pose proof (default_steps t elem last (set_type t ev) s1) as Hs.
      destruct (default_action _ _ _ _ _ _) as [[u|x] s2]; injection H as <- <-; simpl in Hs; rewrite Hs, Hk, <- app_assoc; cbn; rewrite ?Ed; auto.
    + exists []. injection H as <- <-. rewrite app_nil_r. cbn. by rewrite Ed.
  - injection H as <- <-. exists []. rewrite app_nil_r. auto.
Qed.

(** The way from a node up to the root of its tree *)
Inductive climbs : nat -> list nat -> Prop :=
| climbs_top e : SzMatch.parent_of d e = None -> climbs e [e]
| climbs_up e p l : SzMatch.parent_of d e = Some p -> climbs p l -> climbs e (e :: l).

Lemma trail_climbs depth fuel0 (T : tree d depth fuel0) n e : depth e <= n -> climbs e (e :: SzReference.trail (SzMatch.parent_of d) n e).
Proof using Type.
  revert e. induction n as [|n IH]; intros e Hn; simpl; destruct (SzMatch.parent_of d e) as [p|] eqn:E; try (by apply climbs_top).
  - pose proof (parent_depth _ _ _ T _ _ E). lia.
  - eapply climbs_up; [done|]. apply IH. pose proof (parent_depth _ _ _ T _ _ E). lia.
Qed.

(** C7. A trigger goes the way of an event.  It visits the element, its ancestors and,
    from the document, the window, each with the type that special events map to, up to
    a handler that stops it and no further; with [onlyHandlers], and for events that do
    not bubble, the element alone.  Then it does the default action of the element, once,
    unless a handler prevented it or there is none.  Text and comments are not visited. *)
Theorem trigger_visits_path depth (T : tree d depth fuel) a elem only s r s' :
  trigger d fuel find_one call document ownerDocument defaultView isWindow has_method method a elem only s = (r, s') ->
  let type := (type_and_names a).1 in
  exists up k dflt, climbs elem up /\
    let top := default elem (last up) in
    let window := if bool_decide (top = default document (ownerDocument elem)) then [defaultView top] else [] in
    let above := if negb only && negb (noBubble type) && negb (isWindow elem) then tail up ++ window else [] in
    let path := SVisit elem (mapped_type None type) :: ((fun cur => SVisit cur (mapped_type (Some (js "*")) type)) <$> above) in
    steps (native s') = steps (native s) ++ take k path ++ dflt /\
    match r with
    | Ok (Some ev) =>
        (propagationStopped ev = false -> take k path = path) /\
        dflt = (if negb only && negb (defaultPrevented ev) && has_default d isWindow has_method type elem ev then [SDefault elem type] else [])
    | Ok None => k = 0 /\ dflt = []
    | Throw _ => dflt = [] \/ dflt = [SDefault elem type]
    end.
Proof using Hquiet.
  intros H type. destruct (trigger_steps a elem only s r s' H) as (k & dflt & Hs & Hr). fold type in Hs, Hr.
  exists (elem :: SzReference.trail (SzMatch.parent_of d) fuel elem), k, dflt. split; [eapply trail_climbs; [done|apply (depth_fuel _ _ _ T)]|]. intros top window above path.
  assert (visit <$> visits type (event_path d fuel document ownerDocument defaultView (negb only && negb (noBubble type) && negb (isWindow elem)) elem) = path) as Hp.
  { unfold path, above, event_path. destruct (negb only && _ && _); [|done]. cbn. f_equal. rewrite <- list_fmap_compose. done. }
  rewrite fmap_take, Hp in Hs. split; [done|]. destruct r as [[ev|]|x]; [|done..]. destruct Hr as [Hr1 Hr2]. split; [|done].
  intros Hst. by rewrite <- Hp, <- fmap_take, Hr1.
Qed.

End visits.

(** * No traces *)

(** What a trigger leaves of the shared state *)
Record leaves (n n' : nstate) : Prop := {
  same_inline : inline n' = inline n;
  fewer_stops : stops n' ⊆ stops n;
  calmer : triggered n' = triggered n \/ triggered n' = None;
}.

#[global] Instance leaves_preorder : PreOrder leaves.
Proof.
  split; [split; auto|]. intros n1 n2 n3 [A1 B1 C1] [A2 B2 C2]. split; [congruence|set_solver|].
  destruct C1, C2; naive_solver congruence.
Qed.

(** Of a run that does not throw *)
Definition fine (A : Type) (r : res A) : Prop := is_ok r = true.

Lemma fine_bind A B (x : exn) : fine A (Throw x) -> fine B (Throw x).
Proof. done. Qed.
Lemma fine_ok A (a : A) : fine A (Ok a).
Proof. done. Qed.

(** The rules for this relation *)
Lemma leaves_same {A} s s' (r : res A) : same s s' -> keeps leaves fine s (r, s').
Proof. exact (keeps_same leaves fine s s' r). Qed.
Lemma leaves_from {A} s s1 (o : outcome A) : leaves (native s) (native s1) -> keeps leaves fine s1 o -> keeps leaves fine s o.
Proof. exact (keeps_from leaves fine s s1 o). Qed.
Lemma leaves_bind {A B} s (o : outcome A) (f : A -> store -> outcome B) :
  keeps leaves fine s o -> (forall a s1, keeps leaves fine s1 (f a s1)) ->
  keeps leaves fine s (match o with (Ok a, s1) => f a s1 | (Throw x, s1) => (Throw x, s1) end).
Proof. exact (keeps_bind leaves fine fine_bind fine_ok s o f). Qed.

Section restores.
Context {d : gmap nat SzMatch.node} {fuel : nat} {find_one : bool -> jstr -> nat -> nat -> bool}.
Context {call : nat -> nat -> event -> store -> outcome (answer * event)} {method : nat -> jstr -> store -> outcome unit}.
Hypothesis Hcall : forall n e ev s, keeps leaves fine s (call n e ev s).
Hypothesis Hmethod : forall e t s, keeps leaves fine s (method e t s).

Lemma note_leaves x s : leaves (native s) (native (note x s)).
Proof. split; [done|done|by left]. Qed.

Lemma run_path_leaves type vs last ev s : keeps leaves fine s (run_path d fuel find_one call type vs last ev s).
Proof using Hcall.
  revert last ev s. induction vs as [|[cur t] vs IH]; intros last ev s; cbn [run_path]; [by apply leaves_same|].
  destruct (propagationStopped ev); [by apply leaves_same|].
  apply (leaves_from _ (note (SVisit cur t) s)); [apply note_leaves|].
  apply (leaves_bind _ _ (fun ev1 s1 =>
    match native_handler d call type cur ev1 s1 with (Ok ev2, s2) => run_path d fuel find_one call type vs cur ev2 s2 | (Throw x, s2) => (Throw x, s2) end)).
  - apply (jquery_handler_keeps leaves fine fine_bind fine_ok Hcall).
  - intros ev1 s1. apply (leaves_bind _ _ (fun ev2 s2 => run_path d fuel find_one call type vs cur ev2 s2)); [|intros; apply IH].
    apply (native_handler_keeps leaves fine fine_bind fine_ok Hcall).
Qed.

Lemma default_action_leaves type elem last ev s : keeps leaves fine s (default_action method type elem last ev s).
Proof using Hcall Hmethod.
  unfold default_action. set (tmp := inline (native s) !! (elem, type)).
  match goal with |- context [method elem type ?s0] => set (s1 := s0); pose proof (Hmethod elem type s1) as H end.
  destruct (method elem type s1) as [[u|x] s2]; [|done]. intros _. specialize (H (fine_ok _ _)) as [Hi Hs _]. cbn [snd] in Hi, Hs.
  assert (inline (native s1) = match tmp with Some _ => delete (elem, type) (inline (native s)) | None => inline (native s) end) as Ei.
  { unfold s1. by destruct (propagationStopped ev), tmp. }
  assert (stops (native s1) = (if propagationStopped ev then {[(last, type)]} else ∅) ∪ stops (native s)) as Es.
  { unfold s1. destruct (propagationStopped ev), tmp; cbn; set_solver. }
  rewrite Ei in Hi. rewrite Es in Hs. cbn [snd].
  split; [| |right; by destruct (propagationStopped ev), tmp].
  - destruct tmp as [n|] eqn:Et; destruct (propagationStopped ev); cbn; rewrite Hi; try done; by apply insert_delete_id.
  - destruct tmp, (propagationStopped ev); cbn; set_solver.
Qed.

Lemma trigger_leaves document ownerDocument defaultView isWindow has_method a elem only s :
  keeps leaves fine s (trigger d fuel find_one call document ownerDocument defaultView isWindow has_method method a elem only s).
Proof using Hcall Hmethod.
  unfold trigger. destruct (match d !! elem with Some x => _ | None => _ end); [by apply leaves_same|].
  destruct (rfocusMorph _); [by apply leaves_same|]. destruct (type_and_names a) as [type names].
  destruct (negb _); [by apply leaves_same|]. destruct (leveraged _ _ _ || _); [by apply leaves_same|].
  match goal with |- context [run_path _ _ _ _ ?t ?vs ?l ?ev s] => pose proof (run_path_leaves t vs l ev s) as H end.
  destruct (run_path _ _ _ _ _ _ _ _ _) as [[[ev last]|x] s1]; [|done].
  apply (leaves_from _ s1); [by apply H|]. case_match; [|by apply leaves_same].
  pose proof (default_action_leaves type elem last (set_type type ev) s1) as Hd. by destruct (default_action _ _ _ _ _ _) as [[u|x] s2].
Qed.

End restores.

Section page.
Variable P : page.

Lemma with_answer_leaves {A} run (l : list act * res A) s :
  (forall a s, keeps leaves fine s (run a s)) -> keeps leaves fine s (with_answer run l s).
Proof using Type.
  intros Hrun. assert (forall l s, keeps leaves fine s (run_each run l s)) as Heach.
  { clear -Hrun. induction l as [|a l IH]; intros s; cbn [run_each]; [by apply leaves_same|].
    pose proof (Hrun a s) as H. destruct (run a s) as [[u|x] s1]; [|done]. apply (leaves_from _ s1); [by apply H|apply IH]. }
  unfold with_answer. pose proof (Heach l.1 s) as H. destruct (run_each run l.1 s) as [[u|x] s1]; [|done].
  intros _. by apply H.
Qed.

Lemma unit_of_keeps {A} s (o : outcome A) : keeps leaves fine s o -> keeps leaves fine s (unit_of o).
Proof using Type. by destruct o as [[a|x] s1]. Qed.

Lemma run_act_leaves fuel a s : keeps leaves fine s (run_act P fuel a s).
Proof using Type.
  revert a s. induction fuel as [|fuel IH]; intros a s; [by apply leaves_same|]. cbn [run_act].
  assert (forall n e ev s, keeps leaves fine s (with_answer (run_act P fuel) (p_code P n e ev s) s)) as Hcall by (intros; by apply with_answer_leaves).
  assert (forall e t s, keeps leaves fine s (with_answer (run_act P fuel) (p_method P e t s) s)) as Hmethod by (intros; by apply with_answer_leaves).
  destruct a as [elems types sel data f one|elems types sel f|a elem only|this ev].
  - destruct (on _ _ _ _ _ _ _ _ _) as [r s1] eqn:E. apply leaves_same. by eapply on_native.
  - destruct (off _ _ _ _ _) as [r s1] eqn:E. apply leaves_same. by eapply off_native.
  - apply unit_of_keeps. by apply trigger_leaves.
  - apply unit_of_keeps. by apply (eventHandle_keeps leaves fine fine_bind fine_ok).
Qed.

End page.

(** C8. Triggers leave no trace.  A page binds, unbinds and triggers, its handlers and the
    methods of its elements do the same to any depth, and events of the browser come in
    between: when it returns without an exception, every handler in an attribute is
    back in its place, no listener is left that stops propagation, and no type is
    muted. *)
Theorem triggers_leave_no_trace P fuel acts s s' :
  run_each (run_act P fuel) acts s = (Ok tt, s') -> triggered (native s) = None -> stops (native s) = ∅ ->
  inline (native s') = inline (native s) /\ triggered (native s') = None /\ stops (native s') = ∅.
Proof.
  intros H Ht Hs. pose proof (with_answer_leaves (run_act P fuel) (acts, Ok tt) s (fun a s => run_act_leaves P fuel a s)) as Hk.
  unfold with_answer in Hk. cbn [fst snd] in Hk. rewrite H in Hk. destruct (Hk (fine_ok _ _)) as [H1 H2 H3]. cbn [snd] in *.
  split; [done|]. split; [destruct H3; congruence|set_solver].
Qed.

(** * A method that throws *)

(** C33. A default action that throws mutes its type.  When the method that a trigger calls
    throws, [jQuery.event.triggered] stays set: until another default action resets it
    the main handler of no element calls anything for events of that type, and the
    handler of the element in an attribute is gone. *)
Theorem throwing_method_mutes d fuel find_one call document ownerDocument defaultView isWindow has_method method a elem s s' x :
  quiet call method ->
  (forall e t s, triggered (native (method e t s).2) = triggered (native s) /\ inline (native (method e t s).2) = inline (native s)) ->
  trigger d fuel find_one call document ownerDocument defaultView isWindow has_method method a elem false s = (Throw x, s') ->
  last (steps (native s')) = Some (SDefault elem (type_and_names a).1) ->
  SDefault elem (type_and_names a).1 ∉ steps (native s) ->
  inline (native s') !! (elem, (type_and_names a).1) = None /\
  forall this ev s2, triggered (native s2) = triggered (native s') -> e_type ev = (type_and_names a).1 ->
    eventHandle d fuel find_one call this ev s2 = (Ok ev, s2).
Proof.
  intros Hq Hm H Hl Hn. unfold trigger in H. destruct (match d !! elem with Some x => _ | None => _ end); [done|].
  destruct (rfocusMorph _); [done|]. destruct (type_and_names a) as [t names]. cbn [fst] in *.
  assert (last (steps (native s)) <> Some (SDefault elem t)) as Hn'.
  { intros [l E]%last_Some. apply Hn. rewrite E. apply elem_of_app. right. left. }
  destruct (negb (bool_decide (is_Some (namespace_pattern names)))); [by injection H as _ <-|]. destruct (leveraged d elem t || _); [by injection H as _ <-|].
  destruct (run_path _ _ _ _ _ _ _ _ _) as [[[ev last]|y] s1] eqn:E.
  - case_match; [|done]. unfold default_action in H.
    match type of H with context [method elem t ?s0] => pose proof (Hm elem t s0) as [H1 H2]; destruct (method elem t s0) as [[u|y] s2] end; [done|].
    injection H as _ <-. cbn [snd] in H1, H2. split.
    + rewrite H2. destruct (propagationStopped (set_type t ev)), (inline (native s1) !! (elem, t)) eqn:Ei; cbn; try done; by rewrite lookup_delete_eq.
    + intros this ev2 s3 Ht Ee. unfold eventHandle. rewrite Ht, H1, bool_decide_eq_true_2; [done|]. rewrite Ee. by destruct (propagationStopped (set_type t ev)).
  - injection H as _ <-. apply (run_path_steps d fuel find_one call method Hq) in E as (k & Hk & _). rewrite Hk in Hl.
    exfalso. revert Hl. generalize (take k (visits t (event_path d fuel document ownerDocument defaultView
      (negb false && negb (noBubble t) && negb (isWindow elem)) elem))) as vs.
    intros vs. destruct vs as [|v vs _] using rev_ind; [by rewrite app_nil_r|]. rewrite fmap_app, app_assoc. change (visit <$> [v]) with [visit v]. by rewrite last_snoc.
Qed.

(** * Instances *)

(** The list of [SzSelect] in a document with the window 9; its items have a method
    [click], and the third one a method [reset]. *)
Definition silent (n e : nat) (ev : event) (s : store) : outcome (answer * event) := (Ok (AUndef, ev), s).
Definition owner_of (e : nat) : option nat := if Nat.eqb e 0 then None else Some 0.
Definition click_method (e : nat) (t : jstr) : bool := Nat.ltb 1 e && (bool_decide (t = js "click") || bool_decide (t = js "reset")).

Definition click_list (method : nat -> jstr -> store -> outcome unit) (only : bool) (s : store) : outcome (option event) :=
  trigger SzSelect.page 20 (fun _ _ _ _ => false) silent 0 owner_of (fun _ => 9) (Nat.eqb 9) click_method method
    (AType (js "click.a")) 2 only s.

Definition idle (e : nat) (t : jstr) (s : store) : outcome unit := (Ok tt, s).
Definition fails (e : nat) (t : jstr) (s : store) : outcome unit := (Throw (UserError 7), s).

(** A store with a handler in an attribute of the list *)
Definition list_store : store := set_inline {[ (1, js "click") := 3 ]} store_start.

Lemma trigger_visits_path_witness :
  exists r s', click_list idle false list_store = (r, s') /\
    steps (native s') = [SVisit 2 (js "click"); SVisit 1 (js "click"); SVisit 0 (js "click"); SVisit 9 (js "click"); SDefault 2 (js "click")] /\
    exists up, climbs SzSelect.page 2 up.
Proof.
  destruct (click_list idle false list_store) as [r s'] eqn:E.
  assert (quiet silent idle) as Hq by (split; reflexivity).
  destruct (trigger_visits_path SzSelect.page 20 (fun _ _ _ _ => false) silent 0 owner_of (fun _ => 9) (Nat.eqb 9) click_method idle Hq
    SzSelect.page_depth SzSelect.page_tree (AType (js "click.a")) 2 false list_store r s') as (up & k & dflt & Hup & Hs & _); [exact E|].
  exists r, s'. split; [reflexivity|]. split; [|exists up; exact Hup].
  clear Hs Hup k dflt up. vm_compute in E. injection E as _ <-. reflexivity.
Defined.

(** A click on the third item triggers [reset] there before the browser's own event
    reaches the handlers of the list. *)
Definition nested_page (inner : bool) : JqTrigger.page := {|
  p_dom := SzSelect.page; p_fuel := 20; p_find := fun _ _ _ _ => false; p_check := fun _ => Ok tt; p_document := 0; p_owner := owner_of;
  p_view := fun _ => 9; p_window := Nat.eqb 9; p_has_method := click_method;
  p_code := fun n e ev s => ([], Ok (AUndef, ev));
  p_method := fun e t s => (if bool_decide (t = js "click") then
    (if inner then [ATrigger (AType (js "reset")) 4 false] else []) ++ [ABrowser 1 (new_event (js "click") 4)] else [], Ok tt);
|}.

Definition click_acts : list act :=
  [AOn [1] (js "click") ArgNone ArgNone (ArgFn (FUser 5)) false; ATrigger (AType (js "click")) 4 false].

Lemma triggers_leave_no_trace_witness :
  exists s', run_each (run_act (nested_page true) 5) click_acts list_store = (Ok tt, s') /\
    inline (native s') = {[ (1, js "click") := 3 ]} /\ triggered (native s') = None /\ stops (native s') = ∅.
Proof.
  destruct (run_each (run_act (nested_page true) 5) click_acts list_store) as [[u|x] s'] eqn:E; [|vm_compute in E; discriminate E].
  destruct u. exists s'. split; [reflexivity|]. exact (triggers_leave_no_trace (nested_page true) 5 click_acts list_store s' E eq_refl eq_refl).
Defined.

Lemma throwing_method_mutes_witness :
  exists s', click_list fails false (set_inline {[ (2, js "click") := 3 ]} store_start) = (Throw (UserError 7), s') /\
    inline (native s') !! (2, js "click") = None /\
    forall this ev s2, triggered (native s2) = triggered (native s') -> e_type ev = js "click" ->
      eventHandle SzSelect.page 20 (fun _ _ _ _ => false) silent this ev s2 = (Ok ev, s2).
Proof.
  set (s := set_inline {[ (2, js "click") := 3 ]} store_start).
  destruct (click_list fails false s) as [r s'] eqn:E. pose proof E as E'. vm_compute in E'. injection E' as Hr Hs. subst r. exists s'.
  split; [reflexivity|]. apply (throwing_method_mutes SzSelect.page 20 (fun _ _ _ _ => false) silent 0 owner_of (fun _ => 9) (Nat.eqb 9)
    click_method fails (AType (js "click.a")) 2 s s' (UserError 7)).
  - split; reflexivity.
  - split; reflexivity.
  - exact E.
  - rewrite <- Hs. vm_compute. reflexivity.
  - vm_compute. intros H. inversion H.
Defined.

(** A trigger inside a default action takes the guard of the outer one away: the
    browser's event then calls the handlers a second time. *)
Lemma nested_trigger_repeats :
  calls (run_each (run_act (nested_page false) 5) click_acts list_store).2 = [(FUser 5, 1)] /\
  calls (run_each (run_act (nested_page true) 5) click_acts list_store).2 = [(FUser 5, 1); (FUser 5, 1)].
Proof. split; vm_compute; reflexivity. Qed.

End JqTriggerProofs.
